(* ===== verification/_CoqProject ===== *)
-Q . S2P
Prelude.v
GoText.v
PaxosTypes.v
PaxosLog.v
PaxosNode.v
PaxosVoting.v
PaxosSystem.v
PaxosElection.v
PaxosInvariant.v
PaxosSteps.v
PaxosSafety.v
PaxosReplica.v
PaxosAgreement.v
PaxosRaces.v
PaxosValidity.v
ReplicatedLog.v
Ledger.v
TwoPC.v
ShardParticipant.v
Faults.v
Transport.v
Inbox.v
Cluster.v
Engine.v
EngineProofs.v
EngineLedger.v
EngineTransfer.v
ReplicatedEngine.v
Money.v
Console.v
Session.v
Accounts.v
Bank.v
ReplicatedBank.v
Payments.v
GatewayAuth.v
TransactionIds.v
Client.v
ClientSession.v
Flags.v
Deployment.v
Lifecycle.v
Serving.v
Outage.v
Processes.v
Remote.v
