(* ===== verification/Prelude.v ===== *)
(** * paxos-2pc-payments: a verification development

    The repository holds two systems on one consensus library.  The _cluster_ is
    a sharded key-value store for balances: each shard is a Multi-Paxos group
    (src/internal/paxos) that replicates a ledger (src/internal/ledger),
    transfers between shards go through two-phase commit (src/internal/twopc),
    and an engine (src/internal/cluster) runs an operator's console commands,
    which come from a browser through src/internal/gateway, and injects faults
    (src/internal/transport).  The _payment system_ has banks (src/bank,
    src/internal/accounts), each a Paxos group of its own, a gateway that
    authenticates users and coordinates payments between banks (src/gateway), a
    server of transaction ids (src/transaction_id_server) and a client with an
    offline queue (src/client).

    ** Files

    Shared.  Prelude: fixed-width integers, strings, pigeonhole, hints.  GoText:
    the functions of fmt, strconv and strings the program uses, on ASCII.

    Consensus.  PaxosTypes: ballots, entries, messages (paxos.go).  PaxosLog: the
    durable log and its files (log.go).  PaxosNode: every handler and every step
    of a node's goroutines as a function of the node (node.go); a goroutine is
    cut where it sends or waits, and what the disk, the clock and the peers do is
    an argument.  PaxosSystem: replicas with the messages in flight, as a step
    relation over these functions.  PaxosVoting: the abstract protocol, votes and
    promises with a chosen value that never changes.  PaxosElection,
    PaxosInvariant, PaxosSteps, PaxosSafety: the invariant that relates the two
    and its preservation by every step.  PaxosReplica: theorems on a single node.
    PaxosAgreement: refinement and agreement, the conditions on a run they need,
    and, in Journal, runs without them in which replicas disagree.  PaxosRaces:
    the handlers cut at their critical sections, with any number of them running
    on a replica.  PaxosValidity: where the commands found in a group come from.
    ReplicatedLog: a group as one log that grows, and the call of Propose from
    its slot to its result.

    The cluster.  Ledger: the state machine (ledger.go).  TwoPC: the coordinator
    over interfaces of participants and of networks, and the network that delays,
    repeats, reorders and loses calls and answers as an instance (twopc.go).
    ShardParticipant: a shard's ledger as a participant.  Faults, Transport: the fault table and delivery
    (transport/, memnet.go, logstream.go).  Cluster, Engine: topology, the view of
    a shard, and the engine in a state monad over an interface of replicas
    (replica.go, engine.go, narrate.go); EngineProofs and EngineLedger its
    theorems, the latter over an interface of replicas that keep a ledger;
    EngineTransfer: such an engine as an instance of the networks of TwoPC.
    ReplicatedEngine: Paxos groups of ledgers as an instance of that interface
    (replica.go's local replicas), so that the engine's theorems hold of them.
    Inbox: the in-process network as goroutines (inproc.go).  Console, Session: the
    grammar, the rate limit over float64 or exact tokens, and a browser session
    whose posts go through the bounded queue to its writer (gateway/).  Remote: node
    processes behind their control services, as an instance of the engine's
    interface of replicas (remote.go, build.go).  Lifecycle: the goroutines of a
    cluster and the order of closing it (build.go, engine.go, twopc.go, node.go,
    inproc.go).

    Processes.  Flags: the flag package and the command lines of every program.
    Deployment: addresses (cmd/cluster, build.go, bank/main.go).  Processes: the
    programs from [main] to serving and stopping as traces of what they open,
    start and close, with their TLS configurations (tlsconfig.go, the four
    main.go, [ServeNode]).  Serving: consensus over HTTP, the health gate, the
    console's routes and the life of browser connections (httptransport.go,
    health.go, gateway.go).  Outage: the operators' up/down switches and what one
    does to a Paxos group whose timers tick in any order (health.go, node.go).

    The payment system.  Money: amounts, as float64 and as exact cents.  Accounts:
    the CSV store (accounts.go).  Bank: reservations, ledger file, state machine
    and RPCs (bank/).  ReplicatedBank: those RPCs over a Paxos group of banks.
    Payments: the coordinator as a program in a free monad of
    registry look-ups and calls, any number of attempts at a payment running
    concurrently over the banks (transfer.go, registry.go).  GatewayAuth: logins,
    sessions, ownership and handlers (auth.go, middleware.go, service.go).
    TransactionIds: the id server.  Client: the offline queue and seeding
    (queue.go, seed.go).  ClientSession: the client from startup to quitting, over
    the gateway's users and the id server (client/main.go).

    ** What the theorems show

    Consensus.  A run that keeps to the rules of PaxosSteps ([disciplined]) refines
    the voting protocol, so replicas apply one sequence of commands and what is
    marked committed for a slot is the same command everywhere and for good; the
    handlers keep promises, a new leader adopts the highest accepted entries, the
    apply loop is exact.  The code does not enforce all of these rules, and they
    are needed: PaxosAgreement.Journal has four runs of the code that break them
    and disagree, and PaxosRaces.Races a fifth, in which the handlers of one
    replica interleave.  Handlers that do not overlap on a replica (those of the
    in-process network do not: Inbox) do what their single steps do.  In runs that
    keep to the rules a group refines a log that only grows, and a proposal that
    returns was applied once, at one place of it, and returned the state machine's
    answer there.  The log survives a restart when every write succeeded and every
    entry fits in a line, and a torn append loses only its own entry.

    Shards.  A vote is kept, decisions are idempotent, late prepares are refused,
    money is conserved modulo 2^64; transfers across shards under a fresh id are
    atomic and commits in doubt land.  The engine sends a command only to the
    leader of a majority; an acknowledged PUT survives fault commands as long as no
    unanswered proposal about the account is left, which could still land; waits
    end, fault commands do exactly what they say, and node processes follow the
    engine's fault table.  Over Paxos groups in runs that keep to the rules, every
    replica shows the ledger of what was proposed for its slots, in slot order,
    and a transfer between two groups is all or nothing.  Closing a cluster ends
    its loops and its network; recovery and catch-up goroutines begun before may
    outlive it, and can only end.  A session posts one result for every line, in
    order, and its bounded queue keeps every result if the writer keeps running
    and takes a frame whenever one waits for room; otherwise a result can be given
    up.

    Processes.  Spawned nodes read their command lines back and serve at the
    addresses the gateway dials, if the SHARDS and NODES they inherit are in range;
    the listeners of the payment system accept only clients of their authority; a
    bank serves only as a member of its group and stops in order; connections are
    bounded and release their clusters.  Through any schedule of timer ticks, a
    leader switched off by its operator keeps leading while all other running
    replicas are up and hear it, against the comments; a follower switched off
    campaigns and takes over (Outage.OutageExample).

    Payments.  With exact amounts: banks never overdraw and keep their votes;
    attempts at a payment that overlap, fail or are repeated pay at most once if
    what is done is recorded and nobody else uses the accounts; and a payment that
    could be made when it was first tried completes on a later try on a working
    network, however far earlier attempts came, if nobody else claims the funds.
    A replicated bank keeps its votes across a change of leaders, and its replicas
    are one bank at different times, with working disks, no restarts and runs that
    keep to the rules.  With any amounts: a settled key moves no more money, there
    is no credit without a debit, and success is reported only for both.  The
    amounts of the code are float64, which is not exact (Money.float64_not_exact);
    Bank.BankExamples and Client.ClientExamples show what float64 and two decimals
    do: overdrafts, created money, votes that depend on the order of a map.  A
    transfer runs exactly when the gateway is up and its caller owns the account;
    tokens last their time; ids do not repeat while the counter is written whole;
    the queue forgets nothing while the client runs; and a client session sends
    every transfer under an id of its own, reports each once, and is let through
    with the token of its login.

    ** Bounds and fuel

    Loops that wait for a deadline have fuel computed from the deadline and the
    polling interval, and EngineProofs.waits_end shows that the deadline, not the
    fuel, ends them.  The coordinators' loops recurse on their lists and on their
    number of attempts.  The client's menu has one turn more than there are lines
    of input, which ClientSession.menu_ends shows to be enough.  Other functions
    are total.  int64 and uint64 arithmetic
    wraps where the source's does.

    ** Not modelled

    Interleavings inside the steps of node.go other than its message handlers
    (between the critical sections of a campaign, of replicate, of stepDown and of
    catch-up), and of two writers of the client's queue file.  In ReplicatedEngine
    the steps of a group are those that keep to the rules of PaxosSteps, and the
    engine's calls are not themselves interleaved.  Bytes above 127 as UTF-8, exponents in decimal texts and
    the quoting rules of CSV: files of records are lists of records, JSON files
    are the values they encode.  The inside of gRPC, HTTP and TLS connections, terminal
    output and colours, signals, generated code.  The time a call takes, except in
    the engine's waits.  The recovery a campaign of Outage would start, and what a
    recovery or catch-up that outlives Close still does.  A bank's group is one replicated state in Payments, which
    ReplicatedBank justifies call by call; what a restart does to a single replica
    is in Bank. *)

From stdpp Require Export prelude gmap strings list fin_maps fin_sets.
From Stdlib Require Export ZArith Lia.
From Stdlib Require Export Ascii.
From Stdlib Require Import OrdersEx.

(** ** Hint databases and tactics *)

Create HintDb payments.

#[export] Hint Extern 5 (_ <= _)%N => lia : payments.
#[export] Hint Extern 5 (_ < _)%N => lia : payments.

(** Case analysis on every [match]/[if] of a hypothesis or of the goal, with
    the equation kept. *)
Ltac step_match H :=
  match type of H with
  | context [match ?x with _ => _ end] => destruct x eqn:?
  end.

Ltac crush_match H := repeat (step_match H; simplify_eq/=).

Ltac goal_match :=
  match goal with
  | |- context [match ?x with _ => _ end] => destruct x eqn:?
  end.

(** Split the goal's conjunctions and try the common closers. *)
Ltac split_done := repeat split; simplify_eq/=; eauto with payments.

(** ** Go's fixed-width integers

    A Go [int64] is a [Z] and a Go [uint64] an [N]; an operation that can leave
    the range is written with [wrap64] or [u64], the wrap-around of the
    language. *)

Definition int64_min : Z := - 2 ^ 63.
Definition int64_max : Z := 2 ^ 63 - 1.
Definition in_int64 (z : Z) : Prop := (int64_min <= z <= int64_max)%Z.
Definition wrap64 (z : Z) : Z := ((z + 2 ^ 63) mod 2 ^ 64 - 2 ^ 63)%Z.
Definition u64 (n : N) : N := (n mod 2 ^ 64)%N.
Definition u64_max : N := (2 ^ 64 - 1)%N.

#[export] Instance in_int64_dec z : Decision (in_int64 z).
Proof. unfold in_int64. apply _. Defined.

Lemma wrap64_id z : in_int64 z -> wrap64 z = z.
Proof.
  unfold in_int64, int64_min, int64_max, wrap64. intros H.
  rewrite Z.mod_small; lia.
Qed.

Lemma wrap64_range z : in_int64 (wrap64 z).
Proof.
  unfold in_int64, int64_min, int64_max, wrap64.
  pose proof (Z.mod_pos_bound (z + 2 ^ 63) (2 ^ 64)). lia.
Qed.

Lemma wrap64_add_l a b : wrap64 (wrap64 a + b) = wrap64 (a + b).
Proof.
  unfold wrap64.
  replace ((a + 2 ^ 63) mod 2 ^ 64 - 2 ^ 63 + b + 2 ^ 63)%Z
    with ((a + 2 ^ 63) mod 2 ^ 64 + b)%Z by lia.
  rewrite Z.add_mod_idemp_l by lia. f_equal. f_equal. lia.
Qed.

Lemma u64_id n : (n <= u64_max)%N -> u64 n = n.
Proof. unfold u64, u64_max. intros H. apply N.mod_small. lia. Qed.

(** ** Go's string order

    Go compares strings byte by byte, which is [String.compare]. *)

Definition str_ltb (a b : string) : bool :=
  match String.compare a b with Lt => true | _ => false end.

Lemma str_compare_refl a : String.compare a a = Eq.
Proof.
  pose proof (String.compare_antisym a a) as H.
  destruct (String.compare a a); done.
Qed.

Lemma str_compare_eq a b : String.compare a b = Eq <-> a = b.
Proof.
  split; [apply String.compare_eq_iff | intros ->; apply str_compare_refl].
Qed.

Lemma str_compare_antisym a b : String.compare b a = CompOpp (String.compare a b).
Proof. apply String.compare_antisym. Qed.

Lemma str_compare_lt_trans a b c :
  String.compare a b = Lt -> String.compare b c = Lt -> String.compare a c = Lt.
Proof. pose proof String_as_OT.lt_strorder as [_ T]. apply T. Qed.

Lemma str_ltb_irrefl a : str_ltb a a = false.
Proof. unfold str_ltb. by rewrite str_compare_refl. Qed.

Lemma str_app_cons c (s t : string) : String c s +:+ t = String c (s +:+ t).
Proof. done. Qed.

Lemma str_app_nil_l (s : string) : "" +:+ s = s.
Proof. done. Qed.

Lemma str_app_nil_r (s : string) : s +:+ "" = s.
Proof. induction s as [|c s IH]; [done|]. by rewrite str_app_cons, IH. Qed.

Lemma str_app_assoc (a b c : string) : (a +:+ b) +:+ c = a +:+ (b +:+ c).
Proof. induction a as [|x a IH]; [done|]. by rewrite !str_app_cons, IH. Qed.

(** The first [k] bytes of a string. *)
Fixpoint str_take (k : nat) (s : string) : string :=
  match k, s with
  | S k', String c s' => String c (str_take k' s')
  | _, _ => EmptyString
  end.

(** ** Counting distinct members: the pigeonhole behind quorums *)

Lemma subset_sizes_meet {A} `{Countable A} (U X Y : gset A) :
  X ⊆ U -> Y ⊆ U -> size U < size X + size Y -> exists a, a ∈ X /\ a ∈ Y.
Proof.
  intros HX HY Hsz.
  destruct (decide (X ∩ Y = ∅)) as [He|Hne].
  - exfalso.
    assert (size (X ∪ Y) = size X + size Y) as Hu by (apply size_union; set_solver).
    assert (size (X ∪ Y) <= size U) by (apply subseteq_size; set_solver). lia.
  - apply set_choose_L in Hne as [a Ha]. exists a. set_solver.
Qed.

Lemma size_list_to_set_nodup {A} `{Countable A} (l : list A) :
  NoDup l -> size (list_to_set l : gset A) = length l.
Proof. apply size_list_to_set. Qed.

(** ** Lists *)

Lemma list_find_first {A} (P : A -> Prop) `{!forall x, Decision (P x)} (l : list A) x :
  x ∈ l -> P x -> exists i y, list_find P l = Some (i, y).
Proof. intros Hin HP. apply (list_find_elem_of P) in Hin; [|done]. destruct Hin as [[i y] ?]. eauto. Qed.

(** Inserting pairs one after the other, when the keys differ. *)
Lemma foldl_insert_pairs {V} (l : list (string * V)) (m : gmap string V) :
  NoDup l.*1 -> foldl (fun m p => <[p.1 := p.2]> m) m l = list_to_map l ∪ m.
Proof.
  revert m. induction l as [|[k v] l IH]; intros m Hnd; simpl; [by rewrite (left_id_L ∅ (∪))|].
  apply NoDup_cons in Hnd as [Hni Hnd]. rewrite IH by done.
  rewrite <- insert_union_r by by apply not_elem_of_list_to_map_1. by rewrite insert_union_l.
Qed.

(** Appending to a history only adds members. *)
Lemma elem_of_snoc {A} (x y : A) (l : list A) : x ∈ l ++ [y] <-> x ∈ l \/ x = y.
Proof. rewrite elem_of_app, list_elem_of_singleton. done. Qed.

#[export] Hint Resolve wrap64_range : payments.
