(* ===== verification/GoText.v ===== *)
(** * The text functions of Go's standard library the program uses

    [fmt]'s integer verbs, [strconv.ParseInt], [strings.TrimSpace], [Fields],
    [ToLower], [Split], [Join] and [Cut], on ASCII text: a byte above 127 is an
    ordinary character here, where Go decodes UTF-8 first. *)

From Stdlib Require Import DecimalString DecimalN DecimalNat Decimal.
From S2P Require Import Prelude.

(** ** Integers *)

Definition fmt_N (n : N) : string := NilZero.string_of_uint (N.to_uint n).

(** [%d] and [%+d] of an int64. *)
Definition fmt_d (z : Z) : string :=
  match z with
  | Zneg p => String "-"%char (fmt_N (Npos p))
  | _ => fmt_N (Z.to_N z)
  end.
Definition fmt_plus_d (z : Z) : string := (if (0 <=? z)%Z then "+" else "") +:+ fmt_d z.

(** [%q] of a printable string without quotes or backslashes. *)
Definition dquote : string := String (Ascii.ascii_of_nat 34) EmptyString.
Definition fmt_q (s : string) : string := dquote +:+ s +:+ dquote.

Definition byte (c : Ascii.ascii) : nat := Ascii.nat_of_ascii c.
Definition between (lo hi : nat) (c : Ascii.ascii) : bool := (lo <=? byte c) && (byte c <=? hi).
Definition is_digit (c : Ascii.ascii) : bool := between 48 57 c.

(** The longest prefix of digits, and the rest. *)
Fixpoint take_digits (s : string) : string * string :=
  match s with
  | EmptyString => (EmptyString, EmptyString)
  | String c s' =>
      if is_digit c then let '(d, rest) := take_digits s' in (String c d, rest)
      else (EmptyString, s)
  end.

(** A non-empty run of digits. *)
Definition parse_N (s : string) : option N := N.of_uint <$> NilZero.uint_of_string s.

(** An optional sign, and the rest. *)
Definition take_sign (s : string) : bool * string :=
  match s with
  | String c s' =>
      if Ascii.eqb c "-"%char then (true, s') else if Ascii.eqb c "+"%char then (false, s') else (false, s)
  | EmptyString => (false, s)
  end.

Definition signed (neg : bool) (n : N) : option Z :=
  let z := if neg then (- Z.of_N n)%Z else Z.of_N n in
  if bool_decide (in_int64 z) then Some z else None.

(** [strconv.ParseInt(s, 10, 64)]; [None] is any error. *)
Definition ParseInt (s : string) : option Z :=
  let '(neg, digits) := take_sign s in
  n ← parse_N digits; signed neg n.

Lemma parse_fmt_N n : parse_N (fmt_N n) = Some n.
Proof.
  unfold parse_N, fmt_N.
  assert (N.to_uint n <> Decimal.Nil) as Hn.
  { destruct n as [|p]; [done|]. intros He.
    pose proof (DecimalN.Unsigned.of_to (Npos p)) as Ho. by rewrite He in Ho. }
  rewrite NilZero.usu by done. simpl. f_equal. apply DecimalN.Unsigned.of_to.
Qed.

Lemma digits_of_uint d :
  take_digits (NilEmpty.string_of_uint d) = (NilEmpty.string_of_uint d, EmptyString).
Proof. induction d as [| d IH| d IH| d IH| d IH| d IH| d IH| d IH| d IH| d IH| d IH]; simpl; try rewrite IH; done. Qed.

(** Digits followed by something that is not one. *)
Definition ends_digits (rest : string) : Prop :=
  match rest with String c _ => is_digit c = false | EmptyString => True end.

Lemma take_digits_app s rest :
  take_digits s = (s, EmptyString) -> ends_digits rest -> take_digits (s +:+ rest) = (s, rest).
Proof.
  intros Hs Hr. induction s as [|c s IH].
  - rewrite str_app_nil_l. destruct rest as [|c rest]; [done|]. simpl in *. by rewrite Hr.
  - rewrite str_app_cons. simpl in *. destruct (is_digit c); [|done].
    destruct (take_digits s) as [d r]. injection Hs as -> ->. by rewrite IH.
Qed.

Lemma fmt_N_digits n : take_digits (fmt_N n) = (fmt_N n, EmptyString).
Proof.
  unfold fmt_N, NilZero.string_of_uint. destruct (N.to_uint n) eqn:E; try apply digits_of_uint; done.
Qed.

Lemma take_digits_fmt_N n rest : ends_digits rest -> take_digits (fmt_N n +:+ rest) = (fmt_N n, rest).
Proof. intros Hr. apply take_digits_app; [apply fmt_N_digits|done]. Qed.

(** A printed number starts with a digit, so with no sign. *)
Lemma fmt_N_head n : exists c s, fmt_N n = String c s /\ is_digit c = true.
Proof.
  pose proof (fmt_N_digits n) as Hd. destruct (fmt_N n) as [|c s] eqn:E.
  - pose proof (parse_fmt_N n) as Hp. rewrite E in Hp. done.
  - exists c, s. split; [done|]. simpl in Hd. by destruct (is_digit c).
Qed.

Lemma take_sign_digit c s : is_digit c = true -> take_sign (String c s) = (false, String c s).
Proof.
  intros Hc. simpl. destruct (Ascii.eqb_spec c "-"%char) as [->|]; [done|].
  destruct (Ascii.eqb_spec c "+"%char) as [->|]; [done|]. done.
Qed.

Lemma take_sign_fmt_N n rest : take_sign (fmt_N n +:+ rest) = (false, fmt_N n +:+ rest).
Proof.
  destruct (fmt_N_head n) as (c & s & -> & Hc). rewrite str_app_cons. by apply take_sign_digit.
Qed.

Lemma parse_fmt_d z : in_int64 z -> ParseInt (fmt_d z) = Some z.
Proof.
  intros Hz. unfold ParseInt, fmt_d.
  assert (forall n, z = Z.of_N n -> ('(neg, digits) ← Some (take_sign (fmt_N n));
            n ← parse_N digits; signed neg n) = Some z) as Hpos.
  { intros n ->. rewrite <- (str_app_nil_r (fmt_N n)), take_sign_fmt_N, str_app_nil_r. simpl.
    rewrite parse_fmt_N. simpl. unfold signed. by rewrite bool_decide_true. }
  destruct z as [|p|p].
  - apply (Hpos 0%N). done.
  - apply (Hpos (Npos p)). done.
  - simpl. rewrite parse_fmt_N. simpl. unfold signed. by rewrite bool_decide_true.
Qed.

(** ** Words and lines *)

(** The ASCII white space of [unicode.IsSpace]: tab, newline, VT, FF, CR, space. *)
Definition is_space (c : Ascii.ascii) : bool := between 9 13 c || (byte c =? 32).

(** [strings.Fields]: the maximal runs of other characters. *)
Fixpoint fields_go (cur : string) (s : string) : list string :=
  let flush := match cur with EmptyString => [] | _ => [cur] end in
  match s with
  | EmptyString => flush
  | String c s' => if is_space c then flush ++ fields_go "" s' else fields_go (cur +:+ String c "") s'
  end.
Definition Fields (s : string) : list string := fields_go "" s.

Fixpoint all_space (s : string) : bool :=
  match s with EmptyString => true | String c s' => is_space c && all_space s' end.

Fixpoint trim_left (s : string) : string :=
  match s with String c s' => if is_space c then trim_left s' else s | EmptyString => "" end.
Fixpoint trim_right (s : string) : string :=
  match s with
  | EmptyString => ""
  | String c s' => if all_space s then "" else String c (trim_right s')
  end.
Definition TrimSpace (s : string) : string := trim_right (trim_left s).

Definition lower (c : Ascii.ascii) : Ascii.ascii :=
  if between 65 90 c then Ascii.ascii_of_nat (byte c + 32) else c.
Fixpoint ToLower (s : string) : string :=
  match s with EmptyString => "" | String c s' => String (lower c) (ToLower s') end.

(** [strings.Split] on a one-byte separator: at least one piece. *)
Fixpoint split_go (sep : Ascii.ascii) (cur : string) (s : string) : list string :=
  match s with
  | EmptyString => [cur]
  | String c s' => if Ascii.eqb c sep then cur :: split_go sep "" s' else split_go sep (cur +:+ String c "") s'
  end.
Definition Split (sep : Ascii.ascii) (s : string) : list string := split_go sep "" s.

Fixpoint Join (sep : string) (l : list string) : string :=
  match l with
  | [] => ""
  | [x] => x
  | x :: rest => x +:+ sep +:+ Join sep rest
  end.

(** Words have no white space and are not empty. *)
Fixpoint no_space (s : string) : bool :=
  match s with EmptyString => true | String c s' => negb (is_space c) && no_space s' end.
Definition is_word (s : string) : Prop := s <> "" /\ no_space s = true.

Lemma no_space_app a b : no_space (a +:+ b) = no_space a && no_space b.
Proof. induction a as [|c a IH]; [done|]. rewrite str_app_cons. simpl. rewrite IH. by rewrite andb_assoc. Qed.

Lemma fields_go_words cur s :
  no_space cur = true -> Forall is_word (fields_go cur s).
Proof.
  revert cur. induction s as [|c s IH]; intros cur Hcur; simpl.
  - destruct cur; constructor; [|constructor]. done.
  - destruct (is_space c) eqn:Hc.
    + apply Forall_app. split; [|by apply IH]. destruct cur; constructor; [|constructor]. done.
    + apply IH. rewrite no_space_app, Hcur. simpl. by rewrite Hc.
Qed.

Lemma Fields_words s : Forall is_word (Fields s).
Proof. by apply fields_go_words. Qed.

Lemma fields_go_word cur w rest :
  no_space w = true -> fields_go cur (w +:+ rest) = fields_go (cur +:+ w) rest.
Proof.
  revert cur. induction w as [|c w IH]; intros cur Hw; [by rewrite str_app_nil_l, str_app_nil_r|].
  rewrite str_app_cons. simpl in *. apply andb_prop in Hw as [Hc Hw]. apply negb_true_iff in Hc.
  rewrite Hc, IH by done. by rewrite str_app_assoc.
Qed.

(** Words joined by single spaces come back. *)
Lemma Fields_Join ws : Forall is_word ws -> Fields (Join " " ws) = ws.
Proof.
  unfold Fields. induction 1 as [|w ws [Hne Hw] Hws IH]; [done|].
  assert (forall s, fields_go w (String " " s) = w :: fields_go "" s) as Hflush by by destruct w.
  destruct ws as [|w' ws].
  - simpl. rewrite <- (str_app_nil_r w) at 1. rewrite fields_go_word, str_app_nil_l by done.
    by destruct w.
  - change (Join " " (w :: w' :: ws)) with (w +:+ " " +:+ Join " " (w' :: ws)).
    rewrite fields_go_word, str_app_nil_l by done. rewrite str_app_cons, str_app_nil_l.
    rewrite Hflush. by rewrite IH.
Qed.

(** ** Pieces between separators *)

Fixpoint all_chars (p : Ascii.ascii -> bool) (s : string) : bool :=
  match s with EmptyString => true | String c s' => p c && all_chars p s' end.

Lemma all_chars_app p a b : all_chars p (a +:+ b) = all_chars p a && all_chars p b.
Proof. induction a as [|c a IH]; [done|]. rewrite str_app_cons. simpl. by rewrite IH, andb_assoc. Qed.

Lemma all_chars_impl (p p' : Ascii.ascii -> bool) s :
  (forall c, p c = true -> p' c = true) -> all_chars p s = true -> all_chars p' s = true.
Proof. intros Hp. induction s as [|c s IH]; [done|]. simpl. intros [? ?]%andb_prop. by rewrite Hp, IH. Qed.

Lemma take_digits_all s : take_digits s = (s, EmptyString) -> all_chars is_digit s = true.
Proof.
  induction s as [|c s IH]; [done|]. simpl. destruct (is_digit c); [|done].
  destruct (take_digits s) as [d r]. intros [= -> ->]. by apply IH.
Qed.

Lemma fmt_N_chars n : all_chars is_digit (fmt_N n) = true.
Proof. apply take_digits_all, fmt_N_digits. Qed.

Lemma split_go_free sep cur w rest :
  all_chars (fun c => negb (Ascii.eqb c sep)) w = true -> split_go sep cur (w +:+ rest) = split_go sep (cur +:+ w) rest.
Proof.
  revert cur. induction w as [|c w IH]; intros cur Hw; [by rewrite str_app_nil_l, str_app_nil_r|].
  rewrite str_app_cons. simpl in *. apply andb_prop in Hw as [Hc Hw]. apply negb_true_iff in Hc.
  rewrite Hc, IH by done. by rewrite str_app_assoc.
Qed.

(** Pieces without the separator come back. *)
Lemma Split_Join sep ws :
  ws <> [] -> Forall (fun w => all_chars (fun c => negb (Ascii.eqb c sep)) w = true) ws ->
  Split sep (Join (String sep "") ws) = ws.
Proof.
  intros Hne Hall. unfold Split. destruct Hall as [|w ws Hw Hall]; [done|]. clear Hne.
  assert (forall cur, split_go sep cur (Join (String sep "") (w :: ws)) =
            match w :: ws with x :: rest => (cur +:+ x) :: rest | [] => [] end) as Hg; [|by rewrite Hg, str_app_nil_l].
  revert w Hw. induction Hall as [|w' ws Hw' Hall IH]; intros w Hw cur.
  - simpl. rewrite <- (str_app_nil_r w) at 1. by rewrite split_go_free.
  - change (Join (String sep "") (w :: w' :: ws)) with (w +:+ String sep "" +:+ Join (String sep "") (w' :: ws)).
    rewrite split_go_free, str_app_cons, str_app_nil_l by done. cbn [split_go]. rewrite Ascii.eqb_refl.
    by rewrite (IH w' Hw'), str_app_nil_l.
Qed.

(** [strings.Cut] on a one-byte separator. *)
Fixpoint Cut (sep : Ascii.ascii) (s : string) : option (string * string) :=
  match s with
  | EmptyString => None
  | String c s' =>
      if Ascii.eqb c sep then Some ("", s') else '(a, b) ← Cut sep s'; Some (String c a, b)
  end.

Lemma Cut_render sep a b :
  all_chars (fun c => negb (Ascii.eqb c sep)) a = true -> Cut sep (a +:+ String sep b) = Some (a, b).
Proof.
  induction a as [|c a IH]; [rewrite str_app_nil_l; simpl; by rewrite Ascii.eqb_refl|].
  rewrite str_app_cons. simpl. intros [Hc Ha]%andb_prop. apply negb_true_iff in Hc. rewrite Hc.
  rewrite (IH Ha). done.
Qed.
