(* ===== verification/PaxosTypes.v ===== *)
(** * internal/paxos/paxos.go: ballots, entries, messages and quorums

    The data types of the protocol, the total order on ballots that breaks ties
    by node id, and the size of a majority.  [Node.Config] and [Role] of
    internal/paxos/node.go are here too, since every later file needs them. *)

From S2P Require Import Prelude.

Abbreviation NodeID := string (only parsing).
Abbreviation bytes := string (only parsing).

(** ** Ballots *)

Record Ballot := mkBallot { Num : N; Node_ : NodeID }.

#[export] Instance Ballot_eq_dec : EqDecision Ballot.
Proof. solve_decision. Defined.

#[export] Instance Ballot_inhabited : Inhabited Ballot := populate (mkBallot 0 "").

Definition zeroBallot : Ballot := mkBallot 0 "".

(** The result is Go's -1, 0 or 1. *)
Definition Compare (b other : Ballot) : Z :=
  if (Num b <? Num other)%N then -1
  else if (Num other <? Num b)%N then 1
  else if str_ltb (Node_ b) (Node_ other) then -1
  else if str_ltb (Node_ other) (Node_ b) then 1
  else 0.

Definition Less (b other : Ballot) : bool := (Compare b other <? 0)%Z.
Definition AtLeast (b other : Ballot) : bool := (0 <=? Compare b other)%Z.
Definition IsZero (b : Ballot) : bool := ((Num b =? 0)%N && String.eqb (Node_ b) "").

(** Propositional order on ballots; [Less] and [AtLeast] decide it. *)
Definition blt (a b : Ballot) : Prop := Less a b = true.
Definition ble (a b : Ballot) : Prop := Less b a = false.

#[export] Instance blt_dec a b : Decision (blt a b).
Proof. unfold blt. apply _. Defined.
#[export] Instance ble_dec a b : Decision (ble a b).
Proof. unfold ble. apply _. Defined.

Lemma blt_spec a b :
  blt a b <-> (Num a < Num b)%N \/ (Num a = Num b /\ String.compare (Node_ a) (Node_ b) = Lt).
Proof.
  unfold blt, Less, Compare, str_ltb.
  destruct (N.ltb_spec (Num a) (Num b)); [split; [by left|done]|].
  destruct (N.ltb_spec (Num b) (Num a)); [split; [done|lia]|].
  assert (Num a = Num b) as -> by lia.
  rewrite (str_compare_antisym (Node_ a) (Node_ b)).
  destruct (String.compare (Node_ a) (Node_ b)); simpl; split; intros Hx;
    try done; try (right; done); destruct Hx as [?|[? ?]]; lia || done.
Qed.

Lemma ble_spec a b : ble a b <-> ~ blt b a.
Proof. unfold ble, blt. destruct (Less b a); split; congruence || done. Qed.

Lemma blt_irrefl a : ~ blt a a.
Proof. rewrite blt_spec, str_compare_refl. intros [?|[_ ?]]; [lia|done]. Qed.

Lemma blt_trans a b c : blt a b -> blt b c -> blt a c.
Proof.
  rewrite !blt_spec. intros [?|[? ?]] [?|[? ?]]; try (left; lia).
  right. split; [lia|]. eapply str_compare_lt_trans; eauto.
Qed.

Lemma blt_total a b : blt a b \/ a = b \/ blt b a.
Proof.
  rewrite !blt_spec. destruct a as [n x], b as [m y]; simpl.
  destruct (N.lt_trichotomy n m) as [?|[->|?]]; auto.
  rewrite (str_compare_antisym x y).
  destruct (String.compare x y) eqn:E; simpl; auto.
  apply str_compare_eq in E as ->. auto.
Qed.

Lemma ble_refl a : ble a a.
Proof. apply ble_spec, blt_irrefl. Qed.

Lemma ble_lteq a b : ble a b <-> blt a b \/ a = b.
Proof.
  rewrite ble_spec. split.
  - intros H. destruct (blt_total a b) as [|[|]]; auto. done.
  - intros [H| ->] H'; [|by apply blt_irrefl in H'].
    eapply blt_irrefl, blt_trans; eauto.
Qed.

Lemma blt_ble a b : blt a b -> ble a b.
Proof. rewrite ble_lteq. auto. Qed.

Lemma ble_trans a b c : ble a b -> ble b c -> ble a c.
Proof.
  rewrite !ble_lteq. intros [?| ->] [?| ->]; eauto using blt_trans.
Qed.

Lemma blt_ble_trans a b c : blt a b -> ble b c -> blt a c.
Proof. rewrite ble_lteq. intros ? [?| <-]; eauto using blt_trans. Qed.

Lemma ble_blt_trans a b c : ble a b -> blt b c -> blt a c.
Proof. rewrite ble_lteq. intros [?| ->] ?; eauto using blt_trans. Qed.

Lemma ble_antisym a b : ble a b -> ble b a -> a = b.
Proof.
  rewrite !ble_lteq. intros [?| ->] [?|?]; auto.
  exfalso. eapply blt_irrefl, blt_trans; eauto.
Qed.

Lemma blt_or_ble a b : blt a b \/ ble b a.
Proof. destruct (decide (blt a b)); [auto|]. right. by apply ble_spec. Qed.

#[export] Instance ble_preorder : PreOrder ble.
Proof. split; [exact ble_refl | exact ble_trans]. Qed.

#[export] Hint Resolve ble_refl blt_ble ble_trans blt_ble_trans ble_blt_trans : payments.

(** ** Entries and messages *)

Record Entry := mkEntry { eSlot : N; eBallot : Ballot; eCommand : bytes }.

#[export] Instance Entry_eq_dec : EqDecision Entry.
Proof. solve_decision. Defined.

Definition IsNoop (e : Entry) : bool := Nat.eqb (String.length (eCommand e)) 0.

(** [KindUnknown] stands for every other value of the string type. *)
Inductive MessageKind :=
  | KindPrepare | KindPromise | KindAccept | KindAccepted
  | KindCommit | KindCatchUp | KindPing
  | KindUnknown (k : string).

#[export] Instance MessageKind_eq_dec : EqDecision MessageKind.
Proof. solve_decision. Defined.

Record Message := mkMessage {
  mKind : MessageKind;
  mFrom : NodeID;
  mBallot : Ballot;
  mOK : bool;
  mSlot : N;
  mCommand : bytes;
  mEntries : list Entry;
  mCommitIndex : N;
}.

#[export] Instance Message_eq_dec : EqDecision Message.
Proof. solve_decision. Defined.

(** A Go composite literal [Message{Kind: k, From: f}]: every other field is
    the zero value. *)
Definition blankMessage (k : MessageKind) (from : NodeID) : Message :=
  mkMessage k from zeroBallot false 0 "" [] 0.

(** ** Quorums *)

Definition majority (groupSize : nat) : nat := groupSize / 2 + 1.

Definition is_quorum (peers : list NodeID) (Q : gset NodeID) : Prop :=
  Q ⊆ list_to_set peers /\ majority (length peers) <= size Q.

Lemma quorum_intersect peers Q1 Q2 :
  is_quorum peers Q1 -> is_quorum peers Q2 -> exists a, a ∈ Q1 /\ a ∈ Q2.
Proof.
  unfold is_quorum, majority. intros [HQ1 H1] [HQ2 H2].
  eapply subset_sizes_meet; [exact HQ1|exact HQ2|].
  assert (size (list_to_set peers : gset NodeID) <= length peers) as Hle.
  { clear. induction peers as [|p ps IH]; cbn [list_to_set length]; [by apply Nat.eq_le_incl, size_empty|].
    pose proof (size_union_alt ({[p]} : gset NodeID) (list_to_set ps)) as Hu.
    rewrite Hu, size_singleton.
    assert (size ((list_to_set ps : gset NodeID) ∖ {[p]}) <= size (list_to_set ps : gset NodeID))
      by (apply subseteq_size; set_solver). lia. }
  pose proof (Nat.div_mod_eq (length peers) 2) as D.
  pose proof (Nat.mod_upper_bound (length peers) 2 ltac:(lia)). lia.
Qed.

(** ** Roles and timing configuration (internal/paxos/node.go) *)

Inductive Role := Follower | Candidate | Leader.

#[export] Instance Role_eq_dec : EqDecision Role.
Proof. solve_decision. Defined.

(** [Role] is an int in Go, counted from [Follower]; [String] reads any int. *)
Definition RoleText (v : Z) : string :=
  if (v =? 0)%Z then "follower" else if (v =? 1)%Z then "candidate" else if (v =? 2)%Z then "leader" else "unknown".
Definition RoleString (r : Role) : string :=
  RoleText match r with Follower => 0 | Candidate => 1 | Leader => 2 end.

(** Durations are nanoseconds, as in Go. *)
Definition millisecond : Z := 1000000.

Record Config := mkConfig {
  HeartbeatInterval : Z;
  ElectionTimeout : Z;
  RoundTimeout : Z;
}.

Definition withDefaults (c : Config) : Config :=
  mkConfig
    (if (HeartbeatInterval c <=? 0)%Z then 150 * millisecond else HeartbeatInterval c)%Z
    (if (ElectionTimeout c <=? 0)%Z then 1000 * millisecond else ElectionTimeout c)%Z
    (if (RoundTimeout c <=? 0)%Z then 500 * millisecond else RoundTimeout c)%Z.
