(* ===== verification/PaxosLog.v ===== *)
(** * internal/paxos/log.go: a replica's durable Paxos state

    [Log] is the in-memory view every operation reads and writes.  [FileLog]
    adds the two files behind it: the append-only entry file, kept as its
    bytes, and the promised-ballot side file.  [OpenLog] replays the files.

    JSON is the standard library's; the file format only needs three facts of
    it, which are the hypotheses of section [Durable]. *)

From S2P Require Import Prelude PaxosTypes.

(** ** The in-memory log *)

Record Log := mkLog {
  entries : gmap N Entry;
  maxSlot : N;
  promised : Ballot;
}.

Definition NewMemLog : Log := mkLog ∅ 0 zeroBallot.

(** Recording an entry in memory: the body shared by [Accept] and [replay]. *)
Definition storeEntry (e : Entry) (l : Log) : Log :=
  mkLog (<[eSlot e := e]> (entries l))
        (if (maxSlot l <? eSlot e)%N then eSlot e else maxSlot l)
        (promised l).

Definition setPromised (b : Ballot) (l : Log) : Log :=
  mkLog (entries l) (maxSlot l) b.

(** [ok] is the outcome of the disk write; a failed write returns the error and
    leaves the memory alone. *)
Definition Promise (ok : bool) (b : Ballot) (l : Log) : option Log :=
  if ok then Some (setPromised b l) else None.

Definition Accept (ok : bool) (e : Entry) (l : Log) : option Log :=
  if ok then Some (storeEntry e l) else None.

Definition Get (slot : N) (l : Log) : option Entry := entries l !! slot.

(** The slots of [for slot := first; slot <= last; slot++]. *)
Definition slots_between (first last : N) : list N :=
  (fun i => (first + N.of_nat i)%N) <$> seq 0 (N.to_nat (last + 1 - first)).

Definition EntriesFrom (first : N) (l : Log) : list Entry :=
  omap (fun slot => entries l !! slot) (slots_between first (maxSlot l)).

(** ** Well-formed logs: every entry sits at its own slot, at or below
    [maxSlot]. *)

Definition log_wf (l : Log) : Prop :=
  forall s e, entries l !! s = Some e -> eSlot e = s /\ (s <= maxSlot l)%N.

Lemma NewMemLog_wf : log_wf NewMemLog.
Proof. intros s e He. unfold NewMemLog in He; simpl in He. by rewrite lookup_empty in He. Qed.

Lemma storeEntry_wf e l : log_wf l -> log_wf (storeEntry e l).
Proof.
  intros Hwf s e'. unfold storeEntry; simpl. rewrite lookup_insert.
  case_decide; intros ?; simplify_eq.
  - split; [done|]. destruct (N.ltb_spec (maxSlot l) (eSlot e')); lia.
  - destruct (Hwf s e') as [? ?]; [done|]. split; [done|].
    destruct (N.ltb_spec (maxSlot l) (eSlot e)); lia.
Qed.

Lemma setPromised_wf b l : log_wf l -> log_wf (setPromised b l).
Proof. done. Qed.

#[export] Hint Resolve NewMemLog_wf storeEntry_wf setPromised_wf : payments.

Lemma elem_of_slots_between s first last :
  s ∈ slots_between first last <-> (first <= s <= last)%N.
Proof.
  unfold slots_between. rewrite list_elem_of_fmap. split.
  - intros (i & -> & Hi). apply elem_of_seq in Hi. lia.
  - intros ?. exists (N.to_nat (s - first)). split; [lia|].
    apply elem_of_seq. lia.
Qed.

Lemma elem_of_EntriesFrom e first l :
  log_wf l ->
  e ∈ EntriesFrom first l <-> (first <= eSlot e)%N /\ entries l !! eSlot e = Some e.
Proof.
  intros Hwf. unfold EntriesFrom. rewrite list_elem_of_omap. split.
  - intros (s & Hs & He). apply elem_of_slots_between in Hs.
    destruct (Hwf _ _ He) as [-> ?]. split; [lia|done].
  - intros [? He]. exists (eSlot e). split; [|done].
    apply elem_of_slots_between. destruct (Hwf _ _ He). lia.
Qed.

(** ** The files *)

Definition newline : Ascii.ascii := Ascii.ascii_of_nat 10.
Definition nl : string := String newline EmptyString.

(** [bufio.Scanner] with [ScanLines]: the newline-separated lines; a final
    piece with no newline is a line when it is not empty. *)
Fixpoint scan_lines (cur : string) (s : string) : list string :=
  match s with
  | EmptyString => match cur with EmptyString => [] | _ => [cur] end
  | String c s' =>
      if Ascii.eqb c newline then cur :: scan_lines EmptyString s'
      else scan_lines (cur +:+ String c EmptyString) s'
  end.

(** The scanner's buffer bound: a longer line ends the scan with an error. *)
Definition maxTokenSize : N := (8 * 1024 * 1024)%N.
Definition line_fits (s : string) : bool := (N.of_nat (String.length s) <? maxTokenSize)%N.

(** What a faulted append leaves in the file: all of the line, or its first [k]
    bytes (a short write, or a crash before the sync). *)
Inductive WriteOutcome := WriteOk | WriteTorn (k : nat).

Record FileLog := mkFileLog {
  mem : Log;
  entryFile : bytes;
  stateFile : option bytes;
  entryF : bool; (* the entry file is open *)
}.

Section Durable.
Variable marshal : Entry -> bytes.
Variable unmarshal : bytes -> option Entry.
Variable marshalState : Ballot -> bytes.
Variable unmarshalState : bytes -> option Ballot.

(** One line of [replay]: blank and unparsable lines are skipped. *)
Definition replay_line (l : Log) (raw : string) : Log :=
  if Nat.eqb (String.length raw) 0 then l
  else match unmarshal raw with
       | None => l
       | Some e => storeEntry e l
       end.

Definition replay (file : bytes) (l : Log) : option Log :=
  let lines := scan_lines EmptyString file in
  if forallb line_fits lines then Some (fold_left replay_line lines l) else None.

Definition loadState (f : option bytes) (l : Log) : option Log :=
  match f with
  | None => Some l
  | Some raw => b ← unmarshalState raw; Some (setPromised b l)
  end.

Definition OpenLog (file : bytes) (st : option bytes) : option FileLog :=
  l ← replay file NewMemLog;
  l' ← loadState st l;
  Some (mkFileLog l' file st true).

(** [Accept] of a durable log. *)
Definition FileAccept (w : WriteOutcome) (e : Entry) (fl : FileLog) : FileLog * bool :=
  let line := marshal e +:+ nl in
  if negb (entryF fl) then (fl, false)
  else match w with
       | WriteOk =>
           (mkFileLog (storeEntry e (mem fl)) (entryFile fl +:+ line) (stateFile fl) true, true)
       | WriteTorn k =>
           (mkFileLog (mem fl) (entryFile fl +:+ str_take k line) (stateFile fl) true, false)
       end.

(** [Promise] of a durable log: the side file is replaced by a rename, which
    either happens or does not. *)
Definition FilePromise (ok : bool) (b : Ballot) (fl : FileLog) : FileLog * bool :=
  if ok then (mkFileLog (setPromised b (mem fl)) (entryFile fl) (Some (marshalState b)) (entryF fl), true)
  else (fl, false).

Definition Close (fl : FileLog) : FileLog :=
  mkFileLog (mem fl) (entryFile fl) (stateFile fl) false.

(** A crash keeps the files; the next start opens them again. *)
Definition crash_restart (fl : FileLog) : option FileLog :=
  OpenLog (entryFile fl) (stateFile fl).

(** The operations a running replica makes on its durable log, all of whose
    writes reach the disk. *)
Inductive LogOp := OpAccept (e : Entry) | OpPromise (b : Ballot).

Definition run_op (fl : FileLog) (op : LogOp) : FileLog :=
  match op with
  | OpAccept e => (FileAccept WriteOk e fl).1
  | OpPromise b => (FilePromise true b fl).1
  end.
End Durable.

(** ** What the file format needs of encoding/json *)

Fixpoint no_newline (s : string) : bool :=
  match s with
  | EmptyString => true
  | String c s' => negb (Ascii.eqb c newline) && no_newline s'
  end.

Class EntryCodec := {
  marshal : Entry -> bytes;
  unmarshal : bytes -> option Entry;
  marshalState : Ballot -> bytes;
  unmarshalState : bytes -> option Ballot;
}.

(** [json.Marshal] of a struct writes no newline, is not empty and parses back;
    no strict prefix of an object parses, nor does such a prefix with another
    object after it. *)
Class EntryCodecLaws (C : EntryCodec) := {
  unmarshal_marshal e : unmarshal (marshal e) = Some e;
  unmarshalState_marshalState b : unmarshalState (marshalState b) = Some b;
  marshal_no_newline e : no_newline (marshal e) = true;
  marshal_nonempty e : String.length (marshal e) <> 0;
  torn_invalid e k :
    k < String.length (marshal e) -> unmarshal (str_take k (marshal e)) = None;
  torn_glued_invalid e e2 k :
    0 < k < String.length (marshal e) ->
    unmarshal (str_take k (marshal e) +:+ marshal e2) = None;
}.

(** ** Scanning lines *)

Lemma scan_no_newline cur s r :
  no_newline s = true -> scan_lines cur (s +:+ r) = scan_lines (cur +:+ s) r.
Proof.
  revert cur. induction s as [|c s IH]; intros cur H; rewrite ?str_app_cons; simpl in *.
  - by rewrite str_app_nil_l, str_app_nil_r.
  - apply andb_true_iff in H as [Hc Hs]. apply negb_true_iff in Hc. rewrite Hc.
    rewrite IH by done. by rewrite str_app_assoc.
Qed.

Lemma scan_line s r :
  no_newline s = true -> scan_lines "" (s +:+ nl +:+ r) = s :: scan_lines "" r.
Proof. intros H. by rewrite scan_no_newline, str_app_nil_l. Qed.

Lemma no_newline_take k s : no_newline s = true -> no_newline (str_take k s) = true.
Proof.
  revert s. induction k as [|k IH]; intros [|c s]; simpl; try done.
  intros [-> ?]%andb_true_iff. simpl. auto.
Qed.

Lemma no_newline_app a b :
  no_newline a = true -> no_newline b = true -> no_newline (a +:+ b) = true.
Proof.
  induction a as [|c a IH]; rewrite ?str_app_cons; simpl; [done|].
  intros [-> ?]%andb_true_iff ?. simpl. auto.
Qed.

Lemma str_take_app k a b :
  k <= String.length a -> str_take k (a +:+ b) = str_take k a.
Proof.
  revert a. induction k as [|k IH]; intros [|c a]; rewrite ?str_app_cons; simpl; intros ?;
    try done; [lia|]. f_equal. apply IH. lia.
Qed.

Lemma str_take_nonempty k s :
  0 < k -> String.length s <> 0 -> exists c r, str_take k s = String c r.
Proof. destruct k, s; simpl; try lia; eauto. Qed.

Section Recovery.
Context `{CL : EntryCodecLaws}.

(** Every line a replica writes fits the scanner's buffer. *)
Definition fits (e : Entry) : Prop := line_fits (marshal e) = true.

Definition file_of (es : list Entry) : bytes :=
  foldr (fun e acc => marshal e +:+ nl +:+ acc) "" es.

Lemma file_of_app es1 es2 : file_of (es1 ++ es2) = file_of es1 +:+ file_of es2.
Proof.
  induction es1 as [|e es1 IH]; simpl; [done|].
  by rewrite IH, !str_app_assoc.
Qed.

Lemma scan_file_of es r :
  scan_lines "" (file_of es +:+ r) = (marshal <$> es) ++ scan_lines "" r.
Proof.
  induction es as [|e es IH]; simpl; [done|].
  rewrite !str_app_assoc, scan_line by apply marshal_no_newline. by rewrite IH.
Qed.

Lemma replay_marshal l e :
  replay_line unmarshal l (marshal e) = storeEntry e l.
Proof.
  unfold replay_line. pose proof (marshal_nonempty e) as Hne.
  destruct (String.length (marshal e)); [done|]. simpl.
  by rewrite unmarshal_marshal.
Qed.

Lemma fold_replay_marshal es l :
  fold_left (replay_line unmarshal) (marshal <$> es) l =
  fold_left (fun l e => storeEntry e l) es l.
Proof.
  revert l. induction es as [|e es IH]; intros l; simpl; [done|].
  rewrite replay_marshal. apply IH.
Qed.

(** The file is exactly the accepted entries, the side file the promise, and
    the memory their replay. *)
Definition synced (es : list Entry) (fl : FileLog) : Prop :=
  Forall fits es /\
  entryFile fl = file_of es /\ entryF fl = true /\
  loadState unmarshalState (stateFile fl)
    (fold_left (fun l e => storeEntry e l) es NewMemLog) = Some (mem fl).

Lemma forallb_fits es : Forall fits es -> forallb line_fits (marshal <$> es) = true.
Proof.
  intros H. apply forallb_forall. intros x Hx. apply list_elem_of_In in Hx.
  apply list_elem_of_fmap in Hx as (e & -> & He). rewrite Forall_forall in H. by apply H.
Qed.

Lemma replay_file_of es r l :
  Forall fits es -> forallb line_fits (scan_lines "" r) = true ->
  replay unmarshal (file_of es +:+ r) l =
  Some (fold_left (replay_line unmarshal) (scan_lines "" r)
          (fold_left (fun l e => storeEntry e l) es l)).
Proof.
  intros Hes Hr. unfold replay. rewrite scan_file_of, forallb_app, Hr.
  rewrite forallb_fits by done. simpl.
  by rewrite fold_left_app, fold_replay_marshal.
Qed.

Lemma synced_restart es fl :
  synced es fl -> crash_restart unmarshal unmarshalState fl = Some fl.
Proof.
  intros (Hfit & Hf & Ho & Hm). unfold crash_restart, OpenLog. rewrite Hf.
  rewrite <- (str_app_nil_r (file_of es)). rewrite replay_file_of by done.
  simpl. rewrite Hm. simpl. destruct fl; simpl in *. subst.
  by rewrite str_app_nil_r.
Qed.

Lemma synced_op es fl op :
  synced es fl ->
  (forall e, op = OpAccept e -> fits e) ->
  exists es', synced es' (run_op marshal marshalState fl op).
Proof.
  intros (Hfit & Hf & Ho & Hm) Hop. destruct op as [e|b].
  - exists (es ++ [e]). split; [|split_and!]; simpl.
    + apply Forall_app. split; [done|]. apply Forall_singleton. auto.
    + unfold FileAccept. rewrite Ho. simpl. rewrite Hf, file_of_app. simpl.
      by rewrite str_app_nil_r.
    + unfold FileAccept. by rewrite Ho.
    + unfold FileAccept. rewrite Ho. simpl. rewrite fold_left_app. simpl.
      destruct (stateFile fl) as [raw|]; simpl in *; [|congruence].
      destruct (unmarshalState raw); simpl in *; [|done].
      injection Hm as <-. by destruct (fold_left _ es _).
  - exists es. split_and!; simpl; [done..|].
    rewrite unmarshalState_marshalState. simpl. f_equal.
    destruct (stateFile fl) as [raw|]; simpl in *; [|congruence].
    destruct (unmarshalState raw); simpl in *; [|done].
    by injection Hm as <-.
Qed.

Lemma synced_run ops es fl :
  synced es fl ->
  (forall e, OpAccept e ∈ ops -> fits e) ->
  exists es', synced es' (fold_left (run_op marshal marshalState) ops fl).
Proof.
  revert es fl. induction ops as [|op ops IH]; intros es fl Hs Hfit; simpl; [eauto|].
  destruct (synced_op es fl op Hs) as [es' Hs'].
  { intros e ->. apply Hfit. set_solver. }
  eapply IH; [exact Hs'|]. intros e He. apply Hfit. set_solver.
Qed.

Definition freshFileLog : FileLog := mkFileLog NewMemLog "" None true.

Lemma synced_fresh : synced [] freshFileLog.
Proof. by split_and!. Qed.

(** What the torn tail of an append does to the next replay. *)
Lemma torn_restart es fl e k :
  synced es fl -> fits e -> k < String.length (marshal e) ->
  line_fits (str_take k (marshal e)) = true ->
  let fl' := (FileAccept marshal (WriteTorn k) e fl).1 in
  exists fl'', crash_restart unmarshal unmarshalState fl' = Some fl'' /\ mem fl'' = mem fl /\
    entryFile fl'' = file_of es +:+ str_take k (marshal e) /\ entryF fl'' = true /\
    stateFile fl'' = stateFile fl.
Proof.
  intros (Hfit & Hf & Ho & Hm) He Hk Hkfit. unfold FileAccept, crash_restart, OpenLog.
  rewrite Ho. simpl. rewrite str_take_app by lia. rewrite Hf.
  assert (scan_lines "" (str_take k (marshal e)) =
          match str_take k (marshal e) with EmptyString => [] | s => [s] end) as Hscan.
  { rewrite <- (str_app_nil_r (str_take k (marshal e))) at 1.
    rewrite scan_no_newline; [by rewrite str_app_nil_l; destruct (str_take _ _)|].
    apply no_newline_take, marshal_no_newline. }
  rewrite replay_file_of; [|done|].
  2: { rewrite Hscan. destruct (str_take k (marshal e)) eqn:E; [done|]. simpl. by rewrite Hkfit. }
  simpl. rewrite Hscan.
  assert (forall l, fold_left (replay_line unmarshal)
            match str_take k (marshal e) with EmptyString => [] | s => [s] end l = l) as Hid.
  { intros l. pose proof (torn_invalid e k Hk) as Ht.
    destruct (str_take k (marshal e)) as [|c r]; [done|]. simpl.
    unfold replay_line. simpl. by rewrite Ht. }
  rewrite Hid, Hm. simpl. eauto 10.
Qed.
End Recovery.

(** ** Properties of the durable log *)

Section Properties.
Context `{CL : EntryCodecLaws}.

(** C24: If every write succeeded and every accepted entry fits in a line the
    scanner reads, reopening the files of a log gives back exactly what the log had
    in memory: the promise and every accepted entry. *)
Theorem restart_recovers_log (ops : list LogOp) :
  (forall e, OpAccept e ∈ ops -> fits e) ->
  let fl := fold_left (run_op marshal marshalState) ops freshFileLog in
  crash_restart unmarshal unmarshalState fl = Some fl.
Proof.
  intros Hfit fl. destruct (synced_run ops [] freshFileLog synced_fresh Hfit) as [es Hs].
  exact (synced_restart es fl Hs).
Qed.


(** The torn tail has no newline of its own, and the file is reopened for
    append: the next entry is written, synced and acknowledged on the same
    line, and the restart after that drops it. *)
Theorem accept_after_torn_line_is_lost (ops : list LogOp) (e e2 : Entry) (k : nat) :
  (forall e', OpAccept e' ∈ ops -> fits e') -> fits e ->
  0 < k < String.length (marshal e) -> line_fits (str_take k (marshal e)) = true ->
  line_fits (str_take k (marshal e) +:+ marshal e2) = true ->
  let fl := fold_left (run_op marshal marshalState) ops freshFileLog in
  exists fl1, crash_restart unmarshal unmarshalState (FileAccept marshal (WriteTorn k) e fl).1 = Some fl1 /\
    (FileAccept marshal WriteOk e2 fl1).2 = true /\
    Get (eSlot e2) (mem (FileAccept marshal WriteOk e2 fl1).1) = Some e2 /\
    mem <$> crash_restart unmarshal unmarshalState (FileAccept marshal WriteOk e2 fl1).1 = Some (mem fl).
Proof.
  intros Hfit He [Hk0 Hk] Hkf Hglue fl.
  destruct (synced_run ops [] freshFileLog synced_fresh Hfit) as [es Hs].
  change (synced es fl) in Hs. clearbody fl.
  destruct (torn_restart es fl e k Hs He Hk Hkf) as (fl1 & Hr & Hm & Hf & Ho & Hst).
  exists fl1. split; [exact Hr|]. unfold FileAccept. rewrite Ho. simpl.
  split; [done|]. split; [unfold Get; simpl; by rewrite lookup_insert_eq|].
  destruct Hs as (Hes & _ & _ & Hload).
  unfold crash_restart, OpenLog. simpl. rewrite Hf, Hst, !str_app_assoc.
  rewrite <- str_app_assoc with (a := str_take k (marshal e)).
  assert (no_newline (str_take k (marshal e) +:+ marshal e2) = true) as Hnn.
  { apply no_newline_app; [apply no_newline_take|]; apply marshal_no_newline. }
  assert (scan_lines "" ((str_take k (marshal e) +:+ marshal e2) +:+ nl) =
          [str_take k (marshal e) +:+ marshal e2]) as Hscan.
  { rewrite <- (str_app_nil_r nl). by rewrite scan_line. }
  rewrite replay_file_of by (rewrite ?Hscan; simpl; rewrite ?Hglue; done).
  rewrite Hscan. simpl. unfold replay_line at 1. rewrite torn_glued_invalid by lia.
  destruct (Nat.eqb _ 0); rewrite Hload; done.
Qed.
End Properties.

(** ** A concrete codec

    The laws are satisfiable: an entry as its [Countable] number, written in
    bits between braces. *)

#[export] Instance Ballot_countable : Countable Ballot.
Proof.
  refine (inj_countable' (fun b => (Num b, Node_ b)) (fun p => mkBallot p.1 p.2) _). by intros [].
Defined.

#[export] Instance Entry_countable : Countable Entry.
Proof.
  refine (inj_countable' (fun e => (eSlot e, eBallot e, eCommand e))
            (fun p => mkEntry p.1.1 p.1.2 p.2) _). by intros [].
Defined.

Fixpoint print_bits (p : positive) : string :=
  match p with
  | xH => "}"
  | xO p => String "0"%char (print_bits p)
  | xI p => String "1"%char (print_bits p)
  end.

Fixpoint parse_bits (s : string) : option positive :=
  match s with
  | "}" => Some xH
  | String "0"%char s => xO <$> parse_bits s
  | String "1"%char s => xI <$> parse_bits s
  | _ => None
  end.

Definition parse_braced (s : string) : option positive :=
  match s with String "{"%char s => parse_bits s | _ => None end.

Definition bitCodec : EntryCodec := {|
  marshal e := String "{"%char (print_bits (encode e));
  unmarshal s := p ← parse_braced s; decode p;
  marshalState b := String "{"%char (print_bits (encode b));
  unmarshalState s := p ← parse_braced s; decode p;
|}.

Lemma parse_print_bits p : parse_bits (print_bits p) = Some p.
Proof. induction p as [p IH|p IH|]; simpl; rewrite ?IH; done. Qed.

Lemma no_newline_bits p : no_newline (print_bits p) = true.
Proof. induction p; simpl; done. Qed.

Lemma parse_bits_torn p k r :
  k < String.length (print_bits p) ->
  parse_bits (str_take k (print_bits p) +:+ String "{"%char r) = None /\
  parse_bits (str_take k (print_bits p)) = None.
Proof.
  revert k. induction p as [p IH|p IH|]; intros [|k] Hk; simpl in *; try lia; try done;
    rewrite ?str_app_cons; simpl; destruct (IH k ltac:(lia)) as [-> ->]; done.
Qed.

#[export] Instance bitCodecLaws : EntryCodecLaws bitCodec.
Proof.
  split; simpl.
  - intros e. rewrite parse_print_bits. simpl. apply decode_encode.
  - intros b. rewrite parse_print_bits. simpl. apply decode_encode.
  - intros e. apply no_newline_bits.
  - done.
  - intros e [|k] Hk; [done|]. simpl in *.
    destruct (parse_bits_torn (encode e) k "" ltac:(lia)) as [_ ->]. done.
  - intros e e2 [|k] Hk; [lia|]. simpl in *. rewrite ?str_app_cons. simpl.
    destruct (parse_bits_torn (encode e) k (print_bits (encode e2)) ltac:(lia)) as [-> _]. done.
Qed.

(** ** Instances of the theorems *)

Module LogExamples.
#[local] Existing Instance bitCodec.

Definition entry1 : Entry := mkEntry 1 (mkBallot 1 "A") "x".
Definition entry2 : Entry := mkEntry 2 (mkBallot 1 "A") "y".
Definition history : list LogOp := [OpPromise (mkBallot 1 "A"); OpAccept entry1].

Lemma history_fits e : OpAccept e ∈ history -> fits e.
Proof.
  intros [H|H]%elem_of_cons; [discriminate|]. apply list_elem_of_singleton in H. injection H as ->.
  vm_compute. reflexivity.
Qed.

Lemma entry2_fits : fits entry2.
Proof. vm_compute. reflexivity. Qed.

Lemma restart_recovers_log_witness :
  let fl := fold_left (run_op marshal marshalState) history freshFileLog in
  crash_restart unmarshal unmarshalState fl = Some fl.
Proof. exact (restart_recovers_log history history_fits). Defined.


Lemma accept_after_torn_line_is_lost_witness :
  let fl := fold_left (run_op marshal marshalState) history freshFileLog in
  exists fl1,
    crash_restart unmarshal unmarshalState (FileAccept marshal (WriteTorn 7) entry2 fl).1 = Some fl1 /\
    (FileAccept marshal WriteOk entry2 fl1).2 = true /\
    Get 2 (mem (FileAccept marshal WriteOk entry2 fl1).1) = Some entry2 /\
    mem <$> crash_restart unmarshal unmarshalState (FileAccept marshal WriteOk entry2 fl1).1 = Some (mem fl).
Proof.
  apply (accept_after_torn_line_is_lost history entry2 entry2 7 history_fits entry2_fits).
  - split; [lia|]. apply Nat.ltb_lt. vm_compute. reflexivity.
  - vm_compute. reflexivity.
  - vm_compute. reflexivity.
Defined.
End LogExamples.
