(* ===== verification/PaxosNode.v ===== *)
(** * internal/paxos/node.go: one replica

    [Node] is the replica's state; every handler and every piece of a round
    that runs between two network exchanges is one function on it.  A round
    (campaign, accept, heartbeat, catch-up) is its opening function, which
    returns the request that is broadcast, and its closing function, which
    takes the replies that came back before the timeout.

    Time, the election jitter and the outcome of a disk write are inputs, in
    [env].  The state machine is an instance of [StateMachine]. *)

From S2P Require Import Prelude PaxosTypes PaxosLog.

(** The application being replicated (paxos.go). *)
Class StateMachine (S R : Type) := {
  sm_init : S;
  sm_apply : N -> bytes -> S -> S * R;
}.

(** What a step reads from outside the replica. *)
Record env := mkEnv {
  now : Z;
  jitter : Z;        (* rand.Int63n(ElectionTimeout) *)
  promise_ok : bool; (* writing the promise side file succeeds *)
  accept_ok : bool;  (* appending to the entry file succeeds *)
}.

Inductive ProposeError := ErrNotLeader | ErrNoQuorum | ErrPersist.

#[export] Instance ProposeError_eq_dec : EqDecision ProposeError.
Proof. solve_decision. Defined.

Section Node.
Context {S R : Type} {SM : StateMachine S R}.

Record Node := mkNode {
  id : NodeID;
  peers : list NodeID;
  cfg : Config;
  log : Log;
  sm : S;
  role : Role;
  ballot : Ballot;
  leader : NodeID;
  electionAt : Z;
  nextSlot : N;
  lastQuorum : Z;
  catchingUp : bool;
  committed : gset N;
  appliedIndex : N;
  results : gset N;                 (* slots whose proposer waits *)
  delivered : list (N * option R);  (* values sent to waiting proposers *)
}.

Definition with_log (l : Log) (n : Node) : Node :=
  mkNode (id n) (peers n) (cfg n) l (sm n) (role n) (ballot n) (leader n) (electionAt n)
    (nextSlot n) (lastQuorum n) (catchingUp n) (committed n) (appliedIndex n) (results n) (delivered n).
Definition with_role (r : Role) (n : Node) : Node :=
  mkNode (id n) (peers n) (cfg n) (log n) (sm n) r (ballot n) (leader n) (electionAt n)
    (nextSlot n) (lastQuorum n) (catchingUp n) (committed n) (appliedIndex n) (results n) (delivered n).
Definition with_ballot (b : Ballot) (n : Node) : Node :=
  mkNode (id n) (peers n) (cfg n) (log n) (sm n) (role n) b (leader n) (electionAt n)
    (nextSlot n) (lastQuorum n) (catchingUp n) (committed n) (appliedIndex n) (results n) (delivered n).
Definition with_leader (l : NodeID) (n : Node) : Node :=
  mkNode (id n) (peers n) (cfg n) (log n) (sm n) (role n) (ballot n) l (electionAt n)
    (nextSlot n) (lastQuorum n) (catchingUp n) (committed n) (appliedIndex n) (results n) (delivered n).
Definition with_electionAt (t : Z) (n : Node) : Node :=
  mkNode (id n) (peers n) (cfg n) (log n) (sm n) (role n) (ballot n) (leader n) t
    (nextSlot n) (lastQuorum n) (catchingUp n) (committed n) (appliedIndex n) (results n) (delivered n).
Definition with_nextSlot (s : N) (n : Node) : Node :=
  mkNode (id n) (peers n) (cfg n) (log n) (sm n) (role n) (ballot n) (leader n) (electionAt n)
    s (lastQuorum n) (catchingUp n) (committed n) (appliedIndex n) (results n) (delivered n).
Definition with_lastQuorum (t : Z) (n : Node) : Node :=
  mkNode (id n) (peers n) (cfg n) (log n) (sm n) (role n) (ballot n) (leader n) (electionAt n)
    (nextSlot n) t (catchingUp n) (committed n) (appliedIndex n) (results n) (delivered n).
Definition with_catchingUp (c : bool) (n : Node) : Node :=
  mkNode (id n) (peers n) (cfg n) (log n) (sm n) (role n) (ballot n) (leader n) (electionAt n)
    (nextSlot n) (lastQuorum n) c (committed n) (appliedIndex n) (results n) (delivered n).
Definition with_committed (c : gset N) (n : Node) : Node :=
  mkNode (id n) (peers n) (cfg n) (log n) (sm n) (role n) (ballot n) (leader n) (electionAt n)
    (nextSlot n) (lastQuorum n) (catchingUp n) c (appliedIndex n) (results n) (delivered n).
Definition with_results (r : gset N) (n : Node) : Node :=
  mkNode (id n) (peers n) (cfg n) (log n) (sm n) (role n) (ballot n) (leader n) (electionAt n)
    (nextSlot n) (lastQuorum n) (catchingUp n) (committed n) (appliedIndex n) r (delivered n).
Definition with_applied (i : N) (s : S) (r : gset N) (d : list (N * option R)) (n : Node) : Node :=
  mkNode (id n) (peers n) (cfg n) (log n) s (role n) (ballot n) (leader n) (electionAt n)
    (nextSlot n) (lastQuorum n) (catchingUp n) (committed n) i r d.

Definition resetElectionLocked (e : env) (n : Node) : Node :=
  with_electionAt (now e + (ElectionTimeout (cfg n) + jitter e))%Z n.

Definition NewNode (e : env) (i : NodeID) (ps : list NodeID) (l : Log) (c : Config) : Node :=
  resetElectionLocked e
    (mkNode i ps (withDefaults c) l sm_init Follower zeroBallot "" 0 0 0 false ∅ 0 ∅ []).

Definition quorum (n : Node) : nat := majority (length (peers n)).
Definition IsLeader (n : Node) : bool := bool_decide (role n = Leader).
Definition Promised (n : Node) : Ballot := promised (log n).

(** Write a promise and keep going whether or not the disk took it. *)
Definition try_promise (e : env) (b : Ballot) (n : Node) : Node :=
  match Promise (promise_ok e) b (log n) with
  | Some l => with_log l n
  | None => n
  end.

Definition stepDown (e : env) (seen : Ballot) (n : Node) : Node :=
  let n1 := resetElectionLocked e (with_role Follower n) in
  if negb (IsZero seen) && Less (Promised n1) seen then try_promise e seen n1 else n1.

(** ** Phase 1: election *)

(** [campaign] up to the probe: [None] when already leading. *)
Definition campaign_begin (n : Node) : option Node :=
  if IsLeader n then None else Some (with_role Candidate n).

Definition pingRequest (n : Node) : Message := blankMessage KindPing (id n).

Definition canReachQuorum (n : Node) (replies : list Message) : bool :=
  (quorum n <=? 1) || (quorum n <=? length replies + 1).

Definition nextBallot (n : Node) : Ballot := mkBallot (u64 (Num (Promised n) + 1)) (id n).

(** [campaign] from the probe's replies to the PREPARE broadcast: the request
    and the first slot to recover, or nothing when it gives up. *)
Definition campaign_prepare (e : env) (probe : list Message) (n : Node)
    : Node * option (Message * N) :=
  if negb (canReachQuorum n probe) then (stepDown e zeroBallot n, None)
  else if negb (bool_decide (role n = Candidate)) then (n, None)
  else
    let next := nextBallot n in
    match Promise (promise_ok e) next (log n) with
    | None => (stepDown e zeroBallot n, None)
    | Some l =>
        let first := u64 (appliedIndex n + 1) in
        (with_log l n,
         Some (mkMessage KindPrepare (id n) next false first "" [] 0, first))
    end.

(** The loop over the PROMISE replies. *)
Record tally := mkTally { votes : nat; gathered : list Entry; highest : Ballot }.

Definition tally_reply (t : tally) (r : Message) : tally :=
  if mOK r then mkTally (Datatypes.S (votes t)) (gathered t ++ mEntries r) (highest t)
  else if Less (highest t) (mBallot r)
       then mkTally (votes t) (gathered t) (mBallot r)
       else t.

Definition count_promises (own : list Entry) (next : Ballot) (replies : list Message) : tally :=
  fold_left tally_reply replies (mkTally 1 own next).

(** The loop of [becomeLeader] over the gathered entries: the entry of the
    highest ballot for each slot, and the highest slot. *)
Definition adopt_entry (first : N) (acc : gmap N Entry * N) (e : Entry) : gmap N Entry * N :=
  let '(best, maxSlot) := acc in
  if (eSlot e <? first)%N then acc
  else
    let best' :=
      match best !! eSlot e with
      | None => <[eSlot e := e]> best
      | Some cur => if Less (eBallot cur) (eBallot e) then <[eSlot e := e]> best else best
      end in
    (best', if (maxSlot <? eSlot e)%N then eSlot e else maxSlot).

Definition adopt (first : N) (es : list Entry) : gmap N Entry * N :=
  fold_left (adopt_entry first) es (∅, 0%N).

(** [becomeLeader]: the new leader and what its recovery goroutine works on. *)
Definition becomeLeader (e : env) (b : Ballot) (gathered : list Entry) (first : N) (n : Node)
    : Node * (gmap N Entry * N) :=
  let '(best, maxSlot) := adopt first gathered in
  let ns := u64 (maxSlot + 1) in
  let ns := if (ns <? first)%N then first else ns in
  (with_nextSlot ns
     (resetElectionLocked e
        (with_lastQuorum (now e)
           (with_ballot b (with_leader (id n) (with_role Leader n))))),
   (best, maxSlot)).

(** [campaign] after the PREPARE round. *)
Definition campaign_finish (e : env) (next : Ballot) (first : N) (replies : list Message) (n : Node)
    : Node * option (gmap N Entry * N) :=
  let t := count_promises (EntriesFrom first (log n)) next replies in
  if votes t <? quorum n then
    let n1 := if Less next (highest t) then try_promise e (highest t) n else n in
    (stepDown e zeroBallot n1, None)
  else
    let '(n1, rec) := becomeLeader e next (gathered t) first n in
    (n1, Some rec).

(** ** Phase 2: replication *)

(** [Propose] up to the call of [replicate]: the slot handed out. *)
Definition propose_begin (n : Node) : option (Node * N) :=
  if negb (IsLeader n) then None
  else
    let slot := nextSlot n in
    Some (with_results ({[slot]} ∪ results n) (with_nextSlot (u64 (slot + 1)) n), slot).

Definition propose_fail (e : env) (slot : N) (n : Node) : Node :=
  stepDown e zeroBallot (with_results (results n ∖ {[slot]}) n).

(** [replicate] up to the ACCEPT broadcast. *)
Definition replicate_begin (e : env) (slot : N) (command : bytes) (n : Node)
    : (Node * Message) + ProposeError :=
  if negb (IsLeader n) then inr ErrNotLeader
  else
    let b := ballot n in
    match Accept (accept_ok e) (mkEntry slot b command) (log n) with
    | None => inr ErrPersist
    | Some l => inl (with_log l n, mkMessage KindAccept (id n) b false slot command [] 0)
    end.

Definition markCommitted (slots : list N) (n : Node) : Node :=
  with_committed (list_to_set slots ∪ committed n) n.

(** The loop over the ACCEPTED replies: the votes, or the ballot of the first
    refusal that supersedes [b]. *)
Fixpoint count_accepts (b : Ballot) (votes : nat) (replies : list Message) : nat + Ballot :=
  match replies with
  | [] => inl votes
  | r :: rs =>
      if mOK r then count_accepts b (Datatypes.S votes) rs
      else if Less b (mBallot r) then inr (mBallot r)
      else count_accepts b votes rs
  end.

Definition replicate_finish (e : env) (b : Ballot) (slot : N) (replies : list Message) (n : Node)
    : Node * option ProposeError :=
  match count_accepts b 1 replies with
  | inr seen => (stepDown e seen n, Some ErrNotLeader)
  | inl votes =>
      if votes <? quorum n then (n, Some ErrNoQuorum)
      else (markCommitted [slot] n, None)
  end.

(** ** The apply loop *)

(** One iteration of [drainApplicable]: [None] when the loop returns. *)
Definition apply_next (n : Node) : option Node :=
  let next := u64 (appliedIndex n + 1) in
  if negb (bool_decide (next ∈ committed n)) then None
  else
    match Get next (log n) with
    | None => None
    | Some entry =>
        let '(s', result) :=
          if IsNoop entry then (sm n, None)
          else let '(s', r) := sm_apply next (eCommand entry) (sm n) in (s', Some r) in
        let d := if bool_decide (next ∈ results n)
                 then delivered n ++ [(next, result)] else delivered n in
        Some (with_applied next s' (results n ∖ {[next]}) d n)
    end.

Fixpoint drain (fuel : nat) (n : Node) : Node :=
  match fuel with
  | O => n
  | Datatypes.S fuel' => match apply_next n with None => n | Some n' => drain fuel' n' end
  end.

(** Every iteration applies one committed slot, so that many iterations are
    enough. *)
Definition drainApplicable (n : Node) : Node := drain (size (committed n)) n.

(** ** Message handlers *)

(** The role change every message from a current leader causes. *)
Definition follow (e : env) (from : NodeID) (n : Node) : Node :=
  resetElectionLocked e (with_leader from (with_role Follower n)).

Definition refusal (k : MessageKind) (n : Node) (slot : N) (b : Ballot) : Message :=
  mkMessage k (id n) b false slot "" [] 0.

Definition handlePrepare (e : env) (msg : Message) (n : Node) : Node * Message :=
  let prom := Promised n in
  if Less (mBallot msg) prom then (n, refusal KindPromise n 0 prom)
  else match Promise (promise_ok e) (mBallot msg) (log n) with
       | None => (n, refusal KindPromise n 0 prom)
       | Some l =>
           let n1 := follow e (mFrom msg) (with_log l n) in
           (n1, mkMessage KindPromise (id n) (mBallot msg) true 0 ""
                  (EntriesFrom (mSlot msg) (log n1)) 0)
       end.

Definition handleAccept (e : env) (msg : Message) (n : Node) : Node * Message :=
  let prom := Promised n in
  if Less (mBallot msg) prom then (n, refusal KindAccepted n (mSlot msg) prom)
  else
    let promise_step :=
      if Less prom (mBallot msg) then Promise (promise_ok e) (mBallot msg) (log n) else Some (log n) in
    match promise_step with
    | None => (n, refusal KindAccepted n (mSlot msg) prom)
    | Some l =>
        match Accept (accept_ok e) (mkEntry (mSlot msg) (mBallot msg) (mCommand msg)) l with
        | None => (with_log l n, refusal KindAccepted n (mSlot msg) (mBallot msg))
        | Some l' =>
            (follow e (mFrom msg) (with_log l' n),
             mkMessage KindAccepted (id n) (mBallot msg) true (mSlot msg) "" [] 0)
        end
    end.

(** [handleCommit] also says which slots to fetch, when it starts a catch-up. *)
Definition handleCommit (e : env) (msg : Message) (n : Node)
    : Node * Message * option (NodeID * N * N) :=
  let prom := Promised n in
  if Less (mBallot msg) prom then (n, refusal KindCommit n 0 prom, None)
  else
    let n1 := follow e (mFrom msg) n in
    let applied := appliedIndex n1 in
    let fetch := (applied <? mCommitIndex msg)%N && negb (catchingUp n1) in
    let n2 := if fetch then with_catchingUp true n1 else n1 in
    (n2, mkMessage KindCommit (id n) (mBallot msg) true 0 "" [] 0,
     if fetch then Some (mFrom msg, u64 (applied + 1), mCommitIndex msg) else None).

Definition handlePing (e : env) (n : Node) : Node * Message :=
  let n1 := if negb (IsLeader n) then resetElectionLocked e n else n in
  (n1, mkMessage KindPing (id n) (Promised n1) true 0 "" [] 0).

Definition handleCatchUp (msg : Message) (n : Node) : Message :=
  mkMessage KindCatchUp (id n) zeroBallot true 0 "" (EntriesFrom (mSlot msg) (log n)) 0.

Definition Handle (e : env) (msg : Message) (n : Node)
    : Node * Message * option (NodeID * N * N) :=
  match mKind msg with
  | KindPrepare => (handlePrepare e msg n, None)
  | KindAccept => (handleAccept e msg n, None)
  | KindCommit => handleCommit e msg n
  | KindCatchUp => (n, handleCatchUp msg n, None)
  | KindPing => (handlePing e n, None)
  | k => (n, blankMessage k (id n), None)
  end.

(** ** Catch-up *)

Definition catchUpRequest (first : N) (n : Node) : Message :=
  mkMessage KindCatchUp (id n) zeroBallot false first "" [] 0.

(** [chosen], keyed by slot; a later entry for a slot replaces an earlier one. *)
Definition chosen_map (es : list Entry) : gmap N Entry :=
  fold_left (fun m e => <[eSlot e := e]> m) es ∅.

(** The adoption loop: stops at the first slot the leader did not serve, or
    at a failed write. *)
Fixpoint catchUp_loop (ok : bool) (chosen : gmap N Entry) (slots : list N) (l : Log) (acc : list N)
    : Log * list N :=
  match slots with
  | [] => (l, acc)
  | slot :: rest =>
      match chosen !! slot with
      | None => (l, acc)
      | Some e =>
          let same := match Get slot l with
                      | None => false
                      | Some local => bool_decide (eBallot local = eBallot e)
                                      && String.eqb (eCommand local) (eCommand e)
                      end in
          if same then catchUp_loop ok chosen rest l (acc ++ [slot])
          else match Accept ok e l with
               | None => (l, acc)
               | Some l' => catchUp_loop ok chosen rest l' (acc ++ [slot])
               end
      end
  end.

(** [catchUp] after the exchange; [None] is an unreachable leader. *)
Definition catchUp_finish (e : env) (first commitIndex : N) (reply : option Message) (n : Node) : Node :=
  let n1 :=
    match reply with
    | None => n
    | Some r =>
        if negb (mOK r) then n
        else
          let '(l, slots) :=
            catchUp_loop (accept_ok e) (chosen_map (mEntries r))
              (slots_between first commitIndex) (log n) [] in
          let n' := with_log l n in
          if Nat.eqb (length slots) 0 then n' else markCommitted slots n'
    end in
  with_catchingUp false n1.

(** ** Heartbeats and timers *)

Definition commitRequest (n : Node) : Message :=
  mkMessage KindCommit (id n) (ballot n) false 0 "" [] (appliedIndex n).

Fixpoint count_acks (b : Ballot) (acks : nat) (replies : list Message) : nat + Ballot :=
  match replies with
  | [] => inl acks
  | r :: rs =>
      if negb (mOK r) && Less b (mBallot r) then inr (mBallot r)
      else count_acks b (if mOK r then Datatypes.S acks else acks) rs
  end.

Definition broadcastCommit_finish (e : env) (b : Ballot) (replies : list Message) (n : Node) : Node :=
  match count_acks b 1 replies with
  | inr seen => stepDown e seen n
  | inl acks =>
      if quorum n <=? acks then with_lastQuorum (now e) n
      else if IsLeader n && (ElectionTimeout (cfg n) <? now e - lastQuorum n)%Z
           then stepDown e zeroBallot n
           else n
  end.

(** What a tick of [runTimers] starts. *)
Inductive tick_action := TickHeartbeat | TickCampaign | TickNothing.

Definition tick (e : env) (n : Node) : tick_action :=
  if IsLeader n then TickHeartbeat
  else if (electionAt n <? now e)%Z then TickCampaign
  else TickNothing.

(** The peers a broadcast goes to. *)
Definition others (n : Node) : list NodeID :=
  filter (fun p => p <> id n) (peers n).
End Node.

Arguments Node : clear implicits.
