(* ===== verification/PaxosVoting.v ===== *)
(** * The voting machine: what internal/paxos promises

    The package comment of internal/paxos/paxos.go states the rules the
    protocol rests on.  This file is those rules as an abstract machine: every
    acceptor has a promised ballot and, per slot, the entry it holds; [hist] is
    the history of all votes.  An acceptor may raise its promise, vote at the
    ballot it has promised, or learn an entry that is already chosen.

    [core_agreement] shows that a machine obeying these rules never chooses two
    commands for a slot.  PaxosSafety.v shows that the code's steps implement
    it. *)

From S2P Require Import Prelude PaxosTypes.

Section Voting.
Context (group : list NodeID).

Record Core := mkCore {
  accs : gmap NodeID (Ballot * gmap N Entry);
  hist : list (NodeID * Entry);
}.

Implicit Types c : Core.

Definition voted_at c (a : NodeID) (s : N) (b : Ballot) : Prop :=
  exists cmd, (a, mkEntry s b cmd) ∈ hist c.

Definition chosen c (s : N) (b : Ballot) (cmd : bytes) : Prop :=
  exists Q, is_quorum group Q /\ forall a, a ∈ Q -> (a, mkEntry s b cmd) ∈ hist c.

(** The entry carries a command chosen at or below its own ballot. *)
Definition anchored c (e : Entry) : Prop :=
  exists b, ble b (eBallot e) /\ chosen c (eSlot e) b (eCommand e).

(** A quorum has closed ballot [b0] of slot [s] for every command but [cmd]. *)
Definition closed_for c (s : N) (b0 : Ballot) (cmd : bytes) : Prop :=
  exists Q, is_quorum group Q /\
    forall a, a ∈ Q ->
      (a, mkEntry s b0 cmd) ∈ hist c \/
      (exists p l, accs c !! a = Some (p, l) /\ blt b0 p /\ ~ voted_at c a s b0).

Definition SafeAt c (s : N) (b : Ballot) (cmd : bytes) : Prop :=
  forall b0, blt b0 b -> closed_for c s b0 cmd.

(** The leader of a ballot speaks first, once per slot, and only for a safe
    command; everybody else repeats it. *)
Definition may_vote c (a : NodeID) (e : Entry) : Prop :=
  (Node_ (eBallot e), e) ∈ hist c \/
  (a = Node_ (eBallot e) /\ SafeAt c (eSlot e) (eBallot e) (eCommand e) /\
   forall a', ~ voted_at c a' (eSlot e) (eBallot e)).

Inductive core_step : Core -> Core -> Prop :=
| cs_raise c a p l b :
    accs c !! a = Some (p, l) -> ble p b ->
    core_step c (mkCore (<[a := (b, l)]> (accs c)) (hist c))
| cs_vote c a l e :
    accs c !! a = Some (eBallot e, l) ->
    (forall old, l !! eSlot e = Some old -> ble (eBallot old) (eBallot e)) ->
    may_vote c a e ->
    core_step c (mkCore (<[a := (eBallot e, <[eSlot e := e]> l)]> (accs c)) (hist c ++ [(a, e)]))
| cs_learn c a p l e :
    accs c !! a = Some (p, l) -> anchored c e -> (Node_ (eBallot e), e) ∈ hist c ->
    core_step c (mkCore (<[a := (p, <[eSlot e := e]> l)]> (accs c)) (hist c)).

(** ** The invariant *)

Record core_inv c : Prop := {
  ci_leader_first a e : (a, e) ∈ hist c -> (Node_ (eBallot e), e) ∈ hist c;
  ci_bound a e : (a, e) ∈ hist c ->
    exists p l, accs c !! a = Some (p, l) /\ ble (eBallot e) p;
  ci_unique s b cmd cmd' :
    (Node_ b, mkEntry s b cmd) ∈ hist c -> (Node_ b, mkEntry s b cmd') ∈ hist c -> cmd = cmd';
  ci_log_slot a p l s e : accs c !! a = Some (p, l) -> l !! s = Some e -> eSlot e = s;
  ci_log_voted a p l s e :
    accs c !! a = Some (p, l) -> l !! s = Some e -> (Node_ (eBallot e), e) ∈ hist c;
  ci_vote_kept a p l s b cmd :
    accs c !! a = Some (p, l) -> (a, mkEntry s b cmd) ∈ hist c ->
    exists e, l !! s = Some e /\ (ble b (eBallot e) \/ anchored c e);
  ci_safe a e : (a, e) ∈ hist c -> SafeAt c (eSlot e) (eBallot e) (eCommand e);
}.

Lemma ci_same_command c a a' s b cmd cmd' :
  core_inv c -> (a, mkEntry s b cmd) ∈ hist c -> (a', mkEntry s b cmd') ∈ hist c -> cmd = cmd'.
Proof.
  intros I H1 H2. apply (ci_leader_first c I) in H1, H2. simpl in *.
  eapply ci_unique; eauto.
Qed.

(** A command chosen below a vote is the command of that vote. *)
Lemma chosen_below_vote c s b b' cmd cmd' :
  core_inv c -> chosen c s b cmd -> SafeAt c s b' cmd' -> blt b b' -> cmd = cmd'.
Proof.
  intros I (Q1 & HQ1 & Hv1) Hsafe Hlt.
  destruct (Hsafe b Hlt) as (Q2 & HQ2 & Hv2).
  destruct (quorum_intersect _ _ _ HQ1 HQ2) as (x & Hx1 & Hx2).
  destruct (Hv2 x Hx2) as [Hv|(p & l & _ & _ & Hno)].
  - eapply ci_same_command; eauto.
  - exfalso. apply Hno. eexists. eauto.
Qed.

Lemma chosen_has_vote c s b cmd : chosen c s b cmd -> exists a, (a, mkEntry s b cmd) ∈ hist c.
Proof.
  intros (Q & HQ & Hv). destruct (quorum_intersect _ _ _ HQ HQ) as (x & Hx & _). eauto.
Qed.

Lemma chosen_vote_agree c s b cmd a b' cmd' :
  core_inv c -> chosen c s b cmd -> (a, mkEntry s b' cmd') ∈ hist c -> ble b b' -> cmd = cmd'.
Proof.
  intros I Hch Hv Hle. apply ble_lteq in Hle as [Hlt| ->].
  - eapply (chosen_below_vote c); eauto. apply (ci_safe c I) in Hv. done.
  - destruct (chosen_has_vote _ _ _ _ Hch) as [x Hx]. eapply ci_same_command; eauto.
Qed.

Theorem core_agreement_at c s b1 b2 cmd1 cmd2 :
  core_inv c -> chosen c s b1 cmd1 -> chosen c s b2 cmd2 -> cmd1 = cmd2.
Proof.
  intros I H1 H2.
  destruct (chosen_has_vote _ _ _ _ H1) as [x1 Hx1], (chosen_has_vote _ _ _ _ H2) as [x2 Hx2].
  destruct (blt_total b1 b2) as [Hlt|[->|Hlt]].
  - eapply chosen_vote_agree; eauto using blt_ble.
  - eapply ci_same_command; eauto.
  - symmetry. eapply chosen_vote_agree; eauto using blt_ble.
Qed.

Lemma anchored_agree c e e' :
  core_inv c -> anchored c e -> anchored c e' -> eSlot e = eSlot e' -> eCommand e = eCommand e'.
Proof.
  intros I (b & _ & H) (b' & _ & H') Heq. rewrite <- Heq in H'. eapply core_agreement_at; eauto.
Qed.

(** ** Stability: what a step never takes back *)

Lemma core_step_hist c c' a e : core_step c c' -> (a, e) ∈ hist c -> (a, e) ∈ hist c'.
Proof. intros [] ?; simpl; rewrite ?elem_of_app; auto. Qed.

Lemma core_step_promise c c' a p l :
  core_step c c' -> accs c !! a = Some (p, l) ->
  exists p' l', accs c' !! a = Some (p', l') /\ ble p p'.
Proof.
  intros Hs Ha. inv Hs; simpl; rewrite lookup_insert; case_decide; subst; eauto with payments;
    simplify_eq; eauto with payments.
Qed.

(** After a promise, no vote is cast below it. *)
Lemma core_step_no_vote c c' a s b p l :
  core_step c c' -> accs c !! a = Some (p, l) -> blt b p ->
  ~ voted_at c a s b -> ~ voted_at c' a s b.
Proof.
  intros Hs Ha Hlt Hno [cmd Hv]. inv Hs; simpl in *; try (apply Hno; eexists; by eauto).
  rewrite elem_of_snoc in Hv. destruct Hv as [Hv|Heq]; [apply Hno; eexists; eauto|].
  simplify_eq. simpl in *. simplify_eq. by apply blt_irrefl in Hlt.
Qed.

Lemma chosen_stable c c' s b cmd : core_step c c' -> chosen c s b cmd -> chosen c' s b cmd.
Proof. intros Hs (Q & HQ & Hv). exists Q. eauto using core_step_hist. Qed.

Lemma anchored_stable c c' e : core_step c c' -> anchored c e -> anchored c' e.
Proof. intros Hs (b & ? & ?). exists b. eauto using chosen_stable. Qed.

Lemma closed_for_stable c c' s b cmd :
  core_step c c' -> closed_for c s b cmd -> closed_for c' s b cmd.
Proof.
  intros Hs (Q & HQ & Hv). exists Q. split; [done|]. intros a Ha.
  destruct (Hv a Ha) as [?|(p & l & Hacc & Hlt & Hno)]; [eauto using core_step_hist|].
  right. destruct (core_step_promise _ _ _ _ _ Hs Hacc) as (p' & l' & ? & ?).
  exists p', l'. split_and!; eauto with payments. eapply core_step_no_vote; eauto.
Qed.

Lemma SafeAt_stable c c' s b cmd : core_step c c' -> SafeAt c s b cmd -> SafeAt c' s b cmd.
Proof. intros Hs Hsafe b0 Hlt. eauto using closed_for_stable. Qed.

(** The entry an acceptor holds at a slot is anchored. *)
Definition anchored_at c (a : NodeID) (s : N) : Prop :=
  exists p l e, accs c !! a = Some (p, l) /\ l !! s = Some e /\ anchored c e.

(** ** Preservation *)

Lemma may_vote_safe c a e :
  core_inv c -> may_vote c a e -> SafeAt c (eSlot e) (eBallot e) (eCommand e).
Proof. intros I [Hv|(_ & Hs & _)]; [exact (ci_safe c I _ _ Hv)|done]. Qed.

Lemma may_vote_same c a e a' cmd :
  core_inv c -> may_vote c a e ->
  (a', mkEntry (eSlot e) (eBallot e) cmd) ∈ hist c -> cmd = eCommand e.
Proof.
  intros I [Hv|(_ & _ & Hno)] Ha'.
  - destruct e as [s b cmd']. eapply ci_same_command; eauto.
  - exfalso. eapply Hno. eexists. eauto.
Qed.

(** A vote that replaces an anchored entry is anchored itself. *)
Lemma vote_over_anchored c a e old :
  core_inv c -> may_vote c a e -> eSlot old = eSlot e -> ble (eBallot old) (eBallot e) ->
  anchored c old -> anchored c e.
Proof.
  intros I Hmay Hslot Hle (b & Hb & Hch). exists b. split; [eauto with payments|].
  rewrite Hslot in Hch.
  assert (ble b (eBallot e)) as Hbe by eauto with payments.
  assert (eCommand old = eCommand e) as <-; [|done].
  apply ble_lteq in Hbe as [Hlt| ->].
  - eapply chosen_below_vote; eauto using may_vote_safe.
  - destruct (chosen_has_vote _ _ _ _ Hch) as [x Hx]. eapply may_vote_same; eauto.
Qed.

Lemma anchored_at_stable c c' a s :
  core_inv c -> core_step c c' -> anchored_at c a s -> anchored_at c' a s.
Proof.
  intros I Hs (p & l & e & Ha & Hl & Hanc).
  assert (anchored c' e) as Hanc' by eauto using anchored_stable.
  pose proof Hs as Hs0. inv Hs; unfold anchored_at; simpl; rewrite lookup_insert;
    case_decide; subst; simplify_eq; eauto 10.
  - destruct (decide (eSlot e0 = s)) as [<-|Hne].
    + exists (eBallot e0), (<[eSlot e0 := e0]> l), e0.
      rewrite lookup_insert_eq. split_and!; [done..|].
      eapply anchored_stable; [exact Hs0|].
      eapply (vote_over_anchored c a e0 e); eauto. by eapply ci_log_slot.
    + exists (eBallot e0), (<[eSlot e0 := e0]> l), e. by rewrite lookup_insert_ne by done.
  - destruct (decide (eSlot e0 = s)) as [<-|Hne].
    + exists p, (<[eSlot e0 := e0]> l), e0. rewrite lookup_insert_eq.
      split_and!; [done..|]. eauto using anchored_stable.
    + exists p, (<[eSlot e0 := e0]> l), e. by rewrite lookup_insert_ne by done.
Qed.

Lemma inv_raise c a p l b :
  core_inv c -> accs c !! a = Some (p, l) -> ble p b ->
  core_inv (mkCore (<[a := (b, l)]> (accs c)) (hist c)).
Proof.
  intros I Ha Hle.
  assert (core_step c (mkCore (<[a := (b, l)]> (accs c)) (hist c))) as Hs by by econstructor.
  split; simpl.
  - apply (ci_leader_first c I).
  - intros x e Hx. destruct (ci_bound c I x e Hx) as (p' & l' & Hacc & Hb).
    destruct (core_step_promise _ _ _ _ _ Hs Hacc) as (p'' & l'' & ? & ?).
    exists p'', l''. eauto with payments.
  - apply (ci_unique c I).
  - intros x p' l' s e. rewrite lookup_insert. case_decide; intros; simplify_eq;
      eauto using ci_log_slot.
  - intros x p' l' s e. rewrite lookup_insert. case_decide; intros; simplify_eq;
      eauto using ci_log_voted.
  - intros x p' l' s b' cmd Hx Hv. rewrite lookup_insert in Hx.
    assert (exists p0, accs c !! x = Some (p0, l')) as [p0 Hx0]
      by (case_decide; simplify_eq; eauto).
    destruct (ci_vote_kept c I _ _ _ _ _ _ Hx0 Hv) as (e & ? & [?|?]); exists e;
      eauto using anchored_stable.
  - intros x e Hx. eapply SafeAt_stable; [exact Hs|]. by apply (ci_safe c I) in Hx.
Qed.

Lemma inv_learn c a p l e :
  core_inv c -> accs c !! a = Some (p, l) -> anchored c e ->
  (Node_ (eBallot e), e) ∈ hist c ->
  core_inv (mkCore (<[a := (p, <[eSlot e := e]> l)]> (accs c)) (hist c)).
Proof.
  intros I Ha Hanc Hvoted.
  assert (core_step c (mkCore (<[a := (p, <[eSlot e := e]> l)]> (accs c)) (hist c))) as Hs
    by by econstructor.
  split; simpl.
  - apply (ci_leader_first c I).
  - intros x e' Hx. destruct (ci_bound c I x e' Hx) as (p' & l' & Hacc & Hb).
    destruct (core_step_promise _ _ _ _ _ Hs Hacc) as (p'' & l'' & ? & ?).
    exists p'', l''. eauto with payments.
  - apply (ci_unique c I).
  - intros x p' l' s e'. rewrite !lookup_insert. case_decide; intros; simplify_eq;
      [|eauto using ci_log_slot].
    match goal with H : <[_:=_]> _ !! _ = _ |- _ => rewrite lookup_insert in H end.
    case_decide; simplify_eq; eauto using ci_log_slot.
  - intros x p' l' s e'. rewrite !lookup_insert. case_decide; intros; simplify_eq;
      [|eauto using ci_log_voted].
    match goal with H : <[_:=_]> _ !! _ = _ |- _ => rewrite lookup_insert in H end.
    case_decide; simplify_eq; eauto using ci_log_voted.
  - intros x p' l' s b' cmd Hx Hv. rewrite lookup_insert in Hx. case_decide; simplify_eq.
    + destruct (decide (eSlot e = s)) as [<-|Hne].
      * exists e. rewrite lookup_insert_eq. eauto using anchored_stable.
      * rewrite lookup_insert_ne by done.
        destruct (ci_vote_kept c I _ _ _ _ _ _ Ha Hv) as (e' & ? & [?|?]); exists e';
          eauto using anchored_stable.
    + destruct (ci_vote_kept c I _ _ _ _ _ _ Hx Hv) as (e' & ? & [?|?]); exists e';
        eauto using anchored_stable.
  - intros x e' Hx. eapply SafeAt_stable; [exact Hs|]. by apply (ci_safe c I) in Hx.
Qed.

Lemma inv_vote_kept c a l e x p' l' s b cmd :
  core_inv c -> accs c !! a = Some (eBallot e, l) ->
  (forall old, l !! eSlot e = Some old -> ble (eBallot old) (eBallot e)) ->
  may_vote c a e ->
  let c' := mkCore (<[a := (eBallot e, <[eSlot e := e]> l)]> (accs c)) (hist c ++ [(a, e)]) in
  accs c' !! x = Some (p', l') -> (x, mkEntry s b cmd) ∈ hist c' ->
  exists e', l' !! s = Some e' /\ (ble b (eBallot e') \/ anchored c' e').
Proof.
  intros I Ha Hmono Hmay c' Hx Hv.
  assert (core_step c c') as Hs by by econstructor.
  simpl in Hx, Hv. rewrite elem_of_snoc in Hv. rewrite lookup_insert in Hx.
  destruct Hv as [Hv|[= -> <-]]; simpl in *.
  2: { rewrite decide_True in Hx by done. simplify_eq.
       eexists. rewrite lookup_insert_eq. split; [done|]. left. apply ble_refl. }
  case_decide; simplify_eq.
  - destruct (ci_vote_kept c I _ _ _ _ _ _ Ha Hv) as (e' & He' & Hcase).
    destruct (decide (eSlot e = s)) as [<-|Hne].
    + exists e. rewrite lookup_insert_eq. split; [done|].
      destruct Hcase as [Hb|Hanc]; [left; eauto with payments|].
      right. eapply anchored_stable; [exact Hs|].
      eapply (vote_over_anchored c x e e'); eauto using ci_log_slot.
    + exists e'. rewrite lookup_insert_ne by done. destruct Hcase; eauto using anchored_stable.
  - destruct (ci_vote_kept c I _ _ _ _ _ _ Hx Hv) as (e' & ? & [?|?]); exists e';
      eauto using anchored_stable.
Qed.

Lemma inv_vote c a l e :
  core_inv c -> accs c !! a = Some (eBallot e, l) ->
  (forall old, l !! eSlot e = Some old -> ble (eBallot old) (eBallot e)) ->
  may_vote c a e ->
  core_inv (mkCore (<[a := (eBallot e, <[eSlot e := e]> l)]> (accs c)) (hist c ++ [(a, e)])).
Proof.
  intros I Ha Hmono Hmay. set (c' := mkCore _ _).
  assert (core_step c c') as Hs by by econstructor.
  assert ((Node_ (eBallot e), e) ∈ hist c') as Hlead.
  { simpl. rewrite elem_of_snoc. destruct Hmay as [?|(-> & _)]; auto. }
  split; simpl.
  - intros x e' Hx. rewrite elem_of_snoc in Hx. destruct Hx as [Hx|]; simplify_eq; [|done].
    apply (ci_leader_first c I) in Hx. rewrite elem_of_snoc. auto.
  - intros x e' Hx. rewrite elem_of_snoc in Hx. destruct Hx as [Hx|]; simplify_eq.
    + destruct (ci_bound c I x e' Hx) as (p' & l' & Hacc & Hb).
      destruct (core_step_promise _ _ _ _ _ Hs Hacc) as (p'' & l'' & ? & ?).
      exists p'', l''. eauto with payments.
    + rewrite lookup_insert_eq. eauto with payments.
  - intros s b cmd cmd' H1 H2. rewrite elem_of_snoc in H1, H2.
    destruct H1 as [H1|[= ? <-]], H2 as [H2|[= ? Heq]]; simplify_eq/=; [by eapply ci_unique| | |done].
    + eapply (may_vote_same c _ (mkEntry s b cmd')); eauto.
    + symmetry. eapply (may_vote_same c _ (mkEntry s b cmd)); eauto.
  - intros x p' l' s e'. rewrite lookup_insert. case_decide; intros; simplify_eq;
      [|eauto using ci_log_slot].
    match goal with H : <[_:=_]> _ !! _ = _ |- _ => rewrite lookup_insert in H end.
    case_decide; simplify_eq; eauto using ci_log_slot.
  - intros x p' l' s e' Hx He'. rewrite lookup_insert in Hx. case_decide; simplify_eq.
    + rewrite lookup_insert in He'. case_decide; simplify_eq; [done|].
      rewrite elem_of_snoc. left. by eapply ci_log_voted.
    + rewrite elem_of_snoc. left. by eapply ci_log_voted.
  - intros x p' l' s b cmd Hx Hv. eapply inv_vote_kept; eauto.
  - intros x e' Hx. rewrite elem_of_snoc in Hx. destruct Hx as [Hx|]; simplify_eq.
    + eapply SafeAt_stable; [exact Hs|]. by apply (ci_safe c I) in Hx.
    + eapply SafeAt_stable; [exact Hs|]. eapply may_vote_safe; eauto.
Qed.

Theorem core_step_inv c c' : core_inv c -> core_step c c' -> core_inv c'.
Proof. intros I Hs. inv Hs; eauto using inv_raise, inv_vote, inv_learn. Qed.

(** No acceptor has voted or holds anything yet. *)
Definition core_init c : Prop :=
  hist c = [] /\ forall a p l, accs c !! a = Some (p, l) -> l = ∅.

Lemma core_init_inv c : core_init c -> core_inv c.
Proof.
  intros [Hh Hl].
  assert (forall a s p l e, accs c !! a = Some (p, l) -> l !! s = Some e -> False) as Hno.
  { intros a s p l e Ha He. rewrite (Hl _ _ _ Ha), lookup_empty in He. done. }
  split; rewrite ?Hh; try (intros; exfalso; eauto; fail);
    intros; exfalso; eapply not_elem_of_nil; eauto.
Qed.

Lemma core_steps_inv c c' : core_inv c -> rtc core_step c c' -> core_inv c'.
Proof. intros I Hs. revert I. induction Hs; eauto using core_step_inv. Qed.

Theorem core_agreement c0 c s b1 b2 cmd1 cmd2 :
  core_init c0 -> rtc core_step c0 c ->
  chosen c s b1 cmd1 -> chosen c s b2 cmd2 -> cmd1 = cmd2.
Proof.
  intros Hinit Hsteps. apply core_agreement_at.
  eapply core_steps_inv; [|exact Hsteps]. by apply core_init_inv.
Qed.

(** ** Multi-step stability *)

Lemma steps_hist c c' a e : rtc core_step c c' -> (a, e) ∈ hist c -> (a, e) ∈ hist c'.
Proof. induction 1; eauto using core_step_hist. Qed.

Lemma steps_anchored c c' e : rtc core_step c c' -> anchored c e -> anchored c' e.
Proof. induction 1; eauto using anchored_stable. Qed.

Lemma steps_SafeAt c c' s b cmd : rtc core_step c c' -> SafeAt c s b cmd -> SafeAt c' s b cmd.
Proof. induction 1; eauto using SafeAt_stable. Qed.

Lemma steps_anchored_at c c' a s :
  core_inv c -> rtc core_step c c' -> anchored_at c a s -> anchored_at c' a s.
Proof. intros I Hs. revert I. induction Hs; eauto using anchored_at_stable, core_step_inv. Qed.

Lemma steps_promise c c' a p l :
  rtc core_step c c' -> accs c !! a = Some (p, l) ->
  exists p' l', accs c' !! a = Some (p', l') /\ ble p p'.
Proof.
  intros Hs. revert p l. induction Hs as [|x y z Hxy _ IH]; intros p l Ha; [eauto with payments|].
  destruct (core_step_promise _ _ _ _ _ Hxy Ha) as (p1 & l1 & H1 & ?).
  destruct (IH _ _ H1) as (p2 & l2 & ? & ?). eauto with payments.
Qed.

Lemma steps_no_vote c c' a s b p l :
  rtc core_step c c' -> accs c !! a = Some (p, l) -> blt b p ->
  ~ voted_at c a s b -> ~ voted_at c' a s b.
Proof.
  intros Hs. revert p l. induction Hs as [|x y z Hxy _ IH]; intros p l Ha Hlt Hno; [done|].
  destruct (core_step_promise _ _ _ _ _ Hxy Ha) as (p1 & l1 & H1 & ?).
  eapply IH; eauto with payments. eapply core_step_no_vote; eauto.
Qed.
End Voting.
