(* ===== verification/PaxosSystem.v ===== *)
(** * A Paxos group at work

    The replicas of a group, the goroutines each has in flight and the messages
    between them.  A step is one stretch of code between two network exchanges:
    a message handler, or the part of a round before its broadcast or after its
    replies.  Any message may be delayed, dropped, duplicated or overtaken, a
    reply may be lost after its request took effect, timers may fire at any
    moment, disk writes may fail and a replica may crash and restart with the
    log it had.

    A goroutine is a [task]; a task that waits for replies holds the number of
    its round, and only replies to that round reach it.  [votes] is a history
    variable: every entry a replica accepted from a leader or proposed itself.
    It is never read by a step. *)

From S2P Require Import Prelude PaxosTypes PaxosLog PaxosNode PaxosVoting.

(** What a finished ACCEPT round goes back to: the recovery loop of
    [becomeLeader], at the slots after this one, or the caller of [Propose]. *)
Inductive continuation :=
  | Recovering (best : gmap N Entry) (last : N)
  | Proposing.

(** The ballot in [TRecover], [TPropose] is the leadership under which the
    goroutine was started. The code does not keep it. *)
Inductive task :=
  | TProbe (rid : nat) (req : Message)
  | TPrepare (rid : nat) (req : Message) (first : N)
  | TRecover (b : Ballot) (best : gmap N Entry) (slot last : N)
  | TPropose (b : Ballot) (slot : N) (cmd : bytes)
  | TAccept (rid : nat) (req : Message) (k : continuation)
  | TCatchUp (rid : nat) (req : Message) (first commitIndex : N)
  | THeartbeat (rid : nat) (req : Message).

Inductive action :=
  | ACampaign (i : NodeID)                                (* timer or Campaign() *)
  | AHandle (e : env) (r : nat)                           (* deliver request r *)
  | APrepare (e : env) (k : nat) (picks : list nat)       (* probe answered *)
  | AElect (e : env) (k : nat) (picks : list nat)         (* promises in *)
  | APropose (i : NodeID) (cmd : bytes)
  | AReplicate (e : env) (k : nat)                        (* one ACCEPT broadcast *)
  | AAccepted (e : env) (k : nat) (picks : list nat)      (* ACCEPTED replies in *)
  | AHeartbeat (i : NodeID)
  | AHeartbeatDone (e : env) (k : nat) (picks : list nat)
  | ACatchUpDone (e : env) (k : nat) (pick : option nat)
  | AApply (i : NodeID)                                   (* one slot of the apply loop *)
  | ARestart (e : env) (i : NodeID).

Section System.
Context {S R : Type} {SM : StateMachine S R}.

Record System := mkSystem {
  nodes : gmap NodeID (Node S R);
  tasks : gmap nat (NodeID * task);
  requests : list (nat * NodeID * Message);            (* round, addressee, request *)
  replies : list (nat * NodeID * Message * Message);   (* round, responder, request, reply *)
  fresh : nat;
  hvotes : list (NodeID * Entry);
}.

Definition set_node (i : NodeID) (n : Node S R) (σ : System) : System :=
  mkSystem (<[i := n]> (nodes σ)) (tasks σ) (requests σ) (replies σ) (fresh σ) (hvotes σ).
Definition set_task (k : nat) (i : NodeID) (t : task) (σ : System) : System :=
  mkSystem (nodes σ) (<[k := (i, t)]> (tasks σ)) (requests σ) (replies σ) (fresh σ) (hvotes σ).
Definition drop_task (k : nat) (σ : System) : System :=
  mkSystem (nodes σ) (delete k (tasks σ)) (requests σ) (replies σ) (fresh σ) (hvotes σ).
Definition spawn (i : NodeID) (t : task) (σ : System) : System :=
  mkSystem (nodes σ) (<[fresh σ := (i, t)]> (tasks σ)) (requests σ) (replies σ)
    (Datatypes.S (fresh σ)) (hvotes σ).
(** Send one request of a new round to each of [tos]; the round's number is
    [fresh] before the call. *)
Definition send (tos : list NodeID) (m : Message) (σ : System) : System :=
  mkSystem (nodes σ) (tasks σ) (requests σ ++ ((fun to => (fresh σ, to, m)) <$> tos)) (replies σ)
    (Datatypes.S (fresh σ)) (hvotes σ).
Definition add_reply (r : nat) (to : NodeID) (req rep : Message) (σ : System) : System :=
  mkSystem (nodes σ) (tasks σ) (requests σ) (replies σ ++ [(r, to, req, rep)]) (fresh σ) (hvotes σ).
Definition add_vote (i : NodeID) (e : Entry) (σ : System) : System :=
  mkSystem (nodes σ) (tasks σ) (requests σ) (replies σ) (fresh σ) (hvotes σ ++ [(i, e)]).

(** The replies a round collected: distinct peers, this round, this request. *)
Fixpoint collect (rid : nat) (req : Message) (rs : list (nat * NodeID * Message * Message))
    (picks : list nat) : option (list (NodeID * Message)) :=
  match picks with
  | [] => Some []
  | p :: ps =>
      '(r, to, q, rep) ← rs !! p;
      rest ← collect rid req rs ps;
      if bool_decide (r = rid) && bool_decide (q = req)
         && negb (bool_decide (to ∈ rest.*1))
      then Some ((to, rep) :: rest) else None
  end.

(** ** Steps *)

Definition exec_handle (e : env) (r : nat) (σ : System) : option System :=
  '(rid, to, msg) ← requests σ !! r;
  n ← nodes σ !! to;
  let '(n', rep, fetch) := Handle e msg n in
  let σ1 := add_reply rid to msg rep (set_node to n' σ) in
  let σ2 := if bool_decide (mKind msg = KindAccept) && mOK rep
            then add_vote to (mkEntry (mSlot msg) (mBallot msg) (mCommand msg)) σ1 else σ1 in
  Some (match fetch with
        | None => σ2
        | Some (from, first, ci) =>
            let req := catchUpRequest first n' in
            spawn to (TCatchUp (fresh σ2) req first ci) (send [from] req σ2)
        end).

Definition exec_campaign (i : NodeID) (σ : System) : option System :=
  n ← nodes σ !! i;
  n' ← campaign_begin n;
  let req := pingRequest n' in
  Some (spawn i (TProbe (fresh σ) req) (send (others n') req (set_node i n' σ))).

Definition exec_prepare (e : env) (k : nat) (picks : list nat) (σ : System) : option System :=
  '(i, t) ← tasks σ !! k;
  n ← nodes σ !! i;
  match t with
  | TProbe rid req =>
      rs ← collect rid req (replies σ) picks;
      let '(n', out) := campaign_prepare e rs.*2 n in
      let σ1 := set_node i n' σ in
      Some (match out with
            | None => drop_task k σ1
            | Some (preq, first) =>
                set_task k i (TPrepare (fresh σ1) preq first) (send (others n') preq σ1)
            end)
  | _ => None
  end.

Definition exec_elect (e : env) (k : nat) (picks : list nat) (σ : System) : option System :=
  '(i, t) ← tasks σ !! k;
  n ← nodes σ !! i;
  match t with
  | TPrepare rid req first =>
      rs ← collect rid req (replies σ) picks;
      let '(n', out) := campaign_finish e (mBallot req) first rs.*2 n in
      let σ1 := set_node i n' σ in
      Some (match out with
            | None => drop_task k σ1
            | Some (best, last) => set_task k i (TRecover (mBallot req) best first last) σ1
            end)
  | _ => None
  end.

Definition exec_propose (i : NodeID) (cmd : bytes) (σ : System) : option System :=
  n ← nodes σ !! i;
  '(n', slot) ← propose_begin n;
  Some (spawn i (TPropose (ballot n') slot cmd) (set_node i n' σ)).

(** One call of [replicate] up to its broadcast; [after] is where the round
    returns to and [on_error] what its caller does with an error. *)
Definition start_accept (e : env) (k : nat) (i : NodeID) (n : Node S R) (slot : N) (cmd : bytes)
    (after : continuation) (on_error : System) (σ : System) : System :=
  match replicate_begin e slot cmd n with
  | inr _ => on_error
  | inl (n', req) =>
      let σ1 := add_vote i (mkEntry slot (mBallot req) cmd) (set_node i n' σ) in
      set_task k i (TAccept (fresh σ1) req after) (send (others n') req σ1)
  end.

(** The command the recovery loop re-proposes at a slot: a no-op in a gap. *)
Definition recovered (best : gmap N Entry) (slot : N) : bytes :=
  match best !! slot with Some e => eCommand e | None => "" end.

Definition exec_replicate (e : env) (k : nat) (σ : System) : option System :=
  '(i, t) ← tasks σ !! k;
  n ← nodes σ !! i;
  match t with
  | TPropose b slot cmd =>
      Some (start_accept e k i n slot cmd Proposing
              (drop_task k (set_node i (propose_fail e slot n) σ)) σ)
  | TRecover b best slot last =>
      if (last <? slot)%N then Some (drop_task k σ)
      else Some (start_accept e k i n slot (recovered best slot) (Recovering best last)
                   (drop_task k σ) σ)
  | _ => None
  end.

Definition exec_accepted (e : env) (k : nat) (picks : list nat) (σ : System) : option System :=
  '(i, t) ← tasks σ !! k;
  n ← nodes σ !! i;
  match t with
  | TAccept rid req after =>
      rs ← collect rid req (replies σ) picks;
      let '(n', err) := replicate_finish e (mBallot req) (mSlot req) rs.*2 n in
      Some (match after, err with
            | Proposing, Some _ => drop_task k (set_node i (propose_fail e (mSlot req) n') σ)
            | Recovering best last, None =>
                set_task k i (TRecover (mBallot req) best (u64 (mSlot req + 1)) last) (set_node i n' σ)
            | _, _ => drop_task k (set_node i n' σ)
            end)
  | _ => None
  end.

Definition exec_heartbeat (i : NodeID) (σ : System) : option System :=
  n ← nodes σ !! i;
  if IsLeader n then
    let req := commitRequest n in
    Some (spawn i (THeartbeat (fresh σ) req) (send (others n) req σ))
  else None.

Definition exec_heartbeat_done (e : env) (k : nat) (picks : list nat) (σ : System) : option System :=
  '(i, t) ← tasks σ !! k;
  n ← nodes σ !! i;
  match t with
  | THeartbeat rid req =>
      rs ← collect rid req (replies σ) picks;
      Some (drop_task k (set_node i (broadcastCommit_finish e (mBallot req) rs.*2 n) σ))
  | _ => None
  end.

Definition exec_catchup_done (e : env) (k : nat) (pick : option nat) (σ : System) : option System :=
  '(i, t) ← tasks σ !! k;
  n ← nodes σ !! i;
  match t with
  | TCatchUp rid req first ci =>
      rs ← collect rid req (replies σ) (match pick with None => [] | Some p => [p] end);
      Some (drop_task k (set_node i (catchUp_finish e first ci (snd <$> head rs) n) σ))
  | _ => None
  end.

Definition exec_apply (i : NodeID) (σ : System) : option System :=
  n ← nodes σ !! i;
  n' ← apply_next n;
  Some (set_node i n' σ).

(** A crash ends the replica's goroutines and loses everything but its log
    (PaxosLog.restart_recovers_log). *)
Definition exec_restart (e : env) (i : NodeID) (σ : System) : option System :=
  n ← nodes σ !! i;
  Some (mkSystem (<[i := NewNode e i (peers n) (log n) (cfg n)]> (nodes σ))
          (filter (fun kt => kt.2.1 <> i) (tasks σ))
          (requests σ) (replies σ) (fresh σ) (hvotes σ)).

Definition exec (a : action) (σ : System) : option System :=
  match a with
  | ACampaign i => exec_campaign i σ
  | AHandle e r => exec_handle e r σ
  | APrepare e k picks => exec_prepare e k picks σ
  | AElect e k picks => exec_elect e k picks σ
  | APropose i cmd => exec_propose i cmd σ
  | AReplicate e k => exec_replicate e k σ
  | AAccepted e k picks => exec_accepted e k picks σ
  | AHeartbeat i => exec_heartbeat i σ
  | AHeartbeatDone e k picks => exec_heartbeat_done e k picks σ
  | ACatchUpDone e k pick => exec_catchup_done e k pick σ
  | AApply i => exec_apply i σ
  | ARestart e i => exec_restart e i σ
  end.

Fixpoint exec_all (acts : list action) (σ : System) : option System :=
  match acts with
  | [] => Some σ
  | a :: rest => σ' ← exec a σ; exec_all rest σ'
  end.

(** A fresh group: every replica new, with an empty log. *)
Definition init_system (e : env) (group : list NodeID) (c : Config) : System :=
  mkSystem (list_to_map ((fun i => (i, NewNode e i group NewMemLog c)) <$> group)) ∅ [] [] 0 [].
End System.

Arguments System : clear implicits.
