(* ===== verification/PaxosElection.v ===== *)
(** * Why an election is safe

    The loops of [campaign] and [becomeLeader] over the promises, and the
    argument that the command a new leader adopts for a slot is safe at its
    ballot.  The facts are about the replies and the voting machine; no system
    state is involved yet. *)

From S2P Require Import Prelude PaxosTypes PaxosLog PaxosNode PaxosVoting.

(** ** The tally of promises *)

Definition promised_by (rs : list (NodeID * Message)) : list NodeID :=
  (filter (fun r => mOK r.2 = true) rs).*1.

Lemma count_promises_spec rs (t0 : tally) :
  let t := fold_left tally_reply (rs.*2) t0 in
  votes t = votes t0 + length (promised_by rs) /\
  (forall e, e ∈ gathered t <->
     e ∈ gathered t0 \/ exists to r, (to, r) ∈ rs /\ mOK r = true /\ e ∈ mEntries r).
Proof.
  cbv zeta. revert t0. induction rs as [|[to r] rs IH]; intros t0; [simpl|].
  - split; [unfold promised_by; simpl; lia|]. intros e. split; [auto|].
    intros [?|(? & ? & Hin & _)]; [done|]. by apply not_elem_of_nil in Hin.
  - change (fold_left tally_reply ((to, r) :: rs).*2 t0)
      with (fold_left tally_reply rs.*2 (tally_reply t0 r)).
    destruct (IH (tally_reply t0 r)) as [Hv Hg]. split.
    + rewrite Hv. unfold tally_reply, promised_by. rewrite filter_cons. cbn [snd].
      destruct (mOK r); case_decide; try done; [|by destruct (Less _ _)].
      rewrite fmap_cons. cbn [votes length]. lia.
    + intros e. rewrite Hg. unfold tally_reply. destruct (mOK r) eqn:Hok; simpl.
      * rewrite elem_of_app. setoid_rewrite elem_of_cons. split.
        -- intros [[?|?]|(to' & r' & ? & ? & ?)]; eauto 10.
        -- intros [?|(to' & r' & [[=-> ->]|?] & ? & ?)]; eauto 10.
      * assert (gathered (if Less (highest t0) (mBallot r)
                          then mkTally (votes t0) (gathered t0) (mBallot r) else t0) = gathered t0)
          as -> by by destruct (Less _ _).
        setoid_rewrite elem_of_cons. split.
        -- intros [?|(to' & r' & ? & ? & ?)]; eauto 10.
        -- intros [?|(to' & r' & [[=-> ->]|?] & Hok' & ?)]; [auto|congruence|eauto 10].
Qed.

Lemma elem_of_promised_by a rs :
  a ∈ promised_by rs <-> exists r, (a, r) ∈ rs /\ mOK r = true.
Proof.
  unfold promised_by. rewrite list_elem_of_fmap. split.
  - intros ([a' r] & -> & Hin). apply list_elem_of_filter in Hin as [? ?]. eauto.
  - intros (r & ? & ?). exists (a, r). split; [done|]. by apply list_elem_of_filter.
Qed.

Lemma promised_by_NoDup rs : NoDup rs.*1 -> NoDup (promised_by rs).
Proof.
  intros Hnd. unfold promised_by. induction rs as [|[a r] rs IH]; [constructor|].
  simpl in Hnd. apply NoDup_cons in Hnd as [Hni Hnd]. rewrite filter_cons.
  case_decide; simpl; [|auto]. apply NoDup_cons. split; [|auto].
  intros Hin. apply Hni. apply list_elem_of_fmap in Hin as (x & -> & Hx).
  apply list_elem_of_filter in Hx as [_ Hx]. apply list_elem_of_fmap. eauto.
Qed.

(** ** The adoption loop *)

Definition adopt_ok (first : N) (seen : list Entry) (acc : gmap N Entry * N) : Prop :=
  (forall s e, acc.1 !! s = Some e ->
     e ∈ seen /\ eSlot e = s /\ (first <= s)%N /\
     forall e', e' ∈ seen -> eSlot e' = s -> ble (eBallot e') (eBallot e)) /\
  (forall e, e ∈ seen -> (first <= eSlot e)%N -> is_Some (acc.1 !! eSlot e) /\ (eSlot e <= acc.2)%N).

Lemma adopt_entry_ok first seen acc e :
  adopt_ok first seen acc -> adopt_ok first (seen ++ [e]) (adopt_entry first acc e).
Proof.
  destruct acc as [best last]. intros [Hb Hc]. simpl in *.
  unfold adopt_entry, adopt_ok. destruct (N.ltb_spec (eSlot e) first) as [Hlt|Hge]; simpl.
  { split.
    - intros s e' He'. destruct (Hb _ _ He') as (? & ? & ? & Hm).
      split_and!; [rewrite elem_of_snoc; auto|done|done|].
      intros e'' Hin ?. rewrite elem_of_snoc in Hin. destruct Hin as [?| ->]; [auto|lia].
    - intros e' Hin ?. rewrite elem_of_snoc in Hin. destruct Hin as [?| ->]; [auto|lia]. }
  set (last' := if (last <? eSlot e)%N then eSlot e else last).
  assert (last <= last' /\ eSlot e <= last')%N as [Hl1 Hl2]
    by (unfold last'; destruct (N.ltb_spec last (eSlot e)); lia).
  set (best' := match best !! eSlot e with
                | None => <[eSlot e := e]> best
                | Some cur => if Less (eBallot cur) (eBallot e) then <[eSlot e := e]> best else best
                end).
  assert (forall s, s <> eSlot e -> best' !! s = best !! s) as Hother.
  { intros s Hs. unfold best'. destruct (best !! eSlot e) as [cur|]; [destruct (Less _ _)|];
      rewrite ?lookup_insert_ne by done; done. }
  assert (exists m, best' !! eSlot e = Some m /\ (m = e \/ best !! eSlot e = Some m) /\
            ble (eBallot e) (eBallot m) /\
            forall cur, best !! eSlot e = Some cur -> ble (eBallot cur) (eBallot m))
    as (m & Hm & Hcase & Hem & Hcur).
  { unfold best'. destruct (best !! eSlot e) as [cur|] eqn:E.
    - destruct (Less (eBallot cur) (eBallot e)) eqn:L.
      + exists e. rewrite lookup_insert_eq. split_and!; auto with payments.
        intros ? [= <-]. by apply blt_ble.
      + exists cur. split_and!; auto with payments. intros ? [= <-]. apply ble_refl.
    - exists e. rewrite lookup_insert_eq. split_and!; auto with payments. done. }
  split; simpl.
  - intros s e' He'. destruct (decide (s = eSlot e)) as [->|Hne].
    + assert (m = e') as -> by congruence. split_and!.
      * rewrite elem_of_snoc. destruct Hcase as [->|Hold]; [auto|].
        left. by apply (Hb _ _ Hold).
      * destruct Hcase as [->|Hold]; [done|]. by apply (Hb _ _ Hold).
      * done.
      * intros e'' Hin Hs. rewrite elem_of_snoc in Hin. destruct Hin as [Hin| ->]; [|done].
        destruct (Hc e'' Hin ltac:(lia)) as [[cur Hc1] _]. rewrite Hs in Hc1.
        destruct (Hb _ _ Hc1) as (_ & _ & _ & Hmax). eauto with payments.
    + rewrite Hother in He' by done. destruct (Hb _ _ He') as (? & ? & ? & Hmax).
      split_and!; [rewrite elem_of_snoc; auto|done|done|].
      intros e'' Hin ?. rewrite elem_of_snoc in Hin. destruct Hin as [?| ->]; [auto|congruence].
  - intros e' Hin Hfirst. rewrite elem_of_snoc in Hin. destruct Hin as [Hin| ->].
    + destruct (Hc e' Hin Hfirst) as [Hsome Hle]. split; [|lia].
      destruct (decide (eSlot e' = eSlot e)) as [->|]; [eauto|]. by rewrite Hother.
    + split; [eauto|done].
Qed.

Lemma adopt_spec first es : adopt_ok first es (adopt first es).
Proof.
  unfold adopt. rewrite <- (app_nil_l es) at 1.
  assert (adopt_ok first [] (∅, 0%N)) as H0.
  { split; simpl; [intros s e; by rewrite lookup_empty|].
    intros e He. by apply not_elem_of_nil in He. }
  revert H0. generalize (∅ : gmap N Entry, 0%N) (@nil Entry).
  induction es as [|e es IH]; intros acc seen H; simpl; [by rewrite app_nil_r|].
  replace (seen ++ e :: es) with ((seen ++ [e]) ++ es) by by rewrite <- app_assoc.
  apply IH. by apply adopt_entry_ok.
Qed.

(** ** The argument *)

Section Elect.
Context (group : list NodeID).

(** What an affirmative answer of [a] to a PREPARE of ballot [b] from slot
    [first] on says, and keeps saying: [a] will not vote below [b] any more,
    the entries it sent were proposed by their leaders, and they cover
    everything it had voted for. *)
Definition promise_fact (c : Core) (a : NodeID) (b : Ballot) (first : N) (E : list Entry) : Prop :=
  (exists p l, accs c !! a = Some (p, l) /\ ble b p) /\
  (forall e, e ∈ E -> (Node_ (eBallot e), e) ∈ hist c) /\
  (forall s b0 cmd, (first <= s)%N -> blt b0 b -> (a, mkEntry s b0 cmd) ∈ hist c ->
     exists e, e ∈ E /\ eSlot e = s /\ (ble b0 (eBallot e) \/ anchored group c e)).

#[export] Instance voted_at_dec c a s b : Decision (voted_at c a s b).
Proof.
  refine (cast_if (decide (Exists (fun v => v.1 = a /\ eSlot v.2 = s /\ eBallot v.2 = b) (hist c)))).
  - apply Exists_exists in e as ([a' [s' b' cmd]] & Hin & ?). destruct_and!. simplify_eq/=. by exists cmd.
  - intros [cmd Hin]. apply n, Exists_exists. eexists. by split.
Defined.

(** A vote below the promise was already there. *)
Lemma steps_old_votes c c' a p l s b cmd :
  rtc (core_step group) c c' -> accs c !! a = Some (p, l) -> blt b p ->
  (a, mkEntry s b cmd) ∈ hist c' -> (a, mkEntry s b cmd) ∈ hist c.
Proof.
  intros Hs. revert p l. induction Hs as [|x y z Hxy Hyz IH]; intros p l Ha Hlt Hin; [done|].
  destruct (core_step_promise _ _ _ _ _ _ Hxy Ha) as (p1 & l1 & H1 & Hp1).
  specialize (IH _ _ H1 ltac:(eauto with payments) Hin). clear Hin.
  destruct Hxy; simpl in *; try done.
  apply elem_of_snoc in IH as [?|?]; [done|]. simplify_eq/=. by apply blt_irrefl in Hlt.
Qed.

Lemma promise_fact_stable c c' a b first E :
  rtc (core_step group) c c' -> promise_fact c a b first E -> promise_fact c' a b first E.
Proof.
  intros Hs ((p & l & Ha & Hb) & Hlead & Hcov). split_and!.
  - destruct (steps_promise _ _ _ _ _ _ Hs Ha) as (p' & l' & ? & ?). eauto with payments.
  - eauto using steps_hist.
  - intros s b0 cmd Hs0 Hlt Hin. eapply steps_old_votes in Hin; [|eauto with payments..].
    destruct (Hcov s b0 cmd Hs0 Hlt Hin) as (e & ? & ? & [?|?]); exists e;
      eauto using steps_anchored.
Qed.

(** An acceptor that reads its own log after promising [b]. *)
Lemma promise_fact_log c a b first p l :
  core_inv group c -> accs c !! a = Some (p, l) -> ble b p ->
  forall E, (forall e, e ∈ E <-> (first <= eSlot e)%N /\ l !! eSlot e = Some e) ->
  promise_fact c a b first E.
Proof.
  intros I Ha Hb E HE. split_and!; [eauto| |].
  - intros e [_ He]%HE. eapply ci_log_voted; eauto.
  - intros s b0 cmd Hs Hlt Hin.
    destruct (ci_vote_kept _ _ I _ _ _ _ _ _ Ha Hin) as (e & He & Hcase).
    pose proof (ci_log_slot _ _ I _ _ _ _ _ Ha He) as Hslot. subst s.
    exists e. split_and!; [|done|done]. by apply HE.
Qed.

(** [Q] promised [b] and [G] holds everything its members reported. *)
Definition gathered_from (c : Core) (b : Ballot) (first : N) (Q : gset NodeID) (G : list Entry) : Prop :=
  is_quorum group Q /\
  forall a, a ∈ Q -> exists E, promise_fact c a b first E /\ E ⊆ G.

Lemma closed_by_silence c b b0 first Q G s cmd :
  gathered_from c b first Q G -> blt b0 b ->
  (forall a cmd', a ∈ Q -> (a, mkEntry s b0 cmd') ∈ hist c -> cmd' = cmd) ->
  closed_for group c s b0 cmd.
Proof.
  intros [HQ Hfacts] Hlt Hsame. exists Q. split; [done|]. intros a Ha.
  destruct (Hfacts a Ha) as (E & ((p & l & Hacc & Hp) & _) & _).
  destruct (decide (voted_at c a s b0)) as [[cmd' Hv]|Hno].
  - left. by rewrite <- (Hsame a cmd' Ha Hv).
  - right. exists p, l. split_and!; eauto with payments.
Qed.

(** Where nothing was reported, anything may be proposed. *)
Lemma elect_safe_free c b first Q G s cmd :
  gathered_from c b first Q G -> (first <= s)%N -> (forall e, e ∈ G -> eSlot e <> s) ->
  SafeAt group c s b cmd.
Proof.
  intros HG Hs Hno b0 Hlt. eapply closed_by_silence; [done|done|].
  intros a cmd' Ha Hv. exfalso. destruct HG as [_ Hfacts].
  destruct (Hfacts a Ha) as (E & (_ & _ & Hcov) & HE).
  destruct (Hcov s b0 cmd' Hs Hlt Hv) as (e & He & ? & _). by apply (Hno e (HE _ He)).
Qed.

(** Where something was, the command of the highest ballot is safe. *)
Lemma elect_safe_best c b first Q G em :
  core_inv group c -> gathered_from c b first Q G ->
  (first <= eSlot em)%N -> (Node_ (eBallot em), em) ∈ hist c ->
  (forall e, e ∈ G -> eSlot e = eSlot em -> ble (eBallot e) (eBallot em)) ->
  SafeAt group c (eSlot em) b (eCommand em).
Proof.
  intros I HG Hs Hem Hmax b0 Hlt.
  destruct (blt_total b0 (eBallot em)) as [Hlow|Hge].
  { by apply (ci_safe _ _ I _ _ Hem). }
  assert (ble (eBallot em) b0) as Hle by (rewrite ble_lteq; destruct Hge as [->|?]; auto).
  eapply closed_by_silence; [done|done|]. intros a cmd' Ha Hv.
  destruct HG as [_ Hfacts]. destruct (Hfacts a Ha) as (E & (_ & HEv & Hcov) & HE).
  destruct (Hcov _ _ _ Hs Hlt Hv) as (e & He & Hslot & Hcase).
  pose proof (Hmax e (HE _ He) Hslot) as Hbe.
  destruct em as [s bm cm]; simpl in *.
  destruct Hcase as [Hb0|(bc & Hbc & Hch)].
  - assert (b0 = bm) as -> by (apply ble_antisym; [|done]; eauto with payments).
    eapply ci_same_command; eauto.
  - rewrite Hslot in Hch. transitivity (eCommand e).
    + symmetry. eapply (chosen_vote_agree group c); eauto with payments.
    + eapply (chosen_vote_agree group c); eauto with payments.
Qed.
End Elect.

#[export] Hint Resolve promise_fact_stable : payments.
