(* ===== verification/PaxosInvariant.v ===== *)
(** * The invariant of a Paxos group

    What holds of every reachable state of PaxosSystem.v as long as the steps
    obey the rules of PaxosSafety.v: the replicas' promises and logs form a
    voting machine ([core_of]), every goroutine and every message in flight
    carries facts of that machine that no later step takes back, and the right
    to make the first proposal of a ballot for a slot has at most one holder. *)

From S2P Require Import Prelude PaxosTypes PaxosLog PaxosNode PaxosVoting PaxosSystem PaxosElection.

Definition entry_of (m : Message) : Entry := mkEntry (mSlot m) (mBallot m) (mCommand m).

Section Invariant.
Context {S R : Type} {SM : StateMachine S R} (group : list NodeID).

Implicit Types (σ : System S R) (c : Core) (n : Node S R).

(** The voting machine inside a group. *)
Definition core_of σ : Core :=
  mkCore ((fun n => (Promised n, entries (log n))) <$> nodes σ) (hvotes σ).

(** ** Application state *)

(** What the apply loop does with one command. *)
Definition apply_cmd (slot : N) (cmd : bytes) (s : S) : S :=
  if Nat.eqb (String.length cmd) 0 then s else (sm_apply slot cmd s).1.

Fixpoint replay_from (slot : N) (cmds : list bytes) (s : S) : S :=
  match cmds with
  | [] => s
  | cmd :: rest => replay_from (slot + 1) rest (apply_cmd slot cmd s)
  end.

(** The commands of slots 1, 2, ..., applied to a fresh state machine. *)
Definition replay_cmds (cmds : list bytes) : S := replay_from 1 cmds sm_init.

Lemma replay_from_snoc cmds slot cmd s :
  replay_from slot (cmds ++ [cmd]) s =
  apply_cmd (slot + N.of_nat (length cmds)) cmd (replay_from slot cmds s).
Proof.
  revert slot s. induction cmds as [|x cmds IH]; intros slot s; simpl; [f_equal; lia|].
  rewrite IH. f_equal. lia.
Qed.

(** Each command is the one chosen for its slot. *)
Definition chosen_history c (cmds : list bytes) : Prop :=
  forall j cmd, cmds !! j = Some cmd -> exists b, chosen group c (N.of_nat j + 1) b cmd.

Definition applied_prefix c n : Prop :=
  exists cmds, N.of_nat (length cmds) = appliedIndex n /\ sm n = replay_cmds cmds /\ chosen_history c cmds.

Lemma chosen_history_prefix c cmds1 cmds2 :
  core_inv group c -> chosen_history c cmds1 -> chosen_history c cmds2 -> length cmds1 <= length cmds2 ->
  exists more, cmds2 = cmds1 ++ more.
Proof.
  intros I H1 H2 Hle. exists (drop (length cmds1) cmds2).
  rewrite <- (take_drop (length cmds1) cmds2) at 1. f_equal. symmetry. apply list_eq. intros j.
  destruct (decide (j < length cmds1)) as [Hj|Hj].
  - rewrite lookup_take_lt by lia.
    destruct (lookup_lt_is_Some_2 cmds1 j Hj) as [x Hx].
    destruct (lookup_lt_is_Some_2 cmds2 j ltac:(lia)) as [y Hy]. rewrite Hx, Hy. f_equal.
    destruct (H1 _ _ Hx) as [b1 Hb1], (H2 _ _ Hy) as [b2 Hb2]. eapply core_agreement_at; eauto.
  - rewrite !lookup_ge_None_2; [done|rewrite ?length_take; lia..].
Qed.

(** ** What each part of the state carries *)

Record node_ok c (i : NodeID) n : Prop := {
  no_id : id n = i;
  no_peers : peers n = group;
  no_wf : log_wf (log n);
  no_leader : role n = Leader ->
    Node_ (ballot n) = i /\ ble (ballot n) (Promised n) /\
    forall s cmd, (nextSlot n <= s)%N -> SafeAt group c s (ballot n) cmd;
  no_committed s : s ∈ committed n -> anchored_at group c i s;
  no_applied s : (1 <= s <= appliedIndex n)%N -> anchored_at group c i s;
  no_sm : applied_prefix c n;
}.

Definition request_ok c (r : nat * NodeID * Message) : Prop :=
  let '(rid, to, msg) := r in
  to <> mFrom msg /\
  (mKind msg = KindAccept -> (Node_ (mBallot msg), entry_of msg) ∈ hist c) /\
  (mKind msg = KindCommit ->
   forall s, (1 <= s <= mCommitIndex msg)%N -> anchored_at group c (mFrom msg) s).

Definition reply_ok c (r : nat * NodeID * Message * Message) : Prop :=
  let '(rid, to, req, rep) := r in
  to ∈ group /\ to <> mFrom req /\
  (forall e, e ∈ mEntries rep -> (Node_ (eBallot e), e) ∈ hist c) /\
  (mKind req = KindAccept -> mOK rep = true -> (to, entry_of req) ∈ hist c) /\
  (mKind req = KindPrepare -> mOK rep = true ->
   promise_fact group c to (mBallot req) (mSlot req) (mEntries rep)).

Definition recover_ok c (b : Ballot) (best : gmap N Entry) (slot last : N) : Prop :=
  (last < u64_max)%N /\
  forall s, (slot <= s <= last)%N -> SafeAt group c s b (recovered best s).

Definition catchup_ok σ (rid : nat) (first ci : N) : Prop :=
  rid < fresh σ /\
  (forall to m s, (rid, to, m) ∈ requests σ -> (first <= s <= ci)%N ->
     anchored_at group (core_of σ) to s) /\
  (forall to q rep e, (rid, to, q, rep) ∈ replies σ -> e ∈ mEntries rep ->
     (first <= eSlot e <= ci)%N -> anchored group (core_of σ) e).

Definition task_ok σ (i : NodeID) (t : task) : Prop :=
  let c := core_of σ in
  match t with
  | TProbe _ _ | THeartbeat _ _ => True
  | TPrepare rid req first =>
      mKind req = KindPrepare /\ mFrom req = i /\ mSlot req = first /\ Node_ (mBallot req) = i
  | TRecover b best slot last => Node_ b = i /\ recover_ok c b best slot last
  | TPropose b slot cmd => Node_ b = i /\ SafeAt group c slot b cmd
  | TAccept rid req k =>
      mKind req = KindAccept /\ mFrom req = i /\ Node_ (mBallot req) = i /\
      (i, entry_of req) ∈ hist c /\
      match k with
      | Proposing => True
      | Recovering best last =>
          (mSlot req <= last)%N /\ recover_ok c (mBallot req) best (mSlot req + 1) last
      end
  | TCatchUp rid req first ci => (1 <= first)%N /\ catchup_ok σ rid first ci
  end.

Record sys_ok σ : Prop := {
  so_core : core_inv group (core_of σ);
  so_dom i : i ∈ group <-> is_Some (nodes σ !! i);
  so_nodes i n : nodes σ !! i = Some n -> node_ok (core_of σ) i n;
  so_reqs r : r ∈ requests σ -> request_ok (core_of σ) r /\ r.1.1 < fresh σ;
  so_reps r : r ∈ replies σ -> reply_ok (core_of σ) r /\ r.1.1.1 < fresh σ;
  so_tasks k i t : tasks σ !! k = Some (i, t) -> i ∈ group /\ task_ok σ i t;
}.

(** ** The right to speak first

    A campaign holds it for every slot of its ballot; winning splits it
    between the recovery loop and the leader's [nextSlot] counter, and the
    counter hands it out slot by slot. *)

Definition task_claims (t : task) (b : Ballot) (s : N) : Prop :=
  match t with
  | TPrepare _ req _ => b = mBallot req
  | TRecover b' _ slot last => b = b' /\ (slot <= s <= last)%N
  | TPropose b' slot _ => b = b' /\ s = slot
  | TAccept _ req (Recovering _ last) => b = mBallot req /\ (mSlot req < s <= last)%N
  | _ => False
  end.

Definition node_claims n (b : Ballot) (s : N) : Prop :=
  role n = Leader /\ b = ballot n /\ (nextSlot n <= s)%N.

Definition claim σ (x : nat + NodeID) (b : Ballot) (s : N) : Prop :=
  match x with
  | inl k => exists i t, tasks σ !! k = Some (i, t) /\ task_claims t b s
  | inr i => exists n, nodes σ !! i = Some n /\ node_claims n b s
  end.

Definition claim_ok c (b : Ballot) (s : N) : Prop :=
  (exists p l, accs c !! Node_ b = Some (p, l) /\ ble b p) /\ forall a, ~ voted_at c a s b.

Definition claims_ok σ : Prop :=
  (forall x b s, claim σ x b s -> claim_ok (core_of σ) b s) /\
  (forall x y b s, claim σ x b s -> claim σ y b s -> x = y).

Definition sys_inv σ : Prop := sys_ok σ /\ claims_ok σ.

(** ** Stability *)

Abbreviation steps := (rtc (core_step group)).

Lemma steps_chosen c c' s b cmd : steps c c' -> chosen group c s b cmd -> chosen group c' s b cmd.
Proof. intros Hs (Q & HQ & Hv). exists Q. split; [done|]. eauto using steps_hist. Qed.

Lemma chosen_history_stable c c' cmds : steps c c' -> chosen_history c cmds -> chosen_history c' cmds.
Proof. intros Hs Hch j cmd Hj. destruct (Hch j cmd Hj) as [b Hb]. exists b. by eapply steps_chosen. Qed.

Lemma applied_prefix_stable c c' n : steps c c' -> applied_prefix c n -> applied_prefix c' n.
Proof. intros Hs (cmds & ? & ? & Hch). exists cmds. eauto using chosen_history_stable. Qed.

Lemma node_ok_stable c c' i n :
  core_inv group c -> steps c c' -> node_ok c i n -> node_ok c' i n.
Proof.
  intros I Hs [? ? ? Hlead ? ? ?].
  split; eauto using steps_anchored_at, applied_prefix_stable.
  intros Hl. destruct (Hlead Hl) as (? & ? & ?). split_and!; eauto using steps_SafeAt.
Qed.

Lemma request_ok_stable c c' r :
  core_inv group c -> steps c c' -> request_ok c r -> request_ok c' r.
Proof.
  destruct r as [[rid to] m]. intros I Hs (? & Ha & Hc). split_and!; [done| |].
  - intros Hk. eauto using steps_hist.
  - intros Hk s Hrange. eauto using steps_anchored_at.
Qed.

Lemma reply_ok_stable c c' r : steps c c' -> reply_ok c r -> reply_ok c' r.
Proof.
  destruct r as [[[rid to] q] rep]. intros Hs (? & ? & He & Ha & Hp).
  split_and!; eauto using steps_hist, promise_fact_stable.
Qed.

Lemma recover_ok_stable c c' b best slot last :
  steps c c' -> recover_ok c b best slot last -> recover_ok c' b best slot last.
Proof. intros Hs [? ?]. split; eauto using steps_SafeAt. Qed.

Lemma claim_ok_stable c c' b s :
  steps c c' -> (forall a, voted_at c' a s b -> voted_at c a s b) ->
  claim_ok c b s -> claim_ok c' b s.
Proof.
  intros Hs Hback [(p & l & Hacc & Hb) Hno]. split; [|intros a Hv; by apply (Hno a), Hback].
  destruct (steps_promise _ _ _ _ _ _ Hs Hacc) as (p' & l' & ? & ?). eauto with payments.
Qed.

(** ** Framing: a step changes little *)

(** The entries of [rep] are those its sender held. *)
Definition from_log c (to : NodeID) (rep : Message) : Prop :=
  forall e, e ∈ mEntries rep -> exists p l, accs c !! to = Some (p, l) /\ l !! eSlot e = Some e.

Record frame σ σ' : Prop := {
  fr_steps : steps (core_of σ) (core_of σ');
  fr_fresh : fresh σ <= fresh σ';
  fr_dom i : is_Some (nodes σ' !! i) <-> is_Some (nodes σ !! i);
  fr_nodes i n : nodes σ' !! i = Some n -> nodes σ !! i = Some n \/ node_ok (core_of σ') i n;
  fr_reqs rid to m : (rid, to, m) ∈ requests σ' ->
    (rid, to, m) ∈ requests σ \/
    (fresh σ <= rid < fresh σ' /\ request_ok (core_of σ') (rid, to, m));
  fr_reps rid to q rep : (rid, to, q, rep) ∈ replies σ' ->
    (rid, to, q, rep) ∈ replies σ \/
    (reply_ok (core_of σ') (rid, to, q, rep) /\ (rid, to, q) ∈ requests σ /\
     from_log (core_of σ') to rep);
  fr_tasks k i t : tasks σ' !! k = Some (i, t) ->
    tasks σ !! k = Some (i, t) \/ (i ∈ group /\ task_ok σ' i t);
}.

Lemma catchup_ok_frame σ σ' rid first ci :
  sys_ok σ -> frame σ σ' -> catchup_ok σ rid first ci -> catchup_ok σ' rid first ci.
Proof.
  intros HI [Hs Hf _ _ Hreqs Hreps _] (Hrid & Hq & Hr). pose proof (so_core σ HI) as I.
  split_and!; [lia| |].
  - intros to m s Hin Hrange. destruct (Hreqs _ _ _ Hin) as [?|[? _]]; [|lia].
    eauto using steps_anchored_at.
  - intros to q rep e Hin He Hrange. destruct (Hreps _ _ _ _ Hin) as [?|(_ & Hreq & Hlog)].
    { eauto using steps_anchored. }
    destruct (Hlog e He) as (p & l & Hacc & Hl).
    destruct (steps_anchored_at _ _ _ _ _ I Hs (Hq _ _ _ Hreq Hrange))
      as (p' & l' & e' & Hacc' & Hl' & Hanc). by simplify_eq.
Qed.

Lemma task_ok_frame σ σ' i t : sys_ok σ -> frame σ σ' -> task_ok σ i t -> task_ok σ' i t.
Proof.
  intros HI Hfr. pose proof (fr_steps _ _ Hfr) as Hs.
  destruct t as [| | | |rid req [best last|]| |]; simpl; intros; destruct_and?; split_and?;
    eauto using recover_ok_stable, steps_SafeAt, steps_hist, catchup_ok_frame;
    by apply (steps_hist _ _ _ _ _ Hs).
Qed.

Lemma sys_ok_frame σ σ' : sys_ok σ -> frame σ σ' -> sys_ok σ'.
Proof.
  intros HI Hfr. pose proof (so_core σ HI) as I. pose proof Hfr as [Hs Hf Hd Hn Hq Hr Ht].
  split.
  - eapply core_steps_inv; eauto.
  - intros i. rewrite (so_dom σ HI). symmetry. apply Hd.
  - intros i n Hin. destruct (Hn i n Hin); [|done].
    eapply node_ok_stable; eauto using so_nodes.
  - intros [[rid to] m] Hin. cbn [fst snd].
    destruct (Hq _ _ _ Hin) as [Hold|[? ?]]; [|split; [done|lia]].
    destruct (so_reqs σ HI _ Hold) as [Hok Hlt]. cbn [fst snd] in Hlt.
    split; [|lia]. by apply (request_ok_stable _ _ _ I Hs).
  - intros [[[rid to] q] rep] Hin. cbn [fst snd].
    destruct (Hr _ _ _ _ Hin) as [Hold|(? & Hreq & _)].
    + destruct (so_reps σ HI _ Hold) as [Hok Hlt]. cbn [fst snd] in Hlt.
      split; [|lia]. by apply (reply_ok_stable _ _ _ Hs).
    + destruct (so_reqs σ HI _ Hreq) as [_ Hlt]. cbn [fst snd] in Hlt. split; [done|lia].
  - intros k i t Hk. destruct (Ht k i t Hk) as [Hold|]; [|done].
    destruct (so_tasks σ HI _ _ _ Hold). split; [done|]. by eapply task_ok_frame.
Qed.

(** Rights move from [f x] to [x], never to two holders, and no vote is cast
    where one is still held. *)
Lemma claims_transfer (f : nat + NodeID -> nat + NodeID) σ σ' :
  claims_ok σ -> steps (core_of σ) (core_of σ') ->
  (forall x b s, claim σ' x b s -> claim σ (f x) b s) ->
  (forall x y b s, claim σ' x b s -> claim σ' y b s -> f x = f y -> x = y) ->
  (forall x b s a, claim σ' x b s -> voted_at (core_of σ') a s b -> voted_at (core_of σ) a s b) ->
  claims_ok σ'.
Proof.
  intros [Hok Hex] Hs Hsub Hinj Hv. split.
  - intros x b s Hc. eapply claim_ok_stable; eauto.
  - intros x y b s Hx Hy. eapply Hinj; eauto.
Qed.

Lemma claims_shrink σ σ' :
  claims_ok σ -> steps (core_of σ) (core_of σ') ->
  (forall x b s, claim σ' x b s -> claim σ x b s) ->
  (forall x b s a, claim σ' x b s -> voted_at (core_of σ') a s b -> voted_at (core_of σ) a s b) ->
  claims_ok σ'.
Proof. intros ? ? ? ?. by apply (claims_transfer (fun x => x) σ). Qed.

(** One holder gets every slot of a ballot nobody has used. *)
Lemma claims_fresh k nb σ σ' :
  claims_ok σ -> steps (core_of σ) (core_of σ') ->
  (forall x b s, claim σ' x b s -> claim σ x b s \/ (x = k /\ b = nb)) ->
  (forall s, claim_ok (core_of σ') nb s) -> (forall x s, ~ claim σ x nb s) ->
  (forall b s a, voted_at (core_of σ') a s b -> voted_at (core_of σ) a s b) ->
  claims_ok σ'.
Proof.
  intros [Hok Hex] Hs Hsub Hnew Hnone Hv. split.
  - intros x b s Hc. destruct (Hsub _ _ _ Hc) as [Hold|[-> ->]]; [|done].
    eapply claim_ok_stable; eauto.
  - intros x y b s Hx Hy.
    destruct (Hsub _ _ _ Hx) as [Hx'|[-> ->]], (Hsub _ _ _ Hy) as [Hy'|[-> ?]]; simplify_eq;
      [eauto|exfalso; by eapply Hnone..|done].
Qed.

Lemma claim_sub σ σ' :
  (forall i n' b s, nodes σ' !! i = Some n' -> node_claims n' b s ->
     exists n, nodes σ !! i = Some n /\ node_claims n b s) ->
  (forall k i t b s, tasks σ' !! k = Some (i, t) -> task_claims t b s ->
     exists i' t', tasks σ !! k = Some (i', t') /\ task_claims t' b s) ->
  forall x b s, claim σ' x b s -> claim σ x b s.
Proof.
  intros Hn Ht [k|i] b s; simpl.
  - intros (i & t & Hk & Hc). eauto.
  - intros (n & Hi & Hc). eauto.
Qed.

(** ** Node changes that concern neither votes nor leadership *)

Record quiet n n' : Prop := {
  qu_id : id n' = id n;
  qu_peers : peers n' = peers n;
  qu_wf : log_wf (log n) -> log_wf (log n');
  qu_leader : role n' = Leader ->
    role n = Leader /\ ballot n' = ballot n /\ (nextSlot n <= nextSlot n')%N;
  qu_promise : role n' = Leader -> ble (Promised n) (Promised n');
  qu_committed : committed n' = committed n;
  qu_applied : appliedIndex n' = appliedIndex n;
  qu_sm : sm n' = sm n;
}.

Lemma quiet_refl n : quiet n n.
Proof. split; auto with payments; lia. Qed.

Lemma quiet_trans n1 n2 n3 : quiet n1 n2 -> quiet n2 n3 -> quiet n1 n3.
Proof.
  intros [? ? ? Hl1 Hp1 ? ? ?] [? ? ? Hl2 Hp2 ? ? ?]. split; try congruence; auto.
  - intros Hr. destruct (Hl2 Hr) as (Hr2 & ? & ?). destruct (Hl1 Hr2) as (? & ? & ?).
    split_and!; [done|congruence|lia].
  - intros Hr. destruct (Hl2 Hr) as (Hr2 & ? & ?). eauto with payments.
Qed.

Lemma node_ok_quiet c c' i n n' :
  core_inv group c -> steps c c' -> node_ok c i n -> quiet n n' -> node_ok c' i n'.
Proof.
  intros I Hs Hok [Hid Hpeers Hwf Hl Hp Hcom Happ Hsm].
  apply (node_ok_stable c c' i n I Hs) in Hok. destruct Hok as [? ? ? Hlead ? ? Hsm'].
  split; try congruence; auto.
  - intros Hr. destruct (Hl Hr) as (Hr0 & -> & ?). destruct (Hlead Hr0) as (? & ? & Hsafe).
    split_and!; [done|eauto with payments|]. intros s cmd ?. apply Hsafe. lia.
  - rewrite Hcom. done.
  - rewrite Happ. done.
  - destruct Hsm' as (cmds & ? & ? & ?). exists cmds. by rewrite Happ, Hsm.
Qed.

Lemma quiet_claims n n' b s : quiet n n' -> node_claims n' b s -> node_claims n b s.
Proof.
  intros Hq (Hr & -> & Hs). destruct (qu_leader _ _ Hq Hr) as (? & -> & ?).
  unfold node_claims. split_and!; [done..|lia].
Qed.
End Invariant.

#[global] Arguments core_of : simpl never.
#[global] Arguments request_ok : simpl never.
#[global] Arguments reply_ok : simpl never.
#[global] Arguments claim : simpl never.
