(* ===== verification/PaxosSteps.v ===== *)
(** * The steps of a Paxos group preserve its invariant

    [disciplined] lists the rules the safety argument needs and the code of
    internal/paxos/node.go does not enforce by itself; for every step that
    obeys them, the invariant of PaxosInvariant.v is kept and the step is a
    sequence of steps of the voting machine ([exec_good]). *)

From S2P Require Import Prelude PaxosTypes PaxosLog PaxosNode PaxosVoting PaxosSystem PaxosElection PaxosInvariant.

Section Discipline.
Context {S R : Type} {SM : StateMachine S R}.

(** Accepting at ballot [b] does not replace an entry of a higher ballot. *)
Definition no_newer_entry (slot : N) (b : Ballot) (n : Node S R) : bool :=
  match Get slot (log n) with
  | None => true
  | Some old => bool_decide (ble (eBallot old) b)
  end.

Definition handle_disciplined (msg : Message) (n : Node S R) : bool :=
  match mKind msg with
  | KindAccept => Less (mBallot msg) (Promised n) || no_newer_entry (mSlot msg) (mBallot msg) n
  | KindCommit => (appliedIndex n <? u64_max)%N
  | _ => true
  end.

(** A leader acts only for the leadership that started the goroutine, and
    only while it has promised nothing higher. *)
Definition replicate_disciplined (b : Ballot) (slot : N) (n : Node S R) : bool :=
  negb (IsLeader n) ||
  (bool_decide (b = ballot n) && bool_decide (ble (Promised n) b) && no_newer_entry slot b n).

(** Adopting a higher ballot after a lost campaign does not lower the promise. *)
Definition elect_disciplined (e : env) (b : Ballot) (first : N) (rs : list Message) (n : Node S R) : bool :=
  let '(n', out) := campaign_finish e b first rs n in
  bool_decide (ble (Promised n) (Promised n')) &&
  match out with Some (_, last) => (last <? u64_max)%N | None => true end.

(** The counters of [n] are not at the end of their range. *)
Definition counters_ok (n : Node S R) : bool :=
  (Num (Promised n) <? u64_max)%N && (appliedIndex n <? u64_max)%N.

Definition disciplined (a : action) (σ : System S R) : bool :=
  match a with
  | AHandle e r =>
      match requests σ !! r with
      | Some (_, to, msg) =>
          match nodes σ !! to with Some n => handle_disciplined msg n | None => true end
      | None => true
      end
  | APrepare e k picks =>
      match tasks σ !! k with
      | Some (i, _) => match nodes σ !! i with Some n => counters_ok n | None => true end
      | None => true
      end
  | AElect e k picks =>
      match tasks σ !! k with
      | Some (i, TPrepare rid req first) =>
          match nodes σ !! i, collect rid req (replies σ) picks with
          | Some n, Some rs => elect_disciplined e (mBallot req) first rs.*2 n
          | _, _ => true
          end
      | _ => true
      end
  | APropose i cmd =>
      match nodes σ !! i with Some n => (nextSlot n <? u64_max)%N | None => true end
  | AReplicate e k =>
      match tasks σ !! k with
      | Some (i, TPropose b slot _) =>
          match nodes σ !! i with Some n => replicate_disciplined b slot n | None => true end
      | Some (i, TRecover b _ slot last) =>
          match nodes σ !! i with
          | Some n => (last <? slot)%N || replicate_disciplined b slot n
          | None => true
          end
      | _ => true
      end
  | AApply i => match nodes σ !! i with Some n => (appliedIndex n <? u64_max)%N | None => true end
  | _ => true
  end.

(** A run, every step of which obeys the rules. *)
Inductive run : System S R -> list action -> System S R -> Prop :=
| run_nil σ : run σ [] σ
| run_cons σ a σ1 acts σ2 :
    disciplined a σ = true -> exec a σ = Some σ1 -> run σ1 acts σ2 -> run σ (a :: acts) σ2.

Fixpoint run_all (acts : list action) (σ : System S R) : option (System S R) :=
  match acts with
  | [] => Some σ
  | a :: rest => if disciplined a σ then σ' ← exec a σ; run_all rest σ' else None
  end.

Lemma run_all_run acts σ σ' : run_all acts σ = Some σ' -> run σ acts σ'.
Proof.
  revert σ. induction acts as [|a acts IH]; intros σ; simpl; [intros [= ->]; constructor|].
  destruct (disciplined a σ) eqn:Hd; [|done].
  destruct (exec a σ) as [σ1|] eqn:He; [|done]. simpl. intros Hr. econstructor; eauto.
Qed.
End Discipline.

(** ** Quiet node updates *)

Section Quiet.
Context {S R : Type} {SM : StateMachine S R}.
Implicit Types (n : Node S R) (e : env).

Lemma stepDown_log_cases e seen n :
  entries (log (stepDown e seen n)) = entries (log n) /\
  ble (Promised n) (Promised (stepDown e seen n)) /\
  maxSlot (log (stepDown e seen n)) = maxSlot (log n).
Proof.
  unfold stepDown. destruct (negb _ && Less _ seen) eqn:E; simpl; [|auto with payments].
  apply andb_prop in E as [_ E]. unfold try_promise, Promise. simpl in *.
  destruct (promise_ok e); simpl; auto using blt_ble with payments.
Qed.

Lemma log_wf_same l l' :
  entries l' = entries l -> maxSlot l' = maxSlot l -> log_wf l -> log_wf l'.
Proof. intros He Hm Hwf s x. rewrite He, Hm. apply Hwf. Qed.

Lemma quiet_stepDown e seen n : quiet n (stepDown e seen n).
Proof.
  destruct (stepDown_log_cases e seen n) as (He & Hp & Hm).
  assert (role (stepDown e seen n) = Follower) as Hr.
  { unfold stepDown, try_promise. repeat goal_match; done. }
  split; try (rewrite Hr; done); try (eauto using log_wf_same);
    unfold stepDown, try_promise; repeat goal_match; done.
Qed.

Lemma quiet_with_log l n :
  (log_wf (log n) -> log_wf l) -> ble (Promised n) (promised l) -> quiet n (with_log l n).
Proof. intros ? ?. split; simpl; auto with payments. Qed.

Lemma quiet_follow e from n : quiet n (follow e from n).
Proof. by split. Qed.

Lemma quiet_role r n : r <> Leader -> quiet n (with_role r n).
Proof. intros Hr. split; simpl; done. Qed.

Lemma quiet_same_leadership n n' :
  id n' = id n -> peers n' = peers n -> log n' = log n -> role n' = role n ->
  ballot n' = ballot n -> nextSlot n' = nextSlot n -> committed n' = committed n ->
  appliedIndex n' = appliedIndex n -> sm n' = sm n -> quiet n n'.
Proof.
  intros ? ? Hl Hr Hb Hs ? ? ?. split; try done; unfold Promised; rewrite ?Hl; auto with payments.
  intros Hlead. split_and!; [congruence|done|lia].
Qed.
End Quiet.

#[export] Hint Resolve quiet_stepDown quiet_follow quiet_refl quiet_trans : payments.

(** ** One step *)

Section Steps.
Context {S R : Type} {SM : StateMachine S R} (group : list NodeID).
Implicit Types (σ : System S R) (n : Node S R) (e : env).

Abbreviation steps := (rtc (core_step group)).

Definition good σ σ' : Prop := sys_inv group σ' /\ steps (core_of σ) (core_of σ').

Lemma core_of_lookup σ i n :
  nodes σ !! i = Some n -> accs (core_of σ) !! i = Some (Promised n, entries (log n)).
Proof. intros Hn. unfold core_of; simpl. by rewrite lookup_fmap, Hn. Qed.

Lemma core_of_node σ σ' i n' :
  nodes σ' = <[i := n']> (nodes σ) ->
  core_of σ' = mkCore (<[i := (Promised n', entries (log n'))]> (accs (core_of σ))) (hvotes σ').
Proof. intros Hn. unfold core_of. rewrite Hn, fmap_insert. done. Qed.

(** A replica's promise went up and nothing else of the machine changed. *)
Lemma steps_raised σ σ' i n n' :
  nodes σ !! i = Some n -> nodes σ' = <[i := n']> (nodes σ) -> hvotes σ' = hvotes σ ->
  entries (log n') = entries (log n) -> ble (Promised n) (Promised n') ->
  steps (core_of σ) (core_of σ').
Proof.
  intros Hn Hns Hv He Hp. rewrite (core_of_node _ _ _ _ Hns), Hv, He.
  apply rtc_once. eapply cs_raise; [by apply core_of_lookup|done].
Qed.

Lemma good_intro σ σ' i n n' :
  sys_inv group σ -> nodes σ !! i = Some n -> nodes σ' = <[i := n']> (nodes σ) ->
  steps (core_of σ) (core_of σ') -> node_ok group (core_of σ') i n' ->
  fresh σ <= fresh σ' ->
  (forall rid to m, (rid, to, m) ∈ requests σ' -> (rid, to, m) ∈ requests σ \/
     (fresh σ <= rid < fresh σ' /\ request_ok group (core_of σ') (rid, to, m))) ->
  (forall rid to q rep, (rid, to, q, rep) ∈ replies σ' -> (rid, to, q, rep) ∈ replies σ \/
    (reply_ok group (core_of σ') (rid, to, q, rep) /\ (rid, to, q) ∈ requests σ /\
     from_log (core_of σ') to rep)) ->
  (forall k j t, tasks σ' !! k = Some (j, t) ->
    tasks σ !! k = Some (j, t) \/ (j ∈ group /\ task_ok group σ' j t)) ->
  claims_ok σ' -> good σ σ'.
Proof.
  intros [HI _] Hn Hns Hs Hok Hf Hreq Hrep Ht Hc. split; [|done]. split; [|done].
  eapply (sys_ok_frame group σ); [done|]. split; auto.
  - intros j. rewrite Hns, lookup_insert. case_decide; [subst|done]. rewrite Hn. by split.
  - intros j m. rewrite Hns, lookup_insert. case_decide; [subst; intros [= <-]|]; auto.
Qed.

(** No new right, no vote where a right is held. *)
Lemma good_shrink σ σ' i n n' :
  sys_inv group σ -> nodes σ !! i = Some n -> nodes σ' = <[i := n']> (nodes σ) ->
  steps (core_of σ) (core_of σ') -> node_ok group (core_of σ') i n' ->
  (forall b s, node_claims n' b s -> node_claims n b s) ->
  (forall x b s a, claim σ x b s -> claim σ' x b s ->
     voted_at (core_of σ') a s b -> voted_at (core_of σ) a s b) ->
  fresh σ <= fresh σ' ->
  (forall rid to m, (rid, to, m) ∈ requests σ' -> (rid, to, m) ∈ requests σ \/
     (fresh σ <= rid < fresh σ' /\ request_ok group (core_of σ') (rid, to, m))) ->
  (forall rid to q rep, (rid, to, q, rep) ∈ replies σ' -> (rid, to, q, rep) ∈ replies σ \/
    (reply_ok group (core_of σ') (rid, to, q, rep) /\ (rid, to, q) ∈ requests σ /\
     from_log (core_of σ') to rep)) ->
  (forall k j t, tasks σ' !! k = Some (j, t) ->
    tasks σ !! k = Some (j, t) \/
    (j ∈ group /\ task_ok group σ' j t /\
     forall b s, task_claims t b s -> claim σ (inl k) b s)) ->
  good σ σ'.
Proof.
  intros HI Hn Hns Hs Hnode Hcl' Hv Hf Hreq Hrep Ht. pose proof HI as [Hok Hcl].
  assert (forall x b s, claim σ' x b s -> claim σ x b s) as Hsub.
  { apply claim_sub.
    - intros j n0 b s. rewrite Hns, lookup_insert. case_decide; [subst; intros [= <-]|eauto].
      intros ?. exists n. eauto.
    - intros k j t b s Hk Hc. destruct (Ht k j t Hk) as [?|(_ & _ & Hk')]; [eauto|].
      destruct (Hk' b s Hc) as (j' & t' & ? & ?). eauto. }
  eapply good_intro; eauto.
  - intros k j t Hk. destruct (Ht k j t Hk) as [?|(? & ? & ?)]; auto.
  - eapply claims_shrink; eauto.
Qed.

(** The common case: the replica's change is quiet, its promise may rise, and
    the goroutines hold no new right. *)
Lemma good_quiet σ σ' i n n' :
  sys_inv group σ -> nodes σ !! i = Some n -> nodes σ' = <[i := n']> (nodes σ) ->
  hvotes σ' = hvotes σ -> entries (log n') = entries (log n) -> ble (Promised n) (Promised n') ->
  quiet n n' -> fresh σ <= fresh σ' ->
  (forall rid to m, (rid, to, m) ∈ requests σ' -> (rid, to, m) ∈ requests σ \/
     (fresh σ <= rid < fresh σ' /\ request_ok group (core_of σ') (rid, to, m))) ->
  (forall rid to q rep, (rid, to, q, rep) ∈ replies σ' -> (rid, to, q, rep) ∈ replies σ \/
    (reply_ok group (core_of σ') (rid, to, q, rep) /\ (rid, to, q) ∈ requests σ /\
     from_log (core_of σ') to rep)) ->
  (forall k j t, tasks σ' !! k = Some (j, t) ->
    tasks σ !! k = Some (j, t) \/
    (j ∈ group /\ task_ok group σ' j t /\
     forall b s, task_claims t b s -> claim σ (inl k) b s)) ->
  good σ σ'.
Proof.
  intros HI Hn Hns Hv He Hp Hq Hf Hreq Hrep Ht.
  pose proof (steps_raised _ _ _ _ _ Hn Hns Hv He Hp) as Hs. pose proof HI as [Hok Hcl].
  eapply good_shrink; eauto using quiet_claims.
  - eapply node_ok_quiet; eauto using so_core, so_nodes.
  - unfold voted_at, core_of; simpl; rewrite Hv; eauto.
Qed.
End Steps.
