(* ===== verification/PaxosSafety.v ===== *)
(** * Safety of a Paxos group

    Every action of PaxosSystem.v that obeys [disciplined] keeps the invariant
    and refines the voting machine; so two replicas never apply different
    commands at a slot.  PaxosAgreement.v has runs without the rules in which
    they do. *)

From S2P Require Import Prelude PaxosTypes PaxosLog PaxosNode PaxosVoting PaxosSystem PaxosElection PaxosInvariant PaxosSteps.

Section Actions.
Context {S R : Type} {SM : StateMachine S R} (group : list NodeID).
Implicit Types (σ : System S R) (n : Node S R) (e : env).

Abbreviation steps := (rtc (core_step group)).

Lemma elem_of_round (rs : list (nat * NodeID * Message)) tos m f r :
  r ∈ rs ++ ((fun to => (f, to, m)) <$> tos) ->
  r ∈ rs \/ exists to, r = (f, to, m) /\ to ∈ tos.
Proof. rewrite elem_of_app, list_elem_of_fmap. done. Qed.

Lemma elem_of_others to n : to ∈ others n -> to <> id n.
Proof. unfold others. rewrite list_elem_of_filter. by intros [? _]. Qed.

Lemma node_in_group σ i n : sys_inv group σ -> nodes σ !! i = Some n -> i ∈ group.
Proof. intros [HI _] Hn. apply (so_dom _ _ HI). by rewrite Hn. Qed.

Lemma replies_same σ (P : nat -> NodeID -> Message -> Message -> Prop) :
  forall rid to q rep, (rid, to, q, rep) ∈ replies σ -> (rid, to, q, rep) ∈ replies σ \/ P rid to q rep.
Proof. auto. Qed.

(** A round that asks nothing the invariant cares about. *)
Lemma request_ok_plain c rid to m :
  mKind m <> KindAccept -> mKind m <> KindCommit -> to <> mFrom m -> request_ok group c (rid, to, m).
Proof. intros ? ? ?. by split_and!. Qed.

Lemma campaign_good i σ σ' :
  sys_inv group σ -> exec_campaign i σ = Some σ' -> good group σ σ'.
Proof.
  intros HI He. unfold exec_campaign in He.
  destruct (nodes σ !! i) as [n|] eqn:Hn; simpl in He; [|done].
  unfold campaign_begin in He. destruct (IsLeader n); simpl in He; [done|].
  injection He as <-.
  assert (id n = i) as Hid by (destruct HI as [HI _]; by apply (so_nodes _ _ HI) in Hn as []).
  eapply (good_quiet group σ _ i n (with_role Candidate n)); eauto with payments; simpl.
  - by apply quiet_role.
  - lia.
  - intros rid to m [?|(to' & ? & Hto)]%elem_of_round; [auto|]. simplify_eq.
    right. split; [simpl; lia|]. apply request_ok_plain; [done..|]. by apply elem_of_others in Hto.
  - intros k j t. rewrite lookup_insert. case_decide; [intros [= <- <-]|auto].
    right. split_and!; [by eapply node_in_group|done|done].
Qed.

Lemma node_facts σ i n :
  sys_inv group σ -> nodes σ !! i = Some n ->
  core_inv group (core_of σ) /\ node_ok group (core_of σ) i n /\ i ∈ group.
Proof.
  intros HI Hn. pose proof (node_in_group _ _ _ HI Hn). destruct HI as [HI _].
  split_and!; [by apply so_core|by apply so_nodes|done].
Qed.

(** Steps that only drop a goroutine after a quiet change. *)
Lemma drop_good σ k i n n' :
  sys_inv group σ -> nodes σ !! i = Some n ->
  entries (log n') = entries (log n) -> ble (Promised n) (Promised n') -> quiet n n' ->
  good group σ (drop_task k (set_node i n' σ)).
Proof.
  intros HI Hn He Hp Hq. eapply good_quiet; eauto; simpl; auto.
  intros k' j t [_ Hk]%lookup_delete_Some. auto.
Qed.

Lemma stepDown_drop_good σ k i n e seen :
  sys_inv group σ -> nodes σ !! i = Some n ->
  good group σ (drop_task k (set_node i (stepDown e seen n) σ)).
Proof.
  intros HI Hn. destruct (stepDown_log_cases e seen n) as (? & ? & _).
  eapply drop_good; eauto with payments.
Qed.

Lemma heartbeat_good i σ σ' :
  sys_inv group σ -> exec_heartbeat i σ = Some σ' -> good group σ σ'.
Proof.
  intros HI He. unfold exec_heartbeat in He.
  destruct (nodes σ !! i) as [n|] eqn:Hn; simpl in He; [|done].
  destruct (IsLeader n); [|done]. injection He as <-.
  destruct (node_facts _ _ _ HI Hn) as (I & Hnode & Hi).
  assert (<[i:=n]> (nodes σ) = nodes σ) as Hsame by by apply insert_id.
  eapply (good_quiet group σ _ i n n HI Hn);
    [by simpl; rewrite Hsame|done|done|auto with payments|apply quiet_refl|simpl; lia|simpl..];
    [|auto|].
  - intros rid to m [?|(to' & ? & Hto)]%elem_of_round; [auto|]. simplify_eq.
    right. split; [lia|]. apply elem_of_others in Hto.
    split_and!; [done|done|]. intros _ s Hs. simpl in *. rewrite (no_id _ _ _ _ Hnode).
    by apply (no_applied _ _ _ _ Hnode).
  - intros k j t. rewrite lookup_insert. case_decide; [intros [= <- <-]|auto]. right. by split_and!.
Qed.

Lemma heartbeat_done_good e k picks σ σ' :
  sys_inv group σ -> exec_heartbeat_done e k picks σ = Some σ' -> good group σ σ'.
Proof.
  intros HI He. unfold exec_heartbeat_done in He.
  destruct (tasks σ !! k) as [[i t]|]; simpl in He; [|done].
  destruct (nodes σ !! i) as [n|] eqn:Hn; simpl in He; [|done].
  destruct t; try done. destruct (collect _ _ _ _) as [rs|]; simpl in He; [|done].
  injection He as <-. unfold broadcastCommit_finish.
  destruct (count_acks _ _ _) as [acks|seen]; [|by apply stepDown_drop_good].
  destruct (quorum n <=? acks); [|destruct (_ && _); [by apply stepDown_drop_good|]];
    eapply drop_good; eauto with payments; by apply quiet_same_leadership.
Qed.

Lemma propose_good i cmd σ σ' :
  sys_inv group σ -> disciplined (APropose i cmd) σ = true ->
  exec_propose i cmd σ = Some σ' -> good group σ σ'.
Proof.
  intros HI Hd He. unfold exec_propose in He. simpl in Hd.
  destruct (nodes σ !! i) as [n|] eqn:Hn; simpl in He; [|done].
  unfold propose_begin in He. destruct (IsLeader n) eqn:Hl; simpl in He; [|done].
  injection He as <-. apply N.ltb_lt in Hd. unfold IsLeader in Hl. apply bool_decide_eq_true in Hl.
  destruct (node_facts _ _ _ HI Hn) as (I & Hnode & Hi).
  destruct (no_leader _ _ _ _ Hnode Hl) as (HNode & Hpb & Hsafe).
  assert (u64 (nextSlot n + 1) = nextSlot n + 1)%N as Hu by (apply u64_id; lia).
  set (n' := with_results _ _). set (σ' := spawn _ _ _).
  assert (quiet n n') as Hq.
  { unfold n'. split; simpl; auto with payments. }
  assert (steps (core_of σ) (core_of σ')) as Hs by (eapply steps_raised; eauto with payments).
  eapply good_intro; eauto; simpl; auto.
  - eapply node_ok_quiet; eauto.
  - intros k j t. rewrite lookup_insert. case_decide; [intros [= <- <-]|auto].
    right. split; [done|]. split; [done|]. eapply steps_SafeAt; [done|]. apply Hsafe. lia.
  - eapply (claims_transfer group (fun x => if decide (x = inl (fresh σ)) then inr i else x) σ);
      [apply HI|done|..].
    + intros [k|j] b s; unfold claim; simpl.
      * intros (j & t & Hk & Hc). rewrite lookup_insert in Hk. repeat case_decide; simplify_eq.
        -- destruct Hc as [-> ->]. exists n. unfold node_claims. split_and!; [done..|lia].
        -- eauto.
      * intros (m & Hm & Hc). rewrite lookup_insert in Hm. case_decide; simplify_eq; eauto.
        exists n. eauto using quiet_claims.
    + assert (forall b s, claim σ' (inl (fresh σ)) b s -> claim σ' (inr i) b s -> False) as Hdis.
      { unfold claim; simpl. intros b s (j & t & Hk & Hc) (m & Hm & Hc').
        rewrite lookup_insert_eq in Hk. rewrite lookup_insert_eq in Hm. simplify_eq. destruct Hc as [_ ->], Hc' as (_ & _ & Hle).
        simpl in Hle. lia. }
      intros x y b s Hx Hy Heq. repeat case_decide; simplify_eq; try done; exfalso; eauto.
    + unfold voted_at, core_of; simpl; eauto.
Qed.

(** ** Campaigns *)

Lemma nextBallot_above n : (Num (Promised n) < u64_max)%N -> blt (Promised n) (nextBallot n).
Proof.
  intros Hlt. apply blt_spec. left. unfold nextBallot; simpl. rewrite u64_id; lia.
Qed.

(** Nobody has spoken, or may speak, under a ballot above its owner's promise. *)
Lemma ballot_unused σ i n b :
  sys_inv group σ -> nodes σ !! i = Some n -> Node_ b = i -> blt (Promised n) b ->
  (forall x s, ~ claim σ x b s) /\ (forall a s, ~ voted_at (core_of σ) a s b).
Proof.
  intros HI Hn Hb Hlt. destruct (node_facts _ _ _ HI Hn) as (I & _ & _).
  pose proof (core_of_lookup _ _ _ Hn) as Hacc.
  assert (ble b (Promised n) -> False) as Hno.
  { intros Hle. eapply blt_irrefl, blt_ble_trans; eauto. }
  split.
  - intros x s Hc. destruct HI as [_ [Hok _]].
    destruct (Hok x b s Hc) as [(p & l & Hacc' & Hp) _]. rewrite Hb in Hacc'.
    rewrite Hacc in Hacc'. by simplify_eq.
  - intros a s [cmd Hv]. apply (ci_leader_first _ _ I) in Hv. simpl in Hv.
    apply (ci_bound _ _ I) in Hv as (p & l & Hacc' & Hp). simpl in Hp.
    rewrite Hb, Hacc in Hacc'. by simplify_eq.
Qed.

Lemma prepare_good e k picks σ σ' :
  sys_inv group σ -> disciplined (APrepare e k picks) σ = true ->
  exec_prepare e k picks σ = Some σ' -> good group σ σ'.
Proof.
  intros HI Hd He. unfold exec_prepare in He. simpl in Hd.
  destruct (tasks σ !! k) as [[i t]|] eqn:Hk; simpl in He; [|done].
  destruct (nodes σ !! i) as [n|] eqn:Hn; simpl in He; [|done].
  destruct t; try done. destruct (collect _ _ _ _) as [rs|]; simpl in He; [|done].
  unfold campaign_prepare in He.
  destruct (negb (canReachQuorum _ _)); [injection He as <-; by apply stepDown_drop_good|].
  destruct (negb (bool_decide _));
    [injection He as <-; eapply drop_good; eauto using quiet_refl with payments|].
  destruct (Promise _ _ _) as [l|] eqn:Hp; [|injection He as <-; by apply stepDown_drop_good].
  injection He as <-. unfold Promise in Hp. destruct (promise_ok e); [|done]. injection Hp as <-.
  apply andb_prop in Hd as [Hd1 Hd2]. apply N.ltb_lt in Hd1, Hd2.
  pose proof (nextBallot_above n Hd1) as Hlt. set (b := nextBallot n) in *.
  destruct (node_facts _ _ _ HI Hn) as (I & Hnode & Hi). pose proof (no_id _ _ _ _ Hnode) as Hid.
  assert (Node_ b = i) as Hb by done.
  destruct (ballot_unused _ _ _ b HI Hn Hb Hlt) as [Hfree Hunvoted].
  set (n' := with_log _ _). set (σ' := set_task _ _ _ _).
  assert (quiet n n') as Hq by (apply quiet_with_log; [done|by apply blt_ble]).
  assert (steps (core_of σ) (core_of σ')) as Hs
    by (eapply (steps_raised group _ _ i n n'); eauto using blt_ble).
  eapply good_intro; eauto; simpl; auto.
  - eapply node_ok_quiet; eauto.
  - intros rid' to m [?|(to' & ? & Hto)]%elem_of_round; [auto|]. simplify_eq.
    right. split; [lia|]. apply request_ok_plain; [done..|]. by apply elem_of_others in Hto.
  - intros k' j t. rewrite lookup_insert. case_decide; [intros [= <- <-]|auto].
    right. by split_and!.
  - eapply (claims_fresh group (inl k) b σ); [apply HI|done|..]; auto.
    + intros [k'|j] b' s; unfold claim; simpl.
      * intros (j & t & Hk' & Hc). rewrite lookup_insert in Hk'. case_decide; simplify_eq; eauto.
      * intros (m & Hm & Hc). left. rewrite lookup_insert in Hm. case_decide; simplify_eq; eauto using quiet_claims.
    + intros s. split; [|intros a; apply Hunvoted]. exists b, (entries (log n)). split; [|apply ble_refl].
      rewrite Hb. by rewrite (core_of_lookup _ i n') by (simpl; by rewrite lookup_insert_eq).
Qed.

(** ** Applying and restarting *)

Lemma apply_cmd_spec n slot entry s' result :
  (if IsNoop entry then (sm n, None)
   else let '(s', r) := sm_apply slot (eCommand entry) (sm n) in (s', Some r)) = (s', result) ->
  s' = apply_cmd slot (eCommand entry) (sm n).
Proof.
  unfold apply_cmd, IsNoop. destruct (Nat.eqb _ 0); [by intros [= <- _]|].
  destruct (sm_apply _ _ _). by intros [= <- _].
Qed.

Lemma applied_prefix_snoc c n slot cmd b n' :
  applied_prefix group c n -> slot = (appliedIndex n + 1)%N -> chosen group c slot b cmd ->
  appliedIndex n' = slot -> sm n' = apply_cmd slot cmd (sm n) -> applied_prefix group c n'.
Proof.
  intros (cmds & Hlen & Hsm & Hch) Hslot Hc Ha Hs'. exists (cmds ++ [cmd]). split_and!.
  - rewrite length_app. simpl. lia.
  - unfold replay_cmds in *. rewrite replay_from_snoc, Hs', Hsm. f_equal. lia.
  - intros j x [Hj|[Hj Hx]]%lookup_app_Some; [eauto|]. exists b.
    apply list_lookup_singleton_Some in Hx as [Hz ->].
    replace (N.of_nat j + 1)%N with slot by lia. done.
Qed.

Lemma apply_good i σ σ' :
  sys_inv group σ -> disciplined (AApply i) σ = true ->
  exec_apply i σ = Some σ' -> good group σ σ'.
Proof.
  intros HI Hd He. unfold exec_apply in He. simpl in Hd.
  destruct (nodes σ !! i) as [n|] eqn:Hn; simpl in He; [|done]. apply N.ltb_lt in Hd.
  destruct (apply_next n) as [n'|] eqn:Happ; simpl in He; [|done]. injection He as <-.
  unfold apply_next in Happ. rewrite u64_id in Happ by lia.
  destruct (bool_decide (_ ∈ committed n)) eqn:Hcom; simpl in Happ; [|done].
  apply bool_decide_eq_true in Hcom.
  destruct (Get _ _) as [entry|] eqn:Hget; [|done].
  destruct (if IsNoop entry then _ else _) as [s' result] eqn:Hres.
  apply apply_cmd_spec in Hres. injection Happ as <-.
  destruct (node_facts _ _ _ HI Hn) as (I & Hnode & Hi).
  pose proof (core_of_lookup _ _ _ Hn) as Hacc.
  set (n' := with_applied _ _ _ _ _).
  assert (steps (core_of σ) (core_of (set_node i n' σ))) as Hs
    by (eapply steps_raised; eauto with payments).
  eapply good_shrink; eauto; simpl; auto.
  apply (node_ok_stable group (core_of σ)); [done..|].
  pose proof (no_committed _ _ _ _ Hnode _ Hcom) as Hanc.
  destruct Hnode as [? ? ? ? ? Happlied Hsm]. split; auto; simpl.
  - intros s Hrange. destruct (decide (s = appliedIndex n + 1)%N) as [->|]; [done|].
    apply Happlied. lia.
  - destruct Hanc as (p & l & en & Hacc' & Hl & b & _ & Hch).
    rewrite Hacc in Hacc'. injection Hacc' as <- <-.
    unfold Get in Hget. rewrite Hget in Hl. injection Hl as <-.
    assert (eSlot entry = appliedIndex n + 1)%N as Hslot by (eapply ci_log_slot; eauto).
    rewrite Hslot in Hch. subst s'.
    by apply (applied_prefix_snoc _ n (appliedIndex n + 1) (eCommand entry) b).
Qed.

Lemma restart_good e i σ σ' :
  sys_inv group σ -> exec_restart e i σ = Some σ' -> good group σ σ'.
Proof.
  intros HI He. unfold exec_restart in He.
  destruct (nodes σ !! i) as [n|] eqn:Hn; simpl in He; [|done]. injection He as <-.
  destruct (node_facts _ _ _ HI Hn) as (I & Hnode & Hi).
  set (n' := NewNode _ _ _ _ _). set (σ' := mkSystem _ _ _ _ _ _).
  assert (steps (core_of σ) (core_of σ')) as Hs
    by (eapply (steps_raised group _ _ i n n'); eauto with payments).
  eapply good_shrink; eauto; simpl; auto.
  - destruct Hnode as [? ? ? ? ? ? ?]. split; simpl; auto; try done.
    + intros s. lia.
    + exists []. split_and!; [done..|]. intros j cmd. by rewrite lookup_nil.
  - by intros b s (? & _).
  - intros k j t. rewrite map_lookup_filter_Some. tauto.
Qed.

(** ** Accept rounds *)

Lemma collect_spec rid req rs picks out :
  collect rid req rs picks = Some out ->
  NoDup out.*1 /\ forall to rep, (to, rep) ∈ out -> (rid, to, req, rep) ∈ rs.
Proof.
  revert out. induction picks as [|p picks IH]; intros out; simpl.
  - intros [= <-]. split; [constructor|]. intros ? ? Hin. by apply not_elem_of_nil in Hin.
  - destruct (rs !! p) as [[[[r to] q] rep]|] eqn:Hp; simpl; [|done].
    destruct (collect rid req rs picks) as [rest|] eqn:Hrest; simpl; [|done].
    destruct (_ && _) eqn:Hc; [|done]. intros [= <-].
    apply andb_prop in Hc as [Hc Hn]. apply andb_prop in Hc as [Hr Hq].
    apply bool_decide_eq_true in Hr as ->. apply bool_decide_eq_true in Hq as ->.
    apply negb_true_iff, bool_decide_eq_false in Hn.
    destruct (IH _ eq_refl) as [Hnd Hin]. split; [by apply NoDup_cons|].
    intros to' rep' [?|?]%elem_of_cons; simplify_eq; [by eapply list_elem_of_lookup_2|auto].
Qed.

Lemma count_accepts_spec b v rs votes :
  count_accepts b v rs.*2 = inl votes -> votes = v + length (promised_by rs).
Proof.
  revert v. induction rs as [|[to r] rs IH]; intros v; simpl.
  - intros [= <-]. unfold promised_by. simpl. lia.
  - unfold promised_by in *. rewrite filter_cons. cbn [snd].
    destruct (mOK r); [|destruct (Less b (mBallot r)); [done|]]; intros Hc;
      apply IH in Hc; case_decide; try done. rewrite fmap_cons. cbn [length]. lia.
Qed.

(** The sender and the peers that said yes. *)
Lemma round_quorum i rs :
  i ∈ group -> NoDup rs.*1 -> (forall to rep, (to, rep) ∈ rs -> to ∈ group /\ to <> i) ->
  majority (length group) <= 1 + length (promised_by rs) ->
  is_quorum group ({[i]} ∪ list_to_set (promised_by rs)).
Proof.
  intros Hi Hnd Hto Hsz.
  assert (forall a, a ∈ promised_by rs -> a ∈ group /\ a <> i) as Hp.
  { intros a (r & Hr & _)%elem_of_promised_by. eauto. }
  split.
  - intros a [->%elem_of_singleton|Ha%elem_of_list_to_set]%elem_of_union;
      apply elem_of_list_to_set; [done|by apply Hp].
  - rewrite size_union.
    + rewrite size_singleton, size_list_to_set_nodup by by apply promised_by_NoDup. done.
    + intros a ->%elem_of_singleton Ha%elem_of_list_to_set. by destruct (Hp i Ha).
Qed.

Lemma round_replies σ i rid req picks rs :
  sys_inv group σ -> mFrom req = i -> collect rid req (replies σ) picks = Some rs ->
  NoDup rs.*1 /\
  forall to rep, (to, rep) ∈ rs ->
    to ∈ group /\ to <> i /\ reply_ok group (core_of σ) (rid, to, req, rep).
Proof.
  intros [HI _] Hf Hc. apply collect_spec in Hc as [Hnd Hin]. split; [done|].
  intros to rep Hr. destruct (so_reps _ _ HI _ (Hin _ _ Hr)) as [Hok _].
  pose proof Hok as (? & ? & _). by subst.
Qed.

(** An ACCEPT round that reached a quorum has decided its slot. *)
Lemma accepted_chosen σ i n rid req picks rs votes :
  sys_inv group σ -> nodes σ !! i = Some n ->
  mKind req = KindAccept -> mFrom req = i -> (i, entry_of req) ∈ hvotes σ ->
  collect rid req (replies σ) picks = Some rs ->
  count_accepts (mBallot req) 1 rs.*2 = inl votes -> quorum n <= votes ->
  chosen group (core_of σ) (mSlot req) (mBallot req) (mCommand req).
Proof.
  intros HI Hn Hkind Hf Hown Hcol Hcount Hq. destruct (node_facts _ _ _ HI Hn) as (I & Hnode & Hi).
  destruct (round_replies _ _ _ _ _ _ HI Hf Hcol) as [Hnd Hrs].
  apply count_accepts_spec in Hcount. unfold quorum in Hq. rewrite (no_peers _ _ _ _ Hnode) in Hq.
  eexists. split; [apply (round_quorum i rs); [done|done| |lia]|].
  - intros to rep Hr. by destruct (Hrs _ _ Hr) as (? & ? & _).
  - intros a [->%elem_of_singleton|Ha%elem_of_list_to_set]%elem_of_union; [exact Hown|].
    apply elem_of_promised_by in Ha as (r & Hr & Hok).
    destruct (Hrs _ _ Hr) as (_ & _ & _ & _ & _ & Hacc & _). exact (Hacc Hkind Hok).
Qed.

(** It is decided at the leader. *)
Lemma accepted_anchored σ i n rid req picks rs votes :
  sys_inv group σ -> nodes σ !! i = Some n ->
  mKind req = KindAccept -> mFrom req = i -> (i, entry_of req) ∈ hvotes σ ->
  collect rid req (replies σ) picks = Some rs ->
  count_accepts (mBallot req) 1 rs.*2 = inl votes -> quorum n <= votes ->
  anchored_at group (core_of σ) i (mSlot req).
Proof.
  intros HI Hn Hkind Hf Hown Hcol Hcount Hq.
  pose proof (accepted_chosen _ _ _ _ _ _ _ _ HI Hn Hkind Hf Hown Hcol Hcount Hq) as Hch.
  destruct (node_facts _ _ _ HI Hn) as (I & _ & _). pose proof (core_of_lookup _ _ _ Hn) as Hacc.
  destruct (ci_vote_kept _ _ I _ _ _ _ _ _ Hacc Hown) as (en & Hen & Hcase).
  exists (Promised n), (entries (log n)), en. split_and!; [done..|].
  destruct Hcase as [Hle|]; [|done]. exists (mBallot req). split; [done|].
  pose proof (ci_log_voted _ _ I _ _ _ _ _ Hacc Hen) as Hv.
  pose proof (ci_log_slot _ _ I _ _ _ _ _ Hacc Hen) as Hslot.
  destruct en as [s b cmd]; simpl in *. subst s.
  by rewrite <- (chosen_vote_agree group _ _ _ _ _ _ _ I Hch Hv Hle).
Qed.

Lemma node_ok_mark c i n slot :
  node_ok group c i n -> anchored_at group c i slot -> node_ok group c i (markCommitted [slot] n).
Proof.
  intros [? ? ? ? Hcom ? ?] Ha. split; simpl; auto.
  intros s Hs. assert (s = slot \/ s ∈ committed n) as [->|] by set_solver; auto.
Qed.

Lemma propose_fail_cases e slot n :
  quiet n (propose_fail e slot n) /\ entries (log (propose_fail e slot n)) = entries (log n) /\
  ble (Promised n) (Promised (propose_fail e slot n)).
Proof.
  unfold propose_fail. set (n1 := with_results _ n).
  destruct (stepDown_log_cases e zeroBallot n1) as (He & Hp & _).
  split_and!; [|by rewrite He|done].
  eapply quiet_trans; [|apply quiet_stepDown]. by apply quiet_same_leadership.
Qed.

Lemma accepted_good e k picks σ σ' :
  sys_inv group σ -> exec_accepted e k picks σ = Some σ' -> good group σ σ'.
Proof.
  intros HI He. unfold exec_accepted in He.
  destruct (tasks σ !! k) as [[i t]|] eqn:Hk; simpl in He; [|done].
  destruct (nodes σ !! i) as [n|] eqn:Hn; simpl in He; [|done].
  destruct t as [| | | |rid req after| |]; try done.
  destruct (collect _ _ _ _) as [rs|] eqn:Hcol; simpl in He; [|done].
  destruct (so_tasks _ _ (proj1 HI) _ _ _ Hk) as [Hi (Hkind & Hf & HNode & Hown & Hafter)].
  destruct (node_facts _ _ _ HI Hn) as (I & Hnode & _).
  unfold replicate_finish in He.
  destruct (count_accepts _ _ _) as [votes|seen] eqn:Hcount.
  - destruct (Nat.ltb_spec votes (quorum n)) as [Hlt|Hge]; injection He as <-.
    + destruct after; [eapply drop_good; eauto using quiet_refl with payments|].
      destruct (propose_fail_cases e (mSlot req) n) as (? & ? & ?). by eapply drop_good.
    + pose proof (accepted_anchored _ _ _ _ _ _ _ _ HI Hn Hkind Hf Hown Hcol Hcount Hge) as Hanc.
      set (n' := markCommitted _ _).
      assert (forall σ'', nodes σ'' = <[i := n']> (nodes σ) -> hvotes σ'' = hvotes σ ->
                steps (core_of σ) (core_of σ'') /\ node_ok group (core_of σ'') i n') as Hnew.
      { intros σ'' Hns Hv.
        assert (steps (core_of σ) (core_of σ'')) as Hs by (eapply steps_raised; eauto with payments).
        split; [done|]. apply (node_ok_stable group (core_of σ)); [done..|]. by apply node_ok_mark. }
      destruct after as [best last|].
      * set (σ' := set_task _ _ _ _). destruct (Hnew σ' eq_refl eq_refl) as [Hs Hok'].
        destruct Hafter as (Hle & Hlast & Hsafe).
        assert (u64 (mSlot req + 1) = mSlot req + 1)%N as Hu by (apply u64_id; lia).
        eapply good_shrink; eauto; simpl; auto.
        intros k' j t. rewrite lookup_insert. case_decide; [intros [= <- <-]; subst k'|auto].
        right. rewrite Hu. split_and!; [done| |].
        -- split; [done|]. eapply recover_ok_stable; [done|]. by split.
        -- intros b s [-> ?]. exists i, (TAccept rid req (Recovering best last)).
           split; [done|]. split; [done|lia].
      * set (σ' := drop_task _ _). destruct (Hnew σ' eq_refl eq_refl) as [Hs Hok'].
        eapply good_shrink; eauto; simpl; auto.
        intros k' j t [_ ?]%lookup_delete_Some. auto.
  - injection He as <-. destruct after; [by apply stepDown_drop_good|].
    destruct (propose_fail_cases e (mSlot req) (stepDown e seen n)) as (Hq & He & Hp).
    destruct (stepDown_log_cases e seen n) as (He' & Hp' & _).
    eapply drop_good; eauto with payments; congruence.
Qed.

Lemma replicate_begin_inl e slot cmd n n' req :
  replicate_begin e slot cmd n = inl (n', req) ->
  role n = Leader /\ n' = with_log (storeEntry (mkEntry slot (ballot n) cmd) (log n)) n /\
  req = mkMessage KindAccept (id n) (ballot n) false slot cmd [] 0.
Proof.
  unfold replicate_begin, IsLeader, Accept. destruct (bool_decide _) eqn:Hl; simpl; [|done].
  destruct (accept_ok e); [|done]. apply bool_decide_eq_true in Hl. by intros [= <- <-].
Qed.

(** A leader's own vote: the first for its ballot and slot. *)
Lemma start_accept_good e k i n b slot cmd after on_error σ t :
  sys_inv group σ -> nodes σ !! i = Some n -> tasks σ !! k = Some (i, t) ->
  task_claims t b slot -> Node_ b = i -> SafeAt group (core_of σ) slot b cmd ->
  replicate_disciplined b slot n = true ->
  match after with
  | Proposing => True
  | Recovering best last => (slot <= last)%N /\ recover_ok group (core_of σ) b best (slot + 1) last /\
      forall s, (slot < s <= last)%N -> task_claims t b s
  end ->
  good group σ on_error -> good group σ (start_accept e k i n slot cmd after on_error σ).
Proof.
  intros HI Hn Hk Hclaim HNode Hsafe Hd Hafter Herr. unfold start_accept.
  destruct (replicate_begin e slot cmd n) as [[n' req]|] eqn:Hr; [|done].
  apply replicate_begin_inl in Hr as (Hl & -> & ->). cbn [mBallot].
  destruct (node_facts _ _ _ HI Hn) as (I & Hnode & Hi). pose proof (no_id _ _ _ _ Hnode) as Hid.
  unfold replicate_disciplined, IsLeader in Hd. rewrite bool_decide_true in Hd by done. simpl in Hd.
  apply andb_prop in Hd as [Hd Hnew]. apply andb_prop in Hd as [Hb Hp].
  apply bool_decide_eq_true in Hb as ->. apply bool_decide_eq_true in Hp.
  destruct (no_leader _ _ _ _ Hnode Hl) as (_ & Hp' & _).
  assert (Promised n = ballot n) as HP by by apply ble_antisym.
  set (en := mkEntry slot (ballot n) cmd). set (n' := with_log _ n). set (σ' := set_task _ _ _ _).
  assert (claim_ok (core_of σ) (ballot n) slot) as [_ Hunvoted].
  { apply (proj1 (proj2 HI) (inl k)). by exists i, t. }
  assert (core_of σ' = mkCore (<[i := (eBallot en, <[eSlot en := en]> (entries (log n)))]>
            (accs (core_of σ))) (hvotes σ ++ [(i, en)])) as Hcore.
  { rewrite (core_of_node σ σ' i n') by done. unfold n'; simpl. unfold Promised; simpl.
    by rewrite <- HP. }
  assert (steps (core_of σ) (core_of σ')) as Hs.
  { rewrite Hcore. apply rtc_once, (cs_vote group (core_of σ) i (entries (log n)) en).
    - by rewrite (core_of_lookup _ _ _ Hn), HP.
    - intros old Hold. simpl in Hold. unfold no_newer_entry, Get in Hnew. rewrite Hold in Hnew.
      by apply bool_decide_eq_true in Hnew.
    - right. by split_and!. }
  assert ((i, en) ∈ hist (core_of σ')) as Hown.
  { rewrite Hcore. simpl. apply elem_of_snoc. by right. }
  eapply good_shrink; eauto; simpl.
  - eapply node_ok_quiet; eauto. apply quiet_with_log; [apply storeEntry_wf|apply ble_refl].
  - intros x b s a Hc Hc' [cmd' Hv]. rewrite Hcore in Hv. simpl in Hv.
    apply elem_of_snoc in Hv as [Hv|Hv]; [by exists cmd'|]. exfalso. injection Hv as -> -> -> ->.
    assert (x = inl k) as ->.
    { apply (proj2 (proj2 HI) _ _ (ballot n) slot Hc). by exists i, t. }
    destruct Hc' as (j & t' & Hk' & Hc'). simpl in Hk'. rewrite lookup_insert_eq in Hk'.
    injection Hk' as <- <-. destruct after; [|done]. destruct Hc' as [_ Hc']. simpl in Hc'. lia.
  - lia.
  - intros rid' to m [?|(to' & ? & Hto)]%elem_of_round; [auto|]. simplify_eq.
    right. split; [lia|]. apply elem_of_others in Hto. split_and!; [done| |done].
    intros _. rewrite Hcore. simpl. apply elem_of_snoc. right.
    apply f_equal2; [simpl; congruence|done].
  - intros k' j t'. rewrite lookup_insert. case_decide; [intros [= <- <-]; subst k'|auto].
    right. split_and!; [done| |].
    + unfold task_ok; simpl. split_and!; [done..| |].
      * exact Hown.
      * destruct after; [|done]. destruct Hafter as (? & ? & _). split; [done|].
        by eapply recover_ok_stable.
    + destruct after as [best last|]; [|done]. intros b s [-> Hrange]. exists i, t.
      split; [done|]. by apply Hafter.
Qed.

Lemma replicate_good e k σ σ' :
  sys_inv group σ -> disciplined (AReplicate e k) σ = true ->
  exec_replicate e k σ = Some σ' -> good group σ σ'.
Proof.
  intros HI Hd He. unfold exec_replicate in He. simpl in Hd.
  destruct (tasks σ !! k) as [[i t]|] eqn:Hk; simpl in He; [|done].
  destruct (nodes σ !! i) as [n|] eqn:Hn; simpl in He; [|done].
  destruct (so_tasks _ _ (proj1 HI) _ _ _ Hk) as [Hi Htask].
  assert (good group σ (drop_task k σ)) as Hdrop.
  { replace (drop_task k σ) with (drop_task k (set_node i n σ)).
    - eapply drop_good; eauto using quiet_refl with payments.
    - unfold drop_task, set_node; simpl. by rewrite insert_id. }
  destruct t as [| |b best slot last|b slot cmd| | |]; try done.
  - destruct Htask as (HNode & Hlast & Hsafe).
    destruct (N.ltb_spec last slot) as [Hlt|Hle]; injection He as <-; [done|]. simpl in Hd.
    eapply start_accept_good; [done..| |done|apply Hsafe; lia|done| |done].
    + split; [done|lia].
    + split_and!; [done| |].
      * split; [done|]. intros s Hs. apply Hsafe. lia.
      * intros s Hs. split; [done|lia].
  - destruct Htask as (HNode & Hsafe). injection He as <-.
    eapply start_accept_good; [done..|].
    destruct (propose_fail_cases e slot n) as (? & ? & ?). by eapply drop_good.
Qed.

(** ** Elections *)

Lemma lost_campaign_cases e b n :
  let n1 := stepDown e zeroBallot (try_promise e b n) in
  quiet n n1 /\ entries (log n1) = entries (log n).
Proof.
  unfold stepDown, try_promise, Promise. destruct (promise_ok e); simpl; by split.
Qed.

(** The quorum behind a won campaign, and what it reported. *)
Lemma campaign_gathered σ i n k rid req first picks rs :
  sys_inv group σ -> nodes σ !! i = Some n -> tasks σ !! k = Some (i, TPrepare rid req first) ->
  collect rid req (replies σ) picks = Some rs ->
  let t := count_promises (EntriesFrom first (log n)) (mBallot req) rs.*2 in
  quorum n <= votes t ->
  (exists Q, gathered_from group (core_of σ) (mBallot req) first Q (gathered t)) /\
  (forall en, en ∈ gathered t -> (Node_ (eBallot en), en) ∈ hist (core_of σ)).
Proof.
  intros HI Hn Hk Hcol t Hq. destruct (node_facts _ _ _ HI Hn) as (I & Hnode & Hi).
  destruct (so_tasks _ _ (proj1 HI) _ _ _ Hk) as [_ (Hkind & Hf & Hslot & HNode)].
  destruct (round_replies _ _ _ _ _ _ HI Hf Hcol) as [Hnd Hrs].
  destruct (count_promises_spec rs (mkTally 1 (EntriesFrom first (log n)) (mBallot req)))
    as [Hvotes Hgath].
  change (fold_left _ _ _) with t in Hvotes. cbn [votes] in Hvotes.
  assert (forall en, en ∈ gathered t <-> en ∈ EntriesFrom first (log n) \/
            exists to r, (to, r) ∈ rs /\ mOK r = true /\ en ∈ mEntries r) as Hg by exact Hgath.
  clear Hgath. rename Hg into Hgath.
  pose proof (core_of_lookup _ _ _ Hn) as Hacc. pose proof (no_wf _ _ _ _ Hnode) as Hwf.
  assert (promise_fact group (core_of σ) i (mBallot req) first (EntriesFrom first (log n))) as Hself.
  { assert (claim_ok (core_of σ) (mBallot req) 0) as [(p & l & Hacc' & Hp) _].
    { apply (proj1 (proj2 HI) (inl k)). by exists i, (TPrepare rid req first). }
    rewrite HNode, Hacc in Hacc'. injection Hacc' as <- <-. eapply promise_fact_log; eauto.
    intros en. by apply elem_of_EntriesFrom. }
  split.
  - exists ({[i]} ∪ list_to_set (promised_by rs)). split.
    + apply round_quorum; [done|done| |].
      * intros to rep Hr. by destruct (Hrs _ _ Hr) as (? & ? & _).
      * unfold quorum in Hq. rewrite (no_peers _ _ _ _ Hnode) in Hq. lia.
    + intros a [->%elem_of_singleton|Ha%elem_of_list_to_set]%elem_of_union.
      * exists (EntriesFrom first (log n)). split; [done|]. intros en ?. apply Hgath. by left.
      * apply elem_of_promised_by in Ha as (r & Hr & Hok).
        destruct (Hrs _ _ Hr) as (_ & _ & _ & _ & _ & _ & Hp).
        exists (mEntries r). rewrite <- Hslot. split; [by apply Hp|].
        intros en ?. apply Hgath. right. eauto.
  - intros en [Hown|(to & r & Hr & _ & He)]%Hgath.
    + destruct Hself as (_ & Hv & _). auto.
    + destruct (Hrs _ _ Hr) as (_ & _ & _ & _ & Hv & _). auto.
Qed.

(** Every slot a new leader may propose for is safe, with the command its
    recovery would re-propose, and past the recovered range with any. *)
Lemma recovered_safe c b first Q G :
  core_inv group c -> gathered_from group c b first Q G ->
  (forall en, en ∈ G -> (Node_ (eBallot en), en) ∈ hist c) ->
  let '(best, last) := adopt first G in
  (forall s, (first <= s)%N -> SafeAt group c s b (recovered best s)) /\
  (forall s cmd, (first <= s)%N -> (last < s)%N -> SafeAt group c s b cmd).
Proof.
  intros I HG Hv. pose proof (adopt_spec first G) as [Hbest Hcov].
  destruct (adopt first G) as [best last]; simpl in *. split.
  - intros s Hs. unfold recovered. destruct (best !! s) as [em|] eqn:E.
    + destruct (Hbest _ _ E) as (Hin & <- & _ & Hmax). eapply elect_safe_best; eauto.
    + eapply elect_safe_free; eauto. intros en Hin <-.
      destruct (Hcov en Hin Hs) as [[? Hsome] _]. congruence.
  - intros s cmd Hs Hlast. eapply elect_safe_free; eauto. intros en Hin <-.
    destruct (Hcov en Hin Hs) as [_ ?]. lia.
Qed.

Lemma won_good e k i n rid req first best last σ :
  sys_inv group σ -> nodes σ !! i = Some n -> tasks σ !! k = Some (i, TPrepare rid req first) ->
  (last < u64_max)%N ->
  (forall s, (first <= s)%N -> SafeAt group (core_of σ) s (mBallot req) (recovered best s)) ->
  (forall s cmd, (first <= s)%N -> (last < s)%N -> SafeAt group (core_of σ) s (mBallot req) cmd) ->
  let ns := if (u64 (last + 1) <? first)%N then first else u64 (last + 1) in
  let n' := with_nextSlot ns (resetElectionLocked e (with_lastQuorum (now e)
              (with_ballot (mBallot req) (with_leader (id n) (with_role Leader n))))) in
  good group σ (set_task k i (TRecover (mBallot req) best first last) (set_node i n' σ)).
Proof.
  intros HI Hn Hk Hlast Hrec Hfree ns n'. set (σ' := set_task _ _ _ _).
  destruct (node_facts _ _ _ HI Hn) as (I & Hnode & Hi).
  destruct (so_tasks _ _ (proj1 HI) _ _ _ Hk) as [_ (Hkind & Hf & Hslot & HNode)].
  assert (last < ns /\ first <= ns)%N as [Hns1 Hns2].
  { unfold ns. rewrite u64_id by lia. destruct (N.ltb_spec (last + 1) first); lia. }
  assert (claim_ok (core_of σ) (mBallot req) 0) as [(p & l & Hacc' & Hp) _].
  { apply (proj1 (proj2 HI) (inl k)). by exists i, (TPrepare rid req first). }
  rewrite HNode, (core_of_lookup _ _ _ Hn) in Hacc'. injection Hacc' as <- <-.
  assert (steps (core_of σ) (core_of σ')) as Hs
    by (eapply (steps_raised group _ _ i n n'); eauto with payments).
  eapply good_intro; eauto; simpl; auto.
  - apply (node_ok_stable group (core_of σ)); [done..|].
    destruct Hnode as [? ? ? _ ? ? ?]. split; auto. intros _. simpl. split_and!; [done..|].
    intros s cmd ?. apply Hfree; lia.
  - intros k' j t. rewrite lookup_insert. case_decide; [intros [= <- <-]; subst k'|auto].
    right. split; [done|]. split; [done|]. eapply recover_ok_stable; [done|].
    split; [done|]. intros s ?. apply Hrec. lia.
  - eapply (claims_transfer group (fun x => if decide (x = inr i) then inl k else x) σ);
      [apply HI|done|..].
    + intros [k'|j] b s; unfold claim; simpl.
      * intros (j & t & Hk' & Hc). rewrite lookup_insert in Hk'. case_decide; simplify_eq; [|by eauto].
        destruct Hc as [-> _]. by eexists _, _.
      * intros (m & Hm & Hc). rewrite lookup_insert in Hm. repeat case_decide; simplify_eq; eauto.
        destruct Hc as (_ & -> & _). by eexists _, _.
    + assert (forall b s, claim σ' (inl k) b s -> claim σ' (inr i) b s -> False) as Hdis.
      { unfold claim; simpl. intros b s (j & t & Hk' & Hc) (m & Hm & Hc').
        rewrite lookup_insert_eq in Hk'. rewrite lookup_insert_eq in Hm. simplify_eq.
        destruct Hc as [_ ?], Hc' as (_ & _ & Hle). simpl in Hle. lia. }
      intros x y b s Hx Hy Heq. repeat case_decide; simplify_eq; try done; exfalso; eauto.
    + unfold voted_at, core_of; simpl; eauto.
Qed.

Lemma elect_good e k picks σ σ' :
  sys_inv group σ -> disciplined (AElect e k picks) σ = true ->
  exec_elect e k picks σ = Some σ' -> good group σ σ'.
Proof.
  intros HI Hd He. unfold exec_elect in He. simpl in Hd.
  destruct (tasks σ !! k) as [[i t]|] eqn:Hk; simpl in He; [|done].
  destruct (nodes σ !! i) as [n|] eqn:Hn; simpl in He; [|done].
  destruct t as [|rid req first| | | | |]; try done.
  destruct (collect _ _ _ _) as [rs|] eqn:Hcol; simpl in He; [|done].
  unfold elect_disciplined, campaign_finish in Hd. unfold campaign_finish in He.
  set (t := count_promises _ _ _) in *.
  destruct (Nat.ltb_spec (votes t) (quorum n)) as [Hlt|Hge].
  - injection He as <-. apply andb_prop in Hd as [Hp _]. apply bool_decide_eq_true in Hp.
    destruct (Less _ _); [|by apply stepDown_drop_good].
    destruct (lost_campaign_cases e (highest t) n) as [? ?]. by eapply drop_good.
  - destruct (campaign_gathered _ _ _ _ _ _ _ _ _ HI Hn Hk Hcol Hge) as [[Q HQ] Hv].
    fold t in HQ, Hv. destruct (node_facts _ _ _ HI Hn) as (I & _ & _).
    pose proof (recovered_safe _ _ _ _ _ I HQ Hv) as Hsafe.
    unfold becomeLeader in *. destruct (adopt first (gathered t)) as [best last].
    destruct Hsafe as [Hrec Hfree]. apply andb_prop in Hd as [_ Hlast]. apply N.ltb_lt in Hlast.
    injection He as <-. by eapply won_good.
Qed.

(** ** Message handlers *)

Definition holds_all n (rep : Message) : Prop :=
  forall en, en ∈ mEntries rep -> entries (log n) !! eSlot en = Some en.

Lemma reply_from_log σ to n rep :
  core_inv group (core_of σ) -> nodes σ !! to = Some n -> holds_all n rep ->
  from_log (core_of σ) to rep /\
  forall en, en ∈ mEntries rep -> (Node_ (eBallot en), en) ∈ hist (core_of σ).
Proof.
  intros I Hn Hall. pose proof (core_of_lookup _ _ _ Hn) as Hacc. split.
  - intros en Hen. eauto.
  - intros en Hen. eapply ci_log_voted; eauto.
Qed.

(** The reply to a request that made the replica promise at most. *)
Lemma quiet_reply_ok σ σ' rid to msg n n' rep :
  sys_inv group σ -> (rid, to, msg) ∈ requests σ -> nodes σ !! to = Some n ->
  steps (core_of σ) (core_of σ') -> nodes σ' !! to = Some n' -> log_wf (log n') ->
  holds_all n' rep -> (mKind msg = KindAccept -> mOK rep = false) ->
  (mKind msg = KindPrepare -> mOK rep = true ->
     ble (mBallot msg) (Promised n') /\ mEntries rep = EntriesFrom (mSlot msg) (log n')) ->
  reply_ok group (core_of σ') (rid, to, msg, rep) /\ (rid, to, msg) ∈ requests σ /\
  from_log (core_of σ') to rep.
Proof.
  intros HI Hreq Hn Hs Hn' Hwf Hall Hacc Hprep.
  destruct (node_facts _ _ _ HI Hn) as (I & _ & Hto).
  assert (core_inv group (core_of σ')) as I' by by eapply core_steps_inv.
  destruct (reply_from_log _ _ _ _ I' Hn' Hall) as [Hfrom Hvoted].
  destruct (so_reqs _ _ (proj1 HI) _ Hreq) as [(Hne & _) _].
  split_and!; [|done|done]. split_and!; [done..| |].
  - intros Hk Hok. rewrite (Hacc Hk) in Hok. done.
  - intros Hk Hok. destruct (Hprep Hk Hok) as [Hp ->].
    eapply promise_fact_log; eauto using core_of_lookup.
    intros en. by apply elem_of_EntriesFrom.
Qed.

Lemma handled_good σ rid to msg n n' rep :
  sys_inv group σ -> (rid, to, msg) ∈ requests σ -> nodes σ !! to = Some n ->
  entries (log n') = entries (log n) -> ble (Promised n) (Promised n') -> quiet n n' ->
  holds_all n' rep -> (mKind msg = KindAccept -> mOK rep = false) ->
  (mKind msg = KindPrepare -> mOK rep = true ->
     ble (mBallot msg) (Promised n') /\ mEntries rep = EntriesFrom (mSlot msg) (log n')) ->
  good group σ (add_reply rid to msg rep (set_node to n' σ)).
Proof.
  intros HI Hreq Hn He Hp Hq Hall Hacc Hprep. set (σ' := add_reply _ _ _ _ _).
  assert (steps (core_of σ) (core_of σ')) as Hs by (eapply steps_raised; eauto).
  destruct (node_facts _ _ _ HI Hn) as (_ & Hnode & _).
  eapply good_quiet; eauto; simpl; auto.
  intros rid' to' q rep' [?|?]%elem_of_snoc; [auto|]. simplify_eq. right.
  eapply quiet_reply_ok; eauto; [simpl; by rewrite lookup_insert_eq|].
  by apply (qu_wf _ _ Hq), (no_wf _ _ _ _ Hnode).
Qed.

Lemma handle_prepare_good e σ rid to msg n n' rep :
  sys_inv group σ -> (rid, to, msg) ∈ requests σ -> nodes σ !! to = Some n ->
  mKind msg = KindPrepare -> handlePrepare e msg n = (n', rep) ->
  good group σ (add_reply rid to msg rep (set_node to n' σ)).
Proof.
  intros HI Hreq Hn Hk Hh. unfold handlePrepare in Hh.
  destruct (node_facts _ _ _ HI Hn) as (_ & Hnode & _).
  assert (forall p, good group σ (add_reply rid to msg (refusal KindPromise n 0 p) (set_node to n σ)))
    as Hrefuse.
  { intros p. eapply handled_good; eauto using quiet_refl with payments; try done.
    intros en Hen. by apply not_elem_of_nil in Hen. }
  destruct (Less (mBallot msg) (Promised n)) eqn:Hless; [by injection Hh as <- <-|].
  unfold Promise in Hh. destruct (promise_ok e); injection Hh as <- <-; [|done].
  apply (handled_good σ rid to msg n); [done..|exact Hless|done| |by rewrite Hk|].
  - intros en. simpl. rewrite elem_of_EntriesFrom by apply (no_wf _ _ _ _ Hnode).
    by intros [_ ?].
  - intros _ _. split; [apply ble_refl|done].
Qed.

Lemma handleAccept_cases e msg n :
  let '(n', rep) := handleAccept e msg n in
  (mOK rep = false /\ mEntries rep = [] /\ quiet n n' /\ entries (log n') = entries (log n) /\
   ble (Promised n) (Promised n')) \/
  (mOK rep = true /\ mEntries rep = [] /\ quiet n n' /\ Less (mBallot msg) (Promised n) = false /\
   Promised n' = mBallot msg /\ entries (log n') = <[mSlot msg := entry_of msg]> (entries (log n))).
Proof.
  unfold handleAccept. destruct (Less (mBallot msg) (Promised n)) eqn:Hlow.
  { left. split_and!; eauto using quiet_refl with payments. }
  assert (ble (Promised n) (mBallot msg)) as Hle by done.
  destruct (Less (Promised n) (mBallot msg)) eqn:Hhigh; unfold Promise, Accept.
  - destruct (promise_ok e); [|left; split_and!; eauto using quiet_refl with payments].
    destruct (accept_ok e); [right|left]; split_and!; eauto.
    + eapply quiet_trans; [|apply quiet_follow]. apply quiet_with_log; [|done].
      intros ?. by apply storeEntry_wf.
    + by apply quiet_with_log.
  - assert (Promised n = mBallot msg) as HP by by apply ble_antisym.
    destruct (accept_ok e); [right|left]; split_and!; eauto with payments.
    + eapply quiet_trans; [|apply quiet_follow]. apply quiet_with_log; [|apply ble_refl].
      intros ?. by apply storeEntry_wf.
    + apply quiet_with_log; [done|apply ble_refl].
Qed.

(** A follower's vote repeats its leader's. *)
Lemma follower_vote_good σ rid to msg n n' rep :
  sys_inv group σ -> (rid, to, msg) ∈ requests σ -> nodes σ !! to = Some n ->
  mKind msg = KindAccept -> mEntries rep = [] -> quiet n n' ->
  Less (mBallot msg) (Promised n) = false -> no_newer_entry (mSlot msg) (mBallot msg) n = true ->
  Promised n' = mBallot msg -> entries (log n') = <[mSlot msg := entry_of msg]> (entries (log n)) ->
  good group σ (add_vote to (entry_of msg) (add_reply rid to msg rep (set_node to n' σ))).
Proof.
  intros HI Hreq Hn Hk HE Hq Hlow Hnew HP Hent. set (σ' := add_vote _ _ _).
  destruct (node_facts _ _ _ HI Hn) as (I & Hnode & Hto).
  destruct (so_reqs _ _ (proj1 HI) _ Hreq) as [(Hne & Hlead & _) _]. specialize (Hlead Hk).
  pose proof (core_of_lookup _ _ _ Hn) as Hacc. set (en := entry_of msg) in *.
  assert (core_of σ' = mkCore (<[to := (eBallot en, <[eSlot en := en]> (entries (log n)))]>
            (accs (core_of σ))) (hvotes σ ++ [(to, en)])) as Hcore.
  { rewrite (core_of_node σ σ' to n') by done. by rewrite HP, Hent. }
  set (c1 := mkCore (<[to := (eBallot en, entries (log n))]> (accs (core_of σ))) (hist (core_of σ))).
  assert (steps (core_of σ) (core_of σ')) as Hs.
  { apply (rtc_l _ _ c1).
    - apply (cs_raise group (core_of σ) to (Promised n)); [done|exact Hlow].
    - rewrite Hcore. apply rtc_once.
      rewrite <- (insert_insert_eq (accs (core_of σ)) to _ (eBallot en, entries (log n))).
      apply (cs_vote group c1 to (entries (log n)) en); simpl.
      + by rewrite lookup_insert_eq.
      + intros old Hold. unfold no_newer_entry, Get in Hnew. rewrite Hold in Hnew.
        by apply bool_decide_eq_true in Hnew.
      + left. exact Hlead. }
  assert (forall a, (a, en) ∈ hist (core_of σ') <-> (a, en) ∈ hist (core_of σ) \/ a = to) as Hvotes.
  { intros a. rewrite Hcore. simpl. rewrite elem_of_snoc. split; intros [?|?]; simplify_eq; auto. }
  eapply good_shrink; eauto; simpl; auto.
  - eapply node_ok_quiet; eauto.
  - intros b s. by apply quiet_claims.
  - intros x b s a Hc _ [cmd Hv]. rewrite Hcore in Hv. simpl in Hv.
    apply elem_of_snoc in Hv as [Hv|Hv]; [by exists cmd|]. exfalso.
    injection Hv as -> -> -> ->. apply (proj1 (proj2 HI)) in Hc as [_ Hno].
    eapply Hno. eexists. exact Hlead.
  - intros rid' to' q rep' [?|?]%elem_of_snoc; [auto|]. simplify_eq. right.
    split_and!; [|done|intros ? Hen; rewrite HE in Hen; by apply not_elem_of_nil in Hen].
    split_and!; [done|done| | |by rewrite Hk].
    + intros ? Hen. rewrite HE in Hen. by apply not_elem_of_nil in Hen.
    + intros _ _. apply Hvotes. by right.
Qed.

(** A heartbeat that starts a catch-up. *)
Lemma fetch_good e σ rid to msg n :
  sys_inv group σ -> (rid, to, msg) ∈ requests σ -> nodes σ !! to = Some n ->
  mKind msg = KindCommit -> (appliedIndex n < u64_max)%N ->
  let n' := with_catchingUp true (follow e (mFrom msg) n) in
  let rep := mkMessage KindCommit (id n) (mBallot msg) true 0 "" [] 0 in
  let first := u64 (appliedIndex n + 1) in
  let σ2 := add_reply rid to msg rep (set_node to n' σ) in
  let req := catchUpRequest first n' in
  good group σ (spawn to (TCatchUp (fresh σ2) req first (mCommitIndex msg)) (send [mFrom msg] req σ2)).
Proof.
  intros HI Hreq Hn Hk Happ n' rep first σ2 req. set (σ' := spawn _ _ _).
  destruct (node_facts _ _ _ HI Hn) as (I & Hnode & Hto). pose proof (no_id _ _ _ _ Hnode) as Hid.
  destruct (so_reqs _ _ (proj1 HI) _ Hreq) as [(Hne & _ & Hanc) Hrid]. specialize (Hanc Hk).
  simpl in Hrid.
  assert (quiet n n') as Hq by by split.
  assert (steps (core_of σ) (core_of σ')) as Hs
    by (eapply (steps_raised group _ _ to n n'); eauto with payments).
  eapply (good_quiet group σ σ' to n n'); [done|done|done|done|done|apply ble_refl|done|simpl; lia|..].
  - intros rid' to' m [?|(to'' & ? & Hin)]%elem_of_round; [auto|]. simplify_eq.
    apply list_elem_of_singleton in Hin as ->. right. split; [simpl; lia|].
    apply request_ok_plain; [done|done|]. simpl in *. congruence.
  - intros rid' to' q rep' [?|Heq]%elem_of_snoc; [auto|]. injection Heq as -> -> -> ->. right.
    apply (quiet_reply_ok σ σ' rid to msg n n'); [done..| | | |by rewrite Hk|by rewrite Hk].
    + simpl. by rewrite lookup_insert_eq.
    + apply (no_wf _ _ _ _ Hnode).
    + intros en Hen. by apply not_elem_of_nil in Hen.
  - intros k j t. simpl. rewrite lookup_insert. case_decide; [intros [= <- <-]|auto].
    right. split_and!; [done| |done]. unfold first. rewrite u64_id by lia.
    split; [lia|]. split_and!; [simpl; lia| |].
    + intros to' m s [Hin|(to'' & ? & Hin)]%elem_of_round Hrange.
      * apply (so_reqs _ _ (proj1 HI)) in Hin as [_ Hlt]. simpl in Hlt. lia.
      * simplify_eq. apply list_elem_of_singleton in Hin as ->.
        eapply steps_anchored_at; [done|done|]. apply Hanc. lia.
    + intros to' q rep' en Hin _ _. exfalso.
      apply elem_of_snoc in Hin as [Hin|Hin].
      * apply (so_reps _ _ (proj1 HI)) in Hin as [_ Hlt]. simpl in Hlt. lia.
      * injection Hin as Heq _ _ _. simpl in Heq. lia.
Qed.

Lemma nothing_held n rep : mEntries rep = [] -> holds_all n rep.
Proof. intros He en Hen. rewrite He in Hen. by apply not_elem_of_nil in Hen. Qed.

Lemma handle_good e r σ σ' :
  sys_inv group σ -> disciplined (AHandle e r) σ = true ->
  exec_handle e r σ = Some σ' -> good group σ σ'.
Proof.
  intros HI Hd He. unfold exec_handle in He. simpl in Hd.
  destruct (requests σ !! r) as [[[rid to] msg]|] eqn:Hr; simpl in He; [|done].
  destruct (nodes σ !! to) as [n|] eqn:Hn; simpl in He; [|done].
  apply list_elem_of_lookup_2 in Hr. destruct (node_facts _ _ _ HI Hn) as (I & Hnode & Hto).
  assert (forall n' rep, quiet n n' -> log n' = log n -> mEntries rep = [] ->
            mKind msg <> KindPrepare -> (mKind msg = KindAccept -> mOK rep = false) ->
            good group σ (add_reply rid to msg rep (set_node to n' σ))) as Hplain.
  { intros n' rep Hq Hlog HE ? ?.
    apply (handled_good σ rid to msg n n' rep); auto using nothing_held; unfold Promised;
      rewrite ?Hlog; auto with payments; done. }
  unfold Handle in He. unfold handle_disciplined in Hd.
  destruct (mKind msg) eqn:Hk; simpl in He.
  - destruct (handlePrepare e msg n) as [n' rep] eqn:Hh. injection He as <-.
    by eapply handle_prepare_good.
  - injection He as <-. apply Hplain; auto using quiet_refl; done.
  - pose proof (handleAccept_cases e msg n) as Hcases.
    destruct (handleAccept e msg n) as [n' rep].
    destruct Hcases as [(Hok & HE & Hq & Hent & Hp)|(Hok & HE & Hq & Hlow & HP & Hent)];
      rewrite Hok in He; injection He as <-.
    + apply (handled_good σ rid to msg n n' rep); auto using nothing_held. by rewrite Hk.
    + rewrite Hlow in Hd. by eapply follower_vote_good.
  - injection He as <-. apply Hplain; auto using quiet_refl; done.
  - unfold handleCommit in He. destruct (Less _ _).
    { injection He as <-. apply Hplain; auto using quiet_refl; done. }
    simpl in He. destruct (_ && _); injection He as <-.
    + apply N.ltb_lt in Hd. by apply (fetch_good e σ rid to msg n).
    + apply Hplain; auto using quiet_follow; done.
  - injection He as <-. apply (handled_good σ rid to msg n n); auto using quiet_refl with payments.
    + intros en. simpl. rewrite elem_of_EntriesFrom by apply (no_wf _ _ _ _ Hnode). by intros [_ ?].
    + by rewrite Hk.
    + by rewrite Hk.
  - unfold handlePing in He. injection He as <-. apply Hplain; try done.
    + destruct (IsLeader n); [apply quiet_refl|by apply quiet_same_leadership].
    + by destruct (IsLeader n).
  - injection He as <-. apply Hplain; auto using quiet_refl; done.
Qed.

(** ** Catching up *)

Lemma chosen_map_spec es slot en :
  chosen_map es !! slot = Some en -> en ∈ es /\ eSlot en = slot.
Proof.
  unfold chosen_map.
  assert (forall m : gmap N Entry, (forall s x, m !! s = Some x -> x ∈ es /\ eSlot x = s) ->
            forall l, l ⊆ es ->
            fold_left (fun m x => <[eSlot x := x]> m) l m !! slot = Some en ->
            en ∈ es /\ eSlot en = slot) as Hgen.
  { intros m Hm l. revert m Hm. induction l as [|x l IH]; intros m Hm Hsub; simpl; [apply Hm|].
    apply IH; [|set_solver]. intros s y. rewrite lookup_insert.
    case_decide; [intros [= <-]|apply Hm]. split; [set_solver|done]. }
  apply Hgen; [|done]. intros s x. by rewrite lookup_empty.
Qed.

Lemma same_entry local en slot :
  eSlot local = slot -> eSlot en = slot ->
  bool_decide (eBallot local = eBallot en) && String.eqb (eCommand local) (eCommand en) = true ->
  local = en.
Proof.
  intros H1 H2 H. apply andb_prop in H as [Hb Hc]. apply bool_decide_eq_true in Hb.
  apply String.eqb_eq in Hc. destruct local, en; simpl in *. congruence.
Qed.

(** The adoption loop learns only decided entries. *)
Lemma catchUp_loop_steps ok i ch slots l l' acc acc' c :
  core_inv group c -> accs c !! i = Some (promised l, entries l) -> log_wf l ->
  (forall s en, s ∈ slots -> ch !! s = Some en ->
     anchored group c en /\ (Node_ (eBallot en), en) ∈ hist c /\ eSlot en = s) ->
  (forall s, s ∈ acc -> anchored_at group c i s) ->
  catchUp_loop ok ch slots l acc = (l', acc') ->
  let c' := mkCore (<[i := (promised l', entries l')]> (accs c)) (hist c) in
  promised l' = promised l /\ log_wf l' /\ steps c c' /\
  forall s, s ∈ acc' -> anchored_at group c' i s.
Proof.
  revert l acc c. induction slots as [|slot slots IH]; intros l acc c I Hacc Hwf Hch Hdone; simpl.
  { intros [= <- <-]. rewrite insert_id by done. destruct c. by split_and!. }
  destruct (ch !! slot) as [en|] eqn:Hslot.
  2: { intros [= <- <-]. rewrite insert_id by done. destruct c. by split_and!. }
  destruct (Hch slot en ltac:(left) Hslot) as (Hanc & Hlead & Hs).
  set (same := match Get slot l with Some _ => _ | None => false end).
  destruct same eqn:Hsame.
  - unfold same in Hsame. destruct (Get slot l) as [local|] eqn:Hget; [|done].
    unfold Get in Hget. destruct (Hwf _ _ Hget) as [Hls _].
    apply (same_entry local en slot) in Hsame as ->; [|done..].
    apply IH; [done..| |].
    + intros s x Hin. apply Hch. by right.
    + intros s [Hin|Heq]%elem_of_snoc; [auto|]. rewrite Heq. by eexists _, _, _.
  - destruct ok; simpl.
    2: { intros [= <- <-]. rewrite insert_id by done. destruct c. by split_and!. }
    set (l1 := storeEntry en l).
    set (c1 := mkCore (<[i := (promised l, <[eSlot en := en]> (entries l))]> (accs c)) (hist c)).
    assert (core_step group c c1) as Hstep by by eapply cs_learn.
    assert (core_inv group c1) as I1 by by eapply core_step_inv.
    intros Hloop. apply (IH l1 (acc ++ [slot]) c1) in Hloop as (Hp & Hwf' & Hsteps & Hall); auto.
    + simpl in *. rewrite insert_insert_eq in *. split_and!; [done|done| |done].
      eapply rtc_l; eauto.
    + simpl. by rewrite lookup_insert_eq.
    + by apply storeEntry_wf.
    + intros s x Hin Hx. destruct (Hch s x) as (? & ? & ?); [by right|done|].
      split_and!; [by eapply anchored_stable|done|done].
    + intros s [Hin|Heq]%elem_of_snoc.
      * apply (anchored_at_stable group c); auto.
      * subst s slot. eexists _, _, en. simpl. rewrite lookup_insert_eq.
        split_and!; [done|by rewrite lookup_insert_eq|]. by eapply anchored_stable.
Qed.

Lemma catchup_done_good e k pick σ σ' :
  sys_inv group σ -> exec_catchup_done e k pick σ = Some σ' -> good group σ σ'.
Proof.
  intros HI He. unfold exec_catchup_done in He.
  destruct (tasks σ !! k) as [[i t]|] eqn:Hk; simpl in He; [|done].
  destruct (nodes σ !! i) as [n|] eqn:Hn; simpl in He; [|done].
  destruct t as [| | | | |rid req first ci|]; try done.
  destruct (collect _ _ _ _) as [rs|] eqn:Hcol; simpl in He; [|done]. injection He as <-.
  destruct (so_tasks _ _ (proj1 HI) _ _ _ Hk) as [Hi (Hfirst & _ & _ & Hanc)].
  destruct (node_facts _ _ _ HI Hn) as (I & Hnode & _).
  assert (forall n', log n' = log n -> quiet n n' -> good group σ (drop_task k (set_node i n' σ))) as Hidle.
  { intros n' Hlog Hq. eapply drop_good; eauto; unfold Promised; rewrite Hlog; auto with payments. }
  assert (quiet n (with_catchingUp false n)) as Hq0 by by apply quiet_same_leadership.
  unfold catchUp_finish. destruct rs as [|[to rep] rs]; simpl; [by apply Hidle|].
  destruct (mOK rep); simpl; [|by apply Hidle].
  destruct (catchUp_loop _ _ _ _ _) as [l slots] eqn:Hloop.
  apply collect_spec in Hcol as [_ Hin]. specialize (Hin to rep ltac:(left)).
  destruct (so_reps _ _ (proj1 HI) _ Hin) as [(_ & _ & Hlead & _) _].
  pose proof (core_of_lookup _ _ _ Hn) as Hacc.
  apply (catchUp_loop_steps _ i _ _ _ _ _ _ (core_of σ)) in Hloop as (Hp & Hwf & Hs & Hall);
    [|done|done|apply (no_wf _ _ _ _ Hnode)| |].
  2: { intros s en Hrange [Hen Hslot]%chosen_map_spec. apply elem_of_slots_between in Hrange.
       split_and!; [|by apply Hlead|done]. eapply Hanc; eauto. lia. }
  2: { intros s Hnil. by apply not_elem_of_nil in Hnil. }
  set (n' := with_catchingUp false _). set (σ' := drop_task _ _).
  assert (log n' = l) as Hlog by (unfold n'; by destruct (Nat.eqb _ 0)).
  assert (core_of σ' = mkCore (<[i := (promised l, entries l)]> (accs (core_of σ))) (hist (core_of σ)))
    as Hcore by (rewrite (core_of_node σ σ' i n') by done; unfold Promised; by rewrite Hlog).
  rewrite <- Hcore in Hs, Hall.
  assert (quiet n (with_log l n)) as Hq.
  { apply quiet_with_log; [done|]. unfold Promised. rewrite Hp. apply ble_refl. }
  assert (node_ok group (core_of σ') i (with_log l n)) as [? ? ? Hl Hcom ? ?]
    by (eapply node_ok_quiet; eauto).
  eapply good_shrink; eauto; simpl; auto.
  - unfold n'. destruct (Nat.eqb (length slots) 0); [by split|].
    split; simpl; auto. intros s [Hs'|?]%elem_of_union; [|auto].
    apply Hall. by apply elem_of_list_to_set in Hs'.
  - unfold n', node_claims. destruct (Nat.eqb (length slots) 0); done.
  - intros k' j t [_ ?]%lookup_delete_Some. auto.
Qed.

Lemma exec_good a σ σ' :
  sys_inv group σ -> disciplined a σ = true -> exec a σ = Some σ' -> good group σ σ'.
Proof.
  intros HI Hd He. destruct a; cbn [exec] in He;
    eauto using campaign_good, handle_good, prepare_good, elect_good, propose_good, replicate_good,
      accepted_good, heartbeat_good, heartbeat_done_good, catchup_done_good, apply_good, restart_good.
Qed.

Lemma run_good σ acts σ' : sys_inv group σ -> run σ acts σ' -> good group σ σ'.
Proof.
  intros HI Hr. revert HI. induction Hr as [|σ a σ1 acts σ2 Hd He _ IH]; intros HI; [by split|].
  destruct (exec_good _ _ _ HI Hd He) as [HI1 Hs1]. destruct (IH HI1) as [HI2 Hs2].
  split; [done|]. by etrans.
Qed.

(** ** The start *)

Lemma init_lookup e c i n :
  nodes (init_system e group c) !! i = Some n -> i ∈ group /\ n = NewNode e i group NewMemLog c.
Proof.
  unfold init_system; simpl. intros Hn. apply elem_of_list_to_map_2, list_elem_of_fmap in Hn
    as (j & Heq & Hj). by simplify_eq.
Qed.

Lemma init_dom e c i : i ∈ group <-> is_Some (nodes (init_system e group c) !! i).
Proof.
  split.
  - intros Hi. destruct (nodes (init_system e group c) !! i) as [n|] eqn:Hn; [done|].
    apply not_elem_of_list_to_map_2 in Hn. exfalso. apply Hn.
    rewrite <- list_fmap_compose. apply list_elem_of_fmap. by exists i.
  - intros [n Hn]. by apply init_lookup in Hn as [? _].
Qed.

Lemma init_core e c : core_init (core_of (init_system e group c)).
Proof.
  split; [done|]. intros a p l. unfold core_of; simpl. rewrite lookup_fmap_Some.
  intros (n & Heq & Hn). by apply init_lookup in Hn as [_ ->]; simplify_eq/=.
Qed.

Lemma init_inv e c : sys_inv group (init_system e group c).
Proof.
  split.
  - split.
    + apply core_init_inv, init_core.
    + apply init_dom.
    + intros i n [Hi ->]%init_lookup. split; simpl; auto with payments; try done; try (intros s ?; lia).
      exists []. split_and!; [done..|]. intros j cmd. by rewrite lookup_nil.
    + intros r Hr. by apply not_elem_of_nil in Hr.
    + intros r Hr. by apply not_elem_of_nil in Hr.
    + intros k i t. simpl. by rewrite lookup_empty.
  - assert (forall x b s, ~ claim (init_system e group c) x b s) as Hno.
    { intros [k|i] b s; unfold claim; intros Hc.
      - destruct Hc as (i & t & Hk & _). simpl in Hk. by rewrite lookup_empty in Hk.
      - destruct Hc as (n & [_ ->]%init_lookup & Hr & _). done. }
    split; intros; exfalso; by eapply Hno.
Qed.
End Actions.
