(* ===== verification/PaxosReplica.v ===== *)
(** * One replica: handlers, campaigns and the apply loop

    Facts about the functions of PaxosNode.v on their own: what a message can
    do to the durable state and what its answer promises, when a campaign
    starts and what a new leader adopts, and that the apply loop ends, applies
    committed slots in order without gaps, and answers the proposals waiting on
    them. *)

From S2P Require Import Prelude PaxosTypes PaxosLog PaxosNode PaxosVoting PaxosSystem PaxosElection PaxosInvariant PaxosSteps PaxosSafety.

Section Replica.
Context {S R : Type} {SM : StateMachine S R}.
Implicit Types (n : Node S R) (e : env) (msg : Message).

(** ** Messages *)

Lemma handlePrepare_cases e msg n :
  let '(n', rep) := handlePrepare e msg n in
  entries (log n') = entries (log n) /\
  (mOK rep = false /\ log n' = log n \/
   mOK rep = true /\ Promised n' = mBallot msg /\ ble (Promised n) (mBallot msg) /\
   mEntries rep = EntriesFrom (mSlot msg) (log n)).
Proof.
  unfold handlePrepare. destruct (Less _ _) eqn:Hl; [auto|].
  unfold Promise. destruct (promise_ok e); simpl; auto 10.
Qed.

(** No message lowers the promise; an affirmative PROMISE has made it the
    candidate's ballot and carries everything accepted from the slot asked
    for on; an affirmative ACCEPTED has stored exactly the entry offered, at
    the promised ballot; a refusal leaves every entry alone; and nothing but
    an ACCEPT touches the entries. *)
Theorem handlers_keep_their_word e msg n :
  let '(n', rep, _) := Handle e msg n in
  ble (Promised n) (Promised n') /\
  (mKind msg = KindPrepare -> mOK rep = true ->
     Promised n' = mBallot msg /\ mEntries rep = EntriesFrom (mSlot msg) (log n)) /\
  (mKind msg = KindAccept -> mOK rep = true ->
     Promised n' = mBallot msg /\
     entries (log n') = <[mSlot msg := entry_of msg]> (entries (log n))) /\
  (mKind msg <> KindAccept \/ mOK rep = false -> entries (log n') = entries (log n)).
Proof.
  unfold Handle. destruct (mKind msg) eqn:Hk.
  - pose proof (handlePrepare_cases e msg n) as H. destruct (handlePrepare e msg n) as [n' rep].
    destruct H as (He & [[Hok Hl]|(Hok & Hp & Hle & HE)]).
    + unfold Promised. rewrite Hl. split_and!; auto with payments; congruence.
    + rewrite Hp. by split_and!.
  - split_and!; auto with payments; done.
  - pose proof (handleAccept_cases e msg n) as H. destruct (handleAccept e msg n) as [n' rep].
    destruct H as [(Hok & _ & _ & He & Hp)|(Hok & _ & _ & Hl & HP & He)].
    + split_and!; try done; intros; congruence.
    + rewrite HP. split_and!; try done. intros [?|?]; congruence.
  - split_and!; auto with payments; done.
  - unfold handleCommit. destruct (Less _ _); simpl; [split_and!; auto with payments; done|].
    destruct (_ && _); simpl; split_and!; auto with payments; done.
  - split_and!; auto with payments; done.
  - simpl. destruct (IsLeader n); simpl; split_and!; auto with payments; done.
  - split_and!; auto with payments; done.
Qed.

(** ** Campaigns *)

(** A replica that cannot reach a majority does not touch its ballot: the
    pre-vote keeps a cut-off replica from inflating it. *)
Theorem no_majority_no_ballot e probe n :
  length probe + 1 < quorum n ->
  let '(n', out) := campaign_prepare e probe n in
  out = None /\ log n' = log n /\ role n' = Follower.
Proof.
  intros Hlt. unfold campaign_prepare.
  assert (canReachQuorum n probe = false) as ->.
  { unfold canReachQuorum. apply orb_false_iff. split; apply Nat.leb_gt; lia. }
  simpl. unfold stepDown. by simpl.
Qed.

(** A won campaign takes over, for every slot at or after [first] that anyone
    reported, the entry of the highest ballot reported for it, and hands out
    new slots only after all of them. *)
Theorem new_leader_adopts_highest e b first replies n :
  let t := count_promises (EntriesFrom first (log n)) b replies in
  quorum n <= votes t ->
  let '(n', out) := campaign_finish e b first replies n in
  exists best last, out = Some (best, last) /\ role n' = Leader /\ ballot n' = b /\
    (forall en, en ∈ gathered t -> (first <= eSlot en)%N ->
       exists em, best !! eSlot en = Some em /\ em ∈ gathered t /\ eSlot em = eSlot en /\
         ble (eBallot en) (eBallot em)) /\
    (forall s em, best !! s = Some em -> em ∈ gathered t /\ eSlot em = s) /\
    ((last < u64_max)%N -> (first <= nextSlot n')%N /\
       forall en, en ∈ gathered t -> (eSlot en < nextSlot n')%N).
Proof.
  intros t Hq. unfold campaign_finish. fold t.
  destruct (Nat.ltb_spec (votes t) (quorum n)) as [|_]; [lia|].
  unfold becomeLeader. pose proof (adopt_spec first (gathered t)) as [Hbest Hcov].
  destruct (adopt first (gathered t)) as [best last]. cbn [fst snd] in *.
  exists best, last. split_and!; try done.
  - intros en Hin Hf. destruct (Hcov en Hin Hf) as [[em Hem] _]. exists em.
    destruct (Hbest _ _ Hem) as (? & ? & _ & Hmax). split_and!; auto.
  - intros s em Hem. destruct (Hbest _ _ Hem) as (? & ? & _). auto.
  - intros Hlast. simpl. rewrite u64_id by lia.
    destruct (N.ltb_spec (last + 1) first); (split; [lia|]); intros en Hin;
      destruct (N.le_gt_cases first (eSlot en)) as [Hf|]; try lia;
      destruct (Hcov en Hin Hf); lia.
Qed.

(** ** The apply loop *)

(** The committed slots still to be applied bound the iterations. *)
Definition pending n : gset N := filter (fun s => (appliedIndex n < s)%N) (committed n).

Lemma apply_next_inv n n' :
  apply_next n = Some n' -> (appliedIndex n < u64_max)%N ->
  exists en, let next := (appliedIndex n + 1)%N in
    next ∈ committed n /\ Get next (log n) = Some en /\
    appliedIndex n' = next /\ committed n' = committed n /\ log n' = log n /\
    sm n' = apply_cmd next (eCommand en) (sm n) /\ results n' = results n ∖ {[next]}.
Proof.
  intros Ha Hlt. unfold apply_next in Ha. rewrite u64_id in Ha by lia.
  destruct (bool_decide (_ ∈ committed n)) eqn:Hc; simpl in Ha; [|done].
  apply bool_decide_eq_true in Hc. destruct (Get _ _) as [en|] eqn:Hg; [|done].
  destruct (if IsNoop en then _ else _) as [s' res] eqn:Hres. apply apply_cmd_spec in Hres.
  injection Ha as <-. exists en. simpl. by split_and!.
Qed.

Lemma apply_next_pending n n' :
  apply_next n = Some n' -> (appliedIndex n < u64_max)%N -> size (pending n') < size (pending n).
Proof.
  intros Ha Hlt. destruct (apply_next_inv n n' Ha Hlt) as (en & Hc & _ & Hi & Hcom & _).
  apply subset_size. unfold pending. rewrite Hcom, Hi. split; [set_solver by lia|].
  intros Hsub. specialize (Hsub (appliedIndex n + 1)%N).
  rewrite !elem_of_filter in Hsub. destruct Hsub as [? _]; [split; [lia|done]|lia].
Qed.

Lemma drain_finishes fuel n :
  size (pending n) <= fuel -> (appliedIndex n + N.of_nat fuel < u64_max)%N ->
  apply_next (drain fuel n) = None.
Proof.
  revert n. induction fuel as [|fuel IH]; intros n Hsz Hlt; simpl.
  - destruct (apply_next n) as [n'|] eqn:Ha; [|done].
    apply apply_next_pending in Ha; lia.
  - destruct (apply_next n) as [n'|] eqn:Ha; [|done]. apply IH.
    + apply apply_next_pending in Ha; lia.
    + destruct (apply_next_inv _ _ Ha ltac:(lia)) as (en & _ & _ & Hi & _). lia.
Qed.

Lemma results_drain fuel n : results (drain fuel n) ⊆ results n.
Proof.
  revert n. induction fuel as [|fuel IH]; intros n; simpl; [done|].
  destruct (apply_next n) as [n'|] eqn:Ha; [|done]. etrans; [apply IH|].
  unfold apply_next in Ha. destruct (negb _); [done|].
  destruct (Get _ _) as [en|]; [|done].
  destruct (if IsNoop en then _ else _) as [s' res]. injection Ha as <-. simpl. set_solver.
Qed.

Lemma drain_replays fuel n :
  (appliedIndex n + N.of_nat fuel < u64_max)%N ->
  exists cmds, appliedIndex (drain fuel n) = (appliedIndex n + N.of_nat (length cmds))%N /\
    sm (drain fuel n) = replay_from (appliedIndex n + 1) cmds (sm n) /\
    log (drain fuel n) = log n /\
    forall j cmd, cmds !! j = Some cmd ->
      let s := (appliedIndex n + 1 + N.of_nat j)%N in
      s ∈ committed n /\ eCommand <$> Get s (log n) = Some cmd /\ s ∉ results (drain fuel n).
Proof.
  revert n. induction fuel as [|fuel IH]; intros n Hlt; simpl.
  { exists []. simpl. split_and!; [lia|done|done|]. intros j cmd. by rewrite lookup_nil. }
  destruct (apply_next n) as [n'|] eqn:Ha.
  2: { exists []. simpl. split_and!; [lia|done|done|]. intros j cmd. by rewrite lookup_nil. }
  destruct (apply_next_inv _ _ Ha ltac:(lia)) as (en & Hc & Hg & Hi & Hcom & Hlog & Hsm & Hres).
  destruct (IH n' ltac:(lia)) as (cmds & Hn & Hs & Hl & Hall). rewrite Hcom, Hlog, Hi in *.
  exists (eCommand en :: cmds). split_and!.
  - rewrite Hn. simpl length. lia.
  - simpl. by rewrite Hs, Hsm.
  - done.
  - intros [|j] cmd Hj; cbv zeta; simpl in Hj.
    + injection Hj as <-. rewrite N.add_0_r, Hg. split_and!; [done..|].
      intros Hin%results_drain. rewrite Hres in Hin. set_solver.
    + specialize (Hall j cmd Hj). cbv zeta in Hall.
      assert (appliedIndex n + 1 + N.of_nat (Datatypes.S j) = appliedIndex n + 1 + 1 + N.of_nat j)%N
        as -> by lia. done.
Qed.

(** The loop ends, with every slot up to the first gap applied, once and in
    order, and nobody left waiting for a slot it applied. *)
Theorem apply_loop_correct n :
  (appliedIndex n + N.of_nat (size (committed n)) < u64_max)%N ->
  let n' := drainApplicable n in
  apply_next n' = None /\
  exists cmds, appliedIndex n' = (appliedIndex n + N.of_nat (length cmds))%N /\
    sm n' = replay_from (appliedIndex n + 1) cmds (sm n) /\
    forall j cmd, cmds !! j = Some cmd ->
      let s := (appliedIndex n + 1 + N.of_nat j)%N in
      s ∈ committed n /\ eCommand <$> Get s (log n) = Some cmd /\ s ∉ results n'.
Proof.
  intros Hlt. split.
  - apply drain_finishes; [|done]. apply subseteq_size. unfold pending. set_solver.
  - destruct (drain_replays _ _ Hlt) as (cmds & ? & ? & _ & ?). exists cmds. by split_and!.
Qed.
End Replica.

(** ** Instances of the theorems *)

Module ReplicaExamples.
#[local] Instance counter : StateMachine nat unit :=
  {| sm_init := 0; sm_apply _ _ k := (Datatypes.S k, tt) |}.

Definition e0 : env := mkEnv 0 0 true true.
Definition n0 : Node nat unit := NewNode e0 "A" ["A"; "B"; "C"] NewMemLog (mkConfig 0 0 0).
Definition en (s : N) (b : N) (cmd : bytes) : Entry := mkEntry s (mkBallot b "B") cmd.

Lemma no_majority_no_ballot_witness :
  let '(n', out) := campaign_prepare e0 [] n0 in out = None /\ log n' = log n0 /\ role n' = Follower.
Proof. apply (no_majority_no_ballot e0 [] n0). vm_compute. lia. Defined.

(** B reports slot 1 under ballots 1 and 2. *)
Definition promise : Message :=
  mkMessage KindPromise "B" (mkBallot 3 "A") true 0 "" [en 1 1 "old"; en 1 2 "new"] 0.

Lemma new_leader_adopts_highest_witness :
  exists best last, (campaign_finish e0 (mkBallot 3 "A") 1 [promise] n0).2 = Some (best, last).
Proof.
  pose proof (new_leader_adopts_highest e0 (mkBallot 3 "A") 1 [promise] n0
                ltac:(vm_compute; lia)) as H.
  destruct (campaign_finish e0 (mkBallot 3 "A") 1 [promise] n0) as [n' out].
  destruct H as (best & last & Hout & _). exists best, last. exact Hout.
Defined.

(** Slots 1 and 2 are committed and present, slot 4 is beyond a gap. *)
Definition n1 : Node nat unit :=
  with_results {[2%N]} (markCommitted [1%N; 2%N; 4%N]
    (with_log (storeEntry (en 4 1 "d") (storeEntry (en 2 1 "b") (storeEntry (en 1 1 "a") NewMemLog))) n0)).

Lemma apply_loop_correct_witness :
  apply_next (drainApplicable n1) = None /\ appliedIndex (drainApplicable n1) = 2%N.
Proof.
  assert (appliedIndex n1 + N.of_nat (size (committed n1)) < u64_max)%N as Hlt by (vm_compute; reflexivity).
  destruct (apply_loop_correct n1 Hlt) as [Hend _].
  split; [exact Hend|]. vm_compute. reflexivity.
Defined.
End ReplicaExamples.
