(* ===== verification/PaxosAgreement.v ===== *)
(** * What a Paxos group guarantees, and what it does not

    The theorems of the group as a whole.  A run that obeys [disciplined] is a
    run of the voting machine; its replicas' state machines only differ by how
    far they have got; and a command once committed anywhere is the command of
    its slot everywhere, for good.

    Each of the four protocol rules in [disciplined] is one the code of
    internal/paxos/node.go does not enforce, and each is needed: dropping any
    one of them at a single step lets two replicas apply different commands at
    slot 1. *)

From S2P Require Import Prelude PaxosTypes PaxosLog PaxosNode PaxosVoting PaxosSystem PaxosElection PaxosInvariant PaxosSteps PaxosSafety.

Section Agreement.
Context {S R : Type} {SM : StateMachine S R}.
Implicit Types (σ : System S R) (n : Node S R).

Lemma run_from_init e group c acts σ :
  run (init_system e group c) acts σ ->
  sys_inv group σ /\ rtc (core_step group) (core_of (init_system e group c)) (core_of σ).
Proof. apply run_good, init_inv. Qed.

Lemma applied_prefixes_agree group c n1 n2 :
  core_inv group c -> applied_prefix group c n1 -> applied_prefix group c n2 ->
  (appliedIndex n1 <= appliedIndex n2)%N ->
  exists cmds more, sm n1 = replay_cmds cmds /\ sm n2 = replay_cmds (cmds ++ more) /\
    N.of_nat (length cmds) = appliedIndex n1 /\
    N.of_nat (length (cmds ++ more)) = appliedIndex n2.
Proof.
  intros I (c1 & H1 & Hs1 & Hc1) (c2 & H2 & Hs2 & Hc2) Hle.
  destruct (chosen_history_prefix group c c1 c2 I Hc1 Hc2 ltac:(lia)) as [more ->].
  by exists c1, more.
Qed.

(** C4: A run that obeys the rules is, on promises, logs and votes, a run of the
    voting machine. *)
Theorem paxos_refines_voting e group c acts σ :
  run (init_system e group c) acts σ ->
  core_init (core_of (init_system e group c)) /\
  rtc (core_step group) (core_of (init_system e group c)) (core_of σ).
Proof. intros Hr. split; [apply init_core|]. by apply run_from_init in Hr as [_ ?]. Qed.

(** C1: State machine safety. *)
Theorem replicas_agree e group c acts σ i j n1 n2 :
  run (init_system e group c) acts σ ->
  nodes σ !! i = Some n1 -> nodes σ !! j = Some n2 -> (appliedIndex n1 <= appliedIndex n2)%N ->
  exists cmds more, sm n1 = replay_cmds cmds /\ sm n2 = replay_cmds (cmds ++ more) /\
    N.of_nat (length cmds) = appliedIndex n1 /\
    N.of_nat (length (cmds ++ more)) = appliedIndex n2.
Proof.
  intros [[HI _] _]%run_from_init Hi Hj Hle. eapply applied_prefixes_agree; eauto;
    [by apply so_core|eapply no_sm, so_nodes; eauto..].
Qed.

(** C5: In a run of steps that keep to the protocol rules of PaxosSteps.disciplined
    (the code does not enforce all of them, see the findings): once a replica has
    marked a slot committed, it holds an entry for it, and every replica that from
    then on has the slot marked committed, or has applied it, holds an entry with
    the same command for it. *)
Theorem committed_is_final e group c acts σ acts' σ' i j n n' s :
  run (init_system e group c) acts σ -> run σ acts' σ' ->
  nodes σ !! i = Some n -> s ∈ committed n ->
  nodes σ' !! j = Some n' -> s ∈ committed n' \/ (1 <= s <= appliedIndex n')%N ->
  exists en en', Get s (log n) = Some en /\ Get s (log n') = Some en' /\ eCommand en' = eCommand en.
Proof.
  intros [HI _]%run_from_init Hr' Hi Hcom Hj Hs.
  destruct (run_good _ _ _ _ HI Hr') as [[HI' _] Hsteps]. destruct HI as [HI _].
  pose proof (so_core _ _ HI) as I. pose proof (so_core _ _ HI') as I'.
  destruct (no_committed _ _ _ _ (so_nodes _ _ HI _ _ Hi) _ Hcom) as (p & l & en & Hp & Hl & Ha).
  assert (anchored_at group (core_of σ') j s) as (p' & l' & en' & Hp' & Hl' & Ha').
  { pose proof (so_nodes _ _ HI' _ _ Hj) as Hn'. destruct Hs as [Hs|Hs]; [by eapply no_committed|by eapply no_applied]. }
  rewrite (core_of_lookup _ _ _ Hi) in Hp. injection Hp as <- <-.
  rewrite (core_of_lookup _ _ _ Hj) in Hp'. injection Hp' as <- <-. exists en, en'. split_and!; [done|done|].
  symmetry. eapply (anchored_agree group (core_of σ')); eauto using steps_anchored.
  rewrite (ci_log_slot _ _ I _ _ _ _ _ (core_of_lookup _ _ _ Hi) Hl).
  by rewrite (ci_log_slot _ _ I' _ _ _ _ _ (core_of_lookup _ _ _ Hj) Hl').
Qed.
End Agreement.

(** ** A state machine for the examples: the journal of what was applied *)

Module Journal.
Definition state : Type := list (N * bytes).

#[export] Instance journal : StateMachine state unit :=
  {| sm_init := []; sm_apply s cmd st := (st ++ [(s, cmd)], tt) |}.

Definition e0 : env := mkEnv 0 0 true true.
Definition cfg0 : Config := mkConfig 0 0 0.
Definition start (g : list NodeID) : System state unit := init_system e0 g cfg0.

(** The steps of a run that break a rule. *)
Fixpoint violations (k : nat) (acts : list action) (σ : System state unit) : list nat :=
  match acts with
  | [] => []
  | a :: rest =>
      (if disciplined a σ then [] else [k]) ++
      match exec a σ with Some σ' => violations (k + 1) rest σ' | None => [] end
  end.

(** What a replica has applied. *)
Definition applied (i : NodeID) (σ : System state unit) : option state := sm <$> nodes σ !! i.

Definition outcome (g : list NodeID) (acts : list action) (i j : NodeID)
    : option (option state * option state) :=
  (fun σ => (applied i σ, applied j σ)) <$> exec_all acts (start g).

(** A is elected by B, replicates a command, and B learns it by catching up. *)
Definition normal_run : list action :=
  [ACampaign "A"; AHandle e0 0; APrepare e0 1 [0]; AHandle e0 2; AElect e0 1 [1];
   AReplicate e0 1; APropose "A" "x"; AReplicate e0 3; AHandle e0 4; AAccepted e0 3 [2];
   AApply "A"; AHeartbeat "A"; AHandle e0 6; AHandle e0 8; ACatchUpDone e0 8 (Some 4); AApply "B"].

(** Two candidates, A with ballot 1.A and B with 1.B, both hold C's promise;
    A leads and accepts its own entry although it has promised 1.B. *)
Definition duel_run : list action :=
  [ACampaign "A"; AHandle e0 0; AHandle e0 1; APrepare e0 1 [0; 1]; ACampaign "B"; AHandle e0 4;
   APrepare e0 4 [2]; AHandle e0 3; AHandle e0 6; AElect e0 4 [4]; AElect e0 1 [3];
   APropose "A" "x"; APropose "B" "y"; AReplicate e0 6; AHandle e0 9; AAccepted e0 6 [5]; AApply "A";
   AReplicate e0 7; AHandle e0 10; AAccepted e0 7 [6]; AApply "B"].

(** A, which has promised 2.C meanwhile, loses its campaign and adopts the
    ballot 1.B a refusal named. *)
Definition lowered_promise_run : list action :=
  [ACampaign "A"; AHandle e0 0; APrepare e0 1 [0]; ACampaign "B"; AHandle e0 5; APrepare e0 4 [1];
   AHandle e0 7; AHandle e0 2; ACampaign "C"; AHandle e0 8; APrepare e0 7 [4]; AHandle e0 10;
   AElect e0 7 [5]; AElect e0 1 [3]; AElect e0 4 [2]; APropose "B" "y"; AReplicate e0 9; AHandle e0 12;
   AAccepted e0 9 [6]; AApply "B"; APropose "C" "x"; AReplicate e0 11; AHandle e0 14;
   AAccepted e0 11 [7]; AApply "C"].

(** A proposal of A's leadership 1.A runs on under its later ballot 3.A. *)
Definition stale_proposal_run : list action :=
  [ACampaign "A"; AHandle e0 0; APrepare e0 1 [0]; AHandle e0 2; AElect e0 1 [1]; APropose "A" "x";
   ACampaign "B"; AHandle e0 4; APrepare e0 5 [2]; AHandle e0 6; ACampaign "A"; AHandle e0 8;
   APrepare e0 8 [4]; AHandle e0 10; AElect e0 8 [5]; APropose "A" "y"; AReplicate e0 10; AHandle e0 12;
   AAccepted e0 10 [6]; AApply "A"; AReplicate e0 3; AHeartbeat "A"; AHandle e0 16; AHandle e0 18;
   ACatchUpDone e0 16 (Some 8); AApply "B"].

(** E learns the chosen entry of 2.B by catching up, which leaves its promise
    where it was, and then accepts a delayed entry of 1.A over it. *)
Definition overwritten_entry_run : list action :=
  [ACampaign "A"; AHandle e0 0; AHandle e0 1; APrepare e0 1 [0; 1]; AHandle e0 4; AHandle e0 5;
   AElect e0 1 [2; 3]; APropose "A" "x"; AReplicate e0 3; ACampaign "B"; AHandle e0 13; AHandle e0 14;
   APrepare e0 6 [4; 5]; AHandle e0 17; AHandle e0 18; AElect e0 6 [6; 7]; APropose "B" "y";
   AReplicate e0 8; AHandle e0 21; AHandle e0 22; AAccepted e0 8 [8; 9]; AApply "B"; AHeartbeat "B";
   AHandle e0 27; AHandle e0 28; ACatchUpDone e0 13 (Some 11); AApply "E"; AHandle e0 11; ACampaign "E";
   AHandle e0 29; AHandle e0 31; APrepare e0 15 [13; 14]; AHandle e0 33; AHandle e0 35;
   AElect e0 15 [15; 16]; AHeartbeat "E"; AHandle e0 37; AHandle e0 41; ACatchUpDone e0 20 (Some 18);
   AApply "A"].

Definition g3 : list NodeID := ["A"; "B"; "C"].
Definition final (acts : list action) (σ : System state unit) : System state unit :=
  default σ (run_all acts σ).
Definition node_at (i : NodeID) (σ : System state unit) : Node state unit :=
  default (NewNode e0 i [] NewMemLog cfg0) (nodes σ !! i).

Lemma final_run acts σ : is_Some (run_all acts σ) -> run σ acts (final acts σ).
Proof. intros [σ' H]. apply run_all_run. unfold final. by rewrite H. Qed.

Lemma normal_prefix_run k : k <= 16 ->
  run (start g3) (take k normal_run) (final (take k normal_run) (start g3)).
Proof.
  intros Hk. apply final_run. unfold is_Some.
  do 17 (destruct k as [|k]; [eexists; vm_compute; reflexivity|]). lia.
Qed.

Lemma paxos_refines_voting_witness :
  let σ := final normal_run (start g3) in
  core_init (core_of (start g3)) /\ rtc (core_step g3) (core_of (start g3)) (core_of σ).
Proof.
  apply (paxos_refines_voting e0 g3 cfg0 normal_run). exact (normal_prefix_run 16 ltac:(lia)).
Defined.

Lemma replicas_agree_witness :
  let σ := final normal_run (start g3) in
  exists cmds more, sm (node_at "A" σ) = replay_cmds cmds /\
    sm (node_at "B" σ) = replay_cmds (cmds ++ more) /\
    N.of_nat (length cmds) = appliedIndex (node_at "A" σ) /\
    N.of_nat (length (cmds ++ more)) = appliedIndex (node_at "B" σ).
Proof.
  intros σ. apply (replicas_agree e0 g3 cfg0 normal_run σ "A" "B").
  - exact (normal_prefix_run 16 ltac:(lia)).
  - vm_compute. reflexivity.
  - vm_compute. reflexivity.
  - vm_compute. discriminate.
Defined.

(** A's slot 1 is committed after ten steps; B applies it at the last one. *)
Lemma committed_is_final_witness :
  exists en en', Get 1 (log (node_at "A" (final (take 10 normal_run) (start g3)))) = Some en /\
    Get 1 (log (node_at "B" (final normal_run (start g3)))) = Some en' /\ eCommand en' = eCommand en.
Proof.
  set (σ := final (take 10 normal_run) (start g3)).
  apply (committed_is_final e0 g3 cfg0 (take 10 normal_run) σ (drop 10 normal_run)
           (final (drop 10 normal_run) σ) "A" "B" (node_at "A" σ)
           (node_at "B" (final normal_run (start g3))) 1).
  - exact (normal_prefix_run 10 ltac:(lia)).
  - apply final_run. eexists. vm_compute. reflexivity.
  - vm_compute. reflexivity.
  - apply (bool_decide_unpack _). vm_compute. exact I.
  - vm_compute. reflexivity.
  - right. vm_compute. split; discriminate.
Defined.

Theorem dueling_leaders_disagree :
  outcome ["A"; "B"; "C"] duel_run "A" "B" = Some (Some [(1%N, "x")], Some [(1%N, "y")]) /\
  violations 0 duel_run (start ["A"; "B"; "C"]) = [13].
Proof. split; vm_compute; reflexivity. Qed.

Theorem lowered_promise_disagrees :
  outcome ["A"; "B"; "C"] lowered_promise_run "B" "C" = Some (Some [(1%N, "y")], Some [(1%N, "x")]) /\
  violations 0 lowered_promise_run (start ["A"; "B"; "C"]) = [13].
Proof. split; vm_compute; reflexivity. Qed.

Theorem stale_proposal_disagrees :
  outcome ["A"; "B"; "C"] stale_proposal_run "A" "B" = Some (Some [(1%N, "y")], Some [(1%N, "x")]) /\
  violations 0 stale_proposal_run (start ["A"; "B"; "C"]) = [20].
Proof. split; vm_compute; reflexivity. Qed.

Theorem overwritten_entry_disagrees :
  outcome ["A"; "B"; "C"; "D"; "E"] overwritten_entry_run "B" "A"
    = Some (Some [(1%N, "y")], Some [(1%N, "x")]) /\
  violations 0 overwritten_entry_run (start ["A"; "B"; "C"; "D"; "E"]) = [27].
Proof. split; vm_compute; reflexivity. Qed.
End Journal.
