(* ===== verification/PaxosRaces.v ===== *)
(** * internal/paxos/node.go: handlers that run at the same time

    PaxosSystem.v runs a handler in one step.  The code holds no lock for a whole
    handler: every access to the log and every access to the node's fields is a
    critical section of its own, and net/http and gRPC run handlers
    concurrently.  Here a handler is the program of its critical sections, and a
    group runs any number of them at once.

    If a replica does nothing else while one of its handlers runs, the group
    behaves as if handlers were single steps ([locked_handlers_are_atomic]).
    Without that, two replicas can apply different commands although every
    other rule is kept ([interleaved_handlers_disagree]). *)

From S2P Require Import Prelude PaxosTypes PaxosLog PaxosNode PaxosVoting PaxosSystem PaxosElection PaxosInvariant PaxosSteps PaxosSafety PaxosAgreement.

Section Programs.
Context {S R : Type} {SM : StateMachine S R}.

(** The rest of a handler: its answer and the catch-up it starts, or its next
    critical section. *)
Inductive hprog :=
| HDone (reply : Message) (fetch : option (NodeID * N * N))
| HStep (section : env -> Node S R -> Node S R * hprog).

Definition critical {A} (f : env -> Node S R -> Node S R * A) (k : A -> hprog) : hprog :=
  HStep (fun e n => let '(n', x) := f e n in (n', k x)).

(** The critical sections: the log's methods, and stretches under [n.mu]. *)
Definition read_promised : env -> Node S R -> Node S R * Ballot := fun _ n => (n, Promised n).
Definition read_entries (first : N) : env -> Node S R -> Node S R * list Entry :=
  fun _ n => (n, EntriesFrom first (log n)).
Definition write_promise (b : Ballot) : env -> Node S R -> Node S R * bool :=
  fun e n => match Promise (promise_ok e) b (log n) with Some l => (with_log l n, true) | None => (n, false) end.
Definition write_entry (en : Entry) : env -> Node S R -> Node S R * bool :=
  fun e n => match Accept (accept_ok e) en (log n) with Some l => (with_log l n, true) | None => (n, false) end.
Definition do_follow (from : NodeID) : env -> Node S R -> Node S R * unit := fun e n => (follow e from n, tt).

(** [self] is the node's id, which never changes. *)
Definition answer (k : MessageKind) (self : NodeID) (ok : bool) (b : Ballot) (slot : N) (es : list Entry) : Message :=
  mkMessage k self b ok slot "" es 0.

Definition prepare_prog (self : NodeID) (msg : Message) : hprog :=
  critical read_promised (fun promised =>
  if Less (mBallot msg) promised then HDone (answer KindPromise self false promised 0 []) None
  else critical (write_promise (mBallot msg)) (fun ok =>
  if negb ok then HDone (answer KindPromise self false promised 0 []) None
  else critical (do_follow (mFrom msg)) (fun _ =>
  critical (read_entries (mSlot msg)) (fun es =>
  HDone (answer KindPromise self true (mBallot msg) 0 es) None)))).

Definition accept_prog (self : NodeID) (msg : Message) : hprog :=
  let store :=
    critical (write_entry (mkEntry (mSlot msg) (mBallot msg) (mCommand msg))) (fun ok =>
    if negb ok then HDone (answer KindAccepted self false (mBallot msg) (mSlot msg) []) None
    else critical (do_follow (mFrom msg)) (fun _ =>
    HDone (answer KindAccepted self true (mBallot msg) (mSlot msg) []) None)) in
  critical read_promised (fun promised =>
  if Less (mBallot msg) promised then HDone (answer KindAccepted self false promised (mSlot msg) []) None
  else if Less promised (mBallot msg) then
    critical (write_promise (mBallot msg)) (fun ok =>
    if negb ok then HDone (answer KindAccepted self false promised (mSlot msg) []) None else store)
  else store).

(** The stretch of [handleCommit] under [n.mu]. *)
Definition do_commit (msg : Message) : env -> Node S R -> Node S R * option (NodeID * N * N) :=
  fun e n =>
    let n1 := follow e (mFrom msg) n in
    let applied := appliedIndex n1 in
    let fetch := (applied <? mCommitIndex msg)%N && negb (catchingUp n1) in
    (if fetch then with_catchingUp true n1 else n1,
     if fetch then Some (mFrom msg, u64 (applied + 1), mCommitIndex msg) else None).

Definition commit_prog (self : NodeID) (msg : Message) : hprog :=
  critical read_promised (fun promised =>
  if Less (mBallot msg) promised then HDone (answer KindCommit self false promised 0 []) None
  else critical (do_commit msg) (fun fetch =>
  HDone (answer KindCommit self true (mBallot msg) 0 []) fetch)).

Definition ping_prog (self : NodeID) : hprog :=
  critical (fun e n => (if negb (IsLeader n) then resetElectionLocked e n else n, tt)) (fun _ =>
  critical read_promised (fun promised => HDone (answer KindPing self true promised 0 []) None)).

Definition handler (self : NodeID) (msg : Message) : hprog :=
  match mKind msg with
  | KindPrepare => prepare_prog self msg
  | KindAccept => accept_prog self msg
  | KindCommit => commit_prog self msg
  | KindCatchUp => critical (read_entries (mSlot msg)) (fun es => HDone (answer KindCatchUp self true zeroBallot 0 es) None)
  | KindPing => ping_prog self
  | k => critical (fun _ n => (n, tt)) (fun _ => HDone (blankMessage k self) None)
  end.

(** A handler undisturbed, each section with its own time and disk. *)
Inductive undisturbed : Node S R -> hprog -> Node S R -> hprog -> Prop :=
| und_refl n p : undisturbed n p n p
| und_step n f e n1 p1 n2 p2 :
    f e n = (n1, p1) -> undisturbed n1 p1 n2 p2 -> undisturbed n (HStep f) n2 p2.

Lemma undisturbed_snoc n p n1 f e n2 p2 :
  undisturbed n p n1 (HStep f) -> f e n1 = (n2, p2) -> undisturbed n p n2 p2.
Proof.
  intros Hu. remember (HStep f) as q eqn:Hq. revert f Hq. induction Hu; intros f' Hq Hf; subst.
  - econstructor; [exact Hf|constructor].
  - econstructor; eauto.
Qed.

(** One section of an undisturbed handler that has answered. *)
Lemma undisturbed_critical {A} n (f : env -> Node S R -> Node S R * A) k n' rep fetch :
  undisturbed n (critical f k) n' (HDone rep fetch) ->
  exists e, undisturbed (f e n).1 (k (f e n).2) n' (HDone rep fetch).
Proof.
  intros Hu. inversion Hu as [|? f' e n1 p1 ? ? Hf Hrest]; subst. exists e. by destruct (f e n); injection Hf as <- <-.
Qed.

Lemma undisturbed_done n rep fetch n' rep' fetch' :
  undisturbed n (HDone rep fetch) n' (HDone rep' fetch') -> n' = n /\ rep' = rep /\ fetch' = fetch.
Proof. intros Hu. by inversion Hu. Qed.
End Programs.
Arguments hprog : clear implicits.

(** ** An undisturbed handler is a single step *)

Section Undisturbed.
Context {S R : Type} {SM : StateMachine S R}.
Implicit Types (n : Node S R) (msg : Message).

Lemma prepare_undisturbed n msg n' rep fetch :
  undisturbed n (prepare_prog (id n) msg) n' (HDone rep fetch) ->
  fetch = None /\ exists e, handlePrepare e msg n = (n', rep).
Proof.
  unfold prepare_prog, handlePrepare. intros Hu.
  apply undisturbed_critical in Hu as [e1 Hu]. cbn [read_promised fst snd] in Hu.
  destruct (Less (mBallot msg) (Promised n)).
  { apply undisturbed_done in Hu as (-> & -> & ->). split; [done|]. by exists e1. }
  apply undisturbed_critical in Hu as [e2 Hu]. unfold write_promise, Promise in *.
  destruct (promise_ok e2) eqn:Ep; cbn [fst snd negb] in Hu.
  - apply undisturbed_critical in Hu as [e3 Hu]. apply undisturbed_critical in Hu as [e4 Hu].
    apply undisturbed_done in Hu as (-> & -> & ->). split; [done|].
    exists (mkEnv (now e3) (jitter e3) true true). done.
  - apply undisturbed_done in Hu as (-> & -> & ->). split; [done|]. exists e2. by rewrite Ep.
Qed.

Lemma accept_undisturbed n msg n' rep fetch :
  undisturbed n (accept_prog (id n) msg) n' (HDone rep fetch) ->
  fetch = None /\ exists e, handleAccept e msg n = (n', rep).
Proof.
  unfold accept_prog, handleAccept. intros Hu.
  apply undisturbed_critical in Hu as [e1 Hu]. cbn [read_promised fst snd] in Hu.
  destruct (Less (mBallot msg) (Promised n)).
  { apply undisturbed_done in Hu as (-> & -> & ->). split; [done|]. by exists e1. }
  assert (forall l po, undisturbed (with_log l n)
            (critical (write_entry (mkEntry (mSlot msg) (mBallot msg) (mCommand msg))) (fun ok =>
             if negb ok then HDone (answer KindAccepted (id n) false (mBallot msg) (mSlot msg) []) None
             else critical (do_follow (mFrom msg)) (fun _ =>
             HDone (answer KindAccepted (id n) true (mBallot msg) (mSlot msg) []) None))) n' (HDone rep fetch) ->
          fetch = None /\ exists e, promise_ok e = po /\
            match Accept (accept_ok e) (mkEntry (mSlot msg) (mBallot msg) (mCommand msg)) l with
            | None => (with_log l n, refusal KindAccepted n (mSlot msg) (mBallot msg))
            | Some l' => (follow e (mFrom msg) (with_log l' n),
                          mkMessage KindAccepted (id n) (mBallot msg) true (mSlot msg) "" [] 0)
            end = (n', rep)) as Hstore.
  { clear Hu. intros l po Hu. apply undisturbed_critical in Hu as [e3 Hu]. unfold write_entry, Accept in *.
    destruct (accept_ok e3) eqn:Ea; cbn [fst snd negb] in Hu.
    - apply undisturbed_critical in Hu as [e4 Hu]. apply undisturbed_done in Hu as (-> & -> & ->). split; [done|].
      by exists (mkEnv (now e4) (jitter e4) po true).
    - apply undisturbed_done in Hu as (-> & -> & ->). split; [done|]. by exists (mkEnv 0 0 po false). }
  destruct (Less (Promised n) (mBallot msg)).
  - apply undisturbed_critical in Hu as [e2 Hu]. unfold write_promise in Hu. unfold Promise in *.
    destruct (promise_ok e2) eqn:Ep; cbn [fst snd negb] in Hu.
    + destruct (Hstore _ true Hu) as (-> & e & Hpo & He). split; [done|]. exists e. by rewrite Hpo.
    + apply undisturbed_done in Hu as (-> & -> & ->). split; [done|]. exists e2. by rewrite Ep.
  - assert (n = with_log (log n) n) as Hn by (by destruct n). rewrite Hn in Hu at 1.
    destruct (Hstore _ true Hu) as (-> & e & _ & He). split; [done|]. by exists e.
Qed.

Lemma handler_undisturbed n msg n' rep fetch :
  undisturbed n (handler (id n) msg) n' (HDone rep fetch) -> exists e, Handle e msg n = (n', rep, fetch).
Proof.
  unfold handler, Handle. destruct (mKind msg); intros Hu.
  - apply prepare_undisturbed in Hu as (-> & e & He). exists e. by rewrite He.
  - apply undisturbed_critical in Hu as [e1 Hu]. apply undisturbed_done in Hu as (-> & -> & ->). by exists e1.
  - apply accept_undisturbed in Hu as (-> & e & He). exists e. by rewrite He.
  - apply undisturbed_critical in Hu as [e1 Hu]. apply undisturbed_done in Hu as (-> & -> & ->). by exists e1.
  - unfold commit_prog, handleCommit in *. apply undisturbed_critical in Hu as [e1 Hu]. cbn [read_promised fst snd] in Hu.
    destruct (Less (mBallot msg) (Promised n)).
    { apply undisturbed_done in Hu as (-> & -> & ->). by exists e1. }
    apply undisturbed_critical in Hu as [e2 Hu]. apply undisturbed_done in Hu as (-> & -> & ->). by exists e2.
  - apply undisturbed_critical in Hu as [e1 Hu]. apply undisturbed_done in Hu as (-> & -> & ->). by exists e1.
  - unfold ping_prog, handlePing in *. apply undisturbed_critical in Hu as [e1 Hu]. cbn [fst snd] in Hu.
    apply undisturbed_critical in Hu as [e2 Hu]. apply undisturbed_done in Hu as (-> & -> & ->). by exists e1.
  - apply undisturbed_critical in Hu as [e1 Hu]. apply undisturbed_done in Hu as (-> & -> & ->). by exists e1.
Qed.
End Undisturbed.

(** ** A group whose handlers run in sections *)

Inductive race_action :=
| RAct (a : action)                  (* any step but a delivery *)
| RBegin (r : nat)                   (* request r arrives *)
| RSection (e : env) (t : nat).      (* handler t runs its next section *)

Section Racing.
Context {S R : Type} {SM : StateMachine S R}.
Implicit Types (σ : System S R) (n : Node S R).

(** The group and its handlers in progress, each with the request it answers. *)
Record Racing := mkRacing {
  base : System S R;
  threads : gmap nat (nat * hprog S R);
  started : nat;
}.
Implicit Types (ρ : Racing).

Definition race_start σ : Racing := mkRacing σ ∅ 0.

Definition addressee σ (r : nat) : option NodeID := (fun x => x.1.2) <$> requests σ !! r.

(** A handler answers: the end of [exec_handle]. *)
Definition finish_handle (rid : nat) (to : NodeID) (msg : Message) (n' : Node S R) (rep : Message)
    (fetch : option (NodeID * N * N)) σ : System S R :=
  let σ1 := add_reply rid to msg rep (set_node to n' σ) in
  let σ2 := if bool_decide (mKind msg = KindAccept) && mOK rep
            then add_vote to (mkEntry (mSlot msg) (mBallot msg) (mCommand msg)) σ1 else σ1 in
  match fetch with
  | None => σ2
  | Some (from, first, ci) =>
      let req := catchUpRequest first n' in
      spawn to (TCatchUp (fresh σ2) req first ci) (send [from] req σ2)
  end.

Definition race_exec (ra : race_action) ρ : option Racing :=
  match ra with
  | RAct (AHandle _ _) => None
  | RAct a =>
      σ' ← exec a (base ρ);
      Some (mkRacing σ'
              (match a with
               | ARestart _ i => filter (fun t => addressee (base ρ) t.2.1 <> Some i) (threads ρ)
               | _ => threads ρ
               end) (started ρ))
  | RBegin r =>
      '(rid, to, msg) ← requests (base ρ) !! r;
      n ← nodes (base ρ) !! to;
      Some (mkRacing (base ρ) (<[started ρ := (r, handler (id n) msg)]> (threads ρ)) (Datatypes.S (started ρ)))
  | RSection e t =>
      '(r, p) ← threads ρ !! t;
      '(rid, to, msg) ← requests (base ρ) !! r;
      n ← nodes (base ρ) !! to;
      match p with
      | HDone _ _ => None
      | HStep f =>
          let '(n', p') := f e n in
          Some (match p' with
                | HDone rep fetch => mkRacing (finish_handle rid to msg n' rep fetch (base ρ)) (delete t (threads ρ)) (started ρ)
                | HStep _ => mkRacing (set_node to n' (base ρ)) (<[t := (r, p')]> (threads ρ)) (started ρ)
                end)
      end
  end.

Fixpoint race_all (ras : list race_action) ρ : option Racing :=
  match ras with
  | [] => Some ρ
  | ra :: rest => ρ' ← race_exec ra ρ; race_all rest ρ'
  end.

(** ** One handler, or one other step, of a replica at a time *)

(** The replica at which a step happens. *)
Definition actor (a : action) σ : option NodeID :=
  match a with
  | ACampaign i | APropose i _ | AHeartbeat i | AApply i | ARestart _ i => Some i
  | APrepare _ k _ | AElect _ k _ | AReplicate _ k | AAccepted _ k _ | AHeartbeatDone _ k _
  | ACatchUpDone _ k _ => fst <$> tasks σ !! k
  | AHandle _ r => addressee σ r
  end.

Definition busy ρ (i : NodeID) : Prop :=
  exists t r p, threads ρ !! t = Some (r, p) /\ addressee (base ρ) r = Some i.

(** As if every handler held a lock of its replica from start to end. *)
Definition exclusive (ra : race_action) ρ : Prop :=
  match ra with
  | RAct a => forall i, actor a (base ρ) = Some i -> ~ busy ρ i
  | RBegin r => forall i, addressee (base ρ) r = Some i -> ~ busy ρ i
  | RSection _ _ => True
  end.

Inductive exclusive_run : Racing -> list race_action -> Racing -> Prop :=
| er_nil ρ : exclusive_run ρ [] ρ
| er_cons ρ ra ρ1 ras ρ2 :
    exclusive ra ρ -> race_exec ra ρ = Some ρ1 -> exclusive_run ρ1 ras ρ2 -> exclusive_run ρ (ra :: ras) ρ2.

(** ** Steps elsewhere do not see a handler in progress *)

(** [σ] with some replicas replaced. *)
Definition overlay (ov : gmap NodeID (Node S R)) σ : System S R :=
  mkSystem (ov ∪ nodes σ) (tasks σ) (requests σ) (replies σ) (fresh σ) (hvotes σ).

Lemma overlay_lookup ov σ i : ov !! i = None -> nodes (overlay ov σ) !! i = nodes σ !! i.
Proof. intros Hi. simpl. by rewrite lookup_union_r. Qed.

Lemma overlay_set_node ov σ i n : ov !! i = None -> set_node i n (overlay ov σ) = overlay ov (set_node i n σ).
Proof. intros Hi. unfold set_node, overlay. simpl. f_equal. by apply insert_union_r. Qed.

Lemma overlay_nil σ : overlay ∅ σ = σ.
Proof. unfold overlay. rewrite (left_id_L ∅ (∪)). by destruct σ. Qed.
End Racing.
Arguments Racing : clear implicits.

Definition is_handle (a : action) : bool := match a with AHandle _ _ => true | _ => false end.

Section Frame.
Context {S R : Type} {SM : StateMachine S R}.
Implicit Types (σ : System S R) (n : Node S R) (ρ : Racing S R).

Lemma start_accept_overlay ov e k i n slot cmd after on_error σ :
  ov !! i = None ->
  start_accept e k i n slot cmd after (overlay ov on_error) (overlay ov σ) =
  overlay ov (start_accept e k i n slot cmd after on_error σ).
Proof.
  intros Hi. unfold start_accept. destruct (replicate_begin e slot cmd n) as [[n' req]|]; [|done].
  by rewrite overlay_set_node.
Qed.

(** A step at a replica that is not replaced. *)
Lemma exec_overlay ov a σ i :
  is_handle a = false -> actor a σ = Some i -> ov !! i = None -> exec a (overlay ov σ) = overlay ov <$> exec a σ.
Proof.
  intros Hh Ha Hi. destruct a; try done; simpl in Ha;
    try (destruct (tasks σ !! k) as [[j tk]|] eqn:Hk; [|done]); simpl in Ha; simplify_eq; simpl;
    unfold exec_campaign, exec_prepare, exec_elect, exec_propose, exec_replicate, exec_accepted, exec_heartbeat,
      exec_heartbeat_done, exec_catchup_done, exec_apply, exec_restart; simpl;
    rewrite ?Hk; simpl; rewrite lookup_union_r by done; destruct (nodes σ !! i) as [n|]; simpl; try done.
  - destruct (campaign_begin n); simpl; [|done]. by rewrite overlay_set_node.
  - destruct tk; try done. destruct (collect _ _ _ _); simpl; [|done].
    destruct (campaign_prepare _ _ n) as [n' [[preq first]|]]; by rewrite overlay_set_node.
  - destruct tk; try done. destruct (collect _ _ _ _); simpl; [|done].
    destruct (campaign_finish _ _ _ _ n) as [n' [[best last]|]]; by rewrite overlay_set_node.
  - destruct (propose_begin n) as [[n' slot]|]; simpl; [|done]. by rewrite overlay_set_node.
  - destruct tk; try done; simpl.
    + destruct (_ <? _)%N; [done|]. change (drop_task k (overlay ov σ)) with (overlay ov (drop_task k σ)).
      by rewrite start_accept_overlay.
    + rewrite overlay_set_node by done.
      match goal with |- context [drop_task k (overlay ov ?x)] =>
        change (drop_task k (overlay ov x)) with (overlay ov (drop_task k x)) end.
      by rewrite start_accept_overlay.
  - destruct tk; try done. destruct (collect _ _ _ _); simpl; [|done].
    destruct (replicate_finish _ _ _ _ n) as [n' err]. destruct k0, err; by rewrite overlay_set_node.
  - by destruct (IsLeader n).
  - destruct tk; try done. destruct (collect _ _ _ _); simpl; [|done]. by rewrite overlay_set_node.
  - destruct tk; try done. destruct (collect _ _ _ _); simpl; [|done]. by rewrite overlay_set_node.
  - destruct (apply_next n); simpl; [|done]. by rewrite overlay_set_node.
  - f_equal. unfold overlay. simpl. f_equal. by apply insert_union_r.
Qed.

Lemma overlay_same σ i n : nodes σ !! i = Some n -> overlay {[i := n]} σ = σ.
Proof.
  intros Hi. destruct σ as [ns ts rq rp fr hv]. unfold overlay. simpl in *. f_equal.
  rewrite <- insert_union_singleton_l. by apply insert_id.
Qed.

(** ... leaves the other replicas alone. *)
Lemma exec_other a σ σ' i j n :
  is_handle a = false -> actor a σ = Some i -> i <> j -> exec a σ = Some σ' ->
  nodes σ !! j = Some n -> nodes σ' !! j = Some n.
Proof.
  intros Hh Ha Hij He Hj. pose proof (exec_overlay {[j := n]} a σ i Hh Ha) as Hf.
  rewrite lookup_singleton_ne, overlay_same, He in Hf by done. specialize (Hf eq_refl). simpl in Hf.
  injection Hf as Hf. rewrite Hf. simpl. apply lookup_union_Some_l, lookup_singleton_eq.
Qed.

Lemma exec_requests a σ σ' r x :
  exec a σ = Some σ' -> requests σ !! r = Some x -> requests σ' !! r = Some x.
Proof.
  intros He Hr.
  assert (forall tos m σ1, requests σ1 !! r = Some x -> requests (send tos m σ1) !! r = Some x) as Hsend
    by (intros tos m σ1 H; simpl; by apply lookup_app_l_Some).
  assert (forall e k i n slot cmd after s1 s2, requests s1 !! r = Some x -> requests s2 !! r = Some x ->
            requests (start_accept e k i n slot cmd after s1 s2) !! r = Some x) as Hacc.
  { intros. unfold start_accept. destruct (replicate_begin _ _ _ _) as [[n' req]|]; [|done]. by apply Hsend. }
  destruct a; simpl in He;
    unfold exec_handle, exec_campaign, exec_prepare, exec_elect, exec_propose, exec_replicate, exec_accepted, exec_heartbeat,
      exec_heartbeat_done, exec_catchup_done, exec_apply, exec_restart in He;
    repeat match type of He with
    | context [mbind _ ?o] => destruct o eqn:?; simpl in He; [|done]
    | context [match ?y with _ => _ end] => destruct y eqn:?; simpl in He; try done
    end; simplify_eq/=; try done; try (by apply lookup_app_l_Some); by apply Hacc.
Qed.

(** ** The simulation *)

(** [ρ] is [σ] but for the replicas whose handler is half-way. *)
Record sim ρ σ (ov : gmap NodeID (Node S R)) : Prop := {
  sim_base : base ρ = overlay ov σ;
  sim_thread t r p : threads ρ !! t = Some (r, p) ->
    exists rid i msg n n0, requests σ !! r = Some (rid, i, msg) /\ ov !! i = Some n /\ nodes σ !! i = Some n0 /\
      undisturbed n0 (handler (id n0) msg) n p;
  sim_busy i : is_Some (ov !! i) -> busy ρ i;
  sim_alone t1 t2 r1 r2 p1 p2 : threads ρ !! t1 = Some (r1, p1) -> threads ρ !! t2 = Some (r2, p2) ->
    addressee σ r1 = addressee σ r2 -> t1 = t2;
  sim_fresh t : started ρ <= t -> threads ρ !! t = None;
}.

Lemma sim_idle ρ σ ov i : sim ρ σ ov -> ~ busy ρ i -> ov !! i = None.
Proof. intros Hs Hb. destruct (ov !! i) eqn:E; [|done]. exfalso. apply Hb, (sim_busy _ _ _ Hs). by rewrite E. Qed.

Lemma sim_addressee ρ σ ov r : sim ρ σ ov -> addressee (base ρ) r = addressee σ r.
Proof. intros Hs. by rewrite (sim_base _ _ _ Hs). Qed.

Lemma sim_begin ρ σ ov r rid to msg n :
  sim ρ σ ov -> requests (base ρ) !! r = Some (rid, to, msg) -> nodes (base ρ) !! to = Some n -> ~ busy ρ to ->
  sim (mkRacing (base ρ) (<[started ρ := (r, handler (id n) msg)]> (threads ρ)) (Datatypes.S (started ρ))) σ (<[to := n]> ov).
Proof.
  intros Hs Hr Hn Hb. pose proof (sim_idle _ _ _ _ Hs Hb) as Hov. pose proof (sim_base _ _ _ Hs) as Hbase.
  rewrite Hbase in Hr, Hn. rewrite overlay_lookup in Hn by done. simpl in Hr.
  assert (addressee (base ρ) r = Some to) as Ha by (unfold addressee; rewrite Hbase; simpl; by rewrite Hr).
  assert (forall t r' p, threads ρ !! t = Some (r', p) -> addressee σ r' <> Some to) as Hno.
  { intros t r' p Ht Heq. apply Hb. exists t, r', p. by rewrite (sim_addressee _ _ _ r' Hs). }
  split; simpl.
  - rewrite Hbase. unfold overlay. f_equal. apply map_eq. intros j. rewrite !lookup_union, lookup_insert.
    case_decide; subst; [|done]. by rewrite Hn, Hov.
  - intros t r' p. rewrite lookup_insert. case_decide as Hd.
    + intros [= <- <-]. exists rid, to, msg, n, n. rewrite lookup_insert_eq. split_and!; [done..|constructor].
    + intros Ht. destruct (sim_thread _ _ _ Hs t r' p Ht) as (rid' & i & m & n1 & n0 & H1 & H2 & H3 & H4).
      exists rid', i, m, n1, n0. rewrite lookup_insert_ne; [done|]. intros <-. congruence.
  - intros i. rewrite lookup_insert. case_decide as Hd.
    + intros _. subst. exists (started ρ), r, (handler (id n) msg). simpl. by rewrite lookup_insert_eq.
    + intros Hi. destruct (sim_busy _ _ _ Hs i Hi) as (t & r' & p & Ht & Hi'). exists t, r', p. simpl.
      rewrite lookup_insert_ne; [done|]. intros <-. by rewrite (sim_fresh _ _ _ Hs) in Ht.
  - assert (addressee σ r = Some to) as Har by (by rewrite <- (sim_addressee _ _ _ r Hs)).
    intros t1 t2 r1 r2 p1 p2. rewrite !lookup_insert. do 2 case_decide; [congruence|..].
    + intros [= <- <-] H2 Heq. exfalso. apply (Hno t2 r2 p2 H2). congruence.
    + intros H1 [= <- <-] Heq. exfalso. apply (Hno t1 r1 p1 H1). congruence.
    + apply (sim_alone _ _ _ Hs).
  - intros t Ht. rewrite lookup_insert_ne by lia. apply (sim_fresh _ _ _ Hs). lia.
Qed.

(** Threads of a simulated state, seen from one of them. *)
Lemma sim_threads_elsewhere ρ σ ov t r p rid to msg t' r' p' :
  sim ρ σ ov -> threads ρ !! t = Some (r, p) -> requests σ !! r = Some (rid, to, msg) ->
  t' <> t -> threads ρ !! t' = Some (r', p') -> addressee σ r' <> Some to.
Proof.
  intros Hs Ht Hr Hne Ht' Ha. apply Hne. eapply (sim_alone _ _ _ Hs); eauto. rewrite Ha. unfold addressee. by rewrite Hr.
Qed.

Lemma addressee_Some σ r rid i msg : requests σ !! r = Some (rid, i, msg) -> addressee σ r = Some i.
Proof. unfold addressee. by intros ->. Qed.

Lemma sim_section ρ σ ov e t r f rid to msg n n' g :
  sim ρ σ ov -> threads ρ !! t = Some (r, HStep f) -> requests (base ρ) !! r = Some (rid, to, msg) ->
  nodes (base ρ) !! to = Some n -> f e n = (n', HStep g) ->
  sim (mkRacing (set_node to n' (base ρ)) (<[t := (r, HStep g)]> (threads ρ)) (started ρ)) σ (<[to := n']> ov).
Proof.
  intros Hs Ht Hr Hn Hf. pose proof (sim_base _ _ _ Hs) as Hbase. rewrite Hbase in Hr, Hn. simpl in Hr.
  destruct (sim_thread _ _ _ Hs t r _ Ht) as (rid' & i & m & n1 & n0 & H1 & H2 & H3 & H4).
  rewrite H1 in Hr. injection Hr as -> -> ->. simpl in Hn. rewrite (lookup_union_Some_l _ _ _ _ H2) in Hn.
  injection Hn as ->. split; simpl.
  - rewrite Hbase. unfold set_node, overlay. simpl. f_equal. apply insert_union_l.
  - intros t' r' p. rewrite lookup_insert. case_decide as Hd.
    + intros [= <- <-]. exists rid, to, msg, n', n0. rewrite lookup_insert_eq. split_and!; [done..|].
      by eapply undisturbed_snoc.
    + intros Ht'. destruct (sim_thread _ _ _ Hs t' r' p Ht') as (rid' & i & m & n1 & m0 & G1 & G2 & G3 & G4).
      exists rid', i, m, n1, m0. rewrite lookup_insert_ne; [done|]. intros <-.
      apply (sim_threads_elsewhere _ _ _ _ _ _ _ _ _ t' r' p Hs Ht H1 (not_eq_sym Hd) Ht'). by eapply addressee_Some.
  - intros i. rewrite lookup_insert. case_decide as Hd.
    + intros _. subst. exists t, r, (HStep g). simpl. rewrite lookup_insert_eq. split; [done|].
      rewrite Hbase. by eapply addressee_Some.
    + intros Hi. destruct (sim_busy _ _ _ Hs i Hi) as (t' & r' & p & Ht' & Hi').
      destruct (decide (t' = t)) as [->|Hne].
      * rewrite Ht in Ht'. injection Ht' as <- <-. rewrite Hbase in Hi'. simpl in Hi'.
        unfold addressee in Hi'. simpl in Hi'. rewrite H1 in Hi'. by injection Hi' as ->.
      * exists t', r', p. simpl. by rewrite lookup_insert_ne.
  - intros t1 t2 r1 r2 p1 p2. rewrite !lookup_insert.
    do 2 case_decide; subst; intros G1 G2 Heq; simplify_eq; try done; eapply (sim_alone _ _ _ Hs); eauto.
  - intros t' Hlt. rewrite lookup_insert_ne; [by apply (sim_fresh _ _ _ Hs)|]. intros <-.
    by rewrite (sim_fresh _ _ _ Hs) in Ht.
Qed.

Lemma overlay_settle ov σ to n : set_node to n (overlay ov σ) = overlay (delete to ov) (set_node to n σ).
Proof.
  unfold set_node, overlay. simpl. f_equal. apply map_eq. intros j. rewrite lookup_union, lookup_delete, !lookup_insert.
  case_decide; [done|]. by rewrite lookup_union.
Qed.

Lemma finish_overlay ov σ rid to msg n rep fetch :
  finish_handle rid to msg n rep fetch (overlay ov σ) =
  overlay (delete to ov) (finish_handle rid to msg n rep fetch σ).
Proof.
  unfold finish_handle. rewrite overlay_settle.
  destruct (bool_decide _ && _), fetch as [[[from first] ci]|]; done.
Qed.

Lemma finish_nodes σ rid to msg n rep fetch :
  nodes (finish_handle rid to msg n rep fetch σ) = <[to := n]> (nodes σ).
Proof. unfold finish_handle. by destruct (bool_decide _ && _), fetch as [[[from first] ci]|]. Qed.

Lemma finish_requests σ rid to msg n rep fetch r x :
  requests σ !! r = Some x -> requests (finish_handle rid to msg n rep fetch σ) !! r = Some x.
Proof.
  intros Hr. unfold finish_handle. destruct (bool_decide _ && _), fetch as [[[from first] ci]|]; simpl; try done;
    by apply lookup_app_l_Some.
Qed.

Lemma sim_finish ρ σ ov e t r f rid to msg n n' rep fetch :
  sim ρ σ ov -> threads ρ !! t = Some (r, HStep f) -> requests (base ρ) !! r = Some (rid, to, msg) ->
  nodes (base ρ) !! to = Some n -> f e n = (n', HDone rep fetch) ->
  exists e' σ', exec (AHandle e' r) σ = Some σ' /\
    sim (mkRacing (finish_handle rid to msg n' rep fetch (base ρ)) (delete t (threads ρ)) (started ρ)) σ' (delete to ov).
Proof.
  intros Hs Ht Hr Hn Hf. pose proof (sim_base _ _ _ Hs) as Hbase. rewrite Hbase in Hr, Hn. simpl in Hr.
  destruct (sim_thread _ _ _ Hs t r _ Ht) as (rid' & i & m & n1 & n0 & H1 & H2 & H3 & H4).
  rewrite H1 in Hr. injection Hr as -> -> ->. simpl in Hn. rewrite (lookup_union_Some_l _ _ _ _ H2) in Hn.
  injection Hn as ->. destruct (handler_undisturbed n0 msg n' rep fetch) as [e' He'].
  { by eapply undisturbed_snoc. }
  set (σ' := finish_handle rid to msg n' rep fetch σ). exists e', σ'. split.
  { simpl. unfold exec_handle. rewrite H1. simpl. rewrite H3. simpl. by rewrite He'. }
  assert (forall r' x, requests σ !! r' = Some x -> requests σ' !! r' = Some x) as Hreq by (intros; by apply finish_requests).
  assert (forall t' r' p, t' <> t -> threads ρ !! t' = Some (r', p) -> addressee σ r' <> Some to) as Helse
    by (intros t' r' p Hne Ht'; exact (sim_threads_elsewhere _ _ _ _ _ _ _ _ _ _ _ _ Hs Ht H1 Hne Ht')).
  assert (forall t' r' p, threads ρ !! t' = Some (r', p) -> addressee σ' r' = addressee σ r') as Hadd.
  { intros t' r' p Ht'. destruct (sim_thread _ _ _ Hs _ _ _ Ht') as (? & ? & ? & ? & ? & G1 & _).
    by rewrite (addressee_Some _ _ _ _ _ G1), (addressee_Some _ _ _ _ _ (Hreq _ _ G1)). }
  split; simpl.
  - rewrite Hbase. apply finish_overlay.
  - intros t' r' p. rewrite lookup_delete. case_decide as Hd; [done|]. intros Ht'.
    destruct (sim_thread _ _ _ Hs t' r' p Ht') as (rid' & i & m & m1 & m0 & G1 & G2 & G3 & G4).
    assert (i <> to) as Hi by (intros ->; apply (Helse t' r' p (not_eq_sym Hd) Ht'); by eapply addressee_Some).
    exists rid', i, m, m1, m0. rewrite lookup_delete_ne by done. unfold σ'. rewrite finish_nodes, lookup_insert_ne by done.
    split_and!; auto.
  - intros i. rewrite lookup_delete. case_decide as Hd; [by intros [? ?]|]. intros Hi.
    destruct (sim_busy _ _ _ Hs i Hi) as (t' & r' & p & Ht' & Hi').
    assert (t' <> t) as Hne.
    { intros ->. rewrite Ht in Ht'. injection Ht' as <- <-. rewrite (sim_addressee _ _ _ r Hs) in Hi'.
      rewrite (addressee_Some _ _ _ _ _ H1) in Hi'. congruence. }
    exists t', r', p. simpl. rewrite lookup_delete_ne by done. split; [done|].
    rewrite Hbase, finish_overlay. change (addressee (overlay ?o ?s) r') with (addressee s r').
    fold σ'. by rewrite (Hadd _ _ _ Ht'), <- (sim_addressee _ _ _ r' Hs).
  - intros t1 t2 r1 r2 p1 p2. rewrite !lookup_delete. do 2 case_decide; try done.
    intros G1 G2. rewrite (Hadd _ _ _ G1), (Hadd _ _ _ G2). exact (sim_alone _ _ _ Hs _ _ _ _ _ _ G1 G2).
  - intros t' Hlt. rewrite lookup_delete. case_decide; [done|]. by apply (sim_fresh _ _ _ Hs).
Qed.

Lemma sim_act ρ σ ov a ρ' :
  sim ρ σ ov -> exclusive (RAct a) ρ -> race_exec (RAct a) ρ = Some ρ' ->
  is_handle a = false /\ exists σ', exec a σ = Some σ' /\ sim ρ' σ' ov.
Proof.
  intros Hs Hex He. assert (is_handle a = false) as Hh by (by destruct a). split; [done|].
  pose proof (sim_base _ _ _ Hs) as Hbase. simpl in Hex. rewrite Hbase in Hex.
  destruct (actor a σ) as [i|] eqn:Ha.
  2: { exfalso. destruct a; simpl in Ha; try done; simpl in He; rewrite Hbase in He; simpl in He;
       unfold exec_prepare, exec_elect, exec_replicate, exec_accepted, exec_heartbeat_done, exec_catchup_done in He;
       simpl in He; by destruct (tasks σ !! k). }
  assert (~ busy ρ i) as Hb by (apply Hex; destruct a; exact Ha). pose proof (sim_idle _ _ _ _ Hs Hb) as Hi.
  pose proof (exec_overlay ov a σ i Hh Ha Hi) as Hov.
  assert (exists σ', exec a σ = Some σ' /\ ρ' = mkRacing (overlay ov σ') (threads ρ) (started ρ)) as (σ' & Hσ' & ->).
  { assert (exists b, exec a (base ρ) = Some b /\ base ρ' = b /\ threads ρ' = threads ρ /\ started ρ' = started ρ)
      as (b & Hb1 & Hb2 & Hb3 & Hb4).
    { unfold race_exec in He.
      destruct a; try done; destruct (exec _ (base ρ)) as [b|] eqn:Hb1; try done;
        injection He as <-; exists b; split_and!; try done.
      apply map_filter_id. intros t [r p] Ht Hr. simpl in *. apply Hb. exists t, r, p. simplify_eq. done. }
    rewrite Hbase, Hov in Hb1. destruct (exec a σ) as [σ'|]; simpl in Hb1; [|done]. injection Hb1 as <-.
    exists σ'. split; [done|]. destruct ρ'. simpl in *. by subst. }
  exists σ'. split; [done|]. split; simpl; [done|..].
  - intros t r p Ht. destruct (sim_thread _ _ _ Hs t r p Ht) as (rid & j & m & n1 & n0 & G1 & G2 & G3 & G4).
    exists rid, j, m, n1, n0. split_and!; [by eapply exec_requests|done| |done].
    eapply exec_other; eauto. intros <-. congruence.
  - intros j Hj. destruct (sim_busy _ _ _ Hs j Hj) as (t & r & p & Ht & Hj'). exists t, r, p. split; [done|]. simpl.
    rewrite (sim_addressee _ _ _ r Hs) in Hj'. change (addressee (overlay ov σ') r) with (addressee σ' r).
    destruct (sim_thread _ _ _ Hs t r p Ht) as (rid & j' & m & n1 & n0 & G1 & _).
    rewrite (addressee_Some _ _ _ _ _ G1) in Hj'. injection Hj' as ->.
    eapply addressee_Some, exec_requests; eauto.
  - intros t1 t2 r1 r2 p1 p2 G1 G2.
    destruct (sim_thread _ _ _ Hs _ _ _ G1) as (? & ? & ? & ? & ? & E1 & _).
    destruct (sim_thread _ _ _ Hs _ _ _ G2) as (? & ? & ? & ? & ? & E2 & _).
    rewrite (addressee_Some _ _ _ _ _ (exec_requests _ _ _ _ _ Hσ' E1)),
      (addressee_Some _ _ _ _ _ (exec_requests _ _ _ _ _ Hσ' E2)),
      <- (addressee_Some _ _ _ _ _ E1), <- (addressee_Some _ _ _ _ _ E2). exact (sim_alone _ _ _ Hs _ _ _ _ _ _ G1 G2).
  - apply (sim_fresh _ _ _ Hs).
Qed.

Lemma sim_start σ : sim (race_start σ) σ ∅.
Proof.
  split; simpl; [by rewrite overlay_nil|done|by intros i [? ?]|done|done].
Qed.

Definition other_actions (ras : list race_action) : list action :=
  omap (fun ra => match ra with RAct a => Some a | _ => None end) ras.

Lemma sim_run ρ ras ρ' σ ov :
  exclusive_run ρ ras ρ' -> sim ρ σ ov ->
  exists acts σ' ov', exec_all acts σ = Some σ' /\ sim ρ' σ' ov' /\
    List.filter (fun a => negb (is_handle a)) acts = other_actions ras.
Proof.
  intros Hr. revert σ ov. induction Hr as [ρ|ρ ra ρ1 ras ρ2 Hex He Hrun IH]; intros σ ov Hs.
  { exists [], σ, ov. done. }
  assert (forall σ1 ov1 a, sim ρ1 σ1 ov1 -> exec_all a σ = Some σ1 ->
            List.filter (fun a => negb (is_handle a)) a = other_actions [ra] ->
            exists acts σ' ov', exec_all acts σ = Some σ' /\ sim ρ2 σ' ov' /\
              List.filter (fun a => negb (is_handle a)) acts = other_actions (ra :: ras)) as Hnext.
  { intros σ1 ov1 a H1 H2 H3. destruct (IH σ1 ov1 H1) as (acts & σ' & ov' & G1 & G2 & G3).
    exists (a ++ acts), σ', ov'. split_and!; [|done|].
    - clear -H2 G1. revert σ H2. induction a as [|x a IHa]; intros σ; simpl; [by intros [= ->]|].
      destruct (exec x σ); simpl; [apply IHa|done].
    - rewrite List.filter_app, H3, G3. by destruct ra. }
  destruct ra as [a|r|e t].
  - destruct (sim_act _ _ _ _ _ Hs Hex He) as (Hh & σ1 & Hσ1 & Hs1). apply (Hnext σ1 ov [a] Hs1).
    + simpl. by rewrite Hσ1.
    + simpl. by rewrite Hh.
  - simpl in He. destruct (requests (base ρ) !! r) as [[[rid to] msg]|] eqn:Hr'; simpl in He; [|done].
    destruct (nodes (base ρ) !! to) as [n|] eqn:Hn; simpl in He; [|done]. injection He as <-.
    eapply (Hnext σ _ []); [|done|done]. eapply sim_begin; eauto. apply Hex. unfold addressee. by rewrite Hr'.
  - simpl in He. destruct (threads ρ !! t) as [[r p]|] eqn:Ht; simpl in He; [|done].
    destruct (requests (base ρ) !! r) as [[[rid to] msg]|] eqn:Hr'; simpl in He; [|done].
    destruct (nodes (base ρ) !! to) as [n|] eqn:Hn; simpl in He; [|done].
    destruct p as [|f]; [done|]. destruct (f e n) as [n' [rep fetch|g]] eqn:Hf; injection He as <-.
    + destruct (sim_finish _ _ _ _ _ _ _ _ _ _ _ _ _ _ Hs Ht Hr' Hn Hf) as (e' & σ1 & Hσ1 & Hs1).
      apply (Hnext σ1 _ [AHandle e' r] Hs1); [|done]. simpl in *. by rewrite Hσ1.
    + eapply (Hnext σ _ []); [|done|done]. by eapply sim_section.
Qed.

End Frame.

(** ** Checking a run *)

Section Checked.
Context {S R : Type} {SM : StateMachine S R}.
Implicit Types (ρ : Racing S R).

Lemma busy_exists ρ i : map_Exists (fun _ rp => addressee (base ρ) rp.1 = Some i) (threads ρ) <-> busy ρ i.
Proof. split; [intros (t & [r p] & Ht & Hi); by exists t, r, p|intros (t & r & p & Ht & Hi); by exists t, (r, p)]. Qed.

#[export] Instance busy_dec ρ i : Decision (busy ρ i).
Proof. refine (cast_if (decide (map_Exists (fun _ rp => addressee (base ρ) rp.1 = Some i) (threads ρ)))); by rewrite <- busy_exists. Defined.

Definition not_busy ρ (o : option NodeID) : bool := match o with Some i => negb (bool_decide (busy ρ i)) | None => true end.

Definition exclusiveb (ra : race_action) ρ : bool :=
  match ra with
  | RAct a => not_busy ρ (actor a (base ρ))
  | RBegin r => not_busy ρ (addressee (base ρ) r)
  | RSection _ _ => true
  end.

Lemma exclusiveb_spec ra ρ : exclusiveb ra ρ = true -> exclusive ra ρ.
Proof.
  assert (forall o, not_busy ρ o = true -> forall i, o = Some i -> ~ busy ρ i) as Ho.
  { intros o Ho i ->. simpl in Ho. by apply negb_true_iff, bool_decide_eq_false in Ho. }
  destruct ra; simpl; [apply Ho|apply Ho|done].
Qed.

Fixpoint exclusive_all (ras : list race_action) ρ : option (Racing S R) :=
  match ras with
  | [] => Some ρ
  | ra :: rest => if exclusiveb ra ρ then ρ' ← race_exec ra ρ; exclusive_all rest ρ' else None
  end.

Lemma exclusive_all_run ras ρ ρ' : exclusive_all ras ρ = Some ρ' -> exclusive_run ρ ras ρ'.
Proof.
  revert ρ. induction ras as [|ra ras IH]; intros ρ; simpl; [intros [= ->]; constructor|].
  destruct (exclusiveb ra ρ) eqn:E; [|done]. destruct (race_exec ra ρ) as [ρ1|] eqn:He; [|done]. simpl.
  intros Hr. econstructor; eauto using exclusiveb_spec.
Qed.
End Checked.

(** ** Runs *)

Module Races.
Import Journal.

(** The whole handler of request [r], as thread [t], in [k] sections. *)
Definition handled (r t k : nat) : list race_action := RBegin r :: replicate k (RSection e0 t).

(** The steps and deliveries of a run that break a rule of PaxosSteps.v. *)
Fixpoint race_violations (k : nat) (ras : list race_action) (ρ : Racing state unit) : list nat :=
  match ras with
  | [] => []
  | ra :: rest =>
      (if match ra with
          | RAct a => disciplined a (base ρ)
          | RBegin r => disciplined (AHandle e0 r) (base ρ)
          | RSection _ _ => true
          end then [] else [k]) ++
      match race_exec ra ρ with Some ρ' => race_violations (k + 1) rest ρ' | None => [] end
  end.

Definition race_outcome (g : list NodeID) (ras : list race_action) (i j : NodeID)
    : option (option state * option state) :=
  (fun ρ => (applied i (base ρ), applied j (base ρ))) <$> race_all ras (race_start (start g)).

(** A is elected by B and proposes x. *)
Definition elect_A : list race_action :=
  [RAct (ACampaign "A")] ++ handled 0 0 2 ++ [RAct (APrepare e0 1 [0])] ++ handled 2 1 4 ++
  [RAct (AElect e0 1 [1]); RAct (AReplicate e0 1); RAct (APropose "A" "x"); RAct (AReplicate e0 3)].

(** C has checked the ACCEPT of x against its promise when it promises B's higher
    ballot, reporting no entry; then it stores x and says so. *)
Definition interleaved_run : list race_action :=
  elect_A ++ [RBegin 5; RSection e0 2; RSection e0 2] ++
  [RAct (ACampaign "B")] ++ handled 7 3 2 ++ [RAct (APrepare e0 6 [2])] ++ handled 9 4 4 ++ [RAct (AElect e0 6 [3])] ++
  [RSection e0 2; RSection e0 2; RAct (AAccepted e0 3 [4]); RAct (AApply "A")] ++
  [RAct (AReplicate e0 6); RAct (APropose "B" "y"); RAct (AReplicate e0 8)] ++ handled 11 5 3 ++
  [RAct (AAccepted e0 8 [5]); RAct (AApply "B")].

(** Two replicas apply different commands at slot 1, although every step and every
    delivery keeps the rules of PaxosSteps.v: all that is missing is that C does
    one thing at a time. *)
Theorem interleaved_handlers_disagree :
  race_outcome g3 interleaved_run "A" "B" = Some (Some [(1%N, "x")], Some [(1%N, "y")]) /\
  race_violations 0 interleaved_run (race_start (start g3)) = [].
Proof. split; vm_compute; reflexivity. Qed.

(** A replicates x while handlers of B and C take turns section by section. *)
Definition orderly_run : list race_action :=
  elect_A ++ [RBegin 4; RBegin 5; RSection e0 2; RSection e0 3; RSection e0 3; RSection e0 2; RSection e0 3; RSection e0 2;
    RSection e0 3; RAct (AAccepted e0 3 [2]); RAct (AApply "A")].


(** Two PREPAREs that both read the promise before either writes it: the lower
    one is written last, and the replica has promised less than it said. *)
Definition crossed_prepares : list race_action :=
  [RAct (ACampaign "A")] ++ handled 0 0 2 ++ [RAct (APrepare e0 1 [0]); RAct (ACampaign "B")] ++ handled 5 1 2 ++
  [RAct (APrepare e0 4 [1])] ++
  [RBegin 3; RBegin 7; RSection e0 2; RSection e0 3; RSection e0 3; RSection e0 2; RSection e0 2; RSection e0 2;
   RSection e0 3; RSection e0 3].

Theorem crossed_prepares_lower_the_promise :
  (fun ρ => (Promised <$> nodes (base ρ) !! "C", (fun r => (mOK r.2, mBallot r.2)) <$> drop 2 (replies (base ρ)))) <$>
    race_all crossed_prepares (race_start (start g3)) =
  Some (Some (mkBallot 1 "A"), [(true, mkBallot 1 "A"); (true, mkBallot 1 "B")]).
Proof. vm_compute. reflexivity. Qed.
End Races.
