(* ===== verification/PaxosValidity.v ===== *)
(** * Nothing comes out of thin air

    Every command in a replica's log, in a message or in a goroutine of a Paxos
    group was proposed, for the slot it is found at, or is the no-op with which a
    new leader fills a gap.  This holds of every run of PaxosSystem.v, whether or
    not it keeps the rules of PaxosSteps.v. *)

From S2P Require Import Prelude PaxosTypes PaxosLog PaxosNode PaxosVoting PaxosSystem PaxosElection PaxosInvariant PaxosSteps PaxosSafety.

Section Validity.
Context {S R : Type} {SM : StateMachine S R}.
(** [P s cmd]: the command may be found at the slot. *)
Context (P : N -> bytes -> Prop) (Pnoop : forall s, P s "").
Implicit Types (σ : System S R) (n : Node S R) (e : env).

Definition entry_src (en : Entry) : Prop := P (eSlot en) (eCommand en).
Definition log_src (l : Log) : Prop := forall s en, entries l !! s = Some en -> entry_src en.
Definition best_src (best : gmap N Entry) : Prop := forall s en, best !! s = Some en -> P s (eCommand en).

Definition task_src (t : task) : Prop :=
  match t with
  | TPropose _ slot cmd => P slot cmd
  | TRecover _ best _ _ | TAccept _ _ (Recovering best _) => best_src best
  | _ => True
  end.

Record sourced σ : Prop := {
  sr_nodes i n : nodes σ !! i = Some n -> log_src (log n);
  sr_tasks k i t : tasks σ !! k = Some (i, t) -> task_src t;
  sr_requests rid to m : (rid, to, m) ∈ requests σ -> mKind m = KindAccept -> P (mSlot m) (mCommand m);
  sr_replies rid to q rep en : (rid, to, q, rep) ∈ replies σ -> en ∈ mEntries rep -> entry_src en;
  sr_votes i en : (i, en) ∈ hvotes σ -> entry_src en;
}.

(** ** Parts of a node *)

Lemma log_src_same l l' : entries l' = entries l -> log_src l -> log_src l'.
Proof. intros He Hl s en. rewrite He. apply Hl. Qed.

Lemma storeEntry_src en l : entry_src en -> log_src l -> log_src (storeEntry en l).
Proof. intros He Hl s en'. simpl. rewrite lookup_insert. case_decide; [by intros [= <-]|apply Hl]. Qed.

Lemma Accept_src ok en l l' : Accept ok en l = Some l' -> entry_src en -> log_src l -> log_src l'.
Proof. unfold Accept. destruct ok; [|done]. intros [= <-]. apply storeEntry_src. Qed.

Lemma Promise_src ok b l l' : Promise ok b l = Some l' -> log_src l -> log_src l'.
Proof. unfold Promise. destruct ok; [|done]. by intros [= <-]. Qed.

Lemma stepDown_src e seen n : log_src (log n) -> log_src (log (stepDown e seen n)).
Proof. apply log_src_same, stepDown_log_cases. Qed.

Lemma EntriesFrom_src first l en : log_src l -> en ∈ EntriesFrom first l -> entry_src en.
Proof. intros Hl. unfold EntriesFrom. rewrite list_elem_of_omap. intros (s & _ & Hs). by eapply Hl. Qed.

Lemma Handle_src e msg n n' rep fetch :
  Handle e msg n = (n', rep, fetch) -> log_src (log n) -> (mKind msg = KindAccept -> P (mSlot msg) (mCommand msg)) ->
  log_src (log n') /\ forall en, en ∈ mEntries rep -> entry_src en.
Proof.
  assert (forall en, en ∈ @nil Entry -> entry_src en) as Hnil by (intros en Hen; by apply not_elem_of_nil in Hen).
  unfold Handle. intros Hh Hl Hm. destruct (mKind msg) eqn:Hk; try (injection Hh as <- <- <-; by split).
  - unfold handlePrepare in Hh. destruct (Less _ _); [injection Hh as <- <- <-; by split|].
    destruct (Promise _ _ _) as [l|] eqn:Hp; injection Hh as <- <- <-; [|by split].
    apply Promise_src in Hp; [|done]. split; [done|]. intros en. by apply EntriesFrom_src.
  - unfold handleAccept in Hh. destruct (Less _ _); [injection Hh as <- <- <-; by split|].
    destruct (if Less (Promised n) _ then _ else _) as [l|] eqn:Hp; [|injection Hh as <- <- <-; by split].
    assert (log_src l) as Hl1.
    { destruct (Less (Promised n) _); [by eapply Promise_src|by injection Hp as <-]. }
    destruct (Accept _ _ l) as [l'|] eqn:Ha; injection Hh as <- <- <-; (split; [|done]); [|done].
    simpl. eapply Accept_src; eauto. by apply Hm.
  - unfold handleCommit in Hh. destruct (Less _ _); [injection Hh as <- <- <-; by split|].
    injection Hh as <- <- <-. split; [by destruct (_ && _)|done].
  - injection Hh as <- <- <-. split; [done|]. intros en. by apply EntriesFrom_src.
  - injection Hh as <- <- <-. split; [by destruct (negb _)|done].
Qed.

Lemma catchUp_loop_src ok ch slots l acc l' acc' :
  catchUp_loop ok ch slots l acc = (l', acc') -> (forall s en, ch !! s = Some en -> entry_src en) ->
  log_src l -> log_src l'.
Proof.
  intros Hc Hch. revert l acc Hc. induction slots as [|s slots IH]; intros l acc; simpl; [by intros [= <- <-]|].
  destruct (ch !! s) as [en|] eqn:Hs; [|by intros [= <- <-]].
  destruct (match Get s l with Some _ => _ | None => _ end); [apply IH|].
  destruct (Accept ok en l) as [l1|] eqn:Ha; [|by intros [= <- <-]]. intros Hc Hl. apply (IH _ _ Hc).
  by eapply Accept_src, Hl; [|eapply Hch].
Qed.

Lemma chosen_map_src es s en : chosen_map es !! s = Some en -> en ∈ es.
Proof.
  unfold chosen_map. induction es as [|x es IH] using rev_ind; simpl; [by rewrite lookup_empty|].
  rewrite fold_left_app. simpl. rewrite lookup_insert. case_decide; [intros [= <-]|intros Hx%IH]; apply elem_of_app; [right; by left|by left].
Qed.

(** ** Parts of a step *)

Lemma sourced_set_node i n σ : log_src (log n) -> sourced σ -> sourced (set_node i n σ).
Proof.
  intros Hn [H1 H2 H3 H4 H5]. split; simpl; try done. intros j m. rewrite lookup_insert. case_decide; [by intros [= <-]|apply H1].
Qed.

Lemma sourced_set_task k i t σ : task_src t -> sourced σ -> sourced (set_task k i t σ).
Proof.
  intros Ht [H1 H2 H3 H4 H5]. split; simpl; try done. intros k' j t'. rewrite lookup_insert.
  case_decide; [by intros [= _ <-]|apply H2].
Qed.

Lemma sourced_drop_task k σ : sourced σ -> sourced (drop_task k σ).
Proof. intros [H1 H2 H3 H4 H5]. split; simpl; try done. intros k' j t'. rewrite lookup_delete. case_decide; [done|apply H2]. Qed.

Lemma sourced_spawn i t σ : task_src t -> sourced σ -> sourced (spawn i t σ).
Proof.
  intros Ht [H1 H2 H3 H4 H5]. split; simpl; try done. intros k' j t'. rewrite lookup_insert.
  case_decide; [by intros [= _ <-]|apply H2].
Qed.

Lemma sourced_send tos m σ :
  (mKind m = KindAccept -> P (mSlot m) (mCommand m)) -> sourced σ -> sourced (send tos m σ).
Proof.
  intros Hm [H1 H2 H3 H4 H5]. split; simpl; try done. intros rid to m' [Hin|(to' & [= _ _ ->] & _)]%elem_of_round; [by eapply H3|done].
Qed.

Lemma sourced_add_reply r to q rep σ :
  (forall en, en ∈ mEntries rep -> entry_src en) -> sourced σ -> sourced (add_reply r to q rep σ).
Proof.
  intros Hr [H1 H2 H3 H4 H5]. split; simpl; try done.
  intros r' to' q' rep' en [Hin|[= _ _ _ ->]%list_elem_of_singleton]%elem_of_app; [by eapply H4|apply Hr].
Qed.

Lemma sourced_add_vote i en σ : entry_src en -> sourced σ -> sourced (add_vote i en σ).
Proof.
  intros He [H1 H2 H3 H4 H5]. split; simpl; try done.
  intros j en' [Hin|[= _ ->]%list_elem_of_singleton]%elem_of_app; [by eapply H5|done].
Qed.

Lemma collect_sourced rid req picks out σ en to rep :
  sourced σ -> collect rid req (replies σ) picks = Some out -> (to, rep) ∈ out -> en ∈ mEntries rep -> entry_src en.
Proof. intros Hs Hc Hin He. apply collect_spec in Hc as [_ Hc]. by eapply (sr_replies _ Hs); [apply Hc|]. Qed.

Lemma recovered_src best slot : best_src best -> P slot (recovered best slot).
Proof. intros Hb. unfold recovered. destruct (best !! slot) eqn:E; [by eapply Hb|done]. Qed.

Lemma start_accept_src e k i n slot cmd after on_error σ :
  sourced σ -> sourced on_error -> log_src (log n) -> P slot cmd ->
  (match after with Recovering best _ => best_src best | Proposing => True end) ->
  sourced (start_accept e k i n slot cmd after on_error σ).
Proof.
  intros Hs He Hl Hp Ha. unfold start_accept, replicate_begin. destruct (negb (IsLeader n)); [done|].
  destruct (Accept _ _ _) as [l|] eqn:Hacc; [|done].
  apply sourced_set_task; [by destruct after|]. apply sourced_send; [done|]. apply sourced_add_vote; [done|].
  apply sourced_set_node; [|done]. by eapply Accept_src.
Qed.

(** ** Steps *)

Lemma campaign_prepare_src e rs n : log_src (log n) -> log_src (log (campaign_prepare e rs n).1).
Proof.
  intros Hl. unfold campaign_prepare. destruct (negb _); [by apply stepDown_src|]. destruct (negb _); [done|].
  destruct (Promise _ _ _) as [l|] eqn:Hp; cbn [fst]; [by eapply Promise_src|by apply stepDown_src].
Qed.

Lemma campaign_finish_src e b first (out : list (NodeID * Message)) n :
  log_src (log n) -> (forall to rep en, (to, rep) ∈ out -> en ∈ mEntries rep -> entry_src en) ->
  log_src (log (campaign_finish e b first out.*2 n).1) /\
  match (campaign_finish e b first out.*2 n).2 with Some (best, _) => best_src best | None => True end.
Proof.
  intros Hl Hout. unfold campaign_finish, count_promises.
  set (t := fold_left tally_reply out.*2 (mkTally 1 (EntriesFrom first (log n)) b)).
  destruct (votes t <? quorum n); cbn [fst snd].
  { split; [|done]. apply stepDown_src. destruct (Less _ _); [|done]. unfold try_promise.
    destruct (Promise _ _ _) as [l|] eqn:Hp; [by eapply Promise_src|done]. }
  unfold becomeLeader. pose proof (adopt_spec first (gathered t)) as [Hbest _].
  destruct (adopt first (gathered t)) as [best last]. simpl in *. split; [done|].
  intros s en Hen. destruct (Hbest s en Hen) as (Hin & Hslot & _).
  destruct (count_promises_spec out (mkTally 1 (EntriesFrom first (log n)) b)) as [_ Hg].
  apply Hg in Hin as [Hin|(to & r & Hr & _ & Hin)]; rewrite <- Hslot.
  - by eapply EntriesFrom_src in Hin.
  - by eapply Hout.
Qed.

Lemma replicate_finish_src e b slot rs n : log_src (log n) -> log_src (log (replicate_finish e b slot rs n).1).
Proof.
  intros Hl. unfold replicate_finish. destruct (count_accepts _ _ _); [by destruct (_ <? _)|by apply stepDown_src].
Qed.

Lemma catchUp_finish_src e first ci reply n :
  log_src (log n) -> (forall rep en, reply = Some rep -> en ∈ mEntries rep -> entry_src en) ->
  log_src (log (catchUp_finish e first ci reply n)).
Proof.
  intros Hl Hr. unfold catchUp_finish. simpl. destruct reply as [rep|]; [|done]. destruct (negb (mOK rep)); [done|].
  destruct (catchUp_loop _ _ _ _ _) as [l slots] eqn:Hc.
  assert (log_src l) by (eapply catchUp_loop_src; eauto; intros s en Hs%chosen_map_src; eauto).
  by destruct (_ =? _).
Qed.

Lemma apply_next_log n n' : apply_next n = Some n' -> log n' = log n.
Proof.
  unfold apply_next. destruct (negb _); [done|]. destruct (Get _ _); [|done]. destruct (if IsNoop _ then _ else _).
  by intros [= <-].
Qed.

Lemma campaign_sourced i σ σ' : sourced σ -> exec_campaign i σ = Some σ' -> sourced σ'.
Proof.
  intros Hs He. pose proof (sr_nodes _ Hs) as Hnode.
  unfold exec_campaign in He. destruct (nodes σ !! i) as [n|] eqn:Hn; simpl in He; [|done].
  unfold campaign_begin in He. destruct (IsLeader n); [done|]. injection He as <-.
  apply sourced_spawn; [done|]. apply sourced_send; [done|]. apply sourced_set_node; [|done]. exact (Hnode _ _ Hn).
Qed.

Lemma handle_sourced e r σ σ' : sourced σ -> exec_handle e r σ = Some σ' -> sourced σ'.
Proof.
  intros Hs He. pose proof (sr_nodes _ Hs) as Hnode.
  unfold exec_handle in He. destruct (requests σ !! r) as [[[rid to] msg]|] eqn:Hr; simpl in He; [|done].
  destruct (nodes σ !! to) as [n|] eqn:Hn; simpl in He; [|done].
  apply list_elem_of_lookup_2 in Hr. pose proof (sr_requests _ Hs _ _ _ Hr) as Hmsg.
  destruct (Handle e msg n) as [[n' rep] fetch] eqn:Hh.
  destruct (Handle_src _ _ _ _ _ _ Hh (Hnode _ _ Hn) Hmsg) as [Hl Hrep]. injection He as <-.
  set (σ1 := add_reply rid to msg rep (set_node to n' σ)).
  assert (sourced σ1) as H1 by by apply sourced_add_reply, sourced_set_node.
  set (σ2 := if bool_decide (mKind msg = KindAccept) && mOK rep
             then add_vote to (mkEntry (mSlot msg) (mBallot msg) (mCommand msg)) σ1 else σ1).
  assert (sourced σ2) as H2.
  { unfold σ2. destruct (bool_decide_reflect (mKind msg = KindAccept)) as [Hk|]; simpl; [|done].
    destruct (mOK rep); [|done]. apply sourced_add_vote; [|done]. by apply Hmsg. }
  destruct fetch as [[[from first] ci]|]; [|done]. apply sourced_spawn; [done|]. by apply sourced_send.
Qed.

Lemma prepare_sourced e k picks σ σ' : sourced σ -> exec_prepare e k picks σ = Some σ' -> sourced σ'.
Proof.
  intros Hs He. pose proof (sr_nodes _ Hs) as Hnode.
  unfold exec_prepare in He. destruct (tasks σ !! k) as [[i tk]|] eqn:Hk; simpl in He; [|done].
  destruct (nodes σ !! i) as [n|] eqn:Hn; simpl in He; [|done]. destruct tk; try done.
  destruct (collect _ _ _ _) as [out|]; simpl in He; [|done].
  pose proof (campaign_prepare_src e out.*2 n (Hnode _ _ Hn)) as Hl.
  destruct (campaign_prepare e out.*2 n) as [n' o] eqn:Hc. simpl in Hl.
  assert (sourced (set_node i n' σ)) by by apply sourced_set_node. injection He as <-.
  destruct o as [[preq first]|]; [|by apply sourced_drop_task].
  apply sourced_set_task; [done|]. apply sourced_send; [|done]. unfold campaign_prepare in Hc.
  destruct (negb _); [done|]. destruct (negb _); [done|]. destruct (Promise _ _ _); [|done]. by injection Hc as <- <- <-.
Qed.

Lemma elect_sourced e k picks σ σ' : sourced σ -> exec_elect e k picks σ = Some σ' -> sourced σ'.
Proof.
  intros Hs He. pose proof (sr_nodes _ Hs) as Hnode.
  unfold exec_elect in He. destruct (tasks σ !! k) as [[i tk]|] eqn:Hk; simpl in He; [|done].
  destruct (nodes σ !! i) as [n|] eqn:Hn; simpl in He; [|done]. destruct tk; try done.
  destruct (collect _ _ _ _) as [out|] eqn:Hcol; simpl in He; [|done].
  destruct (campaign_finish_src e (mBallot req) first out n (Hnode _ _ Hn)) as [Hl Hb].
  { intros to rep en Hin Hen. by eapply collect_sourced. }
  destruct (campaign_finish _ _ _ _ _) as [n' o]. simpl in Hl, Hb. injection He as <-.
  destruct o as [[best last]|]; [apply sourced_set_task|apply sourced_drop_task]; try done; by apply sourced_set_node.
Qed.

Lemma propose_sourced i cmd σ σ' : sourced σ -> (forall n, nodes σ !! i = Some n -> P (nextSlot n) cmd) -> exec_propose i cmd σ = Some σ' -> sourced σ'.
Proof.
  intros Hs Hprop He. pose proof (sr_nodes _ Hs) as Hnode.
  unfold exec_propose in He. destruct (nodes σ !! i) as [n|] eqn:Hn; simpl in He; [|done].
  unfold propose_begin in He. destruct (negb _); [done|]. injection He as <-.
  apply sourced_spawn; [by eapply Hprop|]. apply sourced_set_node; [|done]. exact (Hnode _ _ Hn).
Qed.

Lemma replicate_sourced e k σ σ' : sourced σ -> exec_replicate e k σ = Some σ' -> sourced σ'.
Proof.
  intros Hs He. pose proof (sr_nodes _ Hs) as Hnode.
  unfold exec_replicate in He. destruct (tasks σ !! k) as [[i tk]|] eqn:Hk; simpl in He; [|done].
  destruct (nodes σ !! i) as [n|] eqn:Hn; simpl in He; [|done]. pose proof (sr_tasks _ Hs _ _ _ Hk) as Ht.
  destruct tk; try done; simpl in Ht.
  - destruct (_ <? _)%N; injection He as <-; [by apply sourced_drop_task|].
    apply start_accept_src; eauto using sourced_drop_task, recovered_src.
  - injection He as <-. apply start_accept_src; eauto. apply sourced_drop_task, sourced_set_node; [|done].
    unfold propose_fail. apply stepDown_src. simpl. by eapply Hnode.
Qed.

Lemma accepted_sourced e k picks σ σ' : sourced σ -> exec_accepted e k picks σ = Some σ' -> sourced σ'.
Proof.
  intros Hs He. pose proof (sr_nodes _ Hs) as Hnode.
  unfold exec_accepted in He. destruct (tasks σ !! k) as [[i tk]|] eqn:Hk; simpl in He; [|done].
  destruct (nodes σ !! i) as [n|] eqn:Hn; simpl in He; [|done]. pose proof (sr_tasks _ Hs _ _ _ Hk) as Ht.
  destruct tk; try done. destruct (collect _ _ _ _) as [out|]; simpl in He; [|done].
  pose proof (replicate_finish_src e (mBallot req) (mSlot req) out.*2 n (Hnode _ _ Hn)) as Hl.
  destruct (replicate_finish _ _ _ _ _) as [n' err]. simpl in Hl. injection He as <-.
  destruct k0 as [best last|], err; try (apply sourced_drop_task); try (apply sourced_set_task; [done|]);
    (apply sourced_set_node; [|done]); try done.
Qed.

Lemma heartbeat_sourced i σ σ' : sourced σ -> exec_heartbeat i σ = Some σ' -> sourced σ'.
Proof.
  intros Hs He. pose proof (sr_nodes _ Hs) as Hnode.
  unfold exec_heartbeat in He. destruct (nodes σ !! i) as [n|] eqn:Hn; simpl in He; [|done].
  destruct (IsLeader n); [|done]. injection He as <-. apply sourced_spawn; [done|]. by apply sourced_send.
Qed.

Lemma heartbeat_done_sourced e k picks σ σ' : sourced σ -> exec_heartbeat_done e k picks σ = Some σ' -> sourced σ'.
Proof.
  intros Hs He. pose proof (sr_nodes _ Hs) as Hnode.
  unfold exec_heartbeat_done in He. destruct (tasks σ !! k) as [[i tk]|] eqn:Hk; simpl in He; [|done].
  destruct (nodes σ !! i) as [n|] eqn:Hn; simpl in He; [|done]. destruct tk; try done.
  destruct (collect _ _ _ _) as [out|]; simpl in He; [|done]. injection He as <-.
  apply sourced_drop_task, sourced_set_node; [|done]. specialize (Hnode _ _ Hn). unfold broadcastCommit_finish.
  destruct (count_acks _ _ _); [destruct (_ <=? _); [done|destruct (_ && _); [by apply stepDown_src|done]]|by apply stepDown_src].
Qed.

Lemma catchup_done_sourced e k pick σ σ' : sourced σ -> exec_catchup_done e k pick σ = Some σ' -> sourced σ'.
Proof.
  intros Hs He. pose proof (sr_nodes _ Hs) as Hnode.
  unfold exec_catchup_done in He. destruct (tasks σ !! k) as [[i tk]|] eqn:Hk; simpl in He; [|done].
  destruct (nodes σ !! i) as [n|] eqn:Hn; simpl in He; [|done]. destruct tk; try done.
  destruct (collect _ _ _ _) as [out|] eqn:Hcol; simpl in He; [|done]. injection He as <-.
  apply sourced_drop_task, sourced_set_node; [|done]. apply catchUp_finish_src; [by eapply Hnode|].
  intros rep en Hh Hen. destruct out as [|[to rep'] out]; [done|]. injection Hh as ->.
  eapply (collect_sourced _ _ _ _ _ _ to rep Hs Hcol); [by left|done].
Qed.

Lemma apply_sourced i σ σ' : sourced σ -> exec_apply i σ = Some σ' -> sourced σ'.
Proof.
  intros Hs He. pose proof (sr_nodes _ Hs) as Hnode.
  unfold exec_apply in He. destruct (nodes σ !! i) as [n|] eqn:Hn; simpl in He; [|done].
  destruct (apply_next n) as [n'|] eqn:Ha; simpl in He; [|done]. injection He as <-.
  apply sourced_set_node; [|done]. rewrite (apply_next_log _ _ Ha). by eapply Hnode.
Qed.

Lemma restart_sourced e i σ σ' : sourced σ -> exec_restart e i σ = Some σ' -> sourced σ'.
Proof.
  intros Hs He. pose proof (sr_nodes _ Hs) as Hnode.
  unfold exec_restart in He. destruct (nodes σ !! i) as [n|] eqn:Hn; simpl in He; [|done]. injection He as <-.
  destruct (sourced_set_node i (NewNode e i (peers n) (log n) (cfg n)) σ (Hnode _ _ Hn) Hs) as [H1 H2 H3 H4 H5].
  split; simpl in *; try done. intros k j t [Hk _]%map_lookup_filter_Some. by eapply H2.
Qed.

(** A step keeps the sources, if what it proposes is one. *)
Lemma exec_sourced a σ σ' :
  sourced σ -> exec a σ = Some σ' ->
  (forall i cmd n, a = APropose i cmd -> nodes σ !! i = Some n -> P (nextSlot n) cmd) -> sourced σ'.
Proof.
  intros Hs He Hprop. destruct a; cbn [exec] in He;
    [ exact (campaign_sourced _ _ _ Hs He) | exact (handle_sourced _ _ _ _ Hs He) | exact (prepare_sourced _ _ _ _ _ Hs He)
    | exact (elect_sourced _ _ _ _ _ Hs He) | | exact (replicate_sourced _ _ _ _ Hs He)
    | exact (accepted_sourced _ _ _ _ _ Hs He) | exact (heartbeat_sourced _ _ _ Hs He)
    | exact (heartbeat_done_sourced _ _ _ _ _ Hs He) | exact (catchup_done_sourced _ _ _ _ _ Hs He)
    | exact (apply_sourced _ _ _ Hs He) | exact (restart_sourced _ _ _ _ Hs He) ].
  refine (propose_sourced _ _ _ _ Hs _ He). intros n Hn. by eapply Hprop.
Qed.
End Validity.
