(* ===== verification/ReplicatedLog.v ===== *)
(** * A Paxos group as a replicated log

    [Group] is a Paxos group together with two ghost lists: the proposals made
    so far, with the slot each was given, and the history, the longest sequence
    of commands any replica has applied.  The group refines a log that is only
    appended to ([log_step]), and every replica's state machine is the replay of
    a prefix of it.

    [Propose] is the whole call of internal/paxos/node.go: the slot is handed
    out, the ACCEPT round runs among whatever else the group does meantime, and
    the caller waits for the apply loop.  A call that returns a result had its
    command applied once, at one place of the history. *)

From S2P Require Import Prelude PaxosTypes PaxosLog PaxosNode PaxosVoting PaxosSystem PaxosElection PaxosInvariant PaxosSteps PaxosSafety PaxosAgreement PaxosValidity.

(** ** The abstract log *)

Record LogSpec := mkLogSpec { offered : list (N * bytes); appended : list bytes }.

(** A command is offered for a slot; the log grows by a command that was offered
    for the next slot, or by the no-op. *)
Inductive log_step : LogSpec -> LogSpec -> Prop :=
| ls_offer l s cmd : log_step l (mkLogSpec (offered l ++ [(s, cmd)]) (appended l))
| ls_append l cmd :
    cmd = "" \/ (N.of_nat (length (appended l)) + 1, cmd)%N ∈ offered l ->
    log_step l (mkLogSpec (offered l) (appended l ++ [cmd])).

(** ** Groups with their history *)

Section Replicated.
Context {S R : Type} {SM : StateMachine S R} (group : list NodeID).
Implicit Types (σ : System S R) (n : Node S R) (h : list bytes).

Definition command_at n (s : N) : bytes :=
  match Get s (log n) with Some en => eCommand en | None => "" end.
Definition applied_commands n : list bytes := command_at n <$> slots_between 1 (appliedIndex n).

Record Group := mkGroup { gsys : System S R; gproposed : list (N * bytes); ghistory : list bytes }.
Implicit Types g : Group.

Definition longer h n : list bytes :=
  if (N.of_nat (length h) <? appliedIndex n)%N then applied_commands n else h.
Definition extend σ h : list bytes := foldl longer h (map_to_list (nodes σ)).*2.

(** The slot a proposal gets. *)
Definition proposal (a : action) σ : list (N * bytes) :=
  match a with
  | APropose i cmd =>
      match nodes σ !! i with
      | Some n => match propose_begin n with Some (_, slot) => [(slot, cmd)] | None => [] end
      | None => []
      end
  | _ => []
  end.

Definition gstep (a : action) g : option Group :=
  if disciplined a (gsys g) then
    σ ← exec a (gsys g);
    Some (mkGroup σ (gproposed g ++ proposal a (gsys g)) (extend σ (ghistory g)))
  else None.

Fixpoint gsteps (acts : list action) g : option Group :=
  match acts with
  | [] => Some g
  | a :: rest => g' ← gstep a g; gsteps rest g'
  end.

Definition new_group (e : env) (c : Config) : Group := mkGroup (init_system e group c) [] [].

Definition spec_of g : LogSpec := mkLogSpec (gproposed g) (ghistory g).

(** ** The call of [Propose] *)

Inductive progress := InRound | Accepted | Broken (err : ProposeError) | Stopped.

(** The proposal's round that a step ends, and with what error. *)
Definition round_end (a : action) σ : option (NodeID * Entry * option ProposeError) :=
  match a with
  | AReplicate e k =>
      '(i, t) ← tasks σ !! k;
      n ← nodes σ !! i;
      match t with
      | TPropose b slot cmd =>
          match replicate_begin e slot cmd n with
          | inr err => Some (i, mkEntry slot b cmd, Some err)
          | inl _ => None
          end
      | _ => None
      end
  | AAccepted e k picks =>
      '(i, t) ← tasks σ !! k;
      n ← nodes σ !! i;
      match t with
      | TAccept rid req Proposing =>
          rs ← collect rid req (replies σ) picks;
          Some (i, entry_of req, (replicate_finish e (mBallot req) (mSlot req) rs.*2 n).2)
      | _ => None
      end
  | _ => None
  end.

Definition watch_step (i : NodeID) (en : Entry) (a : action) σ (p : progress) : progress :=
  match a with
  | ARestart _ j => if bool_decide (j = i) then Stopped else p
  | _ =>
      match p, round_end a σ with
      | InRound, Some (j, en', err) =>
          if bool_decide (j = i) && bool_decide (en' = en)
          then match err with None => Accepted | Some x => Broken x end
          else p
      | _, _ => p
      end
  end.

(** What may run meantime: any step, except new proposals of commands that are
    not in [retries].  A step that cannot be taken is not. *)
Definition meantime_ok (retries : list bytes) (a : action) : bool :=
  match a with APropose _ cmd => bool_decide (cmd ∈ retries) | _ => true end.

Definition gtry (retries : list bytes) (a : action) g : option Group :=
  if meantime_ok retries a then gstep a g else None.

Fixpoint meantime (retries : list bytes) (acts : list action) g : Group :=
  match acts with
  | [] => g
  | a :: rest => meantime retries rest (default g (gtry retries a g))
  end.

Fixpoint watch (retries : list bytes) (i : NodeID) (en : Entry) (acts : list action) (p : progress) g
    : Group * progress :=
  match acts with
  | [] => (g, p)
  | a :: rest =>
      match gtry retries a g with
      | None => watch retries i en rest p g
      | Some g' => watch retries i en rest (watch_step i en a (gsys g) p) g'
      end
  end.

(** What was sent on the proposal's channel. *)
Definition sent_to (slot : N) n : option (option R) :=
  head (omap (fun d => if bool_decide (d.1 = slot) then Some d.2 else None) (delivered n)).

Inductive reply :=
  | Returned (slot : N) (result : option R)
  | Refused (err : ProposeError)
  | NodeStopped
  | DeadlineExceeded.

Definition Propose (retries : list bytes) (i : NodeID) (cmd : bytes) (acts : list action) g : Group * reply :=
  match nodes (gsys g) !! i, gstep (APropose i cmd) g with
  | Some n, Some g1 =>
      let slot := nextSlot n in
      match watch retries i (mkEntry slot (ballot n) cmd) acts InRound g1 with
      | (g2, Accepted) =>
          (g2, match nodes (gsys g2) !! i ≫= sent_to slot with
               | Some res => Returned slot res
               | None => DeadlineExceeded
               end)
      | (g2, InRound) => (g2, DeadlineExceeded)
      | (g2, Broken err) => (g2, Refused err)
      | (g2, Stopped) => (g2, NodeStopped)
      end
  | _, _ => (g, Refused ErrNotLeader)
  end.

(** ** The apply loop's record *)

Definition ran n : N * list (N * option R) := (appliedIndex n, delivered n).

Lemma try_promise_ran e b n : ran (try_promise e b n) = ran n.
Proof. unfold try_promise. by destruct (Promise _ _ _). Qed.

Lemma stepDown_ran e seen n : ran (stepDown e seen n) = ran n.
Proof. unfold stepDown. destruct (_ && _); [by rewrite try_promise_ran|done]. Qed.

Lemma Handle_ran e msg n : ran (Handle e msg n).1.1 = ran n.
Proof.
  unfold Handle. destruct (mKind msg); try done.
  - unfold handlePrepare. destruct (Less _ _); [done|]. by destruct (Promise _ _ _).
  - unfold handleAccept. destruct (Less _ _); [done|].
    destruct (if Less (Promised n) _ then _ else _); [|done]. by destruct (Accept _ _ _).
  - unfold handleCommit. destruct (Less _ _); [done|]. simpl. by destruct (_ && _).
  - simpl. by destruct (negb _).
Qed.

Lemma campaign_prepare_ran e rs n : ran (campaign_prepare e rs n).1 = ran n.
Proof.
  unfold campaign_prepare. destruct (negb _); [apply stepDown_ran|]. destruct (negb _); [done|].
  destruct (Promise _ _ _); [done|apply stepDown_ran].
Qed.

Lemma campaign_finish_ran e b first rs n : ran (campaign_finish e b first rs n).1 = ran n.
Proof.
  unfold campaign_finish. destruct (_ <? _); simpl.
  - rewrite stepDown_ran. destruct (Less _ _); [apply try_promise_ran|done].
  - unfold becomeLeader. by destruct (adopt _ _).
Qed.

Lemma propose_fail_ran e slot n : ran (propose_fail e slot n) = ran n.
Proof. unfold propose_fail. by rewrite stepDown_ran. Qed.

Lemma replicate_finish_ran e b slot rs n : ran (replicate_finish e b slot rs n).1 = ran n.
Proof.
  unfold replicate_finish. destruct (count_accepts _ _ _); [by destruct (_ <? _)|apply stepDown_ran].
Qed.

Lemma broadcastCommit_finish_ran e b rs n : ran (broadcastCommit_finish e b rs n) = ran n.
Proof.
  unfold broadcastCommit_finish. destruct (count_acks _ _ _); [|apply stepDown_ran].
  destruct (_ <=? _); [done|]. destruct (_ && _); [apply stepDown_ran|done].
Qed.

Lemma catchUp_finish_ran e first ci reply n : ran (catchUp_finish e first ci reply n) = ran n.
Proof.
  unfold catchUp_finish. destruct reply as [rep|]; [|done]. destruct (negb (mOK rep)); [done|].
  destruct (catchUp_loop _ _ _ _ _). by destruct (_ =? _).
Qed.

(** What a step may do to a replica's record: nothing, one turn of the apply
    loop, or lose it in a crash. *)
Inductive ran_step (a : action) (i : NodeID) (n n' : Node S R) : Prop :=
| ran_kept : ran n' = ran n -> ran_step a i n n'
| ran_applied : a = AApply i -> apply_next n = Some n' -> ran_step a i n n'
| ran_lost : delivered n' = [] -> ran_step a i n n'.

Lemma set_node_ran a i n1 σ j n' :
  (forall n, nodes σ !! i = Some n -> ran_step a i n n1) -> is_Some (nodes σ !! i) ->
  nodes (set_node i n1 σ) !! j = Some n' -> exists n, nodes σ !! j = Some n /\ ran_step a j n n'.
Proof.
  intros Hs [n Hn]. simpl. rewrite lookup_insert. case_decide; [subst; intros [= <-]; eauto|].
  intros Hj. exists n'. split; [done|]. by apply ran_kept.
Qed.

Lemma start_accept_ran a e k i n slot cmd after on_error σ j n' :
  nodes σ !! i = Some n ->
  (nodes on_error !! j = Some n' -> exists n0, nodes σ !! j = Some n0 /\ ran_step a j n0 n') ->
  nodes (start_accept e k i n slot cmd after on_error σ) !! j = Some n' ->
  exists n0, nodes σ !! j = Some n0 /\ ran_step a j n0 n'.
Proof.
  intros Hn He. unfold start_accept, replicate_begin. destruct (negb _); [done|].
  destruct (Accept _ _ _); [|done]. cbn [set_task send nodes].
  apply set_node_ran; [|done]. intros n0 ?. simplify_eq. by apply ran_kept.
Qed.

Lemma exec_ran a σ σ' j n' :
  exec a σ = Some σ' -> nodes σ' !! j = Some n' -> exists n, nodes σ !! j = Some n /\ ran_step a j n n'.
Proof.
  intros He.
  assert (forall i n n1, nodes σ !! i = Some n -> ran_step a i n n1 -> nodes (set_node i n1 σ) !! j = Some n' ->
            exists n, nodes σ !! j = Some n /\ ran_step a j n n') as Hset.
  { intros i n n1 Hn Hs. apply set_node_ran; [|done]. intros ??. by simplify_eq. }
  assert (nodes σ !! j = Some n' -> exists n, nodes σ !! j = Some n /\ ran_step a j n n') as Hsame.
  { intros ?. exists n'. split; [done|]. by apply ran_kept. }
  destruct a; cbn [exec] in He;
    unfold exec_campaign, exec_handle, exec_prepare, exec_elect, exec_propose, exec_replicate, exec_accepted,
      exec_heartbeat, exec_heartbeat_done, exec_catchup_done, exec_apply, exec_restart in He.
  all: repeat match type of He with
    | (?x ≫= _) = Some _ => destruct x as [?|] eqn:?; simpl in He; [|done]
    | context [match ?t with TProbe _ _ => _ | _ => _ end] => destruct t; try done
    | (let '(_, _) := ?x in _) = _ => destruct x eqn:?
    | match ?x with (_, _) => _ end = _ => destruct x eqn:?
    | (if ?b then _ else _) = Some _ => destruct b; [|try done]
    end; injection He as <-.
  - eapply Hset; [done|]. apply ran_kept. unfold campaign_begin in *. repeat case_match; by simplify_eq.
  - match goal with H : Handle ?e ?m ?n = _ |- _ => pose proof (Handle_ran e m n) as Hr; rewrite H in Hr end.
    intros Hj. eapply Hset; [done|by apply ran_kept|]. by repeat case_match.
  - match goal with H : campaign_prepare ?e ?m ?n = _ |- _ => pose proof (campaign_prepare_ran e m n) as Hr; rewrite H in Hr end.
    intros Hj. eapply Hset; [done|by apply ran_kept|]. by repeat case_match.
  - match goal with H : campaign_finish ?e ?b ?f ?m ?n = _ |- _ => pose proof (campaign_finish_ran e b f m n) as Hr; rewrite H in Hr end.
    intros Hj. eapply Hset; [done|by apply ran_kept|]. by repeat case_match.
  - eapply Hset; [done|]. apply ran_kept. unfold propose_begin in *. repeat case_match; by simplify_eq.
  - exact Hsame.
  - eapply start_accept_ran; [done|exact Hsame].
  - eapply start_accept_ran; [done|]. eapply Hset; [done|]. apply ran_kept, propose_fail_ran.
  - match goal with H : replicate_finish ?e ?b ?s ?m ?n = _ |- _ => pose proof (replicate_finish_ran e b s m n) as Hr; rewrite H in Hr end.
    intros Hj. repeat case_match; (eapply Hset; [done| |exact Hj]); apply ran_kept; rewrite ?propose_fail_ran; exact Hr.
  - exact Hsame.
  - eapply Hset; [done|]. apply ran_kept, broadcastCommit_finish_ran.
  - eapply Hset; [done|]. apply ran_kept, catchUp_finish_ran.
  - eapply Hset; [done|]. by apply ran_applied.
  - intros Hj. eapply Hset; [done| |exact Hj]. by apply ran_lost.
Qed.

(** ** The history *)

Lemma lookup_applied_commands n j cmd :
  applied_commands n !! j = Some cmd ->
  cmd = command_at n (N.of_nat j + 1) /\ (1 <= N.of_nat j + 1 <= appliedIndex n)%N.
Proof.
  unfold applied_commands, slots_between. rewrite !list_lookup_fmap. intros Hj.
  destruct (seq 0 _ !! j) as [k|] eqn:Hk; [|done]. apply lookup_seq in Hk as [-> ?].
  injection Hj as <-. split; [f_equal; lia|lia].
Qed.

Lemma length_applied_commands n : N.of_nat (length (applied_commands n)) = appliedIndex n.
Proof. unfold applied_commands, slots_between. rewrite !length_fmap, length_seq. lia. Qed.

(** What a replica has applied, read off its log. *)
Lemma applied_commands_spec σ i n :
  sys_inv group σ -> nodes σ !! i = Some n ->
  chosen_history group (core_of σ) (applied_commands n) /\ sm n = replay_cmds (applied_commands n).
Proof.
  intros HI Hn. destruct (node_facts group _ _ _ HI Hn) as (I & Hok & _).
  pose proof (core_of_lookup _ _ _ Hn) as Hacc.
  assert (chosen_history group (core_of σ) (applied_commands n)) as Hch.
  { intros j cmd [-> Hs]%lookup_applied_commands.
    destruct (no_applied _ _ _ _ Hok _ Hs) as (p & l & en & Ha & Hl & b & _ & Hb).
    rewrite Hacc in Ha. injection Ha as <- <-. pose proof (ci_log_slot _ _ I _ _ _ _ _ Hacc Hl) as Hslot.
    exists b. unfold command_at, Get. rewrite Hl, <- Hslot. exact Hb. }
  split; [done|]. destruct (no_sm _ _ _ _ Hok) as (cmds & Hlen & -> & Hcmds).
  pose proof (length_applied_commands n) as Hlen'.
  destruct (chosen_history_prefix group _ cmds _ I Hcmds Hch ltac:(lia)) as [more Heq]. rewrite Heq in *.
  rewrite length_app in Hlen'. destruct more; [by rewrite app_nil_r|simpl in *; lia].
Qed.

Lemma longer_spec σ i n h :
  sys_inv group σ -> nodes σ !! i = Some n -> chosen_history group (core_of σ) h ->
  chosen_history group (core_of σ) (longer h n) /\ h `prefix_of` longer h n /\
  (appliedIndex n <= N.of_nat (length (longer h n)))%N.
Proof.
  intros HI Hn Hh. destruct (applied_commands_spec _ _ _ HI Hn) as [Hch _].
  destruct (node_facts group _ _ _ HI Hn) as (I & _ & _). pose proof (length_applied_commands n) as Hlen.
  unfold longer. destruct (N.ltb_spec (N.of_nat (length h)) (appliedIndex n)); [|by split_and!].
  split_and!; [done| |lia]. apply (chosen_history_prefix group _ _ _ I Hh Hch). lia.
Qed.

Lemma extend_spec σ h :
  sys_inv group σ -> chosen_history group (core_of σ) h ->
  chosen_history group (core_of σ) (extend σ h) /\ h `prefix_of` extend σ h /\
  forall i n, nodes σ !! i = Some n -> (appliedIndex n <= N.of_nat (length (extend σ h)))%N.
Proof.
  intros HI. unfold extend.
  assert (forall ns, ns ⊆ (map_to_list (nodes σ)).*2 -> forall h, chosen_history group (core_of σ) h ->
    chosen_history group (core_of σ) (foldl longer h ns) /\ h `prefix_of` foldl longer h ns /\
    forall n, n ∈ ns -> (appliedIndex n <= N.of_nat (length (foldl longer h ns)))%N) as Hall.
  { induction ns as [|n ns IH]; intros Hsub h' Hh'; simpl.
    { split_and!; [done..|]. intros n Hn. by apply not_elem_of_nil in Hn. }
    assert (n ∈ (map_to_list (nodes σ)).*2) as Hn by (apply Hsub; by left).
    apply list_elem_of_fmap in Hn as ([i n0] & -> & Hn%elem_of_map_to_list). simpl in *.
    destruct (longer_spec _ _ _ _ HI Hn Hh') as (H1 & H2 & H3).
    destruct (IH ltac:(intros x Hx; apply Hsub; by right) _ H1) as (H4 & H5 & H6).
    split_and!; [done|by etrans|]. intros m [->|Hm]%elem_of_cons; [|by apply H6].
    apply prefix_length in H5. lia. }
  intros Hh. destruct (Hall _ ltac:(done) _ Hh) as (H1 & H2 & H3). split_and!; [done..|].
  intros i n Hn. apply H3, list_elem_of_fmap. exists (i, n). split; [done|]. by apply elem_of_map_to_list.
Qed.

(** ** The invariant of a group and its history *)

(** What the apply loop sends for a command: nothing for a no-op, and the state
    machine's answer otherwise. *)
Definition answer (s : N) (cmd : bytes) (m : S) : option R :=
  if Nat.eqb (String.length cmd) 0 then None else Some (sm_apply s cmd m).2.

Lemma answer_Some s cmd m res : Some res = answer s cmd m -> cmd <> "" /\ res = (sm_apply s cmd m).2.
Proof. unfold answer. destruct cmd; [done|]. simpl. by intros [= ->]. Qed.

(** The value is the answer to the command of the slot. *)
Definition result_ok (c : Core) (last s : N) (res : option R) : Prop :=
  exists h cmd b, (N.of_nat (length h) + 1 = s)%N /\ (s <= last)%N /\ chosen_history group c h /\
    chosen group c s b cmd /\ res = answer s cmd (replay_cmds h).

Definition proposed_in g (s : N) (cmd : bytes) : Prop := cmd = "" \/ (s, cmd) ∈ gproposed g.

Record group_ok g : Prop := {
  go_inv : sys_inv group (gsys g);
  go_source : sourced (proposed_in g) (gsys g);
  go_history : chosen_history group (core_of (gsys g)) (ghistory g);
  go_ahead i n : nodes (gsys g) !! i = Some n -> (appliedIndex n <= N.of_nat (length (ghistory g)))%N;
  go_results i n s res : nodes (gsys g) !! i = Some n -> (s, res) ∈ delivered n ->
    result_ok (core_of (gsys g)) (appliedIndex n) s res;
}.

Lemma result_ok_mono c c' last last' s res :
  rtc (core_step group) c c' -> (last <= last')%N -> result_ok c last s res -> result_ok c' last' s res.
Proof.
  intros Hs Hl (h & cmd & b & ? & ? & ? & ? & ?). exists h, cmd, b.
  split_and!; eauto using chosen_history_stable, steps_chosen. lia.
Qed.

Lemma apply_next_results n n' :
  apply_next n = Some n' -> (appliedIndex n < u64_max)%N ->
  let next := (appliedIndex n + 1)%N in
  appliedIndex n' = next /\ next ∈ committed n /\
  forall s res, (s, res) ∈ delivered n' ->
    (s, res) ∈ delivered n \/
    (s = next /\ exists en, Get next (log n) = Some en /\ res = answer next (eCommand en) (sm n)).
Proof.
  intros Ha Hlt next. unfold apply_next in Ha. rewrite u64_id in Ha by lia. fold next in Ha.
  destruct (bool_decide (next ∈ committed n)) eqn:Hc; simpl in Ha; [|done]. apply bool_decide_eq_true in Hc.
  destruct (Get next (log n)) as [en|] eqn:Hg; [|done].
  destruct (if IsNoop en then _ else _) as [s' r] eqn:Hr. injection Ha as <-. split_and!; [done..|].
  intros s res Hin. simpl in Hin. destruct (bool_decide (next ∈ results n)); [|by left].
  apply elem_of_app in Hin as [?|Hin%list_elem_of_singleton]; [by left|]. right.
  injection Hin as -> ->. split; [done|]. exists en. split; [done|]. unfold answer. fold (IsNoop en).
  destruct (IsNoop en); [by injection Hr as _ <-|].
  destruct (sm_apply next (eCommand en) (sm n)) as [s1 r1]. by injection Hr as _ <-.
Qed.

(** The values delivered stay answers of the state machine. *)
Lemma results_step a σ σ' j n' s res :
  sys_inv group σ -> disciplined a σ = true -> exec a σ = Some σ' ->
  rtc (core_step group) (core_of σ) (core_of σ') ->
  (forall i n s res, nodes σ !! i = Some n -> (s, res) ∈ delivered n ->
     result_ok (core_of σ) (appliedIndex n) s res) ->
  nodes σ' !! j = Some n' -> (s, res) ∈ delivered n' -> result_ok (core_of σ') (appliedIndex n') s res.
Proof.
  intros HI Hd He Hs Hold Hj Hin. destruct (exec_ran _ _ _ _ _ He Hj) as (n & Hn & [Hr|Heq Ha|Hr]).
  - injection Hr as Hi Hdel. rewrite Hdel in Hin. rewrite Hi.
    eapply result_ok_mono; [exact Hs|reflexivity|by eapply Hold].
  - subst a. simpl in Hd. rewrite Hn in Hd. apply N.ltb_lt in Hd.
    destruct (apply_next_results _ _ Ha Hd) as (Hi & Hcom & Hdel). rewrite Hi.
    apply (result_ok_mono (core_of σ) _ (appliedIndex n + 1)%N _ _ _ Hs); [done|].
    destruct (Hdel _ _ Hin) as [Hin'|(-> & en & Hget & ->)].
    { eapply result_ok_mono; [reflexivity| |by eapply Hold]. lia. }
    destruct (applied_commands_spec _ _ _ HI Hn) as [Hch ->].
    destruct (node_facts group _ _ _ HI Hn) as (I & Hok & _). pose proof (core_of_lookup _ _ _ Hn) as Hacc.
    destruct (no_committed _ _ _ _ Hok _ Hcom) as (p & l & en' & Ha' & Hl & b & _ & Hb).
    rewrite Hacc in Ha'. injection Ha' as <- <-. unfold Get in Hget. rewrite Hget in Hl. injection Hl as <-.
    exists (applied_commands n), (eCommand en), b. rewrite length_applied_commands.
    rewrite (ci_log_slot _ _ I _ _ _ _ _ Hacc Hget) in Hb. by split_and!.
  - rewrite Hr in Hin. by apply not_elem_of_nil in Hin.
Qed.

Lemma sourced_weaken (P Q : N -> bytes -> Prop) σ : (forall s cmd, P s cmd -> Q s cmd) -> sourced P σ -> sourced Q σ.
Proof.
  intros HPQ [H1 H2 H3 H4 H5]. split.
  - intros i n Hn s en Hs. by eapply HPQ, H1.
  - intros k i t Hk. specialize (H2 _ _ _ Hk). destruct t as [| | | |? ? []| |]; try done; simpl in *; eauto;
      intros s en Hs; by eapply HPQ, H2.
  - eauto.
  - intros rid to q rep en Hr Hen. by eapply HPQ, H4.
  - intros i en Hv. by eapply HPQ, H5.
Qed.

Lemma gstep_ok a g g' :
  group_ok g -> gstep a g = Some g' ->
  group_ok g' /\ rtc (core_step group) (core_of (gsys g)) (core_of (gsys g')) /\
  gproposed g' = gproposed g ++ proposal a (gsys g) /\ ghistory g `prefix_of` ghistory g'.
Proof.
  intros [HI Hsrc Hh Hahead Hres] Hg. unfold gstep in Hg. destruct (disciplined a (gsys g)) eqn:Hd; [|done].
  destruct (exec a (gsys g)) as [σ|] eqn:He; simpl in Hg; [|done]. injection Hg as <-.
  destruct (exec_good group _ _ _ HI Hd He) as [HI' Hs].
  destruct (extend_spec σ (ghistory g) HI') as (H1 & H2 & H3); [by eapply chosen_history_stable|].
  split_and!; [|done..]. split; simpl; [done| |done|done|].
  - eapply exec_sourced; [by left| |exact He|].
    + refine (sourced_weaken _ _ _ _ Hsrc). intros s cmd [->|Hin]; [by left|]. right. apply elem_of_app. by left.
    + intros i cmd n -> Hn. right. apply elem_of_app. right. simpl. rewrite Hn. simpl in He. unfold exec_propose in He.
      rewrite Hn in He. simpl in He. unfold propose_begin in *. destruct (negb _); [done|]. by left.
  - intros j n s res Hj Hin. by eapply (results_step a (gsys g)).
Qed.

Lemma new_group_ok e c : group_ok (new_group e c).
Proof.
  assert (forall i n, nodes (init_system e group c) !! i = Some n -> n = NewNode e i group NewMemLog c) as Hinit
    by (intros i n [_ ?]%init_lookup; done).
  split; simpl.
  - apply init_inv.
  - split; simpl; try (intros; by match goal with H : _ ∈ [] |- _ => apply not_elem_of_nil in H end).
    + intros i n ->%Hinit s en. simpl. by rewrite lookup_empty.
    + intros k i t. by rewrite lookup_empty.
  - intros j cmd. by rewrite lookup_nil.
  - intros i n ->%Hinit. done.
  - intros i n s res ->%Hinit Hin. by apply not_elem_of_nil in Hin.
Qed.

Lemma gsteps_ok acts g g' : group_ok g -> gsteps acts g = Some g' -> group_ok g'.
Proof.
  revert g. induction acts as [|a acts IH]; intros g Hok; simpl; [by intros [= <-]|].
  destruct (gstep a g) as [g1|] eqn:Hg; simpl; [|done]. apply IH. by apply (gstep_ok _ _ _ Hok Hg).
Qed.

(** What is in the history was offered for its slot. *)
Lemma history_offered g j cmd :
  group_ok g -> ghistory g !! j = Some cmd -> proposed_in g (N.of_nat j + 1) cmd.
Proof.
  intros Hok Hj. destruct (go_history _ Hok _ _ Hj) as [b Hb]. apply chosen_has_vote in Hb as [i Hi].
  exact (sr_votes _ _ (go_source _ Hok) _ _ Hi).
Qed.

Lemma replica_prefix g i n :
  group_ok g -> nodes (gsys g) !! i = Some n ->
  sm n = replay_cmds (take (N.to_nat (appliedIndex n)) (ghistory g)).
Proof.
  intros Hok Hn. pose proof (go_inv _ Hok) as HI. destruct (applied_commands_spec _ _ _ HI Hn) as [Hch ->].
  destruct (node_facts group _ _ _ HI Hn) as (I & _ & _). pose proof (length_applied_commands n) as Hlen.
  pose proof (go_ahead _ Hok _ _ Hn) as Hle.
  destruct (chosen_history_prefix group _ _ _ I Hch (go_history _ Hok) ltac:(lia)) as [more ->].
  by rewrite take_app_length' by lia.
Qed.

(** Appending several commands, each offered for its slot. *)
Lemma append_all l more :
  (forall j cmd, more !! j = Some cmd ->
     cmd = "" \/ (N.of_nat (length (appended l) + j) + 1, cmd)%N ∈ offered l) ->
  rtc log_step l (mkLogSpec (offered l) (appended l ++ more)).
Proof.
  revert l. induction more as [|x more IH]; intros l Hm.
  { rewrite app_nil_r. by destruct l. }
  eapply rtc_l; [apply (ls_append l x)|].
  { destruct (Hm 0 x eq_refl) as [?|Hx]; [by left|]. right. by rewrite Nat.add_0_r in Hx. }
  rewrite (app_assoc _ [x] more : appended l ++ x :: more = _). apply (IH (mkLogSpec _ _)). simpl. intros j cmd Hj.
  destruct (Hm (Datatypes.S j) cmd Hj) as [?|Hx]; [by left|]. right. rewrite length_app. simpl.
  by replace (length (appended l) + 1 + j) with (length (appended l) + Datatypes.S j) by lia.
Qed.

Lemma gstep_refines a g g' :
  group_ok g -> gstep a g = Some g' -> rtc log_step (spec_of g) (spec_of g').
Proof.
  intros Hok Hg. destruct (gstep_ok _ _ _ Hok Hg) as (Hok' & _ & Hp & more & Hh).
  transitivity (mkLogSpec (gproposed g') (ghistory g)).
  - unfold spec_of. rewrite Hp. unfold proposal. destruct a; try (rewrite app_nil_r; done).
    destruct (nodes _ !! _); [|rewrite app_nil_r; done]. destruct (propose_begin _) as [[n' s]|];
      [|rewrite app_nil_r; done]. apply rtc_once, (ls_offer (spec_of g)).
  - unfold spec_of. rewrite Hh. apply (append_all (mkLogSpec _ _)). simpl. intros j cmd Hj.
    destruct (history_offered g' (length (ghistory g) + j) cmd Hok') as [?|Hin]; [|by left|by right].
    rewrite Hh, lookup_app_r by lia. by replace (_ + j - _) with j by lia.
Qed.

(** C11: A Paxos group that takes steps that keep to the protocol rules of
    PaxosSteps.disciplined (the code does not enforce all of them, see the findings)
    implements one log that only grows, by commands proposed for the slot they end
    up at and by no-ops; the state machine of every replica is the replay of a
    prefix of it. Messages may be lost, repeated and reordered, leaders may change
    and replicas crash. *)
Theorem group_refines_log e c acts g :
  gsteps acts (new_group e c) = Some g ->
  rtc log_step (mkLogSpec [] []) (spec_of g) /\
  forall i n, nodes (gsys g) !! i = Some n ->
    (appliedIndex n <= N.of_nat (length (ghistory g)))%N /\
    sm n = replay_cmds (take (N.to_nat (appliedIndex n)) (ghistory g)).
Proof.
  intros Hg. split.
  - change (mkLogSpec [] []) with (spec_of (new_group e c)). revert Hg. pose proof (new_group_ok e c) as Hok.
    revert Hok. generalize (new_group e c). induction acts as [|a acts IH]; intros g0 Hok; simpl; [by intros [= <-]|].
    destruct (gstep a g0) as [g1|] eqn:H1; simpl; [|done]. intros Hg.
    etransitivity; [by eapply gstep_refines|]. eapply IH; [|exact Hg]. by apply (gstep_ok _ _ _ Hok H1).
  - pose proof (gsteps_ok _ _ _ (new_group_ok e c) Hg) as Hok. intros i n Hn.
    split; [by eapply go_ahead|by eapply replica_prefix].
Qed.

(** ** Proposals *)

(** A slot a leader has yet to hand out was decided before, or will not be
    decided in its ballot. *)
Lemma undecided_slot σ i n s b v c' cmd :
  sys_inv group σ -> nodes σ !! i = Some n -> role n = Leader -> (nextSlot n <= s)%N ->
  chosen group (core_of σ) s b v -> rtc (core_step group) (core_of σ) c' -> ~ chosen group c' s (ballot n) cmd.
Proof.
  intros HI Hn Hl Hs Hb Hsteps (Q & HQ & Hv). destruct (node_facts group _ _ _ HI Hn) as (I & Hok & _).
  destruct (no_leader _ _ _ _ Hok Hl) as (_ & _ & Hsafe). destruct HI as [_ [Hcl _]].
  assert (claim σ (inr i) (ballot n) s) as Hclaim by by exists n.
  destruct (Hcl _ _ _ Hclaim) as [_ Hno].
  destruct (blt_total b (ballot n)) as [Hlt|[->|Hlt]].
  - pose proof (chosen_below_vote group _ _ _ _ _ _ I Hb (Hsafe s (String Ascii.zero v) Hs) Hlt) as Heq.
    apply (f_equal String.length) in Heq. simpl in Heq. lia.
  - apply chosen_has_vote in Hb as [a Ha]. apply (Hno a). by eexists.
  - destruct Hb as (Q' & HQ' & Hv'). destruct (quorum_intersect _ _ _ HQ HQ') as (a & Ha & Ha').
    destruct (ci_bound _ _ I _ _ (Hv' a Ha')) as (p & l & Hacc & Hp). simpl in Hp.
    apply (steps_no_vote group _ _ a s (ballot n) p l Hsteps Hacc); [eauto with payments|apply Hno|].
    eexists. by apply Hv.
Qed.

(** The round of a proposal that ends without an error decided its slot. *)
Lemma round_end_chosen a σ i en :
  sys_inv group σ -> round_end a σ = Some (i, en, None) ->
  chosen group (core_of σ) (eSlot en) (eBallot en) (eCommand en).
Proof.
  intros HI. destruct a as [| | | | |e k|e k picks| | | | |]; try done; simpl;
    destruct (tasks σ !! k) as [[j t]|] eqn:Hk; simpl; try done; destruct (nodes σ !! j) as [n|] eqn:Hn; simpl; try done;
    destruct t as [| | | |rid req []| |]; try done.
  - by destruct (replicate_begin _ _ _ _).
  - destruct (collect _ _ _ _) as [rs|] eqn:Hcol; simpl; [|done]. intros [= <- <- Herr].
    destruct (so_tasks _ _ (proj1 HI) _ _ _ Hk) as [_ (Hkind & Hf & _ & Hown & _)].
    unfold replicate_finish in Herr. destruct (count_accepts _ _ _) as [votes|] eqn:Hcount; [|done].
    destruct (Nat.ltb_spec votes (quorum n)); [done|].
    exact (accepted_chosen group _ _ _ _ _ _ _ _ HI Hn Hkind Hf Hown Hcol Hcount ltac:(lia)).
Qed.

(** What happens while [retries] may be proposed again. *)
Record advances (retries : list bytes) g g' : Prop := {
  ad_ok : group_ok g';
  ad_steps : rtc (core_step group) (core_of (gsys g)) (core_of (gsys g'));
  ad_history : ghistory g `prefix_of` ghistory g';
  ad_proposed x : x ∈ gproposed g' -> x ∈ gproposed g \/ x.2 ∈ retries;
}.

Lemma advances_refl retries g : group_ok g -> advances retries g g.
Proof. intros Hok. by split; [|reflexivity|reflexivity|left]. Qed.

Lemma advances_trans retries g1 g2 g3 : advances retries g1 g2 -> advances retries g2 g3 -> advances retries g1 g3.
Proof.
  intros [_ H1 H2 H3] [H4 H5 H6 H7]. split; [done|by etrans|by etrans|].
  intros x Hx. destruct (H7 x Hx); auto.
Qed.

Lemma gtry_advances retries a g g' : group_ok g -> gtry retries a g = Some g' -> advances retries g g'.
Proof.
  intros Hok. unfold gtry. destruct (meantime_ok retries a) eqn:Hm; [|done]. intros Hg.
  destruct (gstep_ok _ _ _ Hok Hg) as (H1 & H2 & H3 & H4). split; [done..|].
  intros x. rewrite H3. intros [?|Hx]%elem_of_app; [by left|]. right. destruct a; simpl in Hx; try by apply not_elem_of_nil in Hx.
  simpl in Hm. apply bool_decide_eq_true in Hm. destruct (nodes _ !! _); [|by apply not_elem_of_nil in Hx].
  destruct (propose_begin _) as [[? ?]|]; [|by apply not_elem_of_nil in Hx]. by apply list_elem_of_singleton in Hx as ->.
Qed.

Lemma meantime_advances retries acts g : group_ok g -> advances retries g (meantime retries acts g).
Proof.
  revert g. induction acts as [|a acts IH]; intros g Hok; simpl; [by apply advances_refl|].
  destruct (gtry retries a g) as [g1|] eqn:H1; simpl; [|by apply IH].
  pose proof (gtry_advances _ _ _ _ Hok H1) as Ha. eapply advances_trans; [exact Ha|]. apply IH, Ha.
Qed.

Lemma watch_step_accepted i en a σ p :
  sys_inv group σ -> watch_step i en a σ p = Accepted ->
  p = Accepted \/ chosen group (core_of σ) (eSlot en) (eBallot en) (eCommand en).
Proof.
  intros HI. pose proof (round_end_chosen a σ) as Hr.
  assert (match p, round_end a σ with
          | InRound, Some (j, en', err) =>
              if bool_decide (j = i) && bool_decide (en' = en)
              then match err with None => Accepted | Some x => Broken x end
              else p
          | _, _ => p
          end = Accepted -> p = Accepted \/ chosen group (core_of σ) (eSlot en) (eBallot en) (eCommand en)) as Hround.
  { destruct p; auto. destruct (round_end a σ) as [[[j en'] err]|]; [|done].
    destruct (bool_decide_reflect (j = i)) as [->|]; [|done]. destruct (bool_decide_reflect (en' = en)) as [->|]; [|done].
    destruct err; [done|]. intros _. right. by apply (Hr i en HI). }
  unfold watch_step. destruct a; try exact Hround. case_bool_decide; [done|by left].
Qed.

Lemma watch_advances retries i en acts p g :
  group_ok g -> let '(g', p') := watch retries i en acts p g in
  advances retries g g' /\
  (p' = Accepted -> p = Accepted \/ chosen group (core_of (gsys g')) (eSlot en) (eBallot en) (eCommand en)).
Proof.
  revert p g. induction acts as [|a acts IH]; intros p g Hok; simpl; [split; [by apply advances_refl|by left]|].
  destruct (gtry retries a g) as [g1|] eqn:H1; [|by apply IH].
  pose proof (gtry_advances _ _ _ _ Hok H1) as Ha. specialize (IH (watch_step i en a (gsys g) p) g1 (ad_ok _ _ _ Ha)).
  destruct (watch _ _ _ _ _ _) as [g' p']. destruct IH as [Had IH]. split; [by eapply advances_trans|].
  intros Hp. destruct (IH Hp) as [Ho|?]; [|by right].
  destruct (watch_step_accepted _ _ _ _ _ (go_inv _ Hok) Ho) as [?|Hch]; [by left|right].
  eapply steps_chosen; [|exact Hch]. exact (transitivity (ad_steps _ _ _ Ha) (ad_steps _ _ _ Had)).
Qed.

(** Commands proposed for slots past the history. *)
Definition unsettled g : list bytes :=
  (filter (fun x => (N.of_nat (length (ghistory g)) < x.1)%N) (gproposed g)).*2.

Lemma elem_of_unsettled g cmd :
  cmd ∈ unsettled g <-> exists s, (N.of_nat (length (ghistory g)) < s)%N /\ (s, cmd) ∈ gproposed g.
Proof.
  unfold unsettled. rewrite list_elem_of_fmap. split.
  - intros ([s x] & -> & [Hs Hx]%list_elem_of_filter). eauto.
  - intros (s & Hs & Hx). exists (s, cmd). by rewrite list_elem_of_filter.
Qed.

(** What is new in the history comes from there, or is a retry. *)
Definition foreseen (retries : list bytes) g (cmd : bytes) : Prop :=
  cmd = "" \/ cmd ∈ unsettled g \/ cmd ∈ retries.

Lemma advances_new retries g g' more j cmd :
  advances retries g g' -> ghistory g' = ghistory g ++ more -> more !! j = Some cmd -> foreseen retries g cmd.
Proof.
  intros Ha Hh Hj. destruct (history_offered g' (length (ghistory g) + j) cmd (ad_ok _ _ _ Ha)) as [?|Hin].
  - rewrite Hh, lookup_app_r by lia. by replace (_ + j - _) with j by lia.
  - by left.
  - right. destruct (ad_proposed _ _ _ Ha _ Hin) as [Hp|?]; [left|by right].
    apply elem_of_unsettled. eexists. split; [|exact Hp]. lia.
Qed.

Lemma advances_unsettled retries g g' : advances retries g g' -> unsettled g' ⊆ retries ++ unsettled g.
Proof.
  intros Ha cmd (s & Hs & Hx)%elem_of_unsettled. apply elem_of_app.
  destruct (ad_proposed _ _ _ Ha _ Hx) as [Hp|?]; [right|by left].
  apply elem_of_unsettled. exists s. split; [|done]. pose proof (prefix_length _ _ (ad_history _ _ _ Ha)). lia.
Qed.

(** What the history grew by, and what is left. *)
Lemma advances_late retries g g' :
  advances retries g g' ->
  (exists late, ghistory g' = ghistory g ++ late /\ Forall (foreseen retries g) late) /\
  unsettled g' ⊆ retries ++ unsettled g.
Proof.
  intros Ha. pose proof Ha as [_ _ [late Hl] _]. split; [|by apply advances_unsettled].
  exists late. split; [done|]. apply Forall_lookup. intros j x Hj. by eapply advances_new.
Qed.

Lemma advances_weaken retries retries' g g' : retries ⊆ retries' -> advances retries g g' -> advances retries' g g'.
Proof. intros Hr [? ? ? Hp]. split; [done..|]. intros x Hx. destruct (Hp x Hx); auto. Qed.

Lemma gstep_propose i n cmd g g1 :
  nodes (gsys g) !! i = Some n -> gstep (APropose i cmd) g = Some g1 -> group_ok g ->
  role n = Leader /\ gproposed g1 = gproposed g ++ [(nextSlot n, cmd)].
Proof.
  intros Hn Hg Hok. destruct (gstep_ok _ _ _ Hok Hg) as (_ & _ & Hp & _). unfold gstep in Hg.
  destruct (disciplined _ _); [|done]. simpl in Hg. unfold exec_propose in Hg. simpl in Hp. rewrite Hn in Hg, Hp.
  simpl in Hg. unfold propose_begin, IsLeader in *. destruct (bool_decide_reflect (role n = Leader)); [|done].
  by simpl in Hp.
Qed.

(** Whatever becomes of the call, only its command and those expected anyway
    can have been applied. *)
Lemma Propose_advances retries i cmd acts g :
  group_ok g -> advances (cmd :: retries) g (Propose retries i cmd acts g).1.
Proof.
  intros Hok. unfold Propose. destruct (nodes (gsys g) !! i) as [n|] eqn:Hn; [|by apply advances_refl].
  destruct (gstep (APropose i cmd) g) as [g1|] eqn:H1; [|by apply advances_refl].
  assert (advances (cmd :: retries) g g1) as Ha.
  { apply (gtry_advances _ (APropose i cmd)); [done|]. unfold gtry. simpl. by rewrite bool_decide_true by left. }
  pose proof (watch_advances retries i (mkEntry (nextSlot n) (ballot n) cmd) acts InRound g1 (ad_ok _ _ _ Ha)) as Hw.
  destruct (watch _ _ _ _ _ _) as [g2 p]. destruct Hw as [Hw _].
  assert (advances (cmd :: retries) g g2).
  { eapply advances_trans; [exact Ha|]. eapply advances_weaken; [|exact Hw]. by right. }
  by destruct p.
Qed.

Lemma sent_to_delivered slot n res : sent_to slot n = Some res -> (slot, res) ∈ delivered n.
Proof.
  unfold sent_to. intros Hh. apply head_Some_elem_of, list_elem_of_omap in Hh as ([s r] & Hin & Hr). simpl in Hr.
  case_bool_decide; [|done]. simplify_eq. done.
Qed.

(** A call that returned: the pieces. *)
Lemma Propose_returned retries i cmd acts g g' slot res :
  group_ok g -> Propose retries i cmd acts g = (g', Returned slot res) ->
  exists n n' g1, nodes (gsys g) !! i = Some n /\ role n = Leader /\ slot = nextSlot n /\
    gproposed g1 = gproposed g ++ [(slot, cmd)] /\ advances retries g1 g' /\ advances (cmd :: retries) g g' /\
    chosen group (core_of (gsys g')) slot (ballot n) cmd /\
    nodes (gsys g') !! i = Some n' /\ (slot, res) ∈ delivered n'.
Proof.
  intros Hok Heq. pose proof (Propose_advances retries i cmd acts g Hok) as Hall. rewrite Heq in Hall.
  unfold Propose in Heq. destruct (nodes (gsys g) !! i) as [n|] eqn:Hn; [|done].
  destruct (gstep (APropose i cmd) g) as [g1|] eqn:H1; [|done].
  destruct (gstep_propose _ _ _ _ _ Hn H1 Hok) as [Hl Hp]. destruct (gstep_ok _ _ _ Hok H1) as (Hok1 & _).
  pose proof (watch_advances retries i (mkEntry (nextSlot n) (ballot n) cmd) acts InRound g1 Hok1) as Hw.
  destruct (watch _ _ _ _ _ _) as [g2 p]. destruct Hw as [Hw Hch]. destruct p; try done.
  destruct (nodes (gsys g2) !! i) as [n'|] eqn:Hn'; simpl in Heq; [|done].
  destruct (sent_to (nextSlot n) n') as [r|] eqn:Hsent; [|done]. injection Heq as -> <- ->.
  destruct (Hch eq_refl) as [?|Hch']; [done|]. apply sent_to_delivered in Hsent.
  exists n, n', g1. by split_and!.
Qed.

(** The slot of a call that returned is new in the history. *)
Lemma returned_slot retries i cmd acts g g' slot res :
  group_ok g -> Propose retries i cmd acts g = (g', Returned slot res) ->
  exists before after, ghistory g' = ghistory g ++ before ++ cmd :: after /\
    slot = (N.of_nat (length (ghistory g ++ before)) + 1)%N /\
    res = answer slot cmd (replay_cmds (ghistory g ++ before)).
Proof.
  intros Hok Heq. destruct (Propose_returned _ _ _ _ _ _ _ _ Hok Heq) as (n & n' & g1 & Hn & Hl & Hslot & _ & _ & Ha & Hch & Hn' & Hdel).
  pose proof (ad_ok _ _ _ Ha) as Hok'. pose proof (so_core _ _ (proj1 (go_inv _ Hok'))) as I.
  destruct (go_results _ Hok' _ _ _ _ Hn' Hdel) as (h & x & b & Hlen & Hle & Hh & Hx & ->).
  assert (x = cmd) as -> by (eapply (core_agreement_at group); eauto).
  pose proof (go_ahead _ Hok' _ _ Hn') as Hahead.
  destruct (chosen_history_prefix group _ _ _ I Hh (go_history _ Hok') ltac:(lia)) as [rest Hrest].
  assert (rest !! 0 = Some cmd) as Hhead.
  { destruct rest as [|y rest]; [rewrite Hrest, app_nil_r in Hahead; lia|]. simpl. f_equal.
    destruct (go_history _ Hok' (length h) y) as [b' Hb'].
    { rewrite Hrest, lookup_app_r, Nat.sub_diag by lia. done. }
    replace (N.of_nat (length h) + 1)%N with slot in Hb' by lia. eapply (core_agreement_at group); eauto. }
  destruct rest as [|y rest]; [done|]. injection Hhead as ->.
  destruct (decide (length (ghistory g) <= length h)) as [Hlong|Hshort].
  - destruct (ad_history _ _ _ Ha) as [more Hmore].
    destruct (chosen_history_prefix group _ (ghistory g) h I) as [before ->]; [|done|done|].
    { eapply chosen_history_stable; [exact (ad_steps _ _ _ Ha)|]. exact (go_history _ Hok). }
    exists before, rest. rewrite <- app_assoc in Hrest. split_and!; [done|lia|done].
  - exfalso. destruct (lookup_lt_is_Some_2 (ghistory g) (length h) ltac:(lia)) as [v Hv].
    destruct (go_history _ Hok _ _ Hv) as [b' Hb']. replace (N.of_nat (length h) + 1)%N with slot in Hb' by lia.
    eapply (undecided_slot (gsys g) i n slot b' v); eauto using go_inv, ad_steps. lia.
Qed.

(** A command other than the no-op does not come back without an answer. *)
Lemma Propose_answered retries i cmd acts g g' slot :
  group_ok g -> cmd <> "" -> Propose retries i cmd acts g <> (g', Returned slot None).
Proof.
  intros Hok Hne Heq. destruct (returned_slot _ _ _ _ _ _ _ _ Hok Heq) as (before & after & _ & _ & Hres).
  unfold answer in Hres. by destruct cmd.
Qed.

Lemma Propose_applied retries i cmd acts g g' slot res :
  group_ok g -> Propose retries i cmd acts g = (g', Returned slot (Some res)) ->
  exists before after, ghistory g' = ghistory g ++ before ++ cmd :: after /\
    slot = (N.of_nat (length (ghistory g ++ before)) + 1)%N /\
    res = (sm_apply slot cmd (replay_cmds (ghistory g ++ before))).2 /\
    Forall (foreseen retries g) before /\ Forall (foreseen retries g) after /\
    unsettled g' ⊆ retries ++ unsettled g.
Proof.
  intros Hok Heq. destruct (returned_slot _ _ _ _ _ _ _ _ Hok Heq) as (before & after & Hh & Hslot & Hres).
  apply answer_Some in Hres as [_ Hres].
  destruct (Propose_returned _ _ _ _ _ _ _ _ Hok Heq) as (n & n' & g1 & _ & _ & _ & Hp1 & Ha1 & Ha & _).
  assert (forall s x, (N.of_nat (length (ghistory g)) < s)%N -> s <> slot -> (s, x) ∈ gproposed g' ->
            x ∈ unsettled g \/ x ∈ retries) as Hold.
  { intros s x Hs Hne Hin. destruct (ad_proposed _ _ _ Ha1 _ Hin) as [Hg1|?]; [left|by right].
    rewrite Hp1 in Hg1. apply elem_of_app in Hg1 as [Hg1|Hg1%list_elem_of_singleton]; [|congruence].
    apply elem_of_unsettled. eauto. }
  assert (forall k x, ghistory g' !! k = Some x -> length (ghistory g) <= k -> (N.of_nat k + 1)%N <> slot -> foreseen retries g x) as Hnew.
  { intros k x Hk Hlo Hne. destruct (history_offered g' k x (ad_ok _ _ _ Ha) Hk) as [->|Hin]; [by left|]. right.
    apply (Hold _ _) in Hin; [done|lia|done]. }
  rewrite length_app in Hslot.
  exists before, after. rewrite length_app. split_and!; try done.
  - apply Forall_lookup. intros k x Hk. pose proof (lookup_lt_Some _ _ _ Hk).
    apply (Hnew (length (ghistory g) + k)); [|lia|lia].
    rewrite Hh, lookup_app_r, lookup_app_l by lia. by replace (_ + k - _) with k by lia.
  - apply Forall_lookup. intros k x Hk.
    apply (Hnew (length (ghistory g) + length before + 1 + k)); [|lia|lia].
    rewrite Hh, !lookup_app_r by lia. by replace (_ - _ - _) with (Datatypes.S k) by lia.
  - intros x (s & Hs & Hin)%elem_of_unsettled. rewrite Hh, !length_app in Hs. simpl in Hs. apply elem_of_app.
    apply (Hold _ _) in Hin as [?|?]; [by right|by left|lia|lia].
Qed.

(** C12: A Propose that returns a result, in a group that takes steps that keep to
    the protocol rules of PaxosSteps.disciplined (the code does not enforce all of
    them, see the findings), had its command applied at one place of the log, which
    grew otherwise only by proposals that were under way before or retried by the
    caller, and returns the answer of the state machine at that place, through
    losses, elections and crashes meanwhile. *)
Theorem proposal_applied_once e c past g retries i cmd acts g' slot res :
  gsteps past (new_group e c) = Some g ->
  Propose retries i cmd acts g = (g', Returned slot (Some res)) ->
  exists before after, ghistory g' = ghistory g ++ before ++ cmd :: after /\
    slot = (N.of_nat (length (ghistory g ++ before)) + 1)%N /\
    res = (sm_apply slot cmd (replay_cmds (ghistory g ++ before))).2 /\
    Forall (foreseen retries g) before /\ Forall (foreseen retries g) after.
Proof.
  intros Hg Heq. pose proof (gsteps_ok _ _ _ (new_group_ok e c) Hg) as Hok.
  destruct (Propose_applied _ _ _ _ _ _ _ _ Hok Heq) as (before & after & ? & ? & ? & ? & ? & _). eauto 10.
Qed.
End Replicated.

(** ** A journal of three replicas *)

Module LogExample.
Import Journal.

(** A is elected by B. *)
Definition elected : Group := default (new_group g3 e0 cfg0) (gsteps (take 6 normal_run) (new_group g3 e0 cfg0)).

Lemma elected_run : gsteps (take 6 normal_run) (new_group g3 e0 cfg0) = Some elected.
Proof. vm_compute. reflexivity. Qed.

Definition first_round : list action := [AReplicate e0 3; AHandle e0 4; AAccepted e0 3 [2]; AApply "A"].
Definition after_x : Group := (Propose [] "A" "x" first_round elected).1.

Lemma proposal_applied_once_witness :
  exists before after, ghistory after_x = before ++ "x" :: after /\
    1%N = (N.of_nat (length before) + 1)%N /\ tt = (sm_apply 1 "x" (replay_cmds before)).2 /\
    Forall (foreseen [] elected) before /\ Forall (foreseen [] elected) after.
Proof.
  apply (proposal_applied_once g3 e0 cfg0 (take 6 normal_run) elected [] "A" "x" first_round after_x 1 tt).
  - exact elected_run.
  - vm_compute. reflexivity.
Defined.

(** B follows by catching up; both have the whole history. *)
Lemma group_refines_log_witness :
  exists g : Group (S := state) (R := unit), ghistory g = ["x"] /\ rtc log_step (mkLogSpec [] []) (spec_of g) /\
    forall i n, nodes (gsys g) !! i = Some n ->
      (appliedIndex n <= N.of_nat (length (ghistory g)))%N /\
      sm n = replay_cmds (take (N.to_nat (appliedIndex n)) (ghistory g)).
Proof.
  destruct (gsteps normal_run (new_group g3 e0 cfg0)) as [g|] eqn:Hg; [|vm_compute in Hg; discriminate].
  exists g. split; [vm_compute in Hg; by injection Hg as <-|].
  exact (group_refines_log g3 e0 cfg0 normal_run g Hg).
Defined.

(** The leader crashes before the round ends: the caller hears nothing, and the
    command is applied all the same, by the leader that finds it in B's log. *)
Definition crash_round : list action := [AReplicate e0 3; AHandle e0 4; ARestart e0 "A"].
Definition takeover : list action :=
  [ACampaign "B"; AHandle e0 7; APrepare e0 6 [3]; AHandle e0 9; AElect e0 6 [4]; AReplicate e0 6;
   AHandle e0 11; AAccepted e0 6 [5]; AApply "B"].

Example stopped_proposal_lands :
  let '(g, answer) := Propose [] "A" "x" crash_round elected in
  answer = NodeStopped /\ ghistory g = [] /\ unsettled g = ["x"] /\
  ghistory (meantime [] takeover g) = ["x"] /\ unsettled (meantime [] takeover g) = [].
Proof. vm_compute. auto 10. Qed.
End LogExample.
