(* ===== verification/Ledger.v ===== *)
(** * internal/ledger/ledger.go: the state machine each shard replicates

    Balances are int64 minor units, kept as [Z] with Go's wrap-around written
    out.  [Machine] is one replica's copy: balances, the lock table, the
    prepares and the decisions two-phase commit needs.  [applyLocked] is the
    whole operation table; [Apply] adds the codec and the slot and makes the
    machine an instance of [StateMachine]. *)

From stdpp Require Import sorting.
From S2P Require Import Prelude GoText PaxosNode.

(** ** Commands, verdicts and results *)

(** [OpOther] is any other value of the string type. *)
Inductive Op :=
  | OpPut | OpGet | OpTransfer | OpPrepare | OpCommit | OpAbort
  | OpOther (s : string).

#[export] Instance Op_eq_dec : EqDecision Op.
Proof. solve_decision. Defined.

Definition Op_string (o : Op) : string :=
  match o with
  | OpPut => "put" | OpGet => "get" | OpTransfer => "transfer"
  | OpPrepare => "prepare" | OpCommit => "commit" | OpAbort => "abort"
  | OpOther s => s
  end.

Record Command := mkCommand { cOp : Op; Key : string; To : string; Amount : Z; Tx : string }.

#[export] Instance Command_eq_dec : EqDecision Command.
Proof. solve_decision. Defined.

Definition Command_String (c : Command) : string :=
  match cOp c with
  | OpPut => "put " +:+ Key c +:+ "=" +:+ fmt_d (Amount c)
  | OpGet => "get " +:+ Key c
  | OpTransfer => "transfer " +:+ Key c +:+ "->" +:+ To c +:+ " " +:+ fmt_d (Amount c)
  | OpPrepare => "prepare " +:+ Tx c +:+ " " +:+ Key c +:+ fmt_plus_d (Amount c)
  | OpCommit => "commit " +:+ Tx c
  | OpAbort => "abort " +:+ Tx c
  | OpOther s => s
  end.

Inductive Code :=
  | CodeOK | CodeNoSuchKey | CodeInsufficient | CodeLocked
  | CodeTooManyKeys | CodeUnknownTx | CodeBadCommand.

#[export] Instance Code_eq_dec : EqDecision Code.
Proof. solve_decision. Defined.

Record Result := mkResult { rCode : Code; rMsg : string; rValue : Z; rSlot : N }.

#[export] Instance Result_eq_dec : EqDecision Result.
Proof. solve_decision. Defined.

Definition result0 : Result := mkResult CodeOK "" 0 0.
Definition value (v : Z) : Result := mkResult CodeOK "" v 0.
Definition failure (c : Code) (msg : string) : Result := mkResult c msg 0 0.

(** The sentinel errors, and the error value: the sentinel and its message. *)
Inductive LedgerError :=
  | ErrNoSuchKey | ErrInsufficientFunds | ErrLocked | ErrTooManyKeys | ErrUnknownTx | ErrBadCommand.

#[export] Instance LedgerError_eq_dec : EqDecision LedgerError.
Proof. solve_decision. Defined.

Definition Err (r : Result) : option (LedgerError * string) :=
  match rCode r with
  | CodeOK => None
  | CodeNoSuchKey => Some (ErrNoSuchKey, rMsg r)
  | CodeInsufficient => Some (ErrInsufficientFunds, rMsg r)
  | CodeLocked => Some (ErrLocked, rMsg r)
  | CodeTooManyKeys => Some (ErrTooManyKeys, rMsg r)
  | CodeUnknownTx => Some (ErrUnknownTx, rMsg r)
  | CodeBadCommand => Some (ErrBadCommand, rMsg r)
  end.

(** ** The machine *)

Record Machine := mkMachine {
  maxKeys : Z;
  balances : gmap string Z;
  locks : gmap string string;
  prepared : gmap string Command;
  decided : gmap string Op;
}.

Definition New (mk : Z) : Machine := mkMachine mk ∅ ∅ ∅ ∅.

Definition set_balances (b : gmap string Z) (m : Machine) : Machine :=
  mkMachine (maxKeys m) b (locks m) (prepared m) (decided m).

(** Go's read of a missing key. *)
Definition balance (m : Machine) (k : string) : Z := default 0%Z (balances m !! k).

(** The first key that is missing or held; [None] is the code's [ok]. *)
Fixpoint checkLocked (m : Machine) (keys : list string) : option Result :=
  match keys with
  | [] => None
  | k :: rest =>
      match balances m !! k with
      | None => Some (failure CodeNoSuchKey k)
      | Some _ =>
          match locks m !! k with
          | Some tx => Some (failure CodeLocked (k +:+ " is held by " +:+ tx))
          | None => checkLocked m rest
          end
      end
  end.

Definition prepareLocked (c : Command) (m : Machine) : Machine * Result :=
  match prepared m !! Tx c with
  | Some existing =>
      if bool_decide (existing = c) then (m, result0)
      else (m, failure CodeBadCommand (Tx c +:+ " already prepared with different details"))
  | None =>
      match decided m !! Tx c with
      | Some op => (m, failure CodeUnknownTx (Tx c +:+ " was already decided (" +:+ Op_string op +:+ ")"))
      | None =>
          match checkLocked m [Key c] with
          | Some r => (m, r)
          | None =>
              let bal := balance m (Key c) in
              if (Amount c <? 0)%Z && (wrap64 (bal + Amount c) <? 0)%Z
              then (m, failure CodeInsufficient
                         (Key c +:+ " has " +:+ fmt_d bal +:+ ", needs " +:+ fmt_d (wrap64 (- Amount c))))
              else (mkMachine (maxKeys m) (balances m) (<[Key c := Tx c]> (locks m))
                      (<[Tx c := c]> (prepared m)) (decided m),
                    value bal)
          end
      end
  end.

Definition putLocked (c : Command) (m : Machine) : Machine * Result :=
  match locks m !! Key c with
  | Some tx => (m, failure CodeLocked (Key c +:+ " is held by " +:+ tx))
  | None =>
      if bool_decide (balances m !! Key c = None) && (0 <? maxKeys m)%Z
         && (maxKeys m <=? Z.of_nat (size (balances m)))%Z
      then (m, failure CodeTooManyKeys ("limit is " +:+ fmt_d (maxKeys m) +:+ " per shard"))
      else (set_balances (<[Key c := Amount c]> (balances m)) m, value (Amount c))
  end.

Definition getLocked (c : Command) (m : Machine) : Machine * Result :=
  match balances m !! Key c with
  | None => (m, failure CodeNoSuchKey (Key c))
  | Some v => (m, value v)
  end.

Definition transferLocked (c : Command) (m : Machine) : Machine * Result :=
  match checkLocked m [Key c; To c] with
  | Some r => (m, r)
  | None =>
      let from := balance m (Key c) in
      if (from <? Amount c)%Z
      then (m, failure CodeInsufficient
                 (Key c +:+ " has " +:+ fmt_d from +:+ ", needs " +:+ fmt_d (Amount c)))
      else
        let m1 := set_balances (<[Key c := wrap64 (from - Amount c)]> (balances m)) m in
        let m2 := set_balances (<[To c := wrap64 (balance m1 (To c) + Amount c)]> (balances m1)) m1 in
        (m2, value (balance m2 (Key c)))
  end.

Definition commitLocked (c : Command) (m : Machine) : Machine * Result :=
  if bool_decide (decided m !! Tx c = Some OpCommit) then (m, result0)
  else
    match prepared m !! Tx c with
    | None => (m, failure CodeUnknownTx (Tx c +:+ " was never prepared here or was aborted"))
    | Some p =>
        let b' := <[Key p := wrap64 (balance m (Key p) + Amount p)]> (balances m) in
        let m' := mkMachine (maxKeys m) b' (delete (Key p) (locks m)) (delete (Tx c) (prepared m))
                    (<[Tx c := OpCommit]> (decided m)) in
        (m', value (balance m' (Key p)))
    end.

Definition abortLocked (c : Command) (m : Machine) : Machine * Result :=
  let m1 :=
    match prepared m !! Tx c with
    | Some p => mkMachine (maxKeys m) (balances m) (delete (Key p) (locks m))
                  (delete (Tx c) (prepared m)) (decided m)
    | None => m
    end in
  let m2 :=
    if bool_decide (decided m1 !! Tx c = Some OpCommit) then m1
    else mkMachine (maxKeys m1) (balances m1) (locks m1) (prepared m1) (<[Tx c := OpAbort]> (decided m1)) in
  (m2, result0).

Definition applyLocked (c : Command) (m : Machine) : Machine * Result :=
  match cOp c with
  | OpPut => putLocked c m
  | OpGet => getLocked c m
  | OpTransfer => transferLocked c m
  | OpPrepare => prepareLocked c m
  | OpCommit => commitLocked c m
  | OpAbort => abortLocked c m
  | OpOther s => (m, failure CodeBadCommand ("unknown op " +:+ fmt_q s))
  end.

(** One row of a snapshot, and the snapshot: every account in key order. *)
Record Account := mkAccount { aKey : string; aBalance : Z; aLockedBy : string }.

Definition account_le (a b : Account) : Prop := str_ltb (aKey b) (aKey a) = false.
#[export] Instance account_le_dec a b : Decision (account_le a b).
Proof. unfold account_le. apply _. Defined.

Definition Snapshot (m : Machine) : list Account :=
  merge_sort account_le
    ((fun '(k, v) => mkAccount k v (default "" (locks m !! k))) <$> map_to_list (balances m)).

(** ** The log's view *)

(** encoding/json of a [Command]: a decoding error carries its text. *)
Class CommandCodec := {
  Encode : Command -> string;
  Decode : string -> Command + string;
}.

Definition Apply `{CommandCodec} (slot : N) (raw : string) (m : Machine) : Machine * Result :=
  match Decode raw with
  | inr err => (m, mkResult CodeBadCommand err 0 slot)
  | inl cmd =>
      let '(m', r) := applyLocked cmd m in
      (m', mkResult (rCode r) (rMsg r) (rValue r) slot)
  end.

(** A replica's machine, for a shard whose bound on accounts is [mk]. *)
Definition ledger_sm `{CommandCodec} (mk : Z) : StateMachine Machine Result :=
  {| sm_init := New mk; sm_apply := Apply |}.

(** ** Well-formed machines *)

Record ledger_inv (m : Machine) : Prop := {
  li_range k v : balances m !! k = Some v -> in_int64 v;
  li_lock k tx : locks m !! k = Some tx -> exists p, prepared m !! tx = Some p /\ Key p = k;
  li_prep tx p : prepared m !! tx = Some p ->
    Tx p = tx /\ cOp p = OpPrepare /\ locks m !! Key p = Some tx /\
    is_Some (balances m !! Key p) /\ decided m !! tx = None;
  li_funds tx p : prepared m !! tx = Some p -> (Amount p < 0)%Z ->
    (0 <= wrap64 (balance m (Key p) + Amount p))%Z;
  li_decided tx op : decided m !! tx = Some op -> op = OpCommit \/ op = OpAbort;
  li_size : (0 < maxKeys m)%Z -> (Z.of_nat (size (balances m)) <= maxKeys m)%Z;
}.

Lemma New_inv mk : ledger_inv (New mk).
Proof.
  split; unfold New; simpl; try (intros *; rewrite lookup_empty; done).
  rewrite map_size_empty. lia.
Qed.

Lemma checkLocked_None m ks :
  checkLocked m ks = None -> forall k, k ∈ ks -> is_Some (balances m !! k) /\ locks m !! k = None.
Proof.
  induction ks as [|k0 ks IH]; simpl; intros H k Hk; [by apply not_elem_of_nil in Hk|].
  destruct (balances m !! k0) eqn:Hb; [|done]. destruct (locks m !! k0) eqn:Hl; [done|].
  apply elem_of_cons in Hk as [->|Hk]; [by rewrite Hb|auto].
Qed.

(** Writing the balance of an account no transaction holds. *)
Lemma write_free_inv m k v :
  ledger_inv m -> locks m !! k = None -> in_int64 v ->
  ((0 < maxKeys m)%Z -> (Z.of_nat (size (<[k := v]> (balances m))) <= maxKeys m)%Z) ->
  ledger_inv (set_balances (<[k := v]> (balances m)) m).
Proof.
  intros I Hfree Hv Hsize.
  assert (forall tx p, prepared m !! tx = Some p -> Key p <> k) as Hother.
  { intros tx p Hp <-. apply (li_prep m I) in Hp as (_ & _ & Hl & _). congruence. }
  split; simpl; auto.
  - intros k' v'. rewrite lookup_insert. case_decide; [by intros [= <-]|]. apply (li_range m I).
  - apply (li_lock m I).
  - intros tx p Hp. destruct (li_prep m I _ _ Hp) as (? & ? & ? & ? & ?). split_and!; auto.
    rewrite lookup_insert_ne by (apply not_eq_sym; eauto). done.
  - intros tx p Hp Hneg. unfold balance; simpl.
    rewrite lookup_insert_ne by (apply not_eq_sym; eauto). exact (li_funds m I _ _ Hp Hneg).
  - apply (li_decided m I).
Qed.

Lemma size_insert_existing (b : gmap string Z) k v :
  is_Some (b !! k) -> size (<[k := v]> b) = size b.
Proof. apply map_size_insert_Some. Qed.

Lemma putLocked_inv c m : in_int64 (Amount c) -> ledger_inv m -> ledger_inv (putLocked c m).1.
Proof.
  intros Ha I. unfold putLocked. destruct (locks m !! Key c) eqn:Hl; [done|].
  destruct (bool_decide _ && _ && _) eqn:Hfull; [done|]. simpl.
  apply write_free_inv; [done..|]. intros Hmax.
  destruct (balances m !! Key c) as [v|] eqn:Hb.
  - rewrite size_insert_existing by (by rewrite Hb). by apply (li_size m I).
  - rewrite map_size_insert_None by done. rewrite bool_decide_true in Hfull by done. simpl in Hfull.
    apply andb_false_iff in Hfull as [Hf|Hf]; [apply Z.ltb_ge in Hf|apply Z.leb_gt in Hf]; lia.
Qed.

Lemma transferLocked_inv c m : ledger_inv m -> ledger_inv (transferLocked c m).1.
Proof.
  intros I. unfold transferLocked. destruct (checkLocked m _) eqn:Hc; [done|].
  pose proof (checkLocked_None _ _ Hc) as Hok.
  destruct (Hok (Key c) ltac:(left)) as [Hb1 Hl1], (Hok (To c) ltac:(right; left)) as [Hb2 Hl2].
  destruct (_ <? _)%Z; [done|]. cbv zeta. cbn [fst].
  apply write_free_inv; simpl; auto using wrap64_range.
  - apply write_free_inv; auto using wrap64_range. rewrite size_insert_existing by done.
    apply (li_size m I).
  - rewrite !size_insert_existing; [apply (li_size m I)|done|].
    rewrite lookup_insert. by case_decide.
Qed.

Lemma prepareLocked_inv c m :
  cOp c = OpPrepare -> ledger_inv m -> ledger_inv (prepareLocked c m).1.
Proof.
  intros Hop I. unfold prepareLocked.
  destruct (prepared m !! Tx c) eqn:Hp; [by destruct (bool_decide _)|].
  destruct (decided m !! Tx c) eqn:Hd; [done|].
  destruct (checkLocked m [Key c]) eqn:Hc; [done|].
  destruct (checkLocked_None _ _ Hc (Key c) ltac:(left)) as [Hb Hl].
  destruct (_ && _) eqn:Hfunds; [done|]. simpl. split; simpl.
  - apply (li_range m I).
  - intros k tx. rewrite !lookup_insert. case_decide.
    + intros [= <-]. exists c. by rewrite decide_True by done.
    + intros Hk. destruct (li_lock m I _ _ Hk) as (p & Hp' & Hk').
      exists p. rewrite decide_False; [done|]. congruence.
  - intros tx p. rewrite !lookup_insert. case_decide; [intros [= <-]; subst tx|].
    + rewrite decide_True by done. by split_and!.
    + intros Hp'. destruct (li_prep m I _ _ Hp') as (? & ? & Hl' & ? & ?).
      rewrite decide_False by congruence. by split_and!.
  - intros tx p. rewrite lookup_insert. unfold balance; simpl.
    case_decide; [intros [= <-] Hneg|apply (li_funds m I)].
    apply andb_false_iff in Hfunds as [Hf|Hf]; [apply Z.ltb_ge in Hf; lia|].
    by apply Z.ltb_ge in Hf.
  - apply (li_decided m I).
  - apply (li_size m I).
Qed.

(** Dropping one transaction's lock and prepare, and deciding it. *)
Lemma settle_inv m tx op :
  ledger_inv m -> op = OpCommit \/ op = OpAbort -> prepared m !! tx = None ->
  ledger_inv (mkMachine (maxKeys m) (balances m) (locks m) (prepared m) (<[tx := op]> (decided m))).
Proof.
  intros I Hop Hnone. split; simpl; try apply I.
  - intros tx' p Hp. destruct (li_prep m I _ _ Hp) as (? & ? & ? & ? & ?).
    rewrite lookup_insert_ne by congruence. by split_and!.
  - intros tx' op'. rewrite lookup_insert. case_decide; [by intros [= <-]|]. apply (li_decided m I).
Qed.

Lemma release_inv m tx p :
  ledger_inv m -> prepared m !! tx = Some p ->
  ledger_inv (mkMachine (maxKeys m) (balances m) (delete (Key p) (locks m)) (delete tx (prepared m)) (decided m)).
Proof.
  intros I Hp. destruct (li_prep m I _ _ Hp) as (HTx & _ & Hlock & _).
  split; simpl; try apply I.
  - intros k tx'. rewrite lookup_delete_Some. intros [Hne Hk].
    destruct (li_lock m I _ _ Hk) as (p' & Hp' & Hk'). exists p'.
    rewrite lookup_delete_ne; [done|]. intros <-. congruence.
  - intros tx' p'. rewrite lookup_delete_Some. intros [Hne Hp'].
    destruct (li_prep m I _ _ Hp') as (? & ? & Hl' & ? & ?).
    rewrite lookup_delete_ne; [by split_and!|]. congruence.
  - intros tx' p'. rewrite lookup_delete_Some. intros [_ Hp']. exact (li_funds m I _ _ Hp').
Qed.

Lemma commitLocked_inv c m : ledger_inv m -> ledger_inv (commitLocked c m).1.
Proof.
  intros I. unfold commitLocked. destruct (bool_decide _); [done|].
  destruct (prepared m !! Tx c) as [p|] eqn:Hp; [|done]. simpl.
  destruct (li_prep m I _ _ Hp) as (HTx & _ & Hlock & Hb & _).
  pose proof (release_inv _ _ _ I Hp) as I1.
  assert (ledger_inv (mkMachine (maxKeys m) (<[Key p := wrap64 (balance m (Key p) + Amount p)]> (balances m))
            (delete (Key p) (locks m)) (delete (Tx c) (prepared m)) (decided m))) as I2.
  { apply (write_free_inv _ (Key p) (wrap64 (balance m (Key p) + Amount p)) I1); simpl.
    - apply lookup_delete_eq.
    - apply wrap64_range.
    - rewrite size_insert_existing by done. apply (li_size m I). }
  apply (settle_inv _ (Tx c) OpCommit I2); simpl; [by left|apply lookup_delete_eq].
Qed.

Lemma abortLocked_inv c m : ledger_inv m -> ledger_inv (abortLocked c m).1.
Proof.
  intros I. unfold abortLocked. destruct (prepared m !! Tx c) as [p|] eqn:Hp; simpl.
  - pose proof (release_inv _ _ _ I Hp) as I1. destruct (bool_decide _); simpl; [done|].
    apply (settle_inv _ (Tx c) OpAbort I1); simpl; [by right|apply lookup_delete_eq].
  - destruct (bool_decide _); simpl; [done|]. apply settle_inv; auto.
Qed.

Lemma applyLocked_inv c m : in_int64 (Amount c) -> ledger_inv m -> ledger_inv (applyLocked c m).1.
Proof.
  intros Ha I. unfold applyLocked. destruct (cOp c) eqn:Hop;
    auto using putLocked_inv, transferLocked_inv, prepareLocked_inv, commitLocked_inv, abortLocked_inv.
  unfold getLocked. by destruct (balances m !! Key c).
Qed.

(** A sequence of commands, as the log applies them. *)
Definition run_cmds (cmds : list Command) (m : Machine) : Machine :=
  fold_left (fun m c => (applyLocked c m).1) cmds m.

Lemma run_cmds_inv cmds m :
  (forall c, c ∈ cmds -> in_int64 (Amount c)) -> ledger_inv m -> ledger_inv (run_cmds cmds m).
Proof.
  revert m. induction cmds as [|c cmds IH]; intros m Hr I; simpl; [done|].
  apply IH; [intros; apply Hr; by right|]. apply applyLocked_inv; [apply Hr; by left|done].
Qed.

(** ** What a decision and a prepare protect *)

Definition decides (tx : string) (c : Command) : Prop :=
  (cOp c = OpCommit \/ cOp c = OpAbort) /\ Tx c = tx.

#[export] Instance decides_dec tx c : Decision (decides tx c).
Proof. unfold decides. apply _. Defined.

Definition commitOf (tx : string) : Command := mkCommand OpCommit "" "" 0 tx.
Definition abortOf (tx : string) : Command := mkCommand OpAbort "" "" 0 tx.

(** The account of a prepared transaction does not move until it is decided. *)
Lemma prepared_protected c m tx p :
  ledger_inv m -> prepared m !! tx = Some p -> ~ decides tx c ->
  prepared (applyLocked c m).1 !! tx = Some p /\
  balances (applyLocked c m).1 !! Key p = balances m !! Key p.
Proof.
  intros I Hp Hnd. destruct (li_prep m I _ _ Hp) as (_ & _ & Hlock & _).
  assert (cOp c = OpCommit \/ cOp c = OpAbort -> Tx c <> tx) as Htx by (intros ? ?; by apply Hnd).
  unfold applyLocked. destruct (cOp c) eqn:Hop; simpl; auto.
  - unfold putLocked. destruct (locks m !! Key c) eqn:Hl; [done|]. destruct (_ && _ && _); [done|].
    simpl. rewrite lookup_insert_ne by congruence. done.
  - unfold getLocked. by destruct (balances m !! Key c).
  - unfold transferLocked. destruct (checkLocked m _) eqn:Hc; [done|].
    pose proof (checkLocked_None _ _ Hc) as Hok.
    destruct (Hok (Key c) ltac:(left)) as [_ H1], (Hok (To c) ltac:(right; left)) as [_ H2].
    destruct (_ <? _)%Z; [done|]. simpl. rewrite !lookup_insert_ne by congruence. done.
  - unfold prepareLocked. destruct (prepared m !! Tx c) eqn:Hp'; [by destruct (bool_decide _)|].
    destruct (decided m !! Tx c); [done|]. destruct (checkLocked m _); [done|].
    destruct (_ && _); [done|]. simpl. rewrite lookup_insert_ne by congruence. done.
  - unfold commitLocked. destruct (bool_decide _); [done|].
    destruct (prepared m !! Tx c) as [q|] eqn:Hq; [|done]. simpl.
    destruct (li_prep m I _ _ Hq) as (_ & _ & Hlq & _).
    rewrite lookup_delete_ne by auto. split; [done|]. rewrite lookup_insert_ne; [done|].
    intros Heq. rewrite Heq in Hlq. rewrite Hlq in Hlock. injection Hlock as Heq'. by apply Htx; [left|].
  - unfold abortLocked. destruct (prepared m !! Tx c) as [q|] eqn:Hq; simpl;
      destruct (bool_decide _); simpl; rewrite ?lookup_delete_ne by auto; done.
Qed.

Lemma prepared_protected_run cmds m tx p :
  ledger_inv m -> (forall c, c ∈ cmds -> in_int64 (Amount c)) -> (forall c, c ∈ cmds -> ~ decides tx c) ->
  prepared m !! tx = Some p ->
  prepared (run_cmds cmds m) !! tx = Some p /\
  balances (run_cmds cmds m) !! Key p = balances m !! Key p.
Proof.
  revert m. induction cmds as [|c cmds IH]; intros m I Hr Hnd Hp; simpl; [done|].
  destruct (prepared_protected c m tx p I Hp) as [Hp' Hb']; [apply Hnd; by left|].
  destruct (IH (applyLocked c m).1) as [H1 H2]; auto.
  - apply applyLocked_inv; [apply Hr; by left|done].
  - intros; apply Hr; by right.
  - intros; apply Hnd; by right.
  - split; [done|]. congruence.
Qed.

(** A YES vote leaves the transaction prepared, and the account as it was. *)
Lemma prepare_yes c m :
  ledger_inv m -> cOp c = OpPrepare -> rCode (applyLocked c m).2 = CodeOK ->
  prepared (applyLocked c m).1 !! Tx c = Some c /\ balances (applyLocked c m).1 = balances m.
Proof.
  intros I Hop. unfold applyLocked. rewrite Hop. unfold prepareLocked.
  destruct (prepared m !! Tx c) as [q|] eqn:Hp.
  { destruct (bool_decide (q = c)) eqn:Heq; [|done]. apply bool_decide_eq_true in Heq as ->. done. }
  destruct (decided m !! Tx c); [done|].
  destruct (checkLocked m _) as [r|] eqn:Hc.
  { simpl in *. destruct (balances m !! Key c); [|by injection Hc as <-].
    destruct (locks m !! Key c); [by injection Hc as <-|done]. }
  destruct (_ && _); [done|]. simpl. by rewrite lookup_insert_eq.
Qed.

Lemma commit_prepared m tx p :
  ledger_inv m -> prepared m !! tx = Some p ->
  let '(m', r) := applyLocked (commitOf tx) m in
  rCode r = CodeOK /\ balances m' = <[Key p := wrap64 (balance m (Key p) + Amount p)]> (balances m) /\
  decided m' !! tx = Some OpCommit.
Proof.
  intros I Hp. destruct (li_prep m I _ _ Hp) as (_ & _ & _ & _ & Hd).
  unfold applyLocked, commitOf; simpl. unfold commitLocked; simpl. rewrite Hd, Hp. simpl.
  split_and!; [done..|]. by rewrite lookup_insert_eq.
Qed.

Lemma no_overdraft_exact b a :
  in_int64 b -> in_int64 a -> (a < 0)%Z -> (0 <= b)%Z -> (0 <= wrap64 (b + a))%Z ->
  wrap64 (b + a) = (b + a)%Z /\ (0 <= b + a)%Z.
Proof.
  intros Hb Ha Hneg Hpos H. assert (wrap64 (b + a) = b + a)%Z as Heq.
  { apply wrap64_id. unfold in_int64, int64_min, int64_max in *. lia. }
  split; [done|]. lia.
Qed.

(** C10: Whatever the log applies between a YES vote and its commit, the commit
    applies the delta to the balance the vote was cast on; a debit of a
    non-negative account leaves it non-negative. *)
Theorem yes_vote_guarantees_commit m c cmds :
  ledger_inv m -> cOp c = OpPrepare -> in_int64 (Amount c) ->
  rCode (applyLocked c m).2 = CodeOK ->
  (forall c', c' ∈ cmds -> in_int64 (Amount c')) -> (forall c', c' ∈ cmds -> ~ decides (Tx c) c') ->
  let m1 := run_cmds cmds (applyLocked c m).1 in
  let '(m2, r) := applyLocked (commitOf (Tx c)) m1 in
  rCode r = CodeOK /\ decided m2 !! Tx c = Some OpCommit /\
  balances m2 !! Key c = Some (wrap64 (balance m (Key c) + Amount c)) /\
  ((Amount c < 0)%Z -> (0 <= balance m (Key c))%Z ->
   balances m2 !! Key c = Some (balance m (Key c) + Amount c)%Z /\ (0 <= balance m (Key c) + Amount c)%Z).
Proof.
  intros I Hop Ha Hyes Hr Hnd m1.
  destruct (prepare_yes c m I Hop Hyes) as [Hp Hb].
  pose proof (applyLocked_inv c m Ha I) as I'.
  destruct (prepared_protected_run cmds _ _ _ I' Hr Hnd Hp) as [Hp1 Hb1].
  pose proof (run_cmds_inv cmds _ Hr I') as I1. fold m1 in Hp1, Hb1, I1.
  assert (balance m1 (Key c) = balance m (Key c)) as Hbal by (unfold balance; by rewrite Hb1, Hb).
  pose proof (commit_prepared m1 (Tx c) c I1 Hp1) as Hcommit.
  destruct (applyLocked (commitOf (Tx c)) m1) as [m2 r]. destruct Hcommit as (HOK & Hb2 & Hd).
  rewrite Hb2, lookup_insert_eq, Hbal. split_and!; [done..|]. intros Hneg Hpos.
  pose proof (li_funds m1 I1 _ _ Hp1 Hneg) as Hfunds. rewrite Hbal in Hfunds.
  destruct (no_overdraft_exact (balance m (Key c)) (Amount c)) as [-> ?]; auto.
  unfold balance. destruct (balances m !! Key c) as [v|] eqn:E; simpl; [exact (li_range m I _ _ E)|].
  unfold in_int64, int64_min, int64_max. lia.
Qed.

(** ** Decisions are final *)

Lemma decision_stays c m tx op :
  ledger_inv m -> decided m !! tx = Some op -> decided (applyLocked c m).1 !! tx = Some op.
Proof.
  intros I Hd. assert (prepared m !! tx = None) as Hnone.
  { destruct (prepared m !! tx) eqn:Hp; [|done].
    apply (li_prep m I) in Hp as (_ & _ & _ & _ & ?). congruence. }
  unfold applyLocked. destruct (cOp c); simpl; auto.
  - unfold putLocked. destruct (locks m !! Key c); [done|]. by destruct (bool_decide _ && _ && _).
  - unfold getLocked. by destruct (balances m !! Key c).
  - unfold transferLocked. destruct (checkLocked _ _); [done|]. by destruct (_ <? _)%Z.
  - unfold prepareLocked. destruct (prepared m !! Tx c); [by destruct (bool_decide _)|].
    destruct (decided m !! Tx c); [done|]. destruct (checkLocked _ _); [done|]. by destruct (_ && _).
  - unfold commitLocked. destruct (bool_decide _); [done|].
    destruct (prepared m !! Tx c) eqn:Hp; [|done]. simpl.
    rewrite lookup_insert_ne by congruence. done.
  - unfold abortLocked.
    assert (forall m1, decided m1 = decided m ->
              decided (if bool_decide (decided m1 !! Tx c = Some OpCommit) then m1
                       else mkMachine (maxKeys m1) (balances m1) (locks m1) (prepared m1)
                              (<[Tx c := OpAbort]> (decided m1))) !! tx = Some op) as Hm.
    { intros m1 Hm1. rewrite Hm1. case_bool_decide as Hc; [by rewrite Hm1|]. simpl.
      rewrite lookup_insert. case_decide as Htx; [|done]. subst tx.
      destruct (li_decided m I _ _ Hd) as [->| ->]; [congruence|done]. }
    cbv zeta. cbn [fst]. apply Hm. by destruct (prepared m !! Tx c).
Qed.

Lemma decision_stays_run cmds m tx op :
  ledger_inv m -> (forall c, c ∈ cmds -> in_int64 (Amount c)) -> decided m !! tx = Some op ->
  decided (run_cmds cmds m) !! tx = Some op.
Proof.
  revert m. induction cmds as [|c cmds IH]; intros m I Hr Hd; simpl; [done|].
  apply IH; [apply applyLocked_inv; [apply Hr; by left|done]|intros; apply Hr; by right|].
  by apply decision_stays.
Qed.

Lemma abort_decides m tx :
  ledger_inv m -> decided m !! tx <> Some OpCommit ->
  decided (applyLocked (abortOf tx) m).1 !! tx = Some OpAbort /\
  prepared (applyLocked (abortOf tx) m).1 !! tx = None.
Proof.
  intros I Hd. unfold applyLocked, abortLocked, abortOf; simpl.
  destruct (prepared m !! tx) eqn:Hp; simpl; rewrite bool_decide_false by done; simpl;
    rewrite lookup_insert_eq, ?lookup_delete_eq; done.
Qed.

(** A PREPARE that arrives after its transaction was aborted -- delayed, or
    retried -- is refused and locks nothing, whatever happened in between. *)
Theorem late_prepare_refused m c cmds :
  ledger_inv m -> decided m !! Tx c <> Some OpCommit -> cOp c = OpPrepare ->
  (forall c', c' ∈ cmds -> in_int64 (Amount c')) ->
  let m1 := run_cmds cmds (applyLocked (abortOf (Tx c)) m).1 in
  (applyLocked c m1).1 = m1 /\ rCode (applyLocked c m1).2 = CodeUnknownTx.
Proof.
  intros I Hd Hop Hr m1. destruct (abort_decides m (Tx c) I Hd) as [Hab _].
  assert (ledger_inv (applyLocked (abortOf (Tx c)) m).1) as I'
    by (apply applyLocked_inv; [done|done]).
  pose proof (decision_stays_run cmds _ _ _ I' Hr Hab) as Hm1. fold m1 in Hm1.
  pose proof (run_cmds_inv cmds _ Hr I') as I1. fold m1 in I1.
  assert (prepared m1 !! Tx c = None) as Hnone.
  { destruct (prepared m1 !! Tx c) eqn:Hp; [|done].
    apply (li_prep m1 I1) in Hp as (_ & _ & _ & _ & ?). congruence. }
  unfold applyLocked. rewrite Hop. unfold prepareLocked. by rewrite Hnone, Hm1.
Qed.

(** Retried decisions change nothing and keep their answer. *)
Theorem decisions_idempotent m tx :
  ledger_inv m ->
  (rCode (applyLocked (commitOf tx) m).2 = CodeOK ->
   applyLocked (commitOf tx) (applyLocked (commitOf tx) m).1 = ((applyLocked (commitOf tx) m).1, result0)) /\
  applyLocked (abortOf tx) (applyLocked (abortOf tx) m).1 = ((applyLocked (abortOf tx) m).1, result0).
Proof.
  intros I. split.
  - destruct (decide (decided m !! tx = Some OpCommit)) as [Hd|Hd].
    + assert (applyLocked (commitOf tx) m = (m, result0)) as E
        by (unfold applyLocked, commitOf, commitLocked; simpl; by rewrite bool_decide_true by done).
      rewrite !E. simpl. by rewrite E.
    + destruct (prepared m !! tx) as [p|] eqn:Hp.
      * intros _. pose proof (commit_prepared m tx p I Hp) as Hc.
        destruct (applyLocked (commitOf tx) m) as [m' r]. destruct Hc as (_ & _ & Hd').
        unfold applyLocked, commitOf, commitLocked; simpl. by rewrite bool_decide_true by done.
      * unfold applyLocked, commitOf, commitLocked; simpl. by rewrite bool_decide_false, Hp by done.
  - destruct (decide (decided m !! tx = Some OpCommit)) as [Hc|Hc].
    + assert ((applyLocked (abortOf tx) m).1 = m) as ->.
      { unfold applyLocked, abortLocked, abortOf; simpl.
        destruct (prepared m !! tx) as [p|] eqn:Hp.
        - apply (li_prep m I) in Hp as (_ & _ & _ & _ & ?). congruence.
        - by rewrite bool_decide_true by done. }
      unfold applyLocked, abortLocked, abortOf; simpl.
      destruct (prepared m !! tx) as [p|] eqn:Hp.
      * apply (li_prep m I) in Hp as (_ & _ & _ & _ & ?). congruence.
      * by rewrite bool_decide_true by done.
    + destruct (abort_decides m tx I Hc) as [Hab Hnone].
      set (m1 := (applyLocked (abortOf tx) m).1) in *.
      unfold applyLocked, abortLocked, abortOf; simpl. rewrite Hnone, bool_decide_false by congruence.
      f_equal. rewrite insert_id by done. by destruct m1.
Qed.

(** ** Conservation of money *)

Definition sumZ (b : gmap string Z) : Z := map_fold (fun _ v acc => (v + acc)%Z) 0%Z b.
Definition total (m : Machine) : Z := sumZ (balances m).

Lemma sumZ_new b k v : b !! k = None -> sumZ (<[k := v]> b) = (v + sumZ b)%Z.
Proof.
  intros Hk. unfold sumZ. rewrite map_fold_insert_L; [done| |done].
  intros j1 j2 z1 z2 y _ _ _. lia.
Qed.

Lemma sumZ_update b k v : sumZ (<[k := v]> b) = (sumZ b - default 0 (b !! k) + v)%Z.
Proof.
  destruct (b !! k) as [x|] eqn:Hk; simpl.
  - rewrite <- (insert_delete_id b k x Hk) at 2. rewrite <- (insert_delete_eq b k v).
    rewrite !sumZ_new by apply lookup_delete_eq. lia.
  - rewrite sumZ_new by done. lia.
Qed.

(** Equality modulo 2^64, which is what Go's int64 addition preserves. *)
Definition eq64 (a b : Z) : Prop := exists k, (a = b + k * 2 ^ 64)%Z.

#[export] Instance eq64_equiv : Equivalence eq64.
Proof.
  split.
  - intros a. exists 0%Z. lia.
  - intros a b [k ->]. exists (- k)%Z. lia.
  - intros a b c [k ->] [j ->]. exists (k + j)%Z. lia.
Qed.

#[export] Instance eq64_add : Proper (eq64 ==> eq64 ==> eq64) Z.add.
Proof. intros a a' [k ->] b b' [j ->]. exists (k + j)%Z. lia. Qed.

#[export] Instance eq64_sub : Proper (eq64 ==> eq64 ==> eq64) Z.sub.
Proof. intros a a' [k ->] b b' [j ->]. exists (k - j)%Z. lia. Qed.

Lemma eq64_of_eq a b : a = b -> eq64 a b.
Proof. by intros ->. Qed.

Lemma wrap64_eq64 z : eq64 (wrap64 z) z.
Proof.
  unfold wrap64. exists (- ((z + 2 ^ 63) / 2 ^ 64))%Z.
  pose proof (Z.div_mod (z + 2 ^ 63) (2 ^ 64) ltac:(lia)). lia.
Qed.

(** What an operation means to add to the money on a shard: only a PUT and the
    first COMMIT of a prepared transaction change it. *)
Definition net_effect (c : Command) (m : Machine) : Z :=
  match cOp c with
  | OpPut => if bool_decide (rCode (applyLocked c m).2 = CodeOK)
             then (Amount c - balance m (Key c))%Z else 0%Z
  | OpCommit => if bool_decide (decided m !! Tx c = Some OpCommit) then 0%Z
                else match prepared m !! Tx c with Some p => Amount p | None => 0%Z end
  | _ => 0%Z
  end.

Lemma total_write m k v : total (set_balances (<[k := v]> (balances m)) m) = (total m - balance m k + v)%Z.
Proof. unfold total, balance; simpl. apply sumZ_update. Qed.

Lemma total_transfer c m : eq64 (total (transferLocked c m).1) (total m).
Proof.
  unfold transferLocked. destruct (checkLocked _ _); [done|]. destruct (_ <? _)%Z; [done|].
  cbv zeta. cbn [fst]. rewrite total_write, total_write. set (m1 := set_balances _ m).
  rewrite !wrap64_eq64. apply eq64_of_eq. lia.
Qed.

Lemma applyLocked_total c m :
  ledger_inv m -> eq64 (total (applyLocked c m).1) (total m + net_effect c m)%Z.
Proof.
  intros I. unfold net_effect, applyLocked. destruct (cOp c) eqn:Hop.
  - unfold putLocked. destruct (locks m !! Key c); [by rewrite Z.add_0_r|].
    destruct (bool_decide _ && _ && _); [by rewrite Z.add_0_r|]. simpl.
    rewrite total_write. apply eq64_of_eq. lia.
  - unfold getLocked. destruct (balances m !! Key c); by rewrite Z.add_0_r.
  - rewrite Z.add_0_r. apply total_transfer.
  - unfold prepareLocked. rewrite Z.add_0_r. destruct (prepared m !! Tx c); [by destruct (bool_decide _)|].
    destruct (decided m !! Tx c); [done|]. destruct (checkLocked _ _); [done|].
    destruct (_ && _); done.
  - unfold commitLocked. destruct (bool_decide _); [by rewrite Z.add_0_r|].
    destruct (prepared m !! Tx c) as [p|]; [|by rewrite Z.add_0_r]. cbn [fst].
    unfold total; cbn [balances]. rewrite sumZ_update. fold (balance m (Key p)).
    rewrite wrap64_eq64. apply eq64_of_eq. lia.
  - unfold abortLocked. rewrite Z.add_0_r. cbv zeta. cbn [fst].
    destruct (prepared m !! Tx c); cbn [decided]; destruct (bool_decide _); done.
  - by rewrite Z.add_0_r.
Qed.

(** The money a log brings into a shard, command by command. *)
Fixpoint net_effects (cmds : list Command) (m : Machine) : Z :=
  match cmds with
  | [] => 0%Z
  | c :: rest => (net_effect c m + net_effects rest (applyLocked c m).1)%Z
  end.

Lemma run_cmds_total cmds m :
  ledger_inv m -> (forall c, c ∈ cmds -> in_int64 (Amount c)) ->
  eq64 (total (run_cmds cmds m)) (total m + net_effects cmds m)%Z.
Proof.
  revert m. induction cmds as [|c cmds IH]; intros m I Hr; simpl; [by rewrite Z.add_0_r|].
  rewrite IH; [|apply applyLocked_inv; [apply Hr; by left|done]|intros; apply Hr; by right].
  rewrite applyLocked_total by done. apply eq64_of_eq. lia.
Qed.

(** C16: Whatever a log does, the money on a shard changes only by its puts and by
    the first commit of each prepared transaction. *)
Theorem money_is_conserved cmds m :
  ledger_inv m -> (forall c, c ∈ cmds -> in_int64 (Amount c)) ->
  eq64 (total (run_cmds cmds m)) (total m + net_effects cmds m)%Z.
Proof. apply run_cmds_total. Qed.

(** ** Transfers within a shard *)
Theorem transfer_moves_exactly c m :
  ledger_inv m -> cOp c = OpTransfer -> (0 <= Amount c)%Z -> Key c <> To c ->
  rCode (applyLocked c m).2 = CodeOK -> in_int64 (balance m (To c) + Amount c) ->
  let m' := (applyLocked c m).1 in
  balance m' (Key c) = (balance m (Key c) - Amount c)%Z /\ (0 <= balance m' (Key c))%Z /\
  balance m' (To c) = (balance m (To c) + Amount c)%Z /\
  (forall k, k <> Key c -> k <> To c -> balances m' !! k = balances m !! k) /\
  rValue (applyLocked c m).2 = balance m' (Key c) /\
  locks m' = locks m /\ prepared m' = prepared m /\ decided m' = decided m.
Proof.
  intros I Hop Ha Hne HOK Hto. unfold applyLocked in *. rewrite Hop in *. unfold transferLocked in *.
  destruct (checkLocked m _) as [r|] eqn:Hc.
  { exfalso. simpl in *. clear Hto.
    destruct (balances m !! Key c); [|by injection Hc as <-].
    destruct (locks m !! Key c); [by injection Hc as <-|].
    destruct (balances m !! To c); [|by injection Hc as <-].
    destruct (locks m !! To c); [by injection Hc as <-|done]. }
  destruct (Z.ltb_spec (balance m (Key c)) (Amount c)) as [|Hfunds]; [done|]. cbv zeta in *. cbn [fst snd].
  destruct (checkLocked_None _ _ Hc (Key c) ltac:(left)) as [[v Hv] _].
  assert (wrap64 (balance m (Key c) - Amount c) = balance m (Key c) - Amount c)%Z as Hw.
  { apply wrap64_id. pose proof (li_range m I _ _ Hv). unfold balance in *. rewrite Hv in *. simpl in *.
    unfold in_int64, int64_min, int64_max in *. lia. }
  rewrite Hw. set (m1 := set_balances _ m).
  assert (balance m1 (To c) = balance m (To c)) as Hb1.
  { unfold m1, balance; simpl. by rewrite lookup_insert_ne. }
  rewrite Hb1, (wrap64_id (balance m (To c) + Amount c)) by done.
  unfold m1, balance, value; simpl. rewrite !lookup_insert_eq.
  rewrite (lookup_insert_ne _ (To c) (Key c)) by done. rewrite lookup_insert_eq. simpl.
  split_and!; try done; [unfold balance in Hfunds; lia|].
  intros k Hk1 Hk2. by rewrite !lookup_insert_ne by done.
Qed.

(** ** Snapshots *)

#[export] Instance account_le_total : Total account_le.
Proof.
  intros a b. unfold account_le, str_ltb. rewrite (str_compare_antisym (aKey a) (aKey b)).
  destruct (String.compare _ _); simpl; auto.
Qed.

#[export] Instance account_le_trans : Transitive account_le.
Proof.
  intros a b c. unfold account_le, str_ltb.
  rewrite (str_compare_antisym (aKey a) (aKey b)), (str_compare_antisym (aKey b) (aKey c)),
    (str_compare_antisym (aKey a) (aKey c)).
  destruct (String.compare (aKey a) (aKey b)) eqn:E1; simpl; try done;
    destruct (String.compare (aKey b) (aKey c)) eqn:E2; simpl; try done; intros _ _.
  - apply str_compare_eq in E1 as ->. by rewrite E2.
  - apply str_compare_eq in E1 as ->. by rewrite E2.
  - apply str_compare_eq in E2 as <-. by rewrite E1.
  - by rewrite (str_compare_lt_trans _ _ _ E1 E2).
Qed.

Theorem snapshot_complete m :
  StronglySorted account_le (Snapshot m) /\
  forall a, a ∈ Snapshot m <->
    balances m !! aKey a = Some (aBalance a) /\ aLockedBy a = default "" (locks m !! aKey a).
Proof.
  unfold Snapshot. split; [apply StronglySorted_merge_sort; apply _|].
  intros a. rewrite merge_sort_Permutation, list_elem_of_fmap. split.
  - intros ([k v] & -> & Hin). by apply elem_of_map_to_list in Hin.
  - intros [Hb Hl]. exists (aKey a, aBalance a). split; [|by apply elem_of_map_to_list].
    destruct a; simpl in *. by rewrite Hl.
Qed.

(** ** Where the width shows *)

(** The check [balance+c.Amount < 0] of a debit wraps: an account at the bottom
    of the range passes it, and a credit can push a full account negative. *)
Theorem funds_check_wraps :
  let m := set_balances {["a" := int64_min]} (New 0) in
  let prep := mkCommand OpPrepare "a" "" (-1) "t" in
  rCode (applyLocked prep m).2 = CodeOK /\
  balance (applyLocked (commitOf "t") (applyLocked prep m).1).1 "a" = int64_max /\
  let m' := set_balances {["a" := int64_max]} (New 0) in
  let credit := mkCommand OpPrepare "a" "" 1 "t" in
  rCode (applyLocked credit m').2 = CodeOK /\
  balance (applyLocked (commitOf "t") (applyLocked credit m').1).1 "a" = int64_min.
Proof. vm_compute. done. Qed.

(** ** Instances of the theorems *)

Module Examples.
(** Two accounts, put there through the log. *)
Definition opening : list Command :=
  [mkCommand OpPut "a" "" 100 ""; mkCommand OpPut "b" "" 5 ""].
Definition bank0 : Machine := run_cmds opening (New 0).
Definition debit_a : Command := mkCommand OpPrepare "a" "" (-40) "t".
Definition meanwhile : list Command :=
  [mkCommand OpTransfer "a" "b" 90 ""; mkCommand OpPut "a" "" 0 ""; mkCommand OpTransfer "b" "a" 5 "";
   mkCommand OpPrepare "a" "" 7 "u"; mkCommand OpCommit "" "" 0 "u"; mkCommand OpPut "b" "" 77 ""].

Lemma small_amounts cmds :
  forallb (fun c => bool_decide (in_int64 (Amount c))) cmds = true ->
  forall c, c ∈ cmds -> in_int64 (Amount c).
Proof.
  intros H c Hc. rewrite forallb_forall in H. apply list_elem_of_In in Hc.
  by apply H, bool_decide_eq_true in Hc.
Qed.

Lemma bank0_inv : ledger_inv bank0.
Proof. apply run_cmds_inv; [by apply small_amounts|apply New_inv]. Qed.

Lemma undecided tx cmds :
  forallb (fun c => negb (bool_decide (decides tx c))) cmds = true ->
  forall c, c ∈ cmds -> ~ decides tx c.
Proof.
  intros H c Hc. rewrite forallb_forall in H. apply list_elem_of_In in Hc.
  by apply H, negb_true_iff, bool_decide_eq_false in Hc.
Qed.

Lemma meanwhile_small : forallb (fun c => bool_decide (in_int64 (Amount c))) meanwhile = true.
Proof. vm_compute. reflexivity. Qed.
Lemma meanwhile_undecided : forallb (fun c => negb (bool_decide (decides "t" c))) meanwhile = true.
Proof. vm_compute. reflexivity. Qed.
Lemma debit_small : in_int64 (Amount debit_a).
Proof. vm_compute. split; discriminate. Qed.
Lemma debit_yes : rCode (applyLocked debit_a bank0).2 = CodeOK.
Proof. vm_compute. reflexivity. Qed.

Lemma yes_vote_guarantees_commit_witness :
  balances (applyLocked (commitOf "t") (run_cmds meanwhile (applyLocked debit_a bank0).1)).1 !! "a"
    = Some 60%Z.
Proof.
  pose proof (yes_vote_guarantees_commit bank0 debit_a meanwhile bank0_inv eq_refl
                debit_small debit_yes
                (small_amounts meanwhile meanwhile_small)
                (undecided "t" meanwhile meanwhile_undecided)) as H.
  vm_compute in H. vm_compute. exact (proj1 (proj2 (proj2 H))).
Defined.

Lemma late_prepare_refused_witness :
  rCode (applyLocked debit_a (run_cmds meanwhile (applyLocked (abortOf "t") bank0).1)).2 = CodeUnknownTx.
Proof.
  exact (proj2 (late_prepare_refused bank0 debit_a meanwhile bank0_inv
                  ltac:(vm_compute; discriminate) eq_refl
                  (small_amounts meanwhile meanwhile_small))).
Defined.

Lemma decisions_idempotent_witness :
  let m := (applyLocked debit_a bank0).1 in
  applyLocked (commitOf "t") (applyLocked (commitOf "t") m).1 = ((applyLocked (commitOf "t") m).1, result0).
Proof.
  apply (proj1 (decisions_idempotent (applyLocked debit_a bank0).1 "t"
                  (applyLocked_inv debit_a bank0 debit_small bank0_inv))).
  vm_compute. reflexivity.
Defined.

Lemma money_is_conserved_witness :
  eq64 (total (run_cmds meanwhile bank0)) (total bank0 + net_effects meanwhile bank0)%Z.
Proof.
  exact (money_is_conserved meanwhile bank0 bank0_inv (small_amounts meanwhile meanwhile_small)).
Defined.

Lemma transfer_moves_exactly_witness :
  balance (applyLocked (mkCommand OpTransfer "a" "b" 30 "") bank0).1 "a" = 70%Z.
Proof.
  pose proof (transfer_moves_exactly (mkCommand OpTransfer "a" "b" 30 "") bank0 bank0_inv eq_refl
           ltac:(simpl; lia) ltac:(discriminate) ltac:(vm_compute; reflexivity)
           ltac:(vm_compute; split; discriminate)) as H.
  vm_compute in H. vm_compute. exact (proj1 H).
Defined.
End Examples.
