(* ===== verification/TwoPC.v ===== *)
(** * internal/twopc/twopc.go: the coordinator of a cross-shard transfer

    [Transfer] is the coordinator's code, over an arbitrary way [do_call] of
    calling a participant.  [Participant] is the interface the package states
    and [ParticipantLaws] what a participant promises behind it: that it
    follows the automaton of [tx_status].  [Network] is what the coordinator sees of the way to
    its participants, and atomicity is proved of every network that keeps
    [NetworkLaws]: of one that delays, duplicates, reorders and drops calls and
    loses their answers ([World]), and of the cluster's engine
    (EngineTransfer.v). *)

From S2P Require Import Prelude GoText Ledger.

(** ** The coordinator *)

Inductive call :=
  | CPrepare (p tx key : string) (delta : Z)
  | CCommit (p tx : string)
  | CAbort (p tx : string).

#[export] Instance call_eq_dec : EqDecision call.
Proof. solve_decision. Defined.

Definition call_part (c : call) : string :=
  match c with CPrepare p _ _ _ | CCommit p _ | CAbort p _ => p end.
Definition call_tx (c : call) : string :=
  match c with CPrepare _ tx _ _ | CCommit _ tx | CAbort _ tx => tx end.

Record leg := mkLeg { l_part : string; l_key : string; l_delta : Z }.

(** What [Transfer] returns: nil, the refusal of a participant, or
    [ErrInDoubt] with the participants that have not applied the commit. *)
Inductive outcome (E : Type) :=
  | TCommitted
  | TRefused (who : string) (err : E)
  | TInDoubt (undelivered : list string).
Arguments TCommitted {E}.
Arguments TRefused {E} who err.
Arguments TInDoubt {E} undelivered.

Section Coordinator.
Context {W E : Type} (do_call : call -> W -> W * option E).

(** Phase 1: the refusal, if any, and the number of YES votes. *)
Fixpoint prepare_loop (tx : string) (legs : list leg) (refusal : option (string * E)) (prepared : nat) (w : W)
    : W * option (string * E) * nat :=
  match legs with
  | [] => (w, refusal, prepared)
  | l :: rest =>
      match refusal with
      | Some _ => prepare_loop tx rest refusal prepared w
      | None =>
          let '(w', err) := do_call (CPrepare (l_part l) tx (l_key l) (l_delta l)) w in
          match err with
          | Some e => prepare_loop tx rest (Some (l_part l, e)) prepared w'
          | None => prepare_loop tx rest None (S prepared) w'
          end
      end
  end.

(** An abort that cannot be delivered is only logged. *)
Fixpoint abort_loop (tx : string) (legs : list leg) (w : W) : W :=
  match legs with
  | [] => w
  | l :: rest => abort_loop tx rest (do_call (CAbort (l_part l) tx) w).1
  end.

Fixpoint commit_loop (tx : string) (legs : list leg) (undelivered : list string) (w : W) : W * list string :=
  match legs with
  | [] => (w, undelivered)
  | l :: rest =>
      let '(w', err) := do_call (CCommit (l_part l) tx) w in
      match err with
      | Some _ => commit_loop tx rest (undelivered ++ [l_part l]) w'
      | None => commit_loop tx rest undelivered w'
      end
  end.

Definition run_legs (tx : string) (legs : list leg) (w : W) : W * outcome E :=
  let '(w1, refusal, _) := prepare_loop tx legs None 0 w in
  match refusal with
  | Some (who, err) => (abort_loop tx legs w1, TRefused who err)
  | None =>
      let '(w2, undelivered) := commit_loop tx legs [] w1 in
      (w2, if 0 <? length undelivered then TInDoubt undelivered else TCommitted)
  end.

(** [seq] is the coordinator's counter before the call. *)
Definition tx_name (seq : N) : string := "tx" +:+ fmt_N (u64 (seq + 1)).

Definition transfer_legs (from fromKey to toKey : string) (amount : Z) : list leg :=
  [mkLeg from fromKey (wrap64 (- amount)); mkLeg to toKey amount].

Definition Transfer (seq : N) (from fromKey to toKey : string) (amount : Z) (w : W)
    : W * outcome E * N :=
  let '(w', r) := run_legs (tx_name seq) (transfer_legs from fromKey to toKey amount) w in
  (w', r, u64 (seq + 1)).

(** [retryInBackground]: one attempt per tick until one succeeds; the boolean
    says whether it did before the ticks, or the coordinator, ended. *)
Fixpoint retryInBackground (ticks : nat) (tx p : string) (w : W) : W * bool :=
  match ticks with
  | O => (w, false)
  | S ticks' =>
      let '(w', err) := do_call (CCommit p tx) w in
      match err with
      | None => (w', true)
      | Some _ => retryInBackground ticks' tx p w'
      end
  end.
End Coordinator.

(** ** Participants *)

(** What a participant knows of a transaction. *)
Inductive tx_status :=
  | Working
  | Ready (key : string) (delta : Z)
  | Committed
  | Aborted.

#[export] Instance tx_status_eq_dec : EqDecision tx_status.
Proof. solve_decision. Defined.

(** The automaton: the answers are the code's error (false) or nil (true). *)
Definition commit_status (s : tx_status) : tx_status * bool :=
  match s with
  | Ready _ _ | Committed => (Committed, true)
  | Working | Aborted => (s, false)
  end.

Definition abort_status (s : tx_status) : tx_status * bool :=
  match s with Committed => (Committed, true) | _ => (Aborted, true) end.

Inductive prepare_status (key : string) (delta : Z) : tx_status -> tx_status -> bool -> Prop :=
  | ps_yes : prepare_status key delta Working (Ready key delta) true
  | ps_again : prepare_status key delta (Ready key delta) (Ready key delta) true
  | ps_no s : prepare_status key delta s s false.

Class Participant (M : Type) := {
  p_prepare : string -> string -> Z -> M -> M * bool;
  p_commit : string -> M -> M * bool;
  p_abort : string -> M -> M * bool;
  p_status : M -> string -> tx_status;
  p_money : M -> Z;
}.

Class ParticipantLaws (M : Type) `{Participant M} := {
  p_inv : M -> Prop;
  p_prepare_law tx key delta m : p_inv m -> in_int64 delta ->
    let '(m', ok) := p_prepare tx key delta m in
    p_inv m' /\ prepare_status key delta (p_status m tx) (p_status m' tx) ok /\
    (forall tx', tx' <> tx -> p_status m' tx' = p_status m tx') /\ eq64 (p_money m') (p_money m);
  p_commit_law tx m : p_inv m ->
    let '(m', ok) := p_commit tx m in
    p_inv m' /\ (p_status m' tx, ok) = commit_status (p_status m tx) /\
    (forall tx', tx' <> tx -> p_status m' tx' = p_status m tx') /\
    eq64 (p_money m') (p_money m + match p_status m tx with Ready _ d => d | _ => 0 end);
  p_abort_law tx m : p_inv m ->
    let '(m', ok) := p_abort tx m in
    p_inv m' /\ (p_status m' tx, ok) = abort_status (p_status m tx) /\
    (forall tx', tx' <> tx -> p_status m' tx' = p_status m tx') /\ eq64 (p_money m') (p_money m);
}.

(** ** What the coordinator sees of a network *)

Definition run_call {M} `{Participant M} (c : call) (m : M) : M * bool :=
  match c with
  | CPrepare _ tx key delta => p_prepare tx key delta m
  | CCommit _ tx => p_commit tx m
  | CAbort _ tx => p_abort tx m
  end.

(** Calls that are allowed keep what is good, and so do the [foreign] changes of
    a participant, which are no calls of a coordinator. *)
Definition closed {M} `{ParticipantLaws M} (foreign : M -> M -> Prop) (allowed : call -> Prop)
    (good : string -> M -> Prop) : Prop :=
  (forall c m, allowed c -> p_inv m -> good (call_part c) m ->
     p_inv (run_call c m).1 /\ good (call_part c) (run_call c m).1) /\
  (forall p m m', foreign m m' -> p_inv m -> good p m -> p_inv m' /\ good p m').

(** The participants by name; the calls that can be made; that whatever may still
    take effect is an allowed call or a foreign change; and a call. *)
Class Network (M W E : Type) := {
  n_mach : W -> string -> option M;
  n_known : call -> Prop;
  n_flight : (M -> M -> Prop) -> (call -> Prop) -> W -> Prop;
  n_call : call -> W -> W * option E;
}.

Definition net_ok {M W E} `{ParticipantLaws M, !Network M W E} (foreign : M -> M -> Prop) (allowed : call -> Prop)
    (good : string -> M -> Prop) (w : W) : Prop :=
  n_flight foreign allowed w /\ (forall p m, n_mach w p = Some m -> p_inv m /\ good p m).

(** Nobody joins or leaves. *)
Definition same_dom {M W E} `{!Network M W E} (w w' : W) : Prop :=
  forall p, is_Some (n_mach w' p) <-> is_Some (n_mach w p).

(** A call keeps what is good, and an answered YES was given by a good machine
    that the call ran on; what happened after it is in flight like the rest. *)
Class NetworkLaws (M W E : Type) `{ParticipantLaws M, !Network M W E} := {
  n_flight_mono foreign (allowed allowed' : call -> Prop) w :
    (forall c, allowed c -> allowed' c) -> n_flight foreign allowed w -> n_flight foreign allowed' w;
  n_call_law foreign allowed good c w :
    closed foreign allowed good -> net_ok foreign allowed good w -> allowed c -> n_known c ->
    let '(w', err) := n_call c w in
    net_ok foreign allowed good w' /\ same_dom w w' /\
    (err = None -> exists m m', p_inv m /\ (run_call c m).2 = true /\ n_mach w' (call_part c) = Some m' /\
       forall good', closed foreign allowed good' -> good' (call_part c) (run_call c m).1 -> good' (call_part c) m');
}.

(** ** An adversarial network

    Every call ever made is in [sent]; the schedule decides which of them take
    effect, when, in which order and how often, and which calls are answered. *)

Section AnyNetwork.
Context {M : Type} `{PL : ParticipantLaws M}.

Record World := mkWorld {
  shards : gmap string M;
  sent : list call;
  oracle : list (list nat * bool);
}.

(** A call takes effect at its participant. *)
Definition effect (c : call) (w : World) : World * bool :=
  match shards w !! call_part c with
  | None => (w, false)
  | Some m =>
      let '(m', ok) := run_call c m in
      (mkWorld (<[call_part c := m']> (shards w)) (sent w) (oracle w), ok)
  end.

Fixpoint deliver (picks : list nat) (w : World) : World :=
  match picks with
  | [] => w
  | j :: rest =>
      deliver rest (match sent w !! j with Some c => (effect c w).1 | None => w end)
  end.

(** The coordinator's call: the network does what its schedule says, then the
    call is answered, or times out with the call still in flight. *)
Definition net_call (c : call) (w : World) : World * option unit :=
  let '(picks, answered) := default ([], false) (head (oracle w)) in
  let w1 := deliver picks (mkWorld (shards w) (sent w ++ [c]) (tail (oracle w))) in
  if answered : bool then
    let '(w2, ok) := effect c w1 in (w2, if ok : bool then None else Some tt)
  else (w1, Some tt).

#[export] Instance world_network : Network M World unit := {|
  n_mach w p := shards w !! p;
  n_known _ := True;
  n_flight _ allowed w := forall c, c ∈ sent w -> allowed c;
  n_call := net_call;
|}.

(** ** Invariants of the network *)

Lemma effect_sent c w : sent (effect c w).1 = sent w.
Proof. unfold effect. destruct (_ !! _); [|done]. by destruct (run_call _ _). Qed.

Lemma effect_dom c w p : is_Some (shards (effect c w).1 !! p) <-> is_Some (shards w !! p).
Proof.
  unfold effect. destruct (shards w !! call_part c) as [m|] eqn:Hm; [|done].
  destruct (run_call _ _). simpl. rewrite lookup_insert. case_decide; [|done].
  subst p. rewrite Hm. by split.
Qed.

Lemma effect_ok foreign allowed good c w :
  closed foreign allowed good -> net_ok foreign allowed good w -> allowed c ->
  net_ok foreign allowed good (effect c w).1.
Proof.
  intros [Hcl _] [Hs Hm] Hc. split; [by simpl; rewrite effect_sent|]. simpl in *.
  unfold effect. destruct (shards w !! call_part c) as [m|] eqn:Hp; [|done].
  destruct (Hm _ _ Hp) as [I Hg]. pose proof (Hcl c m Hc I Hg) as Hnew.
  destruct (run_call c m) as [m' ok]. simpl in *. intros p n. rewrite lookup_insert.
  case_decide; [intros [= <-]; by subst p|auto].
Qed.

Lemma deliver_ok foreign allowed good picks w :
  closed foreign allowed good -> net_ok foreign allowed good w ->
  net_ok foreign allowed good (deliver picks w).
Proof.
  intros Hcl. revert w. induction picks as [|j picks IH]; intros w Hw; simpl; [done|].
  apply IH. destruct (sent w !! j) as [c|] eqn:Hj; [|done].
  apply effect_ok; [done..|]. destruct Hw as [Hs _]. apply Hs. by eapply list_elem_of_lookup_2.
Qed.

Lemma deliver_dom picks w : same_dom w (deliver picks w).
Proof.
  unfold same_dom. simpl. revert w. induction picks as [|j picks IH]; intros w p; simpl; [done|].
  rewrite IH. destruct (sent w !! j); [apply effect_dom|done].
Qed.

(** A call keeps what is good, and an answered YES was given by a good
    machine that the call has just run on. *)
Lemma net_call_ok foreign allowed good c w :
  closed foreign allowed good -> net_ok foreign allowed good w -> allowed c ->
  let '(w', err) := net_call c w in
  net_ok foreign allowed good w' /\ same_dom w w' /\
  (err = None -> exists m, p_inv m /\ shards w' !! call_part c = Some (run_call c m).1 /\ (run_call c m).2 = true).
Proof.
  intros Hcl Hw Hc. unfold net_call. destruct (default _ _) as [picks answered].
  set (w0 := mkWorld _ _ _). assert (net_ok foreign allowed good w0) as Hw0.
  { destruct Hw as [Hs Hm]. split; [|done]. simpl. intros c' [?| ->]%elem_of_snoc; auto. }
  pose proof (deliver_ok foreign allowed good picks w0 Hcl Hw0) as Hw1. set (w1 := deliver picks w0) in *.
  assert (same_dom w w1) as Hdom by (intros p; apply (deliver_dom picks w0)).
  destruct answered; [|done].
  pose proof (effect_ok foreign allowed good c w1 Hcl Hw1 Hc) as Hw2.
  pose proof (effect_dom c w1) as Hdom2. unfold effect in *.
  destruct (shards w1 !! call_part c) as [m|] eqn:Hm; [|done].
  destruct Hw1 as [_ Hw1]. destruct (Hw1 _ _ Hm) as [I Hg].
  destruct (run_call c m) as [m' ok] eqn:Hrun. split_and!; [done| |].
  - intros p. unfold same_dom in Hdom. simpl in *. by rewrite Hdom2.
  - destruct ok; [|done]. intros _. exists m. rewrite Hrun. simpl. by rewrite lookup_insert_eq.
Qed.

#[export] Instance world_network_laws : NetworkLaws M World unit.
Proof.
  split; simpl; [auto|]. intros foreign allowed good c w Hcl Hw Hc _.
  pose proof (net_call_ok foreign allowed good c w Hcl Hw Hc) as Hcall. destruct (net_call c w) as [w' err].
  destruct Hcall as (Hw' & Hdom & Hyes). split_and!; [done..|]. intros He. destruct (Hyes He) as (m & I & Hm & Hok).
  exists m, (run_call c m).1. auto.
Qed.
End AnyNetwork.

Arguments World : clear implicits.

(** ** Atomicity *)

Section Atomicity.
Context {M W E : Type} `{PL : ParticipantLaws M} `{NW : !Network M W E} `{NL : !NetworkLaws M W E}.
Context (tx : string) (legs : list leg).

Implicit Types (w : W) (m : M).

Definition status_of w (p : string) : option tx_status :=
  (fun m => p_status m tx) <$> n_mach w p.

Definition prepare_of (l : leg) : call := CPrepare (l_part l) tx (l_key l) (l_delta l).

(** The calls of the transfer. *)
Definition any_call (c : call) : Prop :=
  exists l, l ∈ legs /\ (c = prepare_of l \/ c = CCommit (l_part l) tx \/ c = CAbort (l_part l) tx).

(** Foreign changes leave the transaction alone. *)
Context (foreign : M -> M -> Prop).
Context (Hforeign : forall m m', foreign m m' -> p_inv m -> p_inv m' /\ p_status m' tx = p_status m tx).
Context (Hnodup : NoDup (l_part <$> legs)) (Hrange : forall l, l ∈ legs -> in_int64 (l_delta l)).
Context (Hknown : forall c, any_call c -> n_known c).

(** Calls of other transactions, and the calls of this one by phase. *)
Definition other_call (c : call) : Prop :=
  call_tx c <> tx /\ match c with CPrepare _ _ _ d => in_int64 d | _ => True end.
Definition allowed_prep (c : call) : Prop := other_call c \/ exists l, l ∈ legs /\ c = prepare_of l.
Definition allowed_abort (c : call) : Prop :=
  allowed_prep c \/ exists l, l ∈ legs /\ c = CAbort (l_part l) tx.
Definition allowed_commit (c : call) : Prop :=
  allowed_prep c \/ exists l, l ∈ legs /\ c = CCommit (l_part l) tx.

Definition good_prep (need : list string) (p : string) m : Prop :=
  (p_status m tx = Working /\ p ∉ need) \/
  exists l, l ∈ legs /\ l_part l = p /\ p_status m tx = Ready (l_key l) (l_delta l).
Definition good_abort (p : string) m : Prop := p_status m tx <> Committed.
Definition good_commit (done : list string) (p : string) m : Prop :=
  (p ∈ done -> p_status m tx = Committed) /\
  forall l, l ∈ legs -> l_part l = p ->
    p_status m tx = Committed \/ p_status m tx = Ready (l_key l) (l_delta l).

Lemma leg_unique l l' : l ∈ legs -> l' ∈ legs -> l_part l = l_part l' -> l = l'.
Proof.
  intros Hl Hl' Heq. apply list_elem_of_lookup in Hl as [i Hi], Hl' as [j Hj].
  assert (i = j) as ->; [|congruence].
  eapply NoDup_lookup; [exact Hnodup| |]; rewrite list_lookup_fmap; [by rewrite Hi|].
  rewrite Hj. simpl. congruence.
Qed.

(** What one call does to this transaction's status. *)
Lemma run_other c m :
  other_call c -> p_inv m -> p_inv (run_call c m).1 /\ p_status (run_call c m).1 tx = p_status m tx.
Proof.
  intros [Htx Hd] I. destruct c as [p t k d|p t|p t]; simpl in *.
  - pose proof (p_prepare_law t k d m I Hd) as Hlaw. destruct (p_prepare _ _ _ _).
    destruct Hlaw as (? & _ & Ho & _). auto.
  - pose proof (p_commit_law t m I) as Hlaw. destruct (p_commit _ _). destruct Hlaw as (? & _ & Ho & _). auto.
  - pose proof (p_abort_law t m I) as Hlaw. destruct (p_abort _ _). destruct Hlaw as (? & _ & Ho & _). auto.
Qed.

Lemma run_prepare l m :
  l ∈ legs -> p_inv m ->
  p_inv (run_call (prepare_of l) m).1 /\
  prepare_status (l_key l) (l_delta l) (p_status m tx) (p_status (run_call (prepare_of l) m).1 tx)
    (run_call (prepare_of l) m).2.
Proof.
  intros Hl I. pose proof (p_prepare_law tx (l_key l) (l_delta l) m I (Hrange l Hl)) as Hlaw.
  simpl. destruct (p_prepare _ _ _ _). destruct Hlaw as (? & ? & _). auto.
Qed.

Lemma run_commit p m :
  p_inv m -> p_inv (run_call (CCommit p tx) m).1 /\
  (p_status (run_call (CCommit p tx) m).1 tx, (run_call (CCommit p tx) m).2) = commit_status (p_status m tx).
Proof.
  intros I. pose proof (p_commit_law tx m I) as Hlaw. simpl. destruct (p_commit _ _).
  destruct Hlaw as (? & ? & _). auto.
Qed.

Lemma run_abort p m :
  p_inv m -> p_inv (run_call (CAbort p tx) m).1 /\
  (p_status (run_call (CAbort p tx) m).1 tx, (run_call (CAbort p tx) m).2) = abort_status (p_status m tx).
Proof.
  intros I. pose proof (p_abort_law tx m I) as Hlaw. simpl. destruct (p_abort _ _).
  destruct Hlaw as (? & ? & _). auto.
Qed.

Lemma closed_prep need : closed foreign allowed_prep (good_prep need).
Proof.
  split; [|intros p m m' Hf I Hg; destruct (Hforeign m m' Hf I) as [? Hs]; split; [done|]; unfold good_prep; by rewrite Hs].
  intros c m [Ho|(l & Hl & ->)] I Hg.
  - destruct (run_other c m Ho I) as [? Hs]. split; [done|]. unfold good_prep. by rewrite Hs.
  - destruct (run_prepare l m Hl I) as [? Hs]. split; [done|]. simpl call_part in *.
    unfold good_prep in *. revert Hs.
    generalize (p_status (run_call (prepare_of l) m).1 tx) ((run_call (prepare_of l) m).2).
    intros s' ok Hs. inversion Hs as [E1 E2 E3|E1 E2 E3|s E1 E2 E3]; subst; by eauto.
Qed.

Lemma closed_abort : closed foreign allowed_abort good_abort.
Proof.
  split; [|intros p m m' Hf I Hg; destruct (Hforeign m m' Hf I) as [? Hs]; split; [done|]; unfold good_abort; by rewrite Hs].
  unfold good_abort. intros c m [[Ho|(l & Hl & ->)]|(l & Hl & ->)] I Hg.
  - destruct (run_other c m Ho I) as [? Hs]. by rewrite Hs.
  - destruct (run_prepare l m Hl I) as [? Hs]. split; [done|]. revert Hs.
    generalize (p_status (run_call (prepare_of l) m).1 tx) ((run_call (prepare_of l) m).2).
    intros s' ok Hs. inversion Hs; congruence.
  - destruct (run_abort (l_part l) m I) as [? Hs]. split; [done|].
    revert Hs Hg. destruct (p_status m tx); cbn [abort_status]; intros Hs Hg; try done;
      apply (f_equal fst) in Hs; cbn [fst] in Hs; by rewrite Hs.
Qed.

Lemma closed_commit done : closed foreign allowed_commit (good_commit done).
Proof.
  split; [|intros p m m' Hf I Hg; destruct (Hforeign m m' Hf I) as [? Hs]; split; [done|]; unfold good_commit; by rewrite Hs].
  unfold good_commit. intros c m [[Ho|(l & Hl & ->)]|(l & Hl & ->)] I [Hd Hg].
  - destruct (run_other c m Ho I) as [? Hs]. by rewrite Hs.
  - destruct (run_prepare l m Hl I) as [? Hs]. split; [done|]. simpl call_part in *.
    specialize (Hg l Hl eq_refl). revert Hs.
    generalize (p_status (run_call (prepare_of l) m).1 tx) ((run_call (prepare_of l) m).2).
    intros s' ok Hs. inversion Hs as [E1 E2 E3|E1 E2 E3|s E1 E2 E3].
    + destruct Hg as [Hg|Hg]; rewrite <- E1 in Hg; done.
    + split.
      * intros Hin. specialize (Hd Hin). rewrite <- E1 in Hd. done.
      * intros l' Hl' Heq. rewrite (leg_unique l' l) by done. by right.
    + subst. split; [done|]. intros l' Hl' Heq. by rewrite (leg_unique l' l) by done.
  - destruct (run_commit (l_part l) m I) as [? Hs]. split; [done|]. simpl call_part in *.
    specialize (Hg l Hl eq_refl).
    destruct Hg as [Hg|Hg]; rewrite Hg in Hs; apply (f_equal fst) in Hs; cbn [fst commit_status] in Hs; rewrite Hs; auto.
Qed.

(** ** The loops *)

Lemma net_ok_weaken (allowed allowed' : call -> Prop) (good good' : string -> M -> Prop) w :
  (forall c, allowed c -> allowed' c) -> (forall p m, good p m -> good' p m) ->
  net_ok foreign allowed good w -> net_ok foreign allowed' good' w.
Proof.
  intros Ha Hg [Hs Hm]. split; [by eapply n_flight_mono|]. intros p m Hp. destruct (Hm p m Hp). auto.
Qed.

Lemma call_ok (allowed : call -> Prop) good c w :
  closed foreign allowed good -> net_ok foreign allowed good w -> allowed c -> any_call c ->
  let '(w', err) := n_call c w in
  net_ok foreign allowed good w' /\ same_dom w w' /\
  (err = None -> exists m m', p_inv m /\ (run_call c m).2 = true /\ n_mach w' (call_part c) = Some m' /\
     forall good', closed foreign allowed good' -> good' (call_part c) (run_call c m).1 -> good' (call_part c) m').
Proof. intros Hcl Hw Hc Hany. exact (n_call_law foreign allowed good c w Hcl Hw Hc (Hknown c Hany)). Qed.

Lemma any_prepare l : l ∈ legs -> any_call (prepare_of l).
Proof. unfold any_call. eauto. Qed.
Lemma any_commit l : l ∈ legs -> any_call (CCommit (l_part l) tx).
Proof. unfold any_call. eauto. Qed.
Lemma any_abort l : l ∈ legs -> any_call (CAbort (l_part l) tx).
Proof. unfold any_call. eauto. Qed.

Lemma prepare_loop_refused rest r k w :
  prepare_loop n_call tx rest (Some r) k w = (w, Some r, k).
Proof. induction rest as [|l rest IH]; simpl; auto. Qed.

(** A YES, and what follows it, leaves the participant ready. *)
Lemma prepared_ok l need w m m' :
  l ∈ legs -> p_inv m -> (run_call (prepare_of l) m).2 = true -> n_mach w (l_part l) = Some m' ->
  (forall good', closed foreign allowed_prep good' -> good' (l_part l) (run_call (prepare_of l) m).1 -> good' (l_part l) m') ->
  net_ok foreign allowed_prep (good_prep need) w -> net_ok foreign allowed_prep (good_prep (need ++ [l_part l])) w.
Proof.
  intros Hl I Hok Hm Hafter [Hs Hg]. split; [done|]. intros p n Hn. destruct (Hg p n Hn) as [In Hgn].
  split; [done|]. destruct (decide (p = l_part l)) as [->|Hne].
  - rewrite Hm in Hn. injection Hn as <-. apply (Hafter (good_prep (need ++ [l_part l])) (closed_prep _)). right. exists l. split_and!; [done..|].
    destruct (run_prepare l m Hl I) as [_ Hst]. rewrite Hok in Hst. by inversion Hst.
  - destruct Hgn as [[? ?]|?]; [left|by right]. split; [done|]. rewrite elem_of_snoc. tauto.
Qed.

Lemma prepare_loop_ok rest need k w :
  rest ⊆ legs -> net_ok foreign allowed_prep (good_prep need) w ->
  (forall p, p ∈ need -> is_Some (n_mach w p)) ->
  let '(w1, refusal, _) := prepare_loop n_call tx rest None k w in
  exists need', net_ok foreign allowed_prep (good_prep need') w1 /\
    (forall p, p ∈ need' -> is_Some (n_mach w1 p)) /\
    (refusal = None -> need' = need ++ (l_part <$> rest)).
Proof.
  revert need k w. induction rest as [|l rest IH]; intros need k w Hsub Hw Hex; simpl.
  { exists need. rewrite app_nil_r. auto. }
  assert (l ∈ legs) as Hl by (apply Hsub; by left).
  assert (allowed_prep (prepare_of l)) as Hc by (right; eauto).
  pose proof (call_ok _ _ _ _ (closed_prep need) Hw Hc (any_prepare l Hl)) as Hcall. unfold prepare_of in Hcall at 1.
  destruct (n_call _ w) as [w' [err|]]; destruct Hcall as (Hw' & Hdom & Hyes).
  - rewrite prepare_loop_refused. exists need. split_and!; [done| |done].
    intros p Hp. apply Hdom. auto.
  - destruct (Hyes eq_refl) as (m & m' & I & Hok & Hm & Hafter). clear Hyes. simpl call_part in Hm.
    pose proof (prepared_ok l need w' m m' Hl I Hok Hm Hafter Hw') as Hw''.
    specialize (IH (need ++ [l_part l]) (S k) w').
    destruct (prepare_loop _ _ _ _ _ _) as [[w1 refusal] k1].
    destruct IH as (need' & ? & ? & Heq); [|done| |].
    + intros x Hx. apply Hsub. by right.
    + intros p [Hp| ->]%elem_of_snoc; [apply Hdom; auto|]. by rewrite Hm.
    + exists need'. split_and!; [done..|]. intros Hn. rewrite Heq, <- app_assoc by done. done.
Qed.

Lemma abort_loop_ok rest w :
  rest ⊆ legs -> net_ok foreign allowed_abort good_abort w ->
  net_ok foreign allowed_abort good_abort (abort_loop n_call tx rest w).
Proof.
  revert w. induction rest as [|l rest IH]; intros w Hsub Hw; simpl; [done|].
  apply IH; [intros x Hx; apply Hsub; by right|]. assert (l ∈ legs) as Hl by (apply Hsub; by left).
  assert (allowed_abort (CAbort (l_part l) tx)) as Hc by (right; eauto).
  pose proof (call_ok _ _ _ _ closed_abort Hw Hc (any_abort l Hl)) as Hcall. destruct (n_call _ w) as [w' err].
  by destruct Hcall as [? _].
Qed.

(** An acknowledged commit, and what follows it, leaves the participant committed. *)
Lemma committed_ok l done w m m' :
  l ∈ legs -> p_inv m -> (run_call (CCommit (l_part l) tx) m).2 = true -> n_mach w (l_part l) = Some m' ->
  (forall good', closed foreign allowed_commit good' ->
     good' (l_part l) (run_call (CCommit (l_part l) tx) m).1 -> good' (l_part l) m') ->
  net_ok foreign allowed_commit (good_commit done) w ->
  net_ok foreign allowed_commit (good_commit (l_part l :: done)) w.
Proof.
  intros Hl I Hok Hm Hafter [Hs Hg]. split; [done|]. intros p n Hn. destruct (Hg p n Hn) as [In [Hg1 Hg2]].
  split; [done|]. split; [|done]. intros [->|Hp]%elem_of_cons; [|auto]. rewrite Hm in Hn. injection Hn as <-.
  assert (p_status (run_call (CCommit (l_part l) tx) m).1 tx = Committed) as Hcom.
  { destruct (run_commit (l_part l) m I) as [_ Hst]. rewrite Hok in Hst. revert Hst.
    generalize (p_status (run_call (CCommit (l_part l) tx) m).1 tx). intros s'.
    destruct (p_status m tx); simpl; congruence. }
  apply (Hafter (good_commit [l_part l]) (closed_commit _)); [|by left]. split; auto.
Qed.

Lemma commit_loop_ok rest done und w :
  rest ⊆ legs -> net_ok foreign allowed_commit (good_commit done) w ->
  let '(w1, und') := commit_loop n_call tx rest und w in
  exists done', net_ok foreign allowed_commit (good_commit done') w1 /\ same_dom w w1 /\
    (forall l, l ∈ rest -> l_part l ∈ done' \/ l_part l ∈ und') /\ done ⊆ done' /\ und ⊆ und'.
Proof.
  revert done und w. induction rest as [|l rest IH]; intros done und w Hsub Hw; simpl.
  { exists done. split_and!; try done. intros l Hl. by apply not_elem_of_nil in Hl. }
  assert (l ∈ legs) as Hl by (apply Hsub; by left).
  assert (rest ⊆ legs) as Hsub' by (intros x Hx; apply Hsub; by right).
  assert (allowed_commit (CCommit (l_part l) tx)) as Hc by (right; eauto).
  pose proof (call_ok _ _ _ _ (closed_commit done) Hw Hc (any_commit l Hl)) as Hcall.
  destruct (n_call _ w) as [w' [err|]]; destruct Hcall as (Hw' & Hdom & Hyes).
  - specialize (IH done (und ++ [l_part l]) w' Hsub' Hw').
    destruct (commit_loop _ _ _ _ _) as [w1 und'].
    destruct IH as (done' & ? & Hd & Hall & ? & Hund). exists done'. split_and!; auto.
    + intros p. by rewrite (Hd p).
    + intros x [->|Hx]%elem_of_cons; [|auto]. right. apply Hund, elem_of_snoc. by right.
    + intros x Hx. apply Hund, elem_of_snoc. by left.
  - destruct (Hyes eq_refl) as (m & m' & I & Hok & Hm & Hafter). clear Hyes. simpl call_part in Hm.
    pose proof (committed_ok l done w' m m' Hl I Hok Hm Hafter Hw') as Hw''.
    specialize (IH (l_part l :: done) und w' Hsub' Hw'').
    destruct (commit_loop _ _ _ _ _) as [w1 und'].
    destruct IH as (done' & ? & Hd & Hall & Hdone & ?). exists done'. split_and!; auto.
    + intros p. by rewrite (Hd p).
    + intros x [->|Hx]%elem_of_cons; [|auto]. left. apply Hdone. by left.
    + intros x Hx. apply Hdone. by right.
Qed.

(** A transaction nobody has heard of. *)
Definition unheard w : Prop :=
  n_flight foreign other_call w /\ (forall p m, n_mach w p = Some m -> p_inv m /\ p_status m tx = Working).

Lemma unheard_ok w : unheard w -> net_ok foreign allowed_prep (good_prep []) w.
Proof.
  intros [Hs Hm]. split; [eapply n_flight_mono; [|exact Hs]; by left|]. intros p m Hp.
  destruct (Hm p m Hp). split; [done|]. left. split; [done|]. apply not_elem_of_nil.
Qed.

Lemma prep_to_commit p m : good_prep (l_part <$> legs) p m -> good_commit [] p m.
Proof.
  intros Hg. split; [intros Hn; by apply not_elem_of_nil in Hn|]. intros l Hl Hp.
  destruct Hg as [[_ Hni]|(l' & Hl' & Hp' & Hs)].
  - exfalso. apply Hni. rewrite <- Hp. apply list_elem_of_fmap. eauto.
  - right. by rewrite (leg_unique l l') by congruence.
Qed.

Lemma status_of_good (allowed : call -> Prop) good w p :
  net_ok foreign allowed good w -> is_Some (n_mach w p) ->
  exists m, status_of w p = Some (p_status m tx) /\ p_inv m /\ good p m /\ n_mach w p = Some m.
Proof.
  intros [_ Hm] [m Hp]. exists m. unfold status_of. rewrite Hp. destruct (Hm p m Hp). auto.
Qed.

(** The outcome of a transfer against whatever the network does afterwards. *)
Definition atomic_outcome w (r : outcome E) : Prop :=
  match r with
  | TCommitted => forall l, l ∈ legs -> status_of w (l_part l) = Some Committed
  | TRefused _ _ => forall l, l ∈ legs -> status_of w (l_part l) <> Some Committed
  | TInDoubt und =>
      forall l, l ∈ legs ->
        status_of w (l_part l) = Some Committed \/
        (l_part l ∈ und /\ status_of w (l_part l) = Some (Ready (l_key l) (l_delta l)))
  end.

(** What the end of a run knows of the network, by its result. *)
Definition end_world w (r : outcome E) : Prop :=
  match r with
  | TRefused _ _ => net_ok foreign allowed_abort good_abort w
  | TCommitted =>
      exists done, net_ok foreign allowed_commit (good_commit done) w /\
        forall l, l ∈ legs -> is_Some (n_mach w (l_part l)) /\ l_part l ∈ done
  | TInDoubt und =>
      exists done, net_ok foreign allowed_commit (good_commit done) w /\
        forall l, l ∈ legs -> is_Some (n_mach w (l_part l)) /\ (l_part l ∈ done \/ l_part l ∈ und)
  end.

Lemma run_legs_end w :
  unheard w -> let '(w', r) := run_legs n_call tx legs w in end_world w' r.
Proof.
  intros Hfresh. unfold run_legs.
  pose proof (prepare_loop_ok legs [] 0 w ltac:(done) (unheard_ok w Hfresh)) as Hprep.
  destruct (prepare_loop _ _ _ _ _ _) as [[w1 refusal] k].
  destruct Hprep as (need & Hw1 & Hex & Hall); [intros p Hp; by apply not_elem_of_nil in Hp|].
  destruct refusal as [[who err]|].
  - apply abort_loop_ok; [done|].
    eapply net_ok_weaken; [..|exact Hw1]; [by left|]. unfold good_abort.
    intros p m [[-> _]|(l & _ & _ & ->)]; done.
  - specialize (Hall eq_refl). simpl in Hall. subst need.
    assert (net_ok foreign allowed_commit (good_commit []) w1) as Hw1'.
    { eapply net_ok_weaken; [..|exact Hw1]; [by left|]. apply prep_to_commit. }
    pose proof (commit_loop_ok legs [] [] w1 ltac:(done) Hw1') as Hcommit.
    destruct (commit_loop _ _ _ _ _) as [w2 und].
    destruct Hcommit as (done' & Hw2 & Hdom & Hcov & _ & _).
    assert (forall l, l ∈ legs -> is_Some (n_mach w2 (l_part l))) as Hin.
    { intros l Hl. apply Hdom, Hex, list_elem_of_fmap. eauto. }
    destruct (Nat.ltb_spec 0 (length und)) as [Hund|Hund]; exists done'; (split; [done|]);
      intros l Hl; (split; [auto|]); destruct (Hcov l Hl) as [?|Hu]; auto.
    destruct und; [by apply not_elem_of_nil in Hu|simpl in Hund; lia].
Qed.

(** What a network may do later on its own. *)
Definition drifts_to w w' : Prop :=
  same_dom w w' /\
  forall allowed good, closed foreign allowed good -> net_ok foreign allowed good w -> net_ok foreign allowed good w'.

Lemma end_world_later w w' r : drifts_to w w' -> end_world w r -> end_world w' r.
Proof.
  intros [Hdom Hkeep]. destruct r as [|who err|und]; simpl.
  - intros (done & Hw & Hl). exists done. split; [apply Hkeep; [apply closed_commit|done]|].
    intros l Hin. destruct (Hl l Hin). split; [by apply Hdom|done].
  - intros Hw. apply Hkeep; [apply closed_abort|done].
  - intros (done & Hw & Hl). exists done. split; [apply Hkeep; [apply closed_commit|done]|].
    intros l Hin. destruct (Hl l Hin). split; [by apply Hdom|done].
Qed.

Lemma end_world_atomic w r : end_world w r -> atomic_outcome w r.
Proof.
  destruct r as [|who err|und]; simpl.
  - intros (done & Hw & Hl) l Hin. destruct (Hl l Hin) as [Hex Hd].
    destruct (status_of_good _ _ _ _ Hw Hex) as (m & -> & _ & [Hc _] & _). by rewrite Hc.
  - intros [_ Hm] l _. unfold status_of. destruct (n_mach w _) as [m|] eqn:Hp; [|done]. simpl.
    destruct (Hm _ _ Hp) as [_ Hg]. unfold good_abort in Hg. congruence.
  - intros (done & Hw & Hl) l Hin. destruct (Hl l Hin) as [Hex Hcov].
    destruct (status_of_good _ _ _ _ Hw Hex) as (m & -> & _ & [Hc Hg] & _).
    destruct Hcov as [Hd|Hu]; [left; by rewrite Hc|].
    destruct (Hg l Hin eq_refl) as [->| ->]; auto.
Qed.

Lemma run_legs_atomic w :
  unheard w ->
  let '(w', r) := run_legs n_call tx legs w in
  forall w'', drifts_to w' w'' -> atomic_outcome w'' r.
Proof.
  intros Hf. pose proof (run_legs_end w Hf) as He. destruct (run_legs _ _ _ _) as [w' r].
  intros w'' Hd. by eapply end_world_atomic, end_world_later.
Qed.

End Atomicity.

(** ** Money *)

Section Money.
Context {M W E : Type} `{PL : ParticipantLaws M} `{NW : !Network M W E} `{NL : !NetworkLaws M W E}.
Context (tx : string) (legs : list leg).
Context (Hrange : forall l, l ∈ legs -> in_int64 (l_delta l)).
Context (Hknown : forall c, any_call tx legs c -> n_known c).

Implicit Types (w : W) (m : M).

Abbreviation any := (any_call tx legs).
(** No change of a participant but by calls of the transfer. *)
Abbreviation nothing := (fun _ _ : M => False).

(** Only a commit moves money, and by the leg's delta. *)
Definition good_money (start : string -> option M) (p : string) m : Prop :=
  exists m0, start p = Some m0 /\
  (p_status m tx = Committed -> exists l, l ∈ legs /\ l_part l = p /\
     eq64 (p_money m) (p_money m0 + l_delta l)) /\
  (p_status m tx <> Committed -> eq64 (p_money m) (p_money m0)) /\
  (forall k d, p_status m tx = Ready k d -> exists l, l ∈ legs /\ l_part l = p /\ d = l_delta l).

Lemma closed_money start : closed nothing any (good_money start).
Proof.
  split; [|done]. intros c m (l & Hl & Hc) I (m0 & Hst0 & Hcom & Hnot & Hrdy).
  destruct Hc as [->|[->| ->]]; simpl call_part in *; unfold run_call; cbn [prepare_of].
  - pose proof (p_prepare_law tx (l_key l) (l_delta l) m I (Hrange l Hl)) as Hlaw.
    destruct (p_prepare _ _ _ _) as [m' ok]. destruct Hlaw as (I' & Hs & _ & Hm). simpl.
    split; [done|]. exists m0. split; [done|].
    rewrite Hm. revert Hs Hcom Hnot Hrdy. generalize (p_status m tx) (p_status m' tx).
    intros s s' Hs Hcom Hnot Hrdy. inversion Hs; subst; split_and!; auto; try done;
      try (intros k d [= <- <-]; by eauto).
    intros Hc. destruct (Hcom Hc) as (l0 & ? & ? & He). exists l0. by rewrite Hm.
  - pose proof (p_commit_law tx m I) as Hlaw.
    destruct (p_commit _ _) as [m' ok]. destruct Hlaw as (I' & Hs & _ & Hm). simpl.
    split; [done|]. exists m0. split; [done|]. rewrite Hm.
    destruct (p_status m tx) as [|k d| |] eqn:Est; simpl in Hs; injection Hs as Hs _; rewrite Hs.
    + rewrite Z.add_0_r. split_and!; [done|intros _; by apply Hnot|done].
    + destruct (Hrdy k d eq_refl) as (l' & Hl' & Hp' & ->).
      split_and!; [|done|done]. intros _. exists l'. split_and!; [done..|]. by rewrite Hm, Hnot.
    + split_and!; [|done|done]. intros _. destruct (Hcom eq_refl) as (l0 & ? & ? & He).
      exists l0. by rewrite Hm, Z.add_0_r.
    + rewrite Z.add_0_r. split_and!; [done|intros _; by apply Hnot|done].
  - pose proof (p_abort_law tx m I) as Hlaw.
    destruct (p_abort _ _) as [m' ok]. destruct Hlaw as (I' & Hs & _ & Hm). simpl.
    split; [done|]. exists m0. split; [done|]. rewrite Hm.
    destruct (p_status m tx) as [|k d| |] eqn:Est; simpl in Hs; injection Hs as Hs _; rewrite Hs;
      split_and!; try done; intros _; try (by apply Hnot).
    destruct (Hcom eq_refl) as (l0 & ? & ? & He). exists l0. by rewrite Hm.
Qed.

(** One phase is enough when every call of the run keeps [good]. *)
Lemma n_call_keeps good c w :
  closed nothing any good -> any c -> net_ok nothing any good w -> net_ok nothing any good (n_call c w).1.
Proof.
  intros Hcl Hc Hw. pose proof (n_call_law _ _ _ _ _ Hcl Hw Hc (Hknown c Hc)) as Hlaw.
  destruct (n_call c w). by destruct Hlaw as [? _].
Qed.

Section Keeps.
Context (good : string -> M -> Prop) (Hcl : closed nothing any good).

Lemma prepare_keeps rest r k w :
  rest ⊆ legs -> net_ok nothing any good w -> net_ok nothing any good (prepare_loop n_call tx rest r k w).1.1.
Proof.
  revert r k w. induction rest as [|l rest IH]; intros r k v Hsub Hv; simpl; [done|].
  assert (rest ⊆ legs) by (intros x Hx; apply Hsub; by right).
  destruct r; [by apply IH|].
  pose proof (n_call_keeps good (prepare_of tx l) v Hcl) as Hk. unfold prepare_of in Hk at 2.
  destruct (n_call _ v) as [v' [err|]]; apply IH; auto; apply Hk; auto; apply any_prepare; apply Hsub; by left.
Qed.

Lemma abort_keeps rest w :
  rest ⊆ legs -> net_ok nothing any good w -> net_ok nothing any good (abort_loop n_call tx rest w).
Proof.
  revert w. induction rest as [|l rest IH]; intros v Hsub Hv; simpl; [done|].
  apply IH; [intros x Hx; apply Hsub; by right|]. apply n_call_keeps; [done| |done].
  apply any_abort; apply Hsub; by left.
Qed.

Lemma commit_keeps rest u w :
  rest ⊆ legs -> net_ok nothing any good w -> net_ok nothing any good (commit_loop n_call tx rest u w).1.
Proof.
  revert u w. induction rest as [|l rest IH]; intros u v Hsub Hv; simpl; [done|].
  assert (rest ⊆ legs) by (intros x Hx; apply Hsub; by right).
  pose proof (n_call_keeps good (CCommit (l_part l) tx) v Hcl) as Hk.
  destruct (n_call _ v) as [v' [err|]]; apply IH; auto; apply Hk; auto; apply any_commit; apply Hsub; by left.
Qed.

Lemma run_legs_keeps w :
  net_ok nothing any good w -> net_ok nothing any good (run_legs n_call tx legs w).1.
Proof.
  intros Hw. unfold run_legs. pose proof (prepare_keeps legs None 0 w ltac:(done) Hw) as Hprep.
  destruct (prepare_loop _ _ _ _ _ _) as [[w1 [[who err]|]] k]; simpl in *; [by apply abort_keeps|].
  pose proof (commit_keeps legs [] w1 ltac:(done) Hprep) as Hcommit.
  by destruct (commit_loop _ _ _ _ _) as [w2 und].
Qed.
End Keeps.

(** What a participant's money is, by its status. *)
Lemma run_legs_money w w' :
  n_flight nothing any w -> (forall p m, n_mach w p = Some m -> p_inv m /\ p_status m tx = Working) ->
  drifts_to nothing (run_legs n_call tx legs w).1 w' ->
  forall p m m0, n_mach w p = Some m0 -> n_mach w' p = Some m ->
    (p_status m tx = Committed -> exists l, l ∈ legs /\ l_part l = p /\
       eq64 (p_money m) (p_money m0 + l_delta l)) /\
    (p_status m tx <> Committed -> eq64 (p_money m) (p_money m0)).
Proof.
  intros Hfl Hf [_ Hlater] p m m0 Hm0 Hm.
  assert (net_ok nothing any (good_money (n_mach w)) w) as Hw.
  { split; [done|]. intros q n Hn. destruct (Hf q n Hn) as [I Hs]. split; [done|]. exists n. rewrite Hs. by split_and!. }
  apply run_legs_keeps in Hw; [|apply closed_money]. apply Hlater in Hw as [_ Hw]; [|apply closed_money].
  destruct (Hw p m Hm) as [_ (m0' & Hm0' & ? & ? & _)]. rewrite Hm0 in Hm0'. by injection Hm0' as <-.
Qed.
End Money.

(** ** Retries over the adversarial network *)

Section Schedules.
Context {M : Type} `{PL : ParticipantLaws M} (tx : string) (legs : list leg).
Context (Hnodup : NoDup (l_part <$> legs)) (Hrange : forall l, l ∈ legs -> in_int64 (l_delta l)).

Implicit Types (w : World M) (m : M).

Abbreviation nothing := (fun _ _ : M => False).

(** A transaction nobody has heard of. *)
Definition fresh_world w : Prop :=
  (forall c, c ∈ sent w -> other_call tx c) /\
  (forall p m, shards w !! p = Some m -> p_inv m /\ p_status m tx = Working).

Lemma nothing_foreign m m' : nothing m m' -> p_inv m -> p_inv m' /\ p_status m' tx = p_status m tx.
Proof. done. Qed.

Lemma deliver_drifts later w : drifts_to nothing w (deliver later w).
Proof. split; [apply deliver_dom|]. intros allowed good Hcl Hw. by apply deliver_ok. Qed.

Lemma net_run_end w :
  fresh_world w -> let '(w', r) := run_legs net_call tx legs w in end_world tx legs nothing w' r.
Proof. intros Hf. exact (run_legs_end tx legs nothing nothing_foreign Hnodup Hrange (fun _ _ => I) w Hf). Qed.

Lemma net_end_later w r later :
  end_world tx legs nothing w r -> end_world tx legs nothing (deliver later w) r.
Proof. apply (end_world_later tx legs nothing nothing_foreign Hnodup Hrange), deliver_drifts. Qed.

Lemma net_run_atomic w :
  fresh_world w ->
  let '(w', r) := run_legs net_call tx legs w in
  forall later, atomic_outcome tx legs (deliver later w') r.
Proof.
  intros Hf. pose proof (net_run_end w Hf) as He. destruct (run_legs _ _ _ _) as [w' r].
  intros later. by eapply end_world_atomic, net_end_later.
Qed.

Lemma net_run_money w later :
  fresh_world w -> sent w = [] ->
  let w' := deliver later (run_legs net_call tx legs w).1 in
  forall p m m0, shards w !! p = Some m0 -> shards w' !! p = Some m ->
    (p_status m tx = Committed -> exists l, l ∈ legs /\ l_part l = p /\
       eq64 (p_money m) (p_money m0 + l_delta l)) /\
    (p_status m tx <> Committed -> eq64 (p_money m) (p_money m0)).
Proof.
  intros [_ Hf] Hsent w'. eapply (run_legs_money (NW := world_network) tx legs Hrange); [done| |done|apply deliver_drifts].
  simpl. rewrite Hsent. intros c Hc. by apply not_elem_of_nil in Hc.
Qed.

Lemma effect_oracle c w : oracle (effect c w).1 = oracle w.
Proof. unfold effect. destruct (_ !! _); [|done]. by destruct (run_call _ _). Qed.

Lemma deliver_oracle picks w : oracle (deliver picks w) = oracle w.
Proof.
  revert w. induction picks as [|j picks IH]; intros w; simpl; [done|].
  rewrite IH. destruct (sent w !! j); [apply effect_oracle|done].
Qed.

Lemma net_call_oracle c w : oracle (net_call c w).1 = tail (oracle w).
Proof.
  unfold net_call. destruct (default _ _) as [picks [|]].
  - destruct (effect c _) as [w2 ok] eqn:He. apply (f_equal (fun x => oracle x.1)) in He. simpl in *.
    rewrite effect_oracle, deliver_oracle in He. done.
  - simpl. by rewrite deliver_oracle.
Qed.

(** An answered commit of a decided transaction succeeds. *)
Lemma commit_answered done w l pk :
  net_ok nothing (allowed_commit tx legs) (good_commit tx legs done) w -> l ∈ legs -> is_Some (shards w !! l_part l) ->
  head (oracle w) = Some (pk, true) -> (net_call (CCommit (l_part l) tx) w).2 = None.
Proof.
  intros Hw Hl Hex Hhead. unfold net_call. rewrite Hhead. simpl.
  set (w0 := mkWorld _ _ _). assert (net_ok nothing (allowed_commit tx legs) (good_commit tx legs done) w0) as Hw0.
  { destruct Hw as [Hs Hm]. split; [|done]. simpl. intros c [?| ->]%elem_of_snoc; [auto|right; eauto]. }
  pose proof (deliver_ok _ _ _ pk _ (closed_commit tx legs nothing nothing_foreign Hnodup Hrange done) Hw0) as Hw1.
  assert (is_Some (shards (deliver pk w0) !! l_part l)) as Hex1 by by apply deliver_dom.
  destruct (status_of_good tx _ _ _ _ _ Hw1 Hex1) as (m & _ & I & [_ Hg] & Hm). simpl in Hm.
  unfold effect. cbn [call_part]. rewrite Hm.
  destruct (run_commit tx (l_part l) m I) as [_ Hs]. destruct (run_call _ m) as [m' ok]. cbn [fst snd] in *.
  destruct (Hg l Hl eq_refl) as [Hst|Hst]; rewrite Hst in Hs; injection Hs as _ ->; done.
Qed.

(** A decided commit lands as soon as one attempt is answered. *)
Lemma retry_lands ticks done w l :
  net_ok nothing (allowed_commit tx legs) (good_commit tx legs done) w -> l ∈ legs -> is_Some (shards w !! l_part l) ->
  (exists i picks, i < ticks /\ oracle w !! i = Some (picks, true)) ->
  let '(w', landed) := retryInBackground net_call ticks tx (l_part l) w in
  landed = true /\ status_of tx w' (l_part l) = Some Committed.
Proof.
  revert w. induction ticks as [|ticks IH]; intros w Hw Hl Hex (i & picks & Hi & Horc); [lia|].
  cbn [retryInBackground].
  assert (allowed_commit tx legs (CCommit (l_part l) tx)) as Hc by (right; eauto).
  pose proof (net_call_ok _ _ _ _ _ (closed_commit tx legs nothing nothing_foreign Hnodup Hrange done) Hw Hc) as Hcall.
  assert (oracle (net_call (CCommit (l_part l) tx) w).1 = tail (oracle w)) as Htail.
  { apply net_call_oracle. }
  assert (forall pk, head (oracle w) = Some (pk, true) ->
            (net_call (CCommit (l_part l) tx) w).2 = None) as Hans.
  { intros pk Hhead. eapply commit_answered; eauto. }
  destruct (net_call (CCommit (l_part l) tx) w) as [w' [err|]]; cbn [fst snd] in *;
    destruct Hcall as (Hw' & Hdom & Hyes).
  - destruct i as [|i].
    { rewrite <- head_lookup in Horc. specialize (Hans _ Horc). done. }
    apply IH; [done|done|by apply Hdom|]. exists i, picks. split; [lia|].
    rewrite Htail. by destruct (oracle w).
  - split; [done|]. destruct (Hyes eq_refl) as (m & I & Hm & Hok). simpl call_part in Hm.
    unfold status_of. simpl. rewrite Hm. simpl. f_equal.
    destruct (run_commit tx (l_part l) m I) as [_ Hs]. unfold run_call in *. rewrite Hok in Hs. revert Hs.
    generalize (p_status (p_commit tx m).1 tx). intros s'. destruct (p_status m tx); simpl; congruence.
Qed.

End Schedules.
