(* ===== verification/ShardParticipant.v ===== *)
(** * A shard as a participant of two-phase commit

    [participant] of internal/cluster/engine.go sends PREPARE, COMMIT and ABORT
    through a shard's log to its ledger.  Here the ledger is shown to keep the
    contract of TwoPC.v, which gives the theorems of a cross-shard transfer:
    atomicity and conservation under any behaviour of the network. *)

From S2P Require Import Prelude GoText Ledger TwoPC.

(** [participant.run]: a command through the log; nil is a YES. *)
Definition participant_run (c : Command) (m : Machine) : Machine * bool :=
  let '(m', r) := applyLocked c m in (m', bool_decide (Err r = None)).

Definition participant_Prepare (tx key : string) (delta : Z) : Machine -> Machine * bool :=
  participant_run (mkCommand OpPrepare key "" delta tx).
Definition participant_Commit (tx : string) : Machine -> Machine * bool :=
  participant_run (mkCommand OpCommit "" "" 0 tx).
Definition participant_Abort (tx : string) : Machine -> Machine * bool :=
  participant_run (mkCommand OpAbort "" "" 0 tx).

Definition ledger_status (m : Machine) (tx : string) : tx_status :=
  match prepared m !! tx with
  | Some p => Ready (Key p) (Amount p)
  | None =>
      match decided m !! tx with
      | None => Working
      | Some op => if bool_decide (op = OpCommit) then Committed else Aborted
      end
  end.

#[export] Instance shard_participant : Participant Machine := {|
  p_prepare := participant_Prepare;
  p_commit := participant_Commit;
  p_abort := participant_Abort;
  p_status := ledger_status;
  p_money := total;
|}.

Lemma Err_None r : Err r = None <-> rCode r = CodeOK.
Proof. unfold Err. by destruct (rCode r). Qed.

Lemma status_eq m m' tx :
  prepared m' !! tx = prepared m !! tx -> decided m' !! tx = decided m !! tx ->
  ledger_status m' tx = ledger_status m tx.
Proof. unfold ledger_status. by intros -> ->. Qed.

Lemma shard_prepare_law tx key delta m :
  ledger_inv m -> in_int64 delta ->
  let '(m', ok) := participant_Prepare tx key delta m in
  ledger_inv m' /\ prepare_status key delta (ledger_status m tx) (ledger_status m' tx) ok /\
  (forall tx', tx' <> tx -> ledger_status m' tx' = ledger_status m tx') /\ eq64 (total m') (total m).
Proof.
  intros I Hd. unfold participant_Prepare, participant_run. set (c := mkCommand OpPrepare key "" delta tx).
  pose proof (applyLocked_inv c m Hd I) as I'. pose proof (applyLocked_total c m I) as Hm.
  replace (net_effect c m) with 0%Z in Hm by done. rewrite Z.add_0_r in Hm.
  destruct (applyLocked c m) as [m' r] eqn:Hap. cbn [fst] in *.
  split; [done|]. split; [|split; [|done]].
  - unfold applyLocked in Hap. cbn [cOp c] in Hap. unfold prepareLocked in Hap. cbn [Tx Key Amount c] in Hap.
    destruct (prepared m !! tx) as [q|] eqn:Hq.
    { destruct (bool_decide (q = c)) eqn:Heq; injection Hap as <- <-.
      - apply bool_decide_eq_true in Heq. subst q. rewrite bool_decide_true by done.
        unfold ledger_status. rewrite Hq. constructor.
      - constructor. }
    destruct (decided m !! tx) as [op|] eqn:Hdec; [injection Hap as <- <-; constructor|].
    destruct (checkLocked m [key]) as [r0|] eqn:Hck.
    { injection Hap as <- <-. rewrite bool_decide_false; [constructor|]. rewrite Err_None.
      simpl in Hck. destruct (balances m !! key); [|by injection Hck as <-].
      destruct (locks m !! key); [by injection Hck as <-|done]. }
    destruct (_ && _); injection Hap as <- <-; [constructor|].
    rewrite bool_decide_true by done. unfold ledger_status at 1 2. simpl.
    rewrite Hq, Hdec, lookup_insert_eq. constructor.
  - intros tx' Hne. unfold applyLocked in Hap. cbn [cOp c] in Hap. unfold prepareLocked in Hap.
    cbn [Tx Key Amount c] in Hap.
    destruct (prepared m !! tx); [destruct (bool_decide _); by injection Hap as <- <-|].
    destruct (decided m !! tx); [by injection Hap as <- <-|].
    destruct (checkLocked m [key]); [by injection Hap as <- <-|].
    destruct (_ && _); injection Hap as <- <-; [done|]. apply status_eq; simpl; [|done].
    by rewrite lookup_insert_ne.
Qed.

Lemma shard_commit_law tx m :
  ledger_inv m ->
  let '(m', ok) := participant_Commit tx m in
  ledger_inv m' /\ (ledger_status m' tx, ok) = commit_status (ledger_status m tx) /\
  (forall tx', tx' <> tx -> ledger_status m' tx' = ledger_status m tx') /\
  eq64 (total m') (total m + match ledger_status m tx with Ready _ d => d | _ => 0 end).
Proof.
  intros I. unfold participant_Commit, participant_run. set (c := mkCommand OpCommit "" "" 0 tx).
  pose proof (applyLocked_inv c m ltac:(done) I) as I'. pose proof (applyLocked_total c m I) as Hm.
  unfold net_effect in Hm. cbn [cOp c Tx] in Hm.
  destruct (applyLocked c m) as [m' r] eqn:Hap. cbn [fst] in *. split; [done|].
  unfold applyLocked in Hap. cbn [cOp c] in Hap. unfold commitLocked in Hap. cbn [Tx c] in Hap.
  destruct (prepared m !! tx) as [p|] eqn:Hp.
  - destruct (li_prep m I _ _ Hp) as (_ & _ & _ & _ & Hdec). rewrite Hdec in *.
    rewrite bool_decide_false in Hap, Hm by done. injection Hap as <- <-.
    unfold ledger_status. rewrite Hp. simpl. rewrite lookup_delete_eq, lookup_insert_eq.
    rewrite !bool_decide_true by done. split; [done|]. split; [|done].
    intros tx' Hne. simpl. by rewrite lookup_delete_ne, lookup_insert_ne by done.
  - unfold ledger_status at 2 5. rewrite Hp. destruct (decided m !! tx) as [op|] eqn:Hdec.
    + destruct (bool_decide (op = OpCommit)) eqn:Hop.
      * apply bool_decide_eq_true in Hop as ->. rewrite bool_decide_true in Hap, Hm by done.
        injection Hap as <- <-. unfold ledger_status at 1. rewrite Hp, Hdec.
        rewrite !bool_decide_true by done. by split_and!.
      * apply bool_decide_eq_false in Hop.
        rewrite bool_decide_false in Hap, Hm by congruence. injection Hap as <- <-.
        unfold ledger_status at 1. rewrite Hp, Hdec, bool_decide_false by done.
        by split_and!.
    + rewrite bool_decide_false in Hap, Hm by done. injection Hap as <- <-.
      unfold ledger_status at 1. rewrite Hp, Hdec. by split_and!.
Qed.

Lemma shard_abort_law tx m :
  ledger_inv m ->
  let '(m', ok) := participant_Abort tx m in
  ledger_inv m' /\ (ledger_status m' tx, ok) = abort_status (ledger_status m tx) /\
  (forall tx', tx' <> tx -> ledger_status m' tx' = ledger_status m tx') /\ eq64 (total m') (total m).
Proof.
  intros I. unfold participant_Abort, participant_run. set (c := mkCommand OpAbort "" "" 0 tx).
  pose proof (applyLocked_inv c m ltac:(done) I) as I'. pose proof (applyLocked_total c m I) as Hm.
  replace (net_effect c m) with 0%Z in Hm by done. rewrite Z.add_0_r in Hm.
  destruct (applyLocked c m) as [m' r] eqn:Hap. cbn [fst] in *. split; [done|].
  unfold applyLocked in Hap. cbn [cOp c] in Hap. unfold abortLocked in Hap. cbn [Tx c] in Hap.
  destruct (prepared m !! tx) as [p|] eqn:Hp.
  - destruct (li_prep m I _ _ Hp) as (_ & _ & _ & _ & Hdec).
    cbn [decided maxKeys balances locks prepared] in Hap. rewrite Hdec in Hap.
    rewrite bool_decide_false in Hap by done. injection Hap as <- <-.
    unfold ledger_status. rewrite Hp. simpl. rewrite lookup_delete_eq, lookup_insert_eq.
    rewrite bool_decide_false by done. split; [done|]. split; [|done].
    intros tx' Hne. simpl. by rewrite lookup_delete_ne, lookup_insert_ne by done.
  - unfold ledger_status at 2. rewrite Hp. destruct (decided m !! tx) as [op|] eqn:Hdec.
    + destruct (bool_decide (op = OpCommit)) eqn:Hop.
      * apply bool_decide_eq_true in Hop as ->. rewrite bool_decide_true in Hap by done.
        injection Hap as <- <-. unfold ledger_status at 1. by rewrite Hp, Hdec.
      * apply bool_decide_eq_false in Hop. rewrite bool_decide_false in Hap by congruence.
        injection Hap as <- <-. unfold ledger_status at 1. simpl. rewrite Hp, lookup_insert_eq.
        rewrite bool_decide_false by done. split_and!; [done| |done].
        intros tx' Hne. apply status_eq; simpl; [done|]. by rewrite lookup_insert_ne.
    + rewrite bool_decide_false in Hap by done. injection Hap as <- <-.
      unfold ledger_status at 1. simpl. rewrite Hp, lookup_insert_eq, bool_decide_false by done.
      split_and!; [done| |done]. intros tx' Hne. apply status_eq; simpl; [done|].
      by rewrite lookup_insert_ne.
Qed.

#[export] Instance shard_participant_laws : ParticipantLaws Machine := {|
  p_inv := ledger_inv;
  p_prepare_law := shard_prepare_law;
  p_commit_law := shard_commit_law;
  p_abort_law := shard_abort_law;
|}.

(** ** A cross-shard transfer *)

Section CrossShard.
Context (seq : N) (from fromKey to toKey : string) (amount : Z).
Context (Hshards : from <> to) (Hamount : in_int64 amount).

Abbreviation tx := (tx_name seq).
Abbreviation legs := (transfer_legs from fromKey to toKey amount).

Lemma legs_nodup : NoDup (l_part <$> legs).
Proof.
  simpl. apply NoDup_cons. split; [|apply NoDup_singleton].
  intros Hin%list_elem_of_singleton. done.
Qed.

Lemma legs_range l : l ∈ legs -> in_int64 (l_delta l).
Proof.
  intros [->|Hl]%elem_of_cons; [apply wrap64_range|].
  by apply list_elem_of_singleton in Hl as ->.
Qed.

Lemma legs_in l : l ∈ legs -> l_part l = from /\ l_delta l = wrap64 (- amount) \/ l_part l = to /\ l_delta l = amount.
Proof. intros [->|Hl]%elem_of_cons; [by left|]. apply list_elem_of_singleton in Hl as ->. by right. Qed.
End CrossShard.

(** C3: All or nothing, whatever the network does during the transfer and after it:
    a success has both shards committed, a refusal never commits anywhere, and
    in doubt means that both shards hold or have applied their half. *)
Theorem cross_shard_atomic seq from fromKey to toKey amount (w : World Machine) :
  from <> to -> in_int64 amount -> fresh_world (tx_name seq) w ->
  let '(w', r, _) := Transfer net_call seq from fromKey to toKey amount w in
  forall later, atomic_outcome (tx_name seq) (transfer_legs from fromKey to toKey amount) (deliver later w') r.
Proof.
  intros Hne Ha Hf. unfold Transfer.
  pose proof (net_run_atomic (tx_name seq) (transfer_legs from fromKey to toKey amount)
                (legs_nodup from fromKey to toKey amount Hne) (legs_range from fromKey to toKey amount Ha) w Hf)
    as Hat.
  by destruct (run_legs _ _ _ _) as [w' r].
Qed.

(** C8: A transfer between two shards under a transaction id they have not seen,
    with no calls outstanding at the start, keeps the sum of all balances of the two
    shards modulo 2^64 (int64 wraps): when its outcome is reported, and, if it is in
    doubt, as soon as both have committed it, whatever calls are lost, repeated or
    late. *)
Theorem cross_shard_conserves seq from fromKey to toKey amount (w : World Machine) :
  from <> to -> in_int64 amount -> fresh_world (tx_name seq) w -> sent w = [] ->
  let '(w', r, _) := Transfer net_call seq from fromKey to toKey amount w in
  forall later mf mt mf' mt',
    shards w !! from = Some mf -> shards w !! to = Some mt ->
    shards (deliver later w') !! from = Some mf' -> shards (deliver later w') !! to = Some mt' ->
    match r with
    | TInDoubt _ => ledger_status mf' (tx_name seq) = Committed /\ ledger_status mt' (tx_name seq) = Committed
    | _ => True
    end ->
    eq64 (total mf' + total mt') (total mf + total mt).
Proof.
  intros Hne Ha Hf Hsent. unfold Transfer.
  set (legs := transfer_legs from fromKey to toKey amount).
  pose proof (net_run_atomic (tx_name seq) legs (legs_nodup from fromKey to toKey amount Hne)
                (legs_range from fromKey to toKey amount Ha) w Hf) as Hat.
  pose proof (fun later => net_run_money (tx_name seq) legs
                (legs_range from fromKey to toKey amount Ha) w later Hf Hsent) as Hmoney.
  destruct (run_legs _ _ _ _) as [w' r]. cbn [fst] in Hmoney.
  intros later mf mt mf' mt' H1 H2 H3 H4 Hr.
  specialize (Hat later). specialize (Hmoney later).
  destruct (Hmoney _ _ _ H1 H3) as [Hfc Hfn], (Hmoney _ _ _ H2 H4) as [Htc Htn]. cbn [p_money p_status shard_participant] in *.
  assert (ledger_status mf' (tx_name seq) = Committed /\ ledger_status mt' (tx_name seq) = Committed \/
          ledger_status mf' (tx_name seq) <> Committed /\ ledger_status mt' (tx_name seq) <> Committed)
    as [[Hcf Hct]|[Hcf Hct]].
  { destruct r as [|who err|und]; [left|right|by left].
    - pose proof (Hat (mkLeg from fromKey (wrap64 (- amount))) ltac:(left)) as Hs1.
      pose proof (Hat (mkLeg to toKey amount) ltac:(right; left)) as Hs2.
      unfold status_of in Hs1, Hs2. cbn [l_part n_mach world_network] in Hs1, Hs2. rewrite H3 in Hs1. rewrite H4 in Hs2.
      by injection Hs1 as ->; injection Hs2 as ->.
    - pose proof (Hat (mkLeg from fromKey (wrap64 (- amount))) ltac:(left)) as Hs1.
      pose proof (Hat (mkLeg to toKey amount) ltac:(right; left)) as Hs2.
      unfold status_of in Hs1, Hs2. cbn [l_part n_mach world_network] in Hs1, Hs2. rewrite H3 in Hs1. rewrite H4 in Hs2.
      simpl in Hs1, Hs2. split; congruence. }
  - destruct (Hfc Hcf) as (l1 & Hl1 & Hp1 & ->), (Htc Hct) as (l2 & Hl2 & Hp2 & ->).
    destruct (legs_in _ _ _ _ _ _ Hl1) as [[_ ->]|[Hx _]]; [|congruence].
    destruct (legs_in _ _ _ _ _ _ Hl2) as [[Hx _]|[_ ->]]; [congruence|].
    rewrite wrap64_eq64. apply eq64_of_eq. lia.
  - by rewrite Hfn, Htn.
Qed.

(** C9: In doubt is not lost: when the commit is retried and one attempt is
    answered, it is applied. *)
Theorem in_doubt_commit_lands seq from fromKey to toKey amount (w : World Machine) :
  from <> to -> in_int64 amount -> fresh_world (tx_name seq) w ->
  let '(w', r, _) := Transfer net_call seq from fromKey to toKey amount w in
  forall und later ticks p sched,
    r = TInDoubt und -> p = from \/ p = to ->
    (exists i picks, i < ticks /\ sched !! i = Some (picks, true)) ->
    let w1 := deliver later w' in
    let '(w2, landed) := retryInBackground net_call ticks (tx_name seq) p
                           (mkWorld (shards w1) (sent w1) sched) in
    landed = true /\ status_of (tx_name seq) w2 p = Some Committed.
Proof.
  intros Hne Ha Hf. unfold Transfer. set (legs := transfer_legs from fromKey to toKey amount).
  pose proof (legs_nodup from fromKey to toKey amount Hne) as Hnd.
  pose proof (legs_range from fromKey to toKey amount Ha) as Hrg.
  pose proof (net_run_end (tx_name seq) legs Hnd Hrg w Hf) as Hend.
  destruct (run_legs net_call (tx_name seq) legs w) as [w' r].
  intros und later ticks p sched Hr Hp Hans. subst r. set (w1 := deliver later w').
  apply (net_end_later _ legs Hnd Hrg _ _ later) in Hend. fold w1 in Hend.
  destruct Hend as (done & [Hs Hm] & Hl).
  assert (exists l, l ∈ legs /\ l_part l = p) as (l & Hin & <-).
  { destruct Hp as [->| ->].
    - exists (mkLeg from fromKey (wrap64 (- amount))). split; [left|done].
    - exists (mkLeg to toKey amount). split; [right; left|done]. }
  eapply (retry_lands (tx_name seq) legs Hnd Hrg ticks done); [by split|done|by apply Hl|done].
Qed.

(** ** A coordinator that starts again

    [seq] starts at zero in every coordinator, while the replicas of the gRPC
    mode may outlive it (NewRemote) and remember its transactions. *)

Definition two_shards : gmap string Machine :=
  {["s0" := set_balances {["alice" := 100%Z]} (New 0);
    "s1" := set_balances {["bob" := 100%Z]} (New 0)]}.

(** tx1 moves 30 from alice to bob and is decided COMMIT, but s1 is not told.
    A second coordinator's tx1 is refused by s0, so it aborts tx1 everywhere:
    alice has paid and bob is never credited. *)
Definition first_schedule : list (list nat * bool) := [([], true); ([], true); ([], true); ([], false)].
Definition second_schedule : list (list nat * bool) := [([], true); ([], true); ([], true)].

Theorem reused_transaction_id_loses_money :
  let w0 := mkWorld two_shards [] first_schedule in
  let '(w1, r1, _) := Transfer net_call 0 "s0" "alice" "s1" "bob" 30 w0 in
  let '(w2, r2, _) := Transfer net_call 0 "s0" "alice" "s1" "bob" 5
                        (mkWorld (shards w1) [] second_schedule) in
  r1 = TInDoubt ["s1"] /\ r2 = TRefused "s0" tt /\
  status_of (tx_name 0) w2 "s0" = Some Committed /\ status_of (tx_name 0) w2 "s1" = Some Aborted /\
  (total <$> shards w2 !! "s0") = Some 70%Z /\ (total <$> shards w2 !! "s1") = Some 100%Z.
Proof. vm_compute. done. Qed.

(** ** Instances of the theorems *)

Module CrossShardExamples.
Definition world0 (sched : list (list nat * bool)) : World Machine := mkWorld two_shards [] sched.

Lemma put_one_inv k v : in_int64 v -> ledger_inv (set_balances {[k := v]} (New 0)).
Proof.
  intros Hv. apply (write_free_inv (New 0) k v); [apply New_inv|apply lookup_empty|done|]. simpl. lia.
Qed.

Lemma world0_fresh sched : fresh_world (tx_name 0) (world0 sched).
Proof.
  split; [intros c Hc; by apply not_elem_of_nil in Hc|]. intros p m Hm. simpl in Hm.
  unfold two_shards in Hm. rewrite lookup_insert in Hm. case_decide; [injection Hm as <-|].
  - split; [apply put_one_inv; vm_compute; split; discriminate|done].
  - apply lookup_singleton_Some in Hm as [_ <-].
    split; [apply put_one_inv; vm_compute; split; discriminate|done].
Qed.

Definition all_answered : list (list nat * bool) := [([], true); ([0], true); ([1; 0], true); ([2], true)].

(** Duplicated deliveries during and after the transfer change nothing. *)
Lemma cross_shard_atomic_witness :
  let w' := (Transfer net_call 0 "s0" "alice" "s1" "bob" 30 (world0 all_answered)).1.1 in
  status_of (tx_name 0) (deliver [0; 3; 1] w') "s1" = Some Committed.
Proof.
  pose proof (cross_shard_atomic 0 "s0" "alice" "s1" "bob" 30 (world0 all_answered)
                ltac:(discriminate) ltac:(vm_compute; split; discriminate) (world0_fresh _)) as H.
  destruct (Transfer net_call 0 "s0" "alice" "s1" "bob" 30 (world0 all_answered)) as [[w' r] q] eqn:E.
  assert (r = TCommitted) as Hr by (vm_compute in E; congruence).
  rewrite Hr in H. exact (H [0; 3; 1] (mkLeg "s1" "bob" 30) ltac:(right; left)).
Defined.

Lemma delivered_shards p :
  p ∈ ["s0"; "s1"] ->
  is_Some (shards (deliver [0; 3; 1] (Transfer net_call 0 "s0" "alice" "s1" "bob" 30 (world0 all_answered)).1.1) !! p).
Proof. intros [->|[->|[]%not_elem_of_nil]%elem_of_cons]%elem_of_cons; eexists; vm_compute; reflexivity. Qed.

Lemma cross_shard_conserves_witness :
  let w' := (Transfer net_call 0 "s0" "alice" "s1" "bob" 30 (world0 all_answered)).1.1 in
  exists mf' mt', shards (deliver [0; 3; 1] w') !! "s0" = Some mf' /\
    shards (deliver [0; 3; 1] w') !! "s1" = Some mt' /\ eq64 (total mf' + total mt') 200.
Proof.
  pose proof (cross_shard_conserves 0 "s0" "alice" "s1" "bob" 30 (world0 all_answered)
                ltac:(discriminate) ltac:(vm_compute; split; discriminate) (world0_fresh _) eq_refl) as H.
  destruct (delivered_shards "s0") as [mf' H1]; [left|]. destruct (delivered_shards "s1") as [mt' H2]; [right; left|].
  destruct (Transfer net_call 0 "s0" "alice" "s1" "bob" 30 (world0 all_answered)) as [[w' r] q] eqn:E.
  assert (r = TCommitted) as Hr by (vm_compute in E; congruence).
  rewrite Hr in H. exists mf', mt'. split; [exact H1|]. split; [exact H2|].
  exact (H [0; 3; 1] _ _ mf' mt' ltac:(vm_compute; reflexivity) ltac:(vm_compute; reflexivity) H1 H2 I).
Defined.

Lemma in_doubt_commit_lands_witness :
  let w' := (Transfer net_call 0 "s0" "alice" "s1" "bob" 30 (world0 first_schedule)).1.1 in
  let sched := [([], false); ([0], true)] in
  (retryInBackground net_call 2 (tx_name 0) "s1" (mkWorld (shards w') (sent w') sched)).2 = true.
Proof.
  pose proof (in_doubt_commit_lands 0 "s0" "alice" "s1" "bob" 30 (world0 first_schedule)
                ltac:(discriminate) ltac:(vm_compute; split; discriminate) (world0_fresh _)) as H.
  destruct (Transfer net_call 0 "s0" "alice" "s1" "bob" 30 (world0 first_schedule)) as [[w' r] q] eqn:E.
  assert (r = TInDoubt ["s1"]) as Hr by (vm_compute in E; congruence).
  specialize (H ["s1"] [] 2 "s1" [([], false); ([0], true)] Hr ltac:(right; reflexivity)
                ltac:(exists 1, [0]; split; [lia|reflexivity])).
  cbv zeta. cbn [fst deliver] in H |- *.
  destruct (retryInBackground _ _ _ _ _) as [w2 landed]. exact (proj1 H).
Defined.
End CrossShardExamples.
