(* ===== verification/Faults.v ===== *)
(** * internal/transport/faults.go: the fault table

    Which nodes are dead and how the network is split.  Every delivery consults
    [Check] on the send and on the reply path. *)

From stdpp Require Import sorting.
From S2P Require Import Prelude.

Record Faults := mkFaults {
  dead : gset string;
  group : gmap string Z;      (* node -> index of its partition group *)
  groups : list (list string);
}.

Record FaultState := mkFaultState { Dead_ : list string; Groups_ : list (list string) }.

Definition NewFaults : Faults := mkFaults ∅ ∅ [].

Definition Kill (id : string) (f : Faults) : Faults := mkFaults ({[id]} ∪ dead f) (group f) (groups f).
Definition Revive (id : string) (f : Faults) : Faults := mkFaults (dead f ∖ {[id]}) (group f) (groups f).
Definition Dead (f : Faults) (id : string) : bool := bool_decide (id ∈ dead f).

(** [for i, g := range groups]: the index of the last group that lists a node. *)
Fixpoint index_groups (i : Z) (gs : list (list string)) (m : gmap string Z) : gmap string Z :=
  match gs with
  | [] => m
  | g :: rest => index_groups (i + 1) rest (fold_left (fun m id => <[id := i]> m) g m)
  end.

Definition Partition (gs : list (list string)) (f : Faults) : Faults :=
  mkFaults (dead f) (index_groups 0 gs ∅) gs.

Definition Heal (f : Faults) : Faults := Partition [] f.
Definition Partitioned (f : Faults) : bool := 0 <? length (groups f).

Definition GroupOf (f : Faults) (id : string) : Z :=
  if Nat.eqb (length (groups f)) 0 then 0%Z
  else default (-1)%Z (group f !! id).

Inductive CheckError := ErrDown (id : string) | ErrPartitioned (from to : string).

Definition Check (f : Faults) (from to : string) : option CheckError :=
  if Dead f from then Some (ErrDown from)
  else if Dead f to then Some (ErrDown to)
  else if negb (bool_decide (GroupOf f from = GroupOf f to)) then Some (ErrPartitioned from to)
  else None.

Definition str_le (a b : string) : Prop := str_ltb b a = false.
#[export] Instance str_le_dec a b : Decision (str_le a b).
Proof. unfold str_le. apply _. Defined.

Definition State (f : Faults) : FaultState :=
  mkFaultState (merge_sort str_le (elements (dead f))) (groups f).

Definition Restore (s : FaultState) (f : Faults) : Faults :=
  let f1 := Partition (Groups_ s) f in
  mkFaults (fold_left (fun d id => {[id]} ∪ d) (Dead_ s) ∅) (group f1) (groups f1).

(** ** Well-formed tables: [group] is the index of [groups] *)

Definition faults_wf (f : Faults) : Prop := group f = index_groups 0 (groups f) ∅.

Inductive fault_op := FKill (id : string) | FRevive (id : string) | FPartition (gs : list (list string)) | FHeal.

Definition run_fault (f : Faults) (o : fault_op) : Faults :=
  match o with
  | FKill id => Kill id f
  | FRevive id => Revive id f
  | FPartition gs => Partition gs f
  | FHeal => Heal f
  end.

Lemma run_fault_wf ops f : faults_wf f -> faults_wf (fold_left run_fault ops f).
Proof.
  revert f. induction ops as [|o ops IH]; intros f Hwf; simpl; [done|].
  apply IH. by destruct o.
Qed.

(** Two tables that no observer can tell apart. *)
Definition faults_equiv (f g : Faults) : Prop :=
  (forall id, Dead f id = Dead g id) /\ (forall id, GroupOf f id = GroupOf g id).

#[export] Instance faults_equiv_equivalence : Equivalence faults_equiv.
Proof.
  split; unfold faults_equiv.
  - done.
  - intros f g [H1 H2]. split; intros; by rewrite ?H1, ?H2.
  - intros f g h [H1 H2] [H3 H4]. split; intros; by rewrite ?H1, ?H2.
Qed.

#[export] Instance Check_proper : Proper (faults_equiv ==> eq ==> eq ==> eq) Check.
Proof.
  intros f g [Hd Hg] a _ <- b _ <-. unfold Check. by rewrite !Hd, !Hg.
Qed.

Lemma fold_union_elem (l : list string) (d : gset string) x :
  x ∈ fold_left (fun d id => {[id]} ∪ d) l d <-> x ∈ l \/ x ∈ d.
Proof.
  revert d. induction l as [|y l IH]; intros d; simpl; [set_solver|]. rewrite IH. set_solver.
Qed.

Lemma restore_state_wf f f0 : faults_wf f -> faults_equiv (Restore (State f) f0) f.
Proof.
  intros Hwf. unfold Restore, State, faults_equiv; simpl. split; intros id.
  - unfold Dead; simpl. apply bool_decide_ext. rewrite fold_union_elem.
    rewrite merge_sort_Permutation, elem_of_elements. set_solver.
  - unfold GroupOf; simpl. by rewrite <- Hwf.
Qed.

(** Copying a table to a node process reproduces it, whatever the process had. *)
Theorem restore_state_roundtrip ops (f0 : Faults) :
  let f := fold_left run_fault ops NewFaults in
  faults_equiv (Restore (State f) f0) f.
Proof. intros f. by apply restore_state_wf, run_fault_wf. Qed.

(** A message may travel exactly between live nodes on one side of the split:
    reachability is an equivalence on live nodes, so nobody bridges a split. *)
Theorem check_is_same_side f a b c :
  (Check f a b = None <-> Dead f a = false /\ Dead f b = false /\ GroupOf f a = GroupOf f b) /\
  (Check f a b = None <-> Check f b a = None) /\
  (Check f a b = None -> Check f b c = None -> Check f a c = None).
Proof.
  assert (forall a b, Check f a b = None <->
            Dead f a = false /\ Dead f b = false /\ GroupOf f a = GroupOf f b) as Hspec.
  { intros x y. unfold Check. destruct (Dead f x), (Dead f y); simpl; try (split; [done|by intros (? & ? & _)]).
    case_bool_decide; simpl; split; try done. by intros (_ & _ & ?). }
  rewrite !Hspec. split_and!; [done|split; intros (? & ? & ?); auto|].
  intros (? & ? & ?) (? & ? & ?). split_and!; congruence.
Qed.
