(* ===== verification/Transport.v ===== *)
(** * internal/transport and internal/logstream: deliveries, traces and events

    The in-process transport (inproc.go), the gRPC one (grpc.go) and the
    transport of the protocol's own tests (internal/paxos/memnet.go).  A send
    consults the fault table twice, for the request and for the reply, and the
    table may change in between; which branch a Go [select] takes is an input, so
    every timing of a context or of a shutdown is covered.  Connections over gRPC
    are kept until the transport is closed. *)

From S2P Require Import Prelude GoText PaxosTypes Faults.

(** ** Events *)

Inductive Level := LPaxos | LTwoPC | LLeader | LNet | LError | LClient | LInfo.

Definition LevelString (l : Level) : string :=
  match l with
  | LPaxos => "paxos" | LTwoPC => "twopc" | LLeader => "leader" | LNet => "net"
  | LError => "error" | LClient => "client" | LInfo => "info"
  end.

Definition Valid (s : string) : bool :=
  bool_decide (s ∈ ["paxos"; "twopc"; "leader"; "net"; "error"; "client"; "info"]).

Record Event := mkEvent {
  evLevel : Level;
  evTag : string;
  evMsg : string;
  evFrom : string;
  evTo : string;
  evKind : string;
}.

#[export] Instance Level_eq_dec : EqDecision Level.
Proof. solve_decision. Defined.
#[export] Instance Event_eq_dec : EqDecision Event.
Proof. solve_decision. Defined.

(** [Emitter.emit] and [Emitter.Edge]. *)
Definition plain_event (l : Level) (tag msg : string) : Event := mkEvent l tag msg "" "" "".
Definition edge_event (l : Level) (tag from to kind msg : string) : Event := mkEvent l tag msg from to kind.

Lemma level_valid l : Valid (LevelString l) = true.
Proof. by destruct l. Qed.

(** ** Traces *)

Record Trace := mkTrace { tFrom : NodeID; tTo : NodeID; tReq : Message; tReply : Message; tErr : string }.

Definition slim (m : Message) : Message :=
  mkMessage (mKind m) (mFrom m) (mBallot m) (mOK m) (mSlot m) "" [] (mCommitIndex m).

Inductive SendError :=
| EFault (c : CheckError)
| EClosed
| ENoReplica (to : NodeID)
| EContext (why : string)
| ERefused (why : string).

(** [paxos.Message{}], which a failed send returns. *)
Definition zeroMessage : Message := blankMessage (KindUnknown "") "".

Definition ErrUnreachable : string := "unreachable".

Definition CheckErrorString (c : CheckError) : string :=
  match c with
  | ErrDown id => ErrUnreachable +:+ ": " +:+ id +:+ " is down"
  | ErrPartitioned from to => ErrUnreachable +:+ ": " +:+ from +:+ " and " +:+ to +:+ " are partitioned"
  end.

Definition SendErrorString (e : SendError) : string :=
  match e with
  | EFault c => CheckErrorString c
  | EClosed => "transport closed"
  | ENoReplica to => "no replica " +:+ to
  | EContext why => why
  | ERefused why => ErrUnreachable +:+ ": " +:+ why
  end.

Definition newTrace (from to : NodeID) (req : Message) (reply : Message + SendError) : Trace :=
  match reply with
  | inl r => mkTrace from to (slim req) (slim r) ""
  | inr e => mkTrace from to (slim req) (slim zeroMessage) (SendErrorString e)
  end.

(** ** Delivery *)

(** The branch of [select] that hands a request to an inbox. *)
Inductive enqueue := Enqueued | EnqCtx (why : string) | EnqStop.
(** The branch that waits for the reply; a receiver may have handled a request
    whose sender gave up. *)
Inductive await := Replied | AwaitCtx (handled : bool) (why : string) | AwaitStop (handled : bool).

Section Deliver.
Context {H : Type} (handle : NodeID -> Message -> H -> H * Message).

Definition when_handled (handled : bool) (to : NodeID) (msg : Message) (h : H) : H :=
  if handled then (handle to msg h).1 else h.

(** [inprocSender.deliver]: [f] is the fault table when the request leaves and
    [f'] when the reply does. *)
Definition deliver_inproc (f f' : Faults) (inboxes : gset NodeID) (closed : bool)
    (enq : enqueue) (aw : await) (from to : NodeID) (msg : Message) (h : H) : H * (Message + SendError) :=
  match Check f from to with
  | Some e => (h, inr (EFault e))
  | None =>
      if closed then (h, inr EClosed)
      else if negb (bool_decide (to ∈ inboxes)) then (h, inr (ENoReplica to))
      else match enq with
           | EnqCtx why => (h, inr (EContext why))
           | EnqStop => (h, inr EClosed)
           | Enqueued =>
               match aw with
               | AwaitCtx handled why => (when_handled handled to msg h, inr (EContext why))
               | AwaitStop handled => (when_handled handled to msg h, inr EClosed)
               | Replied =>
                   let '(h', reply) := handle to msg h in
                   match Check f' to from with
                   | Some e => (h', inr (EFault e))
                   | None => (h', inl reply)
                   end
               end
           end
  end.

(** [peerServer.handle], under the receiver's own copy of the table. *)
Definition peer_handle (f : Faults) (self : NodeID) (msg : Message) (h : H) : H * (Message + SendError) :=
  match Check f (mFrom msg) self with
  | Some e => (h, inr (ERefused (CheckErrorString e)))
  | None => let '(h', reply) := handle self msg h in (h', inl reply)
  end.

(** [GRPC.send]: the connection fails before the receiver or after it, or the
    call completes; [fs] is the receiver's table. *)
Inductive invoke := Invoked | InvokeFailed (handled : bool) (why : string).

Definition send_grpc (f fs f' : Faults) (addrs : gmap NodeID string) (dial_ok : bool) (inv : invoke)
    (self to : NodeID) (msg : Message) (h : H) : H * (Message + SendError) :=
  match Check f self to with
  | Some e => (h, inr (EFault e))
  | None =>
      match addrs !! to with
      | None => (h, inr (ENoReplica to))
      | Some _ =>
          if negb dial_ok then (h, inr (ENoReplica to))
          else match inv with
               | InvokeFailed handled why =>
                   ((if handled then (peer_handle fs to msg h).1 else h), inr (ERefused why))
               | Invoked =>
                   match peer_handle fs to msg h with
                   | (h', inr e) => (h', inr e)
                   | (h', inl reply) =>
                       match Check f' to self with
                       | Some e => (h', inr (EFault e))
                       | None => (h', inl reply)
                       end
                   end
               end
      end
  end.

(** What consensus may rely on, whichever transport carries its messages: the
    receiver handles a message at most once; a message that the fault table
    refuses is not handled; and an answer is the receiver's, both ways being
    open. *)
Definition delivery_contract (f f' : Faults) (from to : NodeID) (msg : Message) (h : H)
    (out : H * (Message + SendError)) : Prop :=
  (out.1 = h \/ out.1 = (handle to msg h).1) /\
  (Check f from to <> None -> out.1 = h /\ exists e, out.2 = inr (EFault e)) /\
  (forall reply, out.2 = inl reply ->
     (out.1, reply) = handle to msg h /\ Check f from to = None /\ Check f' to from = None).

(** Both transports hand a message to its receiver at most once, never across a fault,
    and return only the receiver's own answer. *)
Theorem transports_deliver_at_most_once f f' fs inboxes closed enq aw addrs dial inv from to msg h :
  delivery_contract f f' from to msg h (deliver_inproc f f' inboxes closed enq aw from to msg h) /\
  delivery_contract f f' from to msg h (send_grpc f fs f' addrs dial inv from to msg h).
Proof.
  split; unfold delivery_contract, deliver_inproc, send_grpc.
  - destruct (Check f from to) eqn:E; [naive_solver|].
    destruct closed; [naive_solver|]. case_bool_decide; simpl; [|naive_solver].
    destruct enq; [|naive_solver..]. destruct aw as [|[] ?|[]]; simpl; [|naive_solver..].
    destruct (handle to msg h) as [h' r] eqn:Eh. destruct (Check f' to from) eqn:E'; naive_solver.
  - destruct (Check f from to) eqn:E; [naive_solver|].
    destruct (addrs !! to); [|naive_solver]. destruct dial; simpl; [|naive_solver].
    unfold peer_handle. destruct (Check fs (mFrom msg) to); [destruct inv as [|[] ?]; naive_solver|].
    destruct (handle to msg h) as [h' r] eqn:Eh.
    destruct inv as [|[] ?]; simpl; [destruct (Check f' to from) eqn:E'|..]; naive_solver.
Qed.
End Deliver.

(** ** Connections *)

(** The connections of a [GRPC] transport, by the number they were dialled in,
    and those closed. *)
Record GRPC := mkGRPC { g_peers : gmap NodeID string; g_conns : gmap NodeID nat; g_dialled : nat; g_closed : list nat }.

Definition NewGRPC (peers : gmap NodeID string) : GRPC := mkGRPC peers ∅ 0 [].

(** [GRPC.conn]: one connection per peer, kept for later calls. *)
Definition grpc_conn (dial_ok : bool) (to : NodeID) (g : GRPC) : GRPC * (nat + SendError) :=
  match g_conns g !! to with
  | Some c => (g, inl c)
  | None =>
      match g_peers g !! to with
      | None => (g, inr (ENoReplica to))
      | Some _ =>
          if negb dial_ok then (g, inr (ENoReplica to))
          else (mkGRPC (g_peers g) (<[to := g_dialled g]> (g_conns g)) (S (g_dialled g)) (g_closed g), inl (g_dialled g))
      end
  end.

Definition grpc_Close (g : GRPC) : GRPC :=
  mkGRPC (g_peers g) ∅ (g_dialled g) (g_closed g ++ (map_to_list (g_conns g)).*2).

Inductive grpc_op := GConn (dial_ok : bool) (to : NodeID) | GClose.
Definition run_grpc (g : GRPC) (o : grpc_op) : GRPC :=
  match o with GConn ok to => (grpc_conn ok to g).1 | GClose => grpc_Close g end.

(** Every connection dialled is open for one peer, with an address, or closed. *)
Definition grpc_ok (g : GRPC) : Prop :=
  (map_to_list (g_conns g)).*2 ++ g_closed g ≡ₚ seq 0 (g_dialled g) /\ dom (g_conns g) ⊆ dom (g_peers g).

Lemma run_grpc_ok g o : grpc_ok g -> grpc_ok (run_grpc g o) /\ g_peers (run_grpc g o) = g_peers g.
Proof.
  intros [Hp Hd]. destruct o as [ok to|]; simpl.
  - unfold grpc_conn. destruct (g_conns g !! to) as [c|] eqn:Hc; [done|].
    destruct (g_peers g !! to) as [a|] eqn:Ha; [|done]. destruct ok; [|done]. unfold grpc_ok. cbn -[seq].
    split; [|done]. split; [|apply elem_of_dom_2 in Ha; set_solver].
    rewrite map_to_list_insert, seq_S by done. cbn -[seq]. rewrite Hp. apply Permutation_cons_append.
  - unfold grpc_ok. simpl. split; [|done]. split; [|set_solver].
    rewrite map_to_list_empty. simpl. by rewrite Permutation_app_comm.
Qed.

(** Connections are not leaked: however calls and closings interleave, a peer has
    at most one connection, which its next call reuses, and a transport that is
    closed has closed, once, every connection it ever dialled. *)
Theorem connections_are_released peers ops :
  let g := fold_left run_grpc ops (NewGRPC peers) in
  g_closed (grpc_Close g) ≡ₚ seq 0 (g_dialled g) /\
  forall ok ok' to c, (grpc_conn ok to g).2 = inl c -> grpc_conn ok' to (grpc_conn ok to g).1 = ((grpc_conn ok to g).1, inl c).
Proof.
  intros g. assert (grpc_ok g) as [Hp _].
  { unfold g. assert (grpc_ok (NewGRPC peers)) as H0 by (split; simpl; [by rewrite map_to_list_empty|set_solver]).
    revert H0. generalize (NewGRPC peers). induction ops as [|o ops IH]; intros g0 H0; simpl; [done|].
    apply IH, run_grpc_ok, H0. }
  split; [simpl; by rewrite Permutation_app_comm|]. intros ok ok' to c. unfold grpc_conn at 1 3 4.
  destruct (g_conns g !! to) as [c'|] eqn:Hc.
  { simpl. intros [= ->]. unfold grpc_conn. by rewrite Hc. }
  destruct (g_peers g !! to); [|done]. destruct ok; [|done]. simpl. intros [= <-].
  unfold grpc_conn. simpl. by rewrite lookup_insert_eq.
Qed.

(** ** The network of the protocol's own tests *)

Record MemNetwork := mkMemNetwork {
  m_nodes : gset NodeID;
  m_down : gset NodeID;
  m_blocked : gmap NodeID (gset NodeID);
  m_latency : Z;
}.

Definition NewMemNetwork : MemNetwork := mkMemNetwork ∅ ∅ ∅ 0.
Definition mem_Register (n : NodeID) (m : MemNetwork) : MemNetwork :=
  mkMemNetwork ({[n]} ∪ m_nodes m) (m_down m) (m_blocked m) (m_latency m).
Definition SetLatency (d : Z) (m : MemNetwork) : MemNetwork :=
  mkMemNetwork (m_nodes m) (m_down m) (m_blocked m) d.
Definition mem_Kill (n : NodeID) (m : MemNetwork) : MemNetwork :=
  mkMemNetwork (m_nodes m) ({[n]} ∪ m_down m) (m_blocked m) (m_latency m).
Definition mem_Revive (n : NodeID) (m : MemNetwork) : MemNetwork :=
  mkMemNetwork (m_nodes m) (m_down m ∖ {[n]}) (m_blocked m) (m_latency m).

Definition is_blocked (m : MemNetwork) (a b : NodeID) : bool :=
  match m_blocked m !! a with Some s => bool_decide (b ∈ s) | None => false end.

Definition Disconnect (a b : NodeID) (m : MemNetwork) : MemNetwork :=
  mkMemNetwork (m_nodes m) (m_down m)
    (<[a := {[b]} ∪ default ∅ (m_blocked m !! a)]> (m_blocked m)) (m_latency m).
Definition Connect (a b : NodeID) (m : MemNetwork) : MemNetwork :=
  match m_blocked m !! a with
  | Some s => mkMemNetwork (m_nodes m) (m_down m) (<[a := s ∖ {[b]}]> (m_blocked m)) (m_latency m)
  | None => m
  end.

(** Go ranges over the map of nodes in any order; the links are independent. *)
Definition mem_peers (id : NodeID) (m : MemNetwork) : list NodeID := elements (m_nodes m ∖ {[id]}).
Definition Isolate (id : NodeID) (m : MemNetwork) : MemNetwork :=
  fold_left (fun m p => Disconnect p id (Disconnect id p m)) (mem_peers id m) m.
Definition mem_Heal (id : NodeID) (m : MemNetwork) : MemNetwork :=
  fold_left (fun m p => Connect p id (Connect id p m)) (mem_peers id m) m.

Inductive RouteError := RDown | RPartitioned | RNoNode.

Definition route (m : MemNetwork) (from to : NodeID) : Z + RouteError :=
  if bool_decide (from ∈ m_down m) || bool_decide (to ∈ m_down m) then inr RDown
  else if is_blocked m from to then inr RPartitioned
  else if negb (bool_decide (to ∈ m_nodes m)) then inr RNoNode
  else inl (m_latency m).

Lemma is_blocked_Disconnect a b m x y :
  is_blocked (Disconnect a b m) x y = is_blocked m x y || bool_decide (x = a /\ y = b).
Proof.
  unfold is_blocked, Disconnect; simpl. rewrite lookup_insert. case_decide as Hx; [subst x|].
  - destruct (m_blocked m !! a) as [s|]; simpl; repeat case_bool_decide; set_solver.
  - rewrite bool_decide_false by naive_solver. by rewrite orb_false_r.
Qed.

Lemma is_blocked_Connect a b m x y :
  is_blocked (Connect a b m) x y = is_blocked m x y && negb (bool_decide (x = a /\ y = b)).
Proof.
  unfold is_blocked, Connect. destruct (m_blocked m !! a) as [s|] eqn:Ha; simpl.
  - rewrite lookup_insert. case_decide as Hx; [subst x|].
    + rewrite Ha. repeat case_bool_decide; set_solver.
    + rewrite (bool_decide_false (x = a /\ _)) by naive_solver. by rewrite andb_true_r.
  - case_bool_decide as E; [destruct E as [-> ->]|by rewrite andb_true_r]. by rewrite Ha.
Qed.

Definition link_of (id : NodeID) (ps : list NodeID) (x y : NodeID) : bool :=
  bool_decide (x = id /\ y ∈ ps) || bool_decide (y = id /\ x ∈ ps).

Lemma is_blocked_isolate id ps m x y :
  is_blocked (fold_left (fun m p => Disconnect p id (Disconnect id p m)) ps m) x y =
  is_blocked m x y || link_of id ps x y.
Proof.
  unfold link_of. revert m. induction ps as [|p ps IH]; intros m; simpl.
  { rewrite !bool_decide_false by set_solver. by rewrite orb_false_r. }
  rewrite IH, !is_blocked_Disconnect. destruct (is_blocked m x y); simpl; [done|].
  repeat case_bool_decide; set_solver.
Qed.

Lemma is_blocked_heal id ps m x y :
  is_blocked (fold_left (fun m p => Connect p id (Connect id p m)) ps m) x y =
  is_blocked m x y && negb (link_of id ps x y).
Proof.
  unfold link_of. revert m. induction ps as [|p ps IH]; intros m; simpl.
  { rewrite !bool_decide_false by set_solver. by rewrite andb_true_r. }
  rewrite IH, !is_blocked_Connect. destruct (is_blocked m x y); simpl; [|done].
  repeat case_bool_decide; set_solver.
Qed.

Lemma fold_frame (g : MemNetwork -> NodeID -> MemNetwork) ps m :
  (forall m p, m_nodes (g m p) = m_nodes m /\ m_down (g m p) = m_down m /\ m_latency (g m p) = m_latency m) ->
  let m' := fold_left g ps m in
  m_nodes m' = m_nodes m /\ m_down m' = m_down m /\ m_latency m' = m_latency m.
Proof.
  intros Hg. revert m. induction ps as [|p ps IH]; intros m; simpl; [done|].
  destruct (IH (g m p)) as (-> & -> & ->). apply Hg.
Qed.

Lemma isolate_frame id m :
  m_nodes (Isolate id m) = m_nodes m /\ m_down (Isolate id m) = m_down m /\ m_latency (Isolate id m) = m_latency m.
Proof. by apply fold_frame. Qed.

Lemma heal_frame id m :
  m_nodes (mem_Heal id m) = m_nodes m /\ m_down (mem_Heal id m) = m_down m /\ m_latency (mem_Heal id m) = m_latency m.
Proof. apply fold_frame. intros m0 p. unfold Connect. simpl. repeat (goal_match; simpl); done. Qed.

(** Isolating a replica cuts both directions to every peer and nothing else;
    healing it restores exactly those links, whatever had blocked them. *)
Theorem isolate_then_heal m id x y :
  x ∈ m_nodes m -> y ∈ m_nodes m -> x <> y ->
  (x = id \/ y = id -> route (Isolate id m) x y = inr RDown \/ route (Isolate id m) x y = inr RPartitioned) /\
  (x <> id -> y <> id -> route (Isolate id m) x y = route m x y) /\
  (x = id \/ y = id -> x ∉ m_down m -> y ∉ m_down m -> route (mem_Heal id m) x y = inl (m_latency m)) /\
  (x <> id -> y <> id -> route (mem_Heal id m) x y = route m x y).
Proof.
  intros Hx Hy Hne. unfold route.
  destruct (isolate_frame id m) as (-> & -> & ->), (heal_frame id m) as (-> & -> & ->).
  unfold Isolate, mem_Heal. rewrite is_blocked_isolate, is_blocked_heal.
  assert (link_of id (mem_peers id m) x y = bool_decide (x = id \/ y = id)) as ->.
  { unfold link_of, mem_peers. repeat case_bool_decide; set_solver. }
  rewrite (bool_decide_true (y ∈ m_nodes m)) by done. simpl. split_and!.
  - intros Hid. rewrite (bool_decide_true (x = id \/ y = id)), orb_true_r by done. destruct (_ || _); auto.
  - intros ? ?. rewrite (bool_decide_false (x = id \/ y = id)), orb_false_r by naive_solver. done.
  - intros Hid ? ?. rewrite (bool_decide_true (x = id \/ y = id)) by done. rewrite andb_false_r.
    by rewrite !bool_decide_false by done.
  - intros ? ?. rewrite (bool_decide_false (x = id \/ y = id)), andb_true_r by naive_solver. done.
Qed.

Lemma isolate_then_heal_witness :
  let m := mem_Register "b" (mem_Register "a" NewMemNetwork) in
  route (mem_Heal "a" m) "a" "b" = inl 0%Z.
Proof.
  intros m. destruct (isolate_then_heal m "a" "a" "b") as (_ & _ & H & _); [set_solver..|done|].
  apply H; [by left|set_solver|set_solver].
Defined.
