(* ===== verification/Inbox.v ===== *)
(** * internal/transport/inproc.go: replicas behind inboxes

    The in-process network as concurrent goroutines.  A sender checks the fault
    table, looks the inbox up, waits for room in it and then for the reply; the
    goroutine of a replica takes one envelope after the other and runs the
    handler; faults change and the network is closed at any time.  A step is one
    critical section or one branch of a [select].

    [handle] is what the replicas' handlers do to the replicas' state.  [served]
    is a history: the calls that were handled, each with the state it found.
    What Transport.v assumes of a delivery is shown here of the goroutines. *)

From S2P Require Import Prelude GoText PaxosTypes PaxosNode Faults Transport.

Definition inboxSize : nat := 256.

(** A call of [deliver]: where it is. *)
Inductive stage :=
  | Checked                                  (* the first check passed *)
  | Sending                                  (* before [inbox <- env] *)
  | Waiting                                  (* before [<-env.reply] *)
  | Finished (out : Message + SendError).

Record delivery := mkDelivery { d_from : NodeID; d_to : NodeID; d_msg : Message; d_stage : stage }.

(** The goroutine that serves an inbox. *)
Inductive server := Idle | Serving (call : nat) | Gone.

Section Inproc.
Context {H : Type} (handle : NodeID -> Message -> H -> H * Message).

(** An envelope is known by the call that made it; the call's reply channel holds
    at most one message. *)
Record Inproc := mkInproc {
  n_faults : Faults;
  n_inboxes : gmap NodeID (list nat);
  n_servers : gmap NodeID server;
  n_closed : bool;
  n_stop : bool;
  n_calls : gmap nat delivery;
  n_replies : gmap nat Message;
  n_state : H;
  n_served : list (nat * H);
}.
Implicit Types n : Inproc.

Definition NewInproc (f : Faults) (h : H) : Inproc := mkInproc f ∅ ∅ false false ∅ ∅ h [].

Definition set_call (k : nat) (d : delivery) n : Inproc :=
  mkInproc (n_faults n) (n_inboxes n) (n_servers n) (n_closed n) (n_stop n) (<[k := d]> (n_calls n)) (n_replies n)
    (n_state n) (n_served n).
Definition set_stage (k : nat) (d : delivery) (s : stage) n : Inproc :=
  set_call k (mkDelivery (d_from d) (d_to d) (d_msg d) s) n.
Definition set_inbox (i : NodeID) (q : list nat) (s : server) n : Inproc :=
  mkInproc (n_faults n) (<[i := q]> (n_inboxes n)) (<[i := s]> (n_servers n)) (n_closed n) (n_stop n) (n_calls n)
    (n_replies n) (n_state n) (n_served n).

(** Steps, as the code takes them. *)
Inductive inproc_action :=
  | NFaults (f : Faults)
  | NRegister (i : NodeID)
  | NCall (k : nat) (from to : NodeID) (msg : Message)
  | NLookup (k : nat)
  | NEnqueue (k : nat)
  | NTake (i : NodeID)
  | NHandle (i : NodeID)
  | NReply (k : nat)
  | NContext (k : nat) (why : string)        (* ctx.Done(), in either [select] *)
  | NStopped (k : nat)                       (* <-stop, in either [select] *)
  | NExit (i : NodeID)                       (* <-stop, in the server's [select] *)
  | NClose
  | NStop.

(** [deliver]: the check of the fault table. *)
Definition inproc_call (k : nat) (from to : NodeID) (msg : Message) n : option Inproc :=
  if bool_decide (n_calls n !! k = None) then
    let s := match Check (n_faults n) from to with Some e => Finished (inr (EFault e)) | None => Checked end in
    Some (set_call k (mkDelivery from to msg s) n)
  else None.

(** The section under the read lock. *)
Definition inproc_lookup (k : nat) n : option Inproc :=
  d ← n_calls n !! k;
  match d_stage d with
  | Checked =>
      Some (set_stage k d
        (if n_closed n then Finished (inr EClosed)
         else match n_inboxes n !! d_to d with
              | Some _ => Sending
              | None => Finished (inr (ENoReplica (d_to d)))
              end) n)
  | _ => None
  end.

Definition inproc_enqueue (k : nat) n : option Inproc :=
  d ← n_calls n !! k;
  q ← n_inboxes n !! d_to d;
  s ← n_servers n !! d_to d;
  match d_stage d with
  | Sending =>
      if length q <? inboxSize then Some (set_stage k d Waiting (set_inbox (d_to d) (q ++ [k]) s n)) else None
  | _ => None
  end.

Definition inproc_take (i : NodeID) n : option Inproc :=
  q ← n_inboxes n !! i;
  s ← n_servers n !! i;
  match s, q with
  | Idle, k :: rest => Some (set_inbox i rest (Serving k) n)
  | _, _ => None
  end.

(** [env.reply <- h(env.ctx, env.msg)]. *)
Definition inproc_handle (i : NodeID) n : option Inproc :=
  q ← n_inboxes n !! i;
  s ← n_servers n !! i;
  match s with
  | Serving k =>
      d ← n_calls n !! k;
      let '(h, rep) := handle i (d_msg d) (n_state n) in
      Some (mkInproc (n_faults n) (n_inboxes n) (<[i := Idle]> (n_servers n)) (n_closed n) (n_stop n) (n_calls n)
              (<[k := rep]> (n_replies n)) h (n_served n ++ [(k, n_state n)]))
  | _ => None
  end.

Definition inproc_reply (k : nat) n : option Inproc :=
  d ← n_calls n !! k;
  rep ← n_replies n !! k;
  match d_stage d with
  | Waiting =>
      Some (set_stage k d
        (Finished (match Check (n_faults n) (d_to d) (d_from d) with Some e => inr (EFault e) | None => inl rep end)) n)
  | _ => None
  end.

(** Giving up in one of the two [select]s. *)
Definition inproc_give_up (k : nat) (e : SendError) n : option Inproc :=
  d ← n_calls n !! k;
  match d_stage d with
  | Sending | Waiting => Some (set_stage k d (Finished (inr e)) n)
  | _ => None
  end.

Definition inproc_exec (a : inproc_action) n : option Inproc :=
  match a with
  | NFaults f =>
      Some (mkInproc f (n_inboxes n) (n_servers n) (n_closed n) (n_stop n) (n_calls n) (n_replies n) (n_state n) (n_served n))
  | NRegister i => if bool_decide (n_inboxes n !! i = None) then Some (set_inbox i [] Idle n) else None
  | NCall k from to msg => inproc_call k from to msg n
  | NLookup k => inproc_lookup k n
  | NEnqueue k => inproc_enqueue k n
  | NTake i => inproc_take i n
  | NHandle i => inproc_handle i n
  | NReply k => inproc_reply k n
  | NContext k why => inproc_give_up k (EContext why) n
  | NStopped k => if n_stop n then inproc_give_up k EClosed n else None
  | NExit i =>
      q ← n_inboxes n !! i;
      s ← n_servers n !! i;
      match s with Idle => if n_stop n then Some (set_inbox i q Gone n) else None | _ => None end
  | NClose =>
      Some (mkInproc (n_faults n) (n_inboxes n) (n_servers n) true (n_stop n) (n_calls n) (n_replies n) (n_state n) (n_served n))
  | NStop =>
      if n_closed n then
        Some (mkInproc (n_faults n) (n_inboxes n) (n_servers n) (n_closed n) true (n_calls n) (n_replies n) (n_state n) (n_served n))
      else None
  end.

Fixpoint inproc_run (acts : list inproc_action) n : option Inproc :=
  match acts with
  | [] => Some n
  | a :: rest => n' ← inproc_exec a n; inproc_run rest n'
  end.

(** ** What the goroutines keep to *)

(** The calls that reached a replica, in the order they will have been handled
    in: those handled, the one in hand, those in its inbox. *)
Definition served_at n (i : NodeID) : list nat :=
  filter (fun k => d_to <$> n_calls n !! k = Some i) (n_served n).*1.
Definition in_hand n (i : NodeID) : list nat :=
  match n_servers n !! i with Some (Serving k) => [k] | _ => [] end.
Definition line n (i : NodeID) : list nat := served_at n i ++ in_hand n i ++ default [] (n_inboxes n !! i).

(** The states handlers found, and the last one, are those of handling the calls
    one after the other. *)
Fixpoint serial (calls : gmap nat delivery) (served : list (nat * H)) (h0 h : H) : Prop :=
  match served with
  | [] => h0 = h
  | (k, hk) :: rest => hk = h0 /\ exists d, calls !! k = Some d /\ serial calls rest (handle (d_to d) (d_msg d) h0).1 h
  end.

(** A reply is what the handler answered in the state it found. *)
Definition answered n (k : nat) (d : delivery) (rep : Message) : Prop :=
  exists h, (k, h) ∈ n_served n /\ rep = (handle (d_to d) (d_msg d) h).2.

Definition reached (s : stage) : bool := match s with Checked | Sending => false | _ => true end.

Record inproc_ok (h0 : H) n : Prop := {
  no_dom i : is_Some (n_inboxes n !! i) <-> is_Some (n_servers n !! i);
  no_line i k : k ∈ line n i -> exists d, n_calls n !! k = Some d /\ d_to d = i /\ reached (d_stage d) = true;
  no_served k h : (k, h) ∈ n_served n -> exists d, n_calls n !! k = Some d;
  no_once i : NoDup (line n i);
  no_reply k rep : n_replies n !! k = Some rep -> exists d, n_calls n !! k = Some d /\ answered n k d rep;
  no_finished k d rep : n_calls n !! k = Some d -> d_stage d = Finished (inl rep) -> answered n k d rep;
  no_serial : serial (n_calls n) (n_served n) h0 (n_state n);
  no_size i q : n_inboxes n !! i = Some q -> length q <= inboxSize;
}.

(** A call keeps its sender, receiver and message. *)
Definition same_calls (c c' : gmap nat delivery) : Prop :=
  forall k d, c !! k = Some d -> exists d', c' !! k = Some d' /\ d_from d' = d_from d /\ d_to d' = d_to d /\ d_msg d' = d_msg d.

Lemma serial_same c c' served h0 h : same_calls c c' -> serial c served h0 h -> serial c' served h0 h.
Proof.
  intros Hc. revert h0. induction served as [|[k hk] served IH]; intros h0; simpl; [done|].
  intros (-> & d & Hd & Hs). destruct (Hc k d Hd) as (d' & Hd' & _ & Ht & Hm). split; [done|]. exists d'.
  split; [done|]. rewrite Ht, Hm. by apply IH.
Qed.

Lemma serial_snoc c served h0 h k d :
  serial c served h0 h -> c !! k = Some d -> serial c (served ++ [(k, h)]) h0 (handle (d_to d) (d_msg d) h).1.
Proof.
  intros Hs Hd. revert h0 Hs. induction served as [|[k' hk] served IH]; intros h0; simpl.
  - intros ->. split; [done|]. by exists d.
  - intros (-> & d' & Hd' & Hs). split; [done|]. exists d'. split; [done|]. by apply IH.
Qed.

Lemma set_call_same k d d' n :
  n_calls n !! k = Some d -> d_from d' = d_from d -> d_to d' = d_to d -> d_msg d' = d_msg d ->
  same_calls (n_calls n) (n_calls (set_call k d' n)).
Proof.
  intros Hk Hf Ht Hm k' x Hx. simpl. rewrite lookup_insert. case_decide; [subst|by eauto].
  rewrite Hk in Hx. injection Hx as <-. eauto.
Qed.

Lemma filter_agree {A} (P Q : A -> Prop) `{forall x, Decision (P x)} `{forall x, Decision (Q x)} (l : list A) :
  (forall x, x ∈ l -> P x <-> Q x) -> filter P l = filter Q l.
Proof.
  induction l as [|x l IH]; intros Hl; [done|]. rewrite !filter_cons, IH by (intros y Hy; apply Hl; by right).
  assert (P x <-> Q x) as Hx by (apply Hl; by left). do 2 case_decide; tauto.
Qed.

Lemma served_at_same n n' i :
  n_served n' = n_served n -> same_calls (n_calls n) (n_calls n') ->
  (forall k h, (k, h) ∈ n_served n -> exists d, n_calls n !! k = Some d) -> served_at n' i = served_at n i.
Proof.
  intros Hs Hc Hin. unfold served_at. rewrite Hs. apply filter_agree. intros k ([k' h] & -> & Hk)%list_elem_of_fmap. simpl.
  destruct (Hin _ _ Hk) as [d Hd]. destruct (Hc _ _ Hd) as (d' & Hd' & _ & Ht & _). rewrite Hd, Hd'. simpl. by rewrite Ht.
Qed.

(** Steps of a sender that leave lines and state alone. *)
Lemma ok_set_stage h0 n k d s :
  inproc_ok h0 n -> n_calls n !! k = Some d -> (reached (d_stage d) = true -> reached s = true) ->
  (forall rep, s = Finished (inl rep) -> answered n k d rep) -> inproc_ok h0 (set_stage k d s n).
Proof.
  intros [H1 H2 H3 H4 H5 H6 H7 H8] Hk Hs Hrep. set (d' := mkDelivery (d_from d) (d_to d) (d_msg d) s).
  assert (same_calls (n_calls n) (n_calls (set_stage k d s n))) as Hsame by by apply (set_call_same k d d').
  assert (forall i, line (set_stage k d s n) i = line n i) as Hline.
  { intros i. unfold line. f_equal. by apply served_at_same. }
  assert (forall k' x, n_calls n !! k' = Some x -> exists y, n_calls (set_stage k d s n) !! k' = Some y /\ d_to y = d_to x /\ d_msg y = d_msg x) as Hup.
  { intros k' x Hx. destruct (Hsame _ _ Hx) as (y & ? & ? & ? & ?). eauto. }
  split; [done| |..|done].
  - intros i k'. rewrite Hline. intros Hin. destruct (H2 i k' Hin) as (x & Hx & Ht & Hr). simpl. rewrite lookup_insert.
    case_decide; [|by exists x]. subst k'. assert (x = d) as -> by congruence. exists d'. by split_and!; [|simpl|simpl; auto].
  - intros k' h Hin. destruct (H3 _ _ Hin) as [x Hx]. destruct (Hup _ _ Hx) as (y & Hy & _). by exists y.
  - intros i. by rewrite Hline.
  - intros k' rep Hr. destruct (H5 _ _ Hr) as (x & Hx & h & Hin & ->). destruct (Hup _ _ Hx) as (y & Hy & Ht & Hm).
    exists y. split; [done|]. exists h. by rewrite Ht, Hm.
  - intros k' x rep. simpl. rewrite lookup_insert. case_decide; [intros [= <-] Hf|intros; by eapply H6].
    subst k'. destruct (Hrep rep Hf) as (h & Hin & ->). by exists h.
  - by eapply serial_same.
Qed.

Lemma inproc_call_ok h0 k from to msg n n' : inproc_ok h0 n -> inproc_call k from to msg n = Some n' -> inproc_ok h0 n'.
Proof.
  intros [H1 H2 H3 H4 H5 H6 H7 H8]. unfold inproc_call. case_bool_decide as Hk; [|done]. set (d := mkDelivery _ _ _ _). intros [= <-].
  assert (same_calls (n_calls n) (n_calls (set_call k d n))) as Hsame.
  { intros k' x Hx. simpl. rewrite lookup_insert_ne by congruence. eauto. }
  assert (forall i, line (set_call k d n) i = line n i) as Hline.
  { intros i. unfold line. f_equal. by apply served_at_same. }
  assert (forall k' x, n_calls n !! k' = Some x -> n_calls (set_call k d n) !! k' = Some x) as Hup
    by (intros k' x Hx; simpl; rewrite lookup_insert_ne by congruence; done).
  split; [done| |..|done].
  - intros i k'. rewrite Hline. intros (x & Hx & ?)%H2. exists x. by rewrite (Hup _ _ Hx).
  - intros k' h (x & Hx)%H3. exists x. by apply Hup.
  - intros i. by rewrite Hline.
  - intros k' rep (x & Hx & Ha)%H5. exists x. by rewrite (Hup _ _ Hx).
  - intros k' x rep. simpl. rewrite lookup_insert. case_decide; [intros [= <-]|by apply H6].
    simpl. by destruct (Check _ _ _).
  - by eapply serial_same.
Qed.

(** Steps that move an inbox along. *)
Lemma ok_set_inbox h0 n i q s :
  inproc_ok h0 n -> length q <= inboxSize -> NoDup (line (set_inbox i q s n) i) ->
  (forall k, k ∈ line (set_inbox i q s n) i -> exists d, n_calls n !! k = Some d /\ d_to d = i /\ reached (d_stage d) = true) ->
  inproc_ok h0 (set_inbox i q s n).
Proof.
  intros [H1 H2 H3 H4 H5 H6 H7 H8] Hq Hnd Hin.
  assert (forall j, j <> i -> line (set_inbox i q s n) j = line n j) as Hline.
  { intros j Hj. unfold line, in_hand, served_at. simpl. by rewrite !lookup_insert_ne. }
  split; [| |done| |done..|].
  - intros j. simpl. rewrite !lookup_insert. by case_decide.
  - intros j k. destruct (decide (j = i)) as [->|]; [apply Hin|]. rewrite Hline by done. apply H2.
  - intros j. destruct (decide (j = i)) as [->|]; [done|]. by rewrite Hline.
  - intros j q'. simpl. rewrite lookup_insert. case_decide; [by intros [= <-]|apply H8].
Qed.

Lemma set_stage_line h0 n k d s i : inproc_ok h0 n -> n_calls n !! k = Some d -> line (set_stage k d s n) i = line n i.
Proof.
  intros Hok Hk. unfold line. f_equal. apply served_at_same; [done| |apply Hok]. by apply (set_call_same k d).
Qed.

Lemma inproc_call_line h0 k from to msg n n' i : inproc_ok h0 n -> inproc_call k from to msg n = Some n' -> line n' i = line n i.
Proof.
  intros Hok. unfold inproc_call. case_bool_decide as Hk; [|done]. set (d := mkDelivery _ _ _ _). intros [= <-].
  unfold line. f_equal. apply served_at_same; [done| |apply Hok]. intros k' x Hx. simpl. rewrite lookup_insert_ne by congruence. eauto.
Qed.

Lemma set_inbox_line n i q s j :
  line (set_inbox i q s n) j =
  if decide (j = i) then served_at n i ++ match s with Serving k => [k] | _ => [] end ++ q else line n j.
Proof.
  unfold line, in_hand, served_at. simpl. case_decide; [subst; by rewrite !lookup_insert_eq|by rewrite !lookup_insert_ne].
Qed.

(** An inbox moves along without changing its line. *)
Lemma ok_same_line h0 n i q s :
  inproc_ok h0 n -> length q <= inboxSize ->
  served_at n i ++ match s with Serving k => [k] | _ => [] end ++ q = line n i ->
  inproc_ok h0 (set_inbox i q s n) /\ forall j, line n j `prefix_of` line (set_inbox i q s n) j.
Proof.
  intros Hok Hq Hl. assert (forall j, line (set_inbox i q s n) j = line n j) as Hline.
  { intros j. rewrite set_inbox_line. by case_decide; [subst; rewrite Hl|]. }
  split; [|intros j; by rewrite Hline]. apply ok_set_inbox; [done|done|..]; rewrite Hline; [apply Hok|].
  intros k. by apply (no_line _ _ Hok).
Qed.

Lemma inproc_enqueue_ok h0 k n n' :
  inproc_ok h0 n -> inproc_enqueue k n = Some n' -> inproc_ok h0 n' /\ forall i, line n i `prefix_of` line n' i.
Proof.
  intros Hok. unfold inproc_enqueue. destruct (n_calls n !! k) as [d|] eqn:Hk; simpl; [|done].
  destruct (n_inboxes n !! d_to d) as [q|] eqn:Hq; simpl; [|done]. destruct (n_servers n !! d_to d) as [s|] eqn:Hs; simpl; [|done].
  destruct (d_stage d) eqn:Hst; try done. destruct (Nat.ltb_spec (length q) inboxSize) as [Hlen|]; [|done]. intros [= <-].
  set (n1 := set_stage k d Waiting n). change (set_stage k d Waiting _) with (set_inbox (d_to d) (q ++ [k]) s n1).
  assert (inproc_ok h0 n1) as Hok1 by by apply ok_set_stage.
  assert (forall i, line n1 i = line n i) as Hl1 by (intros i; by eapply set_stage_line).
  assert (line (set_inbox (d_to d) (q ++ [k]) s n1) (d_to d) = line n (d_to d) ++ [k]) as Hl.
  { rewrite set_inbox_line, decide_True by done. rewrite <- (Hl1 (d_to d)). unfold line, in_hand. simpl. rewrite Hs, Hq. simpl.
    by rewrite !app_assoc. }
  assert (k ∉ line n (d_to d)) as Hnew.
  { intros Hin. destruct (no_line _ _ Hok _ _ Hin) as (x & Hx & _ & Hr). assert (x = d) as -> by congruence. by rewrite Hst in Hr. }
  split.
  - apply ok_set_inbox; [done|rewrite length_app; simpl; lia|..]; rewrite Hl.
    + apply NoDup_app. split; [apply Hok|]. split; [|apply NoDup_singleton]. by intros x Hx ->%list_elem_of_singleton.
    + intros x [Hx| ->%list_elem_of_singleton]%elem_of_app; [rewrite <- Hl1 in Hx; by apply (no_line _ _ Hok1)|].
      eexists. unfold n1. simpl. rewrite lookup_insert_eq. by split_and!.
  - intros i. destruct (decide (i = d_to d)) as [->|Hi]; [rewrite Hl; by apply prefix_app_r|].
    rewrite set_inbox_line, decide_False by done. by rewrite Hl1.
Qed.

Lemma inproc_handle_ok h0 i n n' :
  inproc_ok h0 n -> inproc_handle i n = Some n' -> inproc_ok h0 n' /\ forall j, line n j `prefix_of` line n' j.
Proof.
  intros Hok. unfold inproc_handle. destruct (n_inboxes n !! i) as [q|] eqn:Hq; simpl; [|done].
  destruct (n_servers n !! i) as [[|k|]|] eqn:Hs; simpl; try done. destruct (n_calls n !! k) as [d|] eqn:Hk; simpl; [|done].
  destruct (handle i (d_msg d) (n_state n)) as [h rep] eqn:Hh. intros [= <-]. set (n' := mkInproc _ _ _ _ _ _ _ _ _).
  assert (k ∈ line n i) as Hin.
  { unfold line, in_hand. rewrite Hs. apply elem_of_app. right. by left. }
  destruct (no_line _ _ Hok _ _ Hin) as (x & Hx & Hto & _). assert (x = d) as -> by congruence.
  assert (forall j, line n' j = line n j) as Hline.
  { intros j. unfold line, served_at, in_hand. simpl. rewrite fmap_app, filter_app. cbn [fmap list_fmap fst]. rewrite filter_cons, filter_nil, Hk. simpl.
    rewrite lookup_insert. destruct (decide (i = j)) as [<-|Hj].
    - rewrite Hs, Hto, decide_True by done. simpl. by rewrite <- app_assoc.
    - rewrite decide_False by congruence. by rewrite app_nil_r. }
  split; [|intros j; by rewrite Hline]. pose proof Hok as [H1 H2 H3 H4 H5 H6 H7 H8].
  assert (answered n' k d rep) as Hans.
  { exists (n_state n). split; [apply elem_of_app; right; by left|]. by rewrite Hto, Hh. }
  assert (forall k' d' r, answered n k' d' r -> answered n' k' d' r) as Hmono.
  { intros k' d' r (h' & Hin' & ->). exists h'. split; [apply elem_of_app; by left|done]. }
  split; [..|done].
  - intros j. simpl. rewrite lookup_insert. case_decide; [subst; by rewrite Hq|done].
  - intros j k'. rewrite Hline. apply H2.
  - intros k' h' [?|[= -> ->]%list_elem_of_singleton]%elem_of_app; [by eapply H3|by exists d].
  - intros j. by rewrite Hline.
  - intros k' r. simpl. rewrite lookup_insert. case_decide; [intros [= <-]; subst; by exists d|].
    intros (d' & Hd' & Ha)%H5. eauto.
  - intros k' d' r Hd' Hf. eauto.
  - assert (h = (handle (d_to d) (d_msg d) (n_state n)).1) as -> by (by rewrite Hto, Hh). by apply serial_snoc.
Qed.

Lemma inproc_exec_ok h0 a n n' :
  inproc_ok h0 n -> inproc_exec a n = Some n' -> inproc_ok h0 n' /\ forall i, line n i `prefix_of` line n' i.
Proof.
  intros Hok. pose proof Hok as [H1 H2 H3 H4 H5 H6 H7 H8].
  assert (forall k d s, n_calls n !! k = Some d -> (reached (d_stage d) = true -> reached s = true) ->
    (forall rep, s = Finished (inl rep) -> answered n k d rep) ->
    inproc_ok h0 (set_stage k d s n) /\ forall i, line n i `prefix_of` line (set_stage k d s n) i) as Hstage.
  { intros k d s Hk Hr Ha. split; [by apply ok_set_stage|]. intros i. by rewrite (set_stage_line h0). }
  assert (forall k e, inproc_give_up k e n = Some n' -> inproc_ok h0 n' /\ forall i, line n i `prefix_of` line n' i) as Hgive.
  { intros k e. unfold inproc_give_up. destruct (n_calls n !! k) as [d|] eqn:Hk; simpl; [|done].
    destruct (d_stage d) eqn:Hst; try done; intros [= <-]; by apply Hstage. }
  destruct a as [f|i|k from to msg|k|k|i|i|k|k why|k|i| |]; cbn [inproc_exec].
  - intros [= <-]. by split; [split|].
  - case_bool_decide as Hi; [|done]. intros [= <-]. apply ok_same_line; [done|simpl; lia|].
    unfold line, in_hand. rewrite Hi. destruct (n_servers n !! i) as [s|] eqn:Hs; [|done].
    assert (is_Some (n_inboxes n !! i)) as [q Hq] by (apply H1; by rewrite Hs). congruence.
  - intros Hc. split; [by eapply inproc_call_ok|]. intros i. by rewrite (inproc_call_line h0 _ _ _ _ _ _ _ Hok Hc).
  - unfold inproc_lookup. destruct (n_calls n !! k) as [d|] eqn:Hk; simpl; [|done]. destruct (d_stage d) eqn:Hst; try done.
    intros [= <-]. apply Hstage; [done|by rewrite Hst|]. intros rep. destruct (n_closed n); [done|]. by destruct (n_inboxes n !! d_to d).
  - apply inproc_enqueue_ok, Hok.
  - unfold inproc_take. destruct (n_inboxes n !! i) as [q|] eqn:Hq; simpl; [|done].
    destruct (n_servers n !! i) as [[|k'|]|] eqn:Hs; simpl; try done. destruct q as [|k rest]; [done|]. intros [= <-].
    apply ok_same_line; [done|specialize (H8 _ _ Hq); simpl in H8; lia|]. unfold line, in_hand. by rewrite Hq, Hs.
  - apply inproc_handle_ok, Hok.
  - unfold inproc_reply. destruct (n_calls n !! k) as [d|] eqn:Hk; simpl; [|done].
    destruct (n_replies n !! k) as [rep|] eqn:Hr; simpl; [|done]. destruct (d_stage d) eqn:Hst; try done. intros [= <-].
    apply Hstage; [done|done|]. intros rep'. destruct (Check _ _ _); [done|]. intros [= <-].
    destruct (H5 _ _ Hr) as (x & Hx & Ha). by assert (x = d) as -> by congruence.
  - apply Hgive.
  - destruct (n_stop n); [apply Hgive|done].
  - destruct (n_inboxes n !! i) as [q|] eqn:Hq; simpl; [|done]. destruct (n_servers n !! i) as [[|k'|]|] eqn:Hs; simpl; try done.
    destruct (n_stop n); [|done]. intros [= <-]. apply ok_same_line; [done|by apply (H8 i)|]. unfold line, in_hand. by rewrite Hq, Hs.
  - intros [= <-]. by split; [split|].
  - destruct (n_closed n); [|done]. intros [= <-]. by split; [split|].
Qed.

Lemma inproc_run_ok h0 acts n n' :
  inproc_ok h0 n -> inproc_run acts n = Some n' -> inproc_ok h0 n' /\ forall i, line n i `prefix_of` line n' i.
Proof.
  revert n. induction acts as [|a acts IH]; intros n Hok; simpl; [by intros [= <-]|].
  destruct (inproc_exec a n) as [n1|] eqn:Ha; simpl; [|done]. destruct (inproc_exec_ok _ _ _ _ Hok Ha) as [Hok1 Hp1].
  intros Hr. destruct (IH _ Hok1 Hr) as [Hok' Hp']. split; [done|]. intros i. exact (transitivity (Hp1 i) (Hp' i)).
Qed.

Lemma NewInproc_ok f h0 : inproc_ok h0 (NewInproc f h0).
Proof.
  split; simpl; try done.
  - intros i. by rewrite !lookup_empty.
  - intros i k Hk. unfold line, in_hand in Hk. simpl in Hk. rewrite !lookup_empty in Hk. by apply not_elem_of_nil in Hk.
  - intros k h Hk. by apply not_elem_of_nil in Hk.
  - intros i. unfold line, in_hand. simpl. rewrite !lookup_empty. constructor.
Qed.

Lemma NoDup_by_class {A B} `{EqDecision B} (f : A -> option B) (l : list A) :
  (forall x, x ∈ l -> exists b, f x = Some b) -> (forall b, NoDup (filter (fun x => f x = Some b) l)) -> NoDup l.
Proof.
  induction l as [|x l IH]; intros Hf Hb; [constructor|]. constructor.
  - intros Hin. destruct (Hf x ltac:(by left)) as [b Hx]. specialize (Hb b). rewrite filter_cons, decide_True in Hb by done.
    apply NoDup_cons in Hb as [Hb _]. apply Hb. by apply list_elem_of_filter.
  - apply IH; [intros y Hy; apply Hf; by right|]. intros b. specialize (Hb b). rewrite filter_cons in Hb.
    case_decide; [by apply NoDup_cons in Hb as [_ ?]|done].
Qed.

(** C23: However senders, inbox goroutines, fault changes and the shutdown interleave:
    the state of the replicas is that of handling the calls one after the other;
    each call is handled at most once, and one that was refused before it reached
    an inbox never; a call that returns a reply was handled and the reply is the
    handler's answer in the state it found; no inbox holds more than its 256
    envelopes; and a replica handles its envelopes in the order they came in,
    whatever happens later. *)
Theorem inboxes_serve_in_turn f h0 acts n acts' n' :
  inproc_run acts (NewInproc f h0) = Some n -> inproc_run acts' n = Some n' ->
  serial (n_calls n) (n_served n) h0 (n_state n) /\ NoDup (n_served n).*1 /\
  (forall k d, n_calls n !! k = Some d -> reached (d_stage d) = false -> k ∉ (n_served n).*1) /\
  (forall k d rep, n_calls n !! k = Some d -> d_stage d = Finished (inl rep) ->
     exists h, (k, h) ∈ n_served n /\ rep = (handle (d_to d) (d_msg d) h).2) /\
  (forall i q, n_inboxes n !! i = Some q -> length q <= inboxSize) /\
  (forall i, line n i `prefix_of` line n' i).
Proof.
  intros Hr Hr'. destruct (inproc_run_ok h0 _ _ _ (NewInproc_ok f h0) Hr) as [Hok _].
  destruct (inproc_run_ok h0 _ _ _ Hok Hr') as [_ Hp]. pose proof Hok as [H1 H2 H3 H4 H5 H6 H7 H8].
  assert (forall k, k ∈ (n_served n).*1 -> exists d, n_calls n !! k = Some d /\ k ∈ served_at n (d_to d)) as Hs.
  { intros k Hk. pose proof Hk as ([k' h] & -> & Hin)%list_elem_of_fmap. destruct (H3 _ _ Hin) as [d Hd]. simpl in *.
    exists d. split; [done|]. unfold served_at. apply list_elem_of_filter. by rewrite Hd. }
  split_and!; [done| | |done|done|done].
  - apply (NoDup_by_class (fun k => d_to <$> n_calls n !! k)).
    + intros k (d & Hd & _)%Hs. exists (d_to d). by rewrite Hd.
    + intros i. specialize (H4 i). unfold line in H4. by apply NoDup_app in H4 as [? _].
  - intros k d Hd Hst (d' & Hd' & Hin)%Hs. assert (d' = d) as -> by congruence.
    destruct (H2 (d_to d) k) as (x & Hx & _ & Hreach); [unfold line; apply elem_of_app; by left|].
    assert (x = d) as -> by congruence. congruence.
Qed.
End Inproc.

(** ** Three calls *)

Module InboxExample.
(** Replicas that count the messages they have handled. *)
Definition count_handler (i : NodeID) (m : Message) (h : gmap NodeID N) : gmap NodeID N * Message :=
  let c := (default 0 (h !! i) + 1)%N in
  (<[i := c]> h, mkMessage (mKind m) i zeroBallot true c "" [] 0).
Definition ping (from : NodeID) : Message := blankMessage KindPing from.

(** C's call is enqueued last; B's sender gives up, and its message is handled all
    the same; C is cut off before its reply arrives. *)
Definition crossing : list inproc_action :=
  [NRegister "A"; NCall 0 "B" "A" (ping "B"); NCall 1 "C" "A" (ping "C"); NCall 2 "B" "D" (ping "B"); NLookup 0; NLookup 1;
   NLookup 2; NEnqueue 0; NTake "A"; NEnqueue 1; NContext 0 "deadline"; NHandle "A"; NTake "A"; NHandle "A"].
Definition cut_off : list inproc_action := [NFaults (Kill "C" NewFaults); NReply 1].

Definition crossed : Inproc := default (NewInproc NewFaults ∅) (inproc_run count_handler crossing (NewInproc NewFaults ∅)).

Example crossing_outcome :
  d_stage <$> n_calls crossed !! 0 = Some (Finished (inr (EContext "deadline"))) /\
  d_stage <$> n_calls crossed !! 2 = Some (Finished (inr (ENoReplica "D"))) /\
  (n_served crossed).*1 = [0; 1] /\ n_state crossed !! "A" = Some 2%N /\
  (n ← inproc_run count_handler cut_off crossed; d_stage <$> n_calls n !! 1) = Some (Finished (inr (EFault (ErrDown "C")))).
Proof. vm_compute. auto 10. Qed.

Lemma inboxes_serve_in_turn_witness :
  serial count_handler (n_calls crossed) (n_served crossed) ∅ (n_state crossed) /\ NoDup (n_served crossed).*1 /\
  forall i, line crossed i `prefix_of` line (default crossed (inproc_run count_handler cut_off crossed)) i.
Proof.
  destruct (inboxes_serve_in_turn count_handler NewFaults ∅ crossing crossed cut_off
              (default crossed (inproc_run count_handler cut_off crossed))) as (H1 & H2 & _ & _ & _ & H3).
  - vm_compute. reflexivity.
  - vm_compute. reflexivity.
  - auto.
Defined.
End InboxExample.
