(* ===== verification/Cluster.v ===== *)
(** * internal/cluster: topology and the view of a shard

    Names and placement of replicas and accounts and the description of a
    replica (replica.go), and the view the engine has of a shard under faults
    ([majorityGroup], [leaderOf], [settled] of engine.go).  What a replica
    answers ([Info]) is an input. *)

From S2P Require Import Prelude GoText PaxosTypes PaxosLog PaxosNode Ledger TwoPC ShardParticipant Faults.

(** ** Topology *)

Record ClusterConfig := mkClusterConfig {
  Shards : Z;
  NodesPerShard : Z;
  MaxKeysPerShard : Z;
  Timing : Config;
}.

Definition DefaultTiming : Config := mkConfig (100 * millisecond) (700 * millisecond) (350 * millisecond).

Inductive ConfigError := ErrShards | ErrNodes.

Definition Validate (c : ClusterConfig) : option ConfigError :=
  if ((Shards c <? 1) || (16 <? Shards c))%Z then Some ErrShards
  else if ((NodesPerShard c <? 1) || (9 <? NodesPerShard c))%Z then Some ErrNodes
  else None.

Definition cluster_withDefaults (c : ClusterConfig) : ClusterConfig :=
  let t := Timing c in
  let d := DefaultTiming in
  mkClusterConfig (Shards c) (NodesPerShard c) (MaxKeysPerShard c)
    (mkConfig
      (if (HeartbeatInterval t <=? 0)%Z then HeartbeatInterval d else HeartbeatInterval t)
      (if (ElectionTimeout t <=? 0)%Z then ElectionTimeout d else ElectionTimeout t)
      (if (RoundTimeout t <=? 0)%Z then RoundTimeout d else RoundTimeout t)).

(** Go's integer division, which truncates; the argument is not negative here. *)
Definition Quorum (c : ClusterConfig) : Z := (Z.quot (NodesPerShard c) 2 + 1)%Z.

Definition NodeName (shard index : Z) : string := "s" +:+ fmt_d shard +:+ "n" +:+ fmt_d index.
Definition ShardTag (shard : Z) : string := "[s" +:+ fmt_d shard +:+ "]".

(** [%d] of [Sscanf], on text without white space: a sign, digits, in range. *)
Definition scan_d (s : string) : option (Z * string) :=
  let '(neg, rest) := take_sign s in
  let '(digits, tail) := take_digits rest in
  n ← parse_N digits;
  z ← signed neg n;
  Some (z, tail).

Definition expect (c : Ascii.ascii) (s : string) : option string :=
  match s with String c' s' => if Ascii.eqb c c' then Some s' else None | EmptyString => None end.

(** [Sscanf(name, "s%dn%d%s", ...)] must fill the two numbers and find no tail. *)
Definition ParseNode (name : string) : option (Z * Z) :=
  s1 ← expect "s"%char name;
  '(shard, s2) ← scan_d s1;
  s3 ← expect "n"%char s2;
  '(index, tail) ← scan_d s3;
  if (String.length tail =? 0) && (0 <=? shard)%Z && (0 <=? index)%Z then Some (shard, index) else None.

(** FNV-1a with 32 bits. *)
Definition fnv_step (h : N) (c : Ascii.ascii) : N :=
  ((N.lxor h (N.of_nat (byte c)) * 16777619) mod 2 ^ 32)%N.
Fixpoint fnv32a (h : N) (s : string) : N :=
  match s with EmptyString => h | String c s' => fnv32a (fnv_step h c) s' end.

Definition ShardFor (key : string) (shards : Z) : Z :=
  if (shards <=? 1)%Z then 0%Z
  else Z.of_N (fnv32a 2166136261 key mod (Z.to_N shards mod 2 ^ 32))%N.

Lemma fnv32a_range h s : (h < 2 ^ 32)%N -> (fnv32a h s < 2 ^ 32)%N.
Proof.
  revert h. induction s as [|c s IH]; intros h Hh; simpl; [done|].
  apply IH. unfold fnv_step. apply N.mod_lt. lia.
Qed.

Lemma ShardFor_range key c :
  Validate c = None -> (0 <= ShardFor key (Shards c) < Shards c)%Z.
Proof.
  unfold Validate, ShardFor. intros Hv.
  destruct ((Shards c <? 1)%Z || (16 <? Shards c)%Z) eqn:Hs; [done|].
  apply orb_false_iff in Hs as [H1 H2]. apply Z.ltb_ge in H1, H2.
  destruct (Z.leb_spec (Shards c) 1); [lia|].
  rewrite (N.mod_small (Z.to_N (Shards c))) by lia.
  pose proof (N.mod_lt (fnv32a 2166136261 key) (Z.to_N (Shards c)) ltac:(lia)) as Hlt.
  revert Hlt. generalize (fnv32a 2166136261 key mod Z.to_N (Shards c))%N. intros r Hlt. lia.
Qed.

(** Every account has one shard, and it exists. *)
Theorem shard_in_range key c :
  Validate c = None -> (0 <= ShardFor key (Shards c) < Shards c)%Z.
Proof. apply ShardFor_range. Qed.

Lemma shard_in_range_witness : (0 <= ShardFor "tushar" 3 < 3)%Z.
Proof. exact (shard_in_range "tushar" (mkClusterConfig 3 3 256 DefaultTiming) eq_refl). Defined.

(** The placement the guided tour relies on. *)
Example tour_accounts :
  ShardFor "tushar" 3 = ShardFor "ram" 3 /\ ShardFor "tushar" 3 <> ShardFor "varun" 3.
Proof. split; vm_compute; [reflexivity|discriminate]. Qed.

Lemma fmt_d_nonneg z : (0 <= z)%Z -> fmt_d z = fmt_N (Z.to_N z).
Proof. by destruct z. Qed.

Lemma scan_fmt z rest :
  (0 <= z <= int64_max)%Z -> ends_digits rest -> scan_d (fmt_d z +:+ rest) = Some (z, rest).
Proof.
  intros Hz Hr. unfold scan_d. rewrite fmt_d_nonneg by lia. rewrite take_sign_fmt_N, take_digits_fmt_N by done.
  rewrite parse_fmt_N. simpl. unfold signed.
  rewrite bool_decide_true by (unfold in_int64, int64_min, int64_max in *; lia).
  simpl. by rewrite Z2N.id by lia.
Qed.

Lemma ParseNode_NodeName shard index :
  (0 <= shard <= int64_max)%Z -> (0 <= index <= int64_max)%Z ->
  ParseNode (NodeName shard index) = Some (shard, index).
Proof.
  intros Hs Hi. unfold ParseNode, NodeName. rewrite str_app_cons, str_app_nil_l. simpl.
  rewrite scan_fmt; [|done|done]. simpl. rewrite str_app_nil_l.
  rewrite <- (str_app_nil_r (fmt_d index)), scan_fmt by done. simpl.
  rewrite (proj2 (Z.leb_le 0 shard)), (proj2 (Z.leb_le 0 index)) by lia. done.
Qed.

(** Replica names are read back as they were printed, so different replicas have
    different names. *)
Theorem node_name_roundtrip shard index :
  (0 <= shard <= int64_max)%Z -> (0 <= index <= int64_max)%Z ->
  ParseNode (NodeName shard index) = Some (shard, index).
Proof. apply ParseNode_NodeName. Qed.

Lemma node_name_roundtrip_witness : ParseNode (NodeName 2 11) = Some (2, 11)%Z.
Proof. apply (node_name_roundtrip 2 11); unfold int64_max; lia. Defined.

(** ** The engine's view of a shard *)

Record LogLine := mkLogLine { lSlot : N; lBallot : string; lCommand : string }.

Record NodeInfo := mkNodeInfo {
  iID : string;
  iRole : string;
  iBallot : Ballot;
  iApplied : N;
  iAccounts : list Account;
  iTail : list LogLine;
}.

Definition tailLen : nat := 5.

(** [Ballot.String]. *)
Definition BallotString (b : Ballot) : string := fmt_N (Num b) +:+ "." +:+ Node_ b.

(** [describe]: a replica's view of itself. *)
Definition describe `{CommandCodec} (n : Node Machine Result) : NodeInfo :=
  let entries := EntriesFrom 1 (log n) in
  let entries := if tailLen <? length entries then drop (length entries - tailLen) entries else entries in
  mkNodeInfo (id n) (RoleString (role n)) (Promised n) (appliedIndex n) (Snapshot (sm n))
    ((fun e =>
        mkLogLine (eSlot e) (BallotString (eBallot e))
          (if IsNoop e then "no-op"
           else match Decode (eCommand e) with inl c => Command_String c | inr _ => "no-op" end)) <$> entries).

(** A replica is known by its id; [ids] lists the replicas of a shard. *)
Definition alive (f : Faults) (r : string) : bool := negb (Dead f r).

(** The map from group index to its live replicas, in shard order. *)
Definition live_groups (f : Faults) (ids : list string) : gmap Z (list string) :=
  fold_left
    (fun m r => if alive f r then <[GroupOf f r := default [] (m !! GroupOf f r) ++ [r]]> m else m) ids ∅.

(** One iteration of the loop over the groups. *)
Definition pick_group (best g : list string) : list string :=
  if (length best <? length g) ||
     ((length g =? length best) && (0 <? length g) &&
      str_ltb (default "" (head g)) (default "" (head best)))
  then g else best.

(** Go visits the map in an unspecified order; [visit] is that order. *)
Definition majorityGroup_in (visit : list (list string)) (quorum : Z) : list string * bool :=
  let best := fold_left pick_group visit [] in
  (best, (quorum <=? Z.of_nat (length best))%Z).

Definition majorityGroup (f : Faults) (ids : list string) (quorum : Z) : list string * bool :=
  majorityGroup_in (map_to_list (live_groups f ids)).*2 quorum.

Section View.
Context (info : string -> option NodeInfo).

Definition claims_leadership (i : NodeInfo) : bool := String.eqb (iRole i) (RoleString Leader).

(** The loop of [leaderOf] and [leaderOfAny]: the leader of the highest
    ballot among the replicas that answer. *)
Fixpoint best_leader (ids : list string) (best : option (string * NodeInfo)) : option (string * NodeInfo) :=
  match ids with
  | [] => best
  | r :: rest =>
      match info r with
      | None => best_leader rest best
      | Some i =>
          if negb (claims_leadership i) then best_leader rest best
          else match best with
               | None => best_leader rest (Some (r, i))
               | Some (_, bi) =>
                   best_leader rest (if Less (iBallot bi) (iBallot i) then Some (r, i) else best)
               end
      end
  end.

Definition leaderOf (f : Faults) (ids : list string) (quorum : Z) : option (string * NodeInfo) :=
  let '(group, ok) := majorityGroup f ids quorum in
  if negb ok then None else best_leader group None.

Definition leaderOfAny (f : Faults) (ids : list string) : option (string * NodeInfo) :=
  best_leader (filter (fun r => alive f r = true) ids) None.

Definition infos (ids : list string) : list NodeInfo :=
  (fun r => match info r with
            | Some i => i
            | None => mkNodeInfo r "unreachable" zeroBallot 0 [] []
            end) <$> ids.

Definition inGroup (group : list string) (id : string) : bool := bool_decide (id ∈ group).

(** [None] is the early return on a stale leader, otherwise the leaders seen. *)
Fixpoint count_leaders (f : Faults) (group : list string) (ok : bool) (views : list NodeInfo) (leaders : nat)
    : option nat :=
  match views with
  | [] => Some leaders
  | i :: rest =>
      if negb (claims_leadership i) || Dead f (iID i) then count_leaders f group ok rest leaders
      else if negb ok || negb (inGroup group (iID i)) then None
      else count_leaders f group ok rest (S leaders)
  end.

Definition settled (f : Faults) (ids : list string) (quorum : Z) : bool :=
  let '(group, ok) := majorityGroup f ids quorum in
  match count_leaders f group ok (infos ids) 0 with
  | None => false
  | Some leaders => negb ok || (1 <=? leaders)
  end.
End View.

(** ** The majority group does not depend on the order of a Go map *)

Definition better (g best : list string) : Prop :=
  length best < length g \/
  (length g = length best /\ 0 < length g /\
   String.compare (default "" (head g)) (default "" (head best)) = Lt).

Lemma pick_group_spec best g :
  (pick_group best g = g /\ better g best) \/ (pick_group best g = best /\ ~ better g best).
Proof.
  unfold pick_group, better, str_ltb.
  destruct (Nat.ltb_spec (length best) (length g)); simpl; [auto|].
  destruct (Nat.eqb_spec (length g) (length best)); simpl; [|right; split; [done|lia]].
  destruct (Nat.ltb_spec 0 (length g)); simpl; [|right; split; [done|lia]].
  destruct (String.compare (default "" (head g)) (default "" (head best))) eqn:E;
    [right|left|right]; (split; [done|]); [..|right; done|]; intros [?|(_ & _ & ?)]; lia || congruence.
Qed.

Lemma better_trans a b c : better a b -> better b c -> better a c.
Proof.
  unfold better. intros [?|(? & ? & ?)] [?|(? & ? & ?)]; try (left; lia).
  right. split_and!; [lia..|]. eapply str_compare_lt_trans; eauto.
Qed.

Lemma better_irrefl a : ~ better a a.
Proof. unfold better. rewrite str_compare_refl. intros [?|(_ & _ & ?)]; [lia|done]. Qed.

Lemma better_cotrans a b c : better a c -> better a b \/ better b c.
Proof.
  unfold better. intros [Hl|(Hl & Hp & Hc)].
  - destruct (decide (length c < length b)); [by right; left|left; left; lia].
  - destruct (Nat.lt_trichotomy (length b) (length a)) as [?|[?|?]]; [by left; left| |right; left; lia].
    destruct (String.compare (default "" (head a)) (default "" (head b))) eqn:E.
    + apply str_compare_eq in E. rewrite E in Hc. right. right. split_and!; [lia..|done].
    + left. right. split_and!; [lia..|done].
    + right. right. split_and!; [lia..|]. eapply str_compare_lt_trans; [|exact Hc].
      rewrite str_compare_antisym, E. done.
Qed.

(** The loop ends with a group none is better than. *)
Lemma fold_pick visit best :
  (fold_left pick_group visit best ∈ best :: visit) /\
  forall g, g ∈ best :: visit -> ~ better g (fold_left pick_group visit best).
Proof.
  revert best. induction visit as [|g visit IH]; intros best; simpl.
  { split; [left|]. intros g ->%list_elem_of_singleton. apply better_irrefl. }
  destruct (IH (pick_group best g)) as [Hin Hmax].
  destruct (pick_group_spec best g) as [[Heq Hb]|[Heq Hb]]; rewrite Heq in *.
  - split; [by right|]. intros x [->|Hx]%elem_of_cons Hbx; [|by apply (Hmax x)].
    apply (Hmax g); [left|]. by eapply better_trans.
  - split; [apply elem_of_cons in Hin as [->|?]; [left|by right; right]|].
    intros x Hx Hbx. apply elem_of_cons in Hx as [->|[->|Hx]%elem_of_cons].
    + apply (Hmax best); [left|done].
    + destruct (better_cotrans _ best _ Hbx) as [?|?]; [done|]. by apply (Hmax best); [left|].
    + apply (Hmax x); [by right|done].
Qed.

Lemma live_groups_spec f ids (acc : gmap Z (list string)) g :
  fold_left (fun m r => if alive f r then <[GroupOf f r := default [] (m !! GroupOf f r) ++ [r]]> m else m) ids acc
    !! g =
  let mine := filter (fun r => alive f r = true /\ GroupOf f r = g) ids in
  match acc !! g, mine with
  | None, [] => None
  | old, _ => Some (default [] old ++ mine)
  end.
Proof.
  revert acc. induction ids as [|r ids IH]; intros acc; simpl.
  { destruct (acc !! g); [by rewrite app_nil_r|done]. }
  rewrite IH, filter_cons. destruct (alive f r) eqn:Ha.
  - rewrite lookup_insert. case_decide as Hg; [subst g|].
    + rewrite decide_True by done. simpl.
      destruct (acc !! GroupOf f r); simpl; by rewrite <- ?app_assoc.
    + rewrite decide_False by tauto. done.
  - rewrite decide_False by (intros [? _]; congruence). done.
Qed.

(** The live replicas on one side, and the sides. *)
Definition side (f : Faults) (ids : list string) (g : Z) : list string :=
  filter (fun r => alive f r = true /\ GroupOf f r = g) ids.

Lemma live_groups_lookup f ids g l :
  live_groups f ids !! g = Some l <-> l = side f ids g /\ l <> [].
Proof.
  unfold live_groups. rewrite live_groups_spec, lookup_empty. simpl. fold (side f ids g).
  destruct (side f ids g) eqn:E; (split; [intros [= <-] || intros H; try done|intros [-> ?]; done]).
Qed.

Lemma live_groups_values f ids l :
  l ∈ (map_to_list (live_groups f ids)).*2 <-> exists g, l = side f ids g /\ l <> [].
Proof.
  rewrite list_elem_of_fmap. split.
  - intros ([g l'] & -> & Hin). apply elem_of_map_to_list, live_groups_lookup in Hin. eauto.
  - intros (g & Hl). exists (g, l). split; [done|]. by apply elem_of_map_to_list, live_groups_lookup.
Qed.

(** Two sides with the same first replica are the same side. *)
Lemma side_head f ids g g' x l l' :
  side f ids g = x :: l -> side f ids g' = x :: l' -> side f ids g = side f ids g'.
Proof.
  intros H H'. assert (x ∈ side f ids g /\ x ∈ side f ids g') as [Hx Hx'].
  { rewrite H, H'. split; left. }
  apply list_elem_of_filter in Hx as [[_ <-] _], Hx' as [[_ <-] _]. done.
Qed.

(** C32: The group of a shard that can make progress is well defined: every order in
    which the map is visited gives the same one. *)
Theorem majority_group_deterministic f ids quorum visit :
  visit ≡ₚ (map_to_list (live_groups f ids)).*2 ->
  majorityGroup_in visit quorum = majorityGroup f ids quorum.
Proof.
  intros Hperm. unfold majorityGroup, majorityGroup_in.
  set (canon := (map_to_list (live_groups f ids)).*2) in *.
  assert (fold_left pick_group visit [] = fold_left pick_group canon []) as ->; [|done].
  destruct (fold_pick visit []) as [Hin Hmax], (fold_pick canon []) as [Hin' Hmax'].
  set (r := fold_left pick_group visit []) in *. set (r' := fold_left pick_group canon []) in *.
  assert (forall x, x ∈ [] :: visit <-> x ∈ [] :: canon) as Hsame by (intros x; by rewrite Hperm).
  pose proof (Hmax r' (proj2 (Hsame r') Hin')) as H1. pose proof (Hmax' r (proj1 (Hsame r) Hin)) as H2.
  apply Hsame in Hin. apply elem_of_cons in Hin as [Hin|Hin], Hin' as [Hin'|Hin'].
  - congruence.
  - exfalso. apply H1. left. rewrite Hin. apply live_groups_values in Hin' as (g & _ & Hne).
    destruct r'; [done|simpl; lia].
  - exfalso. apply H2. left. rewrite Hin'. apply live_groups_values in Hin as (g & _ & Hne).
    destruct r; [done|simpl; lia].
  - apply live_groups_values in Hin as (g & Hg & Hne), Hin' as (g' & Hg' & Hne').
    clearbody r r'. destruct r as [|x l]; [done|]. destruct r' as [|x' l']; [done|].
    unfold better in H1, H2. simpl in H1, H2.
    assert (x = x') as <-.
    { apply str_compare_eq. destruct (String.compare x x') eqn:E; [done| |]; exfalso.
      - destruct (Nat.lt_trichotomy (length l) (length l')) as [?|[?|?]]; [apply H1; lia| |apply H2; lia].
        apply H2. right. split_and!; [lia..|done].
      - destruct (Nat.lt_trichotomy (length l) (length l')) as [?|[?|?]]; [apply H1; lia| |apply H2; lia].
        apply H1. right. split_and!; [lia..|]. by rewrite str_compare_antisym, E. }
    rewrite Hg, Hg'. by eapply side_head.
Qed.

(** It is a whole side of the split, none is larger, and the engine calls it a
    majority exactly when it has a quorum of the shard's replicas. *)
Theorem majority_group_largest f ids quorum :
  let '(best, ok) := majorityGroup f ids quorum in
  (best <> [] -> exists g, best = side f ids g) /\
  (forall a b, a ∈ best -> b ∈ best -> Check f a b = None) /\
  (forall a b, a ∈ best -> b ∈ ids -> Check f a b = None -> b ∈ best) /\
  (forall g, length (side f ids g) <= length best) /\
  (ok = true <-> (quorum <= Z.of_nat (length best))%Z).
Proof.
  unfold majorityGroup, majorityGroup_in. set (canon := (map_to_list (live_groups f ids)).*2).
  destruct (fold_pick canon []) as [Hin Hmax]. set (best := fold_left pick_group canon []) in *.
  assert (best <> [] -> exists g, best = side f ids g) as Hside.
  { intros Hne. apply elem_of_cons in Hin as [?|Hin]; [done|].
    apply live_groups_values in Hin as (g & ? & _). eauto. }
  assert (forall a g, a ∈ side f ids g <-> a ∈ ids /\ Dead f a = false /\ GroupOf f a = g) as Hmem.
  { intros a g. unfold side, alive. rewrite list_elem_of_filter, negb_true_iff. tauto. }
  assert (forall a, a ∈ best -> exists g, best = side f ids g) as Hof.
  { intros a Ha. apply Hside. intros He. rewrite He in Ha. by apply not_elem_of_nil in Ha. }
  assert (forall a b, Check f a b = None <-> Dead f a = false /\ Dead f b = false /\ GroupOf f a = GroupOf f b)
    as Hcheck.
  { intros a b. unfold Check. destruct (Dead f a), (Dead f b); simpl; try (split; [done|by intros (? & ? & _)]).
    case_bool_decide; simpl; split; try done. by intros (_ & _ & ?). }
  split_and!; [done| | | |apply Z.leb_le].
  - intros a b Ha Hb. destruct (Hof a Ha) as [g Hg]. rewrite Hg in Ha, Hb.
    apply Hmem in Ha as (_ & ? & ?), Hb as (_ & ? & ?). apply Hcheck. split_and!; congruence.
  - intros a b Ha Hb Hc. destruct (Hof a Ha) as [g Hg]. rewrite Hg in *.
    apply Hmem in Ha as (_ & ? & ?). apply Hcheck in Hc as (_ & ? & ?). apply Hmem. split_and!; congruence.
  - intros g. destruct (side f ids g) as [|x l] eqn:E; [simpl; lia|]. rewrite <- E.
    destruct (decide (length (side f ids g) <= length best)) as [|Hgt]; [done|]. exfalso.
    apply (Hmax (side f ids g)); [|left; lia]. right. apply live_groups_values. exists g.
    split; [done|]. by rewrite E.
Qed.

(** What the loop of [leaderOf] has found among the replicas it has [seen]. *)
Definition leads_over (info : string -> option NodeInfo) (seen : list string) (best : option (string * NodeInfo)) : Prop :=
  (forall b, best = Some b -> b.1 ∈ seen /\ info b.1 = Some b.2 /\ claims_leadership b.2 = true) /\
  (forall r i, r ∈ seen -> info r = Some i -> claims_leadership i = true ->
     exists b, best = Some b /\ ble (iBallot i) (iBallot b.2)).

Lemma leads_over_skip info seen best x :
  (forall i, info x = Some i -> claims_leadership i = false) ->
  leads_over info seen best -> leads_over info (seen ++ [x]) best.
Proof.
  intros Hx [Hb Hm]. split.
  - intros b Hbb. destruct (Hb b Hbb) as (? & ? & ?). split_and!; [apply elem_of_snoc; auto|done|done].
  - intros r i [?| ->]%elem_of_snoc Hi Hc; [eauto|]. apply Hx in Hi. congruence.
Qed.

Lemma leads_over_take info seen best x ix :
  info x = Some ix -> claims_leadership ix = true ->
  (forall b, best = Some b -> ble (iBallot b.2) (iBallot ix)) ->
  leads_over info seen best -> leads_over info (seen ++ [x]) (Some (x, ix)).
Proof.
  intros Hx Hc Hle [Hb Hm]. split.
  - intros b [= <-]. split_and!; [apply elem_of_snoc; auto|done|done].
  - intros r i [Hr| ->]%elem_of_snoc Hi Hci; (eexists; split; [done|]); simpl.
    + destruct (Hm _ _ Hr Hi Hci) as (b & Hbb & ?). eapply ble_trans; [done|auto].
    + assert (i = ix) as -> by congruence. apply ble_refl.
Qed.

Lemma leads_over_keep info seen b x ix :
  info x = Some ix -> ble (iBallot ix) (iBallot b.2) ->
  leads_over info seen (Some b) -> leads_over info (seen ++ [x]) (Some b).
Proof.
  intros Hx Hle [Hb Hm]. split.
  - intros b' Hbb. destruct (Hb b' Hbb) as (? & ? & ?). split_and!; [apply elem_of_snoc; auto|done|done].
  - intros r i [?| ->]%elem_of_snoc Hi Hc; [eauto|]. assert (i = ix) as -> by congruence. eauto.
Qed.

Lemma best_leader_spec info l seen best :
  leads_over info seen best -> leads_over info (seen ++ l) (best_leader info l best).
Proof.
  revert seen best. induction l as [|x l IH]; intros seen best Hlo; simpl; [by rewrite app_nil_r|].
  replace (seen ++ x :: l) with ((seen ++ [x]) ++ l) by by rewrite <- app_assoc.
  destruct (info x) as [ix|] eqn:Hx; [|by apply IH, leads_over_skip; [intros ? ?; congruence|]].
  destruct (claims_leadership ix) eqn:Hc; simpl; [|apply IH, leads_over_skip; [intros ? ?; congruence|done]].
  destruct best as [[rb ib]|]; [|apply IH; by eapply (leads_over_take info seen None)].
  destruct (Less (iBallot ib) (iBallot ix)) eqn:HL; apply IH.
  - eapply (leads_over_take info seen (Some (rb, ib))); [done..| |done]. intros b [= <-]. by apply blt_ble.
  - by eapply leads_over_keep.
Qed.

Lemma leads_over_nil info : leads_over info [] None.
Proof. split; [done|]. intros r i Hn. by apply not_elem_of_nil in Hn. Qed.

(** The leader the engine sends commands to: in the majority group, claiming
    leadership, and no other member of the group claims it with a higher ballot. *)
Theorem leader_of_spec info f ids quorum r i :
  leaderOf info f ids quorum = Some (r, i) ->
  r ∈ (majorityGroup f ids quorum).1 /\ (majorityGroup f ids quorum).2 = true /\
  info r = Some i /\ claims_leadership i = true /\
  forall r' i', r' ∈ (majorityGroup f ids quorum).1 -> info r' = Some i' -> claims_leadership i' = true ->
    ble (iBallot i') (iBallot i).
Proof.
  unfold leaderOf. destruct (majorityGroup f ids quorum) as [group [|]]; [|done]. cbn [fst snd negb]. intros Hl.
  destruct (best_leader_spec info group [] None (leads_over_nil info)) as [Hb Hm]. rewrite Hl in *.
  destruct (Hb _ eq_refl) as (? & ? & ?). split_and!; [done..|].
  intros r' i' Hr Hi Hc. by destruct (Hm _ _ Hr Hi Hc) as (b & [= <-] & ?).
Qed.

(** ** A shard whose first replica is cut off *)

Module ClusterExamples.
Definition ids3 : list string := ["s0n0"; "s0n1"; "s0n2"].
Definition split3 : Faults := Partition [["s0n0"]; ["s0n1"; "s0n2"]] NewFaults.

(** Both replicas of a stale election still claim leadership. *)
Definition claims (r : string) : option NodeInfo :=
  if String.eqb r "s0n0" then Some (mkNodeInfo r (RoleString Leader) (mkBallot 1 "s0n0") 3 [] [])
  else if String.eqb r "s0n2" then Some (mkNodeInfo r (RoleString Leader) (mkBallot 2 "s0n2") 3 [] [])
  else None.

Lemma split3_groups : (map_to_list (live_groups split3 ids3)).*2 ≡ₚ [["s0n0"]; ["s0n1"; "s0n2"]].
Proof. apply (bool_decide_unpack _). vm_compute. exact I. Qed.

Lemma majority_group_deterministic_witness :
  majorityGroup_in [["s0n0"]; ["s0n1"; "s0n2"]] 2 = majorityGroup split3 ids3 2.
Proof. apply (majority_group_deterministic split3 ids3 2). symmetry. exact split3_groups. Defined.

Lemma leader_of_spec_witness :
  "s0n2" ∈ (majorityGroup split3 ids3 2).1 /\ (majorityGroup split3 ids3 2).2 = true.
Proof.
  destruct (leader_of_spec claims split3 ids3 2 "s0n2"
    (mkNodeInfo "s0n2" (RoleString Leader) (mkBallot 2 "s0n2") 3 [] [])) as (H1 & H2 & _).
  - vm_compute. reflexivity.
  - split; [exact H1|exact H2].
Defined.
End ClusterExamples.
