(* ===== verification/Engine.v ===== *)
(** * internal/cluster/engine.go and narrate.go: the engine and its commands

    The engine as a state monad over its own state (fault table, event sink,
    acknowledgement counts, last seen roles, tables pushed to node processes)
    and the state [W] of the replicas.  The replicas are reached through the
    class [Replicas]: every call may advance them and yields the traffic the
    engine observed meanwhile.  Deadlines are read off the clock of [W]. *)

From stdpp Require Import sorting.
From S2P Require Import Prelude GoText PaxosTypes PaxosNode Ledger TwoPC Faults Transport Cluster.

Definition second : Z := 1000 * millisecond.
Definition settleTimeout : Z := 4 * second.
Definition leaderTimeout : Z := 2 * second.
Definition pollEvery : Z := 40 * millisecond.

(** What [Replica.Propose] fails with. *)
Inductive ProposeFailure := PNotLeader | PNoQuorum | PDeadline | POther (msg : string).

Inductive EngineError :=
| EUnknownNode (text : string)
| EAlreadyDown (name : string)
| EAlreadyUp (name : string)
| ENotPartitioned
| ENoQuorum (shard : Z) (text : string)
| ENoLeader (shard : Z) (text : string)
| ELedger (err : LedgerError * string)
| EVotedNo (who : string) (e : EngineError)
| EInDoubt (tx : string) (undelivered : list string)
| EOther (msg : string).

(** [err.Error()]. *)
Definition LedgerErrorString (e : LedgerError * string) : string :=
  let base :=
    match e.1 with
    | ErrNoSuchKey => "no such key"
    | ErrInsufficientFunds => "insufficient funds"
    | ErrLocked => "account is locked by an in-flight transaction"
    | ErrTooManyKeys => "too many distinct keys"
    | ErrUnknownTx => "unknown transaction"
    | ErrBadCommand => "bad command"
    end in
  if String.eqb e.2 "" then base else base +:+ ": " +:+ e.2.

Definition NoQuorumString : string := "paxos: no quorum".

Fixpoint EngineErrorString (e : EngineError) : string :=
  match e with
  | EUnknownNode text | ENoQuorum _ text | ENoLeader _ text | EOther text => text
  | EAlreadyDown name => name +:+ " is already down"
  | EAlreadyUp name => name +:+ " is already up"
  | ENotPartitioned => "the network is not partitioned"
  | ELedger err => LedgerErrorString err
  | EVotedNo who err => who +:+ " voted NO: " +:+ EngineErrorString err
  | EInDoubt tx names =>
      "in doubt: " +:+ tx +:+ " committed, but " +:+ Join ", " names +:+
      " has not applied it yet (account stays locked until it does)"
  end.

(** ** Views for the operator *)

Record NodeStatus := mkNodeStatus { nsID : string; nsAlive : bool; nsRole : string; nsApplied : N }.
Record ShardStatus := mkShardStatus {
  ssShard : Z; ssLeader : string; ssTerm : N; ssAlive : nat; ssTotal : Z; ssQuorum : Z; ssNodes : list NodeStatus }.
Record AccountStatus := mkAccountStatus {
  asKey : string; asShard : Z; asBalance : Z; asLockedBy : string; asStale : bool }.
Record Status := mkStatus {
  stShards : list ShardStatus; stAccounts : list AccountStatus; stPartitions : list (list string) }.

(** What a sink receives: events, and snapshots when it draws them. *)
Inductive SinkItem := SEvent (ev : Event) | SSnapshot (st : Status).

(** ** The replicas as the engine sees them *)

Definition ecall (W A : Type) : Type := Faults -> W -> W * list Trace * A.

Class Replicas (W : Type) := {
  r_info : string -> ecall W (option NodeInfo);
  r_campaign : string -> ecall W unit;
  r_propose : string -> Command -> ecall W (Result + ProposeFailure);
  r_sleep : ecall W unit;
  r_push : option (FaultState -> ecall W unit);   (* [pushFaults]; nil in one process *)
  r_drain : option (ecall W (list Trace));        (* [drain]; nil in one process *)
  w_now : W -> Z;
  w_done : W -> bool;                             (* ctx.Err() != nil *)
}.

(** A call that takes at least [d]. *)
Definition clocked {W A} `{Replicas W} (d : Z) (c : ecall W A) : Prop :=
  forall f w, (w_now w + d <= w_now (c f w).1.1)%Z.

(** The clock never runs backwards and a sleep takes its time. *)
Class ReplicasLaws (W : Type) `{Replicas W} := {
  info_time r : clocked 0 (r_info r);
  campaign_time r : clocked 0 (r_campaign r);
  propose_time r c : clocked 0 (r_propose r c);
  sleep_time : clocked pollEvery r_sleep;
  push_time p s : r_push = Some p -> clocked 0 (p s);
  drain_time d : r_drain = Some d -> clocked 0 d;
}.

Record Engine (W : Type) := mkEngine {
  eFaults : Faults;
  eSink : option bool;         (* a sink is attached, and whether it draws snapshots *)
  eEvents : list SinkItem;     (* what sinks received, oldest first *)
  eAcks : gmap string Z;
  eRoles : gmap string string;
  eSeq : N;                    (* the coordinator's counter *)
  eRetries : list (string * string);  (* commits left to the background *)
  eWorld : W;
}.
Arguments mkEngine {W}.
Arguments eFaults {W}.
Arguments eSink {W}.
Arguments eEvents {W}.
Arguments eAcks {W}.
Arguments eRoles {W}.
Arguments eSeq {W}.
Arguments eRetries {W}.
Arguments eWorld {W}.

(** ** The monad *)

Definition EM (W A : Type) : Type := Engine W -> Engine W * A.

#[export] Instance EM_ret W : MRet (EM W) := fun A x e => (e, x).
#[export] Instance EM_bind W : MBind (EM W) := fun A B k m e => let '(e', x) := m e in k x e'.
#[export] Instance EM_fmap W : FMap (EM W) := fun A B f m e => let '(e', x) := m e in (e', f x).

Fixpoint for_each {W A} (f : A -> EM W unit) (l : list A) : EM W unit :=
  match l with
  | [] => mret tt
  | x :: rest => f x;; for_each f rest
  end.

Fixpoint map_each {W A B} (f : A -> EM W B) (l : list A) : EM W (list B) :=
  match l with
  | [] => mret []
  | x :: rest => y ← f x; ys ← map_each f rest; mret (y :: ys)
  end.

Section Engine.
Context {W : Type} `{Replicas W} (cfg : ClusterConfig).
Implicit Types (e : Engine W).

Definition get {A} (f : Engine W -> A) : EM W A := fun e => (e, f e).

Definition set_faults (f : Faults) : EM W unit := fun e =>
  (mkEngine f (eSink e) (eEvents e) (eAcks e) (eRoles e) (eSeq e) (eRetries e) (eWorld e), tt).
Definition set_acks (a : gmap string Z) : EM W unit := fun e =>
  (mkEngine (eFaults e) (eSink e) (eEvents e) a (eRoles e) (eSeq e) (eRetries e) (eWorld e), tt).
Definition set_role (r role : string) : EM W unit := fun e =>
  (mkEngine (eFaults e) (eSink e) (eEvents e) (eAcks e) (<[r := role]> (eRoles e)) (eSeq e)
     (eRetries e) (eWorld e), tt).
Definition set_sink (s : option bool) : EM W unit := fun e =>
  (mkEngine (eFaults e) s (eEvents e) (eAcks e) (eRoles e) (eSeq e) (eRetries e) (eWorld e), tt).
Definition set_world (w : W) : EM W unit := fun e =>
  (mkEngine (eFaults e) (eSink e) (eEvents e) (eAcks e) (eRoles e) (eSeq e) (eRetries e) w, tt).
Definition set_coord (seq : N) (more : list (string * string)) : EM W unit := fun e =>
  (mkEngine (eFaults e) (eSink e) (eEvents e) (eAcks e) (eRoles e) seq (eRetries e ++ more)
     (eWorld e), tt).

(** Events go to the sink of the command that runs, and nowhere between
    commands. *)
Definition to_sink (item : SinkItem) : EM W unit := fun e =>
  match eSink e with
  | None => (e, tt)
  | Some _ =>
      (mkEngine (eFaults e) (eSink e) (eEvents e ++ [item]) (eAcks e) (eRoles e) (eSeq e) (eRetries e) (eWorld e), tt)
  end.
Definition emitEvent (ev : Event) : EM W unit := to_sink (SEvent ev).
Definition emit (l : Level) (tag msg : string) : EM W unit := emitEvent (plain_event l tag msg).

(** ** narrate.go *)

Definition ackKey (node : string) (slot : N) : string := node +:+ "/" +:+ fmt_N slot.

Definition trim_unreachable (s : string) : string :=
  let p := ErrUnreachable +:+ ": " in
  if String.prefix p s then String.substring (String.length p) (String.length s - String.length p) s else s.

Definition onTrace (t : Trace) : EM W unit :=
  let tag := match ParseNode (tFrom t) with Some (s, _) => ShardTag s | None => "[net]" end in
  let reason := trim_unreachable (tErr t) in
  let from := tFrom t in
  let to := tTo t in
  let slot := fmt_N (mSlot (tReq t)) in
  let dropped := negb (String.eqb (tErr t) "") in
  match mKind (tReq t) with
  | KindPrepare =>
      if dropped then
        emitEvent (edge_event LNet "[net]" from to "drop"
          ("drop PREPARE " +:+ from +:+ " -> " +:+ to +:+ ": " +:+ reason))
      else
        emitEvent (edge_event LPaxos tag from to "prepare"
          ("PREPARE ballot=" +:+ BallotString (mBallot (tReq t)) +:+ " " +:+ from +:+ " -> " +:+ to));;
        if mOK (tReply t) then
          emitEvent (edge_event LPaxos tag to from "promise" ("PROMISE " +:+ to +:+ " -> " +:+ from))
        else
          emitEvent (edge_event LPaxos tag to from "reject"
            ("REJECT " +:+ to +:+ " -> " +:+ from +:+ ": already promised " +:+ BallotString (mBallot (tReply t))))
  | KindAccept =>
      if dropped then
        emitEvent (edge_event LNet "[net]" from to "drop"
          ("drop ACCEPT slot=" +:+ slot +:+ " " +:+ from +:+ " -> " +:+ to +:+ ": " +:+ reason))
      else
        emitEvent (edge_event LPaxos tag from to "accept"
          ("ACCEPT slot=" +:+ slot +:+ " ballot=" +:+ BallotString (mBallot (tReq t)) +:+ " " +:+ from +:+ " -> " +:+ to));;
        if mOK (tReply t) then
          acks ← get eAcks;
          let acks := if 4096 <? size acks then ∅ else acks in
          let k := ackKey from (mSlot (tReq t)) in
          set_acks (<[k := (default 0 (acks !! k) + 1)%Z]> acks);;
          emitEvent (edge_event LPaxos tag to from "accepted"
            ("ACCEPTED slot=" +:+ slot +:+ " " +:+ to +:+ " -> " +:+ from))
        else
          emitEvent (edge_event LPaxos tag to from "reject"
            ("REJECT slot=" +:+ slot +:+ " " +:+ to +:+ " -> " +:+ from +:+ ": promised " +:+
             BallotString (mBallot (tReply t))))
  | _ => mret tt
  end.

Definition takeAcks (node : string) (slot : N) : EM W Z :=
  acks ← get eAcks;
  let k := ackKey node slot in
  set_acks (delete k acks);;
  mret (default 0%Z (acks !! k)).

(** A call of the replicas; the traffic seen meanwhile is narrated. *)
Definition run {A} (c : ecall W A) : EM W A :=
  e ← get (fun e => e);
  let '(w, traces, x) := c (eFaults e) (eWorld e) in
  set_world w;; for_each onTrace traces;; mret x.

Definition collectTraces : EM W unit :=
  match r_drain with
  | None => mret tt
  | Some d => traces ← run d; for_each onTrace traces
  end.

(** ** The engine's view of a shard *)

(** [e.shards[s]], by name. *)
Definition shard_ids (s : Z) : list string := NodeName s ∘ Z.of_nat <$> seq 0 (Z.to_nat (NodesPerShard cfg)).
Definition all_shards : list Z := Z.of_nat <$> seq 0 (Z.to_nat (Shards cfg)).

Definition sample (ids : list string) : EM W (list (string * option NodeInfo)) :=
  map_each (fun r => i ← run (r_info r); mret (r, i)) ids.

Definition view_of (vs : list (string * option NodeInfo)) (r : string) : option NodeInfo :=
  default None (list_to_map (M := gmap string (option NodeInfo)) vs !! r).

Definition eng_infos (s : Z) : EM W (list NodeInfo) :=
  vs ← sample (shard_ids s); mret (infos (view_of vs) (shard_ids s)).

Definition eng_majorityGroup (s : Z) : EM W (list string * bool) :=
  f ← get eFaults; mret (majorityGroup f (shard_ids s) (Quorum cfg)).

Definition eng_leaderOf (s : Z) : EM W (option (string * NodeInfo)) :=
  g ← eng_majorityGroup s;
  if negb g.2 then mret None
  else vs ← sample g.1; mret (best_leader (view_of vs) g.1 None).

Definition eng_leaderOfAny (s : Z) : EM W (option (string * NodeInfo)) :=
  f ← get eFaults;
  vs ← sample (filter (fun r => alive f r = true) (shard_ids s));
  mret (best_leader (view_of vs) (vs.*1) None).

Definition eng_settled (s : Z) : EM W bool :=
  f ← get eFaults;
  g ← eng_majorityGroup s;
  views ← eng_infos s;
  mret (match count_leaders f g.1 g.2 views 0 with
        | None => false
        | Some leaders => negb g.2 || (1 <=? leaders)
        end).

(** ** [Status] *)

(** The first loop: live replicas, highest term, most advanced live view. *)
Definition scan_view (f : Faults) (acc : nat * N * option NodeInfo) (i : NodeInfo) : nat * N * option NodeInfo :=
  let '(up, term, source) := acc in
  if Dead f (iID i) then acc
  else
    (S up,
     (if (term <? Num (iBallot i))%N then Num (iBallot i) else term),
     match source with
     | None => Some i
     | Some src => if (iApplied src <? iApplied i)%N then Some i else source
     end).

Definition shard_status (f : Faults) (s : Z) (views : list NodeInfo) (leader : option (string * NodeInfo))
    : ShardStatus * list AccountStatus :=
  let '(up, term, source) := fold_left (scan_view f) views (0, 0%N, None) in
  let nodes := (fun i => mkNodeStatus (iID i) (negb (Dead f (iID i))) (iRole i) (iApplied i)) <$> views in
  let source :=
    match leader with
    | None => source
    | Some (l, _) => fold_left (fun src i => if String.eqb (iID i) l then Some i else src) views source
    end in
  (mkShardStatus s (match leader with Some (l, _) => l | None => "" end)
     (match leader with Some (_, li) => Num (iBallot li) | None => term end)
     up (NodesPerShard cfg) (Quorum cfg) nodes,
   match source with
   | None => []
   | Some src =>
       (fun a => mkAccountStatus (aKey a) s (aBalance a) (aLockedBy a) (bool_decide (leader = None)))
         <$> iAccounts src
   end).

Definition status_le (a b : AccountStatus) : Prop :=
  (asShard a < asShard b)%Z \/ (asShard a = asShard b /\ str_le (asKey a) (asKey b)).
#[export] Instance status_le_dec a b : Decision (status_le a b).
Proof. unfold status_le. apply _. Defined.

Definition eng_Status : EM W Status :=
  f ← get eFaults;
  parts ← map_each (fun s =>
    views ← eng_infos s;
    leader ← eng_leaderOf s;
    mret (shard_status f s views leader)) all_shards;
  mret (mkStatus (fst <$> parts) (merge_sort status_le (parts ≫= snd)) (Groups_ (State f))).

(** Only a sink that draws snapshots is handed one. *)
Definition snapshot : EM W unit :=
  s ← get eSink;
  match s with
  | Some true => st ← eng_Status; to_sink (SSnapshot st)
  | _ => mret tt
  end.

(** ** Roles *)

(** One replica of [pollRolesLocked]; the result says whether its role changed. *)
Definition poll_role (s : Z) (i : NodeInfo) : EM W bool :=
  roles ← get eRoles;
  f ← get eFaults;
  set_role (iID i) (iRole i);;
  match roles !! iID i with
  | None => mret false
  | Some prev =>
      if String.eqb prev (iRole i) then mret false
      else
        (if Dead f (iID i) then mret tt
         else if String.eqb (iRole i) (RoleString Leader) then
           emit LLeader (ShardTag s)
             (iID i +:+ " elected leader, ballot " +:+ BallotString (iBallot i) +:+ " (term " +:+
              fmt_N (Num (iBallot i)) +:+ ")")
         else if String.eqb prev (RoleString Leader) then
           emit LLeader (ShardTag s) (iID i +:+ " stepped down")
         else mret tt);;
        mret true
  end.

Definition pollRolesLocked : EM W bool :=
  changed ← map_each (fun s =>
    views ← eng_infos s;
    cs ← map_each (poll_role s) views;
    mret (existsb (fun c => c) cs)) all_shards;
  mret (existsb (fun c => c) changed).

Definition pollRoles : EM W unit :=
  changed ← pollRolesLocked;
  if changed : bool then snapshot else mret tt.

Definition flush : EM W unit := collectTraces;; pollRoles.

(** ** Waiting *)

(** The shards are asked in order, up to the first that is not settled. *)
Fixpoint all_settled (ss : list Z) : EM W bool :=
  match ss with
  | [] => mret true
  | s :: rest => ok ← eng_settled s; if ok : bool then all_settled rest else mret false
  end.

(** The loop of [awaitSettled]; [fuel] bounds its iterations. *)
Fixpoint await_loop (fuel : nat) (deadline : Z) (ss : list Z) : EM W bool :=
  match fuel with
  | O => mret false
  | S fuel' =>
      ok ← all_settled ss;
      flush;;
      if ok : bool then mret true
      else
        w ← get eWorld;
        if (deadline <? w_now w)%Z || w_done w then mret false
        else run r_sleep;; await_loop fuel' deadline ss
  end.

(** Iterations before a deadline [timeout] away has passed, a sleep each. *)
Definition polls (timeout : Z) : nat := Z.to_nat (timeout / pollEvery) + 3.

Definition awaitSettled (ss : list Z) : EM W bool :=
  w ← get eWorld;
  await_loop (polls settleTimeout) (w_now w + settleTimeout)%Z ss.

Definition first_of (group : list string) : string := default "" (head group).

Definition elect (s : Z) (why : string) : EM W unit :=
  let tag := ShardTag s in
  g ← eng_majorityGroup s;
  if negb g.2 then
    emit LError tag
      ("no quorum: the largest reachable group has " +:+ fmt_d (Z.of_nat (length g.1)) +:+ " of " +:+
       fmt_d (NodesPerShard cfg) +:+ " replicas, needs " +:+ fmt_d (Quorum cfg) +:+
       ". shard is leaderless; writes will fail");;
    awaitSettled [s];; mret tt
  else
    l ← eng_leaderOf s;
    (match l with
     | Some _ => mret tt
     | None =>
         emit LLeader tag
           (why +:+ ": " +:+ first_of g.1 +:+ " campaigns, sending PREPARE under a fresh ballot");;
         run (r_campaign (first_of g.1))
     end);;
    ok ← awaitSettled [s];
    if ok : bool then mret tt
    else emit LError tag "election did not settle yet; the replicas' own timers will retry".

Definition noLeaderYet (s : Z) : EngineError :=
  ENoLeader s ("s" +:+ fmt_d s +:+ ": no leader elected yet, try again").

Fixpoint leader_loop (fuel : nat) (deadline : Z) (nudged : bool) (candidate : string) (s : Z)
    : EM W ((string * NodeInfo) + EngineError) :=
  match fuel with
  | O => mret (inr (noLeaderYet s))
  | S fuel' =>
      l ← eng_leaderOf s;
      match l with
      | Some r => mret (inl r)
      | None =>
          if negb nudged then
            emit LLeader (ShardTag s) ("no leader yet; " +:+ candidate +:+ " campaigns");;
            run (r_campaign candidate);;
            leader_loop fuel' deadline true candidate s
          else
            w ← get eWorld;
            if (deadline <? w_now w)%Z then mret (inr (noLeaderYet s))
            else run r_sleep;; leader_loop fuel' deadline nudged candidate s
      end
  end.

Definition leaderFor (s : Z) : EM W ((string * NodeInfo) + EngineError) :=
  g ← eng_majorityGroup s;
  if negb g.2 then
    mret (inr (ENoQuorum s
      ("s" +:+ fmt_d s +:+ " cannot reach a majority (" +:+ fmt_d (Z.of_nat (length g.1)) +:+ " of " +:+
       fmt_d (NodesPerShard cfg) +:+ " reachable, needs " +:+ fmt_d (Quorum cfg) +:+ "): " +:+ NoQuorumString)))
  else
    w ← get eWorld;
    leader_loop (polls leaderTimeout) (w_now w + leaderTimeout)%Z false (first_of g.1) s.

(** ** A command through a shard's log *)

Definition propose (s : Z) (cmd : Command) : EM W (Result + EngineError) :=
  let tag := ShardTag s in
  l ← leaderFor s;
  match l with
  | inr err => mret (inr err)
  | inl (leader, info) =>
      emit LPaxos tag
        ("PREPARE/PROMISE already held: " +:+ leader +:+ " leads under ballot " +:+
         BallotString (iBallot info) +:+ ", promised by a majority when it was elected");;
      emit LPaxos tag (leader +:+ " proposes " +:+ fmt_q (Command_String cmd));;
      r ← run (r_propose leader cmd);
      collectTraces;;
      match r with
      | inr (PNoQuorum | PDeadline) =>
          emit LError tag
            ("ACCEPT did not reach " +:+ fmt_d (Quorum cfg) +:+ " of " +:+ fmt_d (NodesPerShard cfg) +:+ "; " +:+
             leader +:+ " steps down rather than commit alone");;
          mret (inr (ENoQuorum s ("s" +:+ fmt_d s +:+ ": " +:+ NoQuorumString +:+ " for " +:+ Command_String cmd)))
      | inr PNotLeader =>
          mret (inr (ENoLeader s
            ("s" +:+ fmt_d s +:+ ": leadership moved mid-round (no leader), try again")))
      | inr (POther msg) => mret (inr (EOther msg))
      | inl res =>
          n ← takeAcks leader (rSlot res);
          emit LPaxos tag
            ("COMMIT slot=" +:+ fmt_N (rSlot res) +:+ " " +:+ Command_String cmd +:+ " (accepted by " +:+
             fmt_d (n + 1) +:+ "/" +:+ fmt_d (NodesPerShard cfg) +:+ ", quorum " +:+ fmt_d (Quorum cfg) +:+ ")");;
          mret (inl res)
      end
  end.

(** The error of a result, or of the proposal. *)
Definition result_error (r : Result + EngineError) : option EngineError :=
  match r with inr err => Some err | inl res => ELedger <$> Err res end.

Definition Bootstrap : EM W unit := for_each (fun s => elect s "startup") all_shards.

Definition Put (key : string) (value : Z) : EM W (option EngineError) :=
  result_error <$> propose (ShardFor key (Shards cfg)) (mkCommand OpPut key "" value "").

Definition eng_Get (key : string) : EM W (Z + EngineError) :=
  let s := ShardFor key (Shards cfg) in
  r ← propose s (mkCommand OpGet key "" 0 "");
  match r with
  | inr err => mret (inr err)
  | inl res =>
      match Err res with
      | Some err => mret (inr (ELedger err))
      | None =>
          emit LPaxos (ShardTag s)
            ("read served at slot " +:+ fmt_N (rSlot res) +:+
             ": every write acknowledged before it is visible (linearizable)");;
          mret (inl (rValue res))
      end
  end.

(** [participant.Name] and the calls of a participant. *)
Definition shard_name (s : Z) : string := "s" +:+ fmt_d s.

Definition call_command (c : call) : Command :=
  match c with
  | CPrepare _ tx key delta => mkCommand OpPrepare key "" delta tx
  | CCommit _ tx => mkCommand OpCommit "" "" 0 tx
  | CAbort _ tx => mkCommand OpAbort "" "" 0 tx
  end.

Definition engine_call (fs ts : Z) (c : call) : EM W (option EngineError) :=
  let s := if String.eqb (call_part c) (shard_name fs) then fs else ts in
  result_error <$> propose s (call_command c).

Definition eng_Transfer (from to : string) (amount : Z) : EM W (option EngineError) :=
  let fs := ShardFor from (Shards cfg) in
  let ts := ShardFor to (Shards cfg) in
  if (fs =? ts)%Z then
    emit LTwoPC "[2PC]"
      ("not needed: " +:+ from +:+ " and " +:+ to +:+ " both live on s" +:+ fmt_d fs +:+
       ", so one Paxos round moves the money atomically");;
    result_error <$> propose fs (mkCommand OpTransfer from to amount "")
  else fun e =>
    let '(e', out, seq) :=
      Transfer (engine_call fs ts) (eSeq e) (shard_name fs) from (shard_name ts) to amount e in
    let tx := tx_name (eSeq e) in
    match out with
    | TCommitted => (set_coord seq [];; mret None) e'
    | TRefused who err => (set_coord seq [];; mret (Some (EVotedNo who err))) e'
    | TInDoubt names => (set_coord seq (pair tx <$> names);; mret (Some (EInDoubt tx names))) e'
    end.

(** ** Fault commands *)

(** [e.replica]: the replica a name means, and its shard.  The name need not
    be the replica's own: [s00n0] and [s+0n0] read as replica 0 of shard 0. *)
Definition eng_replica (name : string) : (string * Z) + EngineError :=
  match ParseNode name with
  | None => inr (EUnknownNode ("unknown node: " +:+ fmt_q name +:+ " (node ids look like s0n1)"))
  | Some (s, i) =>
      if ((Shards cfg <=? s) || (NodesPerShard cfg <=? i))%Z then
        inr (EUnknownNode
          ("unknown node: " +:+ name +:+ " (this cluster has s0..s" +:+ fmt_d (Shards cfg - 1) +:+ ", n0..n" +:+
           fmt_d (NodesPerShard cfg - 1) +:+ ")"))
      else inl (NodeName s i, s)
  end.

Definition push : EM W unit :=
  f ← get eFaults;
  (match r_push with Some p => run (p (State f)) | None => mret tt end);;
  snapshot.

Definition eng_Kill (name : string) : EM W (option EngineError) :=
  match eng_replica name with
  | inr err => mret (Some err)
  | inl (r, s) =>
      f ← get eFaults;
      if negb (alive f r) then mret (Some (EAlreadyDown name))
      else
        l ← eng_leaderOf s;
        let wasLeader := match l with Some (id, _) => String.eqb id name | None => false end in
        set_faults (Kill name f);;
        push;;
        emit LNet "[net]" (name +:+ " killed: it stops sending and receiving");;
        if negb wasLeader then
          g ← eng_majorityGroup s;
          (if g.2 : bool then
             emit LInfo (ShardTag s) (name +:+ " was a follower; the leader keeps its majority")
           else
             emit LError (ShardTag s)
               "that was one replica too many: no majority is left, so the leader will step down");;
          awaitSettled [s];; mret None
        else
          emit LLeader (ShardTag s) (name +:+ " was the leader");;
          elect s "leader lost";; mret None
  end.

Definition u64_sub (a b : N) : N := u64 (a + (u64_max + 1 - b))%N.

(** The loop at the end of [Revive]. *)
Fixpoint catch_up_loop (fuel : nat) (deadline : Z) (s : Z) (name r leader : string) (want before : N)
    : EM W bool :=
  match fuel with
  | O => mret false
  | S fuel' =>
      w ← get eWorld;
      if negb (w_now w <? deadline)%Z then mret false
      else
        i ← run (r_info r);
        match i with
        | Some now =>
            if (want <=? iApplied now)%N then
              let missed := u64_sub (iApplied now) before in
              (if String.eqb leader name then
                 emit LPaxos (ShardTag s)
                   (name +:+ " now leads: it adopted the " +:+ fmt_N missed +:+
                    " slot(s) it missed from its peers' PROMISEs and re-proposed them, applied through slot " +:+
                    fmt_N (iApplied now))
               else if (missed =? 0)%N then
                 emit LPaxos (ShardTag s)
                   (name +:+ " already had every commit, through slot " +:+ fmt_N (iApplied now))
               else
                 emit LPaxos (ShardTag s)
                   (name +:+ " caught up from " +:+ leader +:+ ": applied through slot " +:+
                    fmt_N (iApplied now) +:+ " (missed " +:+ fmt_N missed +:+ " while down)"));;
              mret true
            else run r_sleep;; catch_up_loop fuel' deadline s name r leader want before
        | None => run r_sleep;; catch_up_loop fuel' deadline s name r leader want before
        end
  end.

Definition eng_Revive (name : string) : EM W (option EngineError) :=
  match eng_replica name with
  | inr err => mret (Some err)
  | inl (r, s) =>
      f ← get eFaults;
      if alive f r then mret (Some (EAlreadyUp name))
      else
        before ← run (r_info r);
        set_faults (Revive name f);;
        push;;
        emit LNet "[net]" (name +:+ " revived: it rejoins with the log it had when it went down");;
        l ← eng_leaderOf s;
        (match l with
         | None => elect s "majority restored"
         | Some _ => awaitSettled [s];; mret tt
         end);;
        l ← eng_leaderOf s;
        f ← get eFaults;
        match l with
        | None => mret None
        | Some (leader, linfo) =>
            if negb (GroupOf f name =? GroupOf f leader)%Z then mret None
            else
              w ← get eWorld;
              ok ← catch_up_loop (polls leaderTimeout) (w_now w + leaderTimeout)%Z s name r leader
                     (iApplied linfo) (match before with Some i => iApplied i | None => 0%N end);
              (if ok : bool then mret tt
               else emit LPaxos (ShardTag s) (name +:+ " is still catching up in the background"));;
              mret None
        end
  end.

(** The first name that is not a replica's. *)
Fixpoint check_names (names : list string) : option EngineError :=
  match names with
  | [] => None
  | n :: rest => match eng_replica n with inr err => Some err | inl _ => check_names rest end
  end.

Definition affected (listed : list string) : list Z :=
  filter (fun s => existsb (fun r => bool_decide (r ∈ listed)) (shard_ids s) = true) all_shards.

Definition partition_report (s : Z) : EM W unit :=
  let tag := ShardTag s in
  g ← eng_majorityGroup s;
  l ← eng_leaderOfAny s;
  (match l with
   | Some (leader, _) =>
       if negb g.2 then
         emit LLeader tag
           (leader +:+ " can no longer reach a majority; it steps down at its next heartbeat (check-quorum)")
       else if inGroup g.1 leader then
         emit LInfo tag ("leader " +:+ leader +:+ " is on the majority side and keeps leading")
       else
         emit LLeader tag
           ("leader " +:+ leader +:+ " is cut off in a minority and will step down (check-quorum)")
   | None => mret tt
   end);;
  elect s "majority side has no leader".

Fixpoint group_lines (i : Z) (groups : list (list string)) : list string :=
  match groups with
  | [] => []
  | g :: rest => ("group " +:+ fmt_d i +:+ ": {" +:+ Join " " g +:+ "}") :: group_lines (i + 1) rest
  end.

Definition eng_Partition (groups : list (list string)) : EM W (option EngineError) :=
  let listed := mjoin groups in
  match check_names listed with
  | Some err => mret (Some err)
  | None =>
      f ← get eFaults;
      set_faults (Partition groups f);;
      push;;
      for_each (emit LNet "[net]") (group_lines 1 groups);;
      let rest := filter (fun r => r ∉ listed) (all_shards ≫= shard_ids) in
      (if 0 <? length rest then
         emit LNet "[net]" ("unlisted replicas form their own group: {" +:+ Join " " rest +:+ "}")
       else mret tt);;
      emit LNet "[net]" "messages between groups are now dropped";;
      for_each partition_report (affected listed);;
      mret None
  end.

Definition eng_Heal : EM W (option EngineError) :=
  f ← get eFaults;
  if negb (Partitioned f) then mret (Some ENotPartitioned)
  else
    set_faults (Heal f);;
    push;;
    emit LNet "[net]" "network healed: every live replica can reach every other";;
    for_each (fun s =>
      l ← eng_leaderOf s;
      match l with Some _ => mret tt | None => elect s "reconnected" end) all_shards;;
    awaitSettled all_shards;;
    mret None.

(** ** The replicas side by side *)

(** [%-8s] and the like. *)
Fixpoint spaces (n : nat) : string := match n with O => "" | S n' => String " " (spaces n') end.
Definition pad (n : nat) (s : string) : string := s +:+ spaces (n - String.length s).

Definition datastore_line (f : Faults) (i : NodeInfo) : string :=
  let state := if Dead f (iID i) then "DOWN" else iRole i in
  iID i +:+ " " +:+ pad 8 state +:+ " promised=" +:+ pad 7 (BallotString (iBallot i)) +:+ " applied=" +:+
  pad 3 (fmt_N (iApplied i)) +:+ " {" +:+
  Join " " ((fun a => aKey a +:+ "=" +:+ fmt_d (aBalance a)) <$> iAccounts i) +:+ "}  log .." +:+
  Join " | " ((fun l => fmt_N (lSlot l) +:+ ":" +:+ lCommand l) <$> iTail i).

Definition Datastore : EM W (list string) :=
  f ← get eFaults;
  lines ← map_each (fun s => views ← eng_infos s; mret (datastore_line f <$> views)) all_shards;
  mret (mjoin lines).

(** ** One command at a time *)

(** [Do]: the events of [fn] go to the sink; [draws] says whether the sink
    also takes snapshots. *)
Definition Do {A} (draws : bool) (fn : EM W A) : EM W A :=
  set_sink (Some draws);;
  x ← fn;
  flush;;
  set_sink None;;
  mret x.

(** [newEngine], then [start]'s first poll. *)
Definition newEngine (w : W) : Engine W := mkEngine NewFaults None [] ∅ ∅ 0 [] w.
Definition start (w : W) : Engine W := (pollRoles (newEngine w)).1.
End Engine.
