(* ===== verification/EngineProofs.v ===== *)
(** * The engine's commands: what they change and that they end

    A frame calculus for the monad of Engine.v ([keeps]): a relation that every
    primitive step respects is respected by every operation built from them.
    On it rest the theorems on the fault commands, on deadlines, on who a
    proposal is sent to and on the counting of acknowledgements. *)

From stdpp Require Import sorting.
From S2P Require Import Prelude GoText PaxosTypes PaxosNode Ledger TwoPC Faults Transport Cluster Engine.

Create HintDb engine.

Definition keeps {W A} (R : relation (Engine W)) (m : EM W A) : Prop := forall e, R e (m e).1.

(** The replicas' part of the state moves within the relation. *)
Definition respects {W A} (R : relation (Engine W)) (c : ecall W A) : Prop :=
  forall e, R e (set_world (c (eFaults e) (eWorld e)).1.1 e).1.

Class Frame {W} `{Replicas W} (R : relation (Engine W)) := {
  fr_pre :: PreOrder R;
  fr_acks a : keeps R (set_acks a);
  fr_role r role : keeps R (set_role r role);
  fr_sink item : keeps R (to_sink item);
  fr_info r : respects R (r_info r);
  fr_campaign r : respects R (r_campaign r);
  fr_sleep : respects R r_sleep;
  fr_push p e : r_push = Some p -> R e (set_world (p (State (eFaults e)) (eFaults e) (eWorld e)).1.1 e).1;
  fr_drain d : r_drain = Some d -> respects R d;
}.

(** Proposals are apart: they also change the ledgers. *)
Class FramePropose {W} `{Replicas W} (R : relation (Engine W)) := {
  fr_frame :: Frame R;
  fr_propose r c : respects R (r_propose r c);
}.

Lemma bind_run {W A B} (m : EM W A) (k : A -> EM W B) e : (m ≫= k) e = k (m e).2 (m e).1.
Proof. unfold mbind, EM_bind. by destruct (m e). Qed.

Lemma bind_get {W A B} (f : Engine W -> A) (k : A -> EM W B) e : (get f ≫= k) e = k (f e) e.
Proof. done. Qed.

Section Frames.
Context {W : Type} `{Replicas W} (R : relation (Engine W)) `{!Frame R}.
Implicit Types (e : Engine W).

Lemma keeps_ret {A} (x : A) : keeps R (mret x).
Proof. intros e. reflexivity. Qed.

Lemma keeps_get {A} (f : Engine W -> A) : keeps R (get f).
Proof. intros e. reflexivity. Qed.

Lemma keeps_bind {A B} (m : EM W A) (k : A -> EM W B) :
  keeps R m -> (forall x, keeps R (k x)) -> keeps R (m ≫= k).
Proof.
  intros Hm Hk e. unfold mbind, EM_bind. specialize (Hm e). destruct (m e) as [e' x].
  etransitivity; [exact Hm|apply Hk].
Qed.

Lemma keeps_fmap {A B} (f : A -> B) (m : EM W A) : keeps R m -> keeps R (f <$> m).
Proof. intros Hm e. unfold fmap, EM_fmap. specialize (Hm e). by destruct (m e). Qed.

Lemma keeps_for_each {A} (f : A -> EM W unit) l : (forall x, keeps R (f x)) -> keeps R (for_each f l).
Proof.
  intros Hf. induction l as [|x l IH]; simpl; [apply keeps_ret|]. apply keeps_bind; [apply Hf|done].
Qed.

Lemma keeps_map_each {A B} (f : A -> EM W B) l : (forall x, keeps R (f x)) -> keeps R (map_each f l).
Proof.
  intros Hf. induction l as [|x l IH]; simpl; [apply keeps_ret|].
  apply keeps_bind; [apply Hf|]. intros y. apply keeps_bind; [done|]. intros ys. apply keeps_ret.
Qed.

(** Decompose an operation down to the operations the database knows. *)
Ltac frame :=
  repeat first
    [ progress intros
    | apply keeps_ret | apply keeps_get | apply fr_acks | apply fr_role | apply fr_sink
    | solve [eauto with engine]
    | apply keeps_bind | apply keeps_fmap | apply keeps_for_each | apply keeps_map_each
    | match goal with
      | |- keeps _ (match ?x with _ => _ end) => destruct x
      | |- keeps _ (if ?x then _ else _) => destruct x
      | |- keeps _ (let '(_, _) := ?x in _) => destruct x
      end ].

Lemma keeps_emit l tag msg : keeps R (emit l tag msg).
Proof. apply fr_sink. Qed.
Lemma keeps_emitEvent ev : keeps R (emitEvent ev).
Proof. apply fr_sink. Qed.
Hint Resolve keeps_emit keeps_emitEvent : engine.

Lemma keeps_onTrace t : keeps R (onTrace t).
Proof. unfold onTrace. frame. Qed.
Hint Resolve keeps_onTrace : engine.

Lemma keeps_takeAcks n s : keeps R (takeAcks n s).
Proof. unfold takeAcks. frame. Qed.
Hint Resolve keeps_takeAcks : engine.

(** A call, and the narration after it. *)
Lemma run_ecall {A} (c : ecall W A) e :
  (run c e).2 = (c (eFaults e) (eWorld e)).2 /\
  R (set_world (c (eFaults e) (eWorld e)).1.1 e).1 (run c e).1.
Proof.
  unfold run. rewrite bind_get. destruct (c (eFaults e) (eWorld e)) as [[w traces] x]. cbn [fst snd].
  rewrite bind_run. set (e1 := (set_world w e).1). split; [by rewrite bind_run|].
  assert (keeps R (for_each onTrace traces;; mret x)) as Hk; [|exact (Hk e1)].
  apply keeps_bind; [|intros; apply keeps_ret]. apply keeps_for_each, keeps_onTrace.
Qed.

Lemma keeps_run {A} (c : ecall W A) : respects R c -> keeps R (run c).
Proof. intros Hc e. etransitivity; [exact (Hc e)|]. apply run_ecall. Qed.

Lemma keeps_info r : keeps R (run (r_info r)).
Proof. apply keeps_run, fr_info. Qed.
Lemma keeps_campaign r : keeps R (run (r_campaign r)).
Proof. apply keeps_run, fr_campaign. Qed.
Lemma keeps_sleep : keeps R (run r_sleep).
Proof. apply keeps_run, fr_sleep. Qed.
Hint Resolve keeps_info keeps_campaign keeps_sleep : engine.

Lemma keeps_collectTraces : keeps R collectTraces.
Proof.
  unfold collectTraces. destruct r_drain as [d|] eqn:Hd; [|frame].
  apply keeps_bind; [by apply keeps_run, fr_drain|frame].
Qed.
Hint Resolve keeps_collectTraces : engine.

Context (cfg : ClusterConfig).

Lemma keeps_sample ids : keeps R (sample ids).
Proof. unfold sample. frame. Qed.
Hint Resolve keeps_sample : engine.
Lemma keeps_infos s : keeps R (eng_infos cfg s).
Proof. unfold eng_infos. frame. Qed.
Lemma keeps_majority s : keeps R (eng_majorityGroup cfg s).
Proof. unfold eng_majorityGroup. frame. Qed.
Hint Resolve keeps_infos keeps_majority : engine.
Lemma keeps_leaderOf s : keeps R (eng_leaderOf cfg s).
Proof. unfold eng_leaderOf. frame. Qed.
Lemma keeps_leaderOfAny s : keeps R (eng_leaderOfAny cfg s).
Proof. unfold eng_leaderOfAny. frame. Qed.
Lemma keeps_settled s : keeps R (eng_settled cfg s).
Proof. unfold eng_settled. frame. Qed.
Hint Resolve keeps_leaderOf keeps_leaderOfAny keeps_settled : engine.
Lemma keeps_Status : keeps R (eng_Status cfg).
Proof. unfold eng_Status. frame. Qed.
Hint Resolve keeps_Status : engine.
Lemma keeps_snapshot : keeps R (snapshot cfg).
Proof. unfold snapshot. frame. Qed.
Lemma keeps_poll_role s i : keeps R (poll_role s i).
Proof. unfold poll_role. frame. Qed.
Hint Resolve keeps_snapshot keeps_poll_role : engine.
Lemma keeps_pollRoles : keeps R (pollRoles cfg).
Proof. unfold pollRoles, pollRolesLocked. frame. Qed.
Hint Resolve keeps_pollRoles : engine.
Lemma keeps_flush : keeps R (flush cfg).
Proof. unfold flush. frame. Qed.
Hint Resolve keeps_flush : engine.

Lemma keeps_all_settled ss : keeps R (all_settled cfg ss).
Proof. induction ss as [|s ss IH]; simpl; frame. Qed.
Hint Resolve keeps_all_settled : engine.
Lemma keeps_await_loop fuel d ss : keeps R (await_loop cfg fuel d ss).
Proof. induction fuel as [|fuel IH]; cbn [await_loop]; frame. Qed.
Hint Resolve keeps_await_loop : engine.
Lemma keeps_awaitSettled ss : keeps R (awaitSettled cfg ss).
Proof. unfold awaitSettled. frame. Qed.
Hint Resolve keeps_awaitSettled : engine.
Lemma keeps_elect s why : keeps R (elect cfg s why).
Proof. unfold elect. frame. Qed.
Hint Resolve keeps_elect : engine.
Lemma keeps_leader_loop fuel d n c s : keeps R (leader_loop cfg fuel d n c s).
Proof. revert n. induction fuel as [|fuel IH]; intros n; cbn [leader_loop]; frame. Qed.
Hint Resolve keeps_leader_loop : engine.
Lemma keeps_leaderFor s : keeps R (leaderFor cfg s).
Proof. unfold leaderFor. frame. Qed.
Hint Resolve keeps_leaderFor : engine.
Lemma keeps_push : keeps R (push cfg).
Proof.
  unfold push. intros e. rewrite bind_get.
  assert (R e ((match r_push with Some p => run (p (State (eFaults e))) | None => mret tt end) e).1) as H1.
  { destruct r_push as [p|] eqn:Hp; [|reflexivity]. etransitivity; [by apply fr_push|apply run_ecall]. }
  etransitivity; [exact H1|]. rewrite bind_run. match goal with |- R ?x (?m ?x).1 => assert (keeps R m) as Hk by frame; apply Hk end.
Qed.
Hint Resolve keeps_push : engine.
Lemma keeps_catch_up fuel d s name r l want before :
  keeps R (catch_up_loop fuel d s name r l want before).
Proof. induction fuel as [|fuel IH]; cbn [catch_up_loop]; frame. Qed.
Hint Resolve keeps_catch_up : engine.
Lemma keeps_partition_report s : keeps R (partition_report cfg s).
Proof. unfold partition_report. frame. Qed.
Hint Resolve keeps_partition_report : engine.
End Frames.

#[export] Hint Resolve keeps_emit keeps_emitEvent keeps_onTrace keeps_takeAcks keeps_info keeps_campaign keeps_sleep
  keeps_collectTraces keeps_sample keeps_infos keeps_majority keeps_leaderOf keeps_leaderOfAny keeps_settled
  keeps_Status keeps_snapshot keeps_poll_role keeps_pollRoles keeps_flush keeps_all_settled keeps_await_loop
  keeps_awaitSettled keeps_elect keeps_leader_loop keeps_leaderFor keeps_push keeps_catch_up
  keeps_partition_report : engine.

(** The same by the shape of the operation, with a step of the client's own. *)
Ltac frame_with tac :=
  repeat first
    [ progress intros
    | tac
    | lazymatch goal with
      | |- keeps _ (mret _) => apply keeps_ret
      | |- keeps _ (get _) => apply keeps_get
      | |- keeps _ (match ?x with _ => _ end) => destruct x
      | |- keeps _ (_ ≫= _) => apply keeps_bind
      | |- keeps _ (_ <$> _) => apply keeps_fmap
      | |- keeps _ (for_each _ _) => apply keeps_for_each
      | |- keeps _ (map_each _ _) => apply keeps_map_each
      | |- keeps _ (set_acks _) => apply fr_acks
      | |- keeps _ (set_role _ _) => apply fr_role
      | |- keeps _ (to_sink _) => apply fr_sink
      end
    | solve [eauto with engine typeclass_instances] ].
Ltac frame := frame_with fail.

Lemma keeps_propose {W} `{Replicas W} (R : relation (Engine W)) `{!FramePropose R} cfg s c :
  keeps R (propose cfg s c).
Proof.
  unfold propose.
  assert (forall r c, keeps R (run (r_propose r c))) by (intros ? ?; exact (keeps_run R _ (fr_propose _ _))).
  frame.
Qed.
#[export] Hint Resolve keeps_propose : engine.

(** ** The relations used *)

Section Relations.
Context {W : Type} `{Replicas W}.

Definition same_faults : relation (Engine W) := fun e e' => eFaults e' = eFaults e.
Definition later : relation (Engine W) := fun e e' => (w_now (eWorld e) <= w_now (eWorld e'))%Z.
(** Without a sink nothing is shown. *)
Definition silent : relation (Engine W) := fun e e' =>
  eSink e' = eSink e /\ (eSink e = None -> eEvents e' = eEvents e).

#[export] Instance same_faults_pre : PreOrder same_faults.
Proof. split; unfold same_faults; [done|]. intros x y z. congruence. Qed.

#[export] Instance same_faults_frame : FramePropose same_faults.
Proof.
  split; [split|]; try apply _; try (intros; first [done|intros ?; done]).
  intros ev e. unfold to_sink, same_faults. by destruct (eSink e).
Qed.

#[export] Instance silent_pre : PreOrder silent.
Proof.
  split; unfold silent; [done|]. intros x y z [H1 H2] [H3 H4]. split; [congruence|].
  intros Hx. rewrite H4, H2; congruence.
Qed.

#[export] Instance silent_frame : FramePropose silent.
Proof.
  split; [split|]; try apply _; try (intros; first [done|intros ?; done]).
  intros ev e. unfold to_sink, silent. destruct (eSink e) eqn:E; simpl; [split; congruence|auto].
Qed.

#[export] Instance later_frame `{!ReplicasLaws W} : FramePropose later.
Proof.
  assert (forall A (c : ecall W A) d, (0 <= d)%Z -> clocked d c -> respects later c) as Hc.
  { intros A c d Hd Hc e. specialize (Hc (eFaults e) (eWorld e)). unfold later. simpl. lia. }
  split; [split|]; try (intros; intros ?; unfold later; simpl; lia); intros.
  - unfold later. split; [intros e; lia|intros x y z; lia].
  - intros e. unfold to_sink, later. destruct (eSink e); simpl; lia.
  - eapply Hc, info_time. done.
  - eapply Hc, campaign_time. done.
  - eapply Hc, sleep_time. done.
  - by apply (Hc _ (p (State (eFaults e))) 0%Z), push_time.
  - eapply Hc, drain_time; done.
  - eapply Hc, propose_time. done.
Qed.
End Relations.

(** A computation whose answer does not depend on the state. *)
Definition yields {W A} (m : EM W A) (x : A) : Prop := forall e, (m e).2 = x.

Lemma yields_ret {W A} (x : A) : yields (W := W) (mret x) x.
Proof. done. Qed.

Lemma yields_bind {W A B} (m : EM W A) (k : A -> EM W B) x :
  (forall y, yields (k y) x) -> yields (m ≫= k) x.
Proof. intros Hk e. unfold mbind, EM_bind. destruct (m e) as [e' y]. apply Hk. Qed.

Ltac answer :=
  repeat first
    [ progress intros | apply yields_ret | apply yields_bind
    | match goal with
      | |- yields (match ?x with _ => _ end) _ => destruct x
      | |- yields (if ?x then _ else _) _ => destruct x
      end ].

(** ** Fault commands *)

Inductive fault_command :=
| CmdKill (name : string)
| CmdRevive (name : string)
| CmdPartition (gs : list (list string))
| CmdHeal.

Section Commands.
Context {W : Type} `{Replicas W} (cfg : ClusterConfig).
Implicit Types (e : Engine W).

Definition run_command (c : fault_command) : EM W (option EngineError) :=
  match c with
  | CmdKill n => eng_Kill cfg n
  | CmdRevive n => eng_Revive cfg n
  | CmdPartition gs => eng_Partition cfg gs
  | CmdHeal => eng_Heal cfg
  end.

Definition fault_effect (c : fault_command) (f : Faults) : Faults :=
  match c with
  | CmdKill n => Kill n f
  | CmdRevive n => Revive n f
  | CmdPartition gs => Partition gs f
  | CmdHeal => Heal f
  end.

(** The rest of a command, once the table is changed. *)
Lemma after_table f (m : EM W (option EngineError)) e :
  keeps same_faults m -> yields m None ->
  eFaults ((set_faults f;; m) e).1 = f /\ ((set_faults f;; m) e).2 = None.
Proof.
  intros Hk Hy. rewrite bind_run. split; [apply (Hk (set_faults f e).1)|apply Hy].
Qed.

Ltac finish_command :=
  match goal with
  | |- context [(set_faults ?f ;; ?m) ?e0] =>
      destruct (after_table f m e0 ltac:(frame) ltac:(answer)) as [? ?];
      destruct ((set_faults f;; m) e0) as [e' out]; cbn [fst snd] in *; by subst out
  end.

Lemma run_command_exact (c : fault_command) e :
  let '(e', out) := run_command c e in
  match out with Some _ => e' = e | None => eFaults e' = fault_effect c (eFaults e) end.
Proof.
  destruct c as [n|n|gs|]; simpl.
  - unfold eng_Kill. destruct (eng_replica cfg n) as [[r s]|]; [|done]. rewrite bind_get.
    destruct (negb (alive (eFaults e) r)); [done|]. rewrite bind_run. finish_command.
  - unfold eng_Revive. destruct (eng_replica cfg n) as [[r s]|]; [|done]. rewrite bind_get.
    destruct (alive (eFaults e) r); [done|]. rewrite bind_run. finish_command.
  - unfold eng_Partition. destruct (check_names cfg (mjoin gs)); [done|]. rewrite bind_get. finish_command.
  - unfold eng_Heal. rewrite bind_get. destruct (Partitioned (eFaults e)); cbn [negb]; [|done]. finish_command.
Qed.

(** A fault command that reports an error has done nothing; one that succeeds
    has made exactly its change of the fault table, whatever the elections it
    starts and waits for do. *)
Theorem fault_commands_exact (c : fault_command) e :
  let '(e', out) := run_command c e in
  match out with Some _ => e' = e | None => eFaults e' = fault_effect c (eFaults e) end.
Proof.
  apply run_command_exact.
Qed.

(** A replica is only killed by its own name: a name that merely reads as the
    replica's is accepted, reported as a success, and leaves it running. *)
Theorem kill_by_alias_kills_nobody name r s e :
  eng_replica cfg name = inl (r, s) -> name <> r -> alive (eFaults e) r = true ->
  (eng_Kill cfg name e).2 = None /\ alive (eFaults (eng_Kill cfg name e).1) r = true.
Proof.
  intros Hr Hne Ha. unfold eng_Kill. rewrite Hr, bind_get, Ha. cbn [negb]. rewrite bind_run.
  match goal with
  | |- context [(set_faults ?f ;; ?m) ?e0] =>
      destruct (after_table f m e0 ltac:(frame) ltac:(answer)) as [Hf ->]; split; [done|]; rewrite Hf
  end.
  unfold alive, Dead, Kill in *. simpl. rewrite negb_true_iff in *.
  apply bool_decide_eq_false in Ha. apply bool_decide_eq_false. set_solver.
Qed.
End Commands.

(** ** Deadlines *)

Section Deadlines.
Context {W : Type} `{RL : ReplicasLaws W} (cfg : ClusterConfig).
Implicit Types (e : Engine W).

Definition now e : Z := w_now (eWorld e).

Lemma sleep_later e : (now e + pollEvery <= now (run r_sleep e).1)%Z.
Proof.
  unfold run. rewrite bind_get. pose proof (sleep_time (eFaults e) (eWorld e)) as Hs.
  destruct (r_sleep (eFaults e) (eWorld e)) as [[w traces] x]. simpl in Hs. rewrite bind_run.
  set (e1 := (set_world w e).1). change (w_now w) with (now e1) in Hs.
  assert (keeps later (for_each onTrace traces;; mret (M := EM W) x)) as Hk by frame.
  specialize (Hk e1). unfold later in Hk. unfold now in *. lia.
Qed.

(** Fuel that outlasts the deadline is as good as any more. *)
Definition enough (fuel : nat) (d : Z) e : Prop :=
  0 < fuel /\ (d - now e < pollEvery * (Z.of_nat fuel - 1))%Z.

Lemma enough_step fuel d e e2 :
  enough (S fuel) d e -> (now e <= now e2)%Z -> (now e2 <= d)%Z -> enough fuel d (run r_sleep e2).1.
Proof.
  unfold enough. intros [_ Hd] Hle Hd2. pose proof (sleep_later e2). unfold pollEvery, millisecond in *. nia.
Qed.

Lemma enough_polls timeout e n :
  (0 <= timeout)%Z -> n <= 1 -> enough (polls timeout - n) (now e + timeout) e.
Proof.
  intros Ht Hn. unfold enough, polls. pose proof (Z.div_mod timeout pollEvery ltac:(done)) as Hdm.
  pose proof (Z.mod_pos_bound timeout pollEvery ltac:(done)).
  pose proof (Z.div_pos timeout pollEvery Ht ltac:(done)). unfold pollEvery, millisecond in *. split; [lia|]. nia.
Qed.

Lemma await_loop_more fuel k d ss e :
  enough fuel d e -> await_loop cfg (fuel + k) d ss e = await_loop cfg fuel d ss e.
Proof.
  revert e. induction fuel as [|fuel IH]; intros e Hd; [by destruct Hd; lia|].
  cbn [await_loop Nat.add]. rewrite !bind_run.
  pose proof (keeps_all_settled later cfg ss e) as H1. set (e1 := (all_settled cfg ss e).1) in *.
  pose proof (keeps_flush later cfg e1) as H2. set (e2 := (flush cfg e1).1) in *.
  destruct (all_settled cfg ss e).2; [done|]. rewrite !bind_get.
  destruct (Z.ltb_spec d (w_now (eWorld e2))) as [|Hle]; [done|]. simpl. destruct (w_done (eWorld e2)); [done|].
  rewrite !bind_run. apply IH. eapply enough_step; [done| |done]. unfold later, now in *. lia.
Qed.

Lemma leader_loop_more fuel k d c s e :
  enough fuel d e -> leader_loop cfg (fuel + k) d true c s e = leader_loop cfg fuel d true c s e.
Proof.
  revert e. induction fuel as [|fuel IH]; intros e Hd; [by destruct Hd; lia|].
  cbn [leader_loop Nat.add]. rewrite !bind_run.
  pose proof (keeps_leaderOf later cfg s e) as H1. set (e1 := (eng_leaderOf cfg s e).1) in *.
  destruct (eng_leaderOf cfg s e).2; [done|]. cbn [negb]. rewrite !bind_get.
  destruct (Z.ltb_spec d (w_now (eWorld e1))) as [|Hle]; [done|].
  rewrite !bind_run. apply IH. eapply enough_step; done.
Qed.

Lemma leader_loop_nudge fuel k d c s e :
  enough fuel d e ->
  leader_loop cfg (S fuel + k) d false c s e = leader_loop cfg (S fuel) d false c s e.
Proof.
  intros [Hf Hd]. cbn [Nat.add].
  change (leader_loop cfg (S ?n) d false c s) with
    (l ← eng_leaderOf cfg s;
     match l with
     | Some r => mret (M := EM W) (inl r)
     | None =>
         emit LLeader (ShardTag s) ("no leader yet; " +:+ c +:+ " campaigns");;
         run (r_campaign c);; leader_loop cfg n d true c s
     end).
  rewrite !bind_run. pose proof (keeps_leaderOf later cfg s e) as H1.
  destruct (eng_leaderOf cfg s e).2; [done|]. rewrite !bind_run.
  match goal with |- context [run (r_campaign c) ?e0] =>
    pose proof (keeps_campaign later c e0) as H3; pose proof (keeps_emit later LLeader (ShardTag s)
      ("no leader yet; " +:+ c +:+ " campaigns") (eng_leaderOf cfg s e).1) as H2 end.
  apply leader_loop_more. unfold enough, later, now in *. split; [done|]. lia.
Qed.

Lemma catch_up_more fuel k d s name r l want before e :
  enough fuel d e ->
  catch_up_loop (fuel + k) d s name r l want before e = catch_up_loop fuel d s name r l want before e.
Proof.
  revert e. induction fuel as [|fuel IH]; intros e Hd; [by destruct Hd; lia|].
  cbn [catch_up_loop Nat.add]. rewrite !bind_get.
  destruct (Z.ltb_spec (w_now (eWorld e)) d) as [Hlt|]; cbn [negb]; [|done]. rewrite !bind_run.
  pose proof (keeps_info later r e) as H1. set (e1 := (run (r_info r) e).1) in *.
  assert (catch_up_loop (fuel + k) d s name r l want before (run r_sleep e1).1 =
          catch_up_loop fuel d s name r l want before (run r_sleep e1).1) as Hnext.
  { destruct (Z.le_gt_cases (now e1) d) as [Hle|Hgt].
    - apply IH. by eapply enough_step.
    - pose proof (sleep_later e1). assert (now (run r_sleep e1).1 <? d = false)%Z as Hno
        by (apply Z.ltb_ge; unfold pollEvery, millisecond in *; lia).
      destruct fuel as [|fuel]; [destruct k as [|k]; [done|]|]; cbn [catch_up_loop Nat.add];
        rewrite ?bind_get; change (w_now (eWorld ?x)) with (now x); by rewrite ?Hno. }
  destruct (run (r_info r) e).2 as [i|]; [|by rewrite !bind_run].
  destruct (want <=? iApplied i)%N; [done|]. by rewrite !bind_run.
Qed.

(** C26: Every wait of the engine ends: its deadline passes before the polls run
    out, so more of them would change nothing. *)
Theorem waits_end k ss s name r leader candidate want before e :
  let settle := (now e + settleTimeout)%Z in
  let lead := (now e + leaderTimeout)%Z in
  await_loop cfg (polls settleTimeout + k) settle ss e = awaitSettled cfg ss e /\
  leader_loop cfg (polls leaderTimeout + k) lead false candidate s e =
    leader_loop cfg (polls leaderTimeout) lead false candidate s e /\
  catch_up_loop (polls leaderTimeout + k) lead s name r leader want before e =
    catch_up_loop (polls leaderTimeout) lead s name r leader want before e.
Proof.
  intros settle lead.
  pose proof (enough_polls settleTimeout e 0 ltac:(done) ltac:(lia)) as Hs.
  pose proof (enough_polls leaderTimeout e 0 ltac:(done) ltac:(lia)) as Hl.
  pose proof (enough_polls leaderTimeout e 1 ltac:(done) ltac:(lia)) as Hn.
  rewrite Nat.sub_0_r in Hs, Hl. split; [|split].
  - unfold awaitSettled. rewrite bind_get. by apply await_loop_more.
  - change (polls leaderTimeout) with (S (polls leaderTimeout - 1)). by apply leader_loop_nudge.
  - by apply catch_up_more.
Qed.
End Deadlines.

(** ** Who a proposal is sent to *)

Section Leaders.
Context {W : Type} `{Replicas W} (cfg : ClusterConfig).
Implicit Types (e : Engine W).

Definition majority_of (s : Z) e : list string * bool :=
  majorityGroup (eFaults e) (shard_ids cfg s) (Quorum cfg).

Lemma eng_leaderOf_run s e :
  eng_leaderOf cfg s e =
  if (majority_of s e).2
  then ((sample (majority_of s e).1 e).1,
        best_leader (view_of (sample (majority_of s e).1 e).2) (majority_of s e).1 None)
  else (e, None).
Proof.
  unfold eng_leaderOf, eng_majorityGroup. rewrite bind_run, bind_get. cbn [fst snd].
  change (snd (mret (M := EM W) ?x e)) with x. change (fst (mret (M := EM W) ?x e)) with e.
  fold (majority_of s e). destruct (majority_of s e) as [g []]; cbn [negb fst snd]; [|done].
  by rewrite bind_run.
Qed.

Lemma eng_leaderOf_spec s e r i :
  (eng_leaderOf cfg s e).2 = Some (r, i) ->
  r ∈ (majority_of s e).1 /\ (majority_of s e).2 = true /\ claims_leadership i = true.
Proof.
  rewrite eng_leaderOf_run. destruct (majority_of s e) as [g [|]]; cbn [fst snd]; [|done]. intros Hl.
  destruct (best_leader_spec (view_of (sample g e).2) g [] None (leads_over_nil _)) as [Hb _].
  rewrite Hl in Hb. destruct (Hb _ eq_refl) as (? & _ & ?). done.
Qed.

Lemma majority_of_same s e e' : same_faults e e' -> majority_of s e' = majority_of s e.
Proof. unfold same_faults, majority_of. by intros ->. Qed.

Lemma leader_loop_sound fuel d n c s e :
  match (leader_loop cfg fuel d n c s e).2 with
  | inl (r, i) => r ∈ (majority_of s e).1 /\ claims_leadership i = true
  | inr err => exists text, err = ENoLeader s text
  end.
Proof.
  revert n e. induction fuel as [|fuel IH]; intros n e; cbn [leader_loop]; [by eexists|].
  rewrite bind_run. pose proof (keeps_leaderOf same_faults cfg s e) as H1.
  destruct (eng_leaderOf cfg s e).2 as [[r i]|] eqn:El.
  { simpl. apply eng_leaderOf_spec in El. tauto. }
  assert (forall e', same_faults e e' -> forall n',
    match (leader_loop cfg fuel d n' c s e').2 with
    | inl (r, i) => r ∈ (majority_of s e).1 /\ claims_leadership i = true
    | inr err => exists text, err = ENoLeader s text
    end) as Hrec.
  { intros e' He n'. rewrite <- (majority_of_same s e e' He). apply IH. }
  destruct n; cbn [negb].
  - rewrite bind_get. destruct (Z.ltb d _); [by eexists|]. rewrite bind_run. apply Hrec.
    etransitivity; [exact H1|]. exact (keeps_sleep same_faults _).
  - rewrite !bind_run. apply Hrec. etransitivity; [exact H1|].
    etransitivity; [|exact (keeps_campaign same_faults c _)]. exact (keeps_emit same_faults _ _ _ _).
Qed.

Lemma leaderFor_spec s e :
  match leaderFor cfg s e with
  | (_, inl (r, i)) =>
      r ∈ (majority_of s e).1 /\ (majority_of s e).2 = true /\ claims_leadership i = true
  | (e', inr err) =>
      ((exists text, err = ENoQuorum s text) /\ (majority_of s e).2 = false /\ e' = e) \/
      ((exists text, err = ENoLeader s text) /\ (majority_of s e).2 = true)
  end.
Proof.
  unfold leaderFor, eng_majorityGroup. rewrite bind_run, bind_get. cbn [fst snd].
  change (snd (mret (M := EM W) ?x e)) with x. change (fst (mret (M := EM W) ?x e)) with e.
  fold (majority_of s e). destruct (majority_of s e) as [g ok] eqn:Em. destruct ok; cbn [negb fst snd]; [|left; split; [by eexists|done]].
  rewrite bind_get.
  pose proof (leader_loop_sound (polls leaderTimeout) (w_now (eWorld e) + leaderTimeout) false (first_of g) s e) as Hs.
  rewrite Em in Hs. destruct (leader_loop _ _ _ _ _ _ _) as [e' [[r i]|err]]; simpl in Hs; [tauto|by right].
Qed.

(** A command is sent only to a replica that claims leadership inside the side
    of the network that holds a quorum; it is refused at once when no side
    does, and otherwise only for want of a leader. *)
Theorem leader_for_sound s e :
  match leaderFor cfg s e with
  | (_, inl (r, i)) =>
      r ∈ (majority_of s e).1 /\ (majority_of s e).2 = true /\ claims_leadership i = true
  | (e', inr err) =>
      ((exists text, err = ENoQuorum s text) /\ (majority_of s e).2 = false /\ e' = e) \/
      ((exists text, err = ENoLeader s text) /\ (majority_of s e).2 = true)
  end.
Proof. apply leaderFor_spec. Qed.
End Leaders.

(** ** Counting acknowledgements *)

Lemma take_digits_slash a d : (take_digits (a +:+ String "/" d)).2 <> EmptyString.
Proof.
  induction a as [|c a IH]; [done|]. rewrite str_app_cons. simpl.
  destruct (is_digit c); [|done]. by destruct (take_digits (a +:+ String "/" d)).
Qed.

Lemma fmt_N_inj n n' : fmt_N n = fmt_N n' -> n = n'.
Proof. intros Heq. pose proof (parse_fmt_N n) as Hn. rewrite Heq, parse_fmt_N in Hn. by injection Hn. Qed.

(** The key of a count names one replica and one slot. *)
Lemma ackKey_inj a b n n' : ackKey a n = ackKey b n' -> a = b /\ n = n'.
Proof.
  unfold ackKey. rewrite !str_app_cons, !str_app_nil_l. revert b.
  induction a as [|c a IH]; intros [|c' b]; rewrite ?str_app_nil_l, ?str_app_cons.
  - intros [= Heq]. by apply fmt_N_inj in Heq.
  - intros [= _ Heq]. exfalso. apply (take_digits_slash b (fmt_N n')). by rewrite <- Heq, fmt_N_digits.
  - intros [= _ Heq]. exfalso. apply (take_digits_slash a (fmt_N n)). by rewrite Heq, fmt_N_digits.
  - intros [= -> Heq]. by destruct (IH b Heq) as [-> ->].
Qed.

Section Acks.
Context {W : Type} `{Replicas W}.
Implicit Types (e : Engine W).

(** A trace that shows a replica accepting [node]'s proposal for [slot]. *)
Definition is_ack (node : string) (slot : N) (t : Trace) : Prop :=
  mKind (tReq t) = KindAccept /\ tErr t = "" /\ mOK (tReply t) = true /\ tFrom t = node /\ mSlot (tReq t) = slot.

Lemma emitEvent_acks ev e : eAcks (emitEvent ev e).1 = eAcks e.
Proof. unfold emitEvent, to_sink. by destruct (eSink e). Qed.

Lemma onTrace_acks t e :
  size (eAcks e) <= 4096 ->
  eAcks (onTrace t e).1 =
    if decide (is_ack (tFrom t) (mSlot (tReq t)) t)
    then (let k := ackKey (tFrom t) (mSlot (tReq t)) in
          <[k := (default 0 (eAcks e !! k) + 1)%Z]> (eAcks e))
    else eAcks e.
Proof.
  intros Hsz. unfold onTrace, is_ack.
  destruct (mKind (tReq t)) eqn:Ek; try (rewrite decide_False by naive_solver; done).
  - rewrite decide_False by naive_solver. destruct (negb _); [apply emitEvent_acks|].
    rewrite bind_run. destruct (mOK (tReply t)); by rewrite !emitEvent_acks.
  - destruct (String.eqb_spec (tErr t) "") as [He|He]; cbn [negb].
    2: { rewrite decide_False by naive_solver. apply emitEvent_acks. }
    rewrite bind_run. destruct (mOK (tReply t)) eqn:Eo.
    2: { rewrite decide_False by naive_solver. by rewrite !emitEvent_acks. }
    rewrite decide_True by done. rewrite bind_get, emitEvent_acks.
    rewrite (proj2 (Nat.ltb_ge _ _) Hsz), bind_run, emitEvent_acks. done.
Qed.

Lemma for_each_cons {A} (f : A -> EM W unit) x l e : for_each f (x :: l) e = for_each f l (f x e).1.
Proof. simpl. by rewrite bind_run. Qed.

Lemma traces_counted node slot traces e :
  size (eAcks e) + length traces <= 4096 ->
  default 0%Z (eAcks (for_each onTrace traces e).1 !! ackKey node slot) =
  (default 0 (eAcks e !! ackKey node slot) + Z.of_nat (length (filter (is_ack node slot) traces)))%Z.
Proof.
  revert e. induction traces as [|t traces IH]; intros e Hsz; [simpl; lia|].
  rewrite for_each_cons. simpl in Hsz. pose proof (onTrace_acks t e ltac:(lia)) as Ht.
  rewrite IH, Ht, filter_cons.
  2: { rewrite Ht. case_decide; [|lia]. cbv zeta. rewrite map_size_insert. destruct (eAcks e !! _); simpl; lia. }
  destruct (decide (is_ack node slot t)) as [Ha|Hna].
  - pose proof Ha as (? & ? & ? & <- & <-). rewrite decide_True by (unfold is_ack; tauto).
    cbv zeta. rewrite lookup_insert_eq. simpl. lia.
  - case_decide as Hd; [|done]. cbv zeta. rewrite lookup_insert_ne; [done|].
    intros [<- <-]%ackKey_inj. done.
Qed.

(** The count reported with a commit is the number of ACCEPTED replies seen for
    that leader and slot, and reading it forgets it. *)
Theorem acks_counted node slot traces e :
  size (eAcks e) + length traces <= 4096 -> eAcks e !! ackKey node slot = None ->
  let e1 := (for_each onTrace traces e).1 in
  (takeAcks node slot e1).2 = Z.of_nat (length (filter (is_ack node slot) traces)) /\
  eAcks (takeAcks node slot e1).1 !! ackKey node slot = None.
Proof.
  intros Hsz Hn e1. unfold takeAcks. rewrite bind_get, bind_run. simpl. split; [|apply lookup_delete_eq].
  unfold e1. rewrite traces_counted by done. by rewrite Hn.
Qed.
End Acks.

(** ** Status *)

Section StatusSpec.
Context (cfg : ClusterConfig) (f : Faults).

Definition up (i : NodeInfo) : Prop := Dead f (iID i) = false.
#[export] Instance up_dec i : Decision (up i).
Proof. unfold up. apply _. Defined.

(** What the scan has found in the [seen] views. *)
Definition scanned (seen : list NodeInfo) (acc : nat * N * option NodeInfo) : Prop :=
  acc.1.1 = length (filter up seen) /\
  (forall i, i ∈ seen -> up i -> (Num (iBallot i) <= acc.1.2)%N) /\
  match acc.2 with
  | None => forall i, i ∈ seen -> ~ up i
  | Some src => src ∈ seen /\ up src /\ forall i, i ∈ seen -> up i -> (iApplied i <= iApplied src)%N
  end.

Lemma scan_view_step seen acc i : scanned seen acc -> scanned (seen ++ [i]) (scan_view f acc i).
Proof.
  destruct acc as [[n term] source]. unfold scanned. simpl. intros (-> & Hterm & Hsrc).
  rewrite filter_app, length_app, filter_cons.
  destruct (decide (up i)) as [Hd|Hd].
  - pose proof Hd as Hd'. unfold up in Hd'. rewrite Hd'. simpl. split_and!; [lia| |].
    + intros j [Hj| ->]%elem_of_snoc Hu; [specialize (Hterm j Hj Hu)|];
        destruct (N.ltb_spec term (Num (iBallot i))); lia.
    + destruct source as [src|]; [destruct (N.ltb_spec (iApplied src) (iApplied i))|];
        (split_and!; [apply elem_of_snoc; naive_solver|naive_solver|]);
        intros j [Hj| ->]%elem_of_snoc Hu; try lia; try naive_solver.
      destruct Hsrc as (_ & _ & Hmax). specialize (Hmax j Hj Hu). lia.
  - pose proof (not_false_is_true _ Hd) as Hd'. rewrite Hd'. simpl. split_and!; [lia| |].
    + intros j [?| ->]%elem_of_snoc Hu; [auto|done].
    + destruct source as [src|].
      * destruct Hsrc as (? & ? & Hmax). split_and!; [apply elem_of_snoc; auto|done|].
        intros j [?| ->]%elem_of_snoc Hu; [auto|done].
      * intros j [?| ->]%elem_of_snoc Hu; [by eapply Hsrc|done].
Qed.

Lemma scan_views views seen acc :
  scanned seen acc -> scanned (seen ++ views) (fold_left (scan_view f) views acc).
Proof.
  revert seen acc. induction views as [|i views IH]; intros seen acc Hs; simpl; [by rewrite app_nil_r|].
  replace (seen ++ i :: views) with ((seen ++ [i]) ++ views) by by rewrite <- app_assoc.
  by apply IH, scan_view_step.
Qed.

Lemma find_leader l views src :
  let out := fold_left (fun src i => if String.eqb (iID i) l then Some i else src) views src in
  (exists i, out = Some i /\ i ∈ views /\ iID i = l) \/ (out = src /\ forall i, i ∈ views -> iID i <> l).
Proof.
  revert src. induction views as [|i views IH]; intros src; simpl.
  { right. split; [done|]. intros i Hi. by apply not_elem_of_nil in Hi. }
  destruct (IH (if String.eqb (iID i) l then Some i else src)) as [(j & ? & ? & ?)|[-> Hno]].
  { left. exists j. split_and!; [done|by right|done]. }
  destruct (String.eqb_spec (iID i) l) as [Heq|Hne].
  - left. exists i. split_and!; [done|by left|done].
  - right. split; [done|]. intros j [->|?]%elem_of_cons; auto.
Qed.

Definition accounts_of (s : Z) (stale : bool) (src : NodeInfo) : list AccountStatus :=
  (fun a => mkAccountStatus (aKey a) s (aBalance a) (aLockedBy a) stale) <$> iAccounts src.

(** The operator's summary of a shard counts the live replicas and takes the
    balances, never of a dead replica and never mixed from two: from the leader
    when there is one, else, marked stale, from a live replica that has applied
    at least as much as every other. *)
Theorem status_of_shard s views leader :
  let '(ss, accts) := shard_status cfg f s views leader in
  ssAlive ss = length (filter up views) /\
  match leader with
  | Some (l, li) =>
      ssLeader ss = l /\ ssTerm ss = Num (iBallot li) /\
      ((exists i, i ∈ views /\ iID i = l) ->
       exists src, src ∈ views /\ iID src = l /\ accts = accounts_of s false src)
  | None =>
      ssLeader ss = "" /\ (forall i, i ∈ views -> up i -> (Num (iBallot i) <= ssTerm ss)%N) /\
      ((accts = [] /\ forall i, i ∈ views -> ~ up i) \/
       exists src, src ∈ views /\ up src /\ accts = accounts_of s true src /\
         forall i, i ∈ views -> up i -> (iApplied i <= iApplied src)%N)
  end.
Proof.
  unfold shard_status. pose proof (scan_views views [] (0, 0%N, None)) as Hs. simpl in Hs.
  destruct (fold_left (scan_view f) views (0, 0%N, None)) as [[n term] source].
  destruct Hs as (Hn & Hterm & Hsrc).
  { unfold scanned; simpl. split_and!; [done|intros i Hi; by apply not_elem_of_nil in Hi..]. }
  simpl in *. split; [done|]. destruct leader as [[l li]|].
  - split_and!; [done|done|]. intros (i & Hi & Hl).
    destruct (find_leader l views source) as [(j & -> & Hj & Hjl)|[_ Hno]]; [|by destruct (Hno i Hi)].
    exists j. split_and!; [done|done|]. unfold accounts_of. by rewrite bool_decide_false.
  - split_and!; [done|done|]. destruct source as [src|]; [right|by left].
    destruct Hsrc as (? & ? & ?). exists src. split_and!; [done|done| |done].
    unfold accounts_of. by rewrite bool_decide_true.
Qed.
End StatusSpec.
