(* ===== verification/EngineLedger.v ===== *)
(** * The engine over its shards' ledgers

    Operations seen from the operator: what PUT and GET do to the balances.
    What a shard's log does with proposals is the interface [LedgerReplicas].  A
    proposal that is answered has been applied once to the shard's machine and
    its result is the machine's.  One that is not answered is pending: it may be
    applied by any later step, or never.  Nothing else moves the machine.
    The module at the end is a cluster that keeps the interface and in which
    proposals do go unanswered and land later. *)

From S2P Require Import Prelude GoText PaxosTypes PaxosNode Ledger TwoPC Faults Transport Cluster Engine EngineProofs.

(** A result of the machine, with the slot the log gave it. *)
Definition same_result (a b : Result) : Prop := rCode a = rCode b /\ rMsg a = rMsg b /\ rValue a = rValue b.

Lemma run_cmds_app l1 l2 m : run_cmds (l1 ++ l2) m = run_cmds l2 (run_cmds l1 m).
Proof. apply fold_left_app. Qed.

(** Per shard: the machine at the end of the log, and the proposals, of commands
    or of the coordinator's retries, that nobody was answered about; and the
    commands that the log's encoding carries unchanged. *)
Class Ledgers (W : Type) := {
  w_machine : W -> Z -> Machine;
  w_pending : W -> Z -> list Command;
  w_carries : Command -> Prop;
}.

(** Some of [extra] and of what was pending has been applied. *)
Definition drifts {W} `{Ledgers W} (extra : list Command) (s : Z) (w w' : W) : Prop :=
  w_pending w' s ⊆ extra ++ w_pending w s /\
  exists late, late ⊆ extra ++ w_pending w s /\ w_machine w' s = run_cmds late (w_machine w s).

Lemma drifts_refl {W} `{Ledgers W} s (w : W) : drifts [] s w w.
Proof. split; [done|]. exists []. split; [apply list_subseteq_nil|done]. Qed.

(** The command has been applied, once, among what was pending. *)
Definition applied {W} `{Ledgers W} (c : Command) (res : Result) (s : Z) (w w' : W) : Prop :=
  w_pending w' s ⊆ w_pending w s /\
  exists before after, before ⊆ w_pending w s /\ after ⊆ w_pending w s /\
    let m := run_cmds before (w_machine w s) in
    w_machine w' s = run_cmds after (applyLocked c m).1 /\ same_result res (applyLocked c m).2.

Class LedgerReplicas (W : Type) `{Replicas W, Ledgers W} := {
  lr_info r f w s : drifts [] s w (r_info r f w).1.1;
  lr_campaign r f w s : drifts [] s w (r_campaign r f w).1.1;
  lr_sleep f w s : drifts [] s w (r_sleep f w).1.1;
  lr_push p st f w s : r_push = Some p -> drifts [] s w (p st f w).1.1;
  lr_drain d f w s : r_drain = Some d -> drifts [] s w (d f w).1.1;
  lr_answered r s i c f w res : ParseNode r = Some (s, i) -> w_carries c -> (r_propose r c f w).2 = inl res ->
    applied c res s w (r_propose r c f w).1.1;
  lr_unanswered r s i c f w e : ParseNode r = Some (s, i) -> w_carries c -> (r_propose r c f w).2 = inr e ->
    drifts [c] s w (r_propose r c f w).1.1;
  lr_elsewhere r s i s' c f w : ParseNode r = Some (s, i) -> s' <> s -> drifts [] s' w (r_propose r c f w).1.1;
}.

Section EngineLedger.
Context {W : Type} `{LR : LedgerReplicas W} (cfg : ClusterConfig) (Hcfg : Validate cfg = None).
Implicit Types (e : Engine W).

Definition machine e (s : Z) : Machine := w_machine (eWorld e) s.
Definition pending e (s : Z) : list Command := w_pending (eWorld e) s.

(** No new proposal: only what was pending can have been applied. *)
Definition idle : relation (Engine W) := fun e e' => forall s, drifts [] s (eWorld e) (eWorld e').

Lemma drifts_trans extra s (w1 w2 w3 : W) : drifts extra s w1 w2 -> drifts [] s w2 w3 -> drifts extra s w1 w3.
Proof.
  intros (P1 & l1 & S1 & M1) (P2 & l2 & S2 & M2). split; [exact (transitivity P2 P1)|].
  exists (l1 ++ l2). split; [|by rewrite run_cmds_app, <- M1].
  apply list_subseteq_app_iff_l. split; [done|exact (transitivity S2 P1)].
Qed.

#[export] Instance idle_pre : PreOrder idle.
Proof. split; [intros e s; apply drifts_refl|]. intros x y z H1 H2 s. by eapply drifts_trans. Qed.

#[export] Instance idle_frame : Frame idle.
Proof.
  split; try apply _; try (intros; intros ?; intros ?; apply drifts_refl); intros; try intros e; intros s.
  - unfold to_sink. destruct (eSink e); apply drifts_refl.
  - apply lr_info.
  - apply lr_campaign.
  - apply lr_sleep.
  - by apply lr_push.
  - by apply lr_drain.
Qed.

(** Steps around the application of a command. *)
Lemma applied_idle c res s (w w1 w2 w3 : W) :
  drifts [] s w w1 -> applied c res s w1 w2 -> drifts [] s w2 w3 -> applied c res s w w3.
Proof.
  intros (P1 & l1 & S1 & M1) (P2 & b & a & Sb & Sa & M2 & R) (P3 & l3 & S3 & M3). simpl in *.
  split; [exact (transitivity P3 (transitivity P2 P1))|]. exists (l1 ++ b), (a ++ l3).
  split_and!; [apply list_subseteq_app_iff_l; split..|].
  - exact S1.
  - exact (transitivity Sb P1).
  - exact (transitivity Sa P1).
  - exact (transitivity S3 (transitivity P2 P1)).
  - simpl. rewrite !run_cmds_app, <- M1. split; [by rewrite <- M2|done].
Qed.

Lemma shard_ids_parse s r : r ∈ shard_ids cfg s -> (0 <= s < Shards cfg)%Z -> exists i, ParseNode r = Some (s, i).
Proof.
  unfold shard_ids. intros (k & -> & Hk)%list_elem_of_fmap Hs. exists (Z.of_nat k).
  apply elem_of_seq in Hk. revert Hcfg. unfold Validate.
  destruct ((_ || _)%bool) eqn:E1; [done|]. destruct ((NodesPerShard cfg <? 1)%Z || _) eqn:E2; [done|]. intros _.
  apply orb_false_iff in E1 as [? ?], E2 as [? ?]. apply ParseNode_NodeName; unfold int64_max; lia.
Qed.

Lemma majority_of_sub s e r : r ∈ (majority_of cfg s e).1 -> r ∈ shard_ids cfg s.
Proof.
  unfold majority_of, majorityGroup, majorityGroup_in. cbn [fst]. set (canon := _.*2).
  destruct (fold_pick canon []) as [Hin _]. intros Hr.
  apply elem_of_cons in Hin as [Hin|Hin]; [rewrite Hin in Hr; by apply not_elem_of_nil in Hr|].
  apply live_groups_values in Hin as (g & Hg & _). rewrite Hg in Hr. by apply list_elem_of_filter in Hr as [_ ?].
Qed.

(** Only the proposal itself can apply the command; a pending one may be applied
    at any step. *)
Lemma drifts_weaken extra s (w w' : W) : drifts [] s w w' -> drifts extra s w w'.
Proof.
  intros (P & late & S & M). split; [intros x Hx; apply elem_of_app; right; by apply P|].
  exists late. split; [|done]. intros x Hx. apply elem_of_app. right. by apply S.
Qed.

Lemma drifts_before extra s (w1 w2 w3 : W) : drifts [] s w1 w2 -> drifts extra s w2 w3 -> drifts extra s w1 w3.
Proof.
  intros (P1 & l1 & S1 & M1) (P2 & l2 & S2 & M2). simpl in *.
  assert (extra ++ w_pending w2 s ⊆ extra ++ w_pending w1 s) as Hsub.
  { intros x. rewrite !elem_of_app. intros [?|?]; [by left|right; by apply P1]. }
  split; [exact (transitivity P2 Hsub)|]. exists (l1 ++ l2). split; [|by rewrite run_cmds_app, <- M1].
  apply list_subseteq_app_iff_l. split; [|exact (transitivity S2 Hsub)].
  intros x Hx. apply elem_of_app. right. by apply S1.
Qed.

(** What follows the answer of a replica in [propose]. *)
Lemma propose_run s c e :
  (exists e1 err, idle e e1 /\ propose cfg s c e = (e1, inr err)) \/
  exists e2 r, idle e e2 /\ r ∈ shard_ids cfg s /\
    let out := r_propose r c (eFaults e2) (eWorld e2) in
    (forall s', drifts [] s' out.1.1 (eWorld (propose cfg s c e).1)) /\
    match out.2 with
    | inl res => (propose cfg s c e).2 = inl res
    | inr _ => exists err, (propose cfg s c e).2 = inr err
    end.
Proof.
  unfold propose. rewrite bind_run. pose proof (leaderFor_spec cfg s e) as Hl.
  pose proof (keeps_leaderFor idle cfg s e) as Hk.
  destruct (leaderFor cfg s e) as [e1 [[r i]|err]]; cbn [fst snd] in *; [right|left; eauto]. destruct Hl as (Hr & _).
  apply majority_of_sub in Hr. rewrite bind_run. pose proof (keeps_emit idle LPaxos (ShardTag s)) as Hemit.
  match goal with |- context [emit LPaxos (ShardTag s) ?m e1] => pose proof (Hemit m e1) as Hk1; set (e1' := (emit LPaxos (ShardTag s) m e1).1) in * end.
  rewrite bind_run.
  match goal with |- context [emit LPaxos (ShardTag s) ?m e1'] => pose proof (Hemit m e1') as Hk2; set (e2 := (emit LPaxos (ShardTag s) m e1').1) in * end.
  exists e2, r. split; [exact (transitivity Hk (transitivity Hk1 Hk2))|]. split; [done|]. cbn zeta.
  rewrite bind_run. destruct (run_ecall idle (r_propose r c) e2) as [Hres Hw].
  set (e3 := (run (r_propose r c) e2).1) in *. rewrite Hres.
  set (out := r_propose r c (eFaults e2) (eWorld e2)) in *. rewrite bind_run. split.
  - intros s'. eapply drifts_trans; [exact (Hw s')|]. eapply drifts_trans; [exact (keeps_collectTraces idle e3 s')|].
    match goal with |- drifts _ _ _ (eWorld (?k (collectTraces e3).1).1) =>
      assert (keeps idle k) as Hend by (destruct out.2 as [res|[]]; frame); exact (Hend _ s') end.
  - destruct out.2 as [res|[]]; rewrite ?bind_run; simpl; eauto.
Qed.

(** A command that the engine reports done was applied once to the machine of
    its shard; one that it reports failed may be applied later; other shards
    get no proposal. *)
Lemma propose_steps s c e :
  (0 <= s < Shards cfg)%Z -> w_carries c ->
  match (propose cfg s c e).2 with
  | inl res => applied c res s (eWorld e) (eWorld (propose cfg s c e).1)
  | inr _ => drifts [c] s (eWorld e) (eWorld (propose cfg s c e).1)
  end /\
  forall s', s' <> s -> drifts [] s' (eWorld e) (eWorld (propose cfg s c e).1).
Proof.
  intros Hs Hcar. destruct (propose_run s c e) as [(e1 & err & Hi & ->)|(e2 & r & Hi & Hr & Hrun)]; cbn [fst snd].
  { split; [by apply drifts_weaken|done]. }
  destruct (shard_ids_parse s r Hr Hs) as [j Hp]. destruct Hrun as [Hafter Hout]. split.
  - destruct (r_propose r c (eFaults e2) (eWorld e2)).2 as [res|perr] eqn:Hans.
    + rewrite Hout. pose proof (lr_answered r s j c _ _ res Hp Hcar Hans) as Hm. by eapply applied_idle.
    + destruct Hout as [err ->]. pose proof (lr_unanswered r s j c _ _ perr Hp Hcar Hans) as Hm.
      eapply drifts_before; [exact (Hi s)|]. by eapply drifts_trans.
  - intros s' Hne. pose proof (lr_elsewhere r s j s' c (eFaults e2) (eWorld e2) Hp Hne) as Hm.
    eapply drifts_trans; [exact (Hi s')|]. by eapply drifts_trans.
Qed.

Lemma propose_applies s c e res :
  (0 <= s < Shards cfg)%Z -> w_carries c -> (propose cfg s c e).2 = inl res ->
  applied c res s (eWorld e) (eWorld (propose cfg s c e).1).
Proof. intros Hs Hc Hres. destruct (propose_steps s c e Hs Hc) as [Hm _]. by rewrite Hres in Hm. Qed.

Lemma command_idle c : keeps idle (run_command cfg c).
Proof.
  assert (forall f, keeps idle (set_faults f)) by (intros f e s; apply drifts_refl).
  destruct c; simpl; unfold eng_Kill, eng_Revive, eng_Partition, eng_Heal; frame.
Qed.

Lemma commands_idle cmds e : idle e (fold_left (fun e c => (run_command cfg c e).1) cmds e).
Proof.
  revert e. induction cmds as [|c cmds IH]; intros e; simpl; [done|].
  etransitivity; [apply (command_idle c)|apply IH].
Qed.

(** A command that leaves one balance alone. *)
Definition spares (key : string) (c : Command) : Prop :=
  forall m, balances (applyLocked c m).1 !! key = balances m !! key.

Lemma run_cmds_spares key cs late m :
  Forall (spares key) cs -> late ⊆ cs -> balances (run_cmds late m) !! key = balances m !! key.
Proof.
  intros Hcs. rewrite Forall_forall in Hcs. revert m. induction late as [|c late IH]; intros m Hl; [done|].
  simpl. rewrite IH by (intros x Hx; apply Hl; by right). apply Hcs, Hl. by left.
Qed.

Lemma drifts_spares key s (w w' : W) :
  Forall (spares key) (w_pending w s) -> drifts [] s w w' ->
  Forall (spares key) (w_pending w' s) /\ balances (w_machine w' s) !! key = balances (w_machine w s) !! key.
Proof.
  intros Hp (P & late & S & ->). simpl in *. split; [|by eapply run_cmds_spares].
  rewrite Forall_forall in *. intros c Hc. by apply Hp, P.
Qed.

Lemma put_applied key v m :
  Err (applyLocked (mkCommand OpPut key "" v "") m).2 = None ->
  balances (applyLocked (mkCommand OpPut key "" v "") m).1 !! key = Some v.
Proof.
  unfold applyLocked, putLocked. simpl. repeat (goal_match; simpl; try done). intros _. apply lookup_insert_eq.
Qed.

Lemma get_reads key m v :
  balances m !! key = Some v ->
  Err (applyLocked (mkCommand OpGet key "" 0 "") m).2 = None /\
  rValue (applyLocked (mkCommand OpGet key "" 0 "") m).2 = v.
Proof. intros Hb. unfold applyLocked, getLocked. simpl. by rewrite Hb. Qed.

Lemma same_result_Err a b : same_result a b -> Err a = Err b.
Proof. unfold same_result, Err. intros (-> & -> & _). done. Qed.

Lemma propose_error s c e err : (propose cfg s c e).2 = inr err -> forall le, err <> ELedger le.
Proof.
  unfold propose. rewrite bind_run. pose proof (leaderFor_spec cfg s e) as Hl.
  destruct (leaderFor cfg s e) as [e1 [[r i]|err1]]; cbn [fst snd].
  - rewrite !bind_run. destruct (run (r_propose r c) _).2 as [res|[]]; rewrite ?bind_run; intros [= <-]; done.
  - intros [= <-]. by destruct Hl as [([? ->] & _)|([? ->] & _)].
Qed.

(** After an acknowledged PUT the balance is the value put, whatever unrelated
    proposals landed around it. *)
Lemma put_done key v e :
  let s := ShardFor key (Shards cfg) in
  w_carries (mkCommand OpPut key "" v "") -> Forall (spares key) (pending e s) -> (Put cfg key v e).2 = None ->
  Forall (spares key) (pending (Put cfg key v e).1 s) /\
  balances (machine (Put cfg key v e).1 s) !! key = Some v.
Proof.
  intros s Hcar Hsp. pose proof (ShardFor_range key cfg Hcfg) as Hs. fold s in Hs.
  unfold Put, fmap, EM_fmap. fold s. set (c := mkCommand OpPut key "" v "").
  pose proof (propose_applies s c e) as Hp. destruct (propose cfg s c e) as [e' [res|err]]; [|done].
  cbn [fst snd] in *. destruct (Hp res Hs Hcar eq_refl) as (P & before & after & Sb & Sa & Hm & Hr).
  simpl. intros Herr. split; [rewrite Forall_forall in *; intros x Hx; by apply Hsp, P|].
  unfold machine. rewrite Hm, (run_cmds_spares key _ _ _ Hsp Sa). apply put_applied. fold c.
  rewrite <- (same_result_Err _ _ Hr). by destruct (Err res).
Qed.

(** An acknowledged PUT survives any sequence of kills, revivals, partitions
    and heals: the next GET that is answered reads the value put, and is never
    told that the account does not exist.  What may change the balance
    meanwhile is a proposal that was never answered, so none may be about the
    account; such proposals about others may land at any point. *)
Theorem put_survives_faults key v cmds e :
  w_carries (mkCommand OpPut key "" v "") -> w_carries (mkCommand OpGet key "" 0 "") ->
  Forall (spares key) (pending e (ShardFor key (Shards cfg))) ->
  (Put cfg key v e).2 = None ->
  let e1 := fold_left (fun e c => (run_command cfg c e).1) cmds (Put cfg key v e).1 in
  match (eng_Get cfg key e1).2 with
  | inl x => x = v
  | inr err => forall le, err <> ELedger le
  end.
Proof.
  intros Hcp Hcg Hsp Hput e1. pose proof (ShardFor_range key cfg Hcfg) as Hs. set (s := ShardFor key (Shards cfg)) in *.
  assert (Forall (spares key) (pending e1 s) /\ balances (machine e1 s) !! key = Some v) as [Hsp1 Hb].
  { unfold e1. pose proof (put_done key v e Hcp Hsp Hput) as [Hsp' Hb]. fold s in Hsp', Hb.
    destruct (drifts_spares key s _ _ Hsp' (commands_idle cmds (Put cfg key v e).1 s)) as [? Heq].
    split; [done|]. unfold machine. by rewrite Heq. }
  clearbody e1. clear Hput. unfold eng_Get. fold s. rewrite bind_run.
  set (c := mkCommand OpGet key "" 0 ""). pose proof (propose_applies s c e1) as Hp.
  pose proof (propose_error s c e1) as He. destruct (propose cfg s c e1) as [e2 [res|err]]; cbn [fst snd] in *.
  - destruct (Hp res Hs Hcg eq_refl) as (_ & before & _ & Hbf & _ & _ & Hr).
    assert (balances (run_cmds before (w_machine (eWorld e1) s)) !! key = Some v) as Hb'
      by by rewrite (run_cmds_spares key _ _ _ Hsp1 Hbf).
    destruct (get_reads key _ v Hb') as [Hok Hval]. fold c in Hok, Hval.
    rewrite (same_result_Err _ _ Hr), Hok, bind_run. destruct Hr as (_ & _ & ->). exact Hval.
  - exact (He err eq_refl).
Qed.
End EngineLedger.

(** ** A cluster that keeps the interfaces *)

Module Lab.
(** A clock, the shards' machines, their last slot and leaders; the next [loss]
    proposals go unanswered, and land when a replica of the shard campaigns. *)
Record Lab := mkLab {
  clock : Z; machines : gmap Z Machine; slot : N; leads : gmap Z Z; loss : nat; stuck : gmap Z (list Command) }.

Definition lab_machine (w : Lab) (s : Z) : Machine := default (New 256) (machines w !! s).
Definition lab_stuck (w : Lab) (s : Z) : list Command := default [] (stuck w !! s).

Definition lab_info (r : string) (w : Lab) : option NodeInfo :=
  match ParseNode r with
  | None => None
  | Some (s, i) =>
      let l := default 0%Z (leads w !! s) in
      Some (mkNodeInfo r (RoleString (if (i =? l)%Z then Leader else Follower)) (mkBallot 1 (NodeName s l))
              (slot w) (Snapshot (lab_machine w s)) [])
  end.

Definition ack (from to : string) (sl : N) : Trace :=
  let req := mkMessage KindAccept from (mkBallot 1 from) false sl "" [] 0 in
  mkTrace from to req (mkMessage KindAccepted to (mkBallot 1 from) true sl "" [] 0) "".

Definition lab_campaign (r : string) (w : Lab) : Lab :=
  match ParseNode r with
  | None => w
  | Some (s, i) =>
      mkLab (clock w) (<[s := run_cmds (lab_stuck w s) (lab_machine w s)]> (machines w)) (slot w)
        (<[s := i]> (leads w)) (loss w) (<[s := []]> (stuck w))
  end.

Definition lab_propose (r : string) (c : Command) (w : Lab) : Lab * list Trace * (Result + ProposeFailure) :=
  match ParseNode r with
  | None => (w, [], inr PNotLeader)
  | Some (s, i) =>
      match loss w with
      | S n => (mkLab (clock w) (machines w) (slot w) (leads w) n (<[s := c :: lab_stuck w s]> (stuck w)), [], inr PNoQuorum)
      | O =>
          let '(m, res) := applyLocked c (lab_machine w s) in
          let sl := (slot w + 1)%N in
          (mkLab (clock w) (<[s := m]> (machines w)) sl (leads w) 0 (stuck w),
           [ack r (NodeName s 1) sl; ack r (NodeName s 2) sl],
           inl (mkResult (rCode res) (rMsg res) (rValue res) sl))
      end
  end.

#[export] Instance lab_replicas : Replicas Lab := {|
  r_info r := fun _ w => (w, [], lab_info r w);
  r_campaign r := fun _ w => (lab_campaign r w, [], tt);
  r_propose r c := fun _ w => lab_propose r c w;
  r_sleep := fun _ w => (mkLab (clock w + pollEvery) (machines w) (slot w) (leads w) (loss w) (stuck w), [], tt);
  r_push := None;
  r_drain := None;
  w_now := clock;
  w_done := fun _ => false;
|}.

#[export] Instance lab_laws : ReplicasLaws Lab.
Proof.
  split; try (intros; intros ? ?; simpl; lia); try done; intros; intros f w; simpl.
  - unfold lab_campaign. destruct (ParseNode r) as [[s i]|]; simpl; lia.
  - unfold lab_propose. destruct (ParseNode r) as [[s i]|]; simpl; [|lia].
    destruct (loss w); [destruct (applyLocked c (lab_machine w s))|]; simpl; lia.
Qed.

#[export] Instance lab_ledgers : Ledgers Lab := {| w_machine := lab_machine; w_pending := lab_stuck; w_carries := fun _ => True |}.

Lemma lab_campaign_drifts r w s : drifts [] s w (lab_campaign r w).
Proof.
  unfold lab_campaign. destruct (ParseNode r) as [[s' i]|]; [|apply drifts_refl].
  unfold drifts, lab_stuck, lab_machine. simpl. unfold lab_stuck, lab_machine. simpl.
  destruct (decide (s = s')) as [->|Hne].
  - rewrite !lookup_insert_eq. split; [apply list_subseteq_nil|]. eexists. by split; [|simpl].
  - rewrite !lookup_insert_ne by done. split; [done|]. exists []. split; [apply list_subseteq_nil|done].
Qed.

Lemma lab_answered r s i c w res :
  ParseNode r = Some (s, i) -> (lab_propose r c w).2 = inl res -> applied c res s w (lab_propose r c w).1.1.
Proof.
  intros Hp. unfold lab_propose. rewrite Hp. destruct (loss w); [|done].
  destruct (applyLocked c (lab_machine w s)) as [m r0] eqn:Ea. simpl. intros [= <-].
  split; [done|]. exists [], []. split_and!; try apply list_subseteq_nil. simpl. rewrite Ea.
  unfold lab_machine. simpl. by rewrite lookup_insert_eq.
Qed.

Lemma lab_unanswered r s i c w e :
  ParseNode r = Some (s, i) -> (lab_propose r c w).2 = inr e -> drifts [c] s w (lab_propose r c w).1.1.
Proof.
  intros Hp. unfold lab_propose. rewrite Hp. destruct (loss w).
  - by destruct (applyLocked c (lab_machine w s)).
  - intros _. unfold drifts, lab_stuck. simpl. unfold lab_stuck. simpl. rewrite lookup_insert_eq.
    split; [done|]. exists []. split; [apply list_subseteq_nil|done].
Qed.

Lemma lab_elsewhere r s i s' c w : ParseNode r = Some (s, i) -> s' <> s -> drifts [] s' w (lab_propose r c w).1.1.
Proof.
  intros Hp Hne. unfold lab_propose. rewrite Hp. destruct (loss w); [destruct (applyLocked c (lab_machine w s))|];
    unfold drifts, lab_stuck, lab_machine; simpl; unfold lab_stuck, lab_machine; simpl;
    rewrite ?lookup_insert_ne by done; (split; [done|]); exists []; by split; [apply list_subseteq_nil|].
Qed.

#[export] Instance lab_ledger_replicas : LedgerReplicas Lab.
Proof.
  split; simpl; intros; try done; first
    [ by eapply lab_elsewhere | apply drifts_refl | exact (drifts_refl s w) | apply lab_campaign_drifts | by eapply lab_answered | by eapply lab_unanswered ].
Qed.

Definition cfg3 : ClusterConfig := mkClusterConfig 3 3 256 DefaultTiming.
Definition lab_of (n : nat) : Engine Lab := start cfg3 (mkLab 0 ∅ 0 ∅ n ∅).
Definition lab0 : Engine Lab := lab_of 0.

(** A session: PUT, kill the leader of another shard, GET. *)
Definition tushar_shard : Z := ShardFor "tushar" 3.

Definition outage : list fault_command :=
  [CmdKill "s0n1"; CmdPartition [["s0n0"; "s0n2"]]; CmdHeal; CmdRevive "s0n1"].

(** The PUT is the second of two: the first one was never answered. *)
Lemma put_survives_faults_witness :
  let e := (eng_Get cfg3 "tushar" (lab_of 1)).1 in
  pending e tushar_shard <> [] /\
  match (eng_Get cfg3 "tushar" (fold_left (fun e c => (run_command cfg3 c e).1) outage (Put cfg3 "tushar" 100 e).1)).2 with
  | inl x => x = 100%Z
  | inr err => forall le, err <> ELedger le
  end.
Proof.
  intros e. assert (pending e tushar_shard = [mkCommand OpGet "tushar" "" 0 ""]) as Hp by (vm_compute; reflexivity).
  assert ((Put cfg3 "tushar" 100 e).2 = None) as Hput by (vm_compute; reflexivity).
  clearbody e. split; [by rewrite Hp|]. refine (put_survives_faults cfg3 eq_refl "tushar" 100 outage e Logic.I Logic.I _ Hput).
  change (ShardFor "tushar" (Shards cfg3)) with tushar_shard. rewrite Hp. repeat constructor. intros m.
  unfold applyLocked, getLocked. simpl. by case_match.
Defined.

(** The GET of that session is answered. *)
Example put_get_answered :
  (eng_Get cfg3 "tushar" (fold_left (fun e c => (run_command cfg3 c e).1) outage (Put cfg3 "tushar" 100 lab0).1)).2 =
  inl 100%Z.
Proof. vm_compute. reflexivity. Qed.

(** A PUT that is refused for want of a quorum can land: the next election of its
    shard takes it over, and a GET reads it. *)
Example refused_put_lands :
  let leader := NodeName tushar_shard 0 in
  let '(e1, r1) := Put cfg3 "tushar" 7 (lab_of 1) in
  let '(e2, _) := eng_Kill cfg3 leader e1 in
  (exists text, r1 = Some (ENoQuorum tushar_shard text)) /\ (eng_Get cfg3 "tushar" e2).2 = inl 7%Z.
Proof. vm_compute. split; [by eexists|reflexivity]. Qed.

Lemma kill_by_alias_kills_nobody_witness :
  (eng_Kill cfg3 "s00n0" lab0).2 = None /\ alive (eFaults (eng_Kill cfg3 "s00n0" lab0).1) "s0n0" = true.
Proof. apply (kill_by_alias_kills_nobody cfg3 "s00n0" "s0n0" 0); [reflexivity|discriminate|vm_compute; reflexivity]. Defined.

Lemma waits_end_witness :
  await_loop cfg3 (polls settleTimeout + 7) (now lab0 + settleTimeout) [0%Z] lab0 = awaitSettled cfg3 [0%Z] lab0.
Proof. exact (proj1 (waits_end cfg3 7 [0%Z] 0 "s0n0" "s0n0" "s0n1" "s0n0" 0 0 lab0)). Defined.

Lemma acks_counted_witness :
  (takeAcks "s0n0" 1 (for_each onTrace [ack "s0n0" "s0n1" 1; ack "s0n0" "s0n2" 1; ack "s0n0" "s0n2" 2] lab0).1).2 = 2%Z.
Proof.
  refine (proj1 (acks_counted "s0n0" 1 [ack "s0n0" "s0n1" 1; ack "s0n0" "s0n2" 1; ack "s0n0" "s0n2" 2] lab0 _ _)).
  - vm_compute. lia.
  - vm_compute. reflexivity.
Defined.
End Lab.
