(* ===== verification/EngineTransfer.v ===== *)
(** * Transfers across shards, through the engine

    [Transfer] of internal/cluster/engine.go hands a cross-shard transfer to the
    coordinator of internal/twopc, whose participants propose to the shards'
    logs.  Here the engine, over replicas that keep the interface of
    EngineLedger.v, is shown to be a network in the sense of TwoPC.v: a proposal
    that is not answered is a call still in flight.  So the transfer is atomic
    and conserves money, whatever is applied late. *)

From S2P Require Import Prelude GoText PaxosTypes PaxosNode Ledger TwoPC ShardParticipant Faults Transport Cluster Engine EngineProofs EngineLedger.

(** ** Commands that are not about a transaction *)

Definition spares_tx (tx : string) (c : Command) : Prop :=
  match cOp c with OpPrepare | OpCommit | OpAbort => Tx c <> tx | _ => True end.

(** What such a command may do to a shard. *)
Definition foreign_step (tx : string) (m m' : Machine) : Prop :=
  ledger_inv m -> ledger_inv m' /\ ledger_status m' tx = ledger_status m tx.

Lemma spares_tx_status tx c m :
  spares_tx tx c -> in_int64 (Amount c) -> foreign_step tx m (applyLocked c m).1.
Proof.
  intros Hsp Ha I. split; [by apply applyLocked_inv|].
  apply status_eq; revert Hsp; unfold spares_tx, applyLocked, prepareLocked, commitLocked, abortLocked, putLocked,
    getLocked, transferLocked;
    destruct (cOp c); intros Hsp; repeat (goal_match; simpl; try done); simpl;
    rewrite ?lookup_delete_ne, ?lookup_insert_ne by done; done.
Qed.

(** A call of a coordinator is a command of the ledger. *)
Lemma run_call_command k m :
  (run_call k m).1 = (applyLocked (call_command k) m).1 /\
  (run_call k m).2 = bool_decide (Err (applyLocked (call_command k) m).2 = None).
Proof.
  assert (forall c, participant_run c m = ((applyLocked c m).1, bool_decide (Err (applyLocked c m).2 = None))) as Hrun
    by (intros c; unfold participant_run; by destruct (applyLocked c m)).
  destruct k as [p tx key d|p tx|p tx]; cbn [run_call p_prepare p_commit p_abort shard_participant];
    unfold participant_Prepare, participant_Commit, participant_Abort; by rewrite Hrun.
Qed.

Lemma fmt_d_inj a b : in_int64 a -> in_int64 b -> fmt_d a = fmt_d b -> a = b.
Proof. intros Ha Hb He. apply (f_equal ParseInt) in He. rewrite !parse_fmt_d in He by done. congruence. Qed.

Section EngineTransfer.
Context {W : Type} `{LR : LedgerReplicas W} (cfg : ClusterConfig) (Hcfg : Validate cfg = None).
Implicit Types (e : Engine W) (F : Machine -> Machine -> Prop) (allowed : call -> Prop) (good : string -> Machine -> Prop).

Section TwoShards.
Context (fs ts : Z) (Hfs : (0 <= fs < Shards cfg)%Z) (Hts : (0 <= ts < Shards cfg)%Z) (Hne : fs <> ts).

Lemma shard_names_differ : shard_name fs <> shard_name ts.
Proof.
  unfold shard_name. rewrite !str_app_cons, !str_app_nil_l. intros [= He]. apply Hne, fmt_d_inj; [..|done];
    revert Hcfg; unfold Validate; destruct ((_ || _)%bool) eqn:E1; try done; intros _;
    apply orb_false_iff in E1 as [? ?]; unfold in_int64, int64_min, int64_max; lia.
Qed.

Definition part_shard (p : string) : option Z :=
  if String.eqb p (shard_name fs) then Some fs else if String.eqb p (shard_name ts) then Some ts else None.

Lemma part_shard_name s : s = fs \/ s = ts -> part_shard (shard_name s) = Some s.
Proof.
  unfold part_shard. intros [->| ->]; [by rewrite String.eqb_refl|].
  rewrite (proj2 (String.eqb_neq _ _)), String.eqb_refl; [done|]. intros He. by apply shard_names_differ.
Qed.

Lemma part_shard_inv p s : part_shard p = Some s -> p = shard_name s /\ (s = fs \/ s = ts).
Proof.
  unfold part_shard. destruct (String.eqb_spec p (shard_name fs)); [intros [= <-]; auto|].
  destruct (String.eqb_spec p (shard_name ts)); [intros [= <-]; auto|done].
Qed.

(** A pending command is an allowed call to its shard, or foreign. *)
Definition in_flight F allowed (s : Z) (c : Command) : Prop :=
  (exists k, allowed k /\ call_part k = shard_name s /\ c = call_command k) \/
  (forall m, ledger_inv m -> F m (applyLocked c m).1).

#[export] Instance engine_network : Network Machine (Engine W) EngineError := {|
  n_mach e p := machine e <$> part_shard p;
  n_known c := is_Some (part_shard (call_part c)) /\ w_carries (call_command c);
  n_flight F allowed e := forall s, s = fs \/ s = ts -> Forall (in_flight F allowed s) (pending e s);
  n_call := engine_call cfg fs ts;
|}.

Lemma run_cmds_closed F allowed good s cs m :
  closed F allowed good -> Forall (in_flight F allowed s) cs -> ledger_inv m -> good (shard_name s) m ->
  ledger_inv (run_cmds cs m) /\ good (shard_name s) (run_cmds cs m).
Proof.
  intros [Hcall Hfor]. revert m. induction cs as [|c cs IH]; intros m Hcs I Hg; simpl; [done|].
  apply Forall_cons in Hcs as [[(k & Hk & Hp & ->)|Hf] Hcs].
  - destruct (Hcall k m Hk I) as [I' Hg']; [by rewrite Hp|]. rewrite Hp, (proj1 (run_call_command k m)) in Hg'.
    rewrite (proj1 (run_call_command k m)) in I'. by apply IH.
  - destruct (Hfor (shard_name s) m _ (Hf m I) I Hg). by apply IH.
Qed.

(** A shard that moves by what is in flight. *)
Definition moves F allowed (s : Z) e e' : Prop :=
  Forall (in_flight F allowed s) (pending e' s) /\
  exists late, Forall (in_flight F allowed s) late /\ machine e' s = run_cmds late (machine e s).

Lemma Forall_sub {A} (P : A -> Prop) (l k : list A) : l ⊆ k -> Forall P k -> Forall P l.
Proof. rewrite !Forall_forall. auto. Qed.

Lemma drifts_moves F allowed extra s e e' :
  Forall (in_flight F allowed s) (extra ++ pending e s) -> drifts extra s (eWorld e) (eWorld e') ->
  moves F allowed s e e'.
Proof.
  intros Hfl (P & late & S & M). split; [by eapply Forall_sub|]. exists late. split; [by eapply Forall_sub|done].
Qed.

Lemma applied_moves F allowed c res s e e' :
  in_flight F allowed s c -> Forall (in_flight F allowed s) (pending e s) ->
  applied c res s (eWorld e) (eWorld e') -> moves F allowed s e e'.
Proof.
  intros Hc Hfl (P & before & after & Sb & Sa & M & _). split; [by eapply Forall_sub|].
  exists (before ++ c :: after). split; [apply Forall_app; split; [|constructor; [done|]]; by eapply Forall_sub|].
  rewrite run_cmds_app. exact M.
Qed.

Lemma moves_ok F allowed good e e' :
  closed F allowed good -> net_ok F allowed good e -> (forall s, s = fs \/ s = ts -> moves F allowed s e e') ->
  net_ok F allowed good e'.
Proof.
  intros Hcl [_ Hm] Hmv. split; [intros s Hs; by apply Hmv|]. simpl in *. intros p m Hp.
  destruct (part_shard p) as [s|] eqn:Es; [|done]. injection Hp as <-.
  destruct (part_shard_inv p s Es) as [-> Hs]. destruct (Hmv s Hs) as (_ & late & Hl & ->).
  destruct (Hm (shard_name s) (machine e s)) as [I Hg]; [by rewrite Es|]. by eapply run_cmds_closed.
Qed.

Lemma engine_same_dom e e' : same_dom e e'.
Proof. intros p. simpl. by destruct (part_shard p). Qed.

(** A call moves its own shard by itself and the rest by what was in flight. *)
Lemma engine_call_moves F allowed k s e :
  part_shard (call_part k) = Some s -> allowed k -> w_carries (call_command k) ->
  (forall s, s = fs \/ s = ts -> Forall (in_flight F allowed s) (pending e s)) ->
  forall s', s' = fs \/ s' = ts -> moves F allowed s' e (engine_call cfg fs ts k e).1.
Proof.
  intros Es Hk Hcar Hfl s' Hs'. destruct (part_shard_inv _ _ Es) as [Hp Hs].
  unfold engine_call. replace (if String.eqb (call_part k) (shard_name fs) then fs else ts) with s
    by (revert Es; unfold part_shard; destruct (String.eqb _ _); [congruence|destruct (String.eqb _ _); congruence]).
  assert (0 <= s < Shards cfg)%Z as Hrange by (destruct Hs as [->| ->]; done).
  destruct (propose_steps cfg Hcfg s (call_command k) e Hrange Hcar) as [Hown Hrest].
  assert (in_flight F allowed s (call_command k)) as Hc by (left; eauto).
  unfold fmap, EM_fmap. destruct (propose cfg s (call_command k) e) as [e' r]. cbn [fst snd] in *.
  destruct (decide (s' = s)) as [->|Hd].
  - destruct r as [res|err]; [eapply applied_moves; eauto|].
    eapply drifts_moves; [|done]. constructor; auto.
  - eapply (drifts_moves _ _ []); [by apply Hfl|]. by apply Hrest.
Qed.

(** A YES is the shard's own, and the call is applied. *)
Lemma engine_call_yes k s e :
  part_shard (call_part k) = Some s -> w_carries (call_command k) -> (engine_call cfg fs ts k e).2 = None ->
  exists before after, before ⊆ pending e s /\ after ⊆ pending e s /\
    let m := run_cmds before (machine e s) in
    (run_call k m).2 = true /\ machine (engine_call cfg fs ts k e).1 s = run_cmds after (run_call k m).1.
Proof.
  intros Es Hcar. destruct (part_shard_inv _ _ Es) as [Hp Hs].
  unfold engine_call. replace (if String.eqb (call_part k) (shard_name fs) then fs else ts) with s
    by (revert Es; unfold part_shard; destruct (String.eqb _ _); [congruence|destruct (String.eqb _ _); congruence]).
  assert (0 <= s < Shards cfg)%Z as Hrange by (destruct Hs as [->| ->]; done).
  destruct (propose_steps cfg Hcfg s (call_command k) e Hrange Hcar) as [Hown _].
  unfold fmap, EM_fmap. destruct (propose cfg s (call_command k) e) as [e' [res|err]]; cbn [fst snd] in *; [|done].
  simpl. intros Herr. destruct Hown as (_ & before & after & Sb & Sa & M & Hr). exists before, after.
  split; [done|]. split; [done|]. cbn zeta. destruct (run_call_command k (run_cmds before (machine e s))) as [-> ->].
  split; [|exact M]. apply bool_decide_true. etransitivity; [symmetry; exact (same_result_Err _ _ Hr)|]. by destruct (Err res).
Qed.

#[export] Instance engine_network_laws : NetworkLaws Machine (Engine W) EngineError.
Proof.
  split.
  - intros F a a' e Ha Hfl s Hs. eapply Forall_impl; [exact (Hfl s Hs)|].
    intros c [(k & Hk & ? & ?)|Hf]; [left; eauto|by right].
  - intros F a g k e Hcl Hok Hk [[s Es] Hcar]. pose proof Hok as [Hfl Hm]. simpl in Hfl, Hm.
    pose proof (engine_call_moves F a k s e Es Hk Hcar Hfl) as Hmv. pose proof (engine_call_yes k s e Es Hcar) as Hyes.
    simpl n_call. destruct (engine_call cfg fs ts k e) as [e' err]. cbn [fst snd] in *.
    split; [by eapply moves_ok|]. split; [apply engine_same_dom|]. intros He.
    destruct (part_shard_inv _ _ Es) as [Hp Hs]. destruct (Hyes He) as (before & after & Sb & Sa & Hok' & M).
    destruct (Hm (call_part k) (machine e s)) as [I Hg]; [by rewrite Es|]. rewrite Hp in Hg.
    pose proof (Forall_sub _ _ _ Sb (Hfl s Hs)) as Fb. pose proof (Forall_sub _ _ _ Sa (Hfl s Hs)) as Fa.
    destruct (run_cmds_closed F a g s before _ Hcl Fb I Hg) as [I1 Hg1].
    exists (run_cmds before (machine e s)), (machine e' s). simpl. rewrite Es. split_and!; [done..|].
    intros g' Hcl' Hg'. rewrite Hp in *. rewrite M. apply (run_cmds_closed F a g' s after); [done..| |done].
    apply (proj1 Hcl k); [done..|]. by rewrite Hp.
Qed.

(** What happens between the operator's commands. *)
Lemma idle_drifts_to F e e' : idle e e' -> drifts_to F e e'.
Proof.
  intros Hi. split; [apply engine_same_dom|]. intros a g Hcl Hok. eapply moves_ok; [done..|].
  intros s Hs. eapply (drifts_moves _ _ []); [by apply Hok|exact (Hi s)].
Qed.
End TwoShards.

(** ** A transfer *)

(** Nobody has heard of the transaction at a shard. *)
Definition unheard_at (tx : string) (s : Z) e : Prop :=
  ledger_inv (machine e s) /\ ledger_status (machine e s) tx = Working /\
  Forall (fun c => spares_tx tx c /\ in_int64 (Amount c)) (pending e s).

(** What an answer of the engine says of the two shards. *)
Definition transfer_outcome (tx from to : string) (amount : Z) (mf mt : Machine) (r : option EngineError) : Prop :=
  match r with
  | None => ledger_status mf tx = Committed /\ ledger_status mt tx = Committed
  | Some (EInDoubt _ _) =>
      (ledger_status mf tx = Committed \/ ledger_status mf tx = Ready from (wrap64 (- amount))) /\
      (ledger_status mt tx = Committed \/ ledger_status mt tx = Ready to amount)
  | Some _ => ledger_status mf tx <> Committed /\ ledger_status mt tx <> Committed
  end.

Definition in_doubt (r : option EngineError) : bool := match r with Some (EInDoubt _ _) => true | _ => false end.

Section Transfers.
Context (from to : string) (amount : Z).
Abbreviation fs := (ShardFor from (Shards cfg)).
Abbreviation ts := (ShardFor to (Shards cfg)).
Abbreviation legs := (transfer_legs (shard_name fs) from (shard_name ts) to amount).
Context (Hne : fs <> ts) (Hamount : in_int64 amount).

Lemma transfer_run e :
  let '(e1, out) := run_legs (engine_call cfg fs ts) (tx_name (eSeq e)) legs e in
  eWorld (eng_Transfer cfg from to amount e).1 = eWorld e1 /\
  match out with
  | TCommitted => (eng_Transfer cfg from to amount e).2 = None
  | TRefused who err => (eng_Transfer cfg from to amount e).2 = Some (EVotedNo who err)
  | TInDoubt names => (eng_Transfer cfg from to amount e).2 = Some (EInDoubt (tx_name (eSeq e)) names)
  end.
Proof.
  unfold eng_Transfer. rewrite (proj2 (Z.eqb_neq _ _)) by done. unfold Transfer.
  destruct (run_legs _ _ _ _) as [e1 [|who err|names]]; by split.
Qed.

Context (e : Engine W).
Abbreviation tx := (tx_name (eSeq e)).
Context (Hcarries : forall k, any_call tx legs k -> w_carries (call_command k)).
Context (Hf : unheard_at tx fs e) (Ht : unheard_at tx ts e).

#[local] Instance shards_network : Network Machine (Engine W) EngineError := engine_network fs ts.
#[local] Instance shards_network_laws : NetworkLaws Machine (Engine W) EngineError :=
  engine_network_laws fs ts (ShardFor_range from cfg Hcfg) (ShardFor_range to cfg Hcfg).

Lemma names_differ : shard_name fs <> shard_name ts.
Proof. apply shard_names_differ; [apply ShardFor_range, Hcfg..|done]. Qed.

Lemma mach_at s : s = fs \/ s = ts -> forall e', n_mach e' (shard_name s) = Some (machine e' s).
Proof.
  intros Hs e'. simpl. rewrite (part_shard_name fs ts); [done|apply ShardFor_range, Hcfg..|done|done].
Qed.

Lemma transfer_known k : any_call tx legs k -> n_known k.
Proof.
  intros Hk. split; [|by apply Hcarries]. destruct Hk as (l & Hl & Hk).
  assert (call_part k = l_part l) as -> by (by destruct Hk as [->|[->| ->]]). apply legs_in in Hl as [[-> _]|[-> _]];
    eexists; apply (part_shard_name fs ts); auto using ShardFor_range.
Qed.

Lemma unheard_working p m : n_mach e p = Some m -> ledger_inv m /\ ledger_status m tx = Working.
Proof.
  simpl. destruct (part_shard fs ts p) as [s|] eqn:Es; [|done]. intros [= <-].
  apply part_shard_inv in Es as [_ [->| ->]]; [destruct Hf as (? & ? & _)|destruct Ht as (? & ? & _)]; done.
Qed.

Lemma unheard_engine : unheard tx (foreign_step tx) e.
Proof.
  split; [|exact unheard_working]. simpl. intros s Hs.
  assert (Forall (fun c => spares_tx tx c /\ in_int64 (Amount c)) (pending e s)) as Hp
    by (destruct Hs as [->| ->]; [destruct Hf as (_ & _ & ?)|destruct Ht as (_ & _ & ?)]; done).
  eapply Forall_impl; [exact Hp|]. intros c [Hc Ha]. right. intros m _. by apply spares_tx_status.
Qed.

(** All or nothing, whatever proposals land late and whatever the replicas do
    afterwards. *)
Lemma engine_transfer_atomic e2 :
  idle (eng_Transfer cfg from to amount e).1 e2 ->
  transfer_outcome tx from to amount (machine e2 fs) (machine e2 ts) (eng_Transfer cfg from to amount e).2.
Proof.
  intros Hi. pose proof (transfer_run e) as Hrun.
  pose proof (run_legs_atomic tx legs (foreign_step tx) (fun m m' Hm I => Hm I)
                (legs_nodup _ _ _ _ _ names_differ) (legs_range _ _ _ _ _ Hamount) transfer_known e unheard_engine) as Hat.
  change (n_call (Network := shards_network)) with (engine_call (W := W) cfg fs ts) in Hat.
  destruct (run_legs _ _ _ _) as [e1 out]. destruct Hrun as [Hw Hout].
  assert (idle e1 e2) as Hi' by (intros s; rewrite <- Hw; exact (Hi s)).
  specialize (Hat e2 (idle_drifts_to fs ts _ _ _ Hi')).
  assert (forall s, s = fs \/ s = ts -> status_of tx e2 (shard_name s) = Some (ledger_status (machine e2 s) tx)) as Hst.
  { intros s Hs. unfold status_of. by rewrite mach_at. }
  pose proof (Hst fs ltac:(by left)) as Sf. pose proof (Hst ts ltac:(by right)) as St.
  destruct out as [|who err|names]; rewrite Hout; simpl in Hat |- *;
    pose proof (Hat (mkLeg (shard_name fs) from (wrap64 (- amount))) ltac:(left)) as H1;
    pose proof (Hat (mkLeg (shard_name ts) to amount) ltac:(right; left)) as H2;
    cbn [l_part l_key l_delta] in H1, H2; rewrite Sf in H1; rewrite St in H2.
  - by split; congruence.
  - by split; congruence.
  - split; [destruct H1 as [?|[_ ?]]|destruct H2 as [?|[_ ?]]]; first [left; congruence|right; congruence].
Qed.

(** Outside doubt the two shards hold together what they held, when nothing else
    was under way. *)
Lemma engine_transfer_conserves e2 :
  pending e fs = [] -> pending e ts = [] -> idle (eng_Transfer cfg from to amount e).1 e2 ->
  in_doubt (eng_Transfer cfg from to amount e).2 = false ->
  eq64 (total (machine e2 fs) + total (machine e2 ts)) (total (machine e fs) + total (machine e ts)).
Proof.
  intros Pf Pt Hi Hd. pose proof (engine_transfer_atomic e2 Hi) as Hat. pose proof (transfer_run e) as Hrun.
  pose proof (run_legs_money (NW := shards_network) tx legs (legs_range _ _ _ _ _ Hamount) transfer_known e e2) as Hm.
  change (n_call (Network := shards_network)) with (engine_call (W := W) cfg fs ts) in Hm.
  destruct (run_legs _ _ _ _) as [e1 out]. destruct Hrun as [Hw _].
  assert (idle e1 e2) as Hi' by (intros s; rewrite <- Hw; exact (Hi s)).
  specialize (Hm ltac:(intros s [->| ->]; [rewrite Pf|rewrite Pt]; constructor) unheard_working
                (idle_drifts_to fs ts _ _ _ Hi')).
  destruct (Hm (shard_name fs) _ _ (mach_at fs ltac:(by left) e) (mach_at fs ltac:(by left) e2)) as [Cf Nf].
  destruct (Hm (shard_name ts) _ _ (mach_at ts ltac:(by right) e) (mach_at ts ltac:(by right) e2)) as [Ct Nt].
  cbn [p_status p_money shard_participant] in *.
  assert (ledger_status (machine e2 fs) tx = Committed /\ ledger_status (machine e2 ts) tx = Committed \/
          ledger_status (machine e2 fs) tx <> Committed /\ ledger_status (machine e2 ts) tx <> Committed) as [[H1 H2]|[H1 H2]].
  { revert Hat Hd. destruct (eng_Transfer cfg from to amount e).2 as [[]|]; simpl; intros; try done; by auto. }
  - destruct (Cf H1) as (l1 & Hl1 & Hp1 & ->), (Ct H2) as (l2 & Hl2 & Hp2 & ->). pose proof names_differ.
    destruct (legs_in _ _ _ _ _ _ Hl1) as [[_ ->]|[Hx _]]; [|congruence].
    destruct (legs_in _ _ _ _ _ _ Hl2) as [[Hx _]|[_ ->]]; [congruence|].
    rewrite wrap64_eq64. apply eq64_of_eq. lia.
  - by rewrite (Nf H1), (Nt H2).
Qed.
End Transfers.
End EngineTransfer.
