(* ===== verification/ReplicatedEngine.v ===== *)
(** * The engine over Paxos groups

    A cluster in one process: every shard is a Paxos group of ledger machines
    (ReplicatedLog.v) and the engine's calls on a replica are the code's
    ([localReplica] and [propose] of internal/cluster/replica.go).  While a call
    runs, the groups take the steps that [plan] has for it: any messages, losses,
    timers, crashes and restarts, and repeated proposals of commands that are
    already under way.  The proofs hold for every plan, so for those the fault
    table lets happen.

    The groups keep the interface of EngineLedger.v, so what is shown there of
    the operator's commands holds of the replicated ledgers. *)

From S2P Require Import Prelude GoText PaxosTypes PaxosLog PaxosNode PaxosVoting PaxosSystem PaxosElection PaxosInvariant PaxosSteps PaxosSafety PaxosValidity ReplicatedLog Ledger TwoPC Faults Transport Cluster Engine EngineProofs EngineLedger EngineTransfer ShardParticipant.

(** What happens while a call runs: the time it takes, whether the caller's
    context has ended, and the steps of each shard's group. *)
Record weather := mkWeather { elapsed : N; cancelled : bool; events : Z -> list action }.

Definition calm : weather := mkWeather 0 false (fun _ => []).

Section World.
Context `{CommandCodec} (cc : ClusterConfig).

#[local] Instance shard_sm : StateMachine Machine Result := ledger_sm (MaxKeysPerShard cc).

Definition ShardGroup : Type := @Group Machine Result.

Record World := mkWorld {
  clock : Z;
  calls : nat;
  plan : nat -> weather;
  shard : Z -> ShardGroup;
  shard_ok s : group_ok (shard_ids cc s) (shard s);
}.
Implicit Types (w : World) (g : ShardGroup).

Definition today w : weather := plan w (calls w).

(** Steps of a shard among which every command under way may be proposed again. *)
Definition pass (acts : list action) g : ShardGroup := meantime (unsettled g) acts g.

(** The requests that were answered meanwhile. *)
Fixpoint traffic (retries : list bytes) (acts : list action) g : list Trace :=
  match acts with
  | [] => []
  | a :: rest =>
      match gtry retries a g with
      | None => traffic retries rest g
      | Some g' =>
          match a with
          | AHandle _ r =>
              match requests (gsys g) !! r, last (replies (gsys g')) with
              | Some (_, to, req), Some (_, _, _, rep) => [newTrace (mFrom req) to req (inl rep)]
              | _, _ => []
              end
          | _ => []
          end ++ traffic retries rest g'
      end
  end.

(** Every group moves on by [f]. *)
Definition advance (d : Z) (f : Z -> ShardGroup -> ShardGroup)
    (Hf : forall s g, group_ok (shard_ids cc s) g -> group_ok (shard_ids cc s) (f s g)) w : World :=
  mkWorld (clock w + d + Z.of_N (elapsed (today w))) (Datatypes.S (calls w)) (plan w)
    (fun s => f s (shard w s)) (fun s => Hf s (shard w s) (shard_ok w s)).

Definition only (s : Z) (f : ShardGroup -> ShardGroup) (acts : Z -> list action) (s' : Z) g : ShardGroup :=
  if decide (s' = s) then f g else pass (acts s') g.

Lemma pass_ok s acts g : group_ok (shard_ids cc s) g -> group_ok (shard_ids cc s) (pass acts g).
Proof. intros Hg. by eapply ad_ok, meantime_advances. Qed.

Lemma all_pass_ok acts s g :
  group_ok (shard_ids cc s) g -> group_ok (shard_ids cc s) (pass (acts s) g).
Proof. apply pass_ok. Qed.

(** [Info] and [Campaign] of a [localReplica]. *)
Definition world_info (r : string) w : option NodeInfo :=
  match ParseNode r with
  | None => None
  | Some (s, _) => describe <$> nodes (gsys (shard w s)) !! r
  end.

Definition campaign_acts (r : string) w (s : Z) : list action :=
  match ParseNode r with
  | Some (s', _) => if (s =? s')%Z then ACampaign r :: events (today w) s else events (today w) s
  | None => events (today w) s
  end.

(** [propose] of replica.go: the log's answer as the ledger's. *)
Definition propose_answer (rep : reply (R := Result)) : Result + ProposeFailure :=
  match rep with
  | Returned _ (Some res) => inl res
  | Returned _ None => inr (POther "unexpected apply result <nil>")
  | Refused ErrNotLeader => inr PNotLeader
  | Refused ErrNoQuorum => inr PNoQuorum
  | Refused ErrPersist => inr (POther "paxos: persist entry")
  | NodeStopped => inr (POther "paxos: node stopped")
  | DeadlineExceeded => inr PDeadline
  end.

Definition propose_call (r : string) (c : Command) (acts : list action) g : ShardGroup * reply (R := Result) :=
  Propose (unsettled g) r (Encode c) acts g.

Lemma only_ok r c acts s s' g :
  group_ok (shard_ids cc s') g ->
  group_ok (shard_ids cc s') (only s (fun g => (propose_call r c (acts s) g).1) acts s' g).
Proof.
  intros Hg. unfold only. case_decide; [|by apply pass_ok]. by eapply ad_ok, Propose_advances.
Qed.

Definition world_propose (r : string) (c : Command) w : World * list Trace * (Result + ProposeFailure) :=
  let acts := events (today w) in
  match ParseNode r with
  | None => (advance 0 (fun s => pass (acts s)) (all_pass_ok acts) w, [], inr PNotLeader)
  | Some (s, _) =>
      let g := shard w s in
      (advance 0 (only s (fun g => (propose_call r c (acts s) g).1) acts) (only_ok r c acts s) w,
       match gstep (APropose r (Encode c)) g with
       | Some g1 => traffic (unsettled g) (acts s) g1
       | None => []
       end,
       propose_answer (propose_call r c (acts s) g).2)
  end.

(** The traffic of all shards while nothing is proposed. *)
Definition background (acts : Z -> list action) w : list Trace :=
  s ← Z.of_nat <$> seq 0 (Z.to_nat (Shards cc)); traffic (unsettled (shard w s)) (acts s) (shard w s).

Definition world_pass (d : Z) (acts : Z -> list action) w : World * list Trace :=
  (advance d (fun s => pass (acts s)) (all_pass_ok acts) w, background acts w).

#[export] Instance world_replicas : Replicas World := {|
  r_info r := fun _ w => (world_pass 0 (events (today w)) w, world_info r w);
  r_campaign r := fun _ w => (world_pass 0 (campaign_acts r w) w, tt);
  r_propose r c := fun _ w => world_propose r c w;
  r_sleep := fun _ w => (world_pass pollEvery (events (today w)) w, tt);
  r_push := None;
  r_drain := None;
  w_now := clock;
  w_done w := cancelled (today w);
|}.

#[export] Instance world_laws : ReplicasLaws World.
Proof.
  split; try done; intros; intros f w; simpl; try lia.
  unfold world_propose. destruct (ParseNode r) as [[s i]|]; simpl; lia.
Qed.

(** ** The ledger at the end of a shard's log *)

(** The command an entry of the log stands for; a no-op stands for none. *)
Definition decode (raw : bytes) : option Command :=
  if Nat.eqb (String.length raw) 0 then None
  else match Decode raw with inl c => Some c | inr _ => None end.

Lemma apply_cmd_decode slot raw (m : Machine) :
  apply_cmd slot raw m = run_cmds (option_list (decode raw)) m.
Proof.
  unfold apply_cmd, decode. destruct (_ =? 0); [done|]. simpl. unfold Apply.
  destruct (Decode raw) as [c|]; [|done]. simpl. by destruct (applyLocked c m).
Qed.

Lemma replay_from_decode slot cmds (m : Machine) :
  replay_from slot cmds m = run_cmds (omap decode cmds) m.
Proof.
  revert slot m. induction cmds as [|raw cmds IH]; intros slot m; simpl; [done|].
  rewrite IH, apply_cmd_decode. by destruct (decode raw).
Qed.

Lemma replay_cmds_app h more : replay_cmds (h ++ more) = run_cmds (omap decode more) (replay_cmds h).
Proof. unfold replay_cmds. by rewrite !replay_from_decode, omap_app, run_cmds_app. Qed.

#[export] Instance world_ledgers : Ledgers World := {|
  w_machine w s := replay_cmds (ghistory (shard w s));
  w_pending w s := omap decode (unsettled (shard w s));
  w_carries c := decode (Encode c) = Some c;
|}.

Lemma omap_decode_sub (l1 l2 : list bytes) : l1 ⊆ l2 -> omap decode l1 ⊆ omap decode l2.
Proof. intros Hsub c (x & Hx & Hc)%list_elem_of_omap. apply list_elem_of_omap. eauto. Qed.

Lemma foreseen_decode retries g more :
  Forall (foreseen retries g) more -> omap decode more ⊆ omap decode (retries ++ unsettled g).
Proof.
  rewrite Forall_forall. intros Hall c (x & Hx & Hc)%list_elem_of_omap. apply list_elem_of_omap. exists x.
  split; [|done]. apply elem_of_app. destruct (Hall x Hx) as [->|[?|?]]; [done|by right|by left].
Qed.

(** A group that advances is a ledger that drifts. *)
Lemma advances_drifts extra s g g' :
  advances (shard_ids cc s) (extra ++ unsettled g) g g' ->
  omap decode (unsettled g') ⊆ omap decode extra ++ omap decode (unsettled g) /\
  exists late, late ⊆ omap decode extra ++ omap decode (unsettled g) /\
    replay_cmds (ghistory g') = run_cmds late (replay_cmds (ghistory g)).
Proof.
  intros Ha. pose proof Ha as [_ _ [more Hm] _]. rewrite <- omap_app. split.
  - apply omap_decode_sub. intros x Hx. apply (advances_unsettled _ _ _ _ Ha), elem_of_app in Hx as [?|?]; [done|].
    apply elem_of_app. by right.
  - exists (omap decode more). rewrite Hm, replay_cmds_app. split; [|done].
    transitivity (omap decode ((extra ++ unsettled g) ++ unsettled g)).
    + apply foreseen_decode, Forall_lookup. intros j x Hj. by eapply advances_new.
    + apply omap_decode_sub. intros x. rewrite !elem_of_app. tauto.
Qed.

Lemma pass_drifts d acts s w : drifts [] s w (advance d (fun s => pass (acts s)) (all_pass_ok acts) w).
Proof. exact (advances_drifts [] s _ _ (meantime_advances _ _ _ _ (shard_ok w s))). Qed.

Lemma only_at s f acts g : only s f acts s g = f g.
Proof. unfold only. by rewrite decide_True by done. Qed.

(** An answered proposal was applied once, and the answer is the ledger's. *)
Lemma propose_answered r s i c w res :
  ParseNode r = Some (s, i) -> w_carries c -> (world_propose r c w).2 = inl res ->
  applied c res s w (world_propose r c w).1.1.
Proof.
  intros Hp Hcar. unfold world_propose. rewrite Hp. simpl. set (g := shard w s). set (acts := events (today w)).
  unfold applied. simpl. rewrite only_at. fold g.
  destruct (propose_call r c (acts s) g) as [g' rep] eqn:Hcall. simpl. intros Hres.
  assert (exists slot, rep = Returned slot (Some res)) as [slot ->].
  { destruct rep as [slot [x|]|[]| |]; simplify_eq/=; eauto. }
  destruct (Propose_applied _ _ _ _ _ _ _ _ _ (shard_ok w s) Hcall)
    as (before & after & Hh & _ & Hr & Hb & Ha & Hun). fold g in Hh, Hr, Hb, Ha, Hun.
  assert (unsettled g ++ unsettled g ⊆ unsettled g) as Htwice by (intros x [?|?]%elem_of_app; done).
  assert (forall more, Forall (foreseen (unsettled g) g) more -> omap decode more ⊆ omap decode (unsettled g)) as Hex.
  { intros more Hm. etransitivity; [by apply foreseen_decode|]. by apply omap_decode_sub. }
  split; [apply omap_decode_sub; by etransitivity|].
  exists (omap decode before), (omap decode after). split; [by apply Hex|]. split; [by apply Hex|]. cbn zeta.
  rewrite Hh, !replay_cmds_app, omap_app, run_cmds_app. rewrite replay_cmds_app in Hr. simpl. simpl in Hcar. rewrite Hcar.
  split; [done|]. subst res. simpl. unfold Apply. unfold decode in Hcar. destruct (_ =? 0); [done|].
  destruct (Decode (Encode c)) as [c'|]; [|done]. injection Hcar as ->. by destruct (applyLocked c _).
Qed.

Lemma propose_unanswered r s i c w err :
  ParseNode r = Some (s, i) -> w_carries c -> (world_propose r c w).2 = inr err ->
  drifts [c] s w (world_propose r c w).1.1.
Proof.
  intros Hp Hcar _. unfold world_propose. rewrite Hp. simpl. unfold drifts. simpl. rewrite only_at. simpl in Hcar.
  pose proof (advances_drifts [Encode c] s (shard w s) _ (Propose_advances _ _ r _ (events (today w) s) _ (shard_ok w s))) as Hd.
  simpl in Hd. rewrite Hcar in Hd. exact Hd.
Qed.

Lemma propose_elsewhere r s i s' c w :
  ParseNode r = Some (s, i) -> s' <> s -> drifts [] s' w (world_propose r c w).1.1.
Proof.
  intros Hp Hne. unfold world_propose. rewrite Hp. simpl. unfold drifts, only. simpl. rewrite decide_False by done.
  exact (advances_drifts [] s' _ _ (meantime_advances _ _ _ _ (shard_ok w s'))).
Qed.

#[export] Instance world_ledger_replicas : LedgerReplicas World.
Proof.
  split; simpl; intros; try done; try apply pass_drifts.
  - by eapply propose_answered.
  - by eapply propose_unanswered.
  - by eapply propose_elsewhere.
Qed.

(** C20: After any run of steps that keep to the protocol rules of
    PaxosSteps.disciplined (the code does not enforce all of them, see the
    findings), what a replica of a shard shows is the ledger of as many commands as
    it has applied slots, the one of each slot a no-op or proposed for that very
    slot, run in slot order; its balances, locks and prepares fit together, and its
    money is, modulo 2^64, what those commands brought in. *)
Theorem replica_ledgers_are_sound ids e c acts g i n :
  gsteps acts (new_group ids e c) = Some g -> nodes (gsys g) !! i = Some n ->
  (forall slot raw cmd, (slot, raw) ∈ gproposed g -> decode raw = Some cmd -> in_int64 (Amount cmd)) ->
  exists h, N.of_nat (length h) = appliedIndex n /\
    (forall j raw, h !! j = Some raw -> raw = "" \/ (N.of_nat j + 1, raw)%N ∈ gproposed g) /\
    sm n = run_cmds (omap decode h) (New (MaxKeysPerShard cc)) /\ ledger_inv (sm n) /\
    eq64 (total (sm n)) (net_effects (omap decode h) (New (MaxKeysPerShard cc))).
Proof.
  intros Hg Hn Hint. pose proof (gsteps_ok ids _ _ _ (new_group_ok ids e c) Hg) as Hok.
  pose proof (replica_prefix ids g i n Hok Hn) as Hsm. pose proof (go_ahead _ _ Hok _ _ Hn) as Hlen.
  assert (N.of_nat (length (take (N.to_nat (appliedIndex n)) (ghistory g))) = appliedIndex n) as Hall
    by (rewrite length_take; lia).
  set (h := take _ _) in Hsm, Hall.
  assert (forall j raw, h !! j = Some raw -> raw = "" \/ (N.of_nat j + 1, raw)%N ∈ gproposed g) as Hsrc.
  { intros j raw Hj. apply lookup_take_Some in Hj as [Hj _]. exact (history_offered ids g j raw Hok Hj). }
  assert (forall cmd, cmd ∈ omap decode h -> in_int64 (Amount cmd)) as Hamt.
  { intros cmd (raw & Hraw & Hd)%list_elem_of_omap. apply list_elem_of_lookup in Hraw as [j Hj].
    destruct (Hsrc j raw Hj) as [->|Hin]; [done|by eapply Hint]. }
  exists h. rewrite Hsm. unfold replay_cmds. rewrite replay_from_decode. simpl.
  pose proof (New_inv (MaxKeysPerShard cc)) as HI. split_and!; [done|done|done|by apply run_cmds_inv|].
  exact (run_cmds_total (omap decode h) (New (MaxKeysPerShard cc)) HI Hamt).
Qed.

(** C14: The engine over Paxos groups that take steps that keep to the protocol
    rules of PaxosSteps.disciplined (the code does not enforce all of them, see the
    findings): after an acknowledged PUT of an account, with no unanswered earlier
    proposal that would change the account and only fault commands (kill, revive,
    partition, heal) in between, a GET that is answered reads the value put and is
    never told that there is no such account, whatever is lost and whoever is
    elected or crashes meanwhile. *)
Theorem acknowledged_put_is_durable key v cmds (e : Engine World) :
  Validate cc = None ->
  decode (Encode (mkCommand OpPut key "" v "")) = Some (mkCommand OpPut key "" v "") ->
  decode (Encode (mkCommand OpGet key "" 0 "")) = Some (mkCommand OpGet key "" 0 "") ->
  Forall (spares key) (pending e (ShardFor key (Shards cc))) ->
  (Put cc key v e).2 = None ->
  let e1 := fold_left (fun e c => (run_command cc c e).1) cmds (Put cc key v e).1 in
  match (eng_Get cc key e1).2 with
  | inl x => x = v
  | inr err => forall le, err <> ELedger le
  end.
Proof. intros Hv Hp Hg Hs Hput. exact (put_survives_faults cc Hv key v cmds e Hp Hg Hs Hput). Qed.

(** C13: The engine over Paxos groups that take steps that keep to the protocol
    rules of PaxosSteps.disciplined (the code does not enforce all of them, see the
    findings): a transfer between two shards under a transaction id they have not
    seen is committed by both ledgers or by neither when its outcome is reported,
    and held or applied by both when it is in doubt; with no earlier proposal left
    unanswered on the two shards and the outcome known, their money together is the
    same modulo 2^64; against any losses, delays, elections, crashes and late
    proposals during it, and after it through any fault commands of the operator. *)
Theorem replicated_transfer_atomic from to amount cmds (e : Engine World) :
  let fs := ShardFor from (Shards cc) in
  let ts := ShardFor to (Shards cc) in
  let tx := tx_name (eSeq e) in
  Validate cc = None -> fs <> ts -> in_int64 amount ->
  (forall k, any_call tx (transfer_legs (shard_name fs) from (shard_name ts) to amount) k ->
     decode (Encode (call_command k)) = Some (call_command k)) ->
  unheard_at tx fs e -> unheard_at tx ts e ->
  let '(e1, r) := eng_Transfer cc from to amount e in
  let e2 := fold_left (fun e c => (run_command cc c e).1) cmds e1 in
  transfer_outcome tx from to amount (machine e2 fs) (machine e2 ts) r /\
  (pending e fs = [] -> pending e ts = [] -> in_doubt r = false ->
     eq64 (total (machine e2 fs) + total (machine e2 ts)) (total (machine e fs) + total (machine e ts))).
Proof.
  intros fs ts tx Hv Hne Ha Hcar Hf Ht.
  pose proof (engine_transfer_atomic cc Hv from to amount Hne Ha e Hcar Hf Ht) as Hat.
  pose proof (engine_transfer_conserves cc Hv from to amount Hne Ha e Hcar Hf Ht) as Hcons.
  destruct (eng_Transfer cc from to amount e) as [e1 r]. intros e2. cbn [fst snd] in Hat, Hcons.
  pose proof (commands_idle cc cmds e1) as Hi. split; [by apply Hat|]. intros Pf Pt Hd. by apply Hcons.
Qed.
End World.

(** ** A shard of three replicas at work *)

Module Replay.
Definition cfg1 : ClusterConfig := mkClusterConfig 1 3 256 DefaultTiming.

(** An encoding of the two commands of the session. *)
Definition put_c : Command := mkCommand OpPut "tushar" "" 100 "".
Definition get_c : Command := mkCommand OpGet "tushar" "" 0 "".
#[local] Instance session_codec : CommandCodec := {|
  Encode := Command_String;
  Decode raw :=
    if String.eqb raw (Command_String put_c) then inl put_c
    else if String.eqb raw (Command_String get_c) then inl get_c
    else inr "unexpected command";
|}.

Definition e0 : env := mkEnv 0 0 true true.

(** s0n0 is elected by s0n1 while the engine looks for roles; each of the two
    proposals gets the acceptance of s0n1. *)
Definition election : list action :=
  [ACampaign "s0n0"; AHandle e0 0; APrepare e0 1 [0]; AHandle e0 2; AElect e0 1 [1]; AReplicate e0 1].
Definition round_acts (k r p : nat) : list action :=
  [AReplicate e0 k; AHandle e0 r; AAccepted e0 k [p]; AApply "s0n0"].

Definition session_plan (put get : nat) (call : nat) : weather :=
  mkWeather 0 false (fun s =>
    if (s =? 0)%Z then
      if call =? 0 then election
      else if call =? put then round_acts 3 4 2
      else if call =? get then round_acts 5 6 3
      else []
    else []).

Definition world0 (put get : nat) : World cfg1 :=
  mkWorld cfg1 0 0 (session_plan put get)
    (fun s => new_group (SM := shard_sm cfg1) (shard_ids cfg1 s) e0 DefaultTiming)
    (fun s => new_group_ok (SM := shard_sm cfg1) (shard_ids cfg1 s) e0 DefaultTiming).

Definition outage : list fault_command :=
  [CmdKill "s0n2"; CmdPartition [["s0n0"; "s0n1"]]; CmdHeal; CmdRevive "s0n2"].

(** The engine's sixth call of a replica is the proposal of the PUT, and the
    150th that of the GET. *)
Definition session_start : Engine (World cfg1) := start cfg1 (world0 6 150).

Lemma acknowledged_put_is_durable_witness :
  let e1 := fold_left (fun e c => (run_command cfg1 c e).1) outage (Put cfg1 "tushar" 100 session_start).1 in
  match (eng_Get cfg1 "tushar" e1).2 with
  | inl x => x = 100%Z
  | inr err => forall le, err <> ELedger le
  end.
Proof.
  apply (acknowledged_put_is_durable cfg1 "tushar" 100 outage session_start).
  - reflexivity.
  - vm_compute. reflexivity.
  - vm_compute. reflexivity.
  - assert (pending session_start (ShardFor "tushar" (Shards cfg1)) = []) as -> by (vm_compute; reflexivity). constructor.
  - vm_compute. reflexivity.
Defined.

(** The GET is answered, by the replicas' logs. *)
Example session_reads_back :
  let '(e1, r1) := Put cfg1 "tushar" 100 session_start in
  let e2 := fold_left (fun e c => (run_command cfg1 c e).1) outage e1 in
  r1 = None /\ (eng_Get cfg1 "tushar" e2).2 = inl 100%Z.
Proof. vm_compute. auto. Qed.

(** The replica that accepted the PUT catches up with it. *)
Definition after_put : option (ShardGroup) :=
  gsteps (SM := shard_sm cfg1)
    (election ++ APropose "s0n0" (Encode put_c) :: round_acts 3 4 2 ++
     [AHeartbeat "s0n0"; AHandle e0 6; AHandle e0 8; ACatchUpDone e0 8 (Some 4); AApply "s0n1"])
    (new_group (SM := shard_sm cfg1) (shard_ids cfg1 0) e0 DefaultTiming).

Lemma replica_ledgers_are_sound_witness :
  exists g n h, after_put = Some g /\ nodes (gsys g) !! "s0n1" = Some n /\ length h = 1 /\
    sm n = run_cmds (omap decode h) (New 256) /\ ledger_inv (sm n) /\
    eq64 (total (sm n)) (net_effects (omap decode h) (New 256)).
Proof.
  destruct after_put as [g|] eqn:Hg; [|vm_compute in Hg; discriminate].
  destruct (nodes (gsys g) !! "s0n1") as [n|] eqn:Hn.
  2: { exfalso. vm_compute in Hg. injection Hg as <-. vm_compute in Hn. discriminate. }
  assert (appliedIndex n = 1%N /\ gproposed g = [(1%N, Encode put_c)]) as [Hi Hp].
  { clear -Hg Hn. vm_compute in Hg. injection Hg as <-. vm_compute in Hn. by injection Hn as <-. }
  destruct (replica_ledgers_are_sound cfg1 (shard_ids cfg1 0) e0 DefaultTiming _ g "s0n1" n Hg Hn)
    as (h & H1 & _ & H2 & H3 & H4).
  { rewrite Hp. intros slot raw cmd Hin. apply list_elem_of_singleton in Hin as [= -> ->].
    intros Hd. vm_compute in Hd. injection Hd as <-. vm_compute. split; discriminate. }
  exists g, n, h. split_and!; [done|done|lia|exact H2|exact H3|exact H4].
Defined.
End Replay.

(** ** A transfer between two such shards *)

Module TwoGroups.
Definition cfg2 : ClusterConfig := mkClusterConfig 2 3 256 DefaultTiming.

(** alice lives on s1 and bob on s0. *)
Definition commands2 : list Command :=
  [mkCommand OpPut "alice" "" 100 ""; mkCommand OpPut "bob" "" 5 ""] ++
  (call_command <$> [CPrepare "s1" "tx1" "alice" (-30); CPrepare "s0" "tx1" "bob" 30; CCommit "s1" "tx1"; CAbort "s1" "tx1"]).

#[local] Instance codec2 : CommandCodec := {|
  Encode := Command_String;
  Decode raw :=
    match list_find (fun c => Command_String c = raw) commands2 with
    | Some (_, c) => inl c
    | None => inr "unexpected command"
    end;
|}.

Definition e0 : env := mkEnv 0 0 true true.

(** The first replica of each shard is elected during the first call; the [k]th
    round of a shard gets the acceptance of its second replica. *)
Definition election_of (s : string) : list action :=
  [ACampaign (s +:+ "n0"); AHandle e0 0; APrepare e0 1 [0]; AHandle e0 2; AElect e0 1 [1]; AReplicate e0 1].
Definition round_of (leader : string) (k : nat) : list action :=
  [AReplicate e0 (3 + 2 * k); AHandle e0 (4 + 2 * k); AAccepted e0 (3 + 2 * k) [2 + k]; AApply leader].

(** The calls at which the proposals of s0 and of s1 get their round. *)
Definition plan2 (at0 at1 : list nat) (call : nat) : weather :=
  mkWeather 0 false (fun s =>
    if call =? 0 then election_of (shard_name s)
    else match list_find (eq call) (if (s =? 0)%Z then at0 else at1) with
         | Some (k, _) => round_of (shard_name s +:+ "n0") k
         | None => []
         end).

Definition world2 (at0 at1 : list nat) : World cfg2 :=
  mkWorld cfg2 0 0 (plan2 at0 at1)
    (fun s => new_group (SM := shard_sm cfg2) (shard_ids cfg2 s) e0 DefaultTiming)
    (fun s => new_group_ok (SM := shard_sm cfg2) (shard_ids cfg2 s) e0 DefaultTiming).

(** Both accounts are there. *)
Definition funded (at0 at1 : list nat) : Engine (World cfg2) :=
  (Put cfg2 "bob" 5 (Put cfg2 "alice" 100 (start cfg2 (world2 at0 at1))).1).1.

Definition outage2 : list fault_command := [CmdKill "s1n0"; CmdPartition [["s0n0"; "s0n1"]]; CmdHeal].

Lemma unheard_funded s :
  s = 0%Z \/ s = 1%Z -> unheard_at "tx1" s (funded [13; 21; 29] [9; 17; 25]).
Proof.
  intros Hs. assert (exists c, in_int64 (Amount c) /\ machine (funded [13; 21; 29] [9; 17; 25]) s = run_cmds [c] (New 256) /\
    ledger_status (run_cmds [c] (New 256)) "tx1" = Working) as (c & Ha & Hm & Hw).
  { destruct Hs as [->| ->]; [exists (mkCommand OpPut "bob" "" 5 "")|exists (mkCommand OpPut "alice" "" 100 "")];
      (split; [vm_compute; split; discriminate|split; vm_compute; reflexivity]). }
  split_and!; [rewrite Hm|by rewrite Hm|].
  - apply run_cmds_inv; [by intros c' ->%list_elem_of_singleton|apply New_inv].
  - assert (pending (funded [13; 21; 29] [9; 17; 25]) s = []) as -> by (destruct Hs as [->| ->]; vm_compute; reflexivity).
    constructor.
Qed.

Lemma replicated_transfer_atomic_witness :
  let e := funded [13; 21; 29] [9; 17; 25] in
  let '(e1, r) := eng_Transfer cfg2 "alice" "bob" 30 e in
  let e2 := fold_left (fun e c => (run_command cfg2 c e).1) outage2 e1 in
  transfer_outcome "tx1" "alice" "bob" 30 (machine e2 1) (machine e2 0) r.
Proof.
  intros e.
  assert (ShardFor "alice" (Shards cfg2) = 1%Z) as Hf by (vm_compute; reflexivity).
  assert (ShardFor "bob" (Shards cfg2) = 0%Z) as Ht by (vm_compute; reflexivity).
  assert (tx_name (eSeq e) = "tx1") as Htx by (vm_compute; reflexivity).
  pose proof (replicated_transfer_atomic cfg2 "alice" "bob" 30 outage2 e) as H. cbv zeta in H. rewrite Hf, Ht, Htx in H.
  specialize (H eq_refl ltac:(discriminate) ltac:(split; discriminate)).
  destruct (eng_Transfer cfg2 "alice" "bob" 30 e) as [e1 r]. apply H; [|apply unheard_funded; auto..].
  intros k (l & Hl & Hk). apply elem_of_cons in Hl as [->|Hl]; [|apply list_elem_of_singleton in Hl as ->];
    destruct Hk as [->|[->| ->]]; vm_compute; reflexivity.
Defined.

(** The transfer succeeds; without the last round it is in doubt; without a round
    for the receiver's vote it is refused. *)
Example transfer_endings :
  (eng_Transfer cfg2 "alice" "bob" 30 (funded [13; 21; 29] [9; 17; 25])).2 = None /\
  (eng_Transfer cfg2 "alice" "bob" 30 (funded [13; 21] [9; 17; 25])).2 = Some (EInDoubt "tx1" ["s0"]) /\
  (exists text, (eng_Transfer cfg2 "alice" "bob" 30 (funded [13] [9; 17; 25])).2 = Some (EVotedNo "s0" (ENoQuorum 0 text))).
Proof. vm_compute. eauto. Qed.
End TwoGroups.
