(* ===== verification/Money.v ===== *)
(** * Amounts of money: float64 and exact

    The banks compute with float64 and store balances with two decimals.
    [Amount] is the arithmetic they use; [float64] is the instance the code has,
    by the IEEE 754 operations of the standard library's specification of
    floats; [ExactAmount] is what exact arithmetic would add, and [cents] an
    instance of it.  Theorems that need exactness say so. *)

From Stdlib Require Import SpecFloat.
From S2P Require Import Prelude GoText.

Class Amount (A : Type) := {
  a_zero : A;
  a_add : A -> A -> A;
  a_sub : A -> A -> A;
  a_neg : A -> A;
  a_ltb : A -> A -> bool;              (* Go's < *)
  a_leb : A -> A -> bool;              (* Go's <= *)
  a_eqb : A -> A -> bool;              (* Go's ==, false on NaN *)
  a_format : A -> string;              (* strconv.FormatFloat(x, 'f', 2, 64) *)
  a_parse : string -> option A;        (* strconv.ParseFloat(s, 64) *)
}.

(** Arithmetic without rounding, in units of [a_val], that two decimals represent:
    what the code's float64 is not ([float64_not_exact]). *)
Class ExactAmount (A : Type) `{Amount A} := {
  a_val : A -> Z;
  a_val_inj x y : a_val x = a_val y -> x = y;
  a_zero_val : a_val a_zero = 0%Z;
  a_add_val x y : a_val (a_add x y) = (a_val x + a_val y)%Z;
  a_sub_val x y : a_val (a_sub x y) = (a_val x - a_val y)%Z;
  a_neg_val x : a_val (a_neg x) = (- a_val x)%Z;
  a_ltb_val x y : a_ltb x y = (a_val x <? a_val y)%Z;
  a_leb_val x y : a_leb x y = (a_val x <=? a_val y)%Z;
  a_eqb_val x y : a_eqb x y = (a_val x =? a_val y)%Z;
  a_parse_format x : a_parse (a_format x) = Some x;
}.

(** ** Decimal text *)

(** [%02d] of a number below 100. *)
Definition two_digits (n : N) : string := (if (n <? 10)%N then "0" else "") +:+ fmt_N n.

(** An amount of hundredths, with the sign apart. *)
Definition fmt_hundredths (neg : bool) (n : N) : string :=
  (if neg then "-" else "") +:+ fmt_N (n / 100) +:+ "." +:+ two_digits (n mod 100).

(** A run of digits, empty for zero. *)
Definition parse_digits (s : string) : option N := if String.eqb s "" then Some 0%N else parse_N s.

(** [-]digits[.digits]: sign, the number without its point, and how many digits
    follow the point. *)
Definition parse_decimal (s : string) : option (bool * N * nat) :=
  let '(neg, rest) := take_sign s in
  let '(whole, tail) := take_digits rest in
  match tail with
  | EmptyString => n ← parse_N whole; Some (neg, n, 0)
  | String c frac =>
      if negb (Ascii.eqb c "."%char) then None
      else
        let '(digits, tail') := take_digits frac in
        match tail' with
        | EmptyString =>
            if String.eqb (whole +:+ digits) "" then None
            else
              n ← parse_digits whole;
              m ← parse_digits digits;
              let scale := String.length digits in
              Some (neg, (n * 10 ^ N.of_nat scale + m)%N, scale)
        | _ => None
        end
  end.

(** ** float64 *)

Definition float64 : Type := spec_float.

Definition f64_of_Z (z : Z) : float64 := binary_normalize 53 1024 z 0 false.

(** [n / d] rounded to the nearest integer, ties to even. *)
Definition round_half_even (n d : Z) : Z :=
  let q := (n / d)%Z in
  let r := (2 * (n mod d))%Z in
  if (r <? d)%Z then q
  else if (d <? r)%Z then (q + 1)%Z
  else if Z.even q then q else (q + 1)%Z.

(** The hundredths of [m * 2^e], rounded as [FormatFloat] rounds. *)
Definition hundredths (m : positive) (e : Z) : Z :=
  if (0 <=? e)%Z then (Zpos m * 100 * 2 ^ e)%Z else round_half_even (Zpos m * 100) (2 ^ (- e)).

Definition format_float (x : float64) : string :=
  match x with
  | S754_zero neg => fmt_hundredths neg 0
  | S754_infinity neg => if neg then "-Inf" else "+Inf"
  | S754_nan => "NaN"
  | S754_finite neg m e => fmt_hundredths neg (Z.to_N (hundredths m e))
  end.

(** The float nearest to a decimal: the quotient of two integers, each exact up
    to 2^53, is correctly rounded.  Of the texts Go also reads, exponents, hex
    floats, underscores and other spellings of the special values are left out. *)
Definition parse_float (s : string) : option float64 :=
  if String.eqb s "NaN" then Some S754_nan
  else if String.eqb s "+Inf" then Some (S754_infinity false)
  else if String.eqb s "-Inf" then Some (S754_infinity true)
  else
    '(neg, n, scale) ← parse_decimal s;
    let x := SFdiv 53 1024 (f64_of_Z (Z.of_N n)) (f64_of_Z (10 ^ Z.of_nat scale)) in
    Some (if neg : bool then SFopp x else x).

#[export] Instance float_amount : Amount float64 := {|
  a_zero := S754_zero false;
  a_add := SFadd 53 1024;
  a_sub := SFsub 53 1024;
  a_neg := SFopp;
  a_ltb := SFltb;
  a_leb := SFleb;
  a_eqb := SFeqb;
  a_format := format_float;
  a_parse := parse_float;
|}.

Definition dollars (text : string) : float64 := default S754_nan (parse_float text).

(** Two decimals survive the file; a third one does not. *)
Example format_examples :
  format_float (dollars "100.25") = "100.25" /\ format_float (dollars "-0.10") = "-0.10" /\
  format_float (SFsub 53 1024 (dollars "2") (dollars "0.005")) = "2.00" /\ format_float (dollars "0.005") = "0.01".
Proof. vm_compute. auto. Qed.

(** The arithmetic of the code is not exact: what a balance file keeps of half a
    cent is not half a cent. *)
Lemma float64_not_exact : ExactAmount float64 -> False.
Proof. intros EA. pose proof (a_parse_format (dollars "0.005")) as Hx. vm_compute in Hx. discriminate. Qed.

(** ** Exact cents *)

Definition cents : Type := Z.

Definition parse_cents (s : string) : option cents :=
  '(neg, n, scale) ← parse_decimal s;
  if scale =? 2 then Some (if neg : bool then (- Z.of_N n)%Z else Z.of_N n) else None.

#[export] Instance cents_amount : Amount cents := {|
  a_zero := 0%Z;
  a_add := Z.add;
  a_sub := Z.sub;
  a_neg := Z.opp;
  a_ltb := Z.ltb;
  a_leb := Z.leb;
  a_eqb := Z.eqb;
  a_format z := fmt_hundredths (z <? 0)%Z (Z.to_N (Z.abs z));
  a_parse := parse_cents;
|}.

Lemma take_digits_two n : (n < 100)%N -> take_digits (two_digits n) = (two_digits n, EmptyString).
Proof.
  intros Hn. unfold two_digits. destruct (n <? 10)%N; [|rewrite str_app_nil_l; apply fmt_N_digits].
  rewrite str_app_cons, str_app_nil_l. simpl. by rewrite fmt_N_digits.
Qed.

Lemma parse_two_digits n : (n < 100)%N -> parse_digits (two_digits n) = Some n /\ String.length (two_digits n) = 2.
Proof.
  intros Hn. destruct n as [|p]; [done|].
  do 7 (try destruct p as [p|p|]); first [by split; vm_compute|exfalso; lia].
Qed.

Lemma parse_hundredths neg n : parse_decimal (fmt_hundredths neg n) = Some (neg, n, 2).
Proof.
  unfold parse_decimal, fmt_hundredths. set (f := two_digits (n mod 100)).
  assert (n mod 100 < 100)%N as Hm by (apply N.mod_lt; lia).
  destruct (parse_two_digits _ Hm) as [Hp Hl]. pose proof (take_digits_two _ Hm) as Ht. fold f in Hp, Hl, Ht.
  assert (take_sign ((if neg then "-" else "") +:+ fmt_N (n / 100) +:+ "." +:+ f) =
          (neg, fmt_N (n / 100) +:+ "." +:+ f)) as ->.
  { destruct neg; [by rewrite str_app_cons, str_app_nil_l|]. rewrite str_app_nil_l. apply take_sign_fmt_N. }
  rewrite take_digits_fmt_N by done. rewrite str_app_cons, str_app_nil_l. simpl. rewrite Ht.
  destruct (fmt_N_head (n / 100)) as (c & s & Hc & _).
  assert (parse_digits (fmt_N (n / 100)) = Some (n / 100)%N) as ->.
  { unfold parse_digits. rewrite parse_fmt_N, Hc. done. }
  rewrite Hp, Hl, Hc, str_app_cons. simpl. do 3 f_equal.
  rewrite (N.div_mod n 100) at 3 by lia. change (10 ^ 2)%N with 100%N. lia.
Qed.

#[export] Instance cents_exact : ExactAmount cents.
Proof.
  refine {| a_val := fun z : cents => z |}; try done. intros x. simpl. unfold parse_cents.
  rewrite parse_hundredths. simpl. destruct (Z.ltb_spec x 0); f_equal; lia.
Defined.
