(* ===== verification/Console.v ===== *)
(** * internal/gateway: the operator's console

    The command language (command.go) and the rate limit (limits.go).  The bucket
    is written over the arithmetic of its tokens ([Bucket]): float64, which the
    code has, and exact billionths, for which the numeric bound is proved. *)

From Stdlib Require Import SpecFloat.
From S2P Require Import Prelude GoText Money PaxosTypes PaxosNode Ledger TwoPC Faults Transport Cluster Engine.

(** ** The command language *)

Inductive verb :=
| verbStatus | verbPut | verbGet | verbTransfer | verbKill | verbRevive
| verbPartition | verbHeal | verbDatastore | verbHelp | verbClear | verbDemo.

#[export] Instance verb_eq_dec : EqDecision verb.
Proof. solve_decision. Defined.

Definition verbs : list (string * verb) :=
  [("status", verbStatus); ("put", verbPut); ("get", verbGet); ("transfer", verbTransfer); ("kill", verbKill);
   ("revive", verbRevive); ("partition", verbPartition); ("heal", verbHeal); ("datastore", verbDatastore);
   ("help", verbHelp); ("clear", verbClear); ("demo", verbDemo)].

Definition verbOf (name : string) : option verb :=
  snd ∘ snd <$> list_find (fun p => p.1 = name) verbs.

Definition verbString (v : verb) : string :=
  match v with
  | verbStatus => "status" | verbPut => "put" | verbGet => "get" | verbTransfer => "transfer"
  | verbKill => "kill" | verbRevive => "revive" | verbPartition => "partition" | verbHeal => "heal"
  | verbDatastore => "datastore" | verbHelp => "help" | verbClear => "clear" | verbDemo => "demo"
  end.

Record command := mkCmd {
  Verb : verb;
  cmdKey : string;
  cmdFrom : string;
  cmdTo : string;
  Value : Z;
  cmdNode : string;
  Groups : list (list string);
}.

Inductive parseError := errEmpty | errMsg (text : string).

Definition maxKeyLen : nat := 32.

Definition key_char (c : Ascii.ascii) : bool :=
  (byte c =? 45) || (byte c =? 95) || between 97 122 c || between 65 90 c || between 48 57 c.

Definition parseKey (s : string) : string + parseError :=
  if String.eqb s "" then inr (errMsg "key must not be empty")
  else if maxKeyLen <? String.length s then
    inr (errMsg ("key must be at most " +:+ fmt_d (Z.of_nat maxKeyLen) +:+ " characters"))
  else if negb (all_chars key_char s) then
    inr (errMsg ("key " +:+ fmt_q s +:+ " may only contain letters, digits, - and _"))
  else inl s.

(** The words of one group, with the nodes named so far. *)
Fixpoint parse_group (ids : list string) (seen : gset string) (group : list string)
    : (list string * gset string) + parseError :=
  match ids with
  | [] => inl (group, seen)
  | id :: rest =>
      let id := ToLower id in
      if decide (id ∈ seen) then inr (errMsg ("node " +:+ id +:+ " appears in more than one group"))
      else parse_group rest ({[id]} ∪ seen) (group ++ [id])
  end.

Fixpoint parse_chunks (chunks : list string) (seen : gset string) (groups : list (list string))
    : list (list string) + parseError :=
  match chunks with
  | [] => inl groups
  | chunk :: rest =>
      match parse_group (Fields chunk) seen [] with
      | inr err => inr err
      | inl (group, seen') =>
          if length group =? 0 then inr (errMsg "every partition group must name at least one node")
          else parse_chunks rest seen' (groups ++ [group])
      end
  end.

Definition parseGroups (args : list string) : list (list string) + parseError :=
  let joined := Join " " args in
  if String.eqb (TrimSpace joined) "" then inr (errMsg "usage: partition <ids...> | <ids...>")
  else
    match parse_chunks (Split "|"%char joined) ∅ [] with
    | inr err => inr err
    | inl groups =>
        if length groups <? 2 then inr (errMsg "partition needs at least two groups separated by |")
        else inl groups
    end.

Definition bare (v : verb) : command := mkCmd v "" "" "" 0 "" [].

Definition parse (line : string) : command + parseError :=
  let line := TrimSpace line in
  if String.eqb line "" then inr errEmpty
  else
    match Fields line with
    | [] => inr errEmpty   (* unreachable: the line has a word *)
    | w :: args =>
        let name := ToLower w in
        match verbOf name with
        | Some ((verbStatus | verbHeal | verbHelp | verbClear | verbDatastore | verbDemo) as v) =>
            match args with
            | [] => inl (bare v)
            | _ => inr (errMsg (name +:+ " takes no arguments"))
            end
        | Some verbPut =>
            match args with
            | [k; v] =>
                match parseKey k with
                | inr err => inr err
                | inl key =>
                    match ParseInt v with
                    | None => inr (errMsg (fmt_q v +:+ " is not an integer"))
                    | Some value => inl (mkCmd verbPut key "" "" value "" [])
                    end
                end
            | _ => inr (errMsg "usage: put <key> <val>")
            end
        | Some verbGet =>
            match args with
            | [k] => match parseKey k with inr err => inr err | inl key => inl (mkCmd verbGet key "" "" 0 "" []) end
            | _ => inr (errMsg "usage: get <key>")
            end
        | Some verbTransfer =>
            match args with
            | [f; t; a] =>
                match parseKey f, parseKey t with
                | inr err, _ => inr err
                | _, inr err => inr err
                | inl from, inl to =>
                    if String.eqb from to then inr (errMsg "cannot transfer to the same account")
                    else match ParseInt a with
                         | None => inr (errMsg (fmt_q a +:+ " is not an integer"))
                         | Some amount =>
                             if (amount <=? 0)%Z then inr (errMsg "amount must be positive")
                             else inl (mkCmd verbTransfer "" from to amount "" [])
                         end
                end
            | _ => inr (errMsg "usage: transfer <from> <to> <amt>")
            end
        | Some ((verbKill | verbRevive) as v) =>
            match args with
            | [n] => inl (mkCmd v "" "" "" 0 (ToLower n) [])
            | _ => inr (errMsg ("usage: " +:+ name +:+ " <node>"))
            end
        | Some verbPartition =>
            match parseGroups args with
            | inr err => inr err
            | inl groups => inl (mkCmd verbPartition "" "" "" 0 "" groups)
            end
        | None => inr (errMsg ("unknown command: " +:+ name))
        end
    end.

(** [strings.Split(helpText, "\n")]. *)
Definition helpText : list string :=
  ["commands:";
   "  status                      leaders, terms, liveness, and where each key lives";
   "  datastore                   every replica's balances and log tail, side by side";
   "  put <key> <val>             Paxos write on the key's shard";
   "  get <key>                   linearizable read, served through the shard's log";
   "  transfer <from> <to> <amt>  2PC across shards, single round if same shard";
   "  kill <node>                 fail a node (e.g. kill s0n1); re-election if leader";
   "  revive <node>               bring it back and let it rejoin";
   "  partition <ids> | <ids>     split the network; unlisted nodes form one more group";
   "  heal                        remove all partitions";
   "  clear                       clear the screen";
   "  demo                        run the guided tour (client-side)";
   "  help                        this list"].

(** ** The rate limit *)

Definition commandsPerSecond : Z := 10.
Definition commandBurst : Z := 20.

(** The arithmetic of tokens.  [b_refill] is [d.Seconds() * rate] for a duration
    in nanoseconds. *)
Class Bucket (T : Type) := {
  b_of_Z : Z -> T;
  b_add : T -> T -> T;
  b_sub : T -> T -> T;
  b_ltb : T -> T -> bool;
  b_refill : Z -> Z -> T;
}.

(** Times are nanoseconds; [rate] is the constant 10, exact as a float64. *)
Record rateLimiter (T : Type) := mkLimiter { tokens : T; burst : T; rate : Z; last : Z }.
Arguments mkLimiter {T}.
Arguments tokens {T}.
Arguments burst {T}.
Arguments rate {T}.
Arguments last {T}.

Definition newRateLimiter {T} `{Bucket T} (rate burst now : Z) : rateLimiter T :=
  mkLimiter (b_of_Z burst) (b_of_Z burst) rate now.

Definition allow {T} `{Bucket T} (now : Z) (r : rateLimiter T) : rateLimiter T * bool :=
  let t := b_add (tokens r) (b_refill (now - last r) (rate r)) in
  let t := if b_ltb (burst r) t then burst r else t in
  if b_ltb t (b_of_Z 1) then (mkLimiter t (burst r) (rate r) now, false)
  else (mkLimiter (b_sub t (b_of_Z 1)) (burst r) (rate r) now, true).

(** [Duration.Seconds]: the whole seconds and the nanoseconds apart. *)
Definition duration_seconds (d : Z) : float64 :=
  SFadd 53 1024 (f64_of_Z (Z.quot d 1000000000)) (SFdiv 53 1024 (f64_of_Z (Z.rem d 1000000000)) (f64_of_Z 1000000000)).

#[export] Instance float_bucket : Bucket float64 := {|
  b_of_Z := f64_of_Z;
  b_add := SFadd 53 1024;
  b_sub := SFsub 53 1024;
  b_ltb := SFltb;
  b_refill d rate := SFmul 53 1024 (duration_seconds d) (f64_of_Z rate);
|}.

(** Billionths of a token: a nanosecond at [rate] tokens per second refills
    [rate] of them. *)
Definition billionths : Type := Z.
Definition token : Z := 1000000000.

#[export] Instance exact_bucket : Bucket billionths := {|
  b_of_Z n := (n * token)%Z;
  b_add := Z.add;
  b_sub := Z.sub;
  b_ltb := Z.ltb;
  b_refill d rate := (d * rate)%Z;
|}.

(** ** Well-formed commands and their canonical text *)

Definition valid_key (s : string) : Prop := s <> "" /\ String.length s <= maxKeyLen /\ all_chars key_char s = true.
Definition no_bar : string -> bool := all_chars (fun c => negb (Ascii.eqb c "|"%char)).
Definition node_word (s : string) : Prop := is_word s /\ ToLower s = s.

Definition wf_groups (gs : list (list string)) : Prop :=
  2 <= length gs /\ Forall (fun g => g <> []) gs /\ NoDup (mjoin gs) /\
  Forall (fun n => node_word n /\ no_bar n = true) (mjoin gs).

Definition wf_command (c : command) : Prop :=
  match Verb c with
  | verbPut => c = mkCmd verbPut (cmdKey c) "" "" (Value c) "" [] /\ valid_key (cmdKey c) /\ in_int64 (Value c)
  | verbGet => c = mkCmd verbGet (cmdKey c) "" "" 0 "" [] /\ valid_key (cmdKey c)
  | verbTransfer =>
      c = mkCmd verbTransfer "" (cmdFrom c) (cmdTo c) (Value c) "" [] /\ valid_key (cmdFrom c) /\
      valid_key (cmdTo c) /\ cmdFrom c <> cmdTo c /\ (0 < Value c)%Z /\ in_int64 (Value c)
  | (verbKill | verbRevive) as v => c = mkCmd v "" "" "" 0 (cmdNode c) [] /\ node_word (cmdNode c)
  | verbPartition => c = mkCmd verbPartition "" "" "" 0 "" (Groups c) /\ wf_groups (Groups c)
  | v => c = bare v
  end.

Fixpoint render_groups (gs : list (list string)) : list string :=
  match gs with
  | [] => []
  | [g] => g
  | g :: rest => g ++ "|" :: render_groups rest
  end.

Definition render_args (c : command) : list string :=
  match Verb c with
  | verbPut => [cmdKey c; fmt_d (Value c)]
  | verbGet => [cmdKey c]
  | verbTransfer => [cmdFrom c; cmdTo c; fmt_d (Value c)]
  | verbKill | verbRevive => [cmdNode c]
  | verbPartition => render_groups (Groups c)
  | _ => []
  end.

Definition render (c : command) : string := Join " " (verbString (Verb c) :: render_args c).

(** *** Text lemmas *)

Lemma fields_all_space cur s :
  all_space s = true -> fields_go cur s = match cur with EmptyString => [] | _ => [cur] end.
Proof.
  revert cur. induction s as [|c s IH]; intros cur Hs; simpl; [done|].
  simpl in Hs. apply andb_prop in Hs as [-> Hs]. rewrite IH by done. by rewrite app_nil_r.
Qed.

Lemma fields_trim_right cur s : fields_go cur (trim_right s) = fields_go cur s.
Proof.
  revert cur. induction s as [|c s IH]; intros cur; [done|].
  cbn [trim_right]. destruct (all_space (String c s)) eqn:Hs; [by rewrite (fields_all_space cur _ Hs)|].
  simpl. by rewrite !IH.
Qed.

Lemma Fields_TrimSpace s : Fields (TrimSpace s) = Fields s.
Proof.
  unfold Fields, TrimSpace. rewrite fields_trim_right. induction s as [|c s IH]; [done|].
  simpl. destruct (is_space c) eqn:Hc; [exact IH|]. simpl. by rewrite Hc.
Qed.

Lemma TrimSpace_words s : Fields s <> [] -> String.eqb (TrimSpace s) "" = false.
Proof.
  intros Hf. apply String.eqb_neq. intros He. apply Hf. by rewrite <- Fields_TrimSpace, He.
Qed.

Lemma trim_right_space s : trim_right s = "" -> all_space s = true.
Proof. destruct s as [|c s]; [done|]. cbn [trim_right]. by destruct (all_space (String c s)). Qed.

Lemma TrimSpace_empty s : Fields s = [] -> TrimSpace s = "".
Proof.
  unfold TrimSpace, Fields. intros Hf. assert (all_space s = true) as Hs.
  { revert Hf. assert (forall cur, fields_go cur s = [] -> all_space s = true) as Hg; [|apply Hg].
    induction s as [|c s IH]; intros cur; simpl; [done|]. destruct (is_space c); simpl.
    - destruct cur; simpl; [apply IH|done].
    - intros Hn. exfalso. assert (forall w t, fields_go (w +:+ String c t) s <> []) as Hne.
      { clear. induction s as [|d s IH]; intros w t; simpl.
        - by destruct w.
        - destruct (is_space d); [by destruct w|]. rewrite str_app_assoc, str_app_cons. apply IH. }
      by apply (Hne cur ""). }
  assert (trim_left s = "") as ->; [|done]. induction s as [|c s IH]; [done|].
  simpl in *. apply andb_prop in Hs as [Hc Hs]. rewrite Hc in *. by apply IH.
Qed.

Lemma split_go_pieces sep cur s :
  all_chars (fun c => negb (Ascii.eqb c sep)) cur = true ->
  Forall (fun p => all_chars (fun c => negb (Ascii.eqb c sep)) p = true) (split_go sep cur s).
Proof.
  revert cur. induction s as [|c s IH]; intros cur Hcur; simpl; [by repeat constructor|].
  destruct (Ascii.eqb c sep) eqn:Hc; [constructor; [done|by apply IH]|].
  apply IH. rewrite all_chars_app, Hcur. simpl. by rewrite Hc.
Qed.

Lemma fields_go_chars p cur s :
  all_chars p cur = true -> all_chars p s = true -> Forall (fun w => all_chars p w = true) (fields_go cur s).
Proof.
  revert cur. induction s as [|c s IH]; intros cur Hcur Hs; simpl in *.
  - destruct cur; repeat constructor; done.
  - apply andb_prop in Hs as [Hc Hs]. destruct (is_space c).
    + apply Forall_app. split; [destruct cur; repeat constructor; done|by apply IH].
    + apply IH; [|done]. rewrite all_chars_app, Hcur. simpl. by rewrite Hc.
Qed.

Lemma lower_facts c :
  lower (lower c) = lower c /\ is_space (lower c) = is_space c /\
  (Ascii.eqb (lower c) "|" = Ascii.eqb c "|").
Proof. destruct c as [[] [] [] [] [] [] [] []]; vm_compute; auto. Qed.

Lemma ToLower_idem s : ToLower (ToLower s) = ToLower s.
Proof. induction s as [|c s IH]; simpl; [done|]. destruct (lower_facts c) as (-> & _). by rewrite IH. Qed.

Lemma ToLower_word s : is_word s -> node_word (ToLower s).
Proof.
  intros [Hne Hs]. split; [|apply ToLower_idem]. split; [by destruct s|]. clear Hne.
  induction s as [|c s IH]; [done|]. simpl in *. apply andb_prop in Hs as [Hc Hs].
  destruct (lower_facts c) as (_ & -> & _). by rewrite Hc, IH.
Qed.

Lemma ToLower_no_bar s : no_bar s = true -> no_bar (ToLower s) = true.
Proof.
  unfold no_bar. induction s as [|c s IH]; [done|]. simpl. intros [Hc Hs]%andb_prop.
  destruct (lower_facts c) as (_ & _ & ->). by rewrite Hc, IH.
Qed.

(** *** Groups *)

(** What the parser of groups has collected: the nodes seen are those of the
    groups, each named once. *)
Definition collected (names : list string) (seen : gset string) : Prop :=
  NoDup names /\ (forall n, n ∈ seen <-> n ∈ names) /\ Forall (fun n => node_word n /\ no_bar n = true) names.

Lemma parse_group_sound ids seen before group group' seen' :
  Forall (fun w => is_word w /\ no_bar w = true) ids -> collected (before ++ group) seen ->
  parse_group ids seen group = inl (group', seen') -> collected (before ++ group') seen'.
Proof.
  revert seen group. induction ids as [|w ids IH]; intros seen group Hw Hc; simpl; [by intros [= <- <-]|].
  inversion_clear Hw as [|? ? [Hword Hbar] Hrest]. destruct (decide (ToLower w ∈ seen)) as [|Hn]; [done|].
  apply IH; [done|]. destruct Hc as (Hnd & Hseen & Hall). rewrite app_assoc. split_and!.
  - apply NoDup_app. split_and!; [done| |apply NoDup_singleton].
    intros n Hn' ->%list_elem_of_singleton. apply Hn. by apply Hseen.
  - intros n. rewrite elem_of_union, elem_of_singleton, elem_of_snoc, Hseen. naive_solver.
  - apply Forall_app. split; [done|]. constructor; [|done].
    split; [by apply ToLower_word|by apply ToLower_no_bar].
Qed.

Lemma parse_chunks_sound chunks seen groups out :
  Forall (fun p => no_bar p = true) chunks -> collected (mjoin groups) seen -> Forall (fun g => g <> []) groups ->
  parse_chunks chunks seen groups = inl out ->
  Forall (fun g => g <> []) out /\ exists seen', collected (mjoin out) seen'.
Proof.
  revert seen groups. induction chunks as [|ch chunks IH]; intros seen groups Hb Hc Hne; simpl.
  { intros [= <-]. eauto. }
  inversion_clear Hb as [|? ? Hbar Hrest].
  destruct (parse_group (Fields ch) seen []) as [[group seen']|] eqn:Hg; [|done].
  destruct (Nat.eqb_spec (length group) 0) as [|Hlen]; [done|]. apply IH; [done| |].
  - assert (mjoin (groups ++ [group]) = mjoin groups ++ group) as ->.
    { clear. induction groups as [|g gs IHg]; simpl; [by rewrite app_nil_r|]. by rewrite IHg, app_assoc. }
    eapply parse_group_sound; [|rewrite app_nil_r; exact Hc|exact Hg].
    apply Forall_and. split; [apply Fields_words|]. by apply fields_go_chars.
  - apply Forall_app. split; [done|]. constructor; [|done]. by destruct group.
Qed.

Lemma parseGroups_sound args gs : parseGroups args = inl gs -> wf_groups gs.
Proof.
  unfold parseGroups. destruct (String.eqb _ _); [done|].
  destruct (parse_chunks _ _ _) as [out|] eqn:Hp; [|done].
  destruct (Nat.ltb_spec (length out) 2); [done|]. intros [= <-].
  apply parse_chunks_sound in Hp as (Hne & seen & Hnd & _ & Hall).
  - done.
  - by apply split_go_pieces.
  - split_and!; [constructor|set_solver|constructor].
  - constructor.
Qed.

Lemma parse_group_complete ids seen group :
  Forall (fun n => ToLower n = n) ids -> NoDup ids -> (forall n, n ∈ ids -> n ∉ seen) ->
  exists seen', parse_group ids seen group = inl (group ++ ids, seen') /\ forall n, n ∈ seen' <-> n ∈ seen \/ n ∈ ids.
Proof.
  revert seen group. induction ids as [|w ids IH]; intros seen group Hl Hnd Hs; simpl.
  { exists seen. rewrite app_nil_r. split; [done|]. set_solver. }
  inversion_clear Hl as [|? ? Hw Hrest]. apply NoDup_cons in Hnd as [Hnw Hnd]. rewrite Hw.
  rewrite decide_False by (apply Hs; left).
  destruct (IH ({[w]} ∪ seen) (group ++ [w])) as (seen' & -> & Hseen); [done|done|set_solver|].
  exists seen'. rewrite <- app_assoc. split; [done|]. intros n. rewrite Hseen. set_solver.
Qed.

Lemma parse_chunks_complete chunks gs seen groups :
  Fields <$> chunks = gs -> Forall (fun g => g <> []) gs -> Forall (fun n => ToLower n = n) (mjoin gs) ->
  NoDup (mjoin gs) -> (forall n, n ∈ mjoin gs -> n ∉ seen) ->
  parse_chunks chunks seen groups = inl (groups ++ gs).
Proof.
  intros <-. revert seen groups. induction chunks as [|ch chunks IH]; intros seen groups Hne Hl Hnd Hs; simpl.
  { by rewrite app_nil_r. }
  simpl in *. inversion_clear Hne as [|? ? Hne1 Hne']. apply Forall_app in Hl as [Hl1 Hl].
  apply NoDup_app in Hnd as (Hnd1 & Hdis & Hnd).
  destruct (parse_group_complete (Fields ch) seen []) as (seen' & -> & Hseen); [done|done|set_solver|]. simpl.
  rewrite (proj2 (Nat.eqb_neq (length (Fields ch)) 0)) by (by destruct (Fields ch)).
  rewrite IH; [by rewrite <- app_assoc|done|done|done|]. intros n Hn. rewrite Hseen. set_solver.
Qed.

Lemma Join_app a b : a <> [] -> b <> [] -> Join " " (a ++ b) = Join " " a +:+ " " +:+ Join " " b.
Proof.
  intros Ha Hb. induction a as [|x a IH]; [done|]. destruct a as [|y a].
  - simpl. by destruct b.
  - change (Join " " ((x :: y :: a) ++ b)) with (x +:+ " " +:+ Join " " ((y :: a) ++ b)).
    rewrite IH by done. change (Join " " (x :: y :: a)) with (x +:+ " " +:+ Join " " (y :: a)).
    by rewrite !str_app_assoc.
Qed.

Lemma Join_no_bar ws : Forall (fun w => no_bar w = true) ws -> no_bar (Join " " ws) = true.
Proof.
  unfold no_bar. induction 1 as [|w ws Hw Hws IH]; [done|]. destruct ws as [|w' ws]; [done|].
  change (Join " " (w :: w' :: ws)) with (w +:+ " " +:+ Join " " (w' :: ws)). by rewrite !all_chars_app, Hw, IH.
Qed.

Lemma fields_go_lead cur s : all_space cur = true -> Fields (cur +:+ s) = Fields s.
Proof.
  unfold Fields. induction cur as [|c cur IH]; [done|]. intros [Hc Hs]%andb_prop.
  rewrite str_app_cons. simpl. rewrite Hc. by apply IH.
Qed.

Lemma fields_go_trail cur s : fields_go cur (s +:+ " ") = fields_go cur s.
Proof.
  revert cur. induction s as [|c s IH]; intros cur.
  - rewrite str_app_nil_l. simpl. by destruct cur.
  - rewrite str_app_cons. simpl. by rewrite !IH.
Qed.

Lemma split_render gs cur :
  all_space cur = true -> no_bar cur = true -> gs <> [] -> Forall (fun g => g <> []) gs ->
  Forall (fun n => is_word n /\ no_bar n = true) (mjoin gs) ->
  Fields <$> split_go "|" cur (Join " " (render_groups gs)) = gs.
Proof.
  revert cur. induction gs as [|g gs IH]; intros cur Hcur Hcb Hnil Hne Hw; [done|].
  inversion_clear Hne as [|? ? Hg Hne']. simpl in Hw. apply Forall_app in Hw as [Hwg Hw].
  apply Forall_and in Hwg as [Hwg Hbg]. pose proof (Join_no_bar g Hbg) as Hjb.
  destruct gs as [|g' gs].
  - simpl. rewrite <- (str_app_nil_r (Join " " g)), split_go_free by done. simpl.
    by rewrite fields_go_lead, Fields_Join.
  - change (render_groups (g :: g' :: gs)) with (g ++ ["|"] ++ render_groups (g' :: gs)).
    assert (render_groups (g' :: gs) <> []) as Hr.
    { inversion_clear Hne' as [|? ? Hg' _]. simpl. destruct gs; [done|]. by destruct g'. }
    rewrite (Join_app g) by done. rewrite (Join_app ["|"]) by done. simpl (Join " " ["|"]).
    rewrite split_go_free by done. rewrite !str_app_cons, !str_app_nil_l. simpl split_go. cbn [fmap list_fmap].
    f_equal.
    + unfold Fields. rewrite fields_go_trail. change (fields_go "" ?s) with (Fields s). by rewrite fields_go_lead, Fields_Join.
    + exact (IH " " eq_refl eq_refl ltac:(done) Hne' Hw).
Qed.

Lemma parseGroups_complete gs : wf_groups gs -> parseGroups (render_groups gs) = inl gs.
Proof.
  intros (Hlen & Hne & Hnd & Hall). assert (gs <> []) as Hnil by (by intros ->; simpl in Hlen; lia).
  assert (Forall (fun n => is_word n /\ no_bar n = true) (mjoin gs)) as Hw
    by (eapply Forall_impl; [exact Hall|]; intros n [[? _] ?]; done).
  pose proof (split_render gs "" eq_refl eq_refl Hnil Hne Hw) as Hsplit.
  unfold parseGroups. rewrite TrimSpace_words.
  2: { destruct gs as [|g [|g' gs]]; [done|simpl in Hlen; lia|].
       change (render_groups (g :: g' :: gs)) with (g ++ ["|"] ++ render_groups (g' :: gs)).
       inversion_clear Hne as [|? ? Hg _]. simpl in Hw. apply Forall_app in Hw as [Hw _].
       destruct g as [|w g]; [done|]. rewrite <- app_comm_cons.
       inversion_clear Hw as [|? ? [[Hwne Hws] _] _].
       destruct (g ++ _) as [|x l] eqn:El; [by destruct g|].
       change (Join " " (w :: x :: l)) with (w +:+ " " +:+ Join " " (x :: l)).
       unfold Fields. rewrite fields_go_word, str_app_nil_l, str_app_cons, str_app_nil_l by done. by destruct w. }
  unfold Split. rewrite (parse_chunks_complete _ gs).
  - simpl. rewrite (proj2 (Nat.ltb_ge (length gs) 2)) by done. done.
  - done.
  - done.
  - eapply Forall_impl; [exact Hall|]. by intros n [[_ ?] _].
  - done.
  - set_solver.
Qed.

Lemma parseKey_spec s : parseKey s = inl s <-> valid_key s.
Proof.
  unfold parseKey, valid_key. destruct (String.eqb_spec s ""); [naive_solver|].
  destruct (Nat.ltb_spec maxKeyLen (String.length s)); [split; [done|lia]|].
  destruct (all_chars key_char s); simpl; naive_solver.
Qed.

Lemma parseKey_id s k : parseKey s = inl k -> k = s /\ valid_key s.
Proof.
  intros Hk. assert (k = s) as ->; [|split; [done|by apply parseKey_spec]].
  revert Hk. unfold parseKey. repeat (goal_match; try done). by intros [= ->].
Qed.

Lemma verbOf_String v : verbOf (verbString v) = Some v.
Proof. by destruct v. Qed.

Lemma verbOf_inv name v : verbOf name = Some v -> verbString v = name.
Proof.
  unfold verbOf. destruct (list_find _ _) as [[i p]|] eqn:Hf; [|done]. simpl. intros [= <-].
  apply list_find_Some in Hf as (Hi & <- & _). revert Hi. unfold verbs.
  do 12 (destruct i as [|i]; [by intros [= <-]|]). done.
Qed.

Lemma ParseInt_range s z : ParseInt s = Some z -> in_int64 z.
Proof.
  unfold ParseInt. destruct (take_sign s) as [neg d]. destruct (parse_N d) as [n|]; simpl; [|done].
  unfold signed. case_bool_decide; [|done]. by intros [= <-].
Qed.

(** C33: Every command the parser lets through is well formed: accounts that the
    ledger may hold, different ends and a positive amount for a transfer, and
    groups in which every node stands once. *)
Theorem parse_sound line c : parse line = inl c -> wf_command c.
Proof.
  unfold parse. destruct (String.eqb _ _); [done|].
  pose proof (Fields_words (TrimSpace line)) as Hw. destruct (Fields (TrimSpace line)) as [|w args]; [done|].
  inversion_clear Hw as [|? ? _ Hargs].
  destruct (verbOf (ToLower w)) as [[]|]; [..|done]; try (destruct args; [by intros [= <-]|done]).
  - destruct args as [|k [|v [|? ?]]]; try done. destruct (parseKey k) as [key|] eqn:Hk; [|done].
    destruct (ParseInt v) as [z|] eqn:Hz; [|done]. intros [= <-]. apply parseKey_id in Hk as [-> ?].
    apply ParseInt_range in Hz. done.
  - destruct args as [|k [|? ?]]; try done. destruct (parseKey k) as [key|] eqn:Hk; [|done].
    intros [= <-]. by apply parseKey_id in Hk as [-> ?].
  - destruct args as [|f [|t [|a [|? ?]]]]; try done.
    destruct (parseKey f) as [from|] eqn:Hf; [|done]. destruct (parseKey t) as [to|] eqn:Ht; [|done].
    destruct (String.eqb_spec from to); [done|]. destruct (ParseInt a) as [z|] eqn:Hz; [|done].
    destruct (Z.leb_spec z 0); [done|]. intros [= <-].
    apply parseKey_id in Hf as [-> ?], Ht as [-> ?]. apply ParseInt_range in Hz.
    unfold wf_command; simpl. split_and!; done.
  - destruct args as [|n [|? ?]]; try done. intros [= <-]. split; [done|].
    inversion_clear Hargs. by apply ToLower_word.
  - destruct args as [|n [|? ?]]; try done. intros [= <-]. split; [done|].
    inversion_clear Hargs. by apply ToLower_word.
  - destruct (parseGroups args) as [gs|] eqn:Hg; [|done]. intros [= <-]. split; [done|].
    by eapply parseGroups_sound.
Qed.

Lemma key_word s : valid_key s -> is_word s.
Proof.
  intros (Hne & _ & Hc). split; [done|]. clear Hne. induction s as [|c s IH]; [done|].
  simpl in *. apply andb_prop in Hc as [Hc Hs]. rewrite IH by done. rewrite andb_true_r.
  clear -Hc. destruct c as [[] [] [] [] [] [] [] []]; vm_compute in *; done.
Qed.

Lemma digits_no_space s : take_digits s = (s, EmptyString) -> no_space s = true.
Proof.
  induction s as [|c s IH]; [done|]. simpl. destruct (is_digit c) eqn:Hc; [|done].
  destruct (take_digits s) as [d r] eqn:E. intros [= -> ->]. rewrite IH by done. rewrite andb_true_r.
  clear -Hc. destruct c as [[] [] [] [] [] [] [] []]; vm_compute in *; done.
Qed.

Lemma fmt_d_word z : is_word (fmt_d z).
Proof.
  assert (forall n, is_word (fmt_N n)) as HN.
  { intros n. split; [destruct (fmt_N_head n) as (c & s & -> & _); done|]. apply digits_no_space, fmt_N_digits. }
  destruct z as [|p|p]; [apply HN..|]. destruct (HN (Npos p)) as [_ Hs]. split; [done|]. simpl. by rewrite Hs.
Qed.

Lemma render_words c : wf_command c -> Forall is_word (verbString (Verb c) :: render_args c).
Proof.
  intros Hwf. constructor; [by destruct (Verb c)|]. unfold wf_command, render_args in *.
  destruct (Verb c); try (by constructor); try destruct Hwf as [_ Hwf].
  - destruct Hwf. rewrite !Forall_cons, Forall_nil. auto using key_word, fmt_d_word.
  - rewrite !Forall_cons, Forall_nil. auto using key_word.
  - destruct Hwf as (? & ? & _). rewrite !Forall_cons, Forall_nil. auto using key_word, fmt_d_word.
  - destruct Hwf. by rewrite !Forall_cons, Forall_nil.
  - destruct Hwf. by rewrite !Forall_cons, Forall_nil.
  - destruct Hwf as (_ & _ & _ & Hall). induction (Groups c) as [|g gs IH]; [constructor|].
    simpl in Hall. apply Forall_app in Hall as [Hg Hall].
    assert (Forall is_word g) by (eapply Forall_impl; [exact Hg|]; by intros n [[? _] _]).
    destruct gs as [|g' gs]; [done|].
    change (render_groups (g :: g' :: gs)) with (g ++ "|" :: render_groups (g' :: gs)).
    apply Forall_app. split; [done|]. constructor; [done|]. by apply IH.
Qed.

(** C34: Each of them has a text that is read back as itself. *)
Theorem parse_render c : wf_command c -> parse (render c) = inl c.
Proof.
  intros Hwf. pose proof (render_words c Hwf) as Hw. unfold parse, render.
  rewrite TrimSpace_words, Fields_TrimSpace, Fields_Join; [|done|by rewrite Fields_Join].
  assert (ToLower (verbString (Verb c)) = verbString (Verb c)) as -> by by destruct (Verb c).
  rewrite verbOf_String. unfold wf_command, render_args in *.
  destruct (Verb c); try (by rewrite Hwf).
  - destruct Hwf as (Heq & Hk%parseKey_spec & Hz). rewrite Hk, parse_fmt_d by done. by f_equal.
  - destruct Hwf as (Heq & Hk%parseKey_spec). rewrite Hk. by f_equal.
  - destruct Hwf as (Heq & Hf%parseKey_spec & Ht%parseKey_spec & Hne & Hpos & Hz). rewrite Hf, Ht.
    rewrite (proj2 (String.eqb_neq _ _) Hne), parse_fmt_d by done. rewrite (proj2 (Z.leb_gt _ _)) by done. by f_equal.
  - destruct Hwf as (Heq & _ & Hl). rewrite Hl. by f_equal.
  - destruct Hwf as (Heq & _ & Hl). rewrite Hl. by f_equal.
  - destruct Hwf as (Heq & Hg). rewrite parseGroups_complete by done. by f_equal.
Qed.

Lemma parse_sound_witness : wf_command (mkCmd verbPartition "" "" "" 0 "" [["s0n0"]; ["s0n1"; "s0n2"]]).
Proof. exact (parse_sound "  Partition S0N0|s0n1   s0n2 " _ eq_refl). Defined.

Definition transfer10 : command := mkCmd verbTransfer "" "tushar" "varun" 10 "" [].

Lemma transfer10_wf : wf_command transfer10.
Proof.
  assert (valid_key "tushar" /\ valid_key "varun") as [? ?]
    by (unfold valid_key, maxKeyLen; simpl; split_and!; done || lia).
  unfold wf_command, in_int64, int64_min, int64_max; simpl. split_and!; done || lia.
Qed.

Lemma parse_render_witness : parse (render transfer10) = inl transfer10.
Proof. exact (parse_render transfer10 transfer10_wf). Defined.

(** ** The limit holds in every window *)

Fixpoint granted {T} `{Bucket T} (times : list Z) (r : rateLimiter T) : rateLimiter T * Z :=
  match times with
  | [] => (r, 0%Z)
  | now :: rest =>
      let '(r1, ok) := allow now r in
      let '(r2, n) := granted rest r1 in
      (r2, if ok : bool then n + 1 else n)%Z
  end.

Fixpoint ascending (from : Z) (times : list Z) (upto : Z) : Prop :=
  match times with [] => (from <= upto)%Z | t :: rest => (from <= t)%Z /\ ascending t rest upto end.

Lemma allow_spec now (r : rateLimiter billionths) :
  (0 <= rate r)%Z -> (last r <= now)%Z ->
  let '(r', ok) := allow now r in
  burst r' = burst r /\ rate r' = rate r /\ last r' = now /\
  (tokens r' + (if ok : bool then token else 0) <= tokens r + (now - last r) * rate r)%Z /\
  (ok = true -> 0 <= tokens r')%Z /\
  (burst r <= tokens r + (now - last r) * rate r -> token <= burst r -> ok = true)%Z.
Proof.
  intros Hr Hl. unfold allow. cbn [b_of_Z b_add b_sub b_ltb b_refill exact_bucket]. rewrite Z.mul_1_l.
  destruct (Z.ltb_spec (burst r) (tokens r + (now - last r) * rate r)).
  - destruct (Z.ltb_spec (burst r) token); simpl; split_and!; try done; try lia.
  - destruct (Z.ltb_spec (tokens r + (now - last r) * rate r) token); simpl; split_and!; try done; try lia.
Qed.

Lemma ascending_le from times upto : ascending from times upto -> (from <= upto)%Z.
Proof. revert from. induction times as [|t times IH]; intros from; simpl; [done|]. intros [? ?%IH]. lia. Qed.

Lemma granted_bound (r : rateLimiter billionths) times upto :
  (0 <= rate r)%Z -> ascending (last r) times upto ->
  (token * (granted times r).2 <= Z.max (tokens r) 0 + rate r * (upto - last r))%Z.
Proof.
  intros Hr Hasc.
  assert (token * (granted times r).2 <= Z.max (tokens r + rate r * (upto - last r)) 0)%Z as Hb.
  { revert r Hr Hasc. induction times as [|t times IH]; intros r Hr Hasc; simpl; [lia|].
    destruct Hasc as [Ht Hasc]. pose proof (allow_spec t r Hr Ht) as Hs.
    destruct (allow t r) as [r1 ok]. destruct Hs as (_ & Hrate & Hlast & Htok & Hpos & _).
    pose proof (ascending_le _ _ _ Hasc) as Hup.
    specialize (IH r1). rewrite Hrate, Hlast in IH. specialize (IH Hr Hasc).
    destruct (granted times r1) as [r2 n]. simpl in *.
    assert (0 <= rate r * (upto - t))%Z by nia.
    destruct ok; [specialize (Hpos eq_refl)|]; nia. }
  pose proof (ascending_le _ _ _ Hasc). nia.
Qed.

(** Computed exactly, from any moment on, the limiter lets through at most what was in the bucket
    and what the time since then refills; and a client that waited long enough
    for a full bucket is served. *)
Theorem rate_is_limited (r : rateLimiter billionths) times upto :
  (0 <= rate r)%Z -> ascending (last r) times upto ->
  (token * (granted times r).2 <= Z.max (tokens r) 0 + rate r * (upto - last r))%Z /\
  (forall now, last r <= now -> token <= burst r -> burst r <= tokens r + (now - last r) * rate r ->
     (allow now r).2 = true)%Z.
Proof.
  intros Hr Hasc. split; [by apply granted_bound|].
  intros now Hn Hb Hfull. pose proof (allow_spec now r Hr Hn) as Hs. destruct (allow now r) as [r1 ok].
  simpl. by apply Hs.
Qed.

Lemma rate_is_limited_witness :
  let r : rateLimiter billionths := newRateLimiter commandsPerSecond commandBurst 0 in
  (token * (granted (replicate 60 (token / 2)) r).2 <= 25 * token)%Z.
Proof.
  intros r. refine (proj1 (rate_is_limited r (replicate 60 (token / 2)%Z) (token / 2) _ _)).
  - vm_compute. done.
  - vm_compute. repeat split; done.
Defined.

(** A client that asks every 70 ms is let through as often by the float64 bucket
    as by the exact one. *)
Example float_bucket_limits :
  let times := (fun k => Z.of_nat k * 70000000)%Z <$> seq 1 100 in
  (granted times (newRateLimiter (T := float64) commandsPerSecond commandBurst 0)).2 =
  (granted times (newRateLimiter (T := billionths) commandsPerSecond commandBurst 0)).2.
Proof. vm_compute. reflexivity. Qed.
