(* ===== verification/Session.v ===== *)
(** * internal/gateway/session.go: one browser connection

    [execute] and [dispatch] run a line of the console against the engine and
    post its frames; [readLoop] does so for what is read from the socket, within
    the rate limit; [outbox] is the bounded queue between the session and the
    writer, which drops log frames rather than stall the cluster and gives up on
    the others after two seconds without room; [session_run] sends what the
    session posts through it.  What the socket delivers, decoded, and when the
    writer takes a frame or fails are inputs. *)

From S2P Require Import Prelude GoText PaxosTypes PaxosNode Ledger TwoPC Faults Transport Cluster Engine EngineProofs EngineLedger Money Console.

(** ** Frames *)

Record shardState := mkShardState { fShard : Z; fLeader : string; fTerm : N; fQuorum : Z; fNodes : list NodeStatus }.
Record stateFrame := mkStateFrame {
  fShards : list shardState; fPartitions : list (list string); fAccounts : list (string * Z * Z * string) }.
Record logFrame := mkLogFrame {
  fLevel : string; fTag : string; fMsg : string; fFrom : string; fTo : string; fKind : string }.

Inductive frame := FLog (f : logFrame) | FState (f : stateFrame) | FResult (msg : string).

Definition newStateFrame (st : Status) : stateFrame :=
  mkStateFrame
    ((fun sh => mkShardState (ssShard sh) (ssLeader sh) (ssTerm sh) (ssQuorum sh) (ssNodes sh)) <$> stShards st)
    (stPartitions st)
    ((fun a => (asKey a, asShard a, asBalance a, asLockedBy a)) <$> stAccounts st).

(** A level outside the closed set is shown as info. *)
Definition newLogFrame (e : Event) : logFrame :=
  let level := LevelString (evLevel e) in
  mkLogFrame (if Valid level then level else LevelString LInfo) (evTag e) (evMsg e) (evFrom e) (evTo e) (evKind e).

(** What the session hands to its queue, by the way it is sent: [Emit] and
    [Snapshot] never wait for room, [publishState] and [result] do. *)
Inductive post := PEmit (ev : Event) | PSnapshot (st : Status) | PPublish (st : Status) | PResult (msg : string).

Definition post_frame (p : post) : frame :=
  match p with
  | PEmit ev => FLog (newLogFrame ev)
  | PSnapshot st | PPublish st => FState (newStateFrame st)
  | PResult msg => FResult msg
  end.

Definition item_post (i : SinkItem) : post :=
  match i with SEvent ev => PEmit ev | SSnapshot st => PSnapshot st end.

(** ** Running a command *)

(** [errors.Is] against the outcomes that read as ABORT, unless in doubt. *)
Fixpoint expected (e : EngineError) : bool :=
  match e with
  | ENoQuorum _ _ | ENoLeader _ _ => true
  | ELedger (k, _) =>
      match k with ErrNoSuchKey | ErrLocked | ErrInsufficientFunds | ErrTooManyKeys => true | _ => false end
  | EVotedNo _ e' => expected e'
  | _ => false
  end.

Definition failure_line (e : EngineError) : string :=
  (if expected e then "ABORT " else "ERROR ") +:+ EngineErrorString e.

Section Session.
Context {W : Type} `{Replicas W} (cfg : ClusterConfig).

Definition member (sh : ShardStatus) (n : NodeStatus) : string :=
  (if String.eqb (nsID n) (ssLeader sh) then "*" else "") +:+ nsID n +:+ ":" +:+ (if nsAlive n then "up" else "DOWN").

Definition shard_line (sh : ShardStatus) : Event :=
  plain_event LLeader (ShardTag (ssShard sh))
    ("leader=" +:+ (if String.eqb (ssLeader sh) "" then "none" else ssLeader sh) +:+ " term=" +:+ fmt_N (ssTerm sh) +:+
     " alive=" +:+ fmt_d (Z.of_nat (ssAlive sh)) +:+ "/" +:+ fmt_d (ssTotal sh) +:+ " needs=" +:+
     fmt_d (ssQuorum sh) +:+ "  " +:+ Join " " (member sh <$> ssNodes sh)).

Definition account_line (a : AccountStatus) : Event :=
  plain_event LInfo (ShardTag (asShard a))
    (asKey a +:+ " = " +:+ fmt_d (asBalance a) +:+
     (if String.eqb (asLockedBy a) "" then "" else "  (locked by " +:+ asLockedBy a +:+ ")") +:+
     (if asStale a then "  (last known: shard has no leader)" else "")).

Definition writable (st : Status) : nat :=
  length (filter (fun sh => String.eqb (ssLeader sh) "" = false) (stShards st)).

Definition status : EM W string :=
  st ← eng_Status cfg;
  for_each (fun sh => emitEvent (shard_line sh)) (stShards st);;
  (if 0 <? length (stPartitions st) then
     emit LNet "[net]"
       ("partitioned: " +:+ Join " | " ((fun g => "{" +:+ Join " " g +:+ "}") <$> stPartitions st))
   else mret tt);;
  (if length (stAccounts st) =? 0 then emit LInfo "[keys]" "no accounts yet, try: put tushar 100" else mret tt);;
  for_each (fun a => emitEvent (account_line a)) (stAccounts st);;
  mret ("OK " +:+ fmt_d (Z.of_nat (length (stShards st))) +:+ " shards, " +:+ fmt_d (Z.of_nat (writable st)) +:+
        " writable, " +:+ fmt_d (Z.of_nat (length (stAccounts st))) +:+ " accounts").

Definition reply (ok : string) (err : option EngineError) : string :=
  match err with None => ok | Some e => failure_line e end.

Definition execute (c : command) : EM W string :=
  match Verb c with
  | verbStatus => status
  | verbDatastore =>
      lines ← Datastore cfg;
      for_each (fun l => emit LPaxos "[log]" l) lines;;
      mret ("OK " +:+ fmt_d (Z.of_nat (length lines)) +:+ " replicas")
  | verbPut =>
      reply ("OK " +:+ cmdKey c +:+ "=" +:+ fmt_d (Value c) +:+ " on s" +:+ fmt_d (ShardFor (cmdKey c) (Shards cfg)))
        <$> Put cfg (cmdKey c) (Value c)
  | verbGet =>
      r ← eng_Get cfg (cmdKey c);
      mret (match r with inl v => "OK " +:+ cmdKey c +:+ "=" +:+ fmt_d v | inr e => failure_line e end)
  | verbTransfer =>
      reply ("OK moved " +:+ fmt_d (Value c) +:+ " from " +:+ cmdFrom c +:+ " to " +:+ cmdTo c)
        <$> eng_Transfer cfg (cmdFrom c) (cmdTo c) (Value c)
  | verbKill => reply ("OK " +:+ cmdNode c +:+ " is down") <$> eng_Kill cfg (cmdNode c)
  | verbRevive => reply ("OK " +:+ cmdNode c +:+ " is up") <$> eng_Revive cfg (cmdNode c)
  | verbPartition =>
      reply ("OK network split into " +:+ fmt_d (Z.of_nat (length (Groups c))) +:+ " groups")
        <$> eng_Partition cfg (Groups c)
  | verbHeal => reply "OK partitions removed" <$> eng_Heal cfg
  | verbHelp | verbClear | verbDemo => mret "ERROR unknown command"
  end.

(** [Do] with a sink that discards. *)
Definition Do_discard {A} (fn : EM W A) : EM W A :=
  set_sink None;; x ← fn; flush cfg;; set_sink None;; mret x.

(** What one line posts, in order. *)
Definition dispatch (line : string) : EM W (list post) :=
  match parse line with
  | inr errEmpty => mret [PResult ""]
  | inr (errMsg text) => mret [PResult ("ERROR " +:+ text)]
  | inl c =>
      match Verb c with
      | verbClear | verbDemo => mret [PResult ""]
      | verbHelp => mret (((fun l => PEmit (plain_event LInfo "" l)) <$> helpText) ++ [PResult "OK"])
      | _ =>
          seen ← get (length ∘ eEvents);
          result ← Do cfg true (execute c);
          shown ← get (drop seen ∘ eEvents);
          st ← Do_discard (eng_Status cfg);
          mret (PEmit (plain_event LClient "[you]" (TrimSpace line))
                :: (item_post <$> shown) ++ [PPublish st; PResult result])
      end
  end.

(** Startup: narrated like a command, and ended by a result. *)
Definition greet (owned : bool) : EM W (list post) :=
  let say msg := PEmit (plain_event LInfo "[gw]" msg) in
  let hello := say (fmt_d (Shards cfg) +:+ " shards x " +:+ fmt_d (NodesPerShard cfg) +:+ " replicas, quorum " +:+
                    fmt_d (Quorum cfg) +:+
                    ". multi-paxos per shard (internal/paxos), 2pc across shards") in
  seen ← get (length ∘ eEvents);
  (if owned then Do cfg true (Bootstrap cfg) else mret tt);;
  shown ← get (drop seen ∘ eEvents);
  st ← Do_discard (eng_Status cfg);
  let note :=
    if owned then say "this cluster is yours alone and resets when you disconnect. electing leaders..."
    else say "shared multi-process cluster (grpc transport): every connection drives the same replicas" in
  mret (hello :: note :: (item_post <$> shown) ++
        [PSnapshot st;
         PResult ("OK cluster up, " +:+ fmt_d (Z.of_nat (writable st)) +:+ "/" +:+
                  fmt_d (Z.of_nat (length (stShards st))) +:+ " shards led. type help")]).

(** What a read of the socket comes to: a message, at a time, decoded or not; ten
    minutes of silence; or the end of the connection or of the server. *)
Inductive read :=
| ReadText (now : Z) (cmd : option string)
| ReadIdle
| ReadEnd.

(** What a session posts for its reads, up to the first that ends it. *)
Fixpoint readLoop {T} `{Bucket T} (limiter : rateLimiter T) (reads : list read) : EM W (list post) :=
  match reads with
  | [] | ReadEnd :: _ => mret []
  | ReadIdle :: _ => mret [PResult "ABORT idle for too long, closing the connection"]
  | ReadText now cmd :: rest =>
      match cmd with
      | None =>
          more ← readLoop limiter rest;
          mret (PResult ("ERROR expected a JSON object of the form {" +:+ fmt_q "cmd" +:+ ": " +:+ fmt_q "..." +:+ "}") :: more)
      | Some line =>
          let '(limiter, ok) := allow now limiter in
          if negb ok then
            more ← readLoop limiter rest;
            mret (PResult "ERROR slow down: too many commands per second" :: more)
          else
            shown ← dispatch line;
            more ← readLoop limiter rest;
            mret (shown ++ more)
      end
  end.
End Session.

(** ** The queue to the browser *)

Definition outboxSize : nat := 512.

(** [dropped] is the session's counter, [missed] the frames that were waited for
    in vain; [lost] is the frame in the writer's hands when it returned. *)
Record outbox := mkOutbox {
  written : list frame; queued : list frame; dropped : nat; missed : nat; writing : bool; lost : nat }.

Definition new_outbox : outbox := mkOutbox [] [] 0 0 true 0.

(** One round of [writeLoop]: a frame is taken and written. *)
Definition take_one (o : outbox) : outbox :=
  if writing o then
    match queued o with
    | [] => o
    | f :: rest => mkOutbox (written o ++ [f]) rest (dropped o) (missed o) true (lost o)
    end
  else o.

(** [writeLoop] returns: the session ends, before a frame is taken or while it is
    paced, or a write fails. *)
Definition stop_writing (taken : bool) (o : outbox) : outbox :=
  if writing o then
    match taken, queued o with
    | true, _ :: rest => mkOutbox (written o) rest (dropped o) (missed o) false (S (lost o))
    | _, q => mkOutbox (written o) q (dropped o) (missed o) false (lost o)
    end
  else o.

(** A send that does not wait. *)
Definition offer (f : frame) (o : outbox) : outbox :=
  if length (queued o) <? outboxSize then
    mkOutbox (written o) (queued o ++ [f]) (dropped o) (missed o) (writing o) (lost o)
  else mkOutbox (written o) (queued o) (S (dropped o)) (missed o) (writing o) (lost o).

(** A send that waits up to two seconds, in which the writer takes up to [k]
    frames, and then gives the frame up. *)
Definition wait (f : frame) (k : nat) (o : outbox) : outbox :=
  let o := Nat.iter k take_one o in
  if length (queued o) <? outboxSize then
    mkOutbox (written o) (queued o ++ [f]) (dropped o) (missed o) (writing o) (lost o)
  else mkOutbox (written o) (queued o) (dropped o) (S (missed o)) (writing o) (lost o).

Definition sess_Emit (ev : Event) : outbox -> outbox := offer (FLog (newLogFrame ev)).
Definition sess_Snapshot (st : Status) : outbox -> outbox := offer (FState (newStateFrame st)).
Definition publishState (st : Status) : nat -> outbox -> outbox := wait (FState (newStateFrame st)).
Definition result (msg : string) : nat -> outbox -> outbox := wait (FResult msg).

(** [drain]: up to two seconds for the writer to empty the queue. *)
Definition drain_outbox (k : nat) (o : outbox) : outbox := Nat.iter k take_one o.

(** What the writer does before a post, and how many frames it takes while the
    post waits. *)
Inductive writer_move := Take | Stop (taken : bool).
Record writer_turn := mkWriterTurn { before : list writer_move; during : nat }.

Definition move_writer (o : outbox) (m : writer_move) : outbox :=
  match m with Take => take_one o | Stop taken => stop_writing taken o end.

Definition send_post (p : post) (k : nat) : outbox -> outbox :=
  match p with
  | PEmit ev => sess_Emit ev
  | PSnapshot st => sess_Snapshot st
  | PPublish st => publishState st k
  | PResult msg => result msg k
  end.

Definition send_turn (t : writer_turn) (p : post) (o : outbox) : outbox :=
  send_post p (during t) (fold_left move_writer (before t) o).

(** The posts of a session, the [i]th and later ones, with the writer's turns. *)
Fixpoint send_all (turns : nat -> writer_turn) (i : nat) (posts : list post) (o : outbox) : outbox :=
  match posts with
  | [] => o
  | p :: posts => send_all turns (S i) posts (send_turn (turns i) p o)
  end.

(** Whether the read loop ends for idleness, and so drains. *)
Fixpoint idle_end (reads : list read) : bool :=
  match reads with
  | [] | ReadEnd :: _ => false
  | ReadIdle :: _ => true
  | ReadText _ _ :: rest => idle_end rest
  end.

Section Run.
Context {W T : Type} `{Replicas W} `{Bucket T} (cfg : ClusterConfig).

(** Everything a session posts; its reads start at [start]. *)
Definition session_posts (owned : bool) (start : Z) (reads : list read) : EM W (list post) :=
  hello ← greet cfg owned;
  shown ← readLoop cfg (newRateLimiter (T := T) commandsPerSecond commandBurst start) reads;
  mret (hello ++ shown).

(** [run] up to the return of [readLoop]: the posts go through the queue, with the
    writer beside them. *)
Definition session_run (owned : bool) (start : Z) (reads : list read) (turns : nat -> writer_turn) : EM W outbox :=
  posts ← session_posts owned start reads;
  mret (send_all turns 0 posts new_outbox).
End Run.

(** The end of [run]: the writer may drain the queue after an idle end, then it is
    cancelled. *)
Definition session_close (reads : list read) (k : nat) (taken : bool) (o : outbox) : outbox :=
  stop_writing taken (if idle_end reads then drain_outbox k o else o).

Definition kept (o : outbox) : list frame := written o ++ queued o.

(** What the takes of a writer leave alone, and how far they get. *)
Lemma take_many_spec k o :
  let o' := Nat.iter k take_one o in
  kept o' = kept o /\ length (queued o') = (if writing o then length (queued o) - k else length (queued o)) /\
  dropped o' = dropped o /\ missed o' = missed o /\ writing o' = writing o /\ lost o' = lost o.
Proof.
  induction k as [|k IH]; simpl; [split_and!; try done; destruct (writing o); lia|].
  destruct IH as (Hk & Hl & Hd & Hm & Hw & Hx). set (o' := Nat.iter k take_one o) in *. unfold take_one.
  rewrite Hw. destruct (writing o) eqn:Ew; [|by split_and!].
  destruct (queued o') as [|f q] eqn:E; [rewrite E; simpl in *; split_and!; try done; lia|].
  unfold kept in *. simpl in *. rewrite E in Hk. rewrite <- app_assoc. split_and!; try done. lia.
Qed.

(** Every frame posted is kept, counted, missed or lost; the kept ones are in
    order. *)
Definition outbox_ok (o : outbox) (all : list frame) : Prop :=
  length (queued o) <= outboxSize /\ kept o `sublist_of` all /\
  length (kept o) + dropped o + missed o + lost o = length all /\ lost o <= (if writing o then 0 else 1).

Lemma takes_ok k o all : outbox_ok o all -> outbox_ok (Nat.iter k take_one o) all.
Proof.
  intros (Hb & Hs & Hn & Hl). destruct (take_many_spec k o) as (Hk & Hq & Hd & Hm & Hw & Hx).
  unfold outbox_ok. rewrite Hk, Hd, Hm, Hw, Hx. split_and!; try done. destruct (writing o); lia.
Qed.

Lemma put_ok f o all d m :
  outbox_ok o all -> d + m = 1 ->
  outbox_ok (if length (queued o) <? outboxSize
             then mkOutbox (written o) (queued o ++ [f]) (dropped o) (missed o) (writing o) (lost o)
             else mkOutbox (written o) (queued o) (d + dropped o) (m + missed o) (writing o) (lost o)) (all ++ [f]).
Proof.
  intros (Hb & Hs & Hn & Hl) Hdm. unfold outbox_ok, kept in *.
  destruct (Nat.ltb_spec (length (queued o)) outboxSize); simpl.
  - rewrite app_assoc, !length_app. simpl. rewrite length_app in Hn. split_and!; [lia|by apply sublist_app|lia|done].
  - rewrite !length_app. simpl. rewrite length_app in Hn. split_and!; [lia|by apply sublist_inserts_r|lia|done].
Qed.

Lemma stop_ok taken o all : outbox_ok o all -> outbox_ok (stop_writing taken o) all.
Proof.
  intros (Hb & Hs & Hn & Hl). unfold stop_writing, outbox_ok, kept in *.
  destruct (writing o) eqn:Ew; [|rewrite Ew; by split_and!].
  destruct taken, (queued o) as [|f q] eqn:E; simpl in *; try (split_and!; [done|done|lia|lia]).
  rewrite !length_app in *. simpl in *. split_and!; [lia| |lia|lia].
  etransitivity; [|exact Hs]. apply sublist_app; [done|]. by apply sublist_cons.
Qed.

Lemma writer_moves_ok moves o all : outbox_ok o all -> outbox_ok (fold_left move_writer moves o) all.
Proof.
  revert o. induction moves as [|[|taken] moves IH]; intros o Ho; simpl; [done| |].
  - by apply IH, (takes_ok 1).
  - by apply IH, stop_ok.
Qed.

Lemma send_turn_ok t p o all : outbox_ok o all -> outbox_ok (send_turn t p o) (all ++ [post_frame p]).
Proof.
  intros Ho. unfold send_turn. apply (writer_moves_ok (before t)) in Ho. destruct p; simpl.
  - by apply (put_ok _ _ all 1 0).
  - by apply (put_ok _ _ all 1 0).
  - by apply (put_ok _ _ all 0 1), eq_refl; apply takes_ok.
  - by apply (put_ok _ _ all 0 1), eq_refl; apply takes_ok.
Qed.

Lemma send_all_ok turns i posts o all :
  outbox_ok o all -> outbox_ok (send_all turns i posts o) (all ++ (post_frame <$> posts)).
Proof.
  revert i o all. induction posts as [|p posts IH]; intros i o all Ho; simpl; [by rewrite app_nil_r|].
  rewrite cons_middle, app_assoc. by apply IH, send_turn_ok.
Qed.

Lemma new_outbox_ok : outbox_ok new_outbox [].
Proof. unfold outbox_ok, outboxSize. simpl. split_and!; [lia|constructor|done|lia]. Qed.

(** A writer that is at work: it never stops, and takes a frame whenever a post
    waits for room. *)
Definition attentive (turns : nat -> writer_turn) : Prop :=
  forall i, Forall (eq Take) (before (turns i)) /\ 0 < during (turns i).

Definition is_result (f : frame) : bool := match f with FResult _ => true | _ => false end.
Definition results : list frame -> list frame := List.filter is_result.

Lemma results_app l1 l2 : results (l1 ++ l2) = results l1 ++ results l2.
Proof. apply List.filter_app. Qed.

Lemma takes_are_iter moves o :
  Forall (eq Take) moves -> fold_left move_writer moves o = Nat.iter (length moves) take_one o.
Proof.
  intros Hm. revert o. induction Hm as [|m moves <- _ IH]; intros o; simpl; [done|].
  rewrite IH. by rewrite <- Nat.iter_succ_r, Nat.iter_succ.
Qed.

(** Room is found once a frame is taken. *)
Lemma wait_kept f k o :
  0 < k -> writing o = true -> length (queued o) <= outboxSize ->
  kept (wait f k o) = kept o ++ [f] /\ missed (wait f k o) = missed o /\ writing (wait f k o) = true.
Proof.
  intros Hk Hw Hb. unfold wait. destruct (take_many_spec k o) as (Hkept & Hq & _ & Hm & Hw' & _).
  rewrite Hw in Hq. rewrite (proj2 (Nat.ltb_lt _ _)) by (unfold outboxSize in *; lia).
  unfold kept in *. simpl. rewrite app_assoc, Hkept, Hm, Hw', Hw. done.
Qed.

Lemma offer_results f o :
  is_result f = false ->
  results (kept (offer f o)) = results (kept o) /\ missed (offer f o) = missed o /\ writing (offer f o) = writing o.
Proof.
  intros Hf. unfold offer, kept. destruct (_ <? _); simpl; [|done].
  rewrite app_assoc, (results_app (_ ++ _)). simpl. by rewrite Hf, app_nil_r.
Qed.

Lemma attentive_turn t p o all :
  Forall (eq Take) (before t) -> 0 < during t -> outbox_ok o all -> writing o = true ->
  let o' := send_turn t p o in
  results (kept o') = results (kept o) ++ results [post_frame p] /\ missed o' = missed o /\ writing o' = true.
Proof.
  intros Hb Hd Ho Hw o'. unfold o', send_turn. rewrite (takes_are_iter _ _ Hb).
  pose proof (takes_ok (length (before t)) _ _ Ho) as (Hq & _).
  destruct (take_many_spec (length (before t)) o) as (Hk & _ & _ & Hm & Hw1 & _).
  set (o1 := Nat.iter _ _ o) in *. rewrite Hw in Hw1. rewrite <- Hk, <- Hm.
  destruct p as [ev|st|st|msg]; simpl; rewrite ?app_nil_r.
  - destruct (offer_results (FLog (newLogFrame ev)) o1 eq_refl) as (H1 & H2 & H3). by rewrite Hw1 in H3.
  - destruct (offer_results (FState (newStateFrame st)) o1 eq_refl) as (H1 & H2 & H3). by rewrite Hw1 in H3.
  - destruct (wait_kept (FState (newStateFrame st)) (during t) o1 Hd Hw1 Hq) as (H1 & H2 & H3).
    unfold publishState. rewrite H1, results_app. simpl. by rewrite app_nil_r.
  - destruct (wait_kept (FResult msg) (during t) o1 Hd Hw1 Hq) as (H1 & H2 & H3).
    unfold result. by rewrite H1, results_app.
Qed.

Lemma attentive_all turns i posts o all :
  attentive turns -> outbox_ok o all -> writing o = true ->
  let o' := send_all turns i posts o in
  results (kept o') = results (kept o) ++ results (post_frame <$> posts) /\ missed o' = missed o /\ writing o' = true.
Proof.
  intros Ha. revert i o all. induction posts as [|p posts IH]; intros i o all Ho Hw; simpl; [by rewrite app_nil_r|].
  destruct (Ha i) as [Hb Hd]. destruct (attentive_turn _ p _ _ Hb Hd Ho Hw) as (H1 & H2 & H3).
  destruct (IH (S i) _ _ (send_turn_ok (turns i) p _ _ Ho) H3) as (G1 & G2 & G3).
  rewrite G1, H1, G2, H2, <- app_assoc. split_and!; [|done..]. f_equal. simpl. by destruct (is_result _).
Qed.

(** What is written at the end was queued; after an idle end that leaves the
    writer its time, everything that was queued. *)
Lemma drain_empties k o :
  writing o = true -> length (queued o) <= k ->
  queued (drain_outbox k o) = [] /\ written (drain_outbox k o) = kept o.
Proof.
  intros Hw Hk. unfold drain_outbox. destruct (take_many_spec k o) as (Hkept & Hq & _). rewrite Hw in Hq.
  assert (queued (Nat.iter k take_one o) = []) as He by (apply length_zero_iff_nil; lia).
  split; [done|]. unfold kept in Hkept at 1. by rewrite He, app_nil_r in Hkept.
Qed.

Lemma stop_written taken o : written (stop_writing taken o) = written o.
Proof. unfold stop_writing. by destruct (writing o), taken, (queued o). Qed.

Lemma close_written reads k taken o : written (session_close reads k taken o) `prefix_of` kept o.
Proof.
  unfold session_close. rewrite stop_written. destruct (idle_end reads); [|by eexists].
  destruct (take_many_spec k o) as (Hk & _). exists (queued (drain_outbox k o)). by rewrite <- Hk.
Qed.

Lemma close_idle reads k taken o :
  idle_end reads = true -> writing o = true -> length (queued o) <= k ->
  written (session_close reads k taken o) = kept o.
Proof.
  intros Hi Hw Hk. unfold session_close. rewrite stop_written, Hi. by apply drain_empties.
Qed.

(** ** One result per line *)

Definition posts_result (p : post) : bool := match p with PResult _ => true | _ => false end.

(** Zero or more posts, then one result. *)
Definition one_result (l : list post) : Prop :=
  exists before msg, l = before ++ [PResult msg] /\ Forall (fun p => posts_result p = false) before.

Lemma items_no_result l : Forall (fun p => posts_result p = false) (item_post <$> l).
Proof. induction l as [|[] l IH]; constructor; done. Qed.

Lemma one_result_tail before p msg :
  posts_result p = false -> Forall (fun p => posts_result p = false) before -> one_result (before ++ [p; PResult msg]).
Proof.
  intros Hp Hb. exists (before ++ [p]), msg. split; [by rewrite <- app_assoc|].
  apply Forall_app; split; [done|by repeat constructor].
Qed.

Lemma one_result_single msg : one_result [PResult msg].
Proof. by exists [], msg. Qed.

(** Whatever the line and whatever the cluster does, the posts of a line end with
    their only result. *)
Lemma dispatch_one_result {W} `{Replicas W} cfg line (e : Engine W) : one_result (dispatch cfg line e).2.
Proof.
  unfold dispatch. destruct (parse line) as [c|[]]; [|apply one_result_single..].
  destruct (Verb c); try apply one_result_single;
    try (rewrite bind_get, bind_run, bind_get, bind_run; apply (one_result_tail (_ :: _));
         [done|constructor; [done|apply items_no_result]]).
  eexists _, "OK". split; [done|]. by repeat constructor.
Qed.

Lemma greet_one_result {W} `{Replicas W} cfg owned (e : Engine W) : one_result (greet cfg owned e).2.
Proof.
  unfold greet. rewrite bind_get, bind_run, bind_get, bind_run. apply (one_result_tail (_ :: _ :: _)); [done|].
  constructor; [done|]. constructor; [by destruct owned|apply items_no_result].
Qed.

(** ** A whole session *)

(** The replies due, and the lines the rate limit lets through. *)
Fixpoint replies (reads : list read) : nat :=
  match reads with [] | ReadEnd :: _ => 0 | ReadIdle :: _ => 1 | ReadText _ _ :: rest => S (replies rest) end.

Fixpoint served {T} `{Bucket T} (limiter : rateLimiter T) (reads : list read) : list string :=
  match reads with
  | ReadText _ None :: rest => served limiter rest
  | ReadText now (Some line) :: rest =>
      let '(limiter, ok) := allow now limiter in (if ok : bool then [line] else []) ++ served limiter rest
  | _ => []
  end.

Section Whole.
Context {W T : Type} `{Replicas W} `{Bucket T} (cfg : ClusterConfig).

Definition run_lines (lines : list string) : EM W unit := for_each (fun l => dispatch cfg l;; mret tt) lines.

Lemma run_lines_cons l ls e : run_lines (l :: ls) e = run_lines ls (dispatch cfg l e).1.
Proof. unfold run_lines. rewrite for_each_cons. by rewrite bind_run. Qed.

Definition blocks_of (n : nat) (l : list post) : Prop :=
  exists blocks, l = mjoin blocks /\ length blocks = n /\ Forall one_result blocks.

Lemma blocks_cons n b l : one_result b -> blocks_of n l -> blocks_of (S n) (b ++ l).
Proof. intros Hb (bs & -> & <- & Hbs). exists (b :: bs). by split_and!; [..|constructor]. Qed.

Lemma readLoop_spec (limiter : rateLimiter T) reads (e : Engine W) :
  (readLoop cfg limiter reads e).1 = (run_lines (served limiter reads) e).1 /\
  blocks_of (replies reads) (readLoop cfg limiter reads e).2.
Proof.
  revert limiter e. induction reads as [|[now [line|]| |] reads IH]; intros limiter e; simpl.
  - split; [done|]. by exists [].
  - destruct (allow now limiter) as [limiter' ok]. destruct ok; cbn [negb app]; rewrite !bind_run; cbn [fst snd].
    + destruct (IH limiter' (dispatch cfg line e).1) as [H1 H2]. rewrite run_lines_cons.
      split; [done|]. apply blocks_cons; [apply dispatch_one_result|done].
    + destruct (IH limiter' e) as [H1 H2]. split; [done|]. by apply (blocks_cons _ [_]), H2; apply one_result_single.
  - rewrite bind_run. destruct (IH limiter e) as [H1 H2]. split; [done|].
    by apply (blocks_cons _ [_]), H2; apply one_result_single.
  - split; [done|]. exists [[PResult "ABORT idle for too long, closing the connection"]].
    split_and!; [done|done|]. repeat constructor. apply one_result_single.
  - split; [done|]. by exists [].
Qed.

Lemma session_posts_spec owned start reads e :
  let lines := served (newRateLimiter (T := T) commandsPerSecond commandBurst start) reads in
  let out := session_posts (T := T) cfg owned start reads e in
  blocks_of (S (replies reads)) out.2 /\ out.1 = (run_lines lines (greet cfg owned e).1).1.
Proof.
  intros lines out. unfold out, session_posts. rewrite !bind_run.
  set (lim := newRateLimiter commandsPerSecond commandBurst start).
  destruct (readLoop_spec lim reads (greet cfg owned e).1) as [H1 H2]. split; [|exact H1].
  apply blocks_cons; [apply greet_one_result|done].
Qed.

End Whole.

Module SessionExamples.
Import Lab.
(** Two commands, a malformed message, and silence. *)
Definition typed : list read :=
  [ReadText 5 (Some "put tushar 100"); ReadText 9 None; ReadText 9 (Some "get tushar"); ReadIdle].
Definition keen (i : nat) : writer_turn := mkWriterTurn [Take] 1.
Definition asleep (i : nat) : writer_turn := mkWriterTurn [] 0.

Lemma keen_attentive : attentive keen.
Proof. intros i. split; [by repeat constructor|simpl; lia]. Qed.

Definition session_of (reads : list read) (turns : nat -> writer_turn) : outbox :=
  (session_run (T := float64) cfg3 true 0 reads turns lab0).2.


(** The results of that session. *)
Example session_results :
  results (kept (session_of typed keen)) =
  [FResult "OK cluster up, 3/3 shards led. type help"; FResult "OK tushar=100 on s2";
   FResult ("ERROR expected a JSON object of the form {" +:+ fmt_q "cmd" +:+ ": " +:+ fmt_q "..." +:+ "}");
   FResult "OK tushar=100"; FResult "ABORT idle for too long, closing the connection"].
Proof. vm_compute. reflexivity. Qed.

(** A browser that asks for help twenty times, goes on and on, and reads nothing:
    once the queue is full its results are given up. *)
Example result_given_up :
  let o := session_of (replicate 300 (ReadText 5 (Some "help"))) asleep in
  replies (replicate 300 (ReadText 5 (Some "help"))) = 300 /\ length (queued o) = outboxSize /\
  0 < missed o /\ length (results (kept o)) < 300.
Proof. vm_compute. split_and!; [reflexivity|reflexivity|repeat constructor..]. Qed.
End SessionExamples.
