(* ===== verification/Accounts.v ===== *)
(** * internal/accounts/accounts.go: the account file of a bank

    The file is the list of its CSV records.  [csv_ReadAll] is the one rule of
    encoding/csv that matters here: every record has as many fields as the
    first.  Whether the disk takes a write is an input; a write replaces the
    file or leaves it as it was. *)

From S2P Require Import Prelude GoText Money.

Definition csv_file : Type := list (list string).

Definition csv_ReadAll (f : csv_file) : option (list (list string)) :=
  match f with
  | [] => Some []
  | first :: _ => if forallb (fun r => length r =? length first) f then Some f else None
  end.

Definition Header : list string := ["AccountId"; "username"; "password"; "bank_name"; "balance"].

Record BankAccount (A : Type) := mkAccountRow {
  acID : string;
  Username : string;
  Password : string;
  acBank : string;
  Balance : A;
}.
Arguments mkAccountRow {A}.
Arguments acID {A}.
Arguments Username {A}.
Arguments Password {A}.
Arguments acBank {A}.
Arguments Balance {A}.

Inductive StoreError := ErrNotFound | ErrUnreadable | ErrWrite | ErrTaken.

#[export] Instance StoreError_eq_dec : EqDecision StoreError.
Proof. solve_decision. Defined.

Section Store.
Context {A : Type} `{Amount A}.
Implicit Types (a : BankAccount A) (all : list (BankAccount A)) (f : csv_file).

Definition row_of a : list string := [acID a; Username a; Password a; acBank a; a_format (Balance a)].

(** [store.write]: the header and a record per account. *)
Definition store_write all : csv_file := Header :: (row_of <$> all).

(** A short record is skipped; a bad balance is an error. *)
Fixpoint read_rows (rows : list (list string)) : option (list (BankAccount A)) :=
  match rows with
  | [] => Some []
  | row :: rest =>
      if length row <? length Header then read_rows rest
      else
        match row with
        | id :: user :: pass :: bank :: bal :: _ =>
            b ← a_parse bal; l ← read_rows rest; Some (mkAccountRow id user pass bank b :: l)
        | _ => None
        end
  end.

(** [store.read]: [None] is any error. *)
Definition store_read f : option (list (BankAccount A)) :=
  rows ← csv_ReadAll f; read_rows (tail rows).

Definition NewStore : csv_file := store_write [].

Definition find_account (id : string) all : option (BankAccount A) :=
  snd <$> list_find (fun a => acID a = id) all.

Definition store_Balance (id : string) f : A + StoreError :=
  match store_read f with
  | None => inr ErrUnreadable
  | Some all => match find_account id all with Some a => inl (Balance a) | None => inr ErrNotFound end
  end.

Definition Exists (id : string) f : bool + StoreError :=
  match store_Balance id f with
  | inl _ => inl true
  | inr ErrNotFound => inl false
  | inr e => inr e
  end.

Definition with_balance a (b : A) : BankAccount A := mkAccountRow (acID a) (Username a) (Password a) (acBank a) b.

(** The first account with the id, changed in place. *)
Fixpoint add_to (id : string) (delta : A) all : option (list (BankAccount A) * A) :=
  match all with
  | [] => None
  | a :: rest =>
      if decide (acID a = id) then
        let b := a_add (Balance a) delta in Some (with_balance a b :: rest, b)
      else '(rest', b) ← add_to id delta rest; Some (a :: rest', b)
  end.

Definition AddDelta (write_ok : bool) (id : string) (delta : A) f : csv_file * (A + StoreError) :=
  match store_read f with
  | None => (f, inr ErrUnreadable)
  | Some all =>
      match add_to id delta all with
      | None => (f, inr ErrNotFound)
      | Some (all', b) => if write_ok then (store_write all', inl b) else (f, inr ErrWrite)
      end
  end.

Definition Create (write_ok : bool) a f : csv_file * option StoreError :=
  match store_read f with
  | None => (f, Some ErrUnreadable)
  | Some all =>
      match find_account (acID a) all with
      | Some existing =>
          if decide (Username existing = Username a /\ Password existing = Password a) then (f, None)
          else (f, Some ErrTaken)
      | None => if write_ok then (store_write (all ++ [a]), None) else (f, Some ErrWrite)
      end
  end.

(** ** What is written is read back *)

(** A balance as the file holds it. *)
Definition stored (x : A) : option A := a_parse (a_format x).

Lemma csv_written all : csv_ReadAll (store_write all) = Some (store_write all).
Proof.
  assert (forallb (fun r => length r =? 5) (row_of <$> all) = true) as Hr by (induction all; done).
  unfold csv_ReadAll, store_write. simpl. by rewrite Hr.
Qed.

Lemma read_rows_written all all' :
  mapM (fun a => with_balance a <$> stored (Balance a)) all = Some all' -> read_rows (row_of <$> all) = Some all'.
Proof.
  revert all'. induction all as [|a all IH]; intros all'; cbn [mapM fmap list_fmap read_rows row_of]; [done|].
  change (a_parse (a_format (Balance a))) with (stored (Balance a)). simpl.
  destruct (stored (Balance a)) as [b|]; simpl; [|done].
  destruct (mapM _ all) as [l|]; simpl; [|done]. intros [= <-]. by rewrite (IH l eq_refl).
Qed.

(** Reading a written file gives the accounts in order with the balances as two
    decimals hold them; in particular all of them, when the decimals are exact. *)
Theorem accounts_roundtrip all all' :
  mapM (fun a => with_balance a <$> stored (Balance a)) all = Some all' ->
  store_read (store_write all) = Some all' /\ acID <$> all' = acID <$> all.
Proof.
  intros Hm. split.
  - unfold store_read. rewrite csv_written. simpl. by apply read_rows_written.
  - apply mapM_Some in Hm. induction Hm as [|a b all l Hab _ IH]; [done|]. simpl. f_equal; [|done].
    destruct (stored (Balance a)); [|done]. simpl in Hab. by injection Hab as <-.
Qed.

(** A record that lost a field makes the whole file unreadable, not only that
    account. *)
Theorem short_record_blocks_the_bank all row :
  length row < length Header ->
  store_read (store_write all ++ [row]) = None /\
  forall id, store_Balance id (store_write all ++ [row]) = inr ErrUnreadable.
Proof.
  intros Hr. assert (store_read (store_write all ++ [row]) = None) as Hn.
  { assert (forallb (fun r => length r =? 5) ((row_of <$> all) ++ [row]) = false) as Hf.
    { rewrite forallb_app. simpl in *. rewrite (proj2 (Nat.eqb_neq (length row) 5)) by lia.
      by rewrite andb_false_r. }
    unfold store_read, csv_ReadAll, store_write. rewrite <- app_comm_cons. simpl. by rewrite Hf. }
  split; [done|]. intros id. unfold store_Balance. by rewrite Hn.
Qed.
End Store.

(** ** Exact amounts *)

Section ExactStore.
Context {A : Type} `{EA : ExactAmount A}.
Implicit Types (all : list (BankAccount A)) (f : csv_file).

Lemma read_written all : store_read (store_write all) = Some all.
Proof.
  unfold store_read. rewrite csv_written. apply read_rows_written. induction all as [|a all IH]; simpl; [done|].
  assert (stored (Balance a) = Some (Balance a)) as -> by apply a_parse_format. simpl. rewrite IH. by destruct a.
Qed.

(** The balances of a file, in the units of the amounts; accounts listed twice
    have the balance of their first record. *)
Definition bal f (id : string) : Z := match store_Balance id f with inl b => a_val b | inr _ => 0 end.

Lemma find_add_to id delta all all' b :
  add_to id delta all = Some (all', b) ->
  exists a, find_account id all = Some a /\ b = a_add (Balance a) delta /\
    find_account id all' = Some (with_balance a b) /\
    forall x, x <> id -> find_account x all' = find_account x all.
Proof.
  unfold find_account. revert all' b. induction all as [|a all IH]; intros all' b; simpl; [done|].
  destruct (decide (acID a = id)) as [Ha|Ha].
  - intros [= <- <-]. exists a. simpl. rewrite decide_True by done. split_and!; [done|done|done|].
    intros x Hx. simpl. by rewrite !(decide_False (P := acID a = x)) by congruence.
  - destruct (add_to id delta all) as [[l b']|] eqn:E; simpl; [|done]. intros [= <- <-].
    destruct (IH l b' eq_refl) as (a' & H1 & H2 & H3 & H4). exists a'. simpl. rewrite decide_False by done.
    destruct (list_find (fun a => acID a = id) all) as [[i x]|] eqn:E1; simpl in *; [|done].
    destruct (list_find (fun a => acID a = id) l) as [[j y]|] eqn:E2; simpl in *; [|done].
    split_and!; [done|done|done|]. intros x' Hx. specialize (H4 x' Hx).
    destruct (decide (acID a = x')); [done|].
    destruct (list_find (fun a => acID a = x') all) as [[? ?]|], (list_find (fun a => acID a = x') l) as [[? ?]|];
      simpl in *; congruence.
Qed.

Lemma AddDelta_spec id delta f f' b :
  AddDelta true id delta f = (f', inl b) ->
  bal f' id = (bal f id + a_val delta)%Z /\ (exists x, store_Balance id f = inl x) /\
  (exists x, store_Balance id f' = inl x) /\
  forall x, x <> id -> store_Balance x f' = store_Balance x f.
Proof.
  unfold AddDelta, bal, store_Balance. destruct (store_read f) as [all|] eqn:Er; [|done].
  destruct (add_to id delta all) as [[all' b']|] eqn:Ea; [|done]. intros [= <- <-]. rewrite read_written.
  destruct (find_add_to _ _ _ _ _ Ea) as (a & -> & -> & -> & Ho). split_and!; [|eauto..|].
  - simpl. by rewrite a_add_val.
  - intros x Hx. by rewrite Ho.
Qed.
Lemma AddDelta_succeeds id delta f x :
  store_Balance id f = inl x -> exists f' y, AddDelta true id delta f = (f', inl y).
Proof.
  unfold AddDelta, store_Balance. destruct (store_read f) as [all|]; [|done].
  assert (forall a, find_account id all = Some a -> exists p, add_to id delta all = Some p) as Ha.
  { unfold find_account. induction all as [|a all IH]; intros a0; simpl; [done|].
    destruct (decide (acID a = id)); [eauto|].
    destruct (list_find (fun a => acID a = id) all) as [[i y]|]; simpl in *; [|done].
    destruct (IH y eq_refl) as [[l b] ->]. simpl. eauto. }
  destruct (find_account id all) as [a|]; [|done]. destruct (Ha a eq_refl) as [[l b] ->]. eauto.
Qed.
End ExactStore.
