(* ===== verification/Bank.v ===== *)
(** * bank/: a bank as a participant of the payment gateway

    The ledger file (ledger.go), the reservations (twopc.go), the replicated
    state machine (statemachine.go) and the gRPC surface (service.go).  Amounts
    are any [Amount]; the order in which Go visits the map of reservations and
    what the disk does are inputs. *)

From S2P Require Import Prelude GoText Money Accounts.

(** gRPC status codes. *)
Inductive code :=
| OK | InvalidArgument | NotFound | AlreadyExists | FailedPrecondition | Aborted_ | Internal | DataLoss
| Unavailable | DeadlineExceeded | ResourceExhausted | Unauthenticated | PermissionDenied | Canceled | Unknown.

#[export] Instance code_eq_dec : EqDecision code.
Proof. solve_decision. Defined.

Inductive operation := opDebit | opCredit.

#[export] Instance operation_eq_dec : EqDecision operation.
Proof. solve_decision. Defined.

Definition opString (op : operation) : string := match op with opDebit => "debit" | opCredit => "credit" end.

Definition transactionKey (transactionID : string) (op : operation) : string := transactionID +:+ "-" +:+ opString op.

(** ** The ledger file *)

(** [strings.Cut(line, ",")]: the part before the first comma, if there is one. *)
Fixpoint cut_comma (s : string) : option string :=
  match s with
  | EmptyString => None
  | String c s' => if Ascii.eqb c ","%char then Some "" else k ← cut_comma s'; Some (String c k)
  end.

(** The keys of a line of the file. *)
Definition ledger_key (line : string) : option string :=
  let line := TrimSpace line in if String.eqb line "" then None else cut_comma line.

Definition openLedger (lines : list string) : gset string := list_to_set (omap ledger_key lines).

Section Bank.
Context {A : Type} `{Amount A}.

Record reservation := mkReservation {
  r_op : operation;
  r_account : string;
  r_counterparty : string;
  r_amount : A;
  r_settled : bool;
}.

(** The participant and what it keeps on disk: the account file and the lines of
    the ledger file, with the set of keys the ledger holds in memory. *)
Record bank := mkBank {
  b_store : csv_file;
  b_applied : gset string;
  b_lines : list string;
  b_prepared : gmap string reservation;
}.

Definition newParticipant (store : csv_file) (lines : list string) : bank :=
  mkBank store (openLedger lines) lines ∅.

Definition set_prepared (p : gmap string reservation) (b : bank) : bank :=
  mkBank (b_store b) (b_applied b) (b_lines b) p.
Definition set_store (f : csv_file) (b : bank) : bank := mkBank f (b_applied b) (b_lines b) (b_prepared b).

(** [ledger.record] *)
Definition record_line (key from to : string) (op : operation) (amount : A) : string :=
  key +:+ "," +:+ from +:+ "," +:+ to +:+ "," +:+ a_format amount +:+ "," +:+ opString op.
Definition record (key from to : string) (op : operation) (amount : A) (b : bank) : bank :=
  mkBank (b_store b) ({[key]} ∪ b_applied b) (b_lines b ++ [record_line key from to op amount]) (b_prepared b).

(** The reservations that hold funds of an account, in the order of the visit. *)
Definition holds (account : string) (r : reservation) : bool :=
  bool_decide (r_op r = opDebit) && String.eqb (r_account r) account && negb (r_settled r).
Definition reservedLocked (visit : list reservation) (account : string) : A :=
  fold_left (fun total r => if holds account r then a_add total (r_amount r) else total) visit a_zero.

Definition same_details (r : reservation) (op : operation) (account counterparty : string) (amount : A) : bool :=
  bool_decide (r_op r = op) && String.eqb (r_account r) account && String.eqb (r_counterparty r) counterparty &&
  a_eqb (r_amount r) amount.

Definition prepare (visit : list reservation) (key : string) (op : operation) (account counterparty : string)
    (amount : A) (b : bank) : bank * code :=
  if String.eqb account counterparty then (b, InvalidArgument)
  else if a_leb amount a_zero then (b, InvalidArgument)
  else if bool_decide (key ∈ b_applied b) then
    (set_prepared (<[key := mkReservation op account counterparty amount true]> (b_prepared b)) b, OK)
  else
    match store_Balance account (b_store b) with
    | inr ErrNotFound => (b, NotFound)
    | inr _ => (b, Internal)
    | inl balance =>
        match b_prepared b !! key with
        | Some existing =>
            if same_details existing op account counterparty amount then (b, OK) else (b, AlreadyExists)
        | None =>
            if bool_decide (op = opDebit) && a_ltb (a_sub balance (reservedLocked visit account)) amount
            then (b, FailedPrecondition)
            else (set_prepared (<[key := mkReservation op account counterparty amount false]> (b_prepared b)) b, OK)
        end
    end.

Definition release (key : string) (b : bank) : bank := set_prepared (delete key (b_prepared b)) b.

(** What the disk does during a commit. *)
Record disk := mkDisk { write_ok : bool; ledger_ok : bool }.

(** The boolean is [alreadySettled]. *)
Definition commit (d : disk) (key : string) (op : operation) (account counterparty : string) (amount : A) (b : bank)
    : bank * bool * code :=
  if bool_decide (key ∈ b_applied b) then (release key b, true, OK)
  else
    match b_prepared b !! key with
    | None => (b, false, Aborted_)
    | Some r =>
        if negb (same_details r op account counterparty amount) then (b, false, InvalidArgument)
        else if r_settled r then (release key b, true, OK)
        else
          let delta := if bool_decide (op = opDebit) then a_neg amount else amount in
          match AddDelta (write_ok d) account delta (b_store b) with
          | (_, inr ErrNotFound) => (release key b, false, NotFound)
          | (_, inr _) => (b, false, Internal)
          | (f, inl _) =>
              let b := set_store f b in
              let '(from, to) :=
                if bool_decide (op = opCredit) then (counterparty, account) else (account, counterparty) in
              if ledger_ok d then (release key (record key from to op amount b), false, OK)
              else (release key b, false, DataLoss)
          end
    end.

Definition abort (key : string) (b : bank) : bank := release key b.

Definition pendingCount (b : bank) : nat := size (b_prepared b).

(** ** The state machine *)

Inductive cmdKind := cmdPrepare | cmdCommit | cmdAbort | cmdOther (kind : string).

Record bankCommand := mkBankCommand {
  bcKind : cmdKind;
  bcKey : string;
  bcOp : operation;
  bcAccount : string;
  bcCounterparty : string;
  bcAmount : A;
}.

Record applyResult := mkApplyResult { arCode : code; AlreadySettled : bool }.

(** One slot of the log, once decoded; [visit] is the order of the map and [d]
    the disk of this replica. *)
Definition bank_apply (visit : list reservation) (d : disk) (c : bankCommand) (b : bank) : bank * applyResult :=
  match bcKind c with
  | cmdPrepare =>
      let '(b', e) := prepare visit (bcKey c) (bcOp c) (bcAccount c) (bcCounterparty c) (bcAmount c) b in
      (b', mkApplyResult e false)
  | cmdCommit =>
      let '(b', settled, e) := commit d (bcKey c) (bcOp c) (bcAccount c) (bcCounterparty c) (bcAmount c) b in
      (b', match e with OK => mkApplyResult OK settled | _ => mkApplyResult e false end)
  | cmdAbort => (abort (bcKey c) b, mkApplyResult OK false)
  | cmdOther _ => (b, mkApplyResult Internal false)
  end.

(** ** The gRPC surface *)

(** [bankService.propose]: every failure of the log is Unavailable. *)
Definition service_propose (log : applyResult + unit) : applyResult + code :=
  match log with
  | inr _ => inr Unavailable
  | inl r => match arCode r with OK => inl r | e => inr e end
  end.

(** The health switch guards PREPARE and COMMIT, not ABORT. *)
Definition service_prepare (active : bool) (log : applyResult + unit) : option code :=
  if negb active then Some Unavailable
  else match service_propose log with inl _ => None | inr e => Some e end.
Definition service_commit (active : bool) (log : applyResult + unit) : option code :=
  if negb active then Some Unavailable
  else match service_propose log with inl _ => None | inr e => Some e end.
Definition service_abort (log : applyResult + unit) : option code :=
  match service_propose log with inl _ => None | inr e => Some e end.

(** A balance is only served by the leader. *)
Definition GetBalance (active isLeader : bool) (account : string) (b : bank) : A + code :=
  if negb active then inr Unavailable
  else if negb isLeader then inr Unavailable
  else match store_Balance account (b_store b) with
       | inl x => inl x
       | inr ErrNotFound => inr NotFound
       | inr _ => inr Internal
       end.

(** A run, each slot with the disk of this replica.  The map of reservations is
    visited in one order here, Go's is random: with exact amounts the order does
    not matter ([visit_irrelevant]); with float64 it can decide a vote
    ([vote_depends_on_map_order]). *)
Definition run_bank (cmds : list (disk * bankCommand)) (b : bank) : bank :=
  fold_left (fun b '(d, c) => (bank_apply ((map_to_list (b_prepared b)).*2) d c b).1) cmds b.
End Bank.
Arguments reservation : clear implicits.
Arguments bank : clear implicits.
Arguments bankCommand : clear implicits.

(** encoding/json has no text for NaN and the infinities. *)
Definition json_float (x : float64) : bool :=
  match x with SpecFloat.S754_nan | SpecFloat.S754_infinity _ => false | _ => true end.

(** [encodeCommand], with a command for its text: [None] is its panic. *)
Definition encodeCommand (c : bankCommand float64) : option (bankCommand float64) :=
  if json_float (bcAmount c) then Some c else None.

(** ** At most once, for any arithmetic *)

Section Once.
Context {A : Type} `{Amount A}.
Implicit Types (b : bank A) (c : bankCommand A).

Lemma bank_apply_state visit d c b :
  (bank_apply visit d c b).1 =
  match bcKind c with
  | cmdPrepare => (prepare visit (bcKey c) (bcOp c) (bcAccount c) (bcCounterparty c) (bcAmount c) b).1
  | cmdCommit => (commit d (bcKey c) (bcOp c) (bcAccount c) (bcCounterparty c) (bcAmount c) b).1.1
  | cmdAbort => abort (bcKey c) b
  | cmdOther _ => b
  end.
Proof.
  unfold bank_apply. destruct (bcKind c); [by destruct (prepare _ _ _ _ _ _ _)| |done..].
  by destruct (commit _ _ _ _ _ _ _) as [[? ?] ?].
Qed.

(** A PREPARE touches only its own reservation. *)
Lemma prepare_cases visit key op account counterparty amount b :
  let '(b', e) := prepare visit key op account counterparty amount b in
  b' = b \/
  exists settled, e = OK /\ a_leb amount a_zero = false /\
    b' = set_prepared (<[key := mkReservation op account counterparty amount settled]> (b_prepared b)) b /\
    (settled = true \/
     key ∉ b_applied b /\ b_prepared b !! key = None /\
     exists balance, store_Balance account (b_store b) = inl balance /\
       (op = opDebit -> a_ltb (a_sub balance (reservedLocked visit account)) amount = false)).
Proof.
  unfold prepare. destruct (String.eqb account counterparty); [by left|].
  destruct (a_leb amount a_zero); [by left|]. case_bool_decide; [right; by exists true; auto|].
  destruct (store_Balance account (b_store b)) as [balance|[]]; [|by left..].
  destruct (b_prepared b !! key) eqn:Hp; [by destruct (same_details _ _ _ _ _); left|].
  case_bool_decide; simpl; [destruct (a_ltb _ _) eqn:Hl; [by left|]|]; right; exists false;
    (split_and!; [done|done|done|]); right; naive_solver.
Qed.

(** A COMMIT leaves the bank as it was, releases its reservation, or applies it. *)
Lemma commit_cases d key op account counterparty amount b :
  let '(b', settled, e) := commit d key op account counterparty amount b in
  b' = b \/
  (b' = release key b /\ (e = OK -> settled = true)) \/
  exists r f x line,
    key ∉ b_applied b /\ b_prepared b !! key = Some r /\ same_details r op account counterparty amount = true /\
    r_settled r = false /\ settled = false /\
    AddDelta true account (if bool_decide (op = opDebit) then a_neg amount else amount) (b_store b) = (f, inl x) /\
    ((e = OK /\ b' = mkBank f ({[key]} ∪ b_applied b) (b_lines b ++ [line]) (delete key (b_prepared b))) \/
     (e = DataLoss /\ b' = mkBank f (b_applied b) (b_lines b) (delete key (b_prepared b)))).
Proof.
  unfold commit. case_bool_decide as Hk; [by right; left|].
  destruct (b_prepared b !! key) as [r|] eqn:Hp; [|by left].
  destruct (same_details r op account counterparty amount) eqn:Hs; simpl; [|by left].
  destruct (r_settled r) eqn:Hset; [by right; left|].
  destruct (AddDelta (write_ok d) account _ (b_store b)) as [f [x|[]]] eqn:Ha; [|by right; left|by left..].
  assert (write_ok d = true) as Hw.
  { destruct (write_ok d); [done|]. revert Ha. unfold AddDelta. by repeat case_match. }
  rewrite Hw in Ha. destruct (if bool_decide (op = opCredit) then _ else _) as [from to].
  destruct (ledger_ok d); right; right; exists r, f, x, (record_line key from to op amount); split_and!; auto.
Qed.

Lemma apply_applied visit d c b : b_applied b ⊆ b_applied (bank_apply visit d c b).1.
Proof.
  rewrite bank_apply_state. destruct (bcKind c); [| |done..].
  - pose proof (prepare_cases visit (bcKey c) (bcOp c) (bcAccount c) (bcCounterparty c) (bcAmount c) b) as Hc.
    destruct (prepare _ _ _ _ _ _ _) as [b' e]. destruct Hc as [->|(? & _ & _ & -> & _)]; done.
  - pose proof (commit_cases d (bcKey c) (bcOp c) (bcAccount c) (bcCounterparty c) (bcAmount c) b) as Hc.
    destruct (commit _ _ _ _ _ _ _) as [[b' s] e]. simpl.
    destruct Hc as [->|[[-> _]|(r & f & x & l & _ & _ & _ & _ & _ & _ & [[_ ->]|[_ ->]])]]; simpl; set_solver.
Qed.

(** A settled key moves no more money, whatever is sent under it. *)
Lemma settled_key_inert visit d c b :
  bcKey c ∈ b_applied b -> b_store (bank_apply visit d c b).1 = b_store b.
Proof.
  intros Hk. rewrite bank_apply_state. destruct (bcKind c); simpl; [| |done..].
  - pose proof (prepare_cases visit (bcKey c) (bcOp c) (bcAccount c) (bcCounterparty c) (bcAmount c) b) as Hc.
    destruct (prepare _ _ _ _ _ _ _) as [b' e]. destruct Hc as [->|(? & _ & _ & -> & _)]; done.
  - unfold commit. by rewrite (bool_decide_true (bcKey c ∈ b_applied b)).
Qed.
(** A reservation is marked settled only for a key the ledger has. *)
Definition settled_known b : Prop :=
  forall k r, b_prepared b !! k = Some r -> r_settled r = true -> k ∈ b_applied b.

Lemma apply_settled_known visit d c b : settled_known b -> settled_known (bank_apply visit d c b).1.
Proof.
  intros Hs. rewrite bank_apply_state.
  assert (forall k b, settled_known b -> settled_known (release k b)) as Hrel.
  { intros k0 b0 H0 k r Hk. simpl in Hk. apply lookup_delete_Some in Hk as [_ Hk]. by apply H0. }
  destruct (bcKind c); [| |by apply Hrel|done].
  - unfold prepare. destruct (String.eqb _ _); [done|]. destruct (a_leb _ _); [done|].
    case_bool_decide as Hk; simpl.
    { intros k r. simpl. rewrite lookup_insert. case_decide; [intros _ _; by subst k|apply Hs]. }
    destruct (store_Balance _ _) as [x|[]]; [|done..]. destruct (b_prepared b !! bcKey c); [by destruct (same_details _ _ _ _ _)|].
    destruct (_ && _); [done|]. intros k r. simpl. rewrite lookup_insert. case_decide; [by intros [= <-]|apply Hs].
  - pose proof (commit_cases d (bcKey c) (bcOp c) (bcAccount c) (bcCounterparty c) (bcAmount c) b) as Hc.
    destruct (commit _ _ _ _ _ _ _) as [[b' s] e]. simpl.
    destruct Hc as [->|[[-> _]|(r & f & x & l & _ & _ & _ & _ & _ & _ & [[_ ->]|[_ ->]])]]; [done|by apply Hrel|..];
      intros k r' Hk Hr; simpl in *; apply lookup_delete_Some in Hk as [_ Hk]; specialize (Hs _ _ Hk Hr); set_solver.
Qed.

Lemma run_settled_known cmds b : settled_known b -> settled_known (run_bank cmds b).
Proof.
  revert b. induction cmds as [|[d c] cmds IH]; intros b Hs; simpl; [done|]. by apply IH, apply_settled_known.
Qed.

Lemma run_applied cmds b : b_applied b ⊆ b_applied (run_bank cmds b).
Proof.
  revert b. induction cmds as [|[d c] cmds IH]; intros b; simpl; [done|].
  etransitivity; [apply apply_applied|apply IH].
Qed.

Lemma commit_ok_applied visit d c b :
  settled_known b -> bcKind c = cmdCommit -> arCode (bank_apply visit d c b).2 = OK ->
  bcKey c ∈ b_applied (bank_apply visit d c b).1.
Proof.
  intros Hs Hk Hok. rewrite bank_apply_state. unfold bank_apply in Hok. rewrite Hk in *. unfold commit in *.
  case_bool_decide; [done|]. destruct (b_prepared b !! bcKey c) as [r|] eqn:Hp; [|done].
  destruct (same_details _ _ _ _ _); simpl in *; [|done]. destruct (r_settled r) eqn:Hr; [by apply (Hs _ _ Hp)|].
  destruct (AddDelta _ _ _ _) as [f [x|[]]]; try done.
  destruct (if bool_decide (bcOp c = opCredit) then _ else _) as [from to].
  destruct (ledger_ok d); [simpl; set_solver|done].
Qed.

(** C19: However often a transfer is retried: once a COMMIT under a key was
    acknowledged, no command under that key ever moves money again, and another
    COMMIT is acknowledged as already settled. *)
Theorem bank_settles_once (store : csv_file) (lines : list string) before visit d c cmds visit' d' c' :
  let b := run_bank before (newParticipant store lines) in
  bcKind c = cmdCommit -> arCode (bank_apply visit d c b).2 = OK -> bcKey c' = bcKey c ->
  let b1 := run_bank cmds (bank_apply visit d c b).1 in
  b_store (bank_apply visit' d' c' b1).1 = b_store b1 /\
  (bcKind c' = cmdCommit -> (bank_apply visit' d' c' b1).2 = mkApplyResult OK true).
Proof.
  intros b Hk Hok Hkey b1. assert (bcKey c' ∈ b_applied b1) as Hin.
  { apply run_applied. rewrite Hkey. apply commit_ok_applied; [|done..].
    by apply run_settled_known. }
  split; [by apply settled_key_inert|]. intros Hk'. unfold bank_apply. rewrite Hk'. unfold commit.
  by rewrite (bool_decide_true (bcKey c' ∈ b_applied b1)).
Qed.
End Once.

(** ** No overdraft, when the arithmetic is exact *)

Section Exact.
Context {A : Type} `{EA : ExactAmount A}.
Implicit Types (b : bank A) (c : bankCommand A) (r : reservation A).

(** What a reservation holds of an account. *)
Definition weight (account : string) r : Z := if holds account r then a_val (r_amount r) else 0%Z.

Definition hsum (account : string) (l : list (reservation A)) : Z := foldr (fun r z => (weight account r + z)%Z) 0%Z l.
Definition held (p : gmap string (reservation A)) (account : string) : Z := hsum account (map_to_list p).*2.

#[export] Instance hsum_proper account : Proper ((≡ₚ) ==> (=)) (hsum account).
Proof. intros l l' Hp. induction Hp; simpl; lia. Qed.

(** The order in which the map is visited does not matter. *)
Lemma reserved_val visit account : a_val (reservedLocked visit account) = hsum account visit.
Proof.
  unfold reservedLocked.
  assert (forall t, a_val (fold_left (fun total r => if holds account r then a_add total (r_amount r) else total) visit t)
                    = (a_val t + hsum account visit)%Z) as Hg.
  { induction visit as [|r visit IH]; intros t; simpl; [lia|]. rewrite IH. unfold weight.
    destruct (holds account r); rewrite ?a_add_val; lia. }
  rewrite Hg, a_zero_val. lia.
Qed.

(** Nor does a vote depend on it. *)
Lemma visit_irrelevant visit d c b :
  visit ≡ₚ (map_to_list (b_prepared b)).*2 -> bank_apply visit d c b = bank_apply (map_to_list (b_prepared b)).*2 d c b.
Proof.
  intros Hv. unfold bank_apply. destruct (bcKind c); try done. unfold prepare.
  assert (reservedLocked visit (bcAccount c) = reservedLocked (map_to_list (b_prepared b)).*2 (bcAccount c)) as ->; [|done].
  apply a_val_inj. by rewrite !reserved_val, Hv.
Qed.

Lemma held_insert p k r account :
  p !! k = None -> held (<[k := r]> p) account = (weight account r + held p account)%Z.
Proof. intros Hk. unfold held. by rewrite (map_to_list_insert p k r Hk). Qed.

Lemma held_delete p k r account :
  p !! k = Some r -> held p account = (weight account r + held (delete k p) account)%Z.
Proof.
  intros Hk. rewrite <- (insert_delete_id p k r Hk) at 1. apply held_insert. apply lookup_delete_eq.
Qed.

(** The funds behind the reservations are there. *)
Record covered b : Prop := {
  cv_funds account x : store_Balance account (b_store b) = inl x -> (held (b_prepared b) account <= a_val x)%Z;
  cv_positive k r : b_prepared b !! k = Some r -> (0 < a_val (r_amount r))%Z;
  cv_account k r : b_prepared b !! k = Some r -> r_settled r = false ->
    exists x, store_Balance (r_account r) (b_store b) = inl x;
}.

Lemma weight_nonneg b k r account : covered b -> b_prepared b !! k = Some r -> (0 <= weight account r)%Z.
Proof. intros Hc Hk. unfold weight. destruct (holds account r); [|lia]. pose proof (cv_positive b Hc k r Hk). lia. Qed.

Lemma hsum_nonneg account l : (forall r, r ∈ l -> 0 <= weight account r)%Z -> (0 <= hsum account l)%Z.
Proof.
  induction l as [|r l IH]; simpl; [lia|]. intros Hall.
  assert (0 <= weight account r)%Z by (apply Hall; left). assert (0 <= hsum account l)%Z; [|lia].
  apply IH. intros r' Hr. apply Hall. by right.
Qed.

Lemma held_nonneg b account : covered b -> (0 <= held (b_prepared b) account)%Z.
Proof.
  intros Hc. apply hsum_nonneg. intros r ([k r'] & -> & Hin)%list_elem_of_fmap.
  apply elem_of_map_to_list in Hin. by eapply weight_nonneg.
Qed.

Lemma covered_release k b : covered b -> covered (release k b).
Proof.
  intros Hc. destruct (b_prepared b !! k) as [r|] eqn:Hk.
  2: { unfold release, set_prepared. rewrite delete_id by done. by destruct b. }
  split; simpl.
  - intros account x Hx. pose proof (cv_funds b Hc account x Hx) as Hf.
    rewrite (held_delete _ k r account Hk) in Hf. pose proof (weight_nonneg b k r account Hc Hk). lia.
  - intros k' r' [_ Hk']%lookup_delete_Some. by eapply cv_positive.
  - intros k' r' [_ Hk']%lookup_delete_Some. by eapply cv_account.
Qed.

Lemma covered_insert k r b :
  covered b -> b_prepared b !! k = None -> (0 < a_val (r_amount r))%Z ->
  (r_settled r = false -> exists x, store_Balance (r_account r) (b_store b) = inl x /\
     (r_op r = opDebit -> held (b_prepared b) (r_account r) + a_val (r_amount r) <= a_val x)%Z) ->
  covered (set_prepared (<[k := r]> (b_prepared b)) b).
Proof.
  intros Hc Hk Hpos Hacc. split; simpl.
  - intros account x Hx. rewrite held_insert by done. pose proof (cv_funds b Hc account x Hx) as Hf.
    unfold weight, holds. case_bool_decide as Hop; simpl; [|lia].
    destruct (String.eqb_spec (r_account r) account) as [<-|]; simpl; [|lia].
    destruct (r_settled r); simpl; [lia|]. destruct (Hacc eq_refl) as (x' & Hx' & Hle). specialize (Hle Hop).
    assert (x' = x) as -> by congruence. lia.
  - intros k' r'. rewrite lookup_insert. case_decide; [by intros [= <-]|by apply cv_positive].
  - intros k' r'. rewrite lookup_insert. case_decide; [|by apply cv_account]. intros [= <-] Hs.
    destruct (Hacc Hs) as (x & ? & _). eauto.
Qed.

Lemma covered_prepare visit key op account counterparty amount b :
  covered b -> visit ≡ₚ (map_to_list (b_prepared b)).*2 ->
  covered (prepare visit key op account counterparty amount b).1.
Proof.
  intros Hc Hv. pose proof (prepare_cases visit key op account counterparty amount b) as Hp.
  destruct (prepare _ _ _ _ _ _ _) as [b' e]. simpl. destruct Hp as [->|(settled & _ & Hpos & -> & Hcase)]; [done|].
  assert (0 < a_val amount)%Z as Hpos'.
  { rewrite a_leb_val, a_zero_val in Hpos. apply Z.leb_gt in Hpos. done. }
  assert (covered (release key b)) as Hr by by apply covered_release.
  replace (set_prepared (<[key := mkReservation op account counterparty amount settled]> (b_prepared b)) b)
    with (set_prepared (<[key := mkReservation op account counterparty amount settled]> (b_prepared (release key b)))
            (release key b)) by (unfold set_prepared; simpl; by rewrite insert_delete_eq).
  apply covered_insert; [done|apply lookup_delete_eq|done|]. simpl. intros Hs.
  destruct Hcase as [->|(_ & Hnone & x & Hx & Hdeb)]; [done|]. exists x. split; [done|]. intros Hop.
  specialize (Hdeb Hop). rewrite a_ltb_val, a_sub_val, reserved_val, Hv in Hdeb. apply Z.ltb_ge in Hdeb.
  rewrite delete_id by done. unfold held. lia.
Qed.

Lemma covered_settle d key op account counterparty amount b :
  covered b -> covered (commit d key op account counterparty amount b).1.1.
Proof.
  intros Hc. pose proof (commit_cases d key op account counterparty amount b) as Hp.
  destruct (commit _ _ _ _ _ _ _) as [[b' s] e]. simpl.
  destruct Hp as [->|[[-> _]|(r & f & x & line & _ & Hr & Hsame & Hset & _ & Hadd & Hb')]];
    [done|by apply covered_release|].
  apply andb_prop in Hsame as [Hsame Hamt]. apply andb_prop in Hsame as [Hsame _].
  apply andb_prop in Hsame as [Hop Hacc]. apply bool_decide_eq_true in Hop. apply String.eqb_eq in Hacc.
  rewrite a_eqb_val in Hamt. apply Z.eqb_eq in Hamt. subst op account.
  pose proof (cv_positive b Hc _ _ Hr) as Hpos.
  destruct (AddDelta_spec _ _ _ _ _ Hadd) as (Hbal & [x0 Hx0] & [x1 Hx1] & Hother).
  unfold bal in Hbal. rewrite Hx0, Hx1 in Hbal.
  assert (forall account x, store_Balance account f = inl x ->
            held (delete key (b_prepared b)) account <= a_val x)%Z as Hfunds.
  { intros account y Hy. destruct (decide (account = r_account r)) as [->|Hne].
    - assert (y = x1) as -> by congruence. rewrite Hbal. pose proof (cv_funds b Hc _ _ Hx0) as Hf.
      rewrite (held_delete _ key r _ Hr) in Hf. unfold weight, holds in Hf. rewrite Hset, String.eqb_refl in Hf.
      case_bool_decide as Hd; simpl in Hf; [rewrite a_neg_val|]; lia.
    - rewrite Hother in Hy by done. pose proof (cv_funds b Hc _ _ Hy) as Hf.
      rewrite (held_delete _ key r _ Hr) in Hf. pose proof (weight_nonneg b key r account Hc Hr). lia. }
  assert (forall k r', delete key (b_prepared b) !! k = Some r' -> r_settled r' = false ->
            exists y, store_Balance (r_account r') f = inl y) as Haccts.
  { intros k r' [_ Hk]%lookup_delete_Some Hs. destruct (decide (r_account r' = r_account r)) as [->|Hne]; [eauto|].
    rewrite Hother by done. by eapply cv_account. }
  assert (forall k r', delete key (b_prepared b) !! k = Some r' -> 0 < a_val (r_amount r'))%Z as Hposs
    by (intros k r' [_ Hk]%lookup_delete_Some; by eapply cv_positive).
  destruct Hb' as [[_ ->]|[_ ->]]; split; simpl; eauto.
Qed.

Lemma covered_apply visit d c b :
  covered b -> visit ≡ₚ (map_to_list (b_prepared b)).*2 -> covered (bank_apply visit d c b).1.
Proof.
  intros Hc Hv. rewrite bank_apply_state.
  destruct (bcKind c); [by apply covered_prepare|by apply covered_settle|by apply covered_release|done].
Qed.

Lemma covered_run cmds b : covered b -> covered (run_bank cmds b).
Proof.
  revert b. induction cmds as [|[d c] cmds IH]; intros b Hc; simpl; [done|]. by apply IH, covered_apply.
Qed.

Lemma covered_new store lines :
  (forall account x, store_Balance account store = inl x -> 0 <= a_val x)%Z -> covered (newParticipant store lines).
Proof.
  intros Hn. split; simpl; [|intros k r; by rewrite lookup_empty..].
  intros account x Hx. unfold held. rewrite map_to_list_empty. simpl. by apply (Hn account).
Qed.

(** *** A vote is kept *)

Definition commit_of c : bankCommand A :=
  mkBankCommand cmdCommit (bcKey c) (bcOp c) (bcAccount c) (bcCounterparty c) (bcAmount c).

(** The bank has promised the half of a transfer that [c] prepares. *)
Definition promised_half c b : Prop :=
  bcKey c ∈ b_applied b \/
  exists r, b_prepared b !! bcKey c = Some r /\
    same_details r (bcOp c) (bcAccount c) (bcCounterparty c) (bcAmount c) = true /\ r_settled r = false.

Lemma same_details_refl op account counterparty amount s :
  same_details (mkReservation op account counterparty amount s) op account counterparty amount = true.
Proof.
  unfold same_details; simpl. rewrite bool_decide_true, !String.eqb_refl by done. rewrite a_eqb_val. apply Z.eqb_refl.
Qed.

Lemma same_details_spec r op account counterparty amount :
  same_details r op account counterparty amount = true ->
  r_op r = op /\ r_account r = account /\ a_val (r_amount r) = a_val amount.
Proof.
  unfold same_details. rewrite !andb_true_iff, bool_decide_eq_true, !String.eqb_eq, a_eqb_val, Z.eqb_eq. tauto.
Qed.

Lemma prepare_promises visit d c b :
  settled_known b -> bcKind c = cmdPrepare -> arCode (bank_apply visit d c b).2 = OK ->
  promised_half c (bank_apply visit d c b).1.
Proof.
  intros Hsk Hk Hok. rewrite bank_apply_state. unfold bank_apply in Hok. rewrite Hk in *. unfold prepare in *.
  destruct (String.eqb _ _); [done|]. destruct (a_leb _ _); [done|]. case_bool_decide; [by left|].
  destruct (store_Balance _ _) as [x|[]]; try done. destruct (b_prepared b !! bcKey c) as [r|] eqn:Hp.
  - destruct (same_details _ _ _ _ _) eqn:Hs; [|done]. simpl. right. exists r. split_and!; [done|done|].
    destruct (r_settled r) eqn:Hr; [|done]. exfalso. by apply (Hsk _ _ Hp) in Hr.
  - destruct (_ && _); [done|]. simpl. right. eexists. simpl. rewrite lookup_insert_eq.
    split_and!; [done|apply same_details_refl|done].
Qed.

Lemma other_key_keeps visit d c c' b :
  bcKey c' <> bcKey c -> promised_half c b -> promised_half c (bank_apply visit d c' b).1.
Proof.
  intros Hne [Hin|(r & Hr & Hs & Hset)]; [left; by apply apply_applied|].
  right. exists r. split; [|done]. rewrite bank_apply_state. destruct (bcKind c'); [| | |done].
  - pose proof (prepare_cases visit (bcKey c') (bcOp c') (bcAccount c') (bcCounterparty c') (bcAmount c') b) as Hc.
    destruct (prepare _ _ _ _ _ _ _) as [b' e]. destruct Hc as [->|(? & _ & _ & -> & _)]; [done|].
    simpl. by rewrite lookup_insert_ne.
  - pose proof (commit_cases d (bcKey c') (bcOp c') (bcAccount c') (bcCounterparty c') (bcAmount c') b) as Hc.
    destruct (commit _ _ _ _ _ _ _) as [[b' s] e]. simpl.
    destruct Hc as [->|[[-> _]|(r' & f & x & l & _ & _ & _ & _ & _ & _ & [[_ ->]|[_ ->]])]]; [done|..];
      simpl; by rewrite lookup_delete_ne.
  - simpl. by rewrite lookup_delete_ne.
Qed.

Lemma other_keys_keep cmds c b :
  Forall (fun p => bcKey p.2 <> bcKey c) cmds -> promised_half c b -> promised_half c (run_bank cmds b).
Proof.
  revert b. induction cmds as [|[d c'] cmds IH]; intros b Hall Hp; simpl; [done|].
  inversion_clear Hall. by apply IH, other_key_keeps.
Qed.

(** What was promised can be committed on a working disk. *)
Lemma promised_commit visit c b :
  covered b -> promised_half c b -> arCode (bank_apply visit (mkDisk true true) (commit_of c) b).2 = OK.
Proof.
  intros Hc Hp. unfold bank_apply. cbn [commit_of bcKind bcKey bcOp bcAccount bcCounterparty bcAmount]. unfold commit.
  case_bool_decide as Hin; [done|]. destruct Hp as [?|(r & Hr & Hs & Hset)]; [done|].
  rewrite Hr, Hs, Hset. simpl. destruct (cv_account b Hc _ _ Hr Hset) as [x Hx].
  apply andb_prop in Hs as [Hs _]. apply andb_prop in Hs as [Hs _]. apply andb_prop in Hs as [_ Hacc].
  apply String.eqb_eq in Hacc. rewrite Hacc in Hx.
  destruct (AddDelta_succeeds (bcAccount c) (if bool_decide (bcOp c = opDebit) then a_neg (bcAmount c) else bcAmount c)
              (b_store b) x Hx) as (f & y & ->).
  by destruct (if bool_decide (bcOp c = opCredit) then _ else _).
Qed.

(** A bank that answered YES can commit: whatever other transfers do meanwhile,
    the COMMIT of what was prepared succeeds on a working disk. *)
Theorem bank_yes_guarantees_commit (store : csv_file) (lines : list string) before visit d c cmds visit' :
  (forall account x, store_Balance account store = inl x -> 0 <= a_val x)%Z ->
  let b := run_bank before (newParticipant store lines) in
  bcKind c = cmdPrepare -> visit ≡ₚ (map_to_list (b_prepared b)).*2 ->
  arCode (bank_apply visit d c b).2 = OK ->
  Forall (fun p => bcKey p.2 <> bcKey c) cmds ->
  arCode (bank_apply visit' (mkDisk true true) (commit_of c) (run_bank cmds (bank_apply visit d c b).1)).2 = OK.
Proof.
  intros Hn b Hk Hv Hok Hall. assert (covered b) as Hc by by apply covered_run, covered_new.
  apply promised_commit; [by apply covered_run, covered_apply|]. apply other_keys_keep; [done|].
  apply prepare_promises; [by apply run_settled_known|done|done].
Qed.
End Exact.

(** ** The ledger file *)

Definition plain_key (key : string) : Prop :=
  match key with String c _ => is_space c = false | EmptyString => False end /\ cut_comma key = None.

Lemma all_space_app s t : all_space (s +:+ t) = all_space s && all_space t.
Proof. induction s as [|c s IH]; [done|]. rewrite str_app_cons. simpl. by rewrite IH, andb_assoc. Qed.

Lemma trim_right_app s t : all_space t = false -> trim_right (s +:+ t) = s +:+ trim_right t.
Proof.
  intros Ht. induction s as [|c s IH]; [done|]. rewrite !str_app_cons. cbn [trim_right].
  assert (all_space (String c (s +:+ t)) = false) as ->.
  { simpl. by rewrite all_space_app, Ht, !andb_false_r. }
  by rewrite IH.
Qed.

Lemma cut_comma_app key rest : cut_comma key = None -> cut_comma (key +:+ String "," rest) = Some key.
Proof.
  induction key as [|c key IH]; [done|]. rewrite str_app_cons. simpl. destruct (Ascii.eqb c ","); [done|].
  destruct (cut_comma key); [done|]. intros _. by rewrite IH.
Qed.

Lemma ledger_key_line key rest : plain_key key -> ledger_key (key +:+ "," +:+ rest) = Some key.
Proof.
  intros [Hc Hk]. unfold ledger_key, TrimSpace. rewrite (str_app_cons "," "" rest), str_app_nil_l.
  destruct key as [|c key]; [done|].
  assert (trim_left (String c key +:+ String "," rest) = String c key +:+ String "," rest) as ->.
  { rewrite str_app_cons. simpl. by rewrite Hc. }
  assert (trim_right (String c key +:+ String "," rest) = String c key +:+ String "," (trim_right rest)) as ->.
  { rewrite trim_right_app by done. f_equal. }
  rewrite cut_comma_app by done. by rewrite str_app_cons.
Qed.

Section LedgerFile.
Context {A : Type} `{Amount A}.
Implicit Types (b : bank A) (c : bankCommand A).

Lemma openLedger_app l l' : openLedger (l ++ l') = openLedger l ∪ openLedger l'.
Proof. unfold openLedger. by rewrite omap_app, list_to_set_app_L. Qed.

Lemma apply_ledger visit d c b :
  plain_key (bcKey c) -> openLedger (b_lines b) = b_applied b ->
  openLedger (b_lines (bank_apply visit d c b).1) = b_applied (bank_apply visit d c b).1.
Proof.
  intros Hk Ho. rewrite bank_apply_state. destruct (bcKind c); [| |done..].
  - pose proof (prepare_cases visit (bcKey c) (bcOp c) (bcAccount c) (bcCounterparty c) (bcAmount c) b) as Hc.
    destruct (prepare _ _ _ _ _ _ _) as [b' e]. destruct Hc as [->|(? & _ & _ & -> & _)]; done.
  - unfold commit. case_bool_decide; [done|]. destruct (b_prepared b !! bcKey c) as [r|]; [|done].
    destruct (same_details _ _ _ _ _); simpl; [|done]. destruct (r_settled r); [done|].
    destruct (AddDelta _ _ _ _) as [f [x|[]]]; try done.
    destruct (if bool_decide (bcOp c = opCredit) then _ else _) as [from to].
    destruct (ledger_ok d); [|done]. simpl. rewrite openLedger_app, Ho.
    assert (openLedger [record_line (bcKey c) from to (bcOp c) (bcAmount c)] = {[bcKey c]}) as ->; [|set_solver].
    unfold openLedger, record_line. simpl. rewrite ledger_key_line by done. set_solver.
Qed.

(** A restart does not forget which transfers were settled: reopening the file
    gives the set of keys that was in memory, as long as the keys are printable
    in it. *)
Theorem ledger_survives_restart (store : csv_file) (lines : list string) cmds :
  Forall (fun p => plain_key (bcKey p.2)) cmds ->
  let b := run_bank cmds (newParticipant (A := A) store lines) in
  openLedger (b_lines b) = b_applied b.
Proof.
  intros Hall. assert (forall b, openLedger (b_lines b) = b_applied b ->
    openLedger (b_lines (run_bank cmds b)) = b_applied (run_bank cmds b)) as Hg; [|by apply Hg].
  induction Hall as [|[d c] cmds Hc Hall IH]; intros b Hb; simpl; [done|]. by apply IH, apply_ledger.
Qed.
End LedgerFile.

(** ** Runs *)

Module BankExamples.
Definition good : disk := mkDisk true true.

Definition prep {A} (key : string) (op : operation) (acct other : string) (x : A) : disk * bankCommand A :=
  (good, mkBankCommand cmdPrepare key op acct other x).
Definition comm {A} (key : string) (op : operation) (acct other : string) (x : A) : disk * bankCommand A :=
  (good, mkBankCommand cmdCommit key op acct other x).
Definition abrt {A} (key : string) (op : operation) (acct other : string) (x : A) : disk * bankCommand A :=
  (good, mkBankCommand cmdAbort key op acct other x).

Definition account_file (id balance : string) : csv_file := [Header; [id; id; ""; "ICICI"; balance]].

(** *** Exact amounts *)

Definition alice100 : csv_file := account_file "alice" "100.00".
Definition history : list (disk * bankCommand cents) :=
  [prep "T1-debit" opDebit "alice" "bob" 4000%Z; prep "T2-debit" opDebit "alice" "carol" 7000%Z;
   comm "T1-debit" opDebit "alice" "bob" 4000%Z].

Lemma alice100_nonneg account x : store_Balance (A := cents) account alice100 = inl x -> (0 <= a_val x)%Z.
Proof.
  unfold store_Balance. replace (store_read alice100) with
    (Some [mkAccountRow "alice" "alice" "" "ICICI" (10000%Z : cents)]) by (vm_compute; reflexivity).
  unfold find_account. simpl. destruct (decide _); simpl; [|done]. intros [= <-]. vm_compute. discriminate.
Qed.


Definition T3 : bankCommand cents := mkBankCommand cmdPrepare "T3-debit" opDebit "alice" "dave" 6000%Z.

Lemma T3_visit : [] ≡ₚ (map_to_list (b_prepared (run_bank history (newParticipant alice100 [])))).*2.
Proof. vm_compute. reflexivity. Qed.

Lemma bank_yes_guarantees_commit_witness :
  arCode (bank_apply [] good (commit_of T3)
    (run_bank [prep "T4-debit" opDebit "alice" "erin" 100%Z]
      (bank_apply [] good T3 (run_bank history (newParticipant alice100 []))).1)).2 = OK.
Proof.
  apply (bank_yes_guarantees_commit alice100 [] history [] good T3
           [prep "T4-debit" opDebit "alice" "erin" 100%Z] [] alice100_nonneg eq_refl T3_visit).
  - vm_compute. reflexivity.
  - repeat constructor. simpl. discriminate.
Defined.

Definition T1_again : bankCommand cents := mkBankCommand cmdCommit "T1-debit" opDebit "alice" "bob" 4000%Z.
Definition T1_prepared : list (disk * bankCommand cents) := [prep "T1-debit" opDebit "alice" "bob" 4000%Z].

Lemma bank_settles_once_witness :
  (bank_apply [] good T1_again (run_bank history (bank_apply [] good T1_again
     (run_bank T1_prepared (newParticipant alice100 []))).1)).2 = mkApplyResult OK true.
Proof.
  refine (proj2 (bank_settles_once alice100 [] T1_prepared [] good T1_again history [] good T1_again eq_refl _ eq_refl) eq_refl).
  vm_compute. reflexivity.
Defined.

Lemma plain_T1 : plain_key "T1-debit".
Proof. split; vm_compute; reflexivity. Qed.

Lemma ledger_survives_restart_witness :
  openLedger (b_lines (run_bank (T1_prepared ++ [(good, T1_again)]) (newParticipant alice100 []))) = {["T1-debit"]}.
Proof.
  rewrite (ledger_survives_restart alice100 [] (T1_prepared ++ [(good, T1_again)])).
  - vm_compute. reflexivity.
  - repeat constructor; exact plain_T1.
Defined.

(** *** Where the code falls short *)

(** Amounts have more decimals than balances: three reservations of 0.006 fit in
    a balance of 0.02, and each commit takes a rounded 0.01 from it. *)
Theorem float_commits_overdraw :
  let tx k := prep (k +:+ "-debit") opDebit "alice" "bob" (dollars "0.006") in
  let cx k := comm (k +:+ "-debit") opDebit "alice" "bob" (dollars "0.006") in
  let file := account_file "alice" "0.02" in
  (forall p, p ∈ [[tx "T1"]; [tx "T1"; tx "T2"]; [tx "T1"; tx "T2"; tx "T3"]] ->
     size (b_prepared (run_bank p (newParticipant file []))) = length p) /\
  store_Balance "alice" (b_store (run_bank ([tx "T1"; tx "T2"; tx "T3"] ++ [cx "T1"; cx "T2"; cx "T3"]) (newParticipant file []))) =
    inl (dollars "-0.01").
Proof.
  split; [|vm_compute; reflexivity]. intros p Hp.
  repeat (apply elem_of_cons in Hp as [->|Hp]; [vm_compute; reflexivity|]). by apply not_elem_of_nil in Hp.
Qed.

(** A key with a comma is not found again in the file, so a restarted bank would
    apply a retried transfer a second time. *)
Theorem comma_in_transaction_id_is_forgotten :
  let b := run_bank [prep "T,1-debit" opDebit "alice" "bob" (4000%Z : cents);
                     comm "T,1-debit" opDebit "alice" "bob" 4000%Z] (newParticipant alice100 []) in
  let again := run_bank [prep "T,1-debit" opDebit "alice" "bob" 4000%Z;
                         comm "T,1-debit" opDebit "alice" "bob" 4000%Z] (newParticipant (b_store b) (b_lines b)) in
  b_store b = account_file "alice" "60.00" /\ b_store again = account_file "alice" "20.00".
Proof. vm_compute. auto. Qed.

(** A third decimal passes every check and creates money: the sender's balance
    rounds back up, the receiver's rounds up. *)
Theorem sub_cent_transfer_creates_money :
  let half := dollars "0.005" in
  let sender := run_bank [prep "T-debit" opDebit "alice" "bob" half; comm "T-debit" opDebit "alice" "bob" half]
                  (newParticipant (account_file "alice" "2.00") []) in
  let receiver := run_bank [prep "T-credit" opCredit "bob" "alice" half; comm "T-credit" opCredit "bob" "alice" half]
                    (newParticipant (account_file "bob" "0.00") []) in
  b_store sender = account_file "alice" "2.00" /\ b_store receiver = account_file "bob" "0.01" /\
  b_applied sender = {["T-debit"]} /\ b_applied receiver = {["T-credit"]}.
Proof. vm_compute. auto. Qed.

(** float64 addition is not associative and Go visits a map in any order: two
    replicas with the same reservations can vote differently on one command. *)
Theorem vote_depends_on_map_order :
  let d := dollars in
  let b := run_bank [prep "T1-debit" opDebit "alice" "bob" (d "0.1"); prep "T2-debit" opDebit "alice" "bob" (d "0.2");
                     prep "T3-debit" opDebit "alice" "bob" (d "0.3")] (newParticipant (account_file "alice" "1.00") []) in
  let res x := mkReservation opDebit "alice" "bob" (d x) false in
  let c := mkBankCommand cmdPrepare "T4-debit" opDebit "alice" "bob" (d "0.4") in
  let one := [res "0.1"; res "0.2"; res "0.3"] in
  let other := [res "0.3"; res "0.2"; res "0.1"] in
  b_prepared b = list_to_map [("T1-debit", res "0.1"); ("T2-debit", res "0.2"); ("T3-debit", res "0.3")] /\
  one ≡ₚ other /\
  arCode (bank_apply one good c b).2 = FailedPrecondition /\ arCode (bank_apply other good c b).2 = OK.
Proof.
  intros d b res c one other. split; [vm_compute; reflexivity|]. split.
  - exact (Permutation_rev one).
  - vm_compute. auto.
Qed.

(** A restarted replica replays its log over the balances it has already
    written: a reservation that was granted is refused, and the commit the rest
    of the group applies fails there. *)
Theorem replay_loses_a_reservation :
  let log := [prep "R-debit" opDebit "alice" "bob" (4000%Z : cents); prep "Z-debit" opDebit "alice" "bob" 6000%Z;
              abrt "R-debit" opDebit "alice" "bob" 4000%Z; prep "S-debit" opDebit "alice" "bob" 4000%Z;
              comm "S-debit" opDebit "alice" "bob" 4000%Z] in
  let live := run_bank log (newParticipant alice100 []) in
  let restarted := run_bank log (newParticipant (b_store live) (b_lines live)) in
  let z := mkBankCommand cmdCommit "Z-debit" opDebit "alice" "bob" 6000%Z in
  arCode (bank_apply [] good z live).2 = OK /\ arCode (bank_apply [] good z restarted).2 = Aborted_ /\
  b_store (bank_apply [] good z live).1 <> b_store (bank_apply [] good z restarted).1.
Proof. vm_compute. split_and!; [done|done|discriminate]. Qed.
End BankExamples.
