(* ===== verification/ReplicatedBank.v ===== *)
(** * Banks over Paxos groups

    A bank as its coordinator meets it: the state machine of bank/statemachine.go
    at the end of the log of a Paxos group (ReplicatedLog.v), called through
    [bankService] of bank/service.go at whichever replica the registry names.
    While a call runs the group takes any steps: messages are lost, repeated and
    reordered, leaders change, replicas fall silent, and commands already under
    way land late.  Amounts are exact and the disks work; a replica that restarts
    replays its log over the files it has already written, which Bank.v shows to
    go wrong ([replay_loses_a_reservation]), so restarts are left out here. *)

From S2P Require Import Prelude GoText PaxosTypes PaxosLog PaxosNode PaxosVoting PaxosSystem PaxosElection PaxosInvariant PaxosSteps PaxosSafety PaxosValidity ReplicatedLog Money Accounts Bank.

(** encoding/json of a command. *)
Class BankCodec (A : Type) := {
  bc_encode : bankCommand A -> bytes;
  bc_decode : bytes -> option (bankCommand A);
}.

Section ReplicatedBank.
Context {A : Type} `{EA : ExactAmount A} `{BankCodec A}.
Context (ids : list NodeID) (store : csv_file) (lines : list string).
Implicit Types (b : bank A) (c : bankCommand A).

(** ** The state machine *)

Definition good_step c b : bank A * applyResult := bank_apply (map_to_list (b_prepared b)).*2 (mkDisk true true) c b.

(** [bankStateMachine.Apply] *)
Definition bankStateMachine_Apply (slot : N) (raw : bytes) b : bank A * applyResult :=
  match bc_decode raw with
  | None => (b, mkApplyResult Internal false)
  | Some c => good_step c b
  end.

#[local] Instance bank_sm : StateMachine (bank A) applyResult :=
  {| sm_init := newParticipant store lines; sm_apply := bankStateMachine_Apply |}.

Definition BankGroup : Type := @Group (bank A) applyResult.
Implicit Types (g : BankGroup).

(** ** Calls *)

Record call := mkCall {
  k_replica : NodeID;
  k_active : bool;               (* the switch of that replica *)
  k_command : bankCommand A;
  k_meanwhile : list action;     (* what the group does until the call returns *)
}.

Definition stays_up (a : action) : bool := match a with ARestart _ _ => false | _ => true end.
Definition steps (k : call) : list action := List.filter stays_up (k_meanwhile k).

(** What [node.Propose] gives [bankService.propose]; a result of another type is
    an Internal error there. *)
Definition log_result (rep : reply (R := applyResult)) : applyResult + unit :=
  match rep with
  | Returned _ (Some r) => inl r
  | Returned _ None => inl (mkApplyResult Internal false)
  | _ => inr tt
  end.

(** The RPCs: PREPARE and COMMIT look at the switch first, ABORT does not. *)
Definition gated (kind : cmdKind) : bool := match kind with cmdPrepare | cmdCommit => true | _ => false end.
Definition rpc_code (kind : cmdKind) (log : applyResult + unit) : code :=
  default OK match kind with
             | cmdPrepare => service_prepare true log
             | cmdCommit => service_commit true log
             | _ => service_abort log
             end.
Definition bank_rpc (k : call) g : BankGroup * code :=
  if gated (bcKind (k_command k)) && negb (k_active k)
  then (meantime (unsettled g) (steps k) g, Unavailable)
  else let '(g', rep) := Propose (unsettled g) (k_replica k) (bc_encode (k_command k)) (steps k) g in
       (g', rpc_code (bcKind (k_command k)) (log_result rep)).

Lemma rpc_code_OK kind r : rpc_code kind (inl r) = OK <-> arCode r = OK.
Proof. unfold rpc_code, service_prepare, service_commit, service_abort, service_propose. destruct kind, (arCode r); done. Qed.

(** A sequence of calls. *)
Fixpoint bank_rpcs (ks : list call) g : BankGroup :=
  match ks with
  | [] => g
  | k :: rest => bank_rpcs rest (bank_rpc k g).1
  end.

(** ** The bank at the end of the log *)

(** The command an entry stands for; a no-op stands for none. *)
Definition decoded (raw : bytes) : option (bankCommand A) :=
  if Nat.eqb (String.length raw) 0 then None else bc_decode raw.

Definition apply_all (cs : list (bankCommand A)) b : bank A := run_bank (pair (mkDisk true true) <$> cs) b.
Definition bank_of g : bank A := replay_cmds (ghistory g).
Definition under_way g : list (bankCommand A) := omap decoded (unsettled g).

Lemma apply_all_app cs cs' b : apply_all (cs ++ cs') b = apply_all cs' (apply_all cs b).
Proof. unfold apply_all, run_bank. by rewrite fmap_app, fold_left_app. Qed.

Lemma replay_from_decoded slot cmds b : replay_from slot cmds b = apply_all (omap decoded cmds) b.
Proof.
  revert slot b. induction cmds as [|raw cmds IH]; intros slot b; [done|]. cbn [replay_from]. rewrite IH.
  unfold apply_cmd. csimpl. unfold decoded. destruct (_ =? 0); [done|]. simpl. unfold bankStateMachine_Apply.
  by destruct (bc_decode raw).
Qed.

Lemma bank_of_app h more : replay_cmds (h ++ more) = apply_all (omap decoded more) (replay_cmds h).
Proof. unfold replay_cmds. by rewrite !replay_from_decoded, omap_app, apply_all_app. Qed.

(** ** A call on the group is a call on the bank *)

Definition carried c : Prop := decoded (bc_encode c) = Some c.

Lemma carried_decode c : carried c -> bc_decode (bc_encode c) = Some c.
Proof. unfold carried, decoded. by destruct (_ =? 0). Qed.

Lemma decoded_sub (l1 l2 : list bytes) : l1 ⊆ l2 -> omap decoded l1 ⊆ omap decoded l2.
Proof. intros Hsub c (x & Hx & Hc)%list_elem_of_omap. apply list_elem_of_omap. eauto. Qed.

Lemma foreseen_decoded extra g more :
  Forall (foreseen (extra ++ unsettled g) g) more -> omap decoded more ⊆ omap decoded extra ++ under_way g.
Proof.
  rewrite Forall_forall. intros Hall c (x & Hx & Hc)%list_elem_of_omap. unfold under_way. rewrite <- omap_app.
  apply list_elem_of_omap. exists x. split; [|done].
  destruct (Hall x Hx) as [->|[?|?]]; [done|apply elem_of_app; by right|done].
Qed.

(** The group was busy with what was under way and perhaps with [extra]. *)
Lemma advances_bank extra g g' :
  advances ids (extra ++ unsettled g) g g' ->
  under_way g' ⊆ omap decoded extra ++ under_way g /\
  exists late, late ⊆ omap decoded extra ++ under_way g /\ bank_of g' = apply_all late (bank_of g).
Proof.
  intros [(late & Hl & Hf) Hu]%advances_late. split.
  - unfold under_way. rewrite <- omap_app. apply decoded_sub. set_solver.
  - exists (omap decoded late). split; [by apply foreseen_decoded|]. unfold bank_of. by rewrite Hl, bank_of_app.
Qed.

(** [c] took effect at one point of the bank's life and the answer is the bank's,
    or nobody answered and it takes effect now, later or never. *)
Definition refines_call c g (out : BankGroup * code) : Prop :=
  (exists before after, before ⊆ under_way g /\ after ⊆ under_way g /\
     let r := good_step c (apply_all before (bank_of g)) in
     bank_of out.1 = apply_all after r.1 /\ out.2 = rpc_code (bcKind c) (inl r.2)) \/
  (out.2 = Unavailable /\ exists late, late ⊆ c :: under_way g /\ bank_of out.1 = apply_all late (bank_of g)).

Lemma unanswered c g g' e :
  carried c -> group_ok ids g -> advances ids (bc_encode c :: unsettled g) g g' -> e = Unavailable ->
  group_ok ids g' /\ under_way g' ⊆ c :: under_way g /\ refines_call c g (g', e).
Proof.
  intros Hcar Hok Ha ->. split; [by eapply ad_ok|].
  destruct (advances_bank [bc_encode c] g g' Ha) as [Hu Hl]. simpl in *. rewrite Hcar in *. split; [done|]. by right.
Qed.

Lemma bank_rpc_refines k g :
  let c := k_command k in
  group_ok ids g -> carried c ->
  group_ok ids (bank_rpc k g).1 /\ under_way (bank_rpc k g).1 ⊆ c :: under_way g /\ refines_call c g (bank_rpc k g).
Proof.
  intros c Hok Hcar. unfold bank_rpc. fold c. destruct (gated (bcKind c) && negb (k_active k)).
  { apply unanswered; [done|done| |done].
    eapply advances_weaken; [|by apply meantime_advances]. set_solver. }
  pose proof (Propose_advances ids (unsettled g) (k_replica k) (bc_encode c) (steps k) g Hok) as Ha.
  destruct (Propose _ _ _ _ _) as [g' rep] eqn:Heq. simpl in Ha.
  destruct rep as [slot [res|]|err| |]; try (by apply unanswered; [..|by destruct (bcKind c)]).
  - split; [by eapply ad_ok|]. destruct (advances_bank [bc_encode c] g g' Ha) as [Hu _]. simpl in Hu. rewrite Hcar in Hu.
    split; [done|]. left.
    destruct (Propose_applied ids _ _ _ _ _ _ _ _ Hok Heq) as (before & after & Hh & _ & -> & Hb & Haf & _).
    exists (omap decoded before), (omap decoded after). split; [by apply (foreseen_decoded [] g)|].
    split; [by apply (foreseen_decoded [] g)|]. unfold bank_of. simpl.
    rewrite Hh, !bank_of_app, omap_app, apply_all_app. csimpl. rewrite Hcar.
    unfold bankStateMachine_Apply. by rewrite (carried_decode c Hcar).
  - exfalso. apply (Propose_answered ids _ _ _ _ _ _ _ Hok) in Heq; [done|]. intros He. unfold carried in Hcar.
    by rewrite He in Hcar.
Qed.

Lemma calls_applied ks g :
  group_ok ids g -> Forall (fun k => carried (k_command k)) ks -> b_applied (bank_of g) ⊆ b_applied (bank_of (bank_rpcs ks g)).
Proof.
  intros Hok Hall. revert g Hok. induction Hall as [|k ks Hcar _ IH]; intros g Hok; [done|]. cbn [bank_rpcs].
  destruct (bank_rpc_refines k g Hok Hcar) as (Hok' & _ & Href). etrans; [|by apply IH].
  destruct Href as [(before & after & _ & _ & -> & _)|(_ & late & _ & ->)]; [|apply run_applied].
  etrans; [apply (run_applied (pair (mkDisk true true) <$> before))|]. etrans; [apply apply_applied|apply run_applied].
Qed.

(** ** A vote outlives its leader *)

(** Commands that leave the promise of [c] alone: those of other transfers, and the
    repeated PREPARE and COMMIT of this one. *)
Definition allowed c c' : Prop := bcKey c' <> bcKey c \/ c' = c \/ c' = commit_of c.

Record standing c b : Prop := {
  st_covered : covered b;
  st_known : settled_known b;
  st_promised : promised_half c b;
}.

Lemma repeated_prepare c b : bcKind c = cmdPrepare -> promised_half c b -> promised_half c (good_step c b).1.
Proof.
  intros Hk [Hin|(r & Hr & Hs & Hset)]; [left; by apply apply_applied|]. unfold good_step. rewrite bank_apply_state, Hk.
  unfold prepare. destruct (String.eqb _ _); [right; eauto|]. destruct (a_leb _ _); [right; eauto|].
  case_bool_decide; [by left|]. destruct (store_Balance _ _) as [x|[]]; [|right; by eauto..].
  rewrite Hr, Hs. right. eauto.
Qed.

Lemma allowed_stands c c' b : bcKind c = cmdPrepare -> allowed c c' -> standing c b -> standing c (good_step c' b).1.
Proof.
  intros Hk Hal [Hc Hs Hp]. split; [by apply covered_apply|by apply apply_settled_known|].
  destruct Hal as [Hne|[-> | ->]]; [by apply other_key_keeps|by apply repeated_prepare|].
  left. change (bcKey c) with (bcKey (commit_of c)). apply commit_ok_applied; [done|done|by apply promised_commit].
Qed.

Lemma all_allowed_stand c cs b :
  bcKind c = cmdPrepare -> (forall c', c' ∈ cs -> allowed c c') -> standing c b -> standing c (apply_all cs b).
Proof.
  intros Hk. revert b. induction cs as [|c' cs IH]; intros b Hall Hst; [done|].
  apply IH; [intros x Hx; apply Hall; by right|]. apply allowed_stands; [done|apply Hall; by left|done].
Qed.

Lemma call_stands c k g :
  bcKind c = cmdPrepare -> group_ok ids g -> carried (k_command k) -> allowed c (k_command k) ->
  (forall c', c' ∈ under_way g -> allowed c c') -> standing c (bank_of g) ->
  let g' := (bank_rpc k g).1 in
  group_ok ids g' /\ (forall c', c' ∈ under_way g' -> allowed c c') /\ standing c (bank_of g').
Proof.
  intros Hk Hok Hcar Hal Hu Hst. cbn zeta. destruct (bank_rpc_refines k g Hok Hcar) as (Hok' & Hu' & Href).
  split; [done|]. split; [set_solver|].
  destruct Href as [(before & after & Hb & Ha & -> & _)|(_ & late & Hl & ->)].
  - apply all_allowed_stand; [done|set_solver|]. apply allowed_stands; [done|done|].
    apply all_allowed_stand; [done|set_solver|done].
  - apply all_allowed_stand; [done|set_solver|done].
Qed.

Lemma calls_stand c ks g :
  bcKind c = cmdPrepare -> group_ok ids g -> Forall (fun k => carried (k_command k) /\ allowed c (k_command k)) ks ->
  (forall c', c' ∈ under_way g -> allowed c c') -> standing c (bank_of g) ->
  let g' := bank_rpcs ks g in
  group_ok ids g' /\ (forall c', c' ∈ under_way g' -> allowed c c') /\ standing c (bank_of g').
Proof.
  intros Hk Hok Hall. revert g Hok. induction Hall as [|k ks [Hcar Hal] _ IH]; intros g Hok Hu Hst; [done|].
  destruct (call_stands c k g Hk Hok Hcar Hal Hu Hst) as (Hok' & Hu' & Hst'). by apply IH.
Qed.

(** The bank of any reachable group is sound. *)
Definition fresh_store : Prop := forall account x, store_Balance account store = inl x -> (0 <= a_val x)%Z.

Lemma reached_ok e cfg past g : gsteps past (new_group ids e cfg) = Some g -> group_ok ids g.
Proof. intros Hg. eapply gsteps_ok; [apply new_group_ok|exact Hg]. Qed.

Lemma replayed_sound h : fresh_store -> covered (replay_cmds h) /\ settled_known (replay_cmds h).
Proof.
  intros Hf. unfold replay_cmds. rewrite replay_from_decoded. simpl.
  split; [by apply covered_run, covered_new|by apply run_settled_known].
Qed.

Lemma voted_yes c k g :
  fresh_store -> bcKind c = cmdPrepare -> group_ok ids g -> carried c -> k_command k = c ->
  (forall c', c' ∈ under_way g -> allowed c c') -> (bank_rpc k g).2 = OK ->
  let g' := (bank_rpc k g).1 in
  group_ok ids g' /\ (forall c', c' ∈ under_way g' -> allowed c c') /\ standing c (bank_of g').
Proof.
  intros Hf Hk Hok Hcar Hc Hu Hyes g'. destruct (bank_rpc_refines k g Hok) as (Hok' & Hu' & Href); [by rewrite Hc|].
  rewrite Hc in *. assert (forall c', c' ∈ under_way g' -> allowed c c') as Hug.
  { intros x Hx. apply Hu', elem_of_cons in Hx as [->|Hin]; [by right; left|by apply Hu]. }
  split; [done|]. split; [done|]. unfold g'.
  destruct Href as [(before & after & Hb & Ha & -> & Hcode)|(? & _)]; [|congruence].
  apply all_allowed_stand; [done|set_solver|]. destruct (replayed_sound (ghistory g) Hf) as [Hcov Hkn].
  set (b0 := apply_all before (bank_of g)) in *.
  assert (covered b0) by by apply covered_run. assert (settled_known b0) by by apply run_settled_known.
  split; [by apply covered_apply|by apply apply_settled_known|]. apply prepare_promises; [done|done|].
  rewrite Hyes in Hcode. by apply (rpc_code_OK (bcKind c)).
Qed.


(** ** Every replica keeps the bank's books *)

Lemma history_commands g c :
  group_ok ids g -> c ∈ omap decoded (ghistory g) -> exists slot raw, (slot, raw) ∈ gproposed g /\ bc_decode raw = Some c.
Proof.
  intros Hok (raw & Hraw & Hd)%list_elem_of_omap. apply list_elem_of_lookup in Hraw as [j Hj].
  destruct (history_offered ids g j raw Hok Hj) as [->|Hin]; [done|]. exists (N.of_nat j + 1)%N, raw. split; [done|].
  revert Hd. unfold decoded. by destruct (_ =? 0).
Qed.

End ReplicatedBank.

(** Three replicas of a bank, and a leader that falls silent between the vote and
    the commit. *)
Module BankGroupExample.
Import BankExamples.

Definition env0 : env := mkEnv 0 0 true true.
Definition three : list NodeID := ["A"; "B"; "C"].
Definition timing : Config := mkConfig (100 * millisecond) (400 * millisecond) (300 * millisecond).

Definition pay : bankCommand cents := mkBankCommand cmdPrepare "T1-debit" opDebit "alice" "bob" 4000%Z.
Definition other : bankCommand cents := mkBankCommand cmdPrepare "T2-debit" opDebit "alice" "carol" 7000%Z.

(** Enough of a codec for the three commands. *)
#[local] Instance demo_codec : BankCodec cents := {|
  bc_encode c := (match bcKind c with cmdPrepare => "prepare " | cmdCommit => "commit " | _ => "abort " end) +:+ bcKey c;
  bc_decode raw :=
    if String.eqb raw "prepare T1-debit" then Some pay
    else if String.eqb raw "commit T1-debit" then Some (commit_of pay)
    else if String.eqb raw "prepare T2-debit" then Some other else None;
|}.

(** A is elected by B. *)
Definition elect_A : list action :=
  [ACampaign "A"; AHandle env0 0; APrepare env0 1 [0]; AHandle env0 2; AElect env0 1 [1]; AReplicate env0 1].
#[local] Instance bank_machine : StateMachine (bank cents) applyResult := bank_sm alice100 [].
Definition led : BankGroup := default (new_group three env0 timing) (gsteps elect_A (new_group three env0 timing)).

(** The vote, with B's acceptance. *)
Definition vote : call := mkCall "A" true pay [AReplicate env0 3; AHandle env0 4; AAccepted env0 3 [2]; AApply "A"].
(** B takes over with C's vote, while another transfer's PREPARE meets a replica
    that is switched off. *)
Definition takeover : list action :=
  [ACampaign "B"; AHandle env0 7; APrepare env0 6 [3]; AHandle env0 9; AElect env0 6 [4]; AReplicate env0 6;
   AHandle env0 11; AAccepted env0 6 [5]; AApply "B"].
Definition meanwhile : list call := [mkCall "C" false other takeover].
(** The commit, through the new leader. *)
Definition settle : call :=
  mkCall "B" true (commit_of pay) [AReplicate env0 9; AHandle env0 13; AAccepted env0 9 [6]; AApply "B"].

Lemma led_run : gsteps elect_A (new_group three env0 timing) = Some led.
Proof. vm_compute. reflexivity. Qed.

Lemma vote_yes : (bank_rpc alice100 [] vote led).2 = OK.
Proof. vm_compute. reflexivity. Qed.

Lemma none_under_way c : c ∈ under_way led -> allowed pay c.
Proof. intros Hc. vm_compute in Hc. inversion Hc. Qed.

Lemma elect_A_up : Forall (fun a => stays_up a = true) elect_A.
Proof. repeat constructor. Qed.

Lemma all_carried : carried pay /\ carried (commit_of pay).
Proof. vm_compute. auto. Qed.

Lemma meanwhile_allowed : Forall (fun k => carried (k_command k) /\ allowed pay (k_command k)) meanwhile.
Proof. apply Forall_singleton. split; [vm_compute; reflexivity|left; discriminate]. Qed.

Lemma settle_answered :
  (bank_rpc alice100 [] settle (bank_rpcs alice100 [] meanwhile (bank_rpc alice100 [] vote led).1)).2 = OK.
Proof. vm_compute. reflexivity. Qed.


(** B lags behind A, which has voted. *)
Definition voted_run : list action := elect_A ++ APropose "A" (bc_encode pay) :: k_meanwhile vote.
Definition voted : BankGroup := default led (gsteps voted_run (new_group three env0 timing)).
Definition node_of (i : NodeID) : Node (bank cents) applyResult :=
  default (NewNode env0 i three NewMemLog timing) (nodes (gsys voted) !! i).

Lemma voted_reached : gsteps voted_run (new_group three env0 timing) = Some voted.
Proof. vm_compute. reflexivity. Qed.
Lemma voted_up : Forall (fun a => stays_up a = true) voted_run.
Proof. repeat constructor. Qed.
Lemma voted_nodes : nodes (gsys voted) !! "B" = Some (node_of "B") /\ nodes (gsys voted) !! "A" = Some (node_of "A").
Proof. vm_compute. auto. Qed.
Lemma voted_behind : (appliedIndex (node_of "B") <= appliedIndex (node_of "A"))%N /\ appliedIndex (node_of "A") = 1%N.
Proof. vm_compute. split; [discriminate|reflexivity]. Qed.

End BankGroupExample.
