(* ===== verification/Payments.v ===== *)
(** * gateway/transfer.go and registry.go: payments between banks

    The coordinator is a program of the two operations it has on the outside
    world: looking a bank up in the registry and calling a bank.  [prog] is the
    free monad of these operations and [transfer] is written in it the way the
    source is.  A configuration holds any number of attempts at one payment,
    running concurrently, the banks' replica groups, the registry and every call
    ever put on the wire; an [action] lets one attempt do its next operation with
    an outcome of the network's choice, delivers an old call again, lets other
    payments happen, moves a bank's leader, or starts another attempt.  *)

From S2P Require Import Prelude GoText Money Accounts Bank.

Definition commitAttempts : nat := 3.

(** [retriable], the same function in gateway/transfer.go and client/queue.go. *)
Definition retriable (e : code) : bool :=
  match e with Unavailable | DeadlineExceeded | ResourceExhausted | Aborted_ => true | _ => false end.

(** ** Programs that look banks up and call them *)

Section Prog.
Context {C : Type}.

Inductive prog (R : Type) :=
| Ret (x : R)
| Client (bank : string) (k : option string -> prog R)
| Rpc (addr : string) (c : C) (k : code -> prog R).
Arguments Ret {R}.
Arguments Client {R}.
Arguments Rpc {R}.

Fixpoint bindP {R S} (p : prog R) (f : R -> prog S) : prog S :=
  match p with
  | Ret x => f x
  | Client bank k => Client bank (fun a => bindP (k a) f)
  | Rpc addr c k => Rpc addr c (fun e => bindP (k e) f)
  end.

#[export] Instance prog_ret : MRet prog := fun R x => Ret x.
#[export] Instance prog_bind : MBind prog := fun R S f p => bindP p f.

(** [registry.client] and a unary call. *)
Definition client (bank : string) : prog (option string) := Client bank (fun a => Ret a).
Definition rpc (addr : string) (c : C) : prog code := Rpc addr c (fun e => Ret e).
End Prog.
Arguments prog : clear implicits.
Arguments Ret {C R}.
Arguments Client {C R}.
Arguments Rpc {C R}.

(** ** The coordinator *)

Section Coordinator.
Context {A : Type} `{Amount A}.

Record TransferRequest := mkTransferRequest {
  TransactionId : string;
  FromAccount : string;
  ToAccount : string;
  FromBank : string;
  ToBank : string;
  trAmount : A;
}.

(** The commands the banks replicate for the two halves of a payment. *)
Definition debit (req : TransferRequest) (k : cmdKind) : bankCommand A :=
  mkBankCommand k (transactionKey (TransactionId req) opDebit) opDebit (FromAccount req) (ToAccount req) (trAmount req).
Definition credit (req : TransferRequest) (k : cmdKind) : bankCommand A :=
  mkBankCommand k (transactionKey (TransactionId req) opCredit) opCredit (ToAccount req) (FromAccount req) (trAmount req).

(** [coordinator.commit]: the client is looked up again for every attempt. *)
Fixpoint commit_tries (n : nat) (last : code) (bank : string) (c : bankCommand A) : prog (bankCommand A) code :=
  match n with
  | O => mret last
  | S n =>
      cl ← client bank;
      match cl with
      | None => mret NotFound
      | Some addr =>
          e ← rpc addr c;
          if decide (e = OK) then mret OK
          else if negb (retriable e) then mret e
          else commit_tries n e bank c
      end
  end.
Definition coordinator_commit (bank : string) (c : bankCommand A) : prog (bankCommand A) code :=
  commit_tries commitAttempts Unknown bank c.

(** [coordinator.abort]: best effort, the outcome is only logged. *)
Definition coordinator_abort (addr : string) (c : bankCommand A) : prog (bankCommand A) unit :=
  _ ← rpc addr c; mret tt.

(** [coordinator.transfer]: the code of the status it returns. *)
Definition transfer (req : TransferRequest) : prog (bankCommand A) code :=
  s ← client (FromBank req);
  match s with
  | None => mret NotFound
  | Some sender =>
      r ← client (ToBank req);
      match r with
      | None => mret NotFound
      | Some receiver =>
          e ← rpc sender (debit req cmdPrepare);
          if decide (e <> OK) then mret e
          else
            e ← rpc receiver (credit req cmdPrepare);
            if decide (e <> OK) then coordinator_abort sender (debit req cmdAbort);; mret e
            else
              e ← coordinator_commit (FromBank req) (debit req cmdCommit);
              if decide (e <> OK) then
                coordinator_abort sender (debit req cmdAbort);;
                coordinator_abort receiver (credit req cmdAbort);;
                mret e
              else
                e ← coordinator_commit (ToBank req) (credit req cmdCommit);
                if decide (e <> OK) then mret DataLoss else mret OK
      end
  end.

(** ** The world the coordinator acts on *)

(** [w_registry] is the gateway's map of bank names to addresses, [w_leader] the
    address at which a bank's group is led, [w_banks] the replicated state of the
    groups, [w_sent] every call the network still may deliver. *)
Record world := mkWorld {
  w_registry : gmap string string;
  w_leader : gmap string string;
  w_banks : gmap string (bank A);
  w_sent : list (string * bankCommand A);
}.

Definition set_bank (n : string) (b : bank A) (w : world) : world :=
  mkWorld (w_registry w) (w_leader w) (<[n := b]> (w_banks w)) (w_sent w).
Definition log_sent (n : string) (c : bankCommand A) (w : world) : world :=
  mkWorld (w_registry w) (w_leader w) (w_banks w) (w_sent w ++ [(n, c)]).

(** [bankRegistry.register], with a connection that can be made. *)
Definition registry_register (bank addr : string) (w : world) : world :=
  mkWorld (<[bank := addr]> (w_registry w)) (w_leader w) (w_banks w) (w_sent w).
(** [bankRegistry.close] *)
Definition registry_close (w : world) : world := mkWorld ∅ (w_leader w) (w_banks w) (w_sent w).
Definition move_leader (bank addr : string) (w : world) : world :=
  mkWorld (w_registry w) (<[bank := addr]> (w_leader w)) (w_banks w) (w_sent w).

(** The group applies a command and the RPC answers with its code. *)
Definition bank_step (d : disk) (c : bankCommand A) (b : bank A) : bank A * applyResult :=
  bank_apply (map_to_list (b_prepared b)).*2 d c b.

Definition serve (active : bool) (d : disk) (c : bankCommand A) (b : bank A) : bank A * code :=
  let answer o := match o with None => OK | Some e => e end in
  let '(b', r) := bank_step d c b in
  match bcKind c with
  | cmdPrepare => if active then (b', answer (service_prepare true (inl r))) else (b, Unavailable)
  | cmdCommit => if active then (b', answer (service_commit true (inl r))) else (b, Unavailable)
  | _ => (b', answer (service_abort (inl r)))
  end.

(** What becomes of a call: it never arrives (now), it is carried out but the
    answer does not come back, or all goes well.  The first two show the caller
    an error of the network's choice. *)
Inductive fate := Lost (e : code) | Unanswered (e : code) | Answered.

Definition failure (e : code) : code := match e with OK => Unavailable | _ => e end.

Record outcome := mkOutcome { o_active : bool; o_disk : disk; o_fate : fate }.

(** Each replica's address belongs to one bank. *)
Variable home : string -> string.

Definition deliver (n : string) (d : disk) (c : bankCommand A) (w : world) : world :=
  match w_banks w !! n with
  | Some b => set_bank n (bank_step d c b).1 w
  | None => w
  end.

(** A call through the stub for [addr].  A replica that does not lead refuses
    with Unavailable. *)
Definition exec_rpc (addr : string) (c : bankCommand A) (o : outcome) (w : world) : world * code :=
  match w_banks w !! home addr with
  | None => (w, Unavailable)
  | Some b =>
      if decide (w_leader w !! home addr = Some addr) then
        let '(b', e) := serve (o_active o) (o_disk o) c b in
        match o_fate o with
        | Lost e => (log_sent (home addr) c w, failure e)
        | Unanswered e => (log_sent (home addr) c (set_bank (home addr) b' w), failure e)
        | Answered => (log_sent (home addr) c (set_bank (home addr) b' w), e)
        end
      else (w, Unavailable)
  end.

Definition prog_step (o : outcome) (p : prog (bankCommand A) code) (w : world) : prog (bankCommand A) code * world :=
  match p with
  | Ret x => (Ret x, w)
  | Client bank k => (k (w_registry w !! bank), w)
  | Rpc addr c k => let '(w', e) := exec_rpc addr c o w in (k e, w')
  end.

(** ** Attempts at a payment *)

Record config := mkConfig { c_world : world; c_running : list (prog (bankCommand A) code) }.

Inductive action :=
| Begin
| Step (i : nat) (o : outcome)
| Redeliver (j : nat) (d : disk)
| Other (n : string) (d : disk) (c : bankCommand A)
| Announce (n addr : string)
| MoveLeader (n addr : string).

(** The key belongs to the payment. *)
Definition own_key (req : TransferRequest) (key : string) : bool :=
  String.eqb key (transactionKey (TransactionId req) opDebit) ||
  String.eqb key (transactionKey (TransactionId req) opCredit).

(** Other payments have other transaction ids, and a replica announces itself
    under its own bank's name. *)
Definition do_action (req : TransferRequest) (a : action) (cfg : config) : config :=
  let w := c_world cfg in
  match a with
  | Begin => mkConfig w (c_running cfg ++ [transfer req])
  | Step i o =>
      match c_running cfg !! i with
      | None => cfg
      | Some p => let '(p', w') := prog_step o p w in mkConfig w' (<[i := p']> (c_running cfg))
      end
  | Redeliver j d =>
      match w_sent w !! j with
      | None => cfg
      | Some (n, c) => mkConfig (deliver n d c w) (c_running cfg)
      end
  | Other n d c => if own_key req (bcKey c) then cfg else mkConfig (deliver n d c w) (c_running cfg)
  | Announce n addr => if decide (home addr = n) then mkConfig (registry_register n addr w) (c_running cfg) else cfg
  | MoveLeader n addr => if decide (home addr = n) then mkConfig (move_leader n addr w) (c_running cfg) else cfg
  end.

Definition run_actions (req : TransferRequest) (acts : list action) (cfg : config) : config :=
  foldl (fun cfg a => do_action req a cfg) cfg acts.

Definition start_payment (w : world) : config := mkConfig w [].

(** An attempt left alone, on a network and disks that work. *)
Definition healthy : outcome := mkOutcome true (mkDisk true true) Answered.
Fixpoint drive {R} (p : prog (bankCommand A) R) (w : world) : world * R :=
  match p with
  | Ret x => (w, x)
  | Client bank k => drive (k (w_registry w !! bank)) w
  | Rpc addr c k => let '(w', e) := exec_rpc addr c healthy w in drive (k e) w'
  end.

Definition applied_at (n key : string) (w : world) : Prop := exists b, w_banks w !! n = Some b /\ key ∈ b_applied b.
Definition debited (req : TransferRequest) (w : world) : Prop :=
  applied_at (FromBank req) (transactionKey (TransactionId req) opDebit) w.
Definition credited (req : TransferRequest) (w : world) : Prop :=
  applied_at (ToBank req) (transactionKey (TransactionId req) opCredit) w.
End Coordinator.
Arguments TransferRequest : clear implicits.
Arguments world : clear implicits.
Arguments config : clear implicits.
Arguments action : clear implicits.

(** ** The order of the two halves, whatever the network does *)

Lemma transactionKey_inj id op op' : transactionKey id op = transactionKey id op' -> op = op'.
Proof.
  unfold transactionKey. induction id as [|c id IH]; [by destruct op, op'|].
  rewrite !(str_app_cons c). intros [= ?]. auto.
Qed.

Section Order.
Context {A : Type} `{Amount A}.
Variable home : string -> string.
Variable req : TransferRequest A.
Implicit Types (w : world A) (b : bank A) (c : bankCommand A) (p : prog (bankCommand A) code).

Abbreviation dkey := (transactionKey (TransactionId req) opDebit).
Abbreviation ckey := (transactionKey (TransactionId req) opCredit).

Lemma keys_differ : dkey <> ckey.
Proof. intros He. by apply transactionKey_inj in He. Qed.

(** *** One command at one bank *)

Lemma step_gains d c b k :
  k ∈ b_applied (bank_step d c b).1 -> k ∈ b_applied b \/ k = bcKey c /\ bcKind c = cmdCommit.
Proof.
  unfold bank_step. rewrite bank_apply_state. destruct (bcKind c); [| |by left..].
  - pose proof (prepare_cases (map_to_list (b_prepared b)).*2 (bcKey c) (bcOp c) (bcAccount c) (bcCounterparty c) (bcAmount c) b) as Hc.
    destruct (prepare _ _ _ _ _ _ _) as [b' e]. destruct Hc as [->|(? & _ & _ & -> & _)]; by left.
  - pose proof (commit_cases d (bcKey c) (bcOp c) (bcAccount c) (bcCounterparty c) (bcAmount c) b) as Hc.
    destruct (commit _ _ _ _ _ _ _) as [[b' s] e]. simpl.
    destruct Hc as [->|[[-> _]|(r & f & x & l & _ & _ & _ & _ & _ & _ & [[_ ->]|[_ ->]])]]; simpl; set_solver.
Qed.

Lemma applied_deliver n d c w n' k : applied_at n' k w -> applied_at n' k (deliver n d c w).
Proof.
  intros (b & Hb & Hk). unfold deliver. destruct (w_banks w !! n) as [b0|] eqn:H0; [|by exists b].
  unfold applied_at. simpl. destruct (decide (n' = n)) as [->|Hne].
  - rewrite lookup_insert_eq. eexists. split; [done|]. assert (b0 = b) as -> by congruence. by apply apply_applied.
  - rewrite lookup_insert_ne by done. eauto.
Qed.

Lemma deliver_gains n d c w n' k :
  applied_at n' k (deliver n d c w) -> applied_at n' k w \/ n' = n /\ k = bcKey c /\ bcKind c = cmdCommit.
Proof.
  unfold deliver. destruct (w_banks w !! n) as [b0|] eqn:H0; [|by left].
  intros (b & Hb & Hk). simpl in Hb. destruct (decide (n' = n)) as [->|Hne].
  - rewrite lookup_insert_eq in Hb. injection Hb as <-. apply step_gains in Hk as [Hk|Hk]; [left; by exists b0|by right].
  - rewrite lookup_insert_ne in Hb by done. left. by exists b.
Qed.

(** *** The commands of the payment and the knowledge of an attempt *)

Definition ours (n : string) c : Prop :=
  exists k, n = FromBank req /\ c = debit req k \/ n = ToBank req /\ c = credit req k.

Definition is_commit (k : cmdKind) : bool := match k with cmdCommit => true | _ => false end.

(** The answer tells that the half with this key was applied. *)
Definition learns (key : string) c (e : code) : bool :=
  bool_decide (e = OK) && is_commit (bcKind c) && String.eqb (bcKey c) key.

(** What every attempt keeps to, given what it knows to be applied: only the
    payment's own commands, no commit of the credit before the debit is known to
    be applied, and success only when both are. *)
Fixpoint sound (db cr : bool) p : Prop :=
  match p with
  | Ret e => e = OK -> db = true /\ cr = true
  | Client n k => sound db cr (k None) /\ forall a, home a = n -> sound db cr (k (Some a))
  | Rpc a c k =>
      ours (home a) c /\ (c = credit req cmdCommit -> db = true) /\
      forall e, sound (db || learns dkey c e) (cr || learns ckey c e) (k e)
  end.

Lemma sound_mono p : forall db cr db' cr',
  (db = true -> db' = true) -> (cr = true -> cr' = true) -> sound db cr p -> sound db' cr' p.
Proof.
  induction p as [e|n k IH|a c k IH]; intros db cr db' cr' Hd Hc; simpl.
  - naive_solver.
  - intros [H1 H2]. split; [by eapply IH|]. intros a Ha. eapply IH; eauto.
  - intros (H1 & H2 & H3). split_and!; [done|auto|]. intros e. eapply IH; [..|apply H3];
      rewrite !orb_true_iff; naive_solver.
Qed.

(** Retrying a commit: it succeeds only with the knowledge of its key. *)
Lemma sound_commit n last bank c db cr (f : code -> prog (bankCommand A) code) :
  (forall a, home a = bank -> ours (home a) c) -> (c = credit req cmdCommit -> db = true) ->
  bcKind c = cmdCommit ->
  (forall e, e <> OK -> sound db cr (f e)) ->
  sound (db || String.eqb (bcKey c) dkey) (cr || String.eqb (bcKey c) ckey) (f OK) ->
  last <> OK ->
  sound db cr (bindP (commit_tries n last bank c) f).
Proof.
  intros Ho Hcr Hk Hf Hok. revert last. induction n as [|n IH]; intros last Hlast; simpl; [by apply Hf|].
  split; [by apply Hf|]. intros a Ha. simpl. split_and!; [auto|done|]. intros e.
  unfold learns. rewrite Hk. simpl. rewrite !andb_true_r. destruct (decide (e = OK)) as [->|He].
  - rewrite bool_decide_true by done. done.
  - rewrite bool_decide_false by done. simpl. rewrite !orb_false_r.
    destruct (retriable e); simpl; [by apply IH|by apply Hf].
Qed.

Lemma sound_coordinator_commit bank c db cr (f : code -> prog (bankCommand A) code) :
  (forall a, home a = bank -> ours (home a) c) -> (c = credit req cmdCommit -> db = true) ->
  bcKind c = cmdCommit ->
  (forall e, e <> OK -> sound db cr (f e)) ->
  sound (db || String.eqb (bcKey c) dkey) (cr || String.eqb (bcKey c) ckey) (f OK) ->
  sound db cr (bindP (coordinator_commit bank c) f).
Proof. intros. by apply sound_commit. Qed.

#[local] Opaque coordinator_commit.

Lemma sound_transfer : sound false false (transfer req).
Proof.
  unfold transfer. simpl. split; [done|]. intros sender Hs. split; [done|]. intros receiver Hr. simpl.
  split_and!; [exists cmdPrepare; by left|done|]. intros e1.
  assert (forall k e, k <> cmdCommit -> learns dkey (debit req k) e = false /\ learns ckey (debit req k) e = false /\
            learns dkey (credit req k) e = false /\ learns ckey (credit req k) e = false) as Hl.
  { intros k e Hk. unfold learns. destruct k; try done; simpl; by rewrite !andb_false_r. }
  rewrite (proj1 (Hl cmdPrepare e1 ltac:(done))), (proj1 (proj2 (Hl cmdPrepare e1 ltac:(done)))). simpl.
  assert (forall k, ours (home sender) (debit req k)) as Hod by (intros k; exists k; by left).
  assert (forall k, ours (home receiver) (credit req k)) as Hoc by (intros k; exists k; by right).
  destruct (decide (e1 <> OK)) as [|_]; [done|]. simpl. split_and!; [done|done|]. intros e2.
  rewrite (proj1 (proj2 (proj2 (Hl cmdPrepare e2 ltac:(done))))), (proj2 (proj2 (proj2 (Hl cmdPrepare e2 ltac:(done))))).
  simpl. destruct (decide (e2 <> OK)) as [He2|_]; [simpl; split_and!; [done|done|by intros ? ?]|].
  apply sound_coordinator_commit; [intros a Ha; exists cmdCommit; left; by rewrite Ha|done|done| |].
  - intros e He. rewrite decide_True by done. simpl. split_and!; [done|done|]. intros e3. split_and!; [done|done|by intros ? ?].
  - rewrite decide_False by naive_solver. simpl. rewrite String.eqb_refl.
    assert (String.eqb dkey ckey = false) as -> by (apply String.eqb_neq, keys_differ).
    apply sound_coordinator_commit; [intros a Ha; exists cmdCommit; right; by rewrite Ha|done|done| |].
    + intros e He. by rewrite decide_True.
    + rewrite decide_False by naive_solver. simpl. by rewrite String.eqb_refl.
Qed.

(** *** The invariant *)

Record ordered w : Prop := {
  or_home n a : w_registry w !! n = Some a -> home a = n;
  or_settled n b : w_banks w !! n = Some b -> settled_known b;
  or_sent n c : (n, c) ∈ w_sent w -> ours n c /\ (c = credit req cmdCommit -> debited req w);
  or_order : credited req w -> debited req w;
}.

Lemma deliver_ordered n d c w :
  ordered w -> (own_key req (bcKey c) = true -> ours n c /\ (c = credit req cmdCommit -> debited req w)) ->
  ordered (deliver n d c w).
Proof.
  intros Ho Hc. assert (forall x, (n = n) -> w_sent (deliver x d c w) = w_sent w /\ w_registry (deliver x d c w) = w_registry w) as Hs.
  { intros x _. unfold deliver. by destruct (w_banks w !! x). }
  destruct (Hs n eq_refl) as [Hsent Hreg]. split.
  - rewrite Hreg. apply or_home, Ho.
  - unfold deliver. destruct (w_banks w !! n) as [b0|] eqn:Hb; [|apply or_settled, Ho].
    intros n' b'. simpl. destruct (decide (n' = n)) as [->|Hne].
    + rewrite lookup_insert_eq. intros [= <-]. apply apply_settled_known. by eapply or_settled.
    + rewrite lookup_insert_ne by done. by apply or_settled.
  - rewrite Hsent. intros n' c' Hin. destruct (or_sent w Ho n' c' Hin) as [H1 H2]. split; [done|].
    intros He. by apply applied_deliver, H2.
  - intros Hcr. apply applied_deliver. apply deliver_gains in Hcr as [Hcr|(Hn & Hk & Hcom)]; [by apply or_order|].
    assert (own_key req (bcKey c) = true) as Hown by (unfold own_key; rewrite <- Hk, String.eqb_refl; apply orb_true_r).
    destruct (Hc Hown) as [(k & [[_ ->]|[_ ->]]) Hd]; simpl in *.
    + symmetry in Hk. by apply keys_differ in Hk.
    + subst k. by apply Hd.
Qed.

(** A call does nothing, is only on the wire, or is on the wire and carried out;
    an OK answer is the bank's. *)
Lemma exec_rpc_cases addr c o w w' e :
  exec_rpc home addr c o w = (w', e) ->
  (e <> OK /\ (w' = w \/ w' = log_sent (home addr) c w)) \/
  w' = log_sent (home addr) c (deliver (home addr) (o_disk o) c w) /\
  (e = OK -> exists b, w_banks w !! home addr = Some b /\ arCode (bank_step (o_disk o) c b).2 = OK).
Proof.
  unfold exec_rpc, deliver, serve. destruct (w_banks w !! home addr) as [b|] eqn:Hb; [|intros [= <- <-]; auto].
  destruct (decide (w_leader w !! home addr = Some addr)); [|intros [= <- <-]; auto].
  destruct (bank_step (o_disk o) c b) as [b' r] eqn:Hst.
  assert (set_bank (home addr) b w = w) as Hid.
  { unfold set_bank. rewrite insert_id by done. by destruct w. }
  assert (forall e, failure e <> OK) as Hf by (by intros []).
  destruct (o_fate o) as [f0|f0|].
  - destruct (bcKind c), (o_active o); intros [= <- <-]; left; eauto.
  - destruct (bcKind c), (o_active o); intros [= <- <-]; rewrite ?Hid;
      first [by left; eauto|by right; split; [done|intros He; by apply Hf in He]].
  - assert (forall m, match match service_propose (inl r) with inl _ => None | inr e => Some e end with
                 | None => OK | Some e => e end = m -> m = OK -> arCode r = OK) as Ha.
    { intros m <-. unfold service_propose. by destruct (arCode r). }
    destruct (bcKind c), (o_active o); cbn -[service_propose]; intros [= <- <-]; rewrite ?Hid;
      first [by left; eauto|right; split; [done|intros He; exists b; split; [done|by rewrite Hst; eapply Ha]]].
Qed.

Lemma log_sent_ordered n c w :
  ordered w -> ours n c -> (c = credit req cmdCommit -> debited req w) -> ordered (log_sent n c w).
Proof.
  intros Ho Hc Hd. split; try apply Ho. intros n' c'. simpl. rewrite elem_of_snoc.
  intros [Hin|[= -> ->]]; [by apply (or_sent w Ho)|done].
Qed.

Lemma exec_ordered addr c o w w' e :
  ordered w -> ours (home addr) c -> (c = credit req cmdCommit -> debited req w) ->
  exec_rpc home addr c o w = (w', e) ->
  ordered w' /\ (forall n k, applied_at n k w -> applied_at n k w') /\
  (learns dkey c e = true -> debited req w') /\ (learns ckey c e = true -> credited req w').
Proof.
  intros Ho Hc Hd He. apply exec_rpc_cases in He.
  assert (forall n k, applied_at n k w -> applied_at n k (deliver (home addr) (o_disk o) c w)) as Hmono
    by (intros; by apply applied_deliver).
  destruct He as [[Hne Hw]|[-> Hok]].
  - assert (forall key, learns key c e = false) as Hl by (intros key; unfold learns; by rewrite bool_decide_false).
    rewrite !Hl. destruct Hw as [->| ->]; split_and!; try done. by apply log_sent_ordered.
  - split_and!; [|done|..].
    + apply log_sent_ordered; [by apply deliver_ordered|done|]. intros Hcr. by apply Hmono, Hd.
    + unfold learns. rewrite !andb_true_iff, bool_decide_eq_true, String.eqb_eq. intros [[-> Hk] Hkey].
      destruct (Hok eq_refl) as (b & Hb & Hcode). destruct Hc as (k & [[Hn ->]|[_ ->]]); simpl in *.
      2: { symmetry in Hkey. by apply keys_differ in Hkey. }
      exists (bank_step (o_disk o) (debit req k) b).1. unfold deliver. rewrite Hb. simpl. rewrite Hn, lookup_insert_eq.
      split; [done|]. destruct k; try done. apply (commit_ok_applied _ _ (debit req cmdCommit)); [|done..].
      by apply (or_settled w Ho _ _ Hb).
    + unfold learns. rewrite !andb_true_iff, bool_decide_eq_true, String.eqb_eq. intros [[-> Hk] Hkey].
      destruct (Hok eq_refl) as (b & Hb & Hcode). destruct Hc as (k & [[_ ->]|[Hn ->]]); simpl in *.
      1: { by apply keys_differ in Hkey. }
      exists (bank_step (o_disk o) (credit req k) b).1. unfold deliver. rewrite Hb. simpl. rewrite Hn, lookup_insert_eq.
      split; [done|]. destruct k; try done. apply (commit_ok_applied _ _ (credit req cmdCommit)); [|done..].
      by apply (or_settled w Ho _ _ Hb).
Qed.

(** Every running attempt is sound for what holds. *)
Definition attempt_ok w p : Prop :=
  exists db cr, sound db cr p /\ (db = true -> debited req w) /\ (cr = true -> credited req w).

Record good_config (cfg : config A) : Prop := {
  gc_world : ordered (c_world cfg);
  gc_running p : p ∈ c_running cfg -> attempt_ok (c_world cfg) p;
}.

Lemma attempt_ok_mono w w' p :
  (forall n k, applied_at n k w -> applied_at n k w') -> attempt_ok w p -> attempt_ok w' p.
Proof. intros Hm (db & cr & Hs & Hd & Hc). exists db, cr. split_and!; [done|by intros ?; apply Hm, Hd|by intros ?; apply Hm, Hc]. Qed.

Lemma prog_step_ok o p w p' w' :
  ordered w -> attempt_ok w p -> prog_step home o p w = (p', w') ->
  ordered w' /\ attempt_ok w' p' /\ forall n k, applied_at n k w -> applied_at n k w'.
Proof.
  intros Ho (db & cr & Hs & Hd & Hc). destruct p as [x|n k|a c k]; simpl in *.
  - intros [= <- <-]. split_and!; [done| |done]. by exists db, cr.
  - intros [= <- <-]. split_and!; [done| |done]. exists db, cr. split_and!; [|done..].
    destruct (w_registry w !! n) as [a|] eqn:Hr; [|apply Hs]. apply Hs. by apply (or_home w Ho).
  - destruct (exec_rpc home a c o w) as [w1 e] eqn:He. intros [= <- <-]. destruct Hs as (Hours & Hcr & Hk).
    destruct (exec_ordered a c o w w1 e Ho Hours (fun E => Hd (Hcr E)) He) as (Ho' & Hm & Hld & Hlc).
    split_and!; [done| |done]. exists (db || learns dkey c e), (cr || learns ckey c e). split_and!; [apply Hk|..].
    + intros [?|?]%orb_true_iff; [by apply Hm, Hd|by apply Hld].
    + intros [?|?]%orb_true_iff; [by apply Hm, Hc|by apply Hlc].
Qed.

Lemma do_action_good a cfg : good_config cfg -> good_config (do_action home req a cfg).
Proof.
  intros [Hw Hr]. destruct a as [|i o|j d|n d c|n addr|n addr]; simpl.
  - split; simpl; [done|]. intros p [Hp| ->]%elem_of_snoc; [by apply Hr|]. exists false, false. split; [apply sound_transfer|done].
  - destruct (c_running cfg !! i) as [p|] eqn:Hi; [|done].
    destruct (prog_step home o p (c_world cfg)) as [p' w'] eqn:Hs.
    destruct (prog_step_ok o p _ p' w' Hw (Hr p (list_elem_of_lookup_2 _ _ _ Hi)) Hs) as (Ho & Hp & Hm).
    split; simpl; [done|]. intros q (j & Hj)%list_elem_of_lookup. rewrite list_lookup_insert_Some in Hj.
    destruct Hj as [(_ & <- & _)|[_ Hj]]; [done|]. eapply attempt_ok_mono; [done|]. by eapply Hr, list_elem_of_lookup_2.
  - destruct (w_sent (c_world cfg) !! j) as [[n c]|] eqn:Hj; [|done].
    apply list_elem_of_lookup_2 in Hj. split; simpl.
    + apply deliver_ordered; [done|]. intros _. by apply (or_sent _ Hw).
    + intros p Hp. eapply attempt_ok_mono; [|by apply Hr]. intros. by apply applied_deliver.
  - destruct (own_key req (bcKey c)) eqn:Hk; [done|]. split; simpl.
    + apply deliver_ordered; [done|]. by rewrite Hk.
    + intros p Hp. eapply attempt_ok_mono; [|by apply Hr]. intros. by apply applied_deliver.
  - case_decide as Hh; [|done]. split; simpl; [|done]. split; try apply Hw. intros n' a'. simpl.
    rewrite lookup_insert. case_decide; [intros [= <-]; congruence|apply (or_home _ Hw)].
  - case_decide; [|done]. by split; simpl; [split; apply Hw|].
Qed.

Lemma run_actions_good acts cfg : good_config cfg -> good_config (run_actions home req acts cfg).
Proof. revert cfg. induction acts as [|a acts IH]; intros cfg Hg; simpl; [done|]. by apply IH, do_action_good. Qed.

(** A world in which the payment has not been attempted yet. *)
Record fresh_world w : Prop := {
  fw_home n a : w_registry w !! n = Some a -> home a = n;
  fw_settled n b : w_banks w !! n = Some b -> settled_known b;
  fw_key n b op : w_banks w !! n = Some b -> transactionKey (TransactionId req) op ∉ b_applied b;
  fw_sent : w_sent w = [];
}.

Lemma start_good w : fresh_world w -> good_config (start_payment w).
Proof.
  intros [Hh Hs Hk He]. split; simpl; [|by intros p []%elem_of_nil]. split; [done|done|..].
  - rewrite He. by intros n c []%elem_of_nil.
  - intros (b & Hb & Hin). by apply (Hk _ _ opCredit) in Hb.
Qed.

(** C6: However attempts at a payment overlap, whatever calls and answers are lost,
    repeated or late, whichever replicas lead and whatever the disks do: the
    receiver is never credited unless the sender has been debited, and an attempt
    reports success only when both have happened. *)
Theorem no_credit_without_debit w acts :
  fresh_world w ->
  let cfg := run_actions home req acts (start_payment w) in
  (credited req (c_world cfg) -> debited req (c_world cfg)) /\
  (Ret OK ∈ c_running cfg -> debited req (c_world cfg) /\ credited req (c_world cfg)).
Proof.
  intros Hf cfg. assert (good_config cfg) as [Ho Hr] by by apply run_actions_good, start_good.
  split; [apply Ho|]. intros (db & cr & Hs & Hd & Hc)%Hr. destruct (Hs eq_refl). auto.
Qed.
End Order.

(** ** Exactly once *)

Section Exactly.
Context {A : Type} `{EA : ExactAmount A}.
Variable home : string -> string.
Variable req : TransferRequest A.
Implicit Types (w : world A) (b : bank A) (c : bankCommand A).

Abbreviation dkey := (transactionKey (TransactionId req) opDebit).
Abbreviation ckey := (transactionKey (TransactionId req) opCredit).

(** What the commit of a command does to an account. *)
Definition effect c (x : string) : Z :=
  if decide (x = bcAccount c) then
    (if bool_decide (bcOp c = opDebit) then - a_val (bcAmount c) else a_val (bcAmount c))%Z
  else 0%Z.

(** On a disk that records what it did, a command changes no balance, or applies
    its effect under a key that was new. *)
Lemma step_effect d c b :
  ledger_ok d = true ->
  let b' := (bank_step d c b).1 in
  b_store b' = b_store b /\ b_applied b' = b_applied b \/
  bcKind c = cmdCommit /\ bcKey c ∉ b_applied b /\ b_applied b' = {[bcKey c]} ∪ b_applied b /\
  forall x, bal (b_store b') x = (bal (b_store b) x + effect c x)%Z.
Proof.
  intros Hd. unfold bank_step. simpl. rewrite bank_apply_state. destruct (bcKind c); [| |by left..].
  - pose proof (prepare_cases (map_to_list (b_prepared b)).*2 (bcKey c) (bcOp c) (bcAccount c) (bcCounterparty c) (bcAmount c) b) as Hc.
    destruct (prepare _ _ _ _ _ _ _) as [b' e]. destruct Hc as [->|(? & _ & _ & -> & _)]; by left.
  - unfold commit. case_bool_decide as Hk; [by left|].
    destruct (b_prepared b !! bcKey c) as [r|]; [|by left]. destruct (same_details _ _ _ _ _); simpl; [|by left].
    destruct (r_settled r); [by left|].
    destruct (AddDelta (write_ok d) (bcAccount c) _ (b_store b)) as [f [y|[]]] eqn:Ha; [|by left..].
    destruct (if bool_decide (bcOp c = opCredit) then _ else _) as [from to]. rewrite Hd. simpl. right.
    split_and!; [done|done|done|]. intros x.
    destruct (write_ok d); [|revert Ha; unfold AddDelta; by repeat case_match].
    destruct (AddDelta_spec _ _ _ _ _ Ha) as (Hb & _ & _ & Ho). unfold effect. destruct (decide (x = bcAccount c)) as [Hx|Hx].
    + subst x. rewrite Hb. case_bool_decide; rewrite ?a_neg_val; done.
    + unfold bal. rewrite Ho by done. lia.
Qed.

Definition balance_at (n x : string) w : Z :=
  match w_banks w !! n with Some b => bal (b_store b) x | None => 0%Z end.

(** What the payment has done so far to account [x] at bank [n]. *)
Definition moved_in (n x : string) b : Z :=
  ((if decide (n = FromBank req /\ dkey ∈ b_applied b) then effect (debit req cmdCommit) x else 0) +
   (if decide (n = ToBank req /\ ckey ∈ b_applied b) then effect (credit req cmdCommit) x else 0))%Z.
Definition moved (n x : string) w : Z := match w_banks w !! n with Some b => moved_in n x b | None => 0%Z end.

(** Other payments stay clear of the two accounts, and the disks record what
    they did. *)
Definition quiet (a : action A) : Prop :=
  match a with
  | Step _ o => ledger_ok (o_disk o) = true
  | Redeliver _ d => ledger_ok d = true
  | Other _ d c => ledger_ok d = true /\ bcAccount c <> FromAccount req /\ bcAccount c <> ToAccount req
  | _ => True
  end.

Definition accounted w0 w : Prop :=
  forall n x, x = FromAccount req \/ x = ToAccount req -> balance_at n x w = (balance_at n x w0 + moved n x w)%Z.

Lemma own_key_spec k : own_key req k = true <-> k = dkey \/ k = ckey.
Proof. unfold own_key. by rewrite orb_true_iff, !String.eqb_eq. Qed.

Lemma deliver_accounted w0 n d c w :
  accounted w0 w -> ledger_ok d = true -> (own_key req (bcKey c) = true -> ours req n c) ->
  (own_key req (bcKey c) = false -> bcAccount c <> FromAccount req /\ bcAccount c <> ToAccount req) ->
  accounted w0 (deliver n d c w).
Proof.
  intros Hacc Hd Hown Hnot n' x Hx. unfold deliver. destruct (w_banks w !! n) as [b|] eqn:Hb; [|by apply Hacc].
  specialize (Hacc n' x Hx). unfold balance_at, moved in Hacc |- *. simpl.
  destruct (decide (n' = n)) as [->|Hne]; [|by rewrite lookup_insert_ne by done].
  rewrite lookup_insert_eq. rewrite Hb in Hacc.
  destruct (step_effect d c b Hd) as [[Hs Ha]|(Hcom & Hk & Ha & He)].
  { unfold moved_in. by rewrite Hs, Ha. }
  rewrite He, Hacc. unfold moved_in. rewrite Ha. pose proof (keys_differ req) as Hdiff.
  destruct (own_key req (bcKey c)) eqn:Ho.
  - destruct (Hown eq_refl) as (k & [[-> ->]|[-> ->]]); simpl in *; subst k.
    + rewrite (decide_False (P := FromBank req = FromBank req /\ dkey ∈ b_applied b)) by naive_solver.
      rewrite (decide_True (P := FromBank req = FromBank req /\ _)) by set_solver.
      repeat case_decide; try lia; exfalso; set_solver.
    + rewrite (decide_False (P := ToBank req = ToBank req /\ ckey ∈ b_applied b)) by naive_solver.
      rewrite (decide_True (P := ToBank req = ToBank req /\ _)) by set_solver.
      repeat case_decide; try lia; exfalso; set_solver.
  - destruct (Hnot eq_refl) as [H1 H2].
    assert (effect c x = 0%Z) as -> by (unfold effect; rewrite decide_False; [done|naive_solver]).
    assert (bcKey c <> dkey /\ bcKey c <> ckey) as [H3 H4].
    { split; intros E; apply not_true_iff_false in Ho; apply Ho, own_key_spec; auto. }
    repeat case_decide; try lia; exfalso; set_solver.
Qed.

Lemma log_sent_accounted w0 n c w : accounted w0 w -> accounted w0 (log_sent n c w).
Proof. done. Qed.

Lemma do_action_accounted w0 a cfg :
  quiet a -> good_config home req cfg -> accounted w0 (c_world cfg) ->
  accounted w0 (c_world (do_action home req a cfg)).
Proof.
  intros Hq [Ho Hr] Hacc. destruct a as [|i o|j d|n d c|n addr|n addr]; simpl in *; [done|..].
  - destruct (c_running cfg !! i) as [p|] eqn:Hi; [|done].
    destruct (Hr p (list_elem_of_lookup_2 _ _ _ Hi)) as (db & cr & Hs & _).
    destruct p as [x|n k|a c k]; simpl; [done|done|].
    destruct (exec_rpc home a c o (c_world cfg)) as [w' e] eqn:He. simpl.
    destruct Hs as [Hours _].
    apply exec_rpc_cases in He as [[_ [->| ->]]|[-> _]]; [done|by apply log_sent_accounted|].
    apply log_sent_accounted, deliver_accounted; [done|done|done|].
    intros Hf. exfalso. apply not_true_iff_false in Hf. apply Hf, own_key_spec.
    destruct Hours as (k0 & [[_ ->]|[_ ->]]); simpl; auto.
  - destruct (w_sent (c_world cfg) !! j) as [[n c]|] eqn:Hj; [|done].
    apply list_elem_of_lookup_2 in Hj. apply (or_sent _ _ _ Ho) in Hj as [Hours _].
    apply deliver_accounted; [done|done|done|].
    intros Hf. exfalso. apply not_true_iff_false in Hf. apply Hf, own_key_spec.
    destruct Hours as (k0 & [[_ ->]|[_ ->]]); simpl; auto.
  - destruct (own_key req (bcKey c)) eqn:Hk; [done|]. simpl. destruct Hq as [Hd Hc].
    apply deliver_accounted; [done|done|by rewrite Hk|done].
  - by case_decide.
  - by case_decide.
Qed.

Lemma run_accounted w0 acts cfg :
  Forall quiet acts -> good_config home req cfg -> accounted w0 (c_world cfg) ->
  accounted w0 (c_world (run_actions home req acts cfg)).
Proof.
  intros Hq. revert cfg. induction Hq as [|a acts Ha _ IH]; intros cfg Hg Hacc; simpl; [done|].
  apply IH; [by apply do_action_good|by apply do_action_accounted].
Qed.

Lemma start_accounted w : fresh_world home req w -> accounted w w.
Proof.
  intros Hf n x _. unfold moved. destruct (w_banks w !! n) as [b|] eqn:Hb; [|lia]. unfold moved_in.
  rewrite !decide_False by (intros [_ Hin]; by eapply (fw_key _ _ _ Hf)). lia.
Qed.

Lemma moved_sender w :
  FromAccount req <> ToAccount req ->
  debited req w /\ moved (FromBank req) (FromAccount req) w = (- a_val (trAmount req))%Z \/
  ~ debited req w /\ moved (FromBank req) (FromAccount req) w = 0%Z.
Proof.
  intros Hne. unfold moved, debited, applied_at. destruct (w_banks w !! FromBank req) as [b|]; [|naive_solver].
  unfold moved_in, effect. simpl. rewrite (decide_True (P := FromAccount req = FromAccount req)), (decide_False (P := FromAccount req = ToAccount req)) by done.
  destruct (decide (FromBank req = FromBank req /\ dkey ∈ b_applied b)) as [Hin|Hin]; [left|right];
    (split; [naive_solver|case_decide; lia]).
Qed.

Lemma moved_receiver w :
  FromAccount req <> ToAccount req ->
  credited req w /\ moved (ToBank req) (ToAccount req) w = a_val (trAmount req) \/
  ~ credited req w /\ moved (ToBank req) (ToAccount req) w = 0%Z.
Proof.
  intros Hne. unfold moved, credited, applied_at. destruct (w_banks w !! ToBank req) as [b|]; [|naive_solver].
  unfold moved_in, effect. simpl. rewrite (decide_True (P := ToAccount req = ToAccount req)), (decide_False (P := ToAccount req = FromAccount req)) by done.
  destruct (decide (ToBank req = ToBank req /\ ckey ∈ b_applied b)) as [Hin|Hin]; [left|right];
    (split; [naive_solver|case_decide; lia]).
Qed.

End Exactly.

(** ** A retry completes *)

Section Retry.
Context {A : Type} `{EA : ExactAmount A}.
Variable home : string -> string.
Variable req : TransferRequest A.
Implicit Types (w : world A) (b : bank A) (c : bankCommand A) (P Q : bank A -> Prop).

Abbreviation dkey := (transactionKey (TransactionId req) opDebit).
Abbreviation ckey := (transactionKey (TransactionId req) opCredit).
Abbreviation good_disk := (mkDisk true true).

Lemma drive_bind {R S} (p : prog (bankCommand A) R) (f : R -> prog (bankCommand A) S) w :
  drive home (bindP p f) w = let '(w', x) := drive home p w in drive home (f x) w'.
Proof.
  revert w. induction p as [x|n k IH|a c k IH]; intros w; simpl; [done|apply IH|].
  destruct (exec_rpc home a c healthy w) as [w' e]. apply IH.
Qed.

Definition has_account (x : string) b : Prop := exists y, store_Balance x (b_store b) = inl y.

(** What is left of an account once its reservations are honoured. *)
Definition free (x : string) b : Z := (bal (b_store b) x - held (b_prepared b) x)%Z.

(** The bank would vote yes: a new reservation it can honour, one it already
    holds, or a half it has already applied. *)
Definition votes_yes c b : Prop :=
  bcKey c ∈ b_applied b \/
  (exists r, b_prepared b !! bcKey c = Some r /\
     same_details r (bcOp c) (bcAccount c) (bcCounterparty c) (bcAmount c) = true) \/
  b_prepared b !! bcKey c = None /\ (bcOp c = opDebit -> a_val (bcAmount c) <= free (bcAccount c) b)%Z.

Definition can_prepare c b : Prop :=
  bcAccount c <> bcCounterparty c /\ (0 < a_val (bcAmount c))%Z /\ has_account (bcAccount c) b /\ votes_yes c b.

Lemma bank_prepare_yes d c b :
  bcKind c = cmdPrepare -> can_prepare c b -> arCode (bank_step d c b).2 = OK.
Proof.
  intros Hk (Hne & Hpos & [y Hy] & Hcase). unfold bank_step, bank_apply. rewrite Hk. unfold prepare.
  rewrite (proj2 (String.eqb_neq _ _) Hne). rewrite a_leb_val, a_zero_val, (proj2 (Z.leb_gt _ _) Hpos).
  case_bool_decide as Hin; [done|]. rewrite Hy. destruct Hcase as [?|[(r & -> & ->)|[-> Hf]]]; [done|done|].
  case_bool_decide as Hop; simpl; [|done]. specialize (Hf Hop). unfold free, bal in Hf. rewrite Hy in Hf.
  rewrite a_ltb_val, a_sub_val, reserved_val, (proj2 (Z.ltb_ge _ _)); [done|]. unfold held in Hf. lia.
Qed.

Lemma step_has_account d c x b : has_account x b -> has_account x (bank_step d c b).1.
Proof.
  unfold has_account, bank_step. rewrite bank_apply_state. destruct (bcKind c); [| |done..].
  - pose proof (prepare_cases (map_to_list (b_prepared b)).*2 (bcKey c) (bcOp c) (bcAccount c) (bcCounterparty c) (bcAmount c) b) as Hc.
    destruct (prepare _ _ _ _ _ _ _) as [b' e]. destruct Hc as [->|(? & _ & _ & -> & _)]; done.
  - pose proof (commit_cases d (bcKey c) (bcOp c) (bcAccount c) (bcCounterparty c) (bcAmount c) b) as Hc.
    destruct (commit _ _ _ _ _ _ _) as [[b' s] e]. simpl.
    destruct Hc as [->|[[-> _]|(r & f & y & l & _ & _ & _ & _ & _ & Ha & Hb')]]; [done|done|].
    destruct (AddDelta_spec _ _ _ _ _ Ha) as (_ & _ & Hx & Ho). intros Hacc.
    destruct (decide (x = bcAccount c)) as [->|Hne]; [by destruct Hb' as [[_ ->]|[_ ->]]|].
    destruct Hb' as [[_ ->]|[_ ->]]; simpl; by rewrite Ho.
Qed.

(** Other keys leave the reservation under a key alone. *)
Lemma step_other_prepared d c b k : bcKey c <> k -> b_prepared (bank_step d c b).1 !! k = b_prepared b !! k.
Proof.
  intros Hne. unfold bank_step. rewrite bank_apply_state. destruct (bcKind c); [| | |done].
  - pose proof (prepare_cases (map_to_list (b_prepared b)).*2 (bcKey c) (bcOp c) (bcAccount c) (bcCounterparty c) (bcAmount c) b) as Hc.
    destruct (prepare _ _ _ _ _ _ _) as [b' e]. destruct Hc as [->|(? & _ & _ & -> & _)]; [done|].
    simpl. by rewrite lookup_insert_ne.
  - pose proof (commit_cases d (bcKey c) (bcOp c) (bcAccount c) (bcCounterparty c) (bcAmount c) b) as Hc.
    destruct (commit _ _ _ _ _ _ _) as [[b' s] e]. simpl.
    destruct Hc as [->|[[-> _]|(r' & f & x & l & _ & _ & _ & _ & _ & _ & [[_ ->]|[_ ->]])]]; [done|..];
      simpl; by rewrite lookup_delete_ne.
  - simpl. by rewrite lookup_delete_ne.
Qed.

(** *** Stages of one half at its bank *)

(** [waiting]: it can be prepared; [promised]: it has been; [settled_half]: it has
    been applied. *)
Definition waiting c b : Prop := settled_known b /\ can_prepare c b.
Definition promised c b : Prop := settled_known b /\ promised_half c b /\ has_account (bcAccount c) b.
Definition settled_half c b : Prop := bcKey c ∈ b_applied b.

Lemma waiting_promised d c b :
  bcKind c = cmdPrepare -> waiting c b ->
  arCode (bank_step d c b).2 = OK /\ promised c (bank_step d c b).1.
Proof.
  intros Hk [Hs Hc]. pose proof (bank_prepare_yes d c b Hk Hc) as Hok. split; [done|].
  split; [by apply apply_settled_known|split].
  - by apply prepare_promises.
  - apply step_has_account, Hc.
Qed.

Lemma promised_settled c b :
  promised c b -> arCode (bank_step good_disk (commit_of c) b).2 = OK /\ settled_half c (bank_step good_disk (commit_of c) b).1.
Proof.
  intros (Hs & Hp & [x Hx]).
  assert (arCode (bank_step good_disk (commit_of c) b).2 = OK) as Hok; [|split; [done|]].
  - unfold bank_step, bank_apply, commit. simpl. case_bool_decide as Hin; [done|].
    destruct Hp as [?|(r & -> & -> & ->)]; [done|]. simpl.
    destruct (AddDelta_succeeds (bcAccount c) (if bool_decide (bcOp c = opDebit) then a_neg (bcAmount c) else bcAmount c)
                (b_store b) x Hx) as (f & y & ->).
    by destruct (if bool_decide (bcOp c = opCredit) then _ else _).
  - by apply (commit_ok_applied _ _ (commit_of c)).
Qed.

Lemma waiting_stable d c c' b :
  bcKey c' <> bcKey c -> bcOp c = opCredit -> waiting c b -> waiting c (bank_step d c' b).1.
Proof.
  intros Hne Hop (Hs & H1 & H2 & H3 & Hcase). split; [by apply apply_settled_known|].
  unfold can_prepare, votes_yes. split_and!; [done|done|by apply step_has_account|]. rewrite step_other_prepared by done.
  destruct Hcase as [Hin|[Hr|[Hn _]]]; [left; by apply apply_applied|auto|].
  right; right. split; [done|]. by rewrite Hop.
Qed.

Lemma promised_stable d c c' b : bcKey c' <> bcKey c -> promised c b -> promised c (bank_step d c' b).1.
Proof.
  intros Hne (Hs & Hp & Ha).
  split; [by apply apply_settled_known|split; [by apply other_key_keeps|by apply step_has_account]].
Qed.

(** *** Calls on a network that works *)

Definition at_bank (n : string) P w : Prop := exists b, w_banks w !! n = Some b /\ P b.

Record reachable_at (n a : string) w : Prop := {
  rt_home : home a = n;
  rt_registry : w_registry w !! n = Some a;
  rt_leader : w_leader w !! n = Some a;
}.

Lemma at_deliver n n' d c P Q w :
  (forall b, P b -> Q (bank_step d c b).1) -> (n' <> n -> forall b, P b -> Q b) ->
  at_bank n P w -> at_bank n Q (deliver n' d c w).
Proof.
  intros Hpq Hne (b & Hb & HP). unfold at_bank, deliver. destruct (w_banks w !! n') as [b'|] eqn:Hb'.
  - simpl. destruct (decide (n' = n)) as [->|Hn].
    + rewrite lookup_insert_eq. eexists. split; [done|]. apply Hpq. by assert (b' = b) as -> by congruence.
    + rewrite lookup_insert_ne by done. exists b. auto.
  - exists b. split; [done|]. apply Hne; [congruence|done].
Qed.

Lemma reachable_deliver n a n' d c w : reachable_at n a w -> reachable_at n a (log_sent n' c (deliver n' d c w)).
Proof. intros [H1 H2 H3]. unfold deliver. by destruct (w_banks w !! n'). Qed.

Lemma exec_healthy n a c P w :
  reachable_at n a w -> at_bank n P w -> (forall b, P b -> arCode (bank_step good_disk c b).2 = OK) ->
  exec_rpc home a c healthy w = (log_sent n c (deliver n good_disk c w), OK).
Proof.
  intros [Hh _ Hl] (b & Hb & HP) Hok. specialize (Hok b HP). unfold exec_rpc, deliver, serve, healthy. simpl.
  rewrite Hh, Hb, decide_True by done. destruct (bank_step good_disk c b) as [b' r]. simpl in Hok.
  unfold service_prepare, service_commit, service_abort, service_propose. rewrite Hok. by destruct (bcKind c).
Qed.

Lemma commit_healthy n a c P w :
  reachable_at n a w -> at_bank n P w -> (forall b, P b -> arCode (bank_step good_disk c b).2 = OK) ->
  drive home (coordinator_commit n c) w = (log_sent n c (deliver n good_disk c w), OK).
Proof.
  intros Hr Hb Hok. unfold coordinator_commit, commitAttempts. cbn [commit_tries].
  unfold mbind, prog_bind, client, rpc. cbn [bindP drive]. rewrite (rt_registry _ _ _ Hr). cbn [bindP drive].
  by rewrite (exec_healthy n a c P w Hr Hb Hok).
Qed.

(** An attempt at a payment both banks would vote for, left alone. *)
Lemma undisturbed_completes w sender receiver :
  reachable_at (FromBank req) sender w -> reachable_at (ToBank req) receiver w ->
  at_bank (FromBank req) (waiting (debit req cmdPrepare)) w ->
  at_bank (ToBank req) (waiting (credit req cmdPrepare)) w ->
  let '(w', e) := drive home (transfer req) w in e = OK /\ debited req w' /\ credited req w'.
Proof.
  intros Hs Hr Hd Hc. pose proof (keys_differ req) as Hk. unfold transfer, mbind, prog_bind, client, rpc.
  cbn [bindP drive]. rewrite (rt_registry _ _ _ Hs). cbn [bindP drive]. rewrite (rt_registry _ _ _ Hr). cbn [bindP drive].
  rewrite (exec_healthy _ _ (debit req cmdPrepare) _ _ Hs Hd) by (intros b Hb; by apply waiting_promised).
  set (w1 := log_sent _ _ _). rewrite decide_False by naive_solver. cbn [bindP drive].
  assert (at_bank (FromBank req) (promised (debit req cmdPrepare)) w1) as Hd1.
  { refine (at_deliver _ _ _ _ (waiting (debit req cmdPrepare)) _ _ _ _ Hd); [|done]. intros b Hb. by apply waiting_promised. }
  assert (at_bank (ToBank req) (waiting (credit req cmdPrepare)) w1) as Hc1.
  { refine (at_deliver _ _ _ _ _ _ _ _ _ Hc); [|by auto]. intros b Hb. by apply waiting_stable. }
  assert (reachable_at (FromBank req) sender w1 /\ reachable_at (ToBank req) receiver w1) as [Hs1 Hr1] by (split; by apply reachable_deliver).
  clearbody w1.
  rewrite (exec_healthy _ _ (credit req cmdPrepare) _ _ Hr1 Hc1) by (intros b Hb; by apply waiting_promised).
  set (w2 := log_sent _ _ _). rewrite decide_False by naive_solver.
  assert (at_bank (FromBank req) (promised (debit req cmdPrepare)) w2) as Hd2.
  { refine (at_deliver _ _ _ _ _ _ _ _ _ Hd1); [|by auto]. intros b Hb. apply promised_stable; [simpl; congruence|done]. }
  assert (at_bank (ToBank req) (promised (credit req cmdPrepare)) w2) as Hc2.
  { refine (at_deliver _ _ _ _ (waiting (credit req cmdPrepare)) _ _ _ _ Hc1); [|done]. intros b Hb. by apply waiting_promised. }
  assert (reachable_at (FromBank req) sender w2 /\ reachable_at (ToBank req) receiver w2) as [Hs2 Hr2] by (split; by apply reachable_deliver).
  clearbody w2. rewrite drive_bind.
  rewrite (commit_healthy _ _ (debit req cmdCommit) _ _ Hs2 Hd2) by (intros b Hb; by apply (promised_settled (debit req cmdPrepare))).
  set (w3 := log_sent _ _ _). rewrite decide_False by naive_solver.
  assert (at_bank (FromBank req) (settled_half (debit req cmdPrepare)) w3) as Hd3.
  { refine (at_deliver _ _ _ _ (promised (debit req cmdPrepare)) _ _ _ _ Hd2); [|done].
    intros b Hb. by apply (promised_settled (debit req cmdPrepare)). }
  assert (at_bank (ToBank req) (promised (credit req cmdPrepare)) w3) as Hc3.
  { refine (at_deliver _ _ _ _ _ _ _ _ _ Hc2); [|by auto]. intros b Hb. by apply promised_stable. }
  assert (reachable_at (ToBank req) receiver w3) as Hr3 by by apply reachable_deliver.
  clearbody w3. rewrite drive_bind.
  rewrite (commit_healthy _ _ (credit req cmdCommit) _ _ Hr3 Hc3) by (intros b Hb; by apply (promised_settled (credit req cmdPrepare))).
  rewrite decide_False by naive_solver. simpl. split_and!; [done|..].
  - apply applied_deliver. destruct Hd3 as (b & ? & ?). by exists b.
  - refine (at_deliver _ _ _ _ (promised (credit req cmdPrepare)) (settled_half (credit req cmdPrepare)) _ _ _ Hc3); [|done].
    intros b Hb. by apply (promised_settled (credit req cmdPrepare)).
Qed.

(** *** What earlier attempts leave behind *)

(** [waiting] at a bank whose reservations are covered. *)
Definition ready c b : Prop := covered b /\ waiting c b.

(** The command is about the same half of the payment. *)
Definition same_half c c' : Prop :=
  bcKey c' = bcKey c /\ bcOp c' = bcOp c /\ bcAccount c' = bcAccount c /\ bcCounterparty c' = bcCounterparty c /\
  bcAmount c' = bcAmount c.

(** The command claims funds of the account [x] for itself. *)
Definition claims (x : string) c : Prop := bcKind c = cmdPrepare /\ bcOp c = opDebit /\ bcAccount c = x.

Lemma weight_pos b k r x : covered b -> b_prepared b !! k = Some r -> (held (delete k (b_prepared b)) x <= held (b_prepared b) x)%Z.
Proof. intros Hc Hk. rewrite (held_delete _ k r x Hk). pose proof (weight_nonneg b k r x Hc Hk). lia. Qed.

Lemma held_release k b x : covered b -> (held (delete k (b_prepared b)) x <= held (b_prepared b) x)%Z.
Proof.
  intros Hc. destruct (b_prepared b !! k) as [r|] eqn:Hk; [by eapply weight_pos|]. rewrite delete_id by done. lia.
Qed.

(** Only a new claim takes anything from what is free. *)
Lemma free_step d c b x : covered b -> ~ claims x c -> (free x b <= free x (bank_step d c b).1)%Z.
Proof.
  intros Hc Hn. unfold bank_step, free. rewrite bank_apply_state. pose proof (held_release (bcKey c) b x Hc) as Hrel.
  destruct (bcKind c) eqn:Hk; [| |simpl; lia|lia].
  - pose proof (prepare_cases (map_to_list (b_prepared b)).*2 (bcKey c) (bcOp c) (bcAccount c) (bcCounterparty c) (bcAmount c) b) as Hp.
    destruct (prepare _ _ _ _ _ _ _) as [b' e]. destruct Hp as [->|(settled & _ & _ & -> & Hcase)]; simpl; [lia|].
    rewrite <- insert_delete_eq, held_insert by apply lookup_delete_eq. unfold weight, holds. simpl.
    case_bool_decide as Hop; simpl; [|lia]. destruct (String.eqb_spec (bcAccount c) x) as [He|]; simpl; [|lia].
    by destruct Hn.
  - pose proof (commit_cases d (bcKey c) (bcOp c) (bcAccount c) (bcCounterparty c) (bcAmount c) b) as Hp.
    destruct (commit _ _ _ _ _ _ _) as [[b' s] e]. simpl.
    destruct Hp as [->|[[-> _]|(r & f & y & l & _ & Hr & Hsd & Hset & _ & Ha & Hb')]]; [lia|simpl; lia|].
    assert (b_store b' = f /\ b_prepared b' = delete (bcKey c) (b_prepared b)) as [-> ->] by (by destruct Hb' as [[_ ->]|[_ ->]]).
    destruct (AddDelta_spec _ _ _ _ _ Ha) as (Hbal & _ & _ & Ho).
    destruct (same_details_spec _ _ _ _ _ Hsd) as (Hop & Hacc & Hamt). rewrite (held_delete _ _ _ x Hr) in *.
    unfold weight, holds in *. rewrite Hset, Hop, Hacc, Hamt in *. destruct (String.eqb_spec (bcAccount c) x) as [<-|Hne].
    + rewrite Hbal. pose proof (cv_positive b Hc _ _ Hr) as Hpos. rewrite Hamt in Hpos.
      case_bool_decide; simpl in *; rewrite ?a_neg_val; lia.
    + rewrite andb_false_r in *. simpl in *. unfold bal. rewrite Ho by done. lia.
Qed.

(** A reservation of the half that is given up leaves the funds to make it again. *)
Lemma votes_release c b : covered b -> settled_known b -> votes_yes c b -> votes_yes c (release (bcKey c) b).
Proof.
  intros Hc Hs. destruct (decide (bcKey c ∈ b_applied b)) as [|Hin]; [by left|]. intros Hv. right; right. simpl.
  split; [apply lookup_delete_eq|]. intros Hop. unfold free. simpl. destruct Hv as [?|[(r & Hr & Hsd)|[Hr Hf]]]; [done| |].
  - destruct (same_details_spec _ _ _ _ _ Hsd) as (Hro & Hra & Hrm).
    destruct (r_settled r) eqn:Hset; [by apply (Hs _ _ Hr) in Hset|].
    destruct (cv_account b Hc _ _ Hr Hset) as [x Hx]. rewrite Hra in Hx. pose proof (cv_funds b Hc _ _ Hx) as Hf.
    rewrite (held_delete _ _ _ _ Hr) in Hf. unfold weight, holds in Hf.
    rewrite Hset, Hro, Hra, Hrm, String.eqb_refl, bool_decide_true in Hf by done. simpl in Hf. unfold bal. rewrite Hx. lia.
  - rewrite delete_id by done. by apply Hf.
Qed.

Lemma votes_own d c c' b :
  ready c b -> same_half c c' -> (bcOp c = opDebit -> ledger_ok d = true) -> votes_yes c (bank_step d c' b).1.
Proof.
  intros (Hc & Hs & Hcan) (Hk & Ho & Ha & Hcp & Hm) Hd. pose proof Hcan as (_ & _ & _ & Hv).
  destruct (bcKind c') eqn:Hkind.
  - assert (waiting c' b) as Hw by (split; [done|]; unfold can_prepare, votes_yes; rewrite Hk, Ho, Ha, Hcp, Hm; exact Hcan).
    destruct (waiting_promised d c' b Hkind Hw) as (_ & _ & Hp & _). unfold promised_half in Hp.
    rewrite Hk, Ho, Ha, Hcp, Hm in Hp. destruct Hp as [Hp|(r & ? & ? & _)]; [by left|right; left; eauto].
  - pose proof (votes_release c b Hc Hs Hv) as Hrel. unfold bank_step. rewrite bank_apply_state, Hkind. unfold commit.
    rewrite Hk, Ho, Ha, Hcp, Hm. case_bool_decide; [done|]. destruct (b_prepared b !! bcKey c) as [r|]; [|done].
    destruct (same_details _ _ _ _ _); simpl; [|done]. destruct (r_settled r); [done|].
    destruct (AddDelta _ _ _ _) as [f [y|[]]]; [|done..]. destruct (if bool_decide (bcOp c = opCredit) then _ else _).
    destruct (ledger_ok d) eqn:Hl; simpl; [left; set_solver|]. right; right. simpl.
    split; [apply lookup_delete_eq|]. intros Hop. by specialize (Hd Hop).
  - unfold bank_step. rewrite bank_apply_state, Hkind, Hk. by apply votes_release.
  - unfold bank_step. by rewrite bank_apply_state, Hkind.
Qed.

Lemma votes_other d c c' b :
  ready c b -> bcKey c' <> bcKey c -> (bcOp c = opDebit -> ~ claims (bcAccount c) c') -> votes_yes c (bank_step d c' b).1.
Proof.
  intros (Hc & _ & _ & _ & _ & Hv) Hne Hn. unfold votes_yes. rewrite step_other_prepared by done.
  destruct Hv as [Hv|[Hv|[Hv Hf]]]; [left; by apply apply_applied|auto|right; right].
  split; [done|]. intros Hop. pose proof (free_step d c' b (bcAccount c) Hc (Hn Hop)). specialize (Hf Hop). lia.
Qed.

Lemma ready_step d c c' b :
  ready c b ->
  (same_half c c' /\ (bcOp c = opDebit -> ledger_ok d = true) \/
   bcKey c' <> bcKey c /\ (bcOp c = opDebit -> ~ claims (bcAccount c) c')) ->
  ready c (bank_step d c' b).1.
Proof.
  intros Hr Hcase. pose proof Hr as (Hc & Hs & H1 & H2 & H3 & _).
  split; [by apply covered_apply|]. split; [by apply apply_settled_known|].
  split_and!; [done|done|by apply step_has_account|].
  destruct Hcase as [[? ?]|[? ?]]; [by apply votes_own|by apply votes_other].
Qed.

(** The payment can be made: both banks would vote for their half. *)
Definition payable w : Prop :=
  at_bank (FromBank req) (ready (debit req cmdPrepare)) w /\ at_bank (ToBank req) (ready (credit req cmdPrepare)) w.

(** No other payment claims funds of the sender, and what the payment itself does
    is recorded. *)
Definition undisputed (a : action A) : Prop :=
  match a with
  | Step _ o => ledger_ok (o_disk o) = true
  | Redeliver _ d => ledger_ok d = true
  | Other _ _ c => ~ claims (FromAccount req) c
  | _ => True
  end.

Lemma deliver_payable n d c w :
  payable w -> ours req n c /\ ledger_ok d = true \/ own_key req (bcKey c) = false /\ ~ claims (FromAccount req) c ->
  payable (deliver n d c w).
Proof.
  intros [Hd Hc] Hcase. pose proof (keys_differ req) as Hk. split.
  - refine (at_deliver _ _ _ _ _ _ _ _ _ Hd); [|by auto]. intros b Hb. apply ready_step; [done|].
    destruct Hcase as [[(k & [[_ ->]|[_ ->]]) Hl]|[Ho Hn]]; [by left|right|right]; simpl.
    + split; [congruence|]. intros _ (_ & ? & _). done.
    + split; [|done]. intros He. apply not_true_iff_false in Ho. apply Ho, own_key_spec. auto.
  - refine (at_deliver _ _ _ _ _ _ _ _ _ Hc); [|by auto]. intros b Hb. apply ready_step; [done|].
    destruct Hcase as [[(k & [[_ ->]|[_ ->]]) Hl]|[Ho Hn]]; [right|by left|right]; simpl; (split; [|done]); [done|].
    intros He. apply not_true_iff_false in Ho. apply Ho, own_key_spec. auto.
Qed.

Lemma do_action_payable a cfg :
  undisputed a -> good_config home req cfg -> payable (c_world cfg) -> payable (c_world (do_action home req a cfg)).
Proof.
  intros Hq [Ho Hr] Hp. destruct a as [|i o|j d|n d c|n addr|n addr]; simpl in *; [done|..].
  - destruct (c_running cfg !! i) as [p|] eqn:Hi; [|done].
    destruct (Hr p (list_elem_of_lookup_2 _ _ _ Hi)) as (db & cr & Hs & _).
    destruct p as [x|n k|a c k]; simpl; [done|done|].
    destruct (exec_rpc home a c o (c_world cfg)) as [w' e] eqn:He. simpl. destruct Hs as [Hours _].
    apply exec_rpc_cases in He as [[_ [->| ->]]|[-> _]]; [done|exact Hp|].
    exact (deliver_payable (home a) (o_disk o) c _ Hp (or_introl (conj Hours Hq))).
  - destruct (w_sent (c_world cfg) !! j) as [[n c]|] eqn:Hj; [|done].
    apply list_elem_of_lookup_2 in Hj. apply (or_sent _ _ _ Ho) in Hj as [Hours _]. apply deliver_payable; auto.
  - destruct (own_key req (bcKey c)) eqn:Hk; [done|]. apply deliver_payable; auto.
  - by case_decide.
  - by case_decide.
Qed.

Lemma run_payable acts cfg :
  Forall undisputed acts -> good_config home req cfg -> payable (c_world cfg) ->
  payable (c_world (run_actions home req acts cfg)).
Proof.
  intros Hq. revert cfg. induction Hq as [|a acts Ha _ IH]; intros cfg Hg Hp; simpl; [done|].
  apply IH; [by apply do_action_good|by apply do_action_payable].
Qed.

End Retry.

(** ** Runs *)

Module PaymentExamples.
Import BankExamples.

(** Two banks, ICICI with two replicas. *)
Definition homes (a : string) : string :=
  if String.eqb a "icici:1" || String.eqb a "icici:2" then "ICICI" else "HDFC".

Definition bob0 : csv_file := account_file "bob" "0.00".
Definition two_banks : world cents :=
  mkWorld {["ICICI" := "icici:1"; "HDFC" := "hdfc:1"]} {["ICICI" := "icici:1"; "HDFC" := "hdfc:1"]}
    {["ICICI" := newParticipant alice100 []; "HDFC" := newParticipant bob0 []]} [].
Definition forty : TransferRequest cents := mkTransferRequest "TXN-000001" "alice" "bob" "ICICI" "HDFC" 4000%Z.

Definition ok_step (i : nat) : action cents := Step i healthy.
Definition no_reply (i : nat) : action cents := Step i (mkOutcome true good (Unanswered DeadlineExceeded)).
Definition no_arrival (i : nat) : action cents := Step i (mkOutcome true good (Lost Unavailable)).

Definition steps (n i : nat) : list (action cents) := repeat (ok_step i) n.

Definition outcome_of (acts : list (action cents)) : list (option code) * Z * Z :=
  let cfg := run_actions homes forty acts (start_payment two_banks) in
  ((fun p => match p with Ret e => Some e | _ => None end) <$> c_running cfg,
   balance_at "ICICI" "alice" (c_world cfg), balance_at "HDFC" "bob" (c_world cfg)).

(** An undisturbed payment; a commit whose leader fails and that reaches the
    replica that took over; a commit delivered a second time. *)
Example undisturbed : outcome_of (Begin :: steps 8 0) = ([Some OK], 6000, 4000)%Z.
Proof. vm_compute. reflexivity. Qed.

Example failover :
  outcome_of (Begin :: steps 5 0 ++ [MoveLeader "ICICI" "icici:2"; ok_step 0; Announce "ICICI" "icici:2"] ++ steps 4 0) =
  ([Some OK], 6000, 4000)%Z.
Proof. vm_compute. reflexivity. Qed.

Example repeated_commit :
  outcome_of (Begin :: steps 8 0 ++ [Redeliver 2 good; Redeliver 3 good]) = ([Some OK], 6000, 4000)%Z.
Proof. vm_compute. reflexivity. Qed.

(** The debit is applied three times over as far as the bank knows, but no answer
    comes back: the attempt reports a failure although the sender has paid. *)
Definition lost_replies : list (action cents) :=
  Begin :: steps 4 0 ++ [ok_step 0; no_reply 0; ok_step 0; no_reply 0; ok_step 0; no_reply 0] ++ steps 2 0.

Theorem failed_transfer_took_the_money : outcome_of lost_replies = ([Some DeadlineExceeded], 6000, 0)%Z.
Proof. vm_compute. reflexivity. Qed.

Example retry_after_lost_replies : outcome_of (lost_replies ++ Begin :: steps 8 1) = ([Some DeadlineExceeded; Some OK], 6000, 4000)%Z.
Proof. vm_compute. reflexivity. Qed.

(** The commit phase outlives the caller's deadline, so a retry can overlap it:
    the first attempt's abort then releases the credit the second one has
    prepared, and the payment ends in doubt, debited and not credited, with a
    code no client retries. *)
Theorem overlapping_retry_strands_the_payment :
  outcome_of (Begin :: steps 4 0 ++ [ok_step 0; no_reply 0; ok_step 0; no_reply 0; ok_step 0; no_reply 0] ++ [ok_step 0] ++
              Begin :: steps 6 1 ++ [ok_step 0] ++ steps 6 1) =
  ([Some DeadlineExceeded; Some DataLoss], 6000, 0)%Z /\ retriable DataLoss = false.
Proof. vm_compute. auto. Qed.

(** A PREPARE that reserved the funds but was not answered is never aborted: the
    attempt is over and the funds stay reserved. *)
Theorem unanswered_prepare_holds_funds :
  let acts := Begin :: steps 2 0 ++ [no_reply 0] in
  let w := c_world (run_actions homes forty acts (start_payment two_banks)) in
  (outcome_of acts).1.1 = [Some DeadlineExceeded] /\
  match w_banks w !! "ICICI" with Some b => held (b_prepared b) "alice" = 4000%Z | None => False end.
Proof. vm_compute. auto. Qed.

(** An ABORT leaves no mark: a PREPARE that arrives after it reserves funds that
    nothing will release. *)
Theorem late_prepare_holds_funds :
  let acts := Begin :: steps 2 0 ++ [ok_step 0; no_arrival 0; ok_step 0; Redeliver 0 good] in
  let w := c_world (run_actions homes forty acts (start_payment two_banks)) in
  (outcome_of acts).1.1 = [Some Unavailable] /\
  match w_banks w !! "ICICI" with Some b => held (b_prepared b) "alice" = 4000%Z | None => False end.
Proof. vm_compute. auto. Qed.

(** *** Witnesses *)

Lemma two_banks_inv n b :
  w_banks two_banks !! n = Some b -> b = newParticipant alice100 [] \/ b = newParticipant bob0 [].
Proof.
  cbn [two_banks w_banks]. intros Hb. apply lookup_insert_Some in Hb as [[_ <-]|[_ Hb]]; [by left|].
  apply lookup_singleton_Some in Hb as [_ <-]. by right.
Qed.

Lemma two_banks_fresh : fresh_world homes forty two_banks.
Proof.
  split.
  - cbn [two_banks w_registry]. intros n a Ha. apply lookup_insert_Some in Ha as [[<- <-]|[_ Ha]]; [done|].
    by apply lookup_singleton_Some in Ha as [<- <-].
  - intros n b [->| ->]%two_banks_inv k r Hk; cbn [newParticipant b_prepared] in Hk; by rewrite lookup_empty in Hk.
  - intros n b op [->| ->]%two_banks_inv; apply not_elem_of_empty.
  - done.
Qed.

Lemma elem_of_result (l : list (prog (bankCommand cents) code)) (i : nat) (p : prog (bankCommand cents) code) :
  l !! i = Some p -> p ∈ l.
Proof. apply list_elem_of_lookup_2. Qed.

Lemma no_credit_without_debit_witness :
  debited forty (c_world (run_actions homes forty (lost_replies ++ Begin :: steps 8 1) (start_payment two_banks))) /\
  credited forty (c_world (run_actions homes forty (lost_replies ++ Begin :: steps 8 1) (start_payment two_banks))).
Proof.
  apply (no_credit_without_debit homes forty two_banks (lost_replies ++ Begin :: steps 8 1) two_banks_fresh).
  apply (elem_of_result _ 1). vm_compute. reflexivity.
Defined.


Lemma bob0_nonneg account x : store_Balance (A := cents) account bob0 = inl x -> (0 <= a_val x)%Z.
Proof.
  unfold store_Balance. replace (store_read bob0) with
    (Some [mkAccountRow "bob" "bob" "" "ICICI" (0%Z : cents)]) by (vm_compute; reflexivity).
  unfold find_account. simpl. destruct (decide _); simpl; [|done]. intros [= <-]. vm_compute. discriminate.
Qed.

Lemma two_banks_payable : payable forty two_banks.
Proof.
  split.
  - exists (newParticipant alice100 []). split; [vm_compute; reflexivity|]. split; [apply covered_new, alice100_nonneg|].
    split; [apply (fw_settled _ _ _ two_banks_fresh "ICICI"); vm_compute; reflexivity|].
    split_and!; [discriminate|done|eexists; vm_compute; reflexivity|]. right; right.
    split; [vm_compute; reflexivity|]. intros _. vm_compute. discriminate.
  - exists (newParticipant bob0 []). split; [vm_compute; reflexivity|]. split; [apply covered_new, bob0_nonneg|].
    split; [apply (fw_settled _ _ _ two_banks_fresh "HDFC"); vm_compute; reflexivity|].
    split_and!; [discriminate|done|eexists; vm_compute; reflexivity|]. right; right.
    split; [vm_compute; reflexivity|discriminate].
Qed.

(** The payment that an overlapping attempt left stranded, tried once more. *)
Definition stranded : list (action cents) :=
  Begin :: steps 4 0 ++ [ok_step 0; no_reply 0; ok_step 0; no_reply 0; ok_step 0; no_reply 0] ++ [ok_step 0] ++
  Begin :: steps 6 1 ++ [ok_step 0] ++ steps 6 1.

Lemma stranded_undisputed : Forall (undisputed forty) stranded.
Proof. repeat constructor. Qed.

End PaymentExamples.
