(* ===== verification/GatewayAuth.v ===== *)
(** * gateway/: logins, sessions and who may move money

    auth.go's store of users and sessions, middleware.go's interceptor and
    ownership check, and the handlers of service.go.  bcrypt is a class of its
    two functions with what its documentation promises; the clock, the random
    tokens and salts, and whether the disk takes a write are inputs.  The users
    file is the list of its CSV records. *)

From S2P Require Import Prelude GoText Money Bank Payments.

(** golang.org/x/crypto/bcrypt: hashing with a salt can fail (a long password);
    a hash says with its first bytes that it is one, and matches its password. *)
Class Bcrypt := {
  GenerateFromPassword : string -> string -> option string;
  CompareHashAndPassword : string -> string -> bool;
  bcrypt_matches pw salt h : GenerateFromPassword pw salt = Some h -> CompareHashAndPassword h pw = true;
  bcrypt_prefix pw salt h : GenerateFromPassword pw salt = Some h -> String.prefix "$2" h = true;
}.

Record identity := mkIdentity {
  id_Username : string;
  PasswordHash : string;
  AccountID : string;
  id_Bank : string;
}.

#[export] Instance identity_eq_dec : EqDecision identity.
Proof. solve_decision. Defined.

Record auth_session := mkAuthSession { as_username : string; expiresAt : Z }.

(** The store and its file. *)
Record authStore := mkAuthStore {
  users : gmap string identity;
  sessions : gmap string auth_session;
  users_file : list (list string);
}.

(** Thirty minutes, in nanoseconds. *)
Definition tokenTTL : Z := (30 * 60 * 1000000000)%Z.

Definition gatewayUsersHeader : list string := ["username"; "password_hash"; "account_id"; "bank_name"].

Inductive auth_error := errRequired | errHash | errAccountClaimed | errSave | errBadCredentials | errToken.

(** [newToken]: random bytes in hexadecimal; [None] is a failure of crypto/rand. *)
Definition hex_digit (n : nat) : Ascii.ascii := Ascii.ascii_of_nat (if n <? 10 then 48 + n else 87 + n).
Fixpoint EncodeToString (bs : list Ascii.ascii) : string :=
  match bs with
  | [] => ""
  | b :: rest =>
      String (hex_digit (Ascii.nat_of_ascii b / 16)) (String (hex_digit (Ascii.nat_of_ascii b mod 16)) (EncodeToString rest))
  end.
Definition newToken (rand : option (list Ascii.ascii)) : option string := EncodeToString <$> rand.

Lemma hex_digit_inj m n : m < 16 -> n < 16 -> hex_digit m = hex_digit n -> m = n.
Proof.
  intros Hm Hn He. apply (f_equal Ascii.nat_of_ascii) in He. unfold hex_digit in He.
  destruct (Nat.ltb_spec m 10), (Nat.ltb_spec n 10); rewrite !Ascii.nat_ascii_embedding in He by lia; lia.
Qed.

(** Two tokens are the same only if the random bytes were: nobody gets another
    session's token but by a collision of crypto/rand. *)
Lemma EncodeToString_inj bs bs' : EncodeToString bs = EncodeToString bs' -> bs = bs'.
Proof.
  revert bs'. induction bs as [|b bs IH]; intros [|b' bs']; cbn [EncodeToString]; try done. intros He. injection He as H1 H2 H3.
  f_equal; [|by apply IH].
  change (hex_digit (Ascii.nat_of_ascii b / 16) = hex_digit (Ascii.nat_of_ascii b' / 16)) in H1.
  change (hex_digit (Ascii.nat_of_ascii b mod 16) = hex_digit (Ascii.nat_of_ascii b' mod 16)) in H2.
  pose proof (Ascii.nat_ascii_bounded b). pose proof (Ascii.nat_ascii_bounded b').
  apply hex_digit_inj in H1; [|apply Nat.Div0.div_lt_upper_bound; lia..].
  apply hex_digit_inj in H2; [|apply Nat.mod_upper_bound; lia..].
  rewrite <- (Ascii.ascii_nat_embedding b), <- (Ascii.ascii_nat_embedding b'). f_equal.
  rewrite (Nat.div_mod_eq (Ascii.nat_of_ascii b) 16), (Nat.div_mod_eq (Ascii.nat_of_ascii b') 16). lia.
Qed.

Section Auth.
Context `{Bcrypt}.
Implicit Types s : authStore.

(** ** auth.go *)

Definition identity_row (u : identity) : list string := [id_Username u; PasswordHash u; AccountID u; id_Bank u].

(** [save]: the header and a row per user, in the order of the map. *)
Definition user_rows (l : list identity) : list (list string) := gatewayUsersHeader :: (identity_row <$> l).
Definition save (ok : bool) s : authStore * bool :=
  if ok then (mkAuthStore (users s) (sessions s) (user_rows (map_to_list (users s)).*2), true) else (s, false).

Definition claimed (username accountID : string) (us : gmap string identity) : bool :=
  existsb (fun e => String.eqb (AccountID e) accountID && negb (String.eqb (id_Username e) username)) (map_to_list us).*2.

Definition auth_register (salt : string) (ok : bool) (username password accountID bank : string) s
    : authStore * option auth_error :=
  if String.eqb username "" || String.eqb password "" then (s, Some errRequired)
  else
    match GenerateFromPassword password salt with
    | None => (s, Some errHash)
    | Some hash =>
        if claimed username accountID (users s) then (s, Some errAccountClaimed)
        else
          let us := <[username := mkIdentity username hash accountID bank]> (users s) in
          let '(s', saved) := save ok (mkAuthStore us (sessions s) (users_file s)) in
          (s', if saved then None else Some errSave)
    end.

(** [authenticate] at time [now]; [token] is what [newToken] returns.  The
    comparison with the dummy hash for an unknown user has no effect. *)
Definition authenticate (now : Z) (token : option string) (username password : string) s
    : authStore * (string + auth_error) :=
  match users s !! username with
  | None => (s, inr errBadCredentials)
  | Some user =>
      if CompareHashAndPassword (PasswordHash user) password then
        match token with
        | None => (s, inr errToken)
        | Some t =>
            (mkAuthStore (users s) (<[t := mkAuthSession username (now + tokenTTL)]> (sessions s)) (users_file s), inl t)
        end
      else (s, inr errBadCredentials)
  end.

Definition lookupSession (now : Z) (token : string) s : option identity :=
  sess ← sessions s !! token;
  user ← users s !! as_username sess;
  if (expiresAt sess <? now)%Z then None else Some user.

(** One round of [expireSessions]. *)
Definition expireSessions (now : Z) s : authStore :=
  mkAuthStore (users s) (filter (fun p => (now <= expiresAt p.2)%Z) (sessions s)) (users_file s).

Definition auth_count s : nat := size (users s).

(** A row of the file: [None] when it is skipped; the boolean says whether the
    password was in the clear and had to be hashed. *)
Definition row_identity (salt : string) (row : list string) : option (option (identity * bool)) :=
  match row with
  | name :: pass :: rest =>
      if String.eqb name "" then Some None
      else
        let acct := default "" (rest !! 0) in
        let bank := default "" (rest !! 1) in
        if String.prefix "$2" pass then Some (Some (mkIdentity name pass acct bank, false))
        else h ← GenerateFromPassword pass salt; Some (Some (mkIdentity name h acct bank, true))
  | _ => Some None
  end.

Fixpoint load_rows (salt : nat -> string) (i : nat) (rows : list (list string)) (us : gmap string identity) (upgraded : bool)
    : option (gmap string identity * bool) :=
  match rows with
  | [] => Some (us, upgraded)
  | row :: rest =>
      if (i =? 0) && bool_decide (head row = Some "username") then load_rows salt (S i) rest us upgraded
      else
        r ← row_identity (salt i) row;
        match r with
        | None => load_rows salt (S i) rest us upgraded
        | Some (u, up) => load_rows salt (S i) rest (<[id_Username u := u]> us) (upgraded || up)
        end
  end.

(** [newAuthStore]: a missing file is created, a file with passwords in the clear
    is written back.  [None] is any error. *)
Definition newAuthStore (salt : nat -> string) (ok : bool) (file : option (list (list string))) : option authStore :=
  match file with
  | None => let '(s, saved) := save ok (mkAuthStore ∅ ∅ []) in if saved then Some s else None
  | Some rows =>
      match load_rows salt 0 rows ∅ false with
      | None => None
      | Some (us, upgraded) =>
          let s := mkAuthStore us ∅ rows in
          if upgraded then let '(s', saved) := save ok s in if saved then Some s' else None else Some s
      end
  end.

(** ** middleware.go *)

Definition publicMethods : list string :=
  ["/payment.PaymentGateway/Register"; "/payment.PaymentGateway/Authenticate"; "/payment.PaymentGateway/BankRegister"].

(** [authUnaryInterceptor]: refuses, or lets the call through with the caller it
    established.  [tokens] is the authorization metadata, if there is any. *)
Definition authUnaryInterceptor (now : Z) (active : bool) (method : string) (tokens : option (list string)) s
    : option identity + code :=
  if negb active then inr Unavailable
  else if bool_decide (method ∈ publicMethods) then inl None
  else
    match tokens with
    | None => inr Unauthenticated
    | Some [] => inr Unauthenticated
    | Some (token :: _) =>
        match lookupSession now token s with
        | None => inr Unauthenticated
        | Some caller => inl (Some caller)
        end
    end.

Definition requireOwnership (caller : option identity) (accountID : string) : identity + code :=
  match caller with
  | None => inr Unauthenticated
  | Some u =>
      if String.eqb (AccountID u) "" then inr FailedPrecondition
      else if negb (String.eqb (AccountID u) accountID) then inr PermissionDenied
      else inl u
  end.

(** ** service.go *)

Definition svc_Register (salt : string) (ok : bool) (username password accountID bank : string) s : authStore * code :=
  if String.eqb username "" || String.eqb password "" || String.eqb accountID "" then (s, InvalidArgument)
  else
    match auth_register salt ok username password accountID bank s with
    | (s', None) => (s', OK)
    | (s', Some errAccountClaimed) => (s', PermissionDenied)
    | (s', Some _) => (s', Internal)
    end.

Definition svc_Authenticate (now : Z) (token : option string) (username password : string) s
    : authStore * (string + code) :=
  match authenticate now token username password s with
  | (s', inl t) => (s', inl t)
  | (s', inr errBadCredentials) => (s', inr Unauthenticated)
  | (s', inr _) => (s', inr Internal)
  end.

(** [BankRegister] as far as its check. *)
Definition svc_BankRegister (bank addr : string) (registered : bool) : code :=
  if String.eqb bank "" || String.eqb addr "" then InvalidArgument else if registered then OK else Internal.

Section Handlers.
Context {A : Type} `{Amount A}.

(** [TransferMoney]: refused with a code, or handed to the coordinator. *)
Definition svc_TransferMoney (caller : option identity) (req : TransferRequest A) : prog (bankCommand A) code :=
  match requireOwnership caller (FromAccount req) with
  | inr e => mret e
  | inl _ =>
      if String.eqb (TransactionId req) "" then mret InvalidArgument
      else if a_leb (trAmount req) a_zero then mret InvalidArgument
      else transfer req
  end.

(** The call as the server runs it: the interceptor, then the handler. *)
Definition call_TransferMoney (now : Z) (active : bool) (tokens : option (list string)) (req : TransferRequest A) s
    : prog (bankCommand A) code :=
  match authUnaryInterceptor now active "/payment.PaymentGateway/TransferMoney" tokens s with
  | inr e => mret e
  | inl caller => svc_TransferMoney caller req
  end.

(** [CheckBalance]: the bank to ask, or the code of the refusal. *)
Definition svc_CheckBalance (caller : option identity) (registry : gmap string string) (accountID bank : string)
    : string + code :=
  match requireOwnership caller accountID with
  | inr e => inr e
  | inl _ => match registry !! bank with Some addr => inl addr | None => inr NotFound end
  end.
End Handlers.
End Auth.

(** ** Who may move money *)

Section Authorised.
Context `{Bcrypt} {A : Type} `{Amount A}.

(** The caller holds a session that has not expired, of a user whose account is
    the one to be debited, and the request is complete. *)
Definition authorised (now : Z) (active : bool) (tokens : option (list string)) (req : TransferRequest A) (s : authStore) : Prop :=
  active = true /\
  (exists token rest sess user,
     tokens = Some (token :: rest) /\ sessions s !! token = Some sess /\ users s !! as_username sess = Some user /\
     (now <= expiresAt sess)%Z /\ AccountID user = FromAccount req /\ AccountID user <> "") /\
  TransactionId req <> "" /\ a_leb (trAmount req) a_zero = false.

Lemma authorised_runs now active tokens req s :
  authorised now active tokens req s -> call_TransferMoney now active tokens req s = transfer req.
Proof.
  intros (-> & (token & rest & sess & user & -> & Hs & Hu & Hnow & Hacc & Hne) & Hid & Hamt).
  unfold call_TransferMoney, authUnaryInterceptor, lookupSession. cbn [negb].
  assert (bool_decide ("/payment.PaymentGateway/TransferMoney" ∈ publicMethods) = false) as -> by (vm_compute; reflexivity).
  rewrite Hs. cbn [mbind option_bind]. rewrite Hu. cbn [mbind option_bind]. rewrite (proj2 (Z.ltb_ge _ _)) by lia.
  unfold svc_TransferMoney, requireOwnership. rewrite (proj2 (String.eqb_neq _ _) Hne), Hacc, String.eqb_refl. cbn [negb].
  by rewrite (proj2 (String.eqb_neq _ _) Hid), Hamt.
Qed.

(** C28: A transfer reaches the banks exactly when the gateway is switched up, the
    caller holds a live session of the user whose account is debited, and the
    request is complete; otherwise it is refused and no bank is called. *)
Theorem transfer_iff_authorised now active tokens req s :
  call_TransferMoney now active tokens req s = transfer req /\ authorised now active tokens req s \/
  (exists e, call_TransferMoney now active tokens req s = Ret e /\ e <> OK) /\ ~ authorised now active tokens req s.
Proof.
  unfold call_TransferMoney, authUnaryInterceptor, authorised.
  destruct active; simpl; [|right; split; [by eexists|naive_solver]].
  destruct tokens as [[|token rest]|]; [right; split; [by eexists|naive_solver]| |right; split; [by eexists|naive_solver]].
  unfold lookupSession. destruct (sessions s !! token) as [sess|] eqn:Hs; simpl; [|right; split; [by eexists|naive_solver]].
  destruct (users s !! as_username sess) as [user|] eqn:Hu; simpl; [|right; split; [by eexists|naive_solver]].
  destruct (Z.ltb_spec (expiresAt sess) now); simpl.
  { right. split; [by eexists|]. intros (_ & (? & ? & ? & ? & ? & ? & ? & ? & _) & _). simplify_eq. lia. }
  unfold svc_TransferMoney, requireOwnership.
  destruct (String.eqb_spec (AccountID user) ""); [right; split; [by eexists|naive_solver]|].
  destruct (String.eqb_spec (AccountID user) (FromAccount req)); simpl; [|right; split; [by eexists|naive_solver]].
  destruct (String.eqb_spec (TransactionId req) ""); [right; split; [by eexists|naive_solver]|].
  destruct (a_leb (trAmount req) a_zero) eqn:Ha; [right; split; [by eexists|naive_solver]|].
  left. split; [done|]. split_and!; [done| |done|done]. by exists token, rest, sess, user.
Qed.
End Authorised.

(** ** Runs of the store *)

Inductive auth_op :=
| ARegister (salt : string) (ok : bool) (username password accountID bank : string)
| AAuthenticate (now : Z) (token : option string) (username password : string)
| AExpire (now : Z)
| ARestart (salt : nat -> string) (ok : bool).

Section Runs.
Context `{Bcrypt}.
Implicit Types (s : authStore) (us : gmap string identity).

(** A gateway that cannot read its file does not start. *)
Definition do_auth (op : auth_op) s : authStore :=
  match op with
  | ARegister salt ok username password accountID bank => (auth_register salt ok username password accountID bank s).1
  | AAuthenticate now token username password => (authenticate now token username password s).1
  | AExpire now => expireSessions now s
  | ARestart salt ok => default s (newAuthStore salt ok (Some (users_file s)))
  end.
Definition run_auth (ops : list auth_op) s : authStore := foldl (fun s op => do_auth op s) s ops.

(** *** The users file *)

(** What every table of users keeps to: users under their own names, hashed
    passwords, and an account for one user only. *)
Record users_ok us : Prop := {
  uo_name k u : us !! k = Some u -> id_Username u = k /\ k <> "";
  uo_hash k u : us !! k = Some u -> String.prefix "$2" (PasswordHash u) = true;
  uo_owner k1 k2 u1 u2 : us !! k1 = Some u1 -> us !! k2 = Some u2 -> AccountID u1 = AccountID u2 -> k1 = k2;
}.

Lemma load_identity_rows salt i l us up :
  Forall (fun u => id_Username u <> "" /\ String.prefix "$2" (PasswordHash u) = true) l ->
  load_rows salt (S i) (identity_row <$> l) us up = Some (foldl (fun us u => <[id_Username u := u]> us) us l, up).
Proof.
  intros Hall. revert i us. induction Hall as [|u l [Hn Hp] _ IH]; intros i us; [done|].
  cbn [fmap list_fmap load_rows foldl]. simpl. rewrite (proj2 (String.eqb_neq _ _) Hn).
  simpl in Hp. rewrite Hp.
  simpl. rewrite orb_false_r. destruct u. apply IH.
Qed.

Lemma foldl_insert_all (l : list (string * identity)) us :
  NoDup l.*1 -> Forall (fun p => id_Username p.2 = p.1) l ->
  foldl (fun us u => <[id_Username u := u]> us) us l.*2 = list_to_map l ∪ us.
Proof.
  intros Hnd Hall. rewrite <- foldl_insert_pairs by done. clear Hnd. revert us.
  induction Hall as [|[k u] l Hk _ IH]; intros us; [done|]. simpl in *. by rewrite Hk, IH.
Qed.

(** Reading back what was written. *)
Lemma load_saved salt us : users_ok us -> load_rows salt 0 (user_rows (map_to_list us).*2) ∅ false = Some (us, false).
Proof.
  intros [Hn Hh _]. cbn [user_rows load_rows gatewayUsersHeader]. rewrite bool_decide_true by done. simpl andb. cbn iota.
  rewrite load_identity_rows.
  - rewrite foldl_insert_all; [by rewrite list_to_map_to_list, (right_id_L ∅ (∪))|apply NoDup_fst_map_to_list|].
    apply Forall_forall. intros [k u] Hin. apply elem_of_map_to_list in Hin. by destruct (Hn k u Hin).
  - apply Forall_forall. intros u ([k u'] & -> & Hin)%list_elem_of_fmap. apply elem_of_map_to_list in Hin.
    destruct (Hn k u' Hin) as [Hk Hk']. simpl. rewrite Hk. eauto.
Qed.

Lemma claimed_false us username accountID k u :
  claimed username accountID us = false -> us !! k = Some u -> AccountID u = accountID -> id_Username u = username.
Proof.
  intros Hc Hk Ha. destruct (decide (id_Username u = username)) as [|Hne]; [done|]. exfalso.
  apply not_true_iff_false in Hc. apply Hc. unfold claimed. apply existsb_exists. exists u.
  rewrite (proj2 (String.eqb_eq _ _) Ha), (proj2 (String.eqb_neq _ _) Hne). split; [|done].
  apply list_elem_of_In, list_elem_of_fmap. exists (k, u). split; [done|]. by apply elem_of_map_to_list.
Qed.

Lemma users_ok_insert us username hash accountID bank :
  users_ok us -> username <> "" -> String.prefix "$2" hash = true -> claimed username accountID us = false ->
  users_ok (<[username := mkIdentity username hash accountID bank]> us).
Proof.
  intros Ho Hn Hp Hc. split.
  - intros k u. rewrite lookup_insert. case_decide; [by intros [= <-]; subst|apply Ho].
  - intros k u. rewrite lookup_insert. case_decide; [by intros [= <-]|apply Ho].
  - assert (forall k u, us !! k = Some u -> AccountID u = accountID -> k = username) as Hcl.
    { intros k u Hk Ha. rewrite <- (claimed_false us _ _ k u Hc Hk Ha). symmetry. by apply (uo_name us Ho). }
    intros k1 k2 u1 u2. rewrite !lookup_insert. repeat case_decide; subst; try done.
    + intros [= <-] H2 Ha. simpl in Ha. symmetry. by eapply Hcl.
    + intros H1 [= <-] Ha. by eapply Hcl.
    + apply (uo_owner us Ho).
Qed.

(** The table and the file are both in order; the file may lag behind when a
    write failed. *)
Definition store_ok s : Prop :=
  users_ok (users s) /\ exists us, users_ok us /\ users_file s = user_rows (map_to_list us).*2.

Lemma auth_register_ok salt ok username password accountID bank s :
  store_ok s -> store_ok (auth_register salt ok username password accountID bank s).1.
Proof.
  intros [Hu Hf]. unfold auth_register. destruct (String.eqb_spec username ""); simpl; [done|].
  destruct (String.eqb password ""); [done|]. destruct (GenerateFromPassword password salt) as [h|] eqn:Hg; [|done].
  destruct (claimed username accountID (users s)) eqn:Hc; [done|].
  assert (users_ok (<[username := mkIdentity username h accountID bank]> (users s))) as Ho
    by (apply users_ok_insert; [done|done|by eapply bcrypt_prefix|done]).
  unfold save. destruct ok; simpl; split; simpl; eauto.
Qed.

Lemma restart_users salt ok s us :
  users_ok us -> users_file s = user_rows (map_to_list us).*2 ->
  newAuthStore salt ok (Some (users_file s)) = Some (mkAuthStore us ∅ (users_file s)).
Proof. intros Ho ->. unfold newAuthStore. by rewrite (load_saved salt us Ho). Qed.

Lemma do_auth_ok op s : store_ok s -> store_ok (do_auth op s).
Proof.
  intros Hs. destruct op as [salt ok u p a b|now t u p|now|salt ok]; cbn [do_auth].
  - by apply auth_register_ok.
  - unfold authenticate. destruct (users s !! u) as [user|]; [|done].
    destruct (CompareHashAndPassword _ _); [|done]. by destruct t.
  - done.
  - destruct Hs as [_ (us & Ho & Hf)]. rewrite (restart_users salt ok s us Ho Hf). simpl. split; simpl; eauto.
Qed.

Lemma run_auth_ok ops s : store_ok s -> store_ok (run_auth ops s).
Proof. revert s. induction ops as [|op ops IH]; intros s Hs; simpl; [done|]. by apply IH, do_auth_ok. Qed.

Definition empty_store : authStore := mkAuthStore ∅ ∅ (user_rows []).

Lemma users_ok_empty : users_ok ∅.
Proof. split; intros *; by rewrite lookup_empty. Qed.

Lemma empty_store_ok : store_ok empty_store.
Proof. split; [apply users_ok_empty|]. exists ∅. split; [apply users_ok_empty|]. by rewrite map_to_list_empty. Qed.


(** A registration that reports success is still there after a restart, with
    every other user, and every session is gone. *)
Theorem registration_survives_restart ops salt username password accountID bank salts ok s' :
  auth_register salt ok username password accountID bank (run_auth ops empty_store) = (s', None) ->
  newAuthStore salts ok (Some (users_file s')) = Some (mkAuthStore (users s') ∅ (users_file s')).
Proof.
  intros Hr. assert (store_ok s') as [Hu _].
  { change s' with (s', @None auth_error).1. rewrite <- Hr. apply auth_register_ok, run_auth_ok, empty_store_ok. }
  apply restart_users; [done|]. revert Hr. unfold auth_register. destruct (_ || _); [done|].
  destruct (GenerateFromPassword _ _); [|done]. destruct (claimed _ _ _); [done|]. unfold save.
  destruct ok; [|done]. by intros [= <-].
Qed.
End Runs.

(** ** Sessions *)

Section Sessions.
Context `{Bcrypt}.
Implicit Types s : authStore.

(** The gateway keeps running until [now], on a clock that does not go back, and
    never draws the same random token again. *)
Definition later_op (token : string) (now : Z) (op : auth_op) : Prop :=
  match op with
  | AAuthenticate _ t _ _ => t <> Some token
  | AExpire t => (t <= now)%Z
  | ARestart _ _ => False
  | ARegister _ _ _ _ _ _ => True
  end.

Lemma do_auth_session op token sess s now :
  later_op token now op -> (now <= expiresAt sess)%Z ->
  sessions s !! token = Some sess -> sessions (do_auth op s) !! token = Some sess.
Proof.
  intros Hop Hnow Hs. destruct op as [salt ok u p a b|n t u p|n|salt ok]; simpl in *; [..|done].
  - unfold auth_register, save. by repeat case_match; simplify_eq/=.
  - unfold authenticate. repeat case_match; simplify_eq/=; try done. rewrite lookup_insert_ne by congruence. done.
  - apply map_lookup_filter_Some. split; [done|]. simpl. lia.
Qed.

Lemma do_auth_user op k s :
  (exists tok now, later_op tok now op) -> is_Some (users s !! k) -> is_Some (users (do_auth op s) !! k).
Proof.
  intros (tok & now & Hop) Hk. destruct op as [salt ok u p a b|n t u p|n|salt ok]; simpl in *; [..|done].
  - unfold auth_register, save. repeat case_match; simplify_eq/=; try done; rewrite lookup_insert; by case_decide.
  - unfold authenticate. by repeat case_match; simplify_eq/=.
  - done.
Qed.

Lemma run_auth_session ops token sess s now :
  Forall (later_op token now) ops -> (now <= expiresAt sess)%Z ->
  sessions s !! token = Some sess -> is_Some (users s !! as_username sess) ->
  sessions (run_auth ops s) !! token = Some sess /\ is_Some (users (run_auth ops s) !! as_username sess).
Proof.
  intros Hall Hnow. revert s. induction Hall as [|op ops Hop _ IH]; intros s Hs Hu; simpl; [done|].
  apply IH; [by eapply do_auth_session|apply do_auth_user; eauto].
Qed.

(** The session under a token never changes while the token is not drawn again. *)
Lemma do_auth_session_back op token sess s now :
  later_op token now op -> sessions (do_auth op s) !! token = Some sess -> sessions s !! token = Some sess.
Proof.
  intros Hop. destruct op as [salt ok u p a b|n t u p|n|salt ok]; simpl in *; [..|done].
  - unfold auth_register, save. by repeat case_match; simplify_eq/=.
  - unfold authenticate. repeat case_match; simplify_eq/=; try done. by rewrite lookup_insert_ne by congruence.
  - intros [Hs _]%map_lookup_filter_Some. done.
Qed.

Lemma run_auth_session_back ops token sess s now :
  Forall (later_op token now) ops -> sessions (run_auth ops s) !! token = Some sess -> sessions s !! token = Some sess.
Proof.
  intros Hall. revert s. induction Hall as [|op ops Hop _ IH]; intros s; simpl; [done|].
  intros Hs%IH. by eapply do_auth_session_back.
Qed.

(** A token works for exactly its lifetime: it identifies the user who logged in,
    whatever registrations, logins and sweeps happen, until its expiry, and from
    then on it is refused. *)
Theorem token_works_until_expiry s start token username password ops now :
  (authenticate start (Some token) username password s).2 = inl token ->
  Forall (later_op token now) ops ->
  let s' := run_auth ops (authenticate start (Some token) username password s).1 in
  ((now <= start + tokenTTL)%Z ->
     lookupSession now token s' = users s' !! username /\ is_Some (lookupSession now token s')) /\
  ((start + tokenTTL < now)%Z -> lookupSession now token s' = None).
Proof.
  intros Hok Hall. revert Hok. unfold authenticate. destruct (users s !! username) as [user|] eqn:Hu; [|done].
  destruct (CompareHashAndPassword _ _); [|done]. intros _. cbn [fst snd]. set (s1 := mkAuthStore _ _ _).
  assert (sessions s1 !! token = Some (mkAuthSession username (start + tokenTTL)%Z)) as Hs1 by apply lookup_insert_eq.
  set (s' := run_auth ops s1). split; intros Hnow.
  - destruct (run_auth_session ops token (mkAuthSession username (start + tokenTTL)%Z) s1 now Hall Hnow Hs1) as [Hs Hk]; [by simpl; rewrite Hu|].
    fold s' in Hs, Hk. simpl in Hk. unfold lookupSession. rewrite Hs. simpl.
    destruct (users s' !! username) as [u|]; [|by destruct Hk]. simpl. rewrite (proj2 (Z.ltb_ge _ _)) by lia. by split.
  - unfold lookupSession. destruct (sessions s' !! token) as [sess|] eqn:Hs; [|done].
    apply (run_auth_session_back ops token sess s1 now Hall) in Hs. assert (sess = mkAuthSession username (start + tokenTTL)%Z) as -> by congruence.
    simpl. destruct (users s' !! username); [|done]. simpl. by rewrite (proj2 (Z.ltb_lt _ _)).
Qed.

(** Registration is open to anyone and also replaces a password: whoever registers
    a victim's name and account with a password of their own can log in and move
    the victim's money. *)
Theorem registration_takes_over_accounts {A : Type} `{Amount A} ops victim u password salt hash now token (req : TransferRequest A) :
  let s := run_auth ops empty_store in
  users s !! victim = Some u -> AccountID u <> "" -> password <> "" -> GenerateFromPassword password salt = Some hash ->
  FromAccount req = AccountID u -> TransactionId req <> "" -> a_leb (trAmount req) a_zero = false ->
  let '(s1, registered) := svc_Register salt true victim password (AccountID u) (id_Bank u) s in
  let '(s2, login) := svc_Authenticate now (Some token) victim password s1 in
  registered = OK /\ login = inl token /\ call_TransferMoney now true (Some [token]) req s2 = transfer req.
Proof.
  intros s Hu Ha Hp Hg Hfrom Hid Hamt. destruct (run_auth_ok ops empty_store empty_store_ok) as [Ho _]. fold s in Ho.
  destruct (uo_name _ Ho victim u Hu) as [Hn Hv].
  assert (claimed victim (AccountID u) (users s) = false) as Hc.
  { apply not_true_iff_false. intros Hc. unfold claimed in Hc. apply existsb_exists in Hc as (e & Hin & Hc).
    apply list_elem_of_In, list_elem_of_fmap in Hin as ([k e'] & -> & Hin). apply elem_of_map_to_list in Hin.
    apply andb_prop in Hc as [H1 H2]. apply String.eqb_eq in H1. apply negb_true_iff, String.eqb_neq in H2. apply H2.
    simpl in *. rewrite (proj1 (uo_name _ Ho k e' Hin)). by apply (uo_owner _ Ho k victim e' u). }
  unfold svc_Register. rewrite (proj2 (String.eqb_neq victim "") Hv), (proj2 (String.eqb_neq password "") Hp),
    (proj2 (String.eqb_neq (AccountID u) "") Ha). cbn [orb].
  unfold auth_register. rewrite (proj2 (String.eqb_neq victim "") Hv), (proj2 (String.eqb_neq password "") Hp), Hg, Hc.
  cbn -[call_TransferMoney svc_Authenticate user_rows]. unfold svc_Authenticate, authenticate. cbn [users].
  rewrite lookup_insert_eq. cbn [PasswordHash]. rewrite (bcrypt_matches _ _ _ Hg). split_and!; [done|done|].
  apply authorised_runs. split_and!; [done| |done|done]. eexists token, [], _, _. cbn [sessions users].
  rewrite lookup_insert_eq. split_and!; [done|done|cbn [as_username]; by rewrite lookup_insert_eq|cbn; unfold tokenTTL; lia|done|done].
Qed.
End Sessions.

(** ** Runs *)

Module AuthExamples.
Import PaymentExamples.

(** A stand-in for bcrypt that satisfies its laws. *)
Definition plain_hash (pw salt : string) : option string := if 72 <? String.length pw then None else Some ("$2" +:+ pw).
#[export] Instance plain_bcrypt : Bcrypt.
Proof.
  refine {| GenerateFromPassword := plain_hash; CompareHashAndPassword h pw := String.eqb h ("$2" +:+ pw) |}.
  - intros pw salt h. unfold plain_hash. destruct (72 <? _); [done|]. intros [= <-]. apply String.eqb_refl.
  - intros pw salt h. unfold plain_hash. destruct (72 <? _); [done|]. intros [= <-]. rewrite !str_app_cons, str_app_nil_l. by destruct pw.
Defined.

Definition registered : list auth_op :=
  [ARegister "" true "alice" "secret" "alice" "ICICI"; ARegister "" true "bob" "hunter" "bob" "HDFC"; ARestart (fun _ => "") true].
Definition alice_store : authStore := run_auth registered empty_store.

Lemma transfer_iff_authorised_witness :
  let s := (authenticate 0 (Some "t1") "alice" "secret" alice_store).1 in
  call_TransferMoney 5 true (Some ["t1"]) forty s = transfer forty /\ authorised 5 true (Some ["t1"]) forty s.
Proof.
  intros s. destruct (transfer_iff_authorised 5 true (Some ["t1"]) forty s) as [Hok|[(e & He & _) _]]; [exact Hok|].
  exfalso. vm_compute in He. discriminate.
Defined.


Lemma registration_survives_restart_witness :
  let s' := (auth_register "" true "carol" "pw" "carol" "HDFC" alice_store).1 in
  newAuthStore (fun _ => "") true (Some (users_file s')) = Some (mkAuthStore (users s') ∅ (users_file s')).
Proof.
  intros s'. refine (registration_survives_restart registered "" "carol" "pw" "carol" "HDFC" (fun _ => "") true s' _).
  vm_compute. reflexivity.
Defined.

Lemma token_works_until_expiry_witness :
  let ops := [AAuthenticate 10 (Some "t2") "bob" "hunter"; ARegister "" true "alice" "new" "alice" "ICICI"; AExpire tokenTTL] in
  let s' := run_auth ops (authenticate 0 (Some "t1") "alice" "secret" alice_store).1 in
  lookupSession tokenTTL "t1" s' = users s' !! "alice" /\ is_Some (lookupSession tokenTTL "t1" s').
Proof.
  intros ops s'. apply (token_works_until_expiry alice_store 0 "t1" "alice" "secret" ops tokenTTL).
  - vm_compute. reflexivity.
  - repeat constructor; [discriminate|simpl; lia].
  - lia.
Defined.

Lemma registration_takes_over_accounts_witness :
  let '(s1, registered) := svc_Register "" true "alice" "mine" "alice" "ICICI" alice_store in
  let '(s2, login) := svc_Authenticate 7 (Some "t9") "alice" "mine" s1 in
  registered = OK /\ login = inl "t9" /\ call_TransferMoney 7 true (Some ["t9"]) forty s2 = transfer forty.
Proof.
  apply (registration_takes_over_accounts registered "alice" (mkIdentity "alice" "$2secret" "alice" "ICICI") "mine" "" "$2mine" 7 "t9" forty);
    try discriminate; vm_compute; reflexivity.
Defined.

(** Passwords of an older file are hashed and the file is written back. *)
Example old_passwords_are_hashed :
  newAuthStore (fun _ => "") true (Some [["dave"; "clear"]]) =
  Some (mkAuthStore {["dave" := mkIdentity "dave" "$2clear" "" ""]} ∅
          [gatewayUsersHeader; ["dave"; "$2clear"; ""; ""]]).
Proof. vm_compute. reflexivity. Qed.
End AuthExamples.
