(* ===== verification/TransactionIds.v ===== *)
(** * transaction_id_server: ids that are never handed out twice

    The counter and its file.  What a write does is an input: it succeeds, it
    fails and reports it, or the process dies during it; in the last two cases
    the file is left with any content. *)

From S2P Require Import Prelude GoText.

(** ** [%06d] *)

Fixpoint zeros (n : nat) (s : string) : string := match n with O => s | S n => "0" +:+ zeros n s end.

(** Padded with zeros on the left, after the sign. *)
Definition pad (width : nat) (s : string) : string := zeros (width - String.length s) s.
Definition fmt_06d (z : Z) : string :=
  match z with Zneg p => "-" +:+ pad 5 (fmt_N (Npos p)) | _ => pad 6 (fmt_N (Z.to_N z)) end.

Definition txn_id (n : Z) : string := "TXN-" +:+ fmt_06d n.

Lemma parse_zeros n s : s <> "" -> parse_N (zeros n s) = parse_N s /\ zeros n s <> "".
Proof.
  intros Hs. induction n as [|n [IH Hne]]; [done|]. cbn [zeros]. rewrite str_app_cons, str_app_nil_l. split; [|done].
  rewrite <- IH. unfold parse_N, DecimalString.NilZero.uint_of_string. destruct (zeros n s) as [|c t]; [done|].
  cbn [DecimalString.NilEmpty.uint_of_string]. simpl.
  destruct (DecimalString.uint_of_char c _) as [d|]; done.
Qed.

Lemma txn_id_inj m n : (0 <= m)%Z -> (0 <= n)%Z -> txn_id m = txn_id n -> m = n.
Proof.
  assert (forall z, (0 <= z)%Z -> fmt_06d z = pad 6 (fmt_N (Z.to_N z))) as Hf by (by intros []).
  assert (forall n, fmt_N n <> "") as Hne.
  { intros x. by destruct (fmt_N_head x) as (c & s & -> & _). }
  intros Hm Hn. unfold txn_id. rewrite !(Hf _) by done. intros He.
  assert (forall s t : string, "TXN-" +:+ s = "TXN-" +:+ t -> s = t) as Hinj.
  { intros s t. rewrite !str_app_cons, !str_app_nil_l. by intros [= ->]. }
  apply Hinj in He. apply (f_equal parse_N) in He. unfold pad in He.
  rewrite !(proj1 (parse_zeros _ _ (Hne _))), !parse_fmt_N in He. injection He as He. lia.
Qed.

(** ** The counter *)

Record counter := mkCounter { c_next : Z }.

(** The machine: the file, and the server when it runs. *)
Record id_server := mkIdServer { counter_file : option string; running : option counter }.

(** What becomes of [os.WriteFile]. *)
Inductive write_result :=
| Written
| WriteError (rem : option string)
| CrashDuring (rem : option string).

Definition persistLocked (c : counter) : string := fmt_d (c_next c).

(** [openCounter], with what the write of a new file does. *)
Definition openCounter (w : write_result) (m : id_server) : id_server :=
  match counter_file m with
  | None =>
      let c := mkCounter 1 in
      match w with
      | Written => mkIdServer (Some (persistLocked c)) (Some c)
      | WriteError rem | CrashDuring rem => mkIdServer rem None
      end
  | Some data =>
      match ParseInt (TrimSpace data) with
      | Some value => mkIdServer (Some data) (Some (mkCounter value))
      | None => mkIdServer (Some data) None
      end
  end.

(** [counter.issue]: the id, when one is handed out. *)
Definition issue (w : write_result) (m : id_server) : id_server * option string :=
  match running m with
  | None => (m, None)
  | Some c =>
      let id := txn_id (c_next c) in
      let c' := mkCounter (wrap64 (c_next c + 1)) in
      match w with
      | Written => (mkIdServer (Some (persistLocked c')) (Some c'), Some id)
      | WriteError rem => (mkIdServer rem (Some (mkCounter (wrap64 (c_next c' - 1)))), None)
      | CrashDuring rem => (mkIdServer rem None, None)
      end
  end.

Inductive id_op := Issue (w : write_result) | StartServer (w : write_result) | StopServer.

Definition do_id (op : id_op) (m : id_server) : id_server * option string :=
  match op with
  | Issue w => issue w m
  | StartServer w => (openCounter w (mkIdServer (counter_file m) None), None)
  | StopServer => (mkIdServer (counter_file m) None, None)
  end.

(** The ids handed out, in order. *)
Fixpoint ids_issued (ops : list id_op) (m : id_server) : list string :=
  match ops with
  | [] => []
  | op :: rest => let '(m', id) := do_id op m in option_list id ++ ids_issued rest m'
  end.

(** ** Never twice *)

(** A write that did not succeed left the file as it was or as it should be. *)
Definition whole_write (m : id_server) (op : id_op) : Prop :=
  match op with
  | Issue (WriteError rem) | Issue (CrashDuring rem) =>
      rem = counter_file m \/
      exists c, running m = Some c /\ rem = Some (persistLocked (mkCounter (wrap64 (c_next c + 1))))
  | StartServer (WriteError rem) | StartServer (CrashDuring rem) =>
      counter_file m = None -> rem = None \/ rem = Some "1"
  | _ => True
  end.

Fixpoint whole_writes (ops : list id_op) (m : id_server) : Prop :=
  match ops with
  | [] => True
  | op :: rest => whole_write m op /\ whole_writes rest (do_id op m).1
  end.

(** Every id handed out so far is below [lo]; the file, if there is one, holds a
    number of at least [lo] and at most [hi]; so does a running server. *)
Record counter_ok (lo hi : Z) (m : id_server) : Prop := {
  co_lo : (1 <= lo <= hi)%Z;
  co_file f : counter_file m = Some f -> exists v, f = fmt_d v /\ (lo <= v <= hi)%Z;
  co_none : counter_file m = None -> lo = 1%Z /\ running m = None;
  co_run c : running m = Some c -> (lo <= c_next c <= hi)%Z;
}.

Lemma counter_ok_weaken lo hi hi' m : (hi <= hi')%Z -> counter_ok lo hi m -> counter_ok lo hi' m.
Proof.
  intros Hle [Hlo Hf Hn Hr]. split; [lia|..|done|].
  - intros f Hff. destruct (Hf f Hff) as (v & -> & ?). exists v. split; [done|lia].
  - intros c Hc. specialize (Hr c Hc). lia.
Qed.

Lemma digit_not_space c : is_digit c = true -> is_space c = false.
Proof. unfold is_digit, is_space, between. rewrite andb_true_iff, !Nat.leb_le. intros [? ?].
  apply orb_false_iff. split; [apply andb_false_iff; right; apply Nat.leb_gt; lia|apply Nat.eqb_neq; lia]. Qed.

Lemma trim_digits s : take_digits s = (s, "") -> TrimSpace s = s.
Proof.
  assert (forall s, take_digits s = (s, "") -> s <> "" -> all_space s = false) as Ha.
  { intros [|c t]; [done|]. simpl. destruct (is_digit c) eqn:Hc; [|by intros [=]]. intros _ _.
    by rewrite (digit_not_space c Hc). }
  assert (forall s, take_digits s = (s, "") -> trim_right s = s) as Hr.
  { induction s0 as [|c t IH]; [done|]. intros Hd. cbn [trim_right]. rewrite (Ha _ Hd) by done. f_equal. apply IH.
    simpl in Hd. destruct (is_digit c); [|done]. destruct (take_digits t) as [d r]. by injection Hd as -> ->. }
  intros Hd. unfold TrimSpace. destruct s as [|c t]; [done|]. simpl trim_left.
  assert (is_digit c = true) as Hc by (simpl in Hd; by destruct (is_digit c)).
  rewrite (digit_not_space c Hc). by apply Hr.
Qed.

Lemma parse_persisted v : (0 <= v <= int64_max)%Z -> ParseInt (TrimSpace (fmt_d v)) = Some v.
Proof.
  intros Hv. assert (fmt_d v = fmt_N (Z.to_N v)) as Hf by (destruct v; [done|done|lia]).
  rewrite Hf, trim_digits by apply fmt_N_digits. rewrite <- Hf. apply parse_fmt_d.
  unfold in_int64, int64_min, int64_max in *. lia.
Qed.

(** One step: the id it hands out, if any, is not below [lo] and below the next. *)
Lemma do_id_ok op lo hi m :
  counter_ok lo hi m -> (hi < int64_max)%Z -> whole_write m op ->
  exists lo', counter_ok lo' (hi + 1) (do_id op m).1 /\ (lo <= lo')%Z /\
    forall id, (do_id op m).2 = Some id -> exists n, id = txn_id n /\ (lo <= n < lo')%Z.
Proof.
  intros Hok Hhi Hw. destruct op as [w|w|]; cbn [do_id].
  - unfold issue. destruct (running m) as [c|] eqn:Hr.
    2: { exists lo. split; [by apply (counter_ok_weaken lo hi); [lia|]|]. split; [lia|done]. }
    pose proof (co_run _ _ _ Hok c Hr) as Hc. pose proof (co_lo _ _ _ Hok).
    assert (wrap64 (c_next c + 1) = (c_next c + 1)%Z) as Hs
      by (apply wrap64_id; unfold in_int64, int64_min, int64_max in *; lia).
    assert (wrap64 (c_next c + 1 - 1) = c_next c) as Hs'.
    { replace (c_next c + 1 - 1)%Z with (c_next c) by lia. apply wrap64_id. unfold in_int64, int64_min, int64_max in *. lia. }
    assert (forall rem, rem = counter_file m \/
              (exists c0, running m = Some c0 /\ rem = Some (persistLocked (mkCounter (wrap64 (c_next c0 + 1))))) ->
            forall f, rem = Some f -> exists v, f = fmt_d v /\ (lo <= v <= hi + 1)%Z) as Hleft.
    { intros rem [->|(c0 & Hc0 & ->)] f Hf.
      - destruct (co_file _ _ _ Hok f Hf) as (v & -> & ?). exists v. split; [done|lia].
      - assert (c0 = c) as -> by congruence. injection Hf as <-. exists (c_next c + 1)%Z. unfold persistLocked. simpl.
        rewrite Hs. split; [done|lia]. }
    assert (forall rem, rem = counter_file m \/
              (exists c0, running m = Some c0 /\ rem = Some (persistLocked (mkCounter (wrap64 (c_next c0 + 1))))) ->
            rem <> None) as Hsome.
    { intros rem [->|(c0 & _ & ->)]; [|done]. intros Hn. destruct (co_none _ _ _ Hok Hn). congruence. }
    destruct w as [|rem|rem]; simpl in Hw |- *.
    + exists (c_next c + 1)%Z. split; [|split; [lia|]].
      * unfold persistLocked. simpl. rewrite Hs. split; simpl; [lia|..|done|].
        -- intros f [= <-]. exists (c_next c + 1)%Z. split; [done|lia].
        -- intros c' [= <-]. simpl. lia.
      * intros id [= <-]. exists (c_next c). split; [done|lia].
    + exists lo. split; [|split; [lia|done]]. rewrite Hs, Hs'. split; simpl; [lia|by apply Hleft|..].
      * intros Hn. by apply (Hsome rem) in Hn.
      * intros c' [= <-]. simpl. lia.
    + exists lo. split; [|split; [lia|done]]. split; simpl; [lia|by apply Hleft|..|done].
      intros Hn. by apply (Hsome rem) in Hn.
  - exists lo. split; [|split; [lia|done]]. pose proof (co_lo _ _ _ Hok). unfold openCounter. simpl.
    destruct (counter_file m) as [data|] eqn:Hf.
    + destruct (co_file _ _ _ Hok data Hf) as (v & -> & Hv). rewrite parse_persisted by lia. split; simpl; [lia|..|done|].
      * intros f [= <-]. exists v. split; [done|lia].
      * intros c [= <-]. simpl. lia.
    + destruct (co_none _ _ _ Hok Hf) as [-> _].
      assert (forall rem, rem = None \/ rem = Some "1" -> counter_ok 1 (hi + 1) (mkIdServer rem None)) as Hl.
      { intros rem Hl. split; simpl; [lia| |by intros|done].
        intros f Hff. destruct Hl as [->| ->]; [done|]. injection Hff as <-. exists 1%Z. split; [done|lia]. }
      destruct w as [|rem|rem]; simpl in Hw |- *; [|by apply Hl, Hw..].
      split; simpl; [lia|..|done|].
      * intros f [= <-]. exists 1%Z. split; [done|lia].
      * intros c [= <-]. simpl. lia.
  - exists lo. split; [|split; [lia|done]]. apply (counter_ok_weaken lo hi); [lia|].
    destruct Hok as [H1 H2 H3 H4]. split; simpl; [done|done|naive_solver|done].
Qed.

Lemma ids_issued_above ops lo hi m :
  counter_ok lo hi m -> (hi + Z.of_nat (length ops) <= int64_max)%Z -> whole_writes ops m ->
  NoDup (ids_issued ops m) /\ forall id, id ∈ ids_issued ops m -> exists n, id = txn_id n /\ (lo <= n)%Z.
Proof.
  revert lo hi m. induction ops as [|op ops IH]; intros lo hi m Hok Hhi Hw; simpl.
  { split; [constructor|by intros id []%elem_of_nil]. }
  destruct Hw as [Hw Hws]. simpl in Hhi. destruct (do_id_ok op lo hi m Hok ltac:(lia) Hw) as (lo' & Hok' & Hle & Hid).
  destruct (do_id op m) as [m' o]. simpl in *. destruct (IH lo' (hi + 1)%Z m' Hok' ltac:(lia) Hws) as [Hnd Hall].
  assert (1 <= lo)%Z by apply Hok. destruct o as [id|]; simpl.
  - destruct (Hid id eq_refl) as (n & -> & Hn). split.
    + constructor; [|done]. intros Hin. destruct (Hall _ Hin) as (k & He & Hk).
      apply txn_id_inj in He; lia.
    + intros id [->|Hin]%elem_of_cons; [exists n; split; [done|lia]|].
      destruct (Hall id Hin) as (k & -> & Hk). exists k. split; [done|lia].
  - split; [done|]. intros id Hin. destruct (Hall id Hin) as (k & -> & Hk). exists k. split; [done|lia].
Qed.

(** C30: From an empty directory, through failed writes, crashes and restarts, no id
    is ever handed out twice, as long as no write leaves half a number behind. *)
Theorem ids_never_repeat ops :
  (Z.of_nat (length ops) < int64_max)%Z -> whole_writes ops (mkIdServer None None) ->
  NoDup (ids_issued ops (mkIdServer None None)).
Proof.
  intros Hlen Hw. apply (ids_issued_above ops 1 1); [|lia|done]. split; simpl; [lia|done|done|done].
Qed.

Module IdExamples.
Definition some_ops : list id_op :=
  [StartServer Written; Issue Written; Issue (WriteError (Some "2")); Issue Written; Issue (CrashDuring (Some "4"));
   StartServer Written; Issue Written].

Lemma ids_never_repeat_witness : NoDup ["TXN-000001"; "TXN-000002"; "TXN-000004"].
Proof.
  replace ["TXN-000001"; "TXN-000002"; "TXN-000004"] with (ids_issued some_ops (mkIdServer None None)) by (vm_compute; reflexivity).
  apply (ids_never_repeat some_ops).
  - vm_compute. reflexivity.
  - do 2 (split; [exact I|]). split; [left; vm_compute; reflexivity|]. split; [exact I|].
    split; [right; exists (mkCounter 3); split; vm_compute; reflexivity|]. do 2 (split; [exact I|]). exact I.
Defined.

(** A write that was cut short leaves a shorter number: the server restarts below
    what it has handed out and gives the same ids to other payments. *)
Theorem torn_write_reissues_ids :
  let ops := StartServer Written :: repeat (Issue Written) 11 ++ [Issue (CrashDuring (Some "1")); StartServer Written; Issue Written] in
  let ids := ids_issued ops (mkIdServer None None) in
  ids !! 0 = Some "TXN-000001" /\ last ids = Some "TXN-000001".
Proof. vm_compute. auto. Qed.
End IdExamples.
