(* ===== verification/Client.v ===== *)
(** * client/: the offline queue and seeding

    queue.go's queue on disk and its background sweep, and seed.go.  A JSON file
    is the list it encodes; [json_ok] says which amounts encoding/json can
    encode.  What the gateway answers and whether the disk takes a write are
    inputs. *)

From Stdlib Require Import SpecFloat.
From S2P Require Import Prelude GoText Money Accounts Bank Payments.

(** Durations in nanoseconds. *)
Definition seconds (n : Z) : Z := (n * 1000000000)%Z.
Definition retryBase : Z := seconds 2.
Definition retryMax : Z := seconds 60.
Definition maxAttempts : nat := 10.

Section Queue.
Context {A : Type} `{Amount A}.
Variable json_ok : A -> bool.

Record queuedTransfer := mkQueued { q_request : TransferRequest A; Attempts : nat }.

(** What the log says of a transfer that left the queue. *)
Inductive ending := WentThrough | RejectedPermanently | GivenUp.

(** [drain] waits, or is at an item of a sweep. *)
Inductive drain_phase := Waiting | Sweeping (rest : list queuedTransfer) (progress : bool).

Record offlineQueue := mkQueue {
  items : list queuedTransfer;
  queue_file : list queuedTransfer;
  phase : drain_phase;
  delay : Z;
  endings : list (string * ending);
  deliveries : nat;
}.

Definition newOfflineQueue (file : list queuedTransfer) : offlineQueue := mkQueue file file Waiting retryBase [] 0.

(** [persist]: the file is replaced, or kept when the queue cannot be encoded or
    the disk refuses. *)
Definition persist (ok : bool) (q : offlineQueue) : offlineQueue :=
  if ok && forallb (fun i => json_ok (trAmount (q_request i))) (items q)
  then mkQueue (items q) (items q) (phase q) (delay q) (endings q) (deliveries q)
  else q.

Definition set_items (l : list queuedTransfer) (q : offlineQueue) : offlineQueue :=
  mkQueue l (queue_file q) (phase q) (delay q) (endings q) (deliveries q).
Definition set_phase (p : drain_phase) (q : offlineQueue) : offlineQueue :=
  mkQueue (items q) (queue_file q) p (delay q) (endings q) (deliveries q).
Definition set_delay (d : Z) (q : offlineQueue) : offlineQueue :=
  mkQueue (items q) (queue_file q) (phase q) d (endings q) (deliveries q).
Definition ended (id : string) (e : ending) (q : offlineQueue) : offlineQueue :=
  mkQueue (items q) (queue_file q) (phase q) (delay q) (endings q ++ [(id, e)]) (deliveries q).
Definition count_delivery (q : offlineQueue) : offlineQueue :=
  mkQueue (items q) (queue_file q) (phase q) (delay q) (endings q) (S (deliveries q)).

Definition queue_add (ok : bool) (req : TransferRequest A) (q : offlineQueue) : offlineQueue :=
  persist ok (set_items (items q ++ [mkQueued req 0]) q).

Definition take (ok : bool) (q : offlineQueue) : list queuedTransfer * offlineQueue :=
  let l := items q in
  let q := set_items [] q in
  (l, if bool_decide (l = []) then q else persist ok q).

Definition requeue (ok : bool) (item : queuedTransfer) (q : offlineQueue) : offlineQueue :=
  let item := mkQueued (q_request item) (S (Attempts item)) in
  if maxAttempts <=? Attempts item then ended (TransactionId (q_request item)) GivenUp q
  else persist ok (set_items (items q ++ [item]) q).

(** The end of a sweep. *)
Definition backoff (progress : bool) (d : Z) : Z :=
  if progress then retryBase else if (d <? retryMax)%Z then (d * 2)%Z else d.

(** On to the next item, or back to waiting. *)
Definition next_item (rest : list queuedTransfer) (progress : bool) (q : offlineQueue) : offlineQueue :=
  match rest with
  | [] => set_phase Waiting (set_delay (backoff progress (delay q)) q)
  | _ => set_phase (Sweeping rest progress) q
  end.

(** [drain], one step at a time: the timer fires, or an item of the sweep has its
    answer. *)
Definition drain_tick (ok : bool) (q : offlineQueue) : offlineQueue :=
  match phase q with
  | Waiting =>
      let '(l, q) := take ok q in
      match l with [] => set_delay retryBase q | _ => set_phase (Sweeping l false) q end
  | Sweeping _ _ => q
  end.

Definition drain_answer (ok : bool) (e : code) (q : offlineQueue) : offlineQueue :=
  match phase q with
  | Sweeping (item :: rest) progress =>
      let id := TransactionId (q_request item) in
      let q := count_delivery q in
      if decide (e = OK) then next_item rest true (ended id WentThrough q)
      else if retriable e then next_item rest progress (requeue ok item q)
      else next_item rest true (ended id RejectedPermanently q)
  | _ => q
  end.

Inductive queue_op :=
| QAdd (ok : bool) (req : TransferRequest A)
| QTick (ok : bool)
| QAnswer (ok : bool) (e : code).

Definition do_queue (op : queue_op) (q : offlineQueue) : offlineQueue :=
  match op with
  | QAdd ok req => queue_add ok req q
  | QTick ok => drain_tick ok q
  | QAnswer ok e => drain_answer ok e q
  end.
Definition run_queue (ops : list queue_op) (q : offlineQueue) : offlineQueue := foldl (fun q op => do_queue op q) q ops.

(** The client is closed, or dies, and is started again. *)
Definition restart_queue (q : offlineQueue) : offlineQueue := newOfflineQueue (queue_file q).
End Queue.
Arguments queuedTransfer : clear implicits.
Arguments offlineQueue : clear implicits.
Arguments drain_phase : clear implicits.
Arguments queue_op : clear implicits.

(** ** Nothing is forgotten while the client runs *)

Section QueueProofs.
Context {A : Type} `{Amount A}.
Variable json_ok : A -> bool.
Implicit Types (q : offlineQueue A) (l : list (queuedTransfer A)).

Definition ids l : list string := (fun i => TransactionId (q_request i)) <$> l.
Definition in_sweep q : list (queuedTransfer A) := match phase q with Waiting => [] | Sweeping rest _ => rest end.
Definition pending q : list (queuedTransfer A) := in_sweep q ++ items q.
Definition added (ops : list (queue_op A)) : list string :=
  omap (fun op => match op with QAdd _ req => Some (TransactionId req) | _ => None end) ops.

(** What an operation leaves of the fields it does not set. *)
Lemma persist_fields ok q :
  items (persist json_ok ok q) = items q /\ phase (persist json_ok ok q) = phase q /\
  delay (persist json_ok ok q) = delay q /\ endings (persist json_ok ok q) = endings q /\
  deliveries (persist json_ok ok q) = deliveries q.
Proof. unfold persist. by destruct (_ && _). Qed.

Lemma take_fields ok q :
  (take json_ok ok q).1 = items q /\ items (take json_ok ok q).2 = [] /\ phase (take json_ok ok q).2 = phase q /\
  delay (take json_ok ok q).2 = delay q /\ endings (take json_ok ok q).2 = endings q /\
  deliveries (take json_ok ok q).2 = deliveries q.
Proof.
  unfold take. simpl. case_bool_decide; simpl; [done|]. destruct (persist_fields ok (set_items [] q)) as (-> & -> & -> & -> & ->). done.
Qed.

Lemma tick_cases ok q :
  drain_tick json_ok ok q = q \/
  phase q = Waiting /\ items q = [] /\ drain_tick json_ok ok q = set_delay retryBase (take json_ok ok q).2 \/
  phase q = Waiting /\ items q <> [] /\ drain_tick json_ok ok q = set_phase (Sweeping (items q) false) (take json_ok ok q).2.
Proof.
  unfold drain_tick. destruct (phase q); [|by left]. destruct (take_fields ok q) as (Hl & _).
  destruct (take json_ok ok q) as [l q']. simpl in Hl. subst l. right. destruct (items q); [left|right]; done.
Qed.

Lemma next_item_fields rest progress q :
  in_sweep (next_item rest progress q) = rest /\ items (next_item rest progress q) = items q /\
  endings (next_item rest progress q) = endings q /\ deliveries (next_item rest progress q) = deliveries q.
Proof. by destruct rest. Qed.

(** One answer takes the first item of the sweep out, and puts it back at the end
    of the queue or on record. *)
Lemma answer_cases ok e q item rest progress :
  phase q = Sweeping (item :: rest) progress ->
  let q' := drain_answer json_ok ok e q in
  in_sweep q' = rest /\ deliveries q' = S (deliveries q) /\
  ((exists x, items q' = items q /\ endings q' = endings q ++ [(TransactionId (q_request item), x)]) \/
   endings q' = endings q /\ S (Attempts item) < maxAttempts /\
   items q' = items q ++ [mkQueued (q_request item) (S (Attempts item))]).
Proof.
  intros Hp. unfold drain_answer. rewrite Hp. cbn zeta.
  destruct (decide (e = OK)); [|destruct (retriable e)].
  - destruct (next_item_fields rest true (ended (TransactionId (q_request item)) WentThrough (count_delivery q))) as (-> & -> & -> & ->).
    split_and!; [done..|]. left. by eexists.
  - destruct (next_item_fields rest progress (requeue json_ok ok item (count_delivery q))) as (-> & -> & -> & ->).
    unfold requeue. cbn [Attempts q_request].
    destruct (Nat.leb_spec maxAttempts (S (Attempts item))); [split_and!; [done..|]; left; by eexists|].
    set (q1 := set_items _ _). destruct (persist_fields ok q1) as (-> & _ & _ & -> & ->). split_and!; [done..|]. by right.
  - destruct (next_item_fields rest true (ended (TransactionId (q_request item)) RejectedPermanently (count_delivery q))) as (-> & -> & -> & ->).
    split_and!; [done..|]. left. by eexists.
Qed.

Lemma answer_idle ok e q :
  (forall item rest progress, phase q <> Sweeping (item :: rest) progress) -> drain_answer json_ok ok e q = q.
Proof. intros Hn. unfold drain_answer. destruct (phase q) as [|[|i r] p]; [done|done|]. by destruct (Hn i r p). Qed.

(** The transfers a client knows of, and those it is done with. *)
Definition account_of q : list string := ids (pending q) ++ (endings q).*1.

Lemma ids_app l l' : ids (l ++ l') = ids l ++ ids l'.
Proof. apply fmap_app. Qed.

Lemma do_queue_account op q :
  account_of (do_queue json_ok op q) ≡ₚ added [op] ++ account_of q.
Proof.
  destruct op as [ok req|ok|ok e]; cbn [do_queue].
  - unfold queue_add, account_of, pending, in_sweep. set (q1 := set_items _ _).
    destruct (persist_fields ok q1) as (-> & -> & _ & -> & _). simpl. rewrite !ids_app. simpl.
    solve_Permutation.
  - destruct (tick_cases ok q) as [->|[(Hp & Hi & ->)|(Hp & Hi & ->)]]; [done|..];
      destruct (take_fields ok q) as (_ & T1 & T2 & _ & T3 & _);
      unfold account_of, pending, in_sweep; cbn [set_delay set_phase items phase endings]; rewrite T1, T3, ?T2, Hp, ?Hi;
      cbn [added omap list_omap app]; [done|by rewrite app_nil_r].
  - destruct (phase q) as [|[|item rest] progress] eqn:Hp; [by rewrite answer_idle; [|intros; rewrite Hp]..|].
    destruct (answer_cases ok e q item rest progress Hp) as (Hs & _ & Hcase).
    unfold account_of, pending. rewrite Hs. unfold in_sweep. rewrite Hp, !ids_app.
    destruct Hcase as [(x & -> & ->)|(-> & _ & ->)]; rewrite ?fmap_app, ?ids_app; simpl; solve_Permutation.
Qed.

Lemma added_app o1 o2 : added (o1 ++ o2) = added o1 ++ added o2.
Proof. apply omap_app. Qed.

Lemma run_queue_account ops q :
  account_of (run_queue json_ok ops q) ≡ₚ added ops ++ account_of q.
Proof.
  revert q. induction ops as [|op ops IH]; intros q; [done|]. cbn [run_queue foldl].
  change (account_of (run_queue json_ok ops (do_queue json_ok op q)) ≡ₚ added (op :: ops) ++ account_of q).
  rewrite IH, do_queue_account. change (op :: ops) with ([op] ++ ops). rewrite added_app. solve_Permutation.
Qed.

(** *** How often a transfer is sent *)

(** The sends a queued transfer has left, at least one. *)
Definition sends_left (i : queuedTransfer A) : nat := 1 `max` (maxAttempts - Attempts i).
Definition all_sends l : nat := foldr (fun i n => sends_left i + n) 0 l.

Lemma all_sends_app l l' : all_sends (l ++ l') = all_sends l + all_sends l'.
Proof. unfold all_sends. induction l as [|i l IH]; [done|]. cbn [app foldr]. rewrite IH. lia. Qed.

Lemma all_sends_bound l : all_sends l <= maxAttempts * length l.
Proof.
  induction l as [|i l IH]; [done|]. unfold all_sends in *. cbn [foldr length].
  assert (sends_left i <= maxAttempts) by (unfold sends_left, maxAttempts; lia). lia.
Qed.

Lemma do_queue_sends op q :
  deliveries (do_queue json_ok op q) + all_sends (pending (do_queue json_ok op q)) <=
  deliveries q + all_sends (pending q) + maxAttempts * length (added [op]).
Proof.
  destruct op as [ok req|ok|ok e]; cbn [do_queue added omap list_omap length].
  - unfold queue_add, pending, in_sweep. set (q1 := set_items _ _).
    destruct (persist_fields ok q1) as (-> & -> & _ & _ & ->). cbn [q1 set_items items phase deliveries].
    rewrite !all_sends_app. change (all_sends [mkQueued req 0]) with 10. change (maxAttempts * 1) with 10. lia.
  - destruct (tick_cases ok q) as [->|[(Hp & Hi & ->)|(Hp & Hi & ->)]]; [lia|..];
      destruct (take_fields ok q) as (_ & T1 & T2 & _ & _ & T4);
      unfold pending, in_sweep; cbn [set_delay set_phase items phase deliveries]; rewrite T1, T4, ?T2, Hp, ?Hi; [lia|].
    rewrite !all_sends_app. lia.
  - destruct (phase q) as [|[|item rest] progress] eqn:Hp;
      [by rewrite answer_idle; [lia|intros; rewrite Hp]..|].
    destruct (answer_cases ok e q item rest progress Hp) as (Hs & Hd & Hcase).
    unfold pending. rewrite Hs, Hd. unfold in_sweep. rewrite Hp, !all_sends_app.
    assert (all_sends (item :: rest) = sends_left item + all_sends rest) as -> by done.
    destruct Hcase as [(x & -> & _)|(_ & Hm & ->)]; rewrite ?all_sends_app.
    + unfold sends_left. lia.
    + change (all_sends [mkQueued (q_request item) (S (Attempts item))]) with
        (sends_left (mkQueued (q_request item) (S (Attempts item))) + 0).
      unfold sends_left, maxAttempts in *. cbn [Attempts]. lia.
Qed.

Lemma run_queue_sends ops q :
  deliveries (run_queue json_ok ops q) + all_sends (pending (run_queue json_ok ops q)) <=
  deliveries q + all_sends (pending q) + maxAttempts * length (added ops).
Proof.
  revert q. induction ops as [|op ops IH]; intros q; [cbn; lia|].
  pose proof (do_queue_sends op q) as H1. pose proof (IH (do_queue json_ok op q)) as H2.
  change (run_queue json_ok (op :: ops) q) with (run_queue json_ok ops (do_queue json_ok op q)).
  change (op :: ops) with ([op] ++ ops). rewrite added_app, length_app. lia.
Qed.

(** *** The file *)

Definition op_writes (op : queue_op A) : Prop :=
  match op with
  | QAdd ok req => ok = true /\ json_ok (trAmount req) = true
  | QTick ok | QAnswer ok _ => ok = true
  end.

Definition encodable l : Prop := Forall (fun i => json_ok (trAmount (q_request i)) = true) l.

Lemma persist_file q : encodable (items q) -> queue_file (persist json_ok true q) = items q.
Proof.
  intros He. unfold persist. assert (forallb (fun i => json_ok (trAmount (q_request i))) (items q) = true) as ->; [|done].
  apply forallb_forall. intros i Hi. unfold encodable in He. rewrite Forall_forall in He. by apply He, list_elem_of_In.
Qed.

Lemma do_queue_file op q :
  op_writes op -> queue_file q = items q -> encodable (pending q) ->
  queue_file (do_queue json_ok op q) = items (do_queue json_ok op q) /\ encodable (pending (do_queue json_ok op q)).
Proof.
  intros Hop Hf He. pose proof (proj2 (proj1 (Forall_app _ _ _) He)) as Hi.
  destruct op as [ok req|ok|ok e]; cbn [do_queue]; simpl in Hop.
  - destruct Hop as [-> Hj]. unfold queue_add. set (q1 := set_items _ _).
    assert (encodable (items q1)) as H1 by (apply Forall_app; split; [done|by repeat constructor]).
    rewrite persist_file by done. unfold pending, in_sweep.
    destruct (persist_fields true q1) as (-> & -> & _). split; [done|]. apply Forall_app. split; [|done].
    apply Forall_app in He as [Hs _]. done.
  - subst ok. destruct (tick_cases true q) as [->|[(Hp & Hit & ->)|(Hp & Hit & ->)]]; [done|..].
    + unfold take. rewrite Hit. cbn. rewrite Hf, Hit. split; [done|]. unfold pending, in_sweep. cbn. rewrite Hp. constructor.
    + unfold take. cbn [snd]. rewrite bool_decide_false by done.
      assert (encodable (items (set_items [] q))) as H0 by constructor.
      pose proof (persist_file _ H0) as Hpf. destruct (persist_fields true (set_items [] q)) as (P1 & _).
      unfold pending, in_sweep. cbn [set_phase items queue_file phase]. rewrite Hpf, P1. split; [done|].
      apply Forall_app. split; [done|constructor].
  - subst ok. destruct (phase q) as [|[|item rest] progress] eqn:Hp;
      [by rewrite answer_idle; [|intros; rewrite Hp]..|].
    assert (encodable (item :: rest)) as Hs by (apply Forall_app in He as [Hs _]; unfold in_sweep in Hs; by rewrite Hp in Hs).
    inversion Hs as [|? ? Hit Hrest]; subst.
    assert (forall pr q0, queue_file (next_item rest pr q0) = queue_file q0 /\ items (next_item rest pr q0) = items q0 /\
              pending (next_item rest pr q0) = rest ++ items q0) as Hn by (by intros; destruct rest).
    assert (forall pr q0, queue_file q0 = items q0 -> encodable (items q0) ->
              queue_file (next_item rest pr q0) = items (next_item rest pr q0) /\ encodable (pending (next_item rest pr q0))) as Hgo.
    { intros pr q0 H1 H2. destruct (Hn pr q0) as (-> & -> & ->). split; [done|]. by apply Forall_app. }
    unfold drain_answer. rewrite Hp. cbn zeta. destruct (decide (e = OK)); [by apply Hgo|].
    destruct (retriable e); [|by apply Hgo]. apply Hgo; unfold requeue; cbn [Attempts q_request];
      destruct (maxAttempts <=? S (Attempts item)); [done| |done|].
    + set (q1 := set_items _ _). rewrite persist_file; [|by apply Forall_app; split; [|by repeat constructor]].
      by destruct (persist_fields true q1) as (-> & _).
    + set (q1 := set_items _ _). destruct (persist_fields true q1) as (-> & _).
      apply Forall_app; split; [done|by repeat constructor].
Qed.

Lemma run_queue_file ops q :
  Forall op_writes ops -> queue_file q = items q -> encodable (pending q) ->
  queue_file (run_queue json_ok ops q) = items (run_queue json_ok ops q).
Proof.
  intros Hall. revert q. induction Hall as [|op ops Hop _ IH]; intros q Hf He; [done|].
  destruct (do_queue_file op q Hop Hf He). by apply IH.
Qed.

(** Every transfer handed to the queue is still waiting, being sent, or on record
    as delivered, refused or given up, and nothing else is; none is sent more
    than ten times; and a client that is closed and started again with a working
    disk has lost at most the transfers of the sweep it was in. *)
Theorem queue_accounts_for_transfers (file : list (queuedTransfer A)) ops :
  let q := run_queue json_ok ops (newOfflineQueue file) in
  ids file ++ added ops ≡ₚ ids (in_sweep q) ++ ids (items q) ++ (endings q).*1 /\
  deliveries q <= maxAttempts * (length file + length (added ops)) /\
  (Forall op_writes ops -> encodable file -> items (restart_queue q) = items q).
Proof.
  intros q. split_and!.
  - pose proof (run_queue_account ops (newOfflineQueue file)) as Ha. fold q in Ha. unfold account_of, pending in Ha.
    rewrite ids_app, <- app_assoc in Ha. rewrite Ha. cbn. rewrite app_nil_r. solve_Permutation.
  - pose proof (run_queue_sends ops (newOfflineQueue file)) as Hs. fold q in Hs.
    change (deliveries (newOfflineQueue file)) with 0 in Hs. change (pending (newOfflineQueue file)) with file in Hs.
    pose proof (all_sends_bound file). lia.
  - intros Hw He. exact (run_queue_file ops (newOfflineQueue file) Hw eq_refl He).
Qed.

(** The pause between sweeps is at least [retryBase] and at most 64 seconds. *)
Definition delay_ok (d : Z) : Prop := exists n : nat, n <= 5 /\ d = (retryBase * 2 ^ Z.of_nat n)%Z.

Lemma delay_ok_base : delay_ok retryBase.
Proof. exists 0. split; [lia|reflexivity]. Qed.

Lemma backoff_ok progress d : delay_ok d -> delay_ok (backoff progress d).
Proof.
  intros (n & Hn & ->). unfold backoff. destruct progress; [apply delay_ok_base|].
  destruct (Z.ltb_spec (retryBase * 2 ^ Z.of_nat n) retryMax) as [Hlt|]; [|by exists n].
  assert (n <> 5) by (intros ->; vm_compute in Hlt; discriminate). exists (S n). split; [lia|].
  rewrite Nat2Z.inj_succ, Z.pow_succ_r by lia. lia.
Qed.

Theorem backoff_is_bounded ops (file : list (queuedTransfer A)) :
  delay_ok (delay (run_queue json_ok ops (newOfflineQueue file))).
Proof.
  pose proof delay_ok_base as Hb.
  assert (forall op q, delay_ok (delay q) -> delay_ok (delay (do_queue json_ok op q))) as Hstep.
  { intros [ok req|ok|ok e] q Hd; cbn [do_queue].
    - unfold queue_add. set (q1 := set_items _ _). by destruct (persist_fields ok q1) as (_ & _ & -> & _).
    - destruct (tick_cases ok q) as [->|[(_ & _ & ->)|(_ & _ & ->)]]; [done|done|].
      destruct (take_fields ok q) as (_ & _ & _ & T & _). cbn [set_phase delay]. by rewrite T.
    - assert (forall rest pr q0, delay_ok (delay q0) -> delay_ok (delay (next_item rest pr q0))) as Hn
        by (intros [] pr qq Hqq; [by apply backoff_ok|done]).
      unfold drain_answer. destruct (phase q) as [|[|item rest] pr]; [done|done|].
      destruct (decide (e = OK)); [by apply Hn|]. destruct (retriable e); [|by apply Hn]. apply Hn. unfold requeue.
      destruct (_ <=? _); [done|]. set (q1 := set_items _ _). by destruct (persist_fields ok q1) as (_ & _ & -> & _). }
  assert (forall q, delay_ok (delay q) -> delay_ok (delay (run_queue json_ok ops q))) as Hrun; [|by apply Hrun].
  induction ops as [|op ops IH]; intros q Hq; [done|]. by apply IH, Hstep.
Qed.
End QueueProofs.

(** ** seed.go *)

Section Seed.
Context {A : Type} `{Amount A}.

(** [seedBankAccount]: the file of each replica in turn ([None] when it is not
    there yet), stopping at the first error; every write succeeds. *)
Fixpoint seedBankAccount (a : BankAccount A) (files : list (option csv_file)) : list (option csv_file) * option StoreError :=
  match files with
  | [] => ([], None)
  | file :: rest =>
      match Create true a (default (NewStore (A := A)) file) with
      | (f, Some e) => (Some f :: rest, Some e)
      | (f, None) => let '(rest', e) := seedBankAccount a rest in (Some f :: rest', e)
      end
  end.
End Seed.

Section SeedProofs.
Context {A : Type} `{EA : ExactAmount A}.
Implicit Types (a : BankAccount A) (f : csv_file).

Lemma find_account_app id (all : list (BankAccount A)) a :
  find_account id all = None -> acID a = id -> find_account id (all ++ [a]) = Some a.
Proof.
  unfold find_account. intros Hn Ha. destruct (list_find (fun x => acID x = id) all) as [[i y]|] eqn:E; [done|].
  rewrite list_find_app_r by done. simpl. by rewrite decide_True.
Qed.

(** An account that was created, or was there with the same credentials, makes
    creating it again a no-op. *)
Lemma Create_again a f f' :
  Create true a f = (f', None) -> Create true a f' = (f', None) /\ exists x, store_Balance (acID a) f' = inl x.
Proof.
  unfold Create. destruct (store_read f) as [all|] eqn:Hr; [|done].
  destruct (find_account (acID a) all) as [e|] eqn:Hf.
  - destruct (decide _) as [Hd|]; [|done]. intros [= <-]. rewrite Hr, Hf, decide_True by done.
    unfold store_Balance. rewrite Hr, Hf. eauto.
  - intros [= <-]. rewrite read_written, (find_account_app _ _ _ Hf eq_refl), decide_True by done.
    unfold store_Balance. rewrite read_written, (find_account_app _ _ _ Hf eq_refl). eauto.
Qed.

(** Seeding that succeeds leaves the account at every replica, and doing it again
    changes nothing, in particular no balance. *)
Theorem seeding_is_idempotent a files files' :
  seedBankAccount a files = (files', None) ->
  seedBankAccount a files' = (files', None) /\
  Forall (fun file => exists f', file = Some f' /\ exists x, store_Balance (acID a) f' = inl x) files'.
Proof.
  revert files'. induction files as [|file files IH]; intros files'; simpl; [by intros [= <-]|].
  destruct (Create true a (default NewStore file)) as [f [e|]] eqn:Hc; [done|].
  destruct (seedBankAccount a files) as [rest' e] eqn:Hs. intros [= <- ->].
  destruct (IH rest' eq_refl) as [Hagain Hall]. destruct (Create_again a _ f Hc) as [Hc' [x Hx]].
  cbn [seedBankAccount default]. simpl. rewrite Hc', Hagain. split; [done|]. constructor; [|done]. eauto.
Qed.
End SeedProofs.

(** ** Runs *)

Module ClientExamples.
Import BankExamples PaymentExamples.

Definition q0 : offlineQueue cents := newOfflineQueue [].
Definition any_amount (x : cents) : bool := true.

(** Taking the queue writes the empty queue out before anything is delivered: a
    client that dies during the sweep has lost the transfers. *)
Theorem crash_during_sweep_loses_transfers :
  let q := run_queue any_amount [QAdd true forty; QTick true] q0 in
  ids (in_sweep q) = ["TXN-000001"] /\ pending (restart_queue q) = [] /\ endings q = [].
Proof. vm_compute. auto. Qed.

(** The pause doubles past the bound the constants give. *)
Theorem backoff_exceeds_retryMax :
  let failed := [QTick true; QAnswer true Unavailable] in
  let q := run_queue any_amount (QAdd true forty :: failed ++ failed ++ failed ++ failed ++ failed) q0 in
  delay q = seconds 64 /\ (retryMax < delay q)%Z.
Proof. vm_compute. auto. Qed.

Definition nan_request : TransferRequest float64 :=
  mkTransferRequest "TXN-000002" "alice" "bob" "ICICI" "HDFC" SpecFloat.S754_nan.

(** NaN as an amount passes the participant's own checks, and cannot be
    replicated. *)
Theorem nan_amount_panics_the_bank :
  let c := debit nan_request cmdPrepare in
  a_leb (bcAmount c) a_zero = false /\ encodeCommand c = None /\
  (bank_step good c (newParticipant (account_file "alice" "1.00") [])).2 = mkApplyResult OK false.
Proof. vm_compute. auto. Qed.

Definition alice_row : BankAccount cents := mkAccountRow "alice" "alice" "pw" "ICICI" 100000%Z.

Lemma seeding_is_idempotent_witness :
  let files := (seedBankAccount alice_row [None; Some [Header]]).1 in
  seedBankAccount alice_row files = (files, None).
Proof. apply (seeding_is_idempotent alice_row [None; Some [Header]]). vm_compute. reflexivity. Defined.
End ClientExamples.
