(* ===== verification/ClientSession.v ===== *)
(** * client/main.go: a session of the client, from startup to quitting

    [client_run] is [run]: seeding, registering and logging in, opening the
    queue and the menu.  What the user types is a stream of lines; the gateway's
    users and sessions (GatewayAuth.v) and the id service (TransactionIds.v) are
    state that the client's calls change.  An [ether] says, call by call, what the
    network does with it, what others did to the services since the last call,
    what the background sweep of the queue did, and how the banks decided. *)

From Stdlib Require Import SpecFloat.
From S2P Require Import Prelude GoText Money Accounts Bank Payments GatewayAuth TransactionIds Client.

(** ** Standard input *)

(** Lines that end in a newline, and what follows the last newline. *)
Record stdin := mkStdin { in_lines : list string; in_rest : string }.

(** [reader.ReadString('\n')]: what was read, and whether a newline ended it. *)
Definition ReadString (i : stdin) : string * bool * stdin :=
  match in_lines i with
  | l :: rest => (l, true, mkStdin rest (in_rest i))
  | [] => (in_rest i, false, mkStdin [] "")
  end.

Definition prompt (i : stdin) : string * stdin :=
  let '(line, _, i') := ReadString i in (TrimSpace line, i').

(** ** Configuration, services and the network *)

Record client_config := mkClientConfig {
  cl_username : string; cl_password : string; cl_account : string; cl_bank : string; cl_register : bool }.

Record services := mkServices { sv_auth : authStore; sv_ids : id_server }.

(** What happens around one call. *)
Record ether (A : Type) := mkEther {
  et_auth : list auth_op;        (* what others did to the gateway before *)
  et_ids : list id_op;           (* what happened to the id service before *)
  et_sweep : list (bool * option code);  (* the queue's sweep before: a tick, or an answer *)
  et_fate : fate;
  et_now : Z;
  et_active : bool;
  et_salt : string;
  et_token : option string;
  et_disk : bool;                (* the disk of the process that writes takes it *)
  et_write : write_result;
  et_outcome : code;             (* how a transfer that reaches the banks ends *)
  et_balance : A + code;
}.
Arguments mkEther {A}.
Arguments et_auth {A}.
Arguments et_ids {A}.
Arguments et_sweep {A}.
Arguments et_fate {A}.
Arguments et_now {A}.
Arguments et_active {A}.
Arguments et_salt {A}.
Arguments et_token {A}.
Arguments et_disk {A}.
Arguments et_write {A}.
Arguments et_outcome {A}.
Arguments et_balance {A}.

(** What the client prints. *)
Inductive printed (A : Type) :=
  | PAuthenticated
  | PUnknownOption
  | PBye
  | PInvalidAmount (text : string)
  | PNoTransactionId (e : code)
  | PSent (id : string)
  | PUndelivered (id : string) (e : code)
  | PRejected (id : string) (e : code)
  | PBalance (x : A)
  | PBalanceUnavailable (e : code).
Arguments PAuthenticated {A}.
Arguments PUnknownOption {A}.
Arguments PBye {A}.
Arguments PInvalidAmount {A}.
Arguments PNoTransactionId {A}.
Arguments PSent {A}.
Arguments PUndelivered {A}.
Arguments PRejected {A}.
Arguments PBalance {A}.
Arguments PBalanceUnavailable {A}.

(** What [run] returns an error about. *)
Inductive client_error := CSeed (e : StoreError) | CDial (what : string) | CRegister (e : code) | CAuthenticate (e : code) | CQueue.

Section ClientSession.
Context `{Bcrypt} {A : Type} `{Amount A} (json_ok : A -> bool) (weather : nat -> ether A).

(** The client and the services; [cs_sent] and [cs_idops] are histories: the
    requests it sent to the gateway, and everything done to the id service. *)
Record client_state := mkClientState {
  cs_services : services;
  cs_queue : offlineQueue A;
  cs_in : stdin;
  cs_calls : nat;
  cs_out : list (printed A);
  cs_sent : list (TransferRequest A);
  cs_idops : list id_op;
}.
Implicit Types s : client_state.

Definition say (p : printed A) s : client_state :=
  mkClientState (cs_services s) (cs_queue s) (cs_in s) (cs_calls s) (cs_out s ++ [p]) (cs_sent s) (cs_idops s).
Definition set_in (i : stdin) s : client_state :=
  mkClientState (cs_services s) (cs_queue s) i (cs_calls s) (cs_out s) (cs_sent s) (cs_idops s).
Definition set_queue (q : offlineQueue A) s : client_state :=
  mkClientState (cs_services s) q (cs_in s) (cs_calls s) (cs_out s) (cs_sent s) (cs_idops s).

Definition run_ids (ops : list id_op) (m : id_server) : id_server := foldl (fun m op => (do_id op m).1) m ops.

Definition sweep_op (x : bool * option code) : queue_op A :=
  match x.2 with None => QTick x.1 | Some e => QAnswer x.1 e end.

(** Before a call: what the others and the sweep did. *)
Definition meanwhile_done (e : ether A) s : client_state :=
  mkClientState (mkServices (run_auth (et_auth e) (sv_auth (cs_services s))) (run_ids (et_ids e) (sv_ids (cs_services s))))
    (run_queue json_ok (sweep_op <$> et_sweep e) (cs_queue s)) (cs_in s) (cs_calls s) (cs_out s) (cs_sent s)
    (cs_idops s ++ et_ids e).

(** A call: [serve] is what the server does when the request reaches it. *)
Definition call {X} (serve : ether A -> services -> services * list id_op * (X + code)) s : client_state * (X + code) :=
  let e := weather (cs_calls s) in
  let s1 := meanwhile_done e s in
  let '(sv, ops, answer) := serve e (cs_services s1) in
  let reached := mkClientState sv (cs_queue s1) (cs_in s1) (S (cs_calls s)) (cs_out s1) (cs_sent s1) (cs_idops s1 ++ ops) in
  let missed := mkClientState (cs_services s1) (cs_queue s1) (cs_in s1) (S (cs_calls s)) (cs_out s1) (cs_sent s1) (cs_idops s1) in
  match et_fate e with
  | Lost x => (missed, inr x)
  | Unanswered x => (reached, inr x)
  | Answered => (reached, answer)
  end.

(** ** The calls *)

Definition serve_register (c : client_config) (e : ether A) (sv : services) : services * list id_op * (unit + code) :=
  match authUnaryInterceptor (et_now e) (et_active e) "/payment.PaymentGateway/Register" None (sv_auth sv) with
  | inr x => (sv, [], inr x)
  | inl _ =>
      let '(a, x) := svc_Register (et_salt e) (et_disk e) (cl_username c) (cl_password c) (cl_account c) (cl_bank c) (sv_auth sv) in
      (mkServices a (sv_ids sv), [], match x with OK => inl tt | x => inr x end)
  end.

Definition serve_authenticate (c : client_config) (e : ether A) (sv : services) : services * list id_op * (string + code) :=
  match authUnaryInterceptor (et_now e) (et_active e) "/payment.PaymentGateway/Authenticate" None (sv_auth sv) with
  | inr x => (sv, [], inr x)
  | inl _ =>
      let '(a, x) := svc_Authenticate (et_now e) (et_token e) (cl_username c) (cl_password c) (sv_auth sv) in
      (mkServices a (sv_ids sv), [], x)
  end.

(** [GetNewTransactionID]; a server that is not running answers nothing. *)
Definition serve_id (e : ether A) (sv : services) : services * list id_op * (string + code) :=
  match running (sv_ids sv) with
  | None => (sv, [], inr Unavailable)
  | Some _ =>
      let '(m, id) := issue (et_write e) (sv_ids sv) in
      (mkServices (sv_auth sv) m, [Issue (et_write e)], match id with Some x => inl x | None => inr Internal end)
  end.

(** A transfer the gateway lets through is decided by the banks. *)
Definition serve_transfer (token : string) (req : TransferRequest A) (e : ether A) (sv : services)
    : services * list id_op * (unit + code) :=
  let answer :=
    match call_TransferMoney (et_now e) (et_active e) (Some [token]) req (sv_auth sv) with
    | Ret x => x
    | _ => et_outcome e
    end in
  (sv, [], match answer with OK => inl tt | x => inr x end).

Definition serve_balance (token : string) (c : client_config) (e : ether A) (sv : services) : services * list id_op * (A + code) :=
  (sv, [],
   match authUnaryInterceptor (et_now e) (et_active e) "/payment.PaymentGateway/CheckBalance" (Some [token]) (sv_auth sv) with
   | inr x => inr x
   | inl caller =>
       match requireOwnership caller (cl_account c) with
       | inr x => inr x
       | inl _ => et_balance e
       end
   end).

(** ** The program *)

Definition registerAndAuthenticate (c : client_config) s : client_state * (string + client_error) :=
  match call (serve_register c) s with
  | (s1, inr e) => (s1, inr (CRegister e))
  | (s1, inl _) =>
      match call (serve_authenticate c) s1 with
      | (s2, inr e) => (s2, inr (CAuthenticate e))
      | (s2, inl token) => (say PAuthenticated s2, inl token)
      end
  end.

Definition newTransactionID s : client_state * (string + code) := call serve_id s.

Definition send_transfer (token : string) (req : TransferRequest A) s : client_state * (unit + code) :=
  call (serve_transfer token req)
    (mkClientState (cs_services s) (cs_queue s) (cs_in s) (cs_calls s) (cs_out s) (cs_sent s ++ [req]) (cs_idops s)).

(** [session.transfer]. *)
Definition session_transfer (c : client_config) (token : string) s : client_state :=
  let '(toAccount, i1) := prompt (cs_in s) in
  let '(toBank, i2) := prompt i1 in
  let '(amountText, i3) := prompt i2 in
  let s := set_in i3 s in
  match a_parse amountText with
  | None => say (PInvalidAmount amountText) s
  | Some amount =>
      if a_leb amount a_zero then say (PInvalidAmount amountText) s
      else
        match newTransactionID s with
        | (s, inr e) => say (PNoTransactionId e) s
        | (s, inl txnID) =>
            let req := mkTransferRequest txnID (cl_account c) toAccount (cl_bank c) toBank amount in
            match send_transfer token req s with
            | (s, inl _) => say (PSent txnID) s
            | (s, inr e) =>
                if retriable e
                then let s := say (PUndelivered txnID e) s in
                     set_queue (queue_add json_ok (et_disk (weather (cs_calls s))) req (cs_queue s)) s
                else say (PRejected txnID e) s
            end
        end
  end.

Definition checkBalance (c : client_config) (token : string) s : client_state :=
  match call (serve_balance token c) s with
  | (s, inr e) => say (PBalanceUnavailable e) s
  | (s, inl x) => say (PBalance x) s
  end.

(** [menu]: [None] when the loop has not ended after [fuel] turns. *)
Fixpoint menu (fuel : nat) (c : client_config) (token : string) s : option client_state :=
  match fuel with
  | O => None
  | S fuel =>
      match ReadString (cs_in s) with
      | (_, false, i) => Some (set_in i s)
      | (line, true, i) =>
          let s := set_in i s in
          let choice := TrimSpace line in
          if String.eqb choice "1" then menu fuel c token (session_transfer c token s)
          else if String.eqb choice "2" then menu fuel c token (checkBalance c token s)
          else if String.eqb choice "0" then Some (say PBye s)
          else if String.eqb choice "" then menu fuel c token s
          else menu fuel c token (say PUnknownOption s)
      end
  end.

(** Every turn reads a line, so that many turns and one are enough. *)
Definition menu_fuel s : nat := S (length (in_lines (cs_in s))).

(** [run].  [files] are the account files to seed with an account of [opening],
    [pending] is the queue's file as it is read, [dial_gateway] and [dial_ids] say
    whether the connections can be set up. *)
Definition client_run (c : client_config) (opening : A) (files : list (option csv_file)) (dial_gateway dial_ids : bool)
    (pending : option (list (queuedTransfer A))) s : client_state * list (option csv_file) * option client_error :=
  let row := mkAccountRow (cl_account c) (cl_username c) (cl_password c) (cl_bank c) opening in
  let '(files, seeded) := if cl_register c then seedBankAccount row files else (files, None) in
  match seeded with
  | Some e => (s, files, Some (CSeed e))
  | None =>
      if negb dial_gateway then (s, files, Some (CDial "gateway"))
      else if negb dial_ids then (s, files, Some (CDial "transaction id service"))
      else
        match registerAndAuthenticate c s with
        | (s, inr e) => (s, files, Some e)
        | (s, inl token) =>
            match pending with
            | None => (s, files, Some CQueue)
            | Some l =>
                let s := set_queue (newOfflineQueue l) s in
                (default s (menu (menu_fuel s) c token s), files, None)
            end
        end
  end.

(** ** What a session does *)

(** The transfers the client reported on, and those it said it could not
    deliver. *)
Definition reported (out : list (printed A)) : list string :=
  omap (fun p => match p with PSent id | PUndelivered id _ | PRejected id _ => Some id | _ => None end) out.
Definition undelivered (out : list (printed A)) : list string :=
  omap (fun p => match p with PUndelivered id _ => Some id | _ => None end) out.

(** A complete request that spends the client's own money. *)
Definition own_request (c : client_config) (req : TransferRequest A) : Prop :=
  FromAccount req = cl_account c /\ FromBank req = cl_bank c /\ TransactionId req <> "" /\ a_leb (trAmount req) a_zero = false.

Record session_inv (m0 : id_server) (known : list string) (c : client_config) s : Prop := {
  si_ids : sv_ids (cs_services s) = run_ids (cs_idops s) m0;
  si_sent : (TransactionId <$> cs_sent s) `sublist_of` ids_issued (cs_idops s) m0;
  si_own : Forall (own_request c) (cs_sent s);
  si_reported : reported (cs_out s) = TransactionId <$> cs_sent s;
  si_queue : account_of (cs_queue s) ≡ₚ known ++ undelivered (cs_out s);
}.

Lemma run_ids_app o1 o2 m : run_ids (o1 ++ o2) m = run_ids o2 (run_ids o1 m).
Proof. apply foldl_app. Qed.

Lemma ids_issued_app o1 o2 m : ids_issued (o1 ++ o2) m = ids_issued o1 m ++ ids_issued o2 (run_ids o1 m).
Proof.
  revert m. induction o1 as [|op o1 IH]; intros m; [done|]. simpl. destruct (do_id op m) as [m' id]. simpl.
  by rewrite IH, app_assoc.
Qed.

Lemma sweep_adds_nothing l : added (sweep_op <$> l) = [].
Proof. by induction l as [|[ok [e|]] l IH]. Qed.

Section Inv.
Context (m0 : id_server) (known : list string) (c : client_config).
Local Abbreviation inv := (session_inv m0 known c).

Lemma meanwhile_inv e s : inv s -> inv (meanwhile_done e s).
Proof.
  intros [H1 H2 H3 H4 H5]. split; simpl; [by rewrite run_ids_app, H1| |done|done|].
  - rewrite ids_issued_app. by apply sublist_inserts_r.
  - by rewrite run_queue_account, sweep_adds_nothing.
Qed.

(** A server that does to the ids what it says. *)
Definition keeps_ids {X} (serve : ether A -> services -> services * list id_op * (X + code)) : Prop :=
  forall e sv, let '(sv', ops, _) := serve e sv in sv_ids sv' = run_ids ops (sv_ids sv).

Lemma call_inv {X} (serve : ether A -> services -> services * list id_op * (X + code)) s :
  keeps_ids serve -> inv s -> inv (call serve s).1.
Proof.
  intros Hk Hs. set (e := weather (cs_calls s)). pose proof (meanwhile_inv e s Hs) as [H1 H2 H3 H4 H5].
  unfold call. fold e. pose proof (Hk e (cs_services (meanwhile_done e s))) as Hids.
  destruct (serve e (cs_services (meanwhile_done e s))) as [[sv ops] answer].
  assert (forall s', s' = mkClientState sv (cs_queue (meanwhile_done e s)) (cs_in (meanwhile_done e s)) (S (cs_calls s))
            (cs_out (meanwhile_done e s)) (cs_sent (meanwhile_done e s)) (cs_idops (meanwhile_done e s) ++ ops) -> inv s') as Hr.
  { intros s' ->. split; cbn [cs_services cs_idops cs_sent cs_out cs_queue]; [by rewrite run_ids_app, <- H1| |done..].
    rewrite ids_issued_app. by apply sublist_inserts_r. }
  destruct (et_fate e); cbn [fst]; [by split|by apply Hr..].
Qed.

Lemma call_frame {X} (serve : ether A -> services -> services * list id_op * (X + code)) s :
  cs_sent (call serve s).1 = cs_sent s /\ cs_out (call serve s).1 = cs_out s /\ cs_in (call serve s).1 = cs_in s.
Proof. unfold call. destruct (serve _ _) as [[sv ops] answer]. by destruct (et_fate _). Qed.

Lemma say_inv p s : match p with PSent _ | PUndelivered _ _ | PRejected _ _ => False | _ => True end -> inv s -> inv (say p s).
Proof.
  intros Hp [H1 H2 H3 H4 H5]. split; simpl; [done..| |]; unfold reported, undelivered in *; rewrite omap_app; destruct p;
    try done; simpl; by rewrite app_nil_r.
Qed.

Lemma set_in_inv i s : inv s -> inv (set_in i s).
Proof. intros [H1 H2 H3 H4 H5]. by split. Qed.

Lemma serve_id_keeps : keeps_ids serve_id.
Proof.
  intros e sv. unfold serve_id. destruct (running (sv_ids sv)) eqn:Hr; [|done].
  pose proof (surjective_pairing (issue (et_write e) (sv_ids sv))) as Hi.
  destruct (issue (et_write e) (sv_ids sv)) as [m id] eqn:Hm. simpl. by rewrite Hm.
Qed.

Lemma serve_register_keeps : keeps_ids (serve_register c).
Proof. intros e sv. unfold serve_register. destruct (authUnaryInterceptor _ _ _ _ _); [|done]. by destruct (svc_Register _ _ _ _ _ _ _). Qed.

Lemma serve_authenticate_keeps : keeps_ids (serve_authenticate c).
Proof. intros e sv. unfold serve_authenticate. destruct (authUnaryInterceptor _ _ _ _ _); [|done]. by destruct (svc_Authenticate _ _ _ _ _). Qed.

Lemma serve_transfer_keeps token req : keeps_ids (serve_transfer token req).
Proof. by intros e sv. Qed.

Lemma serve_balance_keeps token : keeps_ids (serve_balance token c).
Proof. by intros e sv. Qed.

(** A new id has not been used before. *)
Lemma newTransactionID_fresh s s' id :
  inv s -> newTransactionID s = (s', inl id) ->
  id <> "" /\ ((TransactionId <$> cs_sent s) ++ [id]) `sublist_of` ids_issued (cs_idops s') m0.
Proof.
  intros Hs. set (e := weather (cs_calls s)). pose proof (meanwhile_inv e s Hs) as [H1 H2 _ _ _]. unfold newTransactionID, call, serve_id. fold e.
  set (s1 := meanwhile_done e s) in *. destruct (running (sv_ids (cs_services s1))) as [k|] eqn:Hr.
  2: { by destruct (et_fate e). }
  destruct (issue (et_write e) (sv_ids (cs_services s1))) as [m o] eqn:Hi. destruct (et_fate e); try done.
  destruct o as [x|]; [|done]. intros [= <- <-]. cbn [cs_idops]. split.
  - unfold issue in Hi. rewrite Hr in Hi. destruct (et_write e); simplify_eq. done.
  - change (cs_idops s ++ et_ids e) with (cs_idops s1). rewrite ids_issued_app, <- H1. apply sublist_app; [exact H2|]. cbn [ids_issued do_id]. by rewrite Hi.
Qed.

(** A request that was sent is reported, and queued if it could not be
    delivered. *)
Lemma report_inv req p s :
  (exists e, p = PSent (TransactionId req) \/ p = PRejected (TransactionId req) e) ->
  own_request c req -> inv s ->
  ((TransactionId <$> cs_sent s) ++ [TransactionId req]) `sublist_of` ids_issued (cs_idops s) m0 ->
  inv (mkClientState (cs_services s) (cs_queue s) (cs_in s) (cs_calls s) (cs_out s ++ [p]) (cs_sent s ++ [req]) (cs_idops s)).
Proof.
  intros (e & Hp) Hown [H1 H2 H3 H4 H5] Hsub. split; simpl; [done|by rewrite fmap_app|by apply Forall_app; split; [|constructor]|..].
  - unfold reported in *. rewrite omap_app, fmap_app, H4. by destruct Hp as [->| ->].
  - unfold undelivered in *. rewrite omap_app, H5. destruct Hp as [->| ->]; simpl; by rewrite app_nil_r.
Qed.

Lemma queue_inv req e ok s :
  own_request c req -> inv s ->
  ((TransactionId <$> cs_sent s) ++ [TransactionId req]) `sublist_of` ids_issued (cs_idops s) m0 ->
  inv (mkClientState (cs_services s) (queue_add json_ok ok req (cs_queue s)) (cs_in s) (cs_calls s)
         (cs_out s ++ [PUndelivered (TransactionId req) e]) (cs_sent s ++ [req]) (cs_idops s)).
Proof.
  intros Hown [H1 H2 H3 H4 H5] Hsub. split; simpl; [done|by rewrite fmap_app|by apply Forall_app; split; [|constructor]|..].
  - unfold reported in *. by rewrite omap_app, fmap_app, H4.
  - pose proof (do_queue_account json_ok (QAdd ok req) (cs_queue s)) as Hq. cbn [do_queue] in Hq. rewrite Hq, H5.
    unfold undelivered. rewrite omap_app. simpl. rewrite app_assoc. apply Permutation_cons_append.
Qed.

(** Sending adds the request to the history and otherwise keeps what the id
    service has issued. *)
Lemma send_transfer_shape token req s s' r :
  inv s -> send_transfer token req s = (s', r) ->
  cs_sent s' = cs_sent s ++ [req] /\ cs_out s' = cs_out s /\
  inv (mkClientState (cs_services s') (cs_queue s') (cs_in s') (cs_calls s') (cs_out s') (cs_sent s) (cs_idops s')) /\
  (forall l, l `sublist_of` ids_issued (cs_idops s) m0 -> l `sublist_of` ids_issued (cs_idops s') m0).
Proof.
  intros Hs. unfold send_transfer. set (s0 := mkClientState _ _ _ _ _ _ _).
  pose proof (call_frame (serve_transfer token req) s0) as (H1 & H2 & _).
  pose proof (call_inv (serve_transfer token req) s (serve_transfer_keeps token req) Hs) as Hc.
  intros Heq. rewrite Heq in H1, H2. cbn [fst] in *. split_and!; [done|done|..].
  - revert Hc Heq. unfold call. cbn [s0 cs_calls]. set (e := weather (cs_calls s)). unfold serve_transfer. cbn zeta.
    change (cs_services (meanwhile_done e s0)) with (cs_services (meanwhile_done e s)).
    destruct (et_fate e); intros Hc [= <- _]; exact Hc.
  - intros l Hl. revert Heq. unfold call. cbn [s0 cs_calls]. set (e := weather (cs_calls s)). unfold serve_transfer. cbn zeta.
    destruct (et_fate e); intros [= <- _]; cbn [cs_idops]; rewrite ?app_nil_r, ids_issued_app; by apply sublist_inserts_r.
Qed.

Lemma session_transfer_inv token s : inv s -> inv (session_transfer c token s).
Proof.
  intros Hs. unfold session_transfer. destruct (prompt _) as [toAccount i1], (prompt _) as [toBank i2], (prompt _) as [text i3].
  apply (set_in_inv i3) in Hs. set (s0 := set_in i3 s) in *. destruct (a_parse text) as [amount|]; [|by apply say_inv].
  destruct (a_leb amount a_zero) eqn:Hamt; [by apply say_inv|].
  pose proof (call_inv serve_id s0 serve_id_keeps Hs) as Hs1. destruct (newTransactionID s0) as [s1 [id|e]] eqn:Hnew.
  2: { unfold newTransactionID in Hnew. rewrite Hnew in Hs1. by apply say_inv. }
  destruct (newTransactionID_fresh _ _ _ Hs Hnew) as [Hne Hsub]. pose proof (call_frame serve_id s0) as (Hsent & _ & _).
  unfold newTransactionID in Hnew. rewrite Hnew in Hs1, Hsent. cbn [fst] in *. rewrite <- Hsent in Hsub.
  set (req := mkTransferRequest _ _ _ _ _ _). assert (own_request c req) as Hown by done.
  destruct (send_transfer token req s1) as [s2 r] eqn:Hsend.
  destruct (send_transfer_shape _ _ _ _ _ Hs1 Hsend) as (H1 & H2 & H3 & H4). apply H4 in Hsub.
  destruct r as [[]|e]; [|destruct (retriable e)]; unfold say, set_queue; rewrite H1.
  - refine (report_inv req (PSent id) _ _ Hown H3 Hsub). exists OK. by left.
  - exact (queue_inv req e _ _ Hown H3 Hsub).
  - refine (report_inv req (PRejected id e) _ _ Hown H3 Hsub). exists e. by right.
Qed.

Lemma menu_inv fuel token s s' : menu fuel c token s = Some s' -> inv s -> inv s'.
Proof.
  revert s. induction fuel as [|fuel IH]; intros s; simpl; [done|].
  destruct (ReadString (cs_in s)) as [[line []] i]; [|intros [= <-]; apply set_in_inv]. intros Hm Hs.
  apply (set_in_inv i) in Hs. set (s0 := set_in i s) in *.
  destruct (_ =? "1")%string; [eapply IH; [exact Hm|by apply session_transfer_inv]|].
  destruct (_ =? "2")%string.
  { eapply IH; [exact Hm|]. unfold checkBalance. pose proof (call_inv _ s0 (serve_balance_keeps token) Hs) as Hb.
    destruct (call _ s0) as [s1 [x|e]]; by apply say_inv. }
  destruct (_ =? "0")%string; [injection Hm as <-; by apply say_inv|].
  destruct (_ =? "")%string; [by eapply IH|]. eapply IH; [exact Hm|by apply say_inv].
Qed.
End Inv.

(** ** The menu ends *)

Definition lines_left s : nat := length (in_lines (cs_in s)).

Lemma prompt_lines i : length (in_lines (prompt i).2) <= length (in_lines i).
Proof. unfold prompt, ReadString. destruct (in_lines i); simpl; lia. Qed.

Lemma call_lines {X} (serve : ether A -> services -> services * list id_op * (X + code)) s :
  lines_left (call serve s).1 = lines_left s.
Proof. unfold lines_left. by destruct (call_frame serve s) as (_ & _ & ->). Qed.

Lemma session_transfer_lines c token s : lines_left (session_transfer c token s) <= lines_left s.
Proof.
  unfold session_transfer. pose proof (prompt_lines (cs_in s)) as H1. destruct (prompt _) as [toAccount i1].
  pose proof (prompt_lines i1) as H2. destruct (prompt _) as [toBank i2]. pose proof (prompt_lines i2) as H3.
  destruct (prompt _) as [text i3]. cbn [snd] in *. set (s0 := set_in i3 s).
  assert (lines_left s0 <= lines_left s) by (unfold lines_left; simpl; lia).
  destruct (a_parse text) as [amount|]; [|done]. destruct (a_leb amount a_zero); [done|].
  pose proof (call_lines serve_id s0) as Hid. unfold newTransactionID. destruct (call serve_id s0) as [s1 [id|e]]; cbn [fst] in Hid.
  2: { change (lines_left s1 <= lines_left s). lia. }
  set (req := mkTransferRequest _ _ _ _ _ _). unfold send_transfer. set (s1' := mkClientState _ _ _ _ _ _ _).
  pose proof (call_lines (serve_transfer token req) s1') as Hs. destruct (call _ s1') as [s2 [u|e]]; cbn [fst] in Hs;
    [|destruct (retriable e)]; change (lines_left s2 <= lines_left s); change (lines_left s1') with (lines_left s1) in Hs; lia.
Qed.

Lemma menu_ends fuel c token s : lines_left s < fuel -> is_Some (menu fuel c token s).
Proof.
  revert s. induction fuel as [|fuel IH]; intros s Hf; [lia|]. simpl. unfold ReadString.
  destruct (in_lines (cs_in s)) as [|l rest] eqn:Hl; [by eexists|]. set (s0 := set_in _ s).
  assert (lines_left s0 < fuel) as Hs0 by (unfold lines_left in *; rewrite Hl in Hf; simpl in *; lia).
  destruct (_ =? "1")%string; [apply IH; pose proof (session_transfer_lines c token s0); lia|].
  destruct (_ =? "2")%string.
  { apply IH. unfold checkBalance. pose proof (call_lines (serve_balance token c) s0) as Hb.
    destruct (call _ s0) as [s1 [x|e]]; cbn [fst] in Hb; change (lines_left s1 < fuel); lia. }
  destruct (_ =? "0")%string; [by eexists|]. destruct (_ =? "")%string; by apply IH.
Qed.

(** ** The session as a whole *)

(** A client that has just been started. *)
Definition fresh_client (auth : authStore) (i : stdin) : client_state :=
  mkClientState (mkServices auth (mkIdServer None None)) (newOfflineQueue []) i 0 [] [] [].

Lemma login_inv m0 c s s' token :
  registerAndAuthenticate c s = (s', inl token) -> session_inv m0 [] c s -> cs_out s = [] ->
  session_inv m0 [] c s' /\ cs_out s' = [PAuthenticated].
Proof.
  unfold registerAndAuthenticate. intros Hr Hs Ho.
  pose proof (call_inv m0 [] c _ s (serve_register_keeps c) Hs) as H1. pose proof (call_frame (serve_register c) s) as (_ & F1 & _).
  destruct (call (serve_register c) s) as [s1 [[]|e]]; [|done]. cbn [fst] in *.
  pose proof (call_inv m0 [] c _ s1 (serve_authenticate_keeps c) H1) as H2. pose proof (call_frame (serve_authenticate c) s1) as (_ & F2 & _).
  destruct (call (serve_authenticate c) s1) as [s2 [t|e]]; [|done]. cbn [fst] in *. injection Hr as <- <-.
  split; [by apply say_inv|]. simpl. by rewrite F2, F1, Ho.
Qed.

Lemma queue_opened m0 c l s :
  session_inv m0 [] c s -> undelivered (cs_out s) = [] -> session_inv m0 (ids l) c (set_queue (newOfflineQueue l) s).
Proof.
  intros [H1 H2 H3 H4 H5] Hu. split; simpl; try done. rewrite Hu. unfold account_of, pending, in_sweep. simpl. by rewrite !app_nil_r.
Qed.

(** C21: A client that got through its startup, with an id service that began
    without a counter file, whose writes of the counter are whole
    (torn_write_reissues_ids) and that has done fewer than 2^63 operations: whatever
    is typed and whatever the network, the gateway and the banks do, the menu ends;
    every transfer sent from the menu in this session spends the own account of the
    client under an id used for no other of them; each is reported once, in order;
    and the queue holds or has settled exactly the transfers restored at the start
    and those reported as undelivered. *)
Theorem session_transfers_are_accounted c opening files l auth i s files' :
  client_run c opening files true true (Some l) (fresh_client auth i) = (s, files', None) ->
  (Z.of_nat (length (cs_idops s)) < int64_max)%Z -> whole_writes (cs_idops s) (mkIdServer None None) ->
  (exists token s1, menu (menu_fuel s1) c token s1 = Some s) /\
  Forall (own_request c) (cs_sent s) /\ NoDup (TransactionId <$> cs_sent s) /\
  reported (cs_out s) = TransactionId <$> cs_sent s /\
  ids (pending (cs_queue s)) ++ (endings (cs_queue s)).*1 ≡ₚ ids l ++ undelivered (cs_out s).
Proof.
  unfold client_run. destruct (if cl_register c then _ else _) as [fs [e|]]; [done|]. cbn [negb].
  destruct (registerAndAuthenticate c (fresh_client auth i)) as [s0 [token|e]] eqn:Hr; [|done].
  cbn zeta. set (s1 := set_queue (newOfflineQueue l) s0).
  destruct (menu_ends (menu_fuel s1) c token s1) as [sn Hm]; [unfold menu_fuel, lines_left; lia|].
  rewrite Hm. cbn [default]. intros [= <- _] Hlen Hw. set (m0 := mkIdServer None None) in *.
  assert (session_inv m0 [] c (fresh_client auth i)) as Hf by (split; simpl; constructor).
  destruct (login_inv m0 c _ _ _ Hr Hf eq_refl) as [Hs0 Ho].
  assert (session_inv m0 (ids l) c s1) as H1 by (apply queue_opened; [done|by rewrite Ho]).
  destruct (menu_inv m0 (ids l) c _ _ _ _ Hm H1) as [I1 I2 I3 I4 I5]. split_and!; [by exists token, s1|done| |done|exact I5].
  eapply sublist_NoDup; [|exact I2]. apply (ids_issued_above (cs_idops sn) 1 1); [|lia|done]. split; simpl; [lia|done|done|done].
Qed.

(** ** Logging in *)

(** The operation is not about the user, and the gateway keeps running. *)
Definition leaves_user (u : string) (op : auth_op) : Prop :=
  match op with
  | ARegister _ _ u' _ _ _ => u' <> u
  | ARestart _ _ => False
  | _ => True
  end.

Lemma run_auth_user ops u id st :
  Forall (leaves_user u) ops -> users st !! u = Some id -> users (run_auth ops st) !! u = Some id.
Proof.
  intros Hall. revert st. induction Hall as [|op ops Hop _ IH]; intros st Hu; [done|]. apply IH.
  destruct op as [salt ok u' p a b|n t u' p|n|salt ok]; simpl in *; [..|done].
  - unfold auth_register, save. repeat case_match; simplify_eq/=; try done; by rewrite lookup_insert_ne.
  - unfold authenticate. by repeat case_match; simplify_eq/=.
  - done.
Qed.

Lemma register_stores salt ok u p a b st st' :
  svc_Register salt ok u p a b st = (st', OK) ->
  a <> "" /\ exists hash, users st' !! u = Some (mkIdentity u hash a b).
Proof.
  unfold svc_Register. destruct (String.eqb u "" || String.eqb p "") eqn:Hup; [done|]. cbn [orb].
  destruct (String.eqb_spec a "") as [|Ha]; [done|]. unfold auth_register. rewrite Hup.
  destruct (GenerateFromPassword p salt) as [hash|]; [|done]. destruct (claimed u a (users st)); [done|].
  destruct ok; simpl; intros [= <-]. split; [done|]. exists hash. cbn [users]. apply lookup_insert_eq.
Qed.

Lemma authenticate_stores now t u p st st' token :
  svc_Authenticate now t u p st = (st', inl token) ->
  users st' = users st /\ sessions st' !! token = Some (mkAuthSession u (now + tokenTTL)%Z).
Proof.
  unfold svc_Authenticate, authenticate. destruct (users st !! u); [|done]. destruct (CompareHashAndPassword _ _); [|done].
  destruct t as [t|]; [|done]. intros [= <- <-]. cbn [users sessions]. by rewrite lookup_insert_eq.
Qed.

(** A served call whose answer came back. *)
Lemma call_answered {X} (serve : ether A -> services -> services * list id_op * (X + code)) s s' x :
  call serve s = (s', inl x) ->
  exists ops, serve (weather (cs_calls s)) (cs_services (meanwhile_done (weather (cs_calls s)) s)) = (cs_services s', ops, inl x) /\
    cs_calls s' = S (cs_calls s).
Proof.
  unfold call. destruct (serve _ _) as [[sv ops] answer]. destruct (et_fate _); try done. intros [= <- ->]. by exists ops.
Qed.

(** C22: With the token of its startup, and the gateway switched up, the gateway
    lets through every transfer the client sends until the token expires, whatever
    other users do, unless the gateway restarts or the name is registered again. *)
Theorem login_authorises_transfers c s s' token ops now req :
  registerAndAuthenticate c s = (s', inl token) ->
  Forall (leaves_user (cl_username c)) (et_auth (weather (S (cs_calls s)))) ->
  Forall (leaves_user (cl_username c)) ops -> Forall (later_op token now) ops ->
  (now <= et_now (weather (S (cs_calls s))) + tokenTTL)%Z -> own_request c req ->
  call_TransferMoney now true (Some [token]) req (run_auth ops (sv_auth (cs_services s'))) = transfer req.
Proof.
  unfold registerAndAuthenticate. intros Hr Hbetween Huser Hlater Hnow (Hfrom & _ & Hid & Hamt).
  destruct (call (serve_register c) s) as [s1 [[]|e]] eqn:H1; [|done].
  destruct (call (serve_authenticate c) s1) as [s2 [t|e]] eqn:H2; [|done]. injection Hr as <- <-. cbn [say cs_services].
  apply call_answered in H1 as (ops1 & H1 & Hc1), H2 as (ops2 & H2 & _). rewrite Hc1 in H2.
  unfold serve_register in H1. destruct (authUnaryInterceptor _ _ _ _ _); [|done].
  destruct (svc_Register _ _ _ _ _ _ _) as [a1 x1] eqn:Hreg. destruct x1; try done.
  apply register_stores in Hreg as (Hacc & hash & Hu). injection H1 as Hsv1 _.
  unfold serve_authenticate in H2. destruct (authUnaryInterceptor _ _ _ _ _); [|done].
  destruct (svc_Authenticate _ _ _ _ _) as [a2 x2] eqn:Hauth. injection H2 as Hsv2 _ ->.
  apply authenticate_stores in Hauth as [Hus Hsess]. rewrite <- Hsv2. cbn [sv_auth]. set (u := cl_username c) in *.
  assert (users a2 !! u = Some (mkIdentity u hash (cl_account c) (cl_bank c))) as Hu2.
  { rewrite Hus. cbn [cs_services meanwhile_done sv_auth]. rewrite <- Hsv1. cbn [sv_auth]. by apply run_auth_user. }
  destruct (run_auth_session ops t (mkAuthSession u (et_now (weather (S (cs_calls s))) + tokenTTL)%Z) a2 now Hlater Hnow Hsess)
    as [Hs' _]; [simpl; by rewrite Hu2|].
  apply (run_auth_user ops) in Hu2; [|done]. apply authorised_runs. split_and!; [done| |done|done].
  eexists t, [], _, _. split_and!; [done|exact Hs'|exact Hu2|done|by rewrite Hfrom|done].
Qed.

End ClientSession.

(** ** A session *)

Module SessionExample.
Import PaymentExamples AuthExamples.

Definition any_amount (x : cents) : bool := true.
Definition alice_client : client_config := mkClientConfig "alice" "secret" "alice" "ICICI" true.

(** The id service is started before the third call; the fourth finds the banks
    busy, the sixth is lost on its way. *)
Definition network (k : nat) : ether cents :=
  mkEther [] (if k =? 2 then [StartServer Written] else []) (if k =? 5 then [(true, None); (true, Some OK)] else [])
    (if k =? 5 then Lost DeadlineExceeded else Answered) (Z.of_nat k) true "" (Some "t1") true Written
    (if k =? 3 then Unavailable else OK) (inl 100000%Z).

Definition typed : stdin :=
  mkStdin ["1"; "bob"; "HDFC"; "40.00"; "1"; "bob"; "HDFC"; "lots"; "9"; "1"; " bob "; "HDFC"; "7.50"; ""; "2"] "0".

Definition session_end : client_state (A := cents) :=
  (client_run any_amount network alice_client 100000%Z [None] true true (Some []) (fresh_client empty_store typed)).1.1.

Example session_output :
  cs_out session_end =
    [PAuthenticated; PUndelivered "TXN-000001" Unavailable; PInvalidAmount "lots"; PUnknownOption;
     PUndelivered "TXN-000002" DeadlineExceeded; PBalance 100000%Z] /\
  ids (pending (cs_queue session_end)) = ["TXN-000002"] /\ endings (cs_queue session_end) = [("TXN-000001", WentThrough)].
Proof. vm_compute. auto. Qed.

Lemma session_transfers_are_accounted_witness :
  Forall (own_request alice_client) (cs_sent session_end) /\ NoDup (TransactionId <$> cs_sent session_end) /\
  reported (cs_out session_end) = TransactionId <$> cs_sent session_end.
Proof.
  destruct (session_transfers_are_accounted any_amount network alice_client 100000%Z [None] [] empty_store typed session_end
    (client_run any_amount network alice_client 100000%Z [None] true true (Some []) (fresh_client empty_store typed)).1.2)
    as (_ & H1 & H2 & H3 & _).
  - vm_compute. reflexivity.
  - vm_compute. reflexivity.
  - vm_compute. auto.
  - auto.
Defined.

Lemma login_authorises_transfers_witness :
  let '(s', r) := registerAndAuthenticate any_amount network alice_client (fresh_client empty_store typed) in
  r = inl "t1" /\
  call_TransferMoney 5 true (Some ["t1"]) forty (run_auth [ARegister "" true "bob" "x" "bob" "HDFC"; AExpire 4] (sv_auth (cs_services s')))
    = transfer forty.
Proof.
  destruct (registerAndAuthenticate any_amount network alice_client (fresh_client empty_store typed)) as [s' r] eqn:Hr.
  assert (r = inl "t1") as -> by (vm_compute in Hr; by injection Hr as _ <-). split; [reflexivity|].
  apply (login_authorises_transfers any_amount network alice_client (fresh_client empty_store typed) s' "t1"
           [ARegister "" true "bob" "x" "bob" "HDFC"; AExpire 4] 5 forty Hr).
  - constructor.
  - repeat constructor. discriminate.
  - repeat constructor. simpl. lia.
  - vm_compute. discriminate.
  - repeat split; discriminate.
Defined.

(** The client takes NaN for an amount; once it is queued the queue can no longer
    be encoded, so later transfers are not saved either. *)
Definition down (k : nat) : ether float64 :=
  mkEther [] (if k =? 2 then [StartServer Written] else []) [] Answered 0 true "" (Some "t1") true Written Unavailable (inr Unavailable).
Definition typed_nan : stdin := mkStdin ["1"; "bob"; "HDFC"; "NaN"; "1"; "bob"; "HDFC"; "1"; "0"] "".

Theorem nan_amount_stops_persistence :
  let s := (client_run json_float down alice_client (dollars "1000") [None] true true (Some []) (fresh_client empty_store typed_nan)).1.1 in
  cs_out s = [PAuthenticated; PUndelivered "TXN-000001" Unavailable; PUndelivered "TXN-000002" Unavailable; PBye] /\
  trAmount <$> cs_sent s = [SpecFloat.S754_nan; dollars "1"] /\
  ids (items (cs_queue s)) = ["TXN-000001"; "TXN-000002"] /\ queue_file (cs_queue s) = [].
Proof. vm_compute. auto. Qed.
End SessionExample.
