(* ===== verification/Flags.v ===== *)
(** * The command lines of the programs

    Go's [flag] package as the programs use it, and the [parseFlags] of the
    bank, the gateway, the id server and the client, and the flags of the
    cluster with their defaults from the environment.  How a duration is read is
    a parameter. *)

From Stdlib Require Import DecimalN DecimalFacts Decimal DecimalString.
From S2P Require Import Prelude GoText.

(** ** Integers in base 0: [strconv.ParseInt(s, 0, 64)] *)

Definition digit_value (c : Ascii.ascii) : option N :=
  if is_digit c then Some (N.of_nat (byte c - 48))
  else if between 97 122 (lower c) then Some (N.of_nat (byte (lower c) - 97 + 10)) else None.

(** Digits of a base; underscores are skipped. *)
Fixpoint based (base : N) (acc : N) (s : string) : option N :=
  match s with
  | EmptyString => Some acc
  | String c s' =>
      if Ascii.eqb c "_"%char then based base acc s'
      else d ← digit_value c; if (d <? base)%N then based base (acc * base + d)%N s' else None
  end.

(** [underscoreOK]: what was seen last is the beginning, a digit or prefix, an
    underscore, or something else. *)
Inductive saw := SBegin | SDigit | SUnderscore | SOther.
Fixpoint underscores_ok (hex : bool) (last : saw) (s : string) : bool :=
  match s with
  | EmptyString => match last with SUnderscore => false | _ => true end
  | String c s' =>
      if is_digit c || (hex && between 97 102 (lower c)) then underscores_ok hex SDigit s'
      else if Ascii.eqb c "_"%char then
        match last with SDigit => underscores_ok hex SUnderscore s' | _ => false end
      else match last with SUnderscore => false | _ => underscores_ok hex SOther s' end
  end.

(** The base a prefix gives, and the digits after it. *)
Definition base_of (s : string) : N * string :=
  match s with
  | String c0 rest =>
      if negb (Ascii.eqb c0 "0"%char) then (10%N, s)
      else match rest with
           | String c1 (String _ _ as digits) =>
               if Ascii.eqb (lower c1) "b"%char then (2%N, digits)
               else if Ascii.eqb (lower c1) "o"%char then (8%N, digits)
               else if Ascii.eqb (lower c1) "x"%char then (16%N, digits)
               else (8%N, rest)
           | _ => (8%N, rest)
           end
  | EmptyString => (10%N, s)
  end.

Definition underscoreOK (s : string) : bool :=
  match s with
  | String c0 (String c1 rest) =>
      let p := lower c1 in
      if Ascii.eqb c0 "0"%char && (Ascii.eqb p "b"%char || Ascii.eqb p "o"%char || Ascii.eqb p "x"%char)
      then underscores_ok (Ascii.eqb p "x"%char) SDigit rest
      else underscores_ok false SBegin s
  | _ => underscores_ok false SBegin s
  end.

Definition ParseInt0 (s : string) : option Z :=
  let '(neg, rest) := take_sign s in
  if String.eqb rest "" then None
  else
    let '(base, digits) := base_of rest in
    n ← based base 0 digits;
    if underscoreOK rest then signed neg n else None.

(** ** The flag package *)

Inductive flag_value := FString (s : string) | FInt (z : Z) | FBool (b : bool) | FDuration (d : Z).

Definition FlagSet : Type := gmap string flag_value.

Inductive flag_error :=
| BadSyntax (arg : string) | NotDefined (name : string) | HelpWanted | NeedsArgument (name : string)
| InvalidValue (name value : string).

(** [strconv.ParseBool]. *)
Definition ParseBool (s : string) : option bool :=
  if bool_decide (s ∈ ["1"; "t"; "T"; "true"; "TRUE"; "True"]) then Some true
  else if bool_decide (s ∈ ["0"; "f"; "F"; "false"; "FALSE"; "False"]) then Some false
  else None.

(** What an argument is: not a flag, the end of the flags, or a flag's text. *)
Inductive arg_kind := NotAFlag | Terminator | BadFlag | FlagText (text : string).
Definition classify (arg : string) : arg_kind :=
  let name (s : string) :=
    match s with
    | EmptyString => BadFlag
    | String c _ => if Ascii.eqb c "-"%char || Ascii.eqb c "="%char then BadFlag else FlagText s
    end in
  match arg with
  | String c0 (String c1 rest as s) =>
      if negb (Ascii.eqb c0 "-"%char) then NotAFlag
      else if negb (Ascii.eqb c1 "-"%char) then name s
      else if String.eqb rest "" then Terminator else name rest
  | _ => NotAFlag
  end.

Section Flags.
Variable ParseDuration : string -> option Z.

(** [Value.Set]. *)
Definition set_flag (old : flag_value) (s : string) : option flag_value :=
  match old with
  | FString _ => Some (FString s)
  | FInt _ => FInt <$> ParseInt0 s
  | FBool _ => FBool <$> ParseBool s
  | FDuration _ => FDuration <$> ParseDuration s
  end.

(** [FlagSet.Parse]: flags up to the first argument that is none. *)
Fixpoint Parse (args : list string) (fs : FlagSet) : FlagSet + flag_error :=
  match args with
  | [] => inl fs
  | arg :: rest =>
      match classify arg with
      | NotAFlag | Terminator => inl fs
      | BadFlag => inr (BadSyntax arg)
      | FlagText text =>
          let '(name, value) := match Cut "=" text with Some (n, v) => (n, Some v) | None => (text, None) end in
          match fs !! name with
          | None => inr (if bool_decide (name ∈ ["help"; "h"]) then HelpWanted else NotDefined name)
          | Some old =>
              match value, old with
              | Some v, _ =>
                  match set_flag old v with
                  | Some new => Parse rest (<[name := new]> fs)
                  | None => inr (InvalidValue name v)
                  end
              | None, FBool _ => Parse rest (<[name := FBool true]> fs)
              | None, _ =>
                  match rest with
                  | [] => inr (NeedsArgument name)
                  | v :: rest' =>
                      match set_flag old v with
                      | Some new => Parse rest' (<[name := new]> fs)
                      | None => inr (InvalidValue name v)
                      end
                  end
              end
          end
      end
  end.

(** The variable behind a flag. *)
Definition flag_string (fs : FlagSet) (name : string) : string :=
  match fs !! name with Some (FString s) => s | _ => "" end.
Definition flag_int (fs : FlagSet) (name : string) : Z :=
  match fs !! name with Some (FInt z) => z | _ => 0%Z end.
Definition flag_bool (fs : FlagSet) (name : string) : bool :=
  match fs !! name with Some (FBool b) => b | _ => false end.
Definition flag_duration (fs : FlagSet) (name : string) : Z :=
  match fs !! name with Some (FDuration d) => d | _ => 0%Z end.

(** ** The programs' flags *)

Record bank_config := mkBankConfig {
  bk_bank : string; bk_id : string; bk_peers : string; bk_port : Z; bk_gateway : string; bk_certs : string; bk_data : string }.

Definition bank_flags : FlagSet := list_to_map
  [("bank", FString "ICICI"); ("id", FString ""); ("peers", FString ""); ("port", FInt 50052);
   ("gateway", FString "localhost:50051"); ("certs", FString "certs"); ("data", FString ".")].

Definition bank_parseFlags (args : list string) : bank_config + flag_error :=
  match Parse args bank_flags with
  | inr e => inr e
  | inl fs =>
      inl (mkBankConfig (flag_string fs "bank") (flag_string fs "id") (flag_string fs "peers") (flag_int fs "port")
             (flag_string fs "gateway") (flag_string fs "certs") (flag_string fs "data"))
  end.

(** The gateway and the id server differ in their default port. *)
Record server_config := mkServerConfig { sc_port : Z; sc_certs : string; sc_data : string }.

Definition server_flags (port : Z) : FlagSet := list_to_map
  [("port", FInt port); ("certs", FString "certs"); ("data", FString ".")].

Definition server_parseFlags (port : Z) (args : list string) : server_config + flag_error :=
  match Parse args (server_flags port) with
  | inr e => inr e
  | inl fs => inl (mkServerConfig (flag_int fs "port") (flag_string fs "certs") (flag_string fs "data"))
  end.
Definition gateway_parseFlags : list string -> server_config + flag_error := server_parseFlags 50051.
Definition txnid_parseFlags : list string -> server_config + flag_error := server_parseFlags 50055.

Record client_flags_config := mkClientFlags {
  cf_username : string; cf_password : string; cf_account : string; cf_bank : string; cf_gateway : string;
  cf_txnid : string; cf_certs : string; cf_data : string; cf_register : bool; cf_replicaData : string }.

Definition client_flags : FlagSet := list_to_map
  [("username", FString "varun"); ("password", FString "varun"); ("account", FString "ACC1"); ("bank", FString "ICICI");
   ("gateway", FString "localhost:50051"); ("txnid", FString "localhost:50055"); ("certs", FString "certs");
   ("data", FString "."); ("register", FBool false); ("replica-data", FString "")].

Definition client_parseFlags (args : list string) : client_flags_config + flag_error :=
  match Parse args client_flags with
  | inr e => inr e
  | inl fs =>
      inl (mkClientFlags (flag_string fs "username") (flag_string fs "password") (flag_string fs "account")
             (flag_string fs "bank") (flag_string fs "gateway") (flag_string fs "txnid") (flag_string fs "certs")
             (flag_string fs "data") (flag_bool fs "register") (flag_string fs "replica-data"))
  end.

(** ** What parsing does *)

(** Two values of one kind. *)
Definition same_kind (a b : flag_value) : Prop :=
  match a, b with
  | FString _, FString _ | FInt _, FInt _ | FBool _, FBool _ | FDuration _, FDuration _ => True
  | _, _ => False
  end.

Lemma set_flag_kind old s new : set_flag old s = Some new -> same_kind old new.
Proof. destruct old; simpl; [by intros [= <-]|destruct (ParseInt0 s)|destruct (ParseBool s)|destruct (ParseDuration s)]; intros [= <-]; done. Qed.

(** [-name=value] sets its flag and goes on. *)
Lemma Parse_assign name v rest fs old new :
  classify ("-" +:+ name) = FlagText name -> all_chars (fun c => negb (Ascii.eqb c "="%char)) name = true ->
  fs !! name = Some old -> set_flag old v = Some new ->
  Parse (("-" +:+ name +:+ "=" +:+ v) :: rest) fs = Parse rest (<[name := new]> fs).
Proof.
  intros Hc Hn Hold Hset. cbn [Parse].
  assert (classify ("-" +:+ name +:+ "=" +:+ v) = FlagText (name +:+ "=" +:+ v)) as ->.
  { revert Hc. destruct name as [|c name]; [done|]. rewrite !str_app_cons, !str_app_nil_l. simpl.
    destruct (Ascii.eqb c "-"); simpl; [|destruct (Ascii.eqb c "="); done]. destruct (String.eqb name "") eqn:He; [done|].
    destruct name as [|c' name]; [done|]. simpl. destruct (_ || _); [done|]. intros [= _ He'].
    apply (f_equal String.length) in He'. simpl in He'. lia. }
  rewrite (str_app_cons "=" "" v), str_app_nil_l, Cut_render by done. by rewrite Hold, Hset.
Qed.

(** [-name] sets a boolean flag. *)
Lemma Parse_switch name rest fs b :
  classify ("-" +:+ name) = FlagText name -> Cut "=" name = None -> fs !! name = Some (FBool b) ->
  Parse (("-" +:+ name) :: rest) fs = Parse rest (<[name := FBool true]> fs).
Proof. intros Hc Hn Hold. cbn [Parse]. by rewrite Hc, Hn, Hold. Qed.
End Flags.

(** ** Printed integers are read back *)

Lemma digits_ok n s : all_chars is_digit s = true -> n <> SUnderscore -> underscores_ok false n s = true.
Proof.
  revert n. induction s as [|c s IH]; intros n Hs Hn; simpl in *; [by destruct n|].
  apply andb_prop in Hs as [Hc Hs]. rewrite Hc. simpl. by apply IH.
Qed.

Lemma based_step c v acc s :
  Ascii.eqb c "_" = false -> digit_value c = Some v -> (v <? 10)%N = true ->
  based 10 acc (String c s) = based 10 (acc * 10 + v) s.
Proof. intros Hc Hv Hlt. cbn [based]. rewrite Hc, Hv. simpl. by rewrite Hlt. Qed.

Lemma based_acc d p : based 10 (Npos p) (NilEmpty.string_of_uint d) = Some (Npos (Pos.of_uint_acc d p)).
Proof.
  revert p. induction d as [|d IH|d IH|d IH|d IH|d IH|d IH|d IH|d IH|d IH|d IH]; intros p; [done|..];
    cbn [NilEmpty.string_of_uint Pos.of_uint_acc];
    (erewrite based_step; [|reflexivity|vm_compute; reflexivity|reflexivity]); rewrite <- IH; f_equal; lia.
Qed.

Lemma based_digits d : based 10 0 (NilEmpty.string_of_uint d) = Some (N.of_uint d).
Proof.
  induction d as [|d IH|d IH|d IH|d IH|d IH|d IH|d IH|d IH|d IH|d IH]; [done|..]; cbn [NilEmpty.string_of_uint];
    (erewrite based_step; [|reflexivity|vm_compute; reflexivity|reflexivity]); [exact IH|apply based_acc..].
Qed.

(** A printed number starts with 0 only if it is 0. *)
Lemma to_uint_head n d : N.to_uint n = D0 d -> d = Nil.
Proof.
  intros He. assert (unorm (D0 d) = D0 d) as Hu by (rewrite <- He, <- DecimalN.Unsigned.to_of, DecimalN.Unsigned.of_to; done).
  rewrite unorm_D0 in Hu. unfold unorm in Hu. destruct (nzhead d) as [|d'|d'|d'|d'|d'|d'|d'|d'|d'|d'] eqn:Hz; try done.
  - by injection Hu as <-.
  - by apply nzhead_nonzero in Hz.
Qed.

Lemma based_fmt_N n : based (base_of (fmt_N n)).1 0 (base_of (fmt_N n)).2 = Some n.
Proof.
  unfold fmt_N, NilZero.string_of_uint. pose proof (DecimalN.Unsigned.of_to n) as Hn.
  pose proof (based_digits (N.to_uint n)) as Hb. pose proof (to_uint_head n) as Hz. revert Hn Hb Hz.
  destruct (N.to_uint n) as [|d|d|d|d|d|d|d|d|d|d]; intros Hn Hb Hz; subst n; [done| |exact Hb..].
  by rewrite (Hz d eq_refl).
Qed.

Lemma underscoreOK_digits s : all_chars is_digit s = true -> underscoreOK s = true.
Proof.
  intros Hs. unfold underscoreOK. destruct s as [|c0 [|c1 s]]; [done|by apply digits_ok|].
  assert (is_digit c1 = true) as Hc1 by (simpl in Hs; by destruct (is_digit c0), (is_digit c1)).
  assert (lower c1 = c1) as ->.
  { unfold lower, is_digit, between in *. destruct (Nat.leb_spec 65 (byte c1)); [|done]. simpl. destruct (Nat.leb_spec (byte c1) 90); [|done].
    apply andb_prop in Hc1 as [_ Hc1]. apply Nat.leb_le in Hc1. lia. }
  assert (forall x, is_digit x = false -> Ascii.eqb c1 x = false) as Hx.
  { intros x Hx. apply Ascii.eqb_neq. intros ->. congruence. }
  rewrite !Hx by (vm_compute; reflexivity). rewrite andb_false_r. by apply digits_ok.
Qed.

(** What [%d] prints, a flag reads. *)
Lemma ParseInt0_fmt_d z : in_int64 z -> ParseInt0 (fmt_d z) = Some z.
Proof.
  intros Hz. unfold ParseInt0.
  assert (forall neg n, signed neg n = Some z ->
    (if String.eqb (fmt_N n) "" then None
     else let '(base, digits) := base_of (fmt_N n) in
          k ← based base 0 digits; if underscoreOK (fmt_N n) then signed neg k else None) = Some z) as Hu.
  { intros neg n Hs. destruct (fmt_N_head n) as (c & s & Hf & _). rewrite Hf at 1. simpl String.eqb.
    pose proof (based_fmt_N n) as Hb. destruct (base_of (fmt_N n)) as [base digits]. simpl in Hb. rewrite Hb. simpl.
    by rewrite underscoreOK_digits by apply fmt_N_chars. }
  assert (forall n, take_sign (fmt_N n) = (false, fmt_N n)) as Ht
    by (intros n; rewrite <- (str_app_nil_r (fmt_N n)) at 1; rewrite take_sign_fmt_N; by rewrite str_app_nil_r).
  unfold fmt_d. destruct z as [|p|p]; [rewrite Ht; apply Hu; done|rewrite Ht; apply Hu|cbn -[fmt_N base_of signed underscoreOK String.eqb]; apply Hu];
    unfold signed; simpl; by rewrite bool_decide_true.
Qed.
