(* ===== verification/Deployment.v ===== *)
(** * Starting the processes

    cmd/cluster/main.go: the addresses of spawned node processes and the lists
    that are passed to them; internal/cluster: what [ServeNode] and [NewRemote]
    check of them; bank/main.go: the peers of a bank's group, and the loop that
    announces a new leader. *)

From S2P Require Import Prelude GoText Cluster.

(** [id=host:port], both parts there. *)
Definition parse_addr (part : string) : option (string * string) :=
  '(id, addr) ← Cut "=" part;
  if String.eqb id "" || String.eqb addr "" then None else Some (id, addr).

(** [parseAddrs] of cmd/cluster: every part must be an address. *)
Definition parseAddrs (raw : string) : option (gmap string string) :=
  if String.eqb (TrimSpace raw) "" then Some ∅
  else
    pairs ← mapM (fun part => parse_addr (TrimSpace part)) (Split "," raw);
    Some (foldl (fun m p => <[p.1 := p.2]> m) ∅ pairs).

(** [parsePeers] of the bank: empty parts are skipped. *)
Definition parsePeers (raw : string) : option (gmap string string) :=
  pairs ← mapM parse_addr (filter (fun part => part <> "") (TrimSpace <$> Split "," raw));
  Some (foldl (fun m p => <[p.1 := p.2]> m) ∅ pairs).

(** [resolveAddr], [envStr] and [envInt], given the variable's value. *)
Definition resolveAddr (addr port : string) : string :=
  if negb (String.eqb addr "") then addr else if negb (String.eqb port "") then ":" +:+ port else ":8080".
Definition envStr (value def : string) : string := if negb (String.eqb value "") then value else def.
Definition envInt (value : string) (def : Z) : Z := default def (ParseInt value).

Section Spawn.
Variable cfg : ClusterConfig.
Variable basePort : Z.

Definition indices (n : Z) : list Z := Z.of_nat <$> seq 0 (Z.to_nat n).

(** [spawnNodes]: the address of a replica, the [-peers] argument of a shard's
    processes, and the table it returns. *)
Definition node_addr (s i : Z) : string := "127.0.0.1:" +:+ fmt_d (basePort + s * NodesPerShard cfg + i).
Definition shard_pairs (s : Z) : list (string * string) :=
  (fun i => (NodeName s i, node_addr s i)) <$> indices (NodesPerShard cfg).
Definition shard_peers (s : Z) : string := Join "," ((fun p => p.1 +:+ "=" +:+ p.2) <$> shard_pairs s).
Definition spawn_addrs : gmap string string := list_to_map (indices (Shards cfg) ≫= shard_pairs).

(** [NewRemote]: the replicas of every shard with their addresses, or the first
    name without one. *)
Fixpoint remote_group (addrs : gmap string string) (names : list string) : list (string * string) + string :=
  match names with
  | [] => inl []
  | name :: rest =>
      match addrs !! name with
      | None => inr name
      | Some addr => match remote_group addrs rest with inl g => inl ((name, addr) :: g) | inr e => inr e end
      end
  end.
Fixpoint remote_groups (addrs : gmap string string) (shards : list Z) : list (list (string * string)) + string :=
  match shards with
  | [] => inl []
  | s :: rest =>
      match remote_group addrs (NodeName s <$> indices (NodesPerShard cfg)) with
      | inr e => inr e
      | inl g => match remote_groups addrs rest with inl gs => inl (g :: gs) | inr e => inr e end
      end
  end.
Definition NewRemote (addrs : gmap string string) : (list (list (string * string)) + string) + ConfigError :=
  match Validate cfg with
  | Some e => inr e
  | None => inl (remote_groups addrs (indices (Shards cfg)))
  end.

(** What [ServeNode] checks before it serves. *)
Definition ServeNode_accepts (id : string) (peers : gmap string string) : bool :=
  match ParseNode id with Some _ => bool_decide (is_Some (peers !! id)) | None => false end.
End Spawn.

(** ** bank/main.go *)

(** [run]: the replica's id, its group and its own consensus address. *)
Definition bank_group (bankName idFlag peersFlag : string) (port : Z) : option (string * gmap string string * string) :=
  let id := if String.eqb idFlag "" then bankName else idFlag in
  peers ← parsePeers peersFlag;
  let peers := if bool_decide (peers = ∅) then {[id := "localhost:" +:+ fmt_d (port + 1000)]} else peers in
  addr ← peers !! id;
  Some (id, peers, addr).

(** [watchLeadership] over the successive polls of [IsLeader]: the polls at which
    it announces. *)
Fixpoint watchLeadership (wasLeader : bool) (polls : list bool) : list bool :=
  match polls with
  | [] => []
  | isLeader :: rest => (isLeader && negb wasLeader) :: watchLeadership isLeader rest
  end.

(** [announceWithRetry]: how many calls it makes, and whether one was answered. *)
Fixpoint announce_tries (n : nat) (answers : list bool) : nat * bool :=
  match n with
  | O => (0, false)
  | S n =>
      match answers with
      | true :: _ => (1, true)
      | _ => let '(k, ok) := announce_tries n (tail answers) in (S k, ok)
      end
  end.
Definition announceWithRetry (answers : list bool) : nat * bool := announce_tries 5 answers.

(** ** What is printed is read back *)

(** A character that separates nothing. *)
Definition plain_char (c : Ascii.ascii) : bool :=
  negb (Ascii.eqb c ","%char) && negb (Ascii.eqb c "="%char) && negb (is_space c).
Definition plain_text (s : string) : Prop := s <> "" /\ all_chars plain_char s = true.
Definition plain_pair (p : string * string) : Prop := plain_text p.1 /\ plain_text p.2.

Definition render (p : string * string) : string := p.1 +:+ "=" +:+ p.2.

Lemma parse_addr_render p : plain_pair p -> parse_addr (render p) = Some p.
Proof.
  destruct p as [a b]. intros [[Ha Hac] [Hb _]]. unfold parse_addr, render. cbn [fst snd] in *.
  rewrite (str_app_cons "=" "" b), str_app_nil_l, Cut_render.
  - simpl. by rewrite (proj2 (String.eqb_neq _ _) Ha), (proj2 (String.eqb_neq _ _) Hb).
  - revert Hac. apply all_chars_impl. intros c [[_ Hc]%andb_prop _]%andb_prop. done.
Qed.

Lemma trim_no_space s : all_chars (fun c => negb (is_space c)) s = true -> TrimSpace s = s.
Proof.
  assert (forall s, all_chars (fun c => negb (is_space c)) s = true -> trim_right s = s) as Hr.
  { induction s0 as [|c s0 IH]; [done|]. simpl. intros [Hc Hs]%andb_prop. apply negb_true_iff in Hc. rewrite Hc. simpl.
    by rewrite IH. }
  intros Hs. unfold TrimSpace. destruct s as [|c s]; [done|]. cbn [trim_left].
  pose proof Hs as [Hc _]%andb_prop. apply negb_true_iff in Hc. rewrite Hc. by apply Hr.
Qed.

Lemma render_chars p :
  plain_pair p ->
  TrimSpace (render p) = render p /\ all_chars (fun c => negb (Ascii.eqb c ","%char)) (render p) = true /\ render p <> "".
Proof.
  destruct p as [a b]. intros [[Ha Hac] [_ Hbc]]. cbn [fst snd] in *. unfold render. cbn [fst snd]. split_and!.
  - apply trim_no_space. rewrite !all_chars_app. simpl. rewrite andb_true_iff.
    split; [revert Hac|revert Hbc]; apply all_chars_impl; by intros c [_ Hc]%andb_prop.
  - rewrite !all_chars_app. simpl. rewrite andb_true_iff.
    split; [revert Hac|revert Hbc]; apply all_chars_impl; by intros c [[Hc _]%andb_prop _]%andb_prop.
  - destruct a; [done|]. by rewrite str_app_cons.
Qed.

Lemma trim_rendered pairs : Forall plain_pair pairs -> TrimSpace <$> (render <$> pairs) = render <$> pairs.
Proof.
  induction 1 as [|p l Hp _ IH]; [done|]. cbn [fmap list_fmap]. f_equal; [by apply render_chars|apply IH].
Qed.

Lemma mapM_rendered pairs :
  Forall plain_pair pairs ->
  mapM parse_addr (render <$> pairs) = Some pairs /\
  mapM (fun part => parse_addr (TrimSpace part)) (render <$> pairs) = Some pairs.
Proof.
  induction 1 as [|p l Hp _ [IH1 IH2]]; [done|]. cbn [fmap list_fmap mapM].
  rewrite (proj1 (render_chars p Hp)), parse_addr_render by done. simpl. by rewrite IH1, IH2.
Qed.

Lemma filter_rendered pairs :
  Forall plain_pair pairs -> filter (fun part => part <> "") (render <$> pairs) = render <$> pairs.
Proof.
  induction 1 as [|p l Hp _ IH]; [done|]. cbn [fmap list_fmap].
  rewrite filter_cons_True by by apply render_chars. by rewrite IH.
Qed.

Section Lists.
Variable pairs : list (string * string).
Hypothesis Hne : pairs <> [].
Hypothesis Hplain : Forall plain_pair pairs.

Lemma split_rendered : Split "," (Join "," (render <$> pairs)) = render <$> pairs.
Proof.
  apply Split_Join; [by destruct pairs|]. apply Forall_fmap. eapply Forall_impl; [exact Hplain|].
  intros p Hp. by apply render_chars.
Qed.

Lemma join_not_blank : String.eqb (TrimSpace (Join "," (render <$> pairs))) "" = false.
Proof.
  apply String.eqb_neq. intros Ht.
  assert (forall s, TrimSpace s = "" -> all_chars is_space s = true) as Hall.
  { intros s. unfold TrimSpace. induction s as [|c s IH]; [done|]. simpl. destruct (is_space c) eqn:Hc; [exact IH|].
    simpl. by rewrite Hc. }
  destruct pairs as [|p l]; [done|]. inversion_clear Hplain as [|? ? Hp _].
  apply Hall in Ht. destruct Hp as [[Hp1 Hp2] _]. revert Ht.
  assert (exists rest, Join "," (render <$> p :: l) = p.1 +:+ rest) as [rest ->].
  { cbn [fmap list_fmap]. unfold render at 1. destruct (render <$> l) as [|x y]; simpl; [eauto|].
    rewrite !str_app_assoc. eauto. }
  destruct p.1 as [|c s]; [done|]. rewrite str_app_cons. simpl in *. apply andb_prop in Hp2 as [Hc _].
  apply andb_prop in Hc as [_ Hc]. apply negb_true_iff in Hc. by rewrite Hc.
Qed.

Lemma parse_rendered :
  NoDup pairs.*1 ->
  parseAddrs (Join "," (render <$> pairs)) = Some (list_to_map pairs) /\
  parsePeers (Join "," (render <$> pairs)) = Some (list_to_map pairs).
Proof.
  intros Hnd. unfold parseAddrs, parsePeers. destruct (mapM_rendered pairs Hplain) as [H1 H2].
  rewrite join_not_blank, split_rendered, trim_rendered, filter_rendered, H1, H2 by done. simpl.
  by rewrite foldl_insert_pairs, (right_id_L ∅ (∪)).
Qed.
End Lists.

(** ** Spawned nodes find each other *)

Lemma fmt_d_plain z : plain_text (fmt_d z).
Proof.
  assert (forall c, is_digit c = true -> plain_char c = true) as Hd.
  { intros c. destruct c as [[] [] [] [] [] [] [] []]; vm_compute; done. }
  assert (forall n, plain_text (fmt_N n)) as Hn.
  { intros n. destruct (fmt_N_head n) as (c & s & Hc & _). split; [by rewrite Hc|].
    apply (all_chars_impl is_digit); [done|apply fmt_N_chars]. }
  destruct z as [|p|p]; [apply Hn..|]. split; [done|]. simpl. apply (Hn (Npos p)).
Qed.

Lemma plain_app a b : plain_text a -> all_chars plain_char b = true -> plain_text (a +:+ b).
Proof.
  intros [Ha Hac] Hb. split; [destruct a; [done|]; by rewrite str_app_cons|]. by rewrite all_chars_app, Hac, Hb.
Qed.

Lemma NodeName_plain s i : plain_text (NodeName s i).
Proof.
  unfold NodeName. apply plain_app; [done|]. rewrite all_chars_app, (proj2 (fmt_d_plain s)), all_chars_app.
  by rewrite (proj2 (fmt_d_plain i)).
Qed.

Section SpawnProofs.
Variable cfg : ClusterConfig.
Variable basePort : Z.
Hypothesis Hcfg : Validate cfg = None.
Hypothesis Hport : (0 <= basePort <= 65535)%Z.

Lemma cfg_bounds : (1 <= Shards cfg <= 16 /\ 1 <= NodesPerShard cfg <= 9)%Z.
Proof.
  pose proof Hcfg as Hv. unfold Validate in Hv.
  destruct ((Shards cfg <? 1)%Z || (16 <? Shards cfg)%Z) eqn:H1; [done|].
  destruct ((NodesPerShard cfg <? 1)%Z || (9 <? NodesPerShard cfg)%Z) eqn:H2; [done|].
  apply orb_false_iff in H1 as [H1 H1']. apply orb_false_iff in H2 as [H2 H2'].
  apply Z.ltb_ge in H1, H1', H2, H2'. lia.
Qed.

Lemma elem_of_indices n x : x ∈ indices n <-> (0 <= x < n)%Z.
Proof.
  unfold indices. rewrite list_elem_of_fmap. split.
  - intros (k & -> & Hk). apply elem_of_seq in Hk. lia.
  - intros Hx. exists (Z.to_nat x). split; [lia|]. apply elem_of_seq. lia.
Qed.

Lemma NodeName_inj s i s' i' :
  (0 <= s < 16)%Z -> (0 <= i < 9)%Z -> (0 <= s' < 16)%Z -> (0 <= i' < 9)%Z ->
  NodeName s i = NodeName s' i' -> s = s' /\ i = i'.
Proof.
  intros Hs Hi Hs' Hi' He. assert (Some (s, i) = Some (s', i')) as [= -> ->]; [|done].
  rewrite <- (ParseNode_NodeName s i), <- (ParseNode_NodeName s' i'), He; unfold int64_max; try lia. done.
Qed.

Lemma shard_pairs_keys s : NoDup (shard_pairs cfg basePort s).*1 <-> NoDup (NodeName s <$> indices (NodesPerShard cfg)).
Proof. unfold shard_pairs. by rewrite <- list_fmap_compose. Qed.

Lemma indices_NoDup n : NoDup (indices n).
Proof. apply NoDup_fmap_2; [intros ? ? ?; lia|apply NoDup_seq]. Qed.

Lemma shard_pairs_NoDup s : (0 <= s < Shards cfg)%Z -> NoDup (shard_pairs cfg basePort s).*1.
Proof.
  intros Hs. apply shard_pairs_keys. pose proof cfg_bounds.
  apply NoDup_fmap_2_strong; [|apply indices_NoDup]. intros i i' Hi Hi' He.
  apply elem_of_indices in Hi, Hi'. by apply NodeName_inj in He as [_ ->]; [|lia..].
Qed.

Lemma shard_pairs_plain s : Forall plain_pair (shard_pairs cfg basePort s).
Proof.
  apply Forall_fmap, Forall_true. intros i. split; [apply NodeName_plain|].
  apply plain_app; [done|apply fmt_d_plain].
Qed.

Lemma shard_pairs_lookup s i :
  (0 <= s < Shards cfg)%Z -> (0 <= i < NodesPerShard cfg)%Z ->
  (list_to_map (shard_pairs cfg basePort s) : gmap string string) !! NodeName s i = Some (node_addr cfg basePort s i).
Proof.
  intros Hs Hi. apply elem_of_list_to_map_1; [by apply shard_pairs_NoDup|].
  apply list_elem_of_fmap. exists i. split; [done|]. by apply elem_of_indices.
Qed.

Lemma spawn_NoDup : NoDup (indices (Shards cfg) ≫= shard_pairs cfg basePort).*1.
Proof.
  pose proof cfg_bounds as Hb.
  assert (forall l, NoDup l -> (forall s, s ∈ l -> 0 <= s < Shards cfg)%Z -> NoDup (l ≫= shard_pairs cfg basePort).*1) as Hg.
  2: { apply Hg; [apply indices_NoDup|]. intros s. apply elem_of_indices. }
  induction l as [|s l IH]; intros Hnd Hin; [constructor|]. apply NoDup_cons in Hnd as [Hni Hnd].
  cbn [mbind list_bind]. rewrite fmap_app. apply NoDup_app. split_and!.
  - apply shard_pairs_NoDup, Hin. left.
  - intros k Hk Hk'. apply list_elem_of_fmap in Hk as ([? ?] & -> & Hk). apply list_elem_of_fmap in Hk as (i & [= -> ->] & Hi).
    apply list_elem_of_fmap in Hk' as ([? ?] & He & Hk'). apply list_elem_of_bind in Hk' as (s' & Hk' & Hs').
    apply list_elem_of_fmap in Hk' as (i' & [= -> ->] & Hi'). apply elem_of_indices in Hi, Hi'. simpl in He.
    assert (0 <= s < Shards cfg)%Z by (apply Hin; left). assert (0 <= s' < Shards cfg)%Z by (apply Hin; by right).
    by apply NodeName_inj in He as [-> _]; [|lia..].
  - apply IH; [done|]. intros s' Hs'. apply Hin. by right.
Qed.

Lemma spawn_lookup s i :
  (0 <= s < Shards cfg)%Z -> (0 <= i < NodesPerShard cfg)%Z ->
  spawn_addrs cfg basePort !! NodeName s i = Some (node_addr cfg basePort s i).
Proof.
  intros Hs Hi. apply elem_of_list_to_map_1; [apply spawn_NoDup|]. apply list_elem_of_bind. exists s.
  split; [|by apply elem_of_indices]. apply list_elem_of_fmap. exists i. split; [done|]. by apply elem_of_indices.
Qed.

Lemma remote_group_ok s :
  (0 <= s < Shards cfg)%Z ->
  remote_group (spawn_addrs cfg basePort) (NodeName s <$> indices (NodesPerShard cfg)) = inl (shard_pairs cfg basePort s).
Proof.
  intros Hs. unfold shard_pairs.
  assert (forall l, (forall i, i ∈ l -> 0 <= i < NodesPerShard cfg)%Z ->
            remote_group (spawn_addrs cfg basePort) (NodeName s <$> l) =
            inl ((fun i => (NodeName s i, node_addr cfg basePort s i)) <$> l)) as Hg.
  2: { apply Hg. intros i. apply elem_of_indices. }
  induction l as [|i l IH]; intros Hin; [done|]. cbn [fmap list_fmap remote_group].
  rewrite spawn_lookup; [|done|apply Hin; left]. rewrite IH; [done|]. intros i' Hi'. apply Hin. by right.
Qed.

Lemma remote_groups_ok l :
  (forall s, s ∈ l -> 0 <= s < Shards cfg)%Z ->
  remote_groups cfg (spawn_addrs cfg basePort) l = inl (shard_pairs cfg basePort <$> l).
Proof.
  induction l as [|s l IH]; intros Hin; [done|]. cbn [remote_groups fmap list_fmap].
  rewrite remote_group_ok by (apply Hin; left). rewrite IH; [done|]. intros s' Hs'. apply Hin. by right.
Qed.

(** Every node process the gateway spawns accepts its arguments and knows exactly
    its shard's replicas at the addresses they listen on, no two processes share
    an address, and the gateway reaches every replica at its address. *)
Theorem spawned_cluster_is_wired :
  (forall s, (0 <= s < Shards cfg)%Z ->
     let peers := list_to_map (shard_pairs cfg basePort s) in
     parseAddrs (shard_peers cfg basePort s) = Some peers /\
     forall i, (0 <= i < NodesPerShard cfg)%Z ->
       ServeNode_accepts (NodeName s i) peers = true /\
       peers !! NodeName s i = spawn_addrs cfg basePort !! NodeName s i) /\
  (forall s i s' i', (0 <= s < Shards cfg)%Z -> (0 <= i < NodesPerShard cfg)%Z ->
     (0 <= s' < Shards cfg)%Z -> (0 <= i' < NodesPerShard cfg)%Z ->
     node_addr cfg basePort s i = node_addr cfg basePort s' i' -> s = s' /\ i = i') /\
  NewRemote cfg (spawn_addrs cfg basePort) = inl (inl (shard_pairs cfg basePort <$> indices (Shards cfg))).
Proof.
  pose proof cfg_bounds as Hb. split_and!.
  - intros s Hs peers. split.
    + apply (parse_rendered (shard_pairs cfg basePort s)); [|apply shard_pairs_plain|by apply shard_pairs_NoDup].
      unfold shard_pairs, indices. intros Hn. apply (f_equal length) in Hn. rewrite !length_fmap, length_seq in Hn. simpl in Hn. lia.
    + intros i Hi. pose proof (shard_pairs_lookup s i Hs Hi) as Hl. fold peers in Hl. split.
      * unfold ServeNode_accepts. rewrite ParseNode_NodeName by (unfold int64_max; lia). rewrite Hl. by apply bool_decide_true.
      * by rewrite Hl, spawn_lookup.
  - intros s i s' i' Hs Hi Hs' Hi' He. unfold node_addr in He.
    assert (forall a b : string, "127.0.0.1:" +:+ a = "127.0.0.1:" +:+ b -> a = b) as Hinj
      by (intros a b; rewrite !str_app_cons, !str_app_nil_l; by intros [= ->]).
    apply Hinj in He. apply (f_equal ParseInt) in He.
    rewrite !parse_fmt_d in He by (unfold in_int64, int64_min, int64_max; nia). injection He as He.
    assert (s = s') as -> by (destruct (Z.lt_trichotomy s s') as [?|[?|?]]; nia). split; [done|lia].
  - unfold NewRemote. rewrite Hcfg, remote_groups_ok; [done|]. intros s. apply elem_of_indices.
Qed.
End SpawnProofs.

(** The two parsers of the program read every list of plain addresses the same
    way, to the table of its pairs. *)
Theorem address_lists_roundtrip pairs :
  pairs <> [] -> Forall plain_pair pairs -> NoDup pairs.*1 ->
  parseAddrs (Join "," (render <$> pairs)) = Some (list_to_map pairs) /\
  parsePeers (Join "," (render <$> pairs)) = Some (list_to_map pairs).
Proof. intros. by apply parse_rendered. Qed.

(** A replica announces itself once each time it becomes leader, with at most five
    calls, and stops at the first that is answered. *)
Theorem leaders_announce_once polls answers k ok :
  (forall i, watchLeadership false polls !! i = Some true <->
     polls !! i = Some true /\ match i with O => True | S j => polls !! j = Some false end) /\
  (announceWithRetry answers = (k, ok) -> k <= 5 /\ (ok = true -> answers !! (k - 1) = Some true)).
Proof.
  split.
  - assert (forall was i, watchLeadership was polls !! i = Some true <->
      polls !! i = Some true /\ match i with O => was = false | S j => polls !! j = Some false end) as Hg.
    { induction polls as [|p polls IH]; intros was i; [simpl; naive_solver|]. destruct i as [|i]; simpl.
      - destruct p, was; simpl; split; intros; naive_solver.
      - rewrite IH. destruct i as [|j]; simpl; [|done]. split; intros []; split; congruence. }
    intros i. rewrite Hg. destruct i; naive_solver.
  - unfold announceWithRetry. assert (forall n answers k ok, announce_tries n answers = (k, ok) ->
      k <= n /\ (ok = true -> 1 <= k /\ answers !! (k - 1) = Some true)) as Hg.
    { induction n as [|n IH]; intros l k0 ok0; simpl; [by intros [= <- <-]|].
      assert (forall k1 ok1, announce_tries n (tail l) = (k1, ok1) -> S k1 <= S n /\ (ok1 = true -> 1 <= S k1 /\ l !! (S k1 - 1) = Some true)) as Hs.
      { intros k1 ok1 E. destruct (IH _ _ _ E) as [H1 H2]. split; [lia|]. intros ->. destruct (H2 eq_refl) as [H3 H4].
        split; [lia|]. destruct l as [|x l]; [done|]. simpl in *. destruct k1; [lia|]. simpl in *. by rewrite Nat.sub_0_r in *. }
      destruct l as [|[] l]; [|intros [= <- <-]; split; [lia|done]|];
        destruct (announce_tries n _) as [k1 ok1] eqn:E; intros [= <- <-]; by apply Hs. }
    intros E. destruct (Hg _ _ _ _ E) as [H1 H2]. split; [done|]. intros Hok. by apply H2.
Qed.

Module DeploymentExamples.
Definition three_by_three : ClusterConfig := mkClusterConfig 3 3 256 DefaultTiming.

Lemma spawned_cluster_is_wired_witness :
  parseAddrs "s1n0=127.0.0.1:7103,s1n1=127.0.0.1:7104,s1n2=127.0.0.1:7105" =
    Some (list_to_map (shard_pairs three_by_three 7100 1)).
Proof.
  replace "s1n0=127.0.0.1:7103,s1n1=127.0.0.1:7104,s1n2=127.0.0.1:7105" with (shard_peers three_by_three 7100 1)
    by (vm_compute; reflexivity).
  apply (spawned_cluster_is_wired three_by_three 7100 eq_refl); [lia|]. unfold three_by_three. simpl. lia.
Defined.

Lemma address_lists_roundtrip_witness :
  parsePeers "ICICI-1=localhost:51052,ICICI-2=localhost:51062" =
    Some (list_to_map [("ICICI-1", "localhost:51052"); ("ICICI-2", "localhost:51062")]).
Proof.
  apply (address_lists_roundtrip [("ICICI-1", "localhost:51052"); ("ICICI-2", "localhost:51062")]); [done| |].
  - repeat constructor; discriminate.
  - vm_compute. repeat constructor; set_solver.
Defined.

(** A bank started without flags is a group of one. *)
Example single_member_bank :
  bank_group "ICICI" "" "" 50052 = Some ("ICICI", {["ICICI" := "localhost:51052"]}, "localhost:51052").
Proof. vm_compute. reflexivity. Qed.

(** The bank tolerates a trailing comma, the cluster does not. *)
Example trailing_comma : is_Some (parsePeers "a=b:1,") /\ parseAddrs "a=b:1," = None.
Proof. vm_compute. eauto. Qed.
End DeploymentExamples.
