(* ===== verification/Lifecycle.v ===== *)
(** * Starting and stopping a cluster

    [NewInproc] of internal/cluster/build.go, [start] and [Close] of
    internal/cluster/engine.go, the background retries and [Close] of
    internal/twopc/twopc.go, [Start] and [Stop] of internal/paxos/node.go, and
    [Register] and [Close] of internal/transport/inproc.go: the goroutines of a
    cluster in one process, and the order in which closing it makes them end.
    Each goroutine waits in its select, works, or is gone; what it does when it
    works is modelled in the files of its component.  Two kinds have no select
    and no one waits for them: the recovery a new leader starts
    ([becomeLeader]) and the catch-up a heartbeat starts ([handleCommit]).  The
    goroutines of one broadcast are part of the work of the one that waits for
    them. *)

From S2P Require Import Prelude GoText.

Inductive goroutine := Waiting | Busy | Gone.

#[export] Instance goroutine_eq_dec : EqDecision goroutine.
Proof. solve_decision. Defined.

(** [runTimers], [runApply], and whether the replica's stop channel is closed. *)
Record replica_life := mkReplicaLife { rl_stop : bool; rl_timers : goroutine; rl_apply : goroutine }.

(** How far [Engine.Close] has come. *)
Inductive closing :=
| NotClosing | AwaitWatcher | AwaitRetries | AwaitReplicas | CloseNetwork | AwaitInboxes | Closed.

#[export] Instance closing_eq_dec : EqDecision closing.
Proof. solve_decision. Defined.

(** A command that runs a transfer: it may have found the coordinator open and be
    about to start a retry. *)
Inductive transfer_life := InTransfer | StartingRetry | TransferOver.

Record life := mkLife {
  phase : closing;
  watcher : goroutine;
  retries : list goroutine;
  replicas : list replica_life;
  inboxes : list goroutine;          (* one per replica *)
  strays : list goroutine;           (* recoveries and catch-ups, [Busy] or [Gone] *)
  network : bool;                    (* open *)
  transfers : list transfer_life;
}.

(** [close(e.stop)], and the coordinator's [closed] and [stop]. *)
Definition engine_stopped (p : closing) : bool := match p with NotClosing => false | _ => true end.
Definition coordinator_closed (p : closing) : bool :=
  match p with NotClosing | AwaitWatcher => false | _ => true end.

(** [NewInproc]: [n] replicas are registered with the network and started, then
    the watcher. *)
Definition started (n : nat) : life :=
  mkLife NotClosing Waiting [] (replicate n (mkReplicaLife false Waiting Waiting)) (replicate n Waiting) [] true [].

(** A loop around a select with a stop channel and a ticker: when both are ready
    either may be taken. *)
Inductive turn (stop : bool) : goroutine -> goroutine -> Prop :=
| TurnWork : turn stop Waiting Busy
| TurnRest : turn stop Busy Waiting
| TurnStop : stop = true -> turn stop Waiting Gone.

Definition replica_gone (r : replica_life) : Prop := rl_timers r = Gone /\ rl_apply r = Gone.

#[export] Instance replica_gone_dec r : Decision (replica_gone r).
Proof. unfold replica_gone. apply _. Defined.

(** Who can start a stray: a replica whose timers campaign, an inbox that handles
    a heartbeat, and a background retry that nudges a shard into an election. *)
Definition can_start_stray (rs : list goroutine) (ns : list replica_life) (bs : list goroutine) : Prop :=
  Busy ∈ rs \/ Busy ∈ rl_timers <$> ns \/ Busy ∈ bs.

(** With [alone], nobody runs a command when [Close] is called or afterwards. *)
Inductive life_step (alone : bool) : life -> life -> Prop :=
| LWatcher p w w' rs ns bs ss net ts :
    turn (engine_stopped p) w w' ->
    life_step alone (mkLife p w rs ns bs ss net ts) (mkLife p w' rs ns bs ss net ts)
| LRetry p w rs ns bs ss net ts i g g' :
    rs !! i = Some g -> turn (coordinator_closed p) g g' ->
    life_step alone (mkLife p w rs ns bs ss net ts) (mkLife p w (<[i := g']> rs) ns bs ss net ts)
| LRetryLanded p w rs ns bs ss net ts i :
    rs !! i = Some Busy ->
    life_step alone (mkLife p w rs ns bs ss net ts) (mkLife p w (<[i := Gone]> rs) ns bs ss net ts)
| LTimers p w rs ns bs ss net ts j s g g' a :
    ns !! j = Some (mkReplicaLife s g a) -> turn s g g' ->
    life_step alone (mkLife p w rs ns bs ss net ts) (mkLife p w rs (<[j := mkReplicaLife s g' a]> ns) bs ss net ts)
| LApply p w rs ns bs ss net ts j s t g g' :
    ns !! j = Some (mkReplicaLife s t g) -> turn s g g' ->
    life_step alone (mkLife p w rs ns bs ss net ts) (mkLife p w rs (<[j := mkReplicaLife s t g']> ns) bs ss net ts)
| LInbox p w rs ns bs ss net ts j g g' :
    bs !! j = Some g -> turn (negb net) g g' ->
    life_step alone (mkLife p w rs ns bs ss net ts) (mkLife p w rs ns (<[j := g']> bs) ss net ts)
(* becomeLeader and handleCommit *)
| LStray p w rs ns bs ss net ts :
    can_start_stray rs ns bs ->
    life_step alone (mkLife p w rs ns bs ss net ts) (mkLife p w rs ns bs (ss ++ [Busy]) net ts)
| LCampaign p w rs ns bs ss net ts :
    (alone = true -> p = NotClosing) ->
    life_step alone (mkLife p w rs ns bs ss net ts) (mkLife p w rs ns bs (ss ++ [Busy]) net ts)
| LStrayEnds p w rs ns bs ss net ts i :
    ss !! i = Some Busy ->
    life_step alone (mkLife p w rs ns bs ss net ts) (mkLife p w rs ns bs (<[i := Gone]> ss) net ts)
(* Engine.Close *)
| LClose w rs ns bs ss net ts :
    (alone = true -> Forall (fun t => t = TransferOver) ts) ->
    life_step alone (mkLife NotClosing w rs ns bs ss net ts) (mkLife AwaitWatcher w rs ns bs ss net ts)
| LCloseCoordinator rs ns bs ss net ts :
    life_step alone (mkLife AwaitWatcher Gone rs ns bs ss net ts) (mkLife AwaitRetries Gone rs ns bs ss net ts)
| LStopReplicas w rs ns bs ss net ts :
    Forall (fun g => g = Gone) rs ->
    life_step alone (mkLife AwaitRetries w rs ns bs ss net ts) (mkLife AwaitReplicas w rs ns bs ss net ts)
| LStop w rs ns bs ss net ts j t a :
    ns !! j = Some (mkReplicaLife false t a) ->
    life_step alone (mkLife AwaitReplicas w rs ns bs ss net ts)
      (mkLife AwaitReplicas w rs (<[j := mkReplicaLife true t a]> ns) bs ss net ts)
| LStopped w rs ns bs ss net ts :
    Forall replica_gone ns ->
    life_step alone (mkLife AwaitReplicas w rs ns bs ss net ts) (mkLife CloseNetwork w rs ns bs ss net ts)
| LCloseNetwork w rs ns bs ss net ts :
    life_step alone (mkLife CloseNetwork w rs ns bs ss net ts) (mkLife AwaitInboxes w rs ns bs ss false ts)
| LInboxesGone w rs ns bs ss net ts :
    Forall (fun g => g = Gone) bs ->
    life_step alone (mkLife AwaitInboxes w rs ns bs ss net ts) (mkLife Closed w rs ns bs ss net ts)
(* Transfer and retryInBackground *)
| LTransfer p w rs ns bs ss net ts :
    (alone = true -> p = NotClosing) ->
    life_step alone (mkLife p w rs ns bs ss net ts) (mkLife p w rs ns bs ss net (ts ++ [InTransfer]))
| LCheckClosed p w rs ns bs ss net ts k :
    ts !! k = Some InTransfer -> coordinator_closed p = false ->
    life_step alone (mkLife p w rs ns bs ss net ts) (mkLife p w rs ns bs ss net (<[k := StartingRetry]> ts))
| LStartRetry p w rs ns bs ss net ts k :
    ts !! k = Some StartingRetry ->
    life_step alone (mkLife p w rs ns bs ss net ts) (mkLife p w (rs ++ [Waiting]) ns bs ss net (<[k := InTransfer]> ts))
| LTransferOver p w rs ns bs ss net ts k :
    ts !! k = Some InTransfer ->
    life_step alone (mkLife p w rs ns bs ss net ts) (mkLife p w rs ns bs ss net (<[k := TransferOver]> ts)).

(** ** What holds at each stage *)

Definition replica_up (r : replica_life) : Prop := rl_stop r = false /\ rl_timers r <> Gone /\ rl_apply r <> Gone.

Definition replicas_stopping (p : closing) : bool :=
  match p with AwaitReplicas | CloseNetwork | AwaitInboxes | Closed => true | _ => false end.
Definition replicas_stopped (p : closing) : bool :=
  match p with CloseNetwork | AwaitInboxes | Closed => true | _ => false end.
Definition network_open (p : closing) : bool := match p with AwaitInboxes | Closed => false | _ => true end.

Record staged (s : life) : Prop := {
  sg_transfers : engine_stopped (phase s) = true -> Forall (fun t => t = TransferOver) (transfers s);
  sg_watcher : coordinator_closed (phase s) = true -> watcher s = Gone;
  sg_retries : replicas_stopping (phase s) = true -> Forall (fun g => g = Gone) (retries s);
  sg_up : replicas_stopping (phase s) = false -> Forall replica_up (replicas s);
  sg_gone : replicas_stopped (phase s) = true -> Forall replica_gone (replicas s);
  sg_network : network s = network_open (phase s);
  sg_serving : network s = true -> Forall (fun g => g <> Gone) (inboxes s);
  sg_inboxes : phase s = Closed -> Forall (fun g => g = Gone) (inboxes s);
}.

Lemma turn_gone stop g : ~ turn stop Gone g.
Proof. by inversion 1. Qed.

Lemma turn_up g g' : turn false g g' -> g' <> Gone.
Proof. by inversion 1. Qed.

Lemma over_lookup ts k t : Forall (fun t => t = TransferOver) ts -> ts !! k = Some t -> t = TransferOver.
Proof. intros Hall Hk. by eapply Forall_lookup_1 in Hall. Qed.

(** Nothing that has ended starts again. *)
Lemma gone_turn rs i g g' stop :
  rs !! i = Some g -> turn stop g g' -> ~ Forall (fun g => g = Gone) rs.
Proof. intros Hi Ht Hall. eapply Forall_lookup_1 in Hall; [|exact Hi]. subst g. by eapply turn_gone. Qed.

Lemma replica_gone_turn ns j r stop g' :
  ns !! j = Some r -> turn stop (rl_timers r) g' \/ turn stop (rl_apply r) g' -> ~ Forall replica_gone ns.
Proof.
  intros Hj Ht Hall. eapply Forall_lookup_1 in Hall as [H1 H2]; [|exact Hj].
  destruct Ht as [Ht|Ht]; [rewrite H1 in Ht|rewrite H2 in Ht]; by eapply turn_gone.
Qed.

Lemma replica_up_turn ns j s t a t' a' :
  Forall replica_up ns -> ns !! j = Some (mkReplicaLife s t a) ->
  (t' = t \/ turn s t t') -> (a' = a \/ turn s a a') -> Forall replica_up (<[j := mkReplicaLife s t' a']> ns).
Proof.
  intros Hall Hj Ht Ha. apply Forall_insert; [done|]. eapply Forall_lookup_1 in Hall as (Hs & H1 & H2); [|exact Hj].
  simpl in *. subst s. split_and!; [done|..]; simpl.
  - destruct Ht as [->|Ht]; [done|by eapply turn_up].
  - destruct Ha as [->|Ha]; [done|by eapply turn_up].
Qed.

Lemma staged_replica p w rs ns bs ss net ts j s t a t' a' :
  staged (mkLife p w rs ns bs ss net ts) -> ns !! j = Some (mkReplicaLife s t a) ->
  (t' = t /\ turn s a a' \/ a' = a /\ turn s t t') ->
  staged (mkLife p w rs (<[j := mkReplicaLife s t' a']> ns) bs ss net ts).
Proof.
  intros [H1 H2 H3 H4 H5 H6 H7 H8] Hj Ht. simpl in *. split; simpl; [done|done|done| | |done..].
  - intros Hp. destruct Ht as [[-> Ht]|[-> Ht]]; eapply replica_up_turn; eauto.
  - intros Hp. exfalso. destruct Ht as [[_ Ht]|[_ Ht]];
      (eapply (replica_gone_turn ns j _ s); [exact Hj| |by apply H5]); simpl; eauto.
Qed.

Lemma staged_retry p w rs rs' ns bs ss net ts i :
  staged (mkLife p w rs ns bs ss net ts) -> rs !! i <> Some Gone -> is_Some (rs !! i) ->
  staged (mkLife p w rs' ns bs ss net ts).
Proof.
  intros [H1 H2 H3 H4 H5 H6 H7 H8] Hi [g Hg]. simpl in *. split; simpl; [done|done| |done..].
  intros Hp. specialize (H3 Hp). eapply Forall_lookup_1 in H3; [|exact Hg]. congruence.
Qed.

Lemma staged_transfer p w rs rs' ns bs ss net ts ts' k t :
  staged (mkLife p w rs ns bs ss net ts) -> ts !! k = Some t -> t <> TransferOver ->
  staged (mkLife p w rs' ns bs ss net ts').
Proof.
  intros [H1 H2 H3 H4 H5 H6 H7 H8] Hk Ht. simpl in *.
  assert (Hp : p = NotClosing).
  { destruct (engine_stopped p) eqn:Hp; [|by destruct p]. specialize (H1 eq_refl).
    eapply Forall_lookup_1 in H1; [|exact Hk]. done. }
  subst p. by split.
Qed.

Lemma staged_inbox p w rs ns bs ss net ts j g g' :
  staged (mkLife p w rs ns bs ss net ts) -> bs !! j = Some g -> turn (negb net) g g' ->
  staged (mkLife p w rs ns (<[j := g']> bs) ss net ts).
Proof.
  intros [H1 H2 H3 H4 H5 H6 H7 H8] Hj Ht. simpl in *. split; simpl; [done..| |].
  - intros ->. apply Forall_insert; [by apply H7|by eapply turn_up].
  - intros Hp. exfalso. exact (gone_turn _ _ _ _ _ Hj Ht (H8 Hp)).
Qed.

(** The strays are not held to anything. *)
Lemma staged_strays p w rs ns bs ss ss' net ts :
  staged (mkLife p w rs ns bs ss net ts) -> staged (mkLife p w rs ns bs ss' net ts).
Proof. by intros [H1 H2 H3 H4 H5 H6 H7 H8]. Qed.

Lemma life_step_staged s s' : life_step true s s' -> staged s -> staged s'.
Proof.
  intros Hstep Hs. pose proof Hs as [H1 H2 H3 H4 H5 H6 H7 H8].
  destruct Hstep; simpl in *; try exact (staged_strays _ _ _ _ _ _ _ _ _ Hs).
  - split; simpl; try done. intros Hp. specialize (H2 Hp). subst w. by apply turn_gone in H.
  - eapply staged_retry; [exact Hs| |by eexists]. rewrite H. intros [= ->]. by apply turn_gone in H0.
  - eapply staged_retry; [exact Hs| |by eexists]. congruence.
  - eapply staged_replica; eauto.
  - eapply staged_replica; eauto.
  - by eapply staged_inbox.
  - split; simpl; auto; done.
  - split; simpl; auto; done.
  - split; simpl; auto; done.
  - split; simpl; auto; done.
  - split; simpl; auto; done.
  - split; simpl; auto; done.
  - split; simpl; auto; done.
  - rewrite H in * by done. split; simpl; auto; done.
  - by eapply staged_transfer.
  - by eapply staged_transfer.
  - by eapply staged_transfer.
Qed.

(** ** Closing ends *)

Definition cost (g : goroutine) : nat := match g with Busy => 2 | Waiting => 1 | Gone => 0 end.
Definition replica_cost (r : replica_life) : nat := (if rl_stop r then 0 else 1) + cost (rl_timers r) + cost (rl_apply r).
Definition ahead (p : closing) : nat :=
  match p with
  | NotClosing => 6 | AwaitWatcher => 5 | AwaitRetries => 4 | AwaitReplicas => 3 | CloseNetwork => 2
  | AwaitInboxes => 1 | Closed => 0
  end.
Definition work (s : life) : nat :=
  ahead (phase s) + cost (watcher s) + sum_list_with cost (retries s) + sum_list_with replica_cost (replicas s) +
  sum_list_with cost (inboxes s).

Lemma sum_insert {A} (f : A -> nat) l i x y :
  l !! i = Some x -> sum_list_with f (<[i := y]> l) + f x = sum_list_with f l + f y.
Proof.
  revert i. induction l as [|z l IH]; intros [|i]; simpl; [done|done|intros [= ->]; lia|]. intros Hi.
  specialize (IH i Hi). lia.
Qed.

(** A goroutine told to stop can always take a turn towards its end. *)
Lemma turn_down g : g <> Gone -> exists g', turn true g g' /\ cost g' < cost g.
Proof.
  destruct g; intros Hg; [exists Gone|exists Waiting|done]; (split; [by constructor|simpl; lia]).
Qed.

Lemma not_all_gone rs : ~ Forall (fun g => g = Gone) rs -> exists i g, rs !! i = Some g /\ g <> Gone.
Proof.
  intros Hn. apply not_Forall_Exists in Hn; [|intros x; apply goroutine_eq_dec].
  apply Exists_exists in Hn as (g & Hin & Hg). apply list_elem_of_lookup in Hin as [i Hi]. eauto.
Qed.

Lemma not_all_replicas_gone ns : ~ Forall replica_gone ns -> exists j r, ns !! j = Some r /\ ~ replica_gone r.
Proof.
  intros Hn. apply not_Forall_Exists in Hn; [|intros r; apply replica_gone_dec].
  apply Exists_exists in Hn as (r & Hin & Hr). apply list_elem_of_lookup in Hin as [j Hj]. eauto.
Qed.

(** A replica that is not gone can be stopped, or take a turn towards its end. *)
Lemma replica_down alone w rs ns bs ss net ts :
  ~ Forall replica_gone ns ->
  exists ns', life_step alone (mkLife AwaitReplicas w rs ns bs ss net ts) (mkLife AwaitReplicas w rs ns' bs ss net ts) /\
    sum_list_with replica_cost ns' < sum_list_with replica_cost ns.
Proof.
  intros (j & [stop t a] & Hj & Hr)%not_all_replicas_gone. destruct stop.
  2: { eexists. split; [by eapply LStop|]. pose proof (sum_insert replica_cost ns j _ (mkReplicaLife true t a) Hj) as Hs.
       unfold replica_cost at 2 4 in Hs. simpl in Hs. lia. }
  destruct (decide (t = Gone)) as [->|Ht].
  - assert (Ha : a <> Gone) by (intros ->; by apply Hr). destruct (turn_down a Ha) as (a' & Hturn & Hlt).
    eexists. split; [by eapply LApply|]. pose proof (sum_insert replica_cost ns j _ (mkReplicaLife true Gone a') Hj) as Hs.
    unfold replica_cost at 2 4 in Hs. simpl in Hs. lia.
  - destruct (turn_down t Ht) as (t' & Hturn & Hlt).
    eexists. split; [by eapply LTimers|]. pose proof (sum_insert replica_cost ns j _ (mkReplicaLife true t' a) Hj) as Hs.
    unfold replica_cost at 2 4 in Hs. simpl in Hs. lia.
Qed.

(** So can one of several that are told to stop. *)
Lemma list_down rs :
  ~ Forall (fun g => g = Gone) rs ->
  exists i g g', rs !! i = Some g /\ turn true g g' /\ sum_list_with cost (<[i := g']> rs) < sum_list_with cost rs.
Proof.
  intros (i & g & Hi & Hg)%not_all_gone. destruct (turn_down g Hg) as (g' & Ht & Hlt). exists i, g, g'.
  pose proof (sum_insert cost rs i g g' Hi). split_and!; [done|done|lia].
Qed.

(** As long as [Close] has not returned, some step brings it closer. *)
Lemma closing_progress s :
  staged s -> phase s <> NotClosing -> phase s <> Closed ->
  exists s', life_step true s s' /\ phase s' <> NotClosing /\ work s' < work s.
Proof.
  intros Hs Hn Hc. destruct s as [p w rs ns bs ss net ts]. destruct p; simpl in *; try done.
  - destruct (decide (w = Gone)) as [->|Hw].
    + eexists. split; [apply LCloseCoordinator|]. split; [done|]. unfold work. simpl. lia.
    + destruct (turn_down w Hw) as (w' & Ht & Hlt). eexists. split; [by eapply LWatcher|]. split; [done|].
      unfold work. simpl. lia.
  - destruct (decide (Forall (fun g => g = Gone) rs)) as [Hall|Hall].
    + eexists. split; [by apply LStopReplicas|]. split; [done|]. unfold work. simpl. lia.
    + destruct (list_down rs Hall) as (i & g & g' & Hi & Ht & Hlt).
      eexists. split; [by eapply LRetry|]. split; [done|]. unfold work. simpl. lia.
  - destruct (decide (Forall replica_gone ns)) as [Hall|Hall].
    + eexists. split; [by apply LStopped|]. split; [done|]. unfold work. simpl. lia.
    + destruct (replica_down true w rs ns bs ss net ts Hall) as (ns' & Hstep & Hlt). eexists. split; [exact Hstep|].
      split; [done|]. unfold work. simpl. lia.
  - eexists. split; [apply LCloseNetwork|]. split; [done|]. unfold work. simpl. lia.
  - destruct (decide (Forall (fun g => g = Gone) bs)) as [Hall|Hall].
    + eexists. split; [by apply LInboxesGone|]. split; [done|]. unfold work. simpl. lia.
    + destruct (list_down bs Hall) as (i & g & g' & Hi & Ht & Hlt). pose proof (sg_network _ Hs) as Hnet. simpl in Hnet.
      subst net. eexists. split; [by eapply LInbox|]. split; [done|]. unfold work. simpl. lia.
Qed.

Lemma closing_completes s :
  staged s -> phase s <> NotClosing ->
  exists k s', k <= work s /\ nsteps (life_step true) k s s' /\ phase s' = Closed.
Proof.
  remember (work s) as m eqn:Hm. assert (Hle : work s <= m) by lia. clear Hm. revert s Hle.
  induction m as [|m IH]; intros s Hle Hs Hn.
  all: destruct (decide (phase s = Closed)) as [Hc|Hc]; [by exists 0, s; split_and!; [lia|constructor|]|].
  all: destruct (closing_progress s Hs Hn Hc) as (s1 & Hstep & Hn1 & Hlt); [..|].
  - lia.
  - destruct (IH s1) as (k & s' & Hk & Hrun & Hend); [lia|by eapply life_step_staged|done|].
    exists (S k), s'. split_and!; [lia|by econstructor|done].
Qed.

Lemma started_staged n : staged (started n).
Proof. split; simpl; try done; intros _; by apply Forall_replicate. Qed.

(** The loops of the cluster are over and its network is closed. *)
Definition loops_gone (s : life) : Prop :=
  watcher s = Gone /\ Forall (fun g => g = Gone) (retries s) /\ Forall replica_gone (replicas s) /\
  Forall (fun g => g = Gone) (inboxes s) /\ network s = false.

(** The strays that are still at work. *)
Definition stray_cost (g : goroutine) : nat := match g with Busy => 1 | _ => 0 end.
Definition at_large (s : life) : nat := sum_list_with stray_cost (strays s).

Lemma no_stray_starts s : loops_gone s -> ~ can_start_stray (retries s) (replicas s) (inboxes s).
Proof.
  intros (_ & Hr & Hn & Hb & _) [Hin|[Hin|Hin]].
  - rewrite Forall_forall in Hr. by specialize (Hr _ Hin).
  - apply list_elem_of_fmap in Hin as (r & Hr' & Hin). rewrite Forall_forall in Hn. destruct (Hn _ Hin). congruence.
  - rewrite Forall_forall in Hb. by specialize (Hb _ Hin).
Qed.

(** After [Close], only a stray can take a step, its last. *)
Lemma closed_step s s' :
  staged s -> phase s = Closed -> loops_gone s -> life_step true s s' ->
  loops_gone s' /\ phase s' = Closed /\ at_large s = S (at_large s').
Proof.
  intros [H1 _ _ _ _ _ _ _] Hc Hg Hstep. pose proof (no_stray_starts s Hg) as Hno.
  destruct Hg as (Hw & Hr & Hn & Hb & Hnet). destruct Hstep; simpl in *; try discriminate; subst;
    try (specialize (H1 eq_refl); eapply Forall_lookup_1 in H1; [|exact H]; discriminate);
    try (by specialize (H eq_refl)).
  - by apply turn_gone in H.
  - by apply (gone_turn _ _ _ _ _ H H0) in Hr.
  - eapply Forall_lookup_1 in Hr; [|exact H]. discriminate.
  - by apply (replica_gone_turn _ _ _ _ _ H (or_introl H0)) in Hn.
  - by apply (replica_gone_turn _ _ _ _ _ H (or_intror H0)) in Hn.
  - by apply (gone_turn _ _ _ _ _ H H0) in Hb.
  - done.
  - split_and!; try done. pose proof (sum_insert stray_cost ss i _ Gone H) as Hs. unfold at_large. simpl in *. lia.
Qed.

Lemma closed_steps k s s' :
  staged s -> phase s = Closed -> loops_gone s -> nsteps (life_step true) k s s' ->
  loops_gone s' /\ at_large s = k + at_large s'.
Proof.
  intros Hs Hc Hg Hrun. induction Hrun as [s|k s s1 s' Hstep _ IH]; [done|].
  destruct (closed_step s s1 Hs Hc Hg Hstep) as (Hg1 & Hc1 & Hn).
  destruct (IH (life_step_staged _ _ Hstep Hs) Hc1 Hg1) as [Hg' Hk]. split; [done|lia].
Qed.

(** C31: Closing a cluster nobody uses any more: when Close has returned, the
    watcher, the background retries, both loops of every replica and the inbox
    goroutines are gone, the network is closed and nothing new can start; what may
    be left are recovery and catch-up goroutines begun before, which Close neither
    signals nor awaits, and each of them can only end. A retry works only while all
    replicas run, and a replica only on an open network whose inboxes serve; and
    from every moment after Close was called it can return within a bounded number
    of turns. *)
Theorem close_ends_the_loops n s :
  rtc (life_step true) (started n) s ->
  (phase s = Closed ->
     loops_gone s /\
     forall k s', nsteps (life_step true) k s s' -> loops_gone s' /\ at_large s = k + at_large s') /\
  (Busy ∈ retries s -> Forall replica_up (replicas s)) /\
  (forall r, r ∈ replicas s -> ~ replica_gone r -> network s = true /\ Forall (fun g => g <> Gone) (inboxes s)) /\
  (phase s <> NotClosing -> exists k s', k <= work s /\ nsteps (life_step true) k s s' /\ phase s' = Closed).
Proof.
  intros Hrun. assert (Hs : staged s).
  { pose proof (started_staged n) as H0. induction Hrun; eauto using life_step_staged. }
  split; [|split; [|split]].
  - intros Hc. assert (Hg : loops_gone s).
    { destruct Hs as [_ H2 H3 _ H5 H6 _ H8]. rewrite Hc in *. by split_and!; auto. }
    split; [done|]. intros k s'. by apply closed_steps.
  - intros Hb. destruct (replicas_stopping (phase s)) eqn:Hp; [|by apply (sg_up s Hs)].
    pose proof (sg_retries s Hs Hp) as Hall. rewrite Forall_forall in Hall. by specialize (Hall _ Hb).
  - intros r Hr Hng. assert (Hnet : network s = true); [|split; [done|by apply (sg_serving s Hs)]].
    rewrite (sg_network s Hs). destruct (network_open (phase s)) eqn:Hp; [done|].
    pose proof (sg_gone s Hs) as Hall. rewrite Forall_forall in Hall.
    destruct Hng. apply Hall; [by destruct (phase s)|done].
  - intros Hn. by apply closing_completes.
Qed.

Module LifecycleExample.
(** One replica, a retry left over by a transfer in doubt, a recovery, and
    [Close]. *)
Definition idle : replica_life := mkReplicaLife false Waiting Waiting.
Definition in_doubt_then_close : life := mkLife AwaitRetries Gone [Busy] [idle] [Waiting] [Busy] true [TransferOver].

Lemma in_doubt_run : rtc (life_step true) (started 1) in_doubt_then_close.
Proof.
  eapply rtc_l; [by apply LTransfer|]. simpl. eapply rtc_l; [by apply (LCheckClosed _ _ _ _ _ _ _ _ _ 0)|]. simpl.
  eapply rtc_l; [by apply (LStartRetry _ _ _ _ _ _ _ _ _ 0)|]. simpl.
  eapply rtc_l; [by apply (LTransferOver _ _ _ _ _ _ _ _ _ 0)|]. simpl.
  eapply rtc_l; [apply LClose; intros _; by constructor|]. eapply rtc_l; [apply LWatcher, TurnStop; reflexivity|].
  eapply rtc_l; [apply LCloseCoordinator|].
  eapply rtc_l; [eapply (LRetry _ _ _ _ _ _ _ _ _ 0); [reflexivity|apply TurnWork]|]. simpl.
  eapply rtc_l; [apply LStray; left; by constructor|]. simpl. apply rtc_refl.
Qed.

Lemma close_ends_the_loops_witness :
  exists k s', k <= 10 /\ nsteps (life_step true) k in_doubt_then_close s' /\ phase s' = Closed.
Proof.
  destruct (close_ends_the_loops 1 in_doubt_then_close in_doubt_run) as (_ & _ & _ & Hclose).
  destruct (Hclose ltac:(discriminate)) as (k & s' & Hk & Hrun & Hend). exists k, s'.
  split; [|split; [exact Hrun|exact Hend]]. change (work in_doubt_then_close) with 10 in Hk. lia.
Defined.

Definition gone1 : replica_life := mkReplicaLife true Gone Gone.

(** From the moment the coordinator is closed and nothing works but strays,
    [Close] runs to its end. *)
Lemma closes_around alone ss ts :
  rtc (life_step alone) (mkLife AwaitRetries Gone [] [idle] [Waiting] ss true ts)
    (mkLife Closed Gone [] [gone1] [Gone] ss false ts).
Proof.
  eapply rtc_l; [by apply LStopReplicas|]. eapply rtc_l; [by apply (LStop _ _ _ _ _ _ _ _ 0)|]. simpl.
  eapply rtc_l; [eapply (LTimers _ _ _ _ _ _ _ _ _ 0); [reflexivity|by apply TurnStop]|]. simpl.
  eapply rtc_l; [eapply (LApply _ _ _ _ _ _ _ _ _ 0); [reflexivity|by apply TurnStop]|]. simpl.
  eapply rtc_l; [apply LStopped; repeat constructor|]. eapply rtc_l; [apply LCloseNetwork|].
  eapply rtc_l; [eapply (LInbox _ _ _ _ _ _ _ _ _ 0); [reflexivity|by apply TurnStop]|]. simpl.
  eapply rtc_l; [apply LInboxesGone; repeat constructor|]. apply rtc_refl.
Qed.

(** A replica's timers win an election and start a recovery; [Close] returns
    while the recovery is still at work. *)
Example recovery_outlives_close :
  rtc (life_step true) (started 1) (mkLife Closed Gone [] [gone1] [Gone] [Busy] false []).
Proof.
  eapply rtc_l; [eapply (LTimers _ _ _ _ _ _ _ _ _ 0); [reflexivity|apply TurnWork]|]. simpl.
  eapply rtc_l; [apply LStray; right; left; by constructor|]. simpl.
  eapply rtc_l; [eapply (LTimers _ _ _ _ _ _ _ _ _ 0); [reflexivity|apply TurnRest]|]. simpl.
  eapply rtc_l; [by apply LClose|]. eapply rtc_l; [by apply LWatcher, TurnStop|].
  eapply rtc_l; [apply LCloseCoordinator|]. apply closes_around.
Qed.

(** While a transfer runs, [Close] can return between the look at [closed] and the
    start of the retry: the retry outlives it, and calls replicas that are gone. *)
Example retry_outlives_close :
  rtc (life_step false) (started 1) (mkLife Closed Gone [Busy] [gone1] [Gone] [] false [InTransfer]).
Proof.
  eapply rtc_l; [by apply LTransfer|]. simpl. eapply rtc_l; [by apply (LCheckClosed _ _ _ _ _ _ _ _ _ 0)|]. simpl.
  eapply rtc_l; [by apply LClose|]. eapply rtc_l; [by apply LWatcher, TurnStop|].
  eapply rtc_l; [apply LCloseCoordinator|]. etransitivity; [apply closes_around|].
  eapply rtc_l; [by apply (LStartRetry _ _ _ _ _ _ _ _ _ 0)|]. simpl.
  eapply rtc_l; [eapply (LRetry _ _ _ _ _ _ _ _ _ 0); [reflexivity|apply TurnWork]|]. simpl. apply rtc_refl.
Qed.
End LifecycleExample.
