(* ===== verification/Serving.v ===== *)
(** * The HTTP surfaces

    internal/paxos/httptransport.go, over which the replicas of a bank exchange
    consensus messages, with bank/health.go's gate in front of it; and
    internal/gateway/gateway.go, which answers browsers: its options, its routes
    and the life of a connection from admission to the close of its cluster. *)

From S2P Require Import Prelude GoText PaxosTypes PaxosNode.

(** ** Consensus over HTTP *)

Section Http.
Context {H : Type} (handle : NodeID -> Message -> H -> H * Message).

(** What a peer's endpoint sees of a request: its method and, if it decodes, its
    message. *)
Record http_request := mkHttpRequest { hr_post : bool; hr_message : option Message }.

Inductive http_response := StatusOK (reply : Message) | StatusError (status : nat).

(** [Handler], behind [healthGate]. *)
Definition Handler (self : NodeID) (req : http_request) (h : H) : H * http_response :=
  if negb (hr_post req) then (h, StatusError 405)
  else match hr_message req with
       | None => (h, StatusError 400)
       | Some msg => let '(h', reply) := handle self msg h in (h', StatusOK reply)
       end.
Definition healthGate (active : bool) (self : NodeID) (req : http_request) (h : H) : H * http_response :=
  if active then Handler self req h else (h, StatusError 503).

(** What the network does with a request and its response. *)
Inductive exchange :=
| Exchanged                 (* both arrive *)
| NotSent                   (* no connection *)
| NoResponse                (* the peer handled it, the response is lost *)
| BadBody.                  (* the response does not decode *)

Inductive http_error := NoAddress (to : NodeID) | SendFailed | Returned (status : nat) | DecodeFailed.

Definition http_Send (peers : gmap NodeID string) (active : bool) (x : exchange) (to : NodeID) (msg : Message) (h : H)
    : H * (Message + http_error) :=
  match peers !! to with
  | None => (h, inr (NoAddress to))
  | Some _ =>
      let req := mkHttpRequest true (Some msg) in
      match x with
      | NotSent => (h, inr SendFailed)
      | NoResponse => ((healthGate active to req h).1, inr SendFailed)
      | Exchanged | BadBody =>
          match healthGate active to req h with
          | (h', StatusError s) => (h', inr (Returned s))
          | (h', StatusOK reply) => (h', match x with BadBody => inr DecodeFailed | _ => inl reply end)
          end
      end
  end.

(** A message is handled at most once, only by a known peer whose gate is open,
    and an answer is that peer's answer to it. *)
Theorem http_delivers_at_most_once peers active x to msg h :
  let out := http_Send peers active x to msg h in
  (out.1 = h \/ out.1 = (handle to msg h).1) /\
  (active = false \/ peers !! to = None -> out.1 = h /\ exists e, out.2 = inr e) /\
  (forall reply, out.2 = inl reply -> (out.1, reply) = handle to msg h).
Proof.
  unfold http_Send, healthGate, Handler. simpl. destruct (peers !! to) as [a|]; [|naive_solver].
  destruct (handle to msg h) as [h' r] eqn:Eh. destruct x, active; simpl; naive_solver.
Qed.
End Http.

(** ** Connections from browsers *)

(** [New]: exactly one way to get a cluster, and a default for the bound. *)
Definition maxSessions : Z := 32.
Definition gateway_New (hasNewCluster hasShared : bool) (MaxSessions : Z) : option Z :=
  if Bool.eqb (negb hasNewCluster) (negb hasShared) then None
  else Some (if (MaxSessions <=? 0)%Z then maxSessions else MaxSessions).

(** [Handler]'s routes, on a path the mux does not redirect: a pattern with GET
    also takes HEAD. *)
Inductive page := PageHealth | PageSocket | PageRoot | PageNotFound | PageMethodNotAllowed.
Definition gateway_route (method path : string) : page :=
  if negb (String.eqb method "GET" || String.eqb method "HEAD") then PageMethodNotAllowed
  else if String.eqb path "/healthz" then PageHealth
  else if String.eqb path "/ws" then PageSocket
  else if String.eqb path "/" then PageRoot else PageNotFound.

(** The pages that are text: status, whether any origin may read it, and body. *)
Definition handleHealth : nat * bool * string := (200, true, "ok").
Definition newline : string := String (Ascii.ascii_of_nat 10) "".
Definition handleRoot : nat * bool * string :=
  (200, false, "paxos-2pc payments control plane" +:+ newline +:+ newline +:+
               "this is the backend. connect a websocket to /ws" +:+ newline +:+ "health check: /healthz" +:+ newline).
Definition text_page (p : page) : option (nat * bool * string) :=
  match p with
  | PageHealth => Some handleHealth
  | PageRoot => Some handleRoot
  | PageNotFound => Some (404, false, "404 page not found" +:+ newline)
  | PageMethodNotAllowed => Some (405, false, "Method Not Allowed" +:+ newline)
  | PageSocket => None
  end.

(** A request to /ws: it has been counted and holds the count it saw, it has been
    let in, its socket is open, its session runs, or it is over. *)
Inductive ws_phase := Counted (n : Z) | LetIn | Connected | Running | Over.

(** The atomic counter, the requests so far, and the requests whose own cluster is
    open. *)
Record ws_state := mkWs { sessions_count : Z; requests : list ws_phase; clusters : gset nat }.

(** How a request ends before its session runs. *)
Inductive ws_failure := HandshakeFailed | ClusterFailed.
Definition fails_in (f : ws_failure) : ws_phase := match f with HandshakeFailed => LetIn | ClusterFailed => Connected end.

(** [handleWS] in steps, any number of requests interleaved.  A request counts
    itself, compares the count it saw, and takes itself off when it ends,
    wherever it ends.  Without a shared cluster it builds its own, which its
    session closes. *)
Inductive ws_step (shared : bool) (MaxSessions : Z) : ws_state -> ws_state -> Prop :=
| WsArrive c rs cl :
    ws_step shared MaxSessions (mkWs c rs cl) (mkWs (c + 1) (rs ++ [Counted (c + 1)]) cl)
| WsAdmit c rs cl i n :
    rs !! i = Some (Counted n) -> (n <= MaxSessions)%Z ->
    ws_step shared MaxSessions (mkWs c rs cl) (mkWs c (<[i := LetIn]> rs) cl)
| WsReject c rs cl i n :                       (* 503 *)
    rs !! i = Some (Counted n) -> (MaxSessions < n)%Z ->
    ws_step shared MaxSessions (mkWs c rs cl) (mkWs (c - 1) (<[i := Over]> rs) cl)
| WsConnect c rs cl i :
    rs !! i = Some LetIn ->
    ws_step shared MaxSessions (mkWs c rs cl) (mkWs c (<[i := Connected]> rs) cl)
| WsFail c rs cl i f :
    rs !! i = Some (fails_in f) -> (f = ClusterFailed -> shared = false) ->
    ws_step shared MaxSessions (mkWs c rs cl) (mkWs (c - 1) (<[i := Over]> rs) cl)
| WsRun c rs cl i :
    rs !! i = Some Connected ->
    ws_step shared MaxSessions (mkWs c rs cl) (mkWs c (<[i := Running]> rs) (if shared then cl else {[i]} ∪ cl))
| WsLeave c rs cl i :
    rs !! i = Some Running ->
    ws_step shared MaxSessions (mkWs c rs cl) (mkWs (c - 1) (<[i := Over]> rs) (if shared then cl else cl ∖ {[i]})).

Definition live (p : ws_phase) : bool := match p with Over => false | _ => true end.
(** Let in, or sure to be. *)
Definition entitled (m : Z) (p : ws_phase) : bool :=
  match p with Counted n => (n <=? m)%Z | Over => false | _ => true end.
Definition entered (p : ws_phase) : bool := match p with Counted _ | Over => false | _ => true end.
Definition is_running (p : ws_phase) : bool := match p with Running => true | _ => false end.

Definition count (f : ws_phase -> bool) (rs : list ws_phase) : Z := foldr (fun p n => ((if f p then 1 else 0) + n)%Z) 0%Z rs.

Lemma count_snoc f rs p : count f (rs ++ [p]) = (count f rs + (if f p then 1 else 0))%Z.
Proof. induction rs as [|q rs IH]; simpl; [lia|]. unfold count in *. simpl. rewrite IH. lia. Qed.

Lemma count_insert f rs i p q :
  rs !! i = Some p -> count f (<[i := q]> rs) = (count f rs - (if f p then 1 else 0) + (if f q then 1 else 0))%Z.
Proof.
  revert i. induction rs as [|x rs IH]; intros [|i]; simpl; [done|done|intros [= ->]; unfold count; simpl; lia|].
  intros Hi. specialize (IH i Hi). unfold count in *. simpl. rewrite IH. lia.
Qed.

Lemma count_le f g rs : (forall p, f p = true -> g p = true) -> (count f rs <= count g rs)%Z.
Proof.
  intros Hfg. induction rs as [|p rs IH]; [done|]. unfold count in *. simpl. specialize (Hfg p).
  destruct (f p), (g p); first [lia|by specialize (Hfg eq_refl)].
Qed.

Lemma entitled_live m p : entitled m p = true -> live p = true.
Proof. by destruct p. Qed.

(** The open clusters are those of the running sessions, unless one is shared. *)
Definition clusters_match (shared : bool) (rs : list ws_phase) (cl : gset nat) : Prop :=
  if shared then cl = ∅ else
    (forall i, i ∈ cl <-> rs !! i = Some Running) /\ Z.of_nat (size cl) = count is_running rs.

Record ws_ok (shared : bool) (m : Z) (s : ws_state) : Prop := {
  wo_count : sessions_count s = count live (requests s);
  wo_bound : (count (entitled m) (requests s) <= m)%Z;
  wo_clusters : clusters_match shared (requests s) (clusters s);
}.

(** A step that leaves the clusters alone and stops or starts no session. *)
Lemma ws_clusters_kept shared rs (cl : gset nat) i p q :
  rs !! i = Some p -> p <> Running -> q <> Running ->
  clusters_match shared rs cl -> clusters_match shared (<[i := q]> rs) cl.
Proof.
  intros Hi Hp Hq. destruct shared; [done|]. intros [Hin Hsz]. split.
  - intros j. rewrite Hin. destruct (decide (i = j)) as [->|Hne]; [|by rewrite list_lookup_insert_ne].
    rewrite Hi, list_lookup_insert_eq by by eapply lookup_lt_Some. split; intros [=]; congruence.
  - rewrite (count_insert _ _ _ _ _ Hi), Hsz. destruct p, q; simpl; try lia; done.
Qed.

(** Only [WsRun] and [WsLeave] start and stop sessions. *)
Lemma ws_clusters_run (shared : bool) rs (cl : gset nat) i p :
  rs !! i = Some p -> p <> Running ->
  clusters_match shared rs cl ->
  clusters_match shared (<[i := Running]> rs) (if shared then cl else {[i]} ∪ cl).
Proof.
  intros Hi Hp. destruct shared; [done|]. intros [Hin Hsz]. pose proof (lookup_lt_Some _ _ _ Hi) as Hlt. split.
  - intros j. rewrite elem_of_union, elem_of_singleton, Hin. destruct (decide (i = j)) as [->|Hne].
    + rewrite list_lookup_insert_eq by done. naive_solver.
    + rewrite list_lookup_insert_ne by done. naive_solver.
  - rewrite size_union, size_singleton, (count_insert _ _ _ _ _ Hi).
    + destruct p; simpl; first [lia|done].
    + intros j ->%elem_of_singleton Hj%Hin. congruence.
Qed.

Lemma ws_clusters_leave (shared : bool) rs (cl : gset nat) i :
  rs !! i = Some Running ->
  clusters_match shared rs cl ->
  clusters_match shared (<[i := Over]> rs) (if shared then cl else cl ∖ {[i]}).
Proof.
  intros Hi. destruct shared; [done|]. intros [Hin Hsz]. pose proof (lookup_lt_Some _ _ _ Hi) as Hlt. split.
  - intros j. rewrite elem_of_difference, elem_of_singleton, Hin. destruct (decide (i = j)) as [->|Hne].
    + rewrite list_lookup_insert_eq by done. naive_solver.
    + rewrite list_lookup_insert_ne by done. naive_solver.
  - assert (Hsub : {[i]} ⊆ cl) by by intros j ->%elem_of_singleton; apply Hin.
    pose proof (subseteq_size _ _ Hsub) as Hle. rewrite size_singleton in Hle.
    rewrite size_difference, size_singleton, (count_insert _ _ _ _ _ Hi) by done. simpl. lia.
Qed.

Lemma ws_step_ok shared m s s' : (0 < m)%Z -> ws_step shared m s s' -> ws_ok shared m s -> ws_ok shared m s'.
Proof.
  intros Hm Hstep [Hc Hb Hk]. destruct Hstep; simpl in *.
  - split; simpl.
    + rewrite count_snoc. simpl. lia.
    + rewrite count_snoc. simpl. pose proof (count_le (entitled m) live rs (entitled_live m)).
      destruct (Z.leb_spec (c + 1) m); lia.
    + destruct shared; [done|]. destruct Hk as [Hin Hsz]. split.
      * intros j. rewrite Hin, lookup_snoc_Some. split; [|by intros [[_ ?]|[_ [=]]]].
        intros Hj. left. by split; [eapply lookup_lt_Some|].
      * rewrite count_snoc. simpl. lia.
  - split; simpl; [| |by eapply ws_clusters_kept].
    + rewrite (count_insert _ _ _ _ _ H). simpl. lia.
    + rewrite (count_insert _ _ _ _ _ H). simpl. rewrite (proj2 (Z.leb_le n m)) by done. lia.
  - split; simpl; [| |by eapply ws_clusters_kept].
    + rewrite (count_insert _ _ _ _ _ H). simpl. lia.
    + rewrite (count_insert _ _ _ _ _ H). simpl. case_match; lia.
  - split; simpl; [| |by eapply ws_clusters_kept].
    + rewrite (count_insert _ _ _ _ _ H). simpl. lia.
    + rewrite (count_insert _ _ _ _ _ H). simpl. lia.
  - split; simpl; [| |by eapply ws_clusters_kept; [done|destruct f..|]].
    + rewrite (count_insert _ _ _ _ _ H). destruct f; simpl; lia.
    + rewrite (count_insert _ _ _ _ _ H). destruct f; simpl; lia.
  - split; simpl; [| |by eapply ws_clusters_run].
    + rewrite (count_insert _ _ _ _ _ H). simpl. lia.
    + rewrite (count_insert _ _ _ _ _ H). simpl. lia.
  - split; simpl; [| |by eapply ws_clusters_leave].
    + rewrite (count_insert _ _ _ _ _ H). simpl. lia.
    + rewrite (count_insert _ _ _ _ _ H). simpl. lia.
Qed.

(** C38: However many browsers connect, leave, are turned away or fail half way,
    and however their requests interleave, at most the bound [New] settles on are
    let in at once; the counter is the number of requests under way, so it is
    zero again when they are over and no failure loses a place; a private cluster
    is open exactly while its session runs, so no more are open than the bound;
    and a shared cluster is never duplicated. *)
Theorem connections_release_clusters hasNew hasShared opt m s :
  gateway_New hasNew hasShared opt = Some m ->
  rtc (ws_step hasShared m) (mkWs 0 [] ∅) s ->
  (count entered (requests s) <= m)%Z /\
  sessions_count s = count live (requests s) /\
  (hasShared = false -> forall i, i ∈ clusters s <-> requests s !! i = Some Running) /\
  (hasShared = true -> clusters s = ∅) /\
  (Z.of_nat (size (clusters s)) <= m)%Z.
Proof.
  intros Hnew Hrun. assert (Hm : (0 < m)%Z).
  { unfold gateway_New, maxSessions in Hnew. repeat case_match; simplify_eq; lia. }
  assert (Hok : ws_ok hasShared m s).
  { assert (Hi : ws_ok hasShared m (mkWs 0 [] ∅)).
    { split; [done|unfold count; simpl; lia|destruct hasShared; [done|split; [set_solver|done]]]. }
    clear Hnew. induction Hrun; eauto using ws_step_ok. }
  destruct Hok as [Hc Hb Hk].
  assert (Hin : forall f, (forall p, f p = true -> entitled m p = true) -> (count f (requests s) <= m)%Z).
  { intros f Hf. pose proof (count_le f _ (requests s) Hf). lia. }
  split; [apply Hin; by intros []|]. split; [done|]. destruct hasShared.
  - split; [done|]. split; [done|]. rewrite Hk, size_empty. lia.
  - destruct Hk as [Hkin Hksz]. split; [done|]. split; [done|]. rewrite Hksz. apply Hin. by intros [].
Qed.

Module ServingExample.
(** Two browsers, room for one: the second is turned away, the first gets its
    cluster, and the place is free again when it leaves. *)
Definition busy : ws_state := mkWs 1 [Running; Over] {[0]}.

Lemma busy_run : rtc (ws_step false 1) (mkWs 0 [] ∅) busy.
Proof.
  eapply rtc_l; [apply WsArrive|]. eapply rtc_l; [apply WsArrive|]. simpl.
  eapply rtc_l; [apply (WsReject _ _ _ _ _ 1 2); [done|lia]|]. simpl.
  eapply rtc_l; [apply (WsAdmit _ _ _ _ _ 0 1); [done|lia]|]. simpl.
  eapply rtc_l; [by apply (WsConnect _ _ _ _ _ 0)|]. simpl.
  eapply rtc_l; [by apply (WsRun _ _ _ _ _ 0)|]. simpl. rewrite union_empty_r_L. apply rtc_refl.
Qed.

Lemma connections_release_clusters_witness :
  gateway_New true false 1 = Some 1%Z /\ rtc (ws_step false 1) (mkWs 0 [] ∅) busy /\
  (count entered (requests busy) <= 1)%Z /\ (0 ∈ clusters busy <-> requests busy !! 0 = Some Running).
Proof.
  pose proof (connections_release_clusters true false 1 1 busy eq_refl busy_run) as (Hn & _ & Hc & _).
  split; [reflexivity|]. split; [exact busy_run|]. split; [exact Hn|exact (Hc eq_refl 0)].
Defined.

Example routes :
  gateway_route "GET" "/healthz" = PageHealth /\ gateway_route "POST" "/ws" = PageMethodNotAllowed /\
  text_page (gateway_route "GET" "/favicon.ico") = text_page PageNotFound.
Proof. done. Qed.
End ServingExample.
