(* ===== verification/Outage.v ===== *)
(** * Simulated outages

    bank/health.go and the switch of gateway/service.go: an operator types "down"
    or "up" at the console of a process.  The switch gates what the process is
    asked, so this file also shows what it does to consensus: the ticks of
    [runTimers] of paxos/node.go at any replica, heartbeat rounds and campaigns
    over paxos/httptransport.go with every replica behind its gate, are composed
    from the operations of the earlier files. *)

From S2P Require Import Prelude GoText PaxosTypes PaxosLog PaxosNode Serving.

(** ** The switch *)

Definition newHealth : bool := true.
Definition health_check (active : bool) : option nat := if active then None else Some 503.

Inductive health_note := NowDown | NowUp | UnknownCommand.

(** A line typed at the console: the switch after it, and what is logged. *)
Definition console_line (line : string) (active : bool) : bool * list health_note :=
  let w := ToLower (TrimSpace line) in
  if String.eqb w "down" then (false, [NowDown])
  else if String.eqb w "up" then (true, [NowUp])
  else if String.eqb w "" then (active, [])
  else (active, [UnknownCommand]).

(** [watchConsole] reads lines until its input ends. *)
Fixpoint watchConsole (lines : list string) (active : bool) : bool * list health_note :=
  match lines with
  | [] => (active, [])
  | l :: rest =>
      let '(a, notes) := console_line l active in
      let '(a', notes') := watchConsole rest a in (a', notes ++ notes')
  end.

(** What a line asks for, if anything. *)
Definition asks (line : string) : option bool :=
  let w := ToLower (TrimSpace line) in
  if String.eqb w "down" then Some false else if String.eqb w "up" then Some true else None.

(** The last line that asks for something decides, whatever surrounds it. *)
Lemma watchConsole_last lines active :
  (watchConsole lines active).1 = default active (last (omap asks lines)).
Proof.
  revert active. induction lines as [|l lines IH]; intros active; [done|]. csimpl.
  assert (Hl : (console_line l active).1 = default active (asks l)).
  { unfold console_line, asks. by repeat case_match. }
  destruct (console_line l active) as [a notes]. specialize (IH a).
  destruct (watchConsole lines a) as [a' notes']. simpl in *. rewrite IH, Hl.
  destruct (asks l) as [b|]; [|done]. rewrite last_cons. by destruct (last _).
Qed.

(** ** Timers of gated replicas *)

Section Group.
Context {S R : Type} {SM : StateMachine S R}.

Notation group := (gmap NodeID (Node S R)).

(** What holds around one round: clocks and disks, the addresses the replicas were
    given, their switches, and what the network does from one to another. *)
Record around := mkAround {
  a_env : NodeID -> env;
  a_peers : gmap NodeID string;
  a_up : NodeID -> bool;
  a_net : NodeID -> NodeID -> exchange;
}.

(** A replica's [Handle]; a request for a catch-up it starts is set aside. *)
Definition serve_node (w : around) (to : NodeID) (msg : Message) (g : group) : group * Message :=
  match g !! to with
  | Some n => let '(n', r, _) := Handle (a_env w to) msg n in (<[to := n']> g, r)
  | None => (g, blankMessage (mKind msg) to)
  end.

(** The same with [catchUp], which runs beside the reply, run to its end. *)
Definition serve_peer (w : around) (to : NodeID) (msg : Message) (g : group) : group * Message :=
  match g !! to with
  | Some n =>
      let '(n', r, fetch) := Handle (a_env w to) msg n in
      let g1 := <[to := n']> g in
      (match fetch with
       | None => g1
       | Some (from, first, commitIndex) =>
           let '(g2, answer) :=
             http_Send (serve_node w) (a_peers w) (a_up w from) (a_net w to from) from (catchUpRequest first n') g1 in
           let reply := match answer with inl r => Some r | inr _ => None end in
           alter (catchUp_finish (a_env w to) first commitIndex reply) to g2
       end, r)
  | None => (g, blankMessage (mKind msg) to)
  end.

(** [broadcast]: the sends run side by side; [targets] is the order they finish in. *)
Fixpoint broadcast_http (w : around) (from : NodeID) (targets : list NodeID) (msg : Message) (g : group)
    : group * list Message :=
  match targets with
  | [] => (g, [])
  | to :: rest =>
      let '(g1, answer) := http_Send (serve_peer w) (a_peers w) (a_up w to) (a_net w from to) to msg g in
      let '(g2, replies) := broadcast_http w from rest msg g1 in
      (g2, match answer with inl r => r :: replies | inr _ => replies end)
  end.

(** [broadcastCommit]. *)
Definition heartbeat (w : around) (l : NodeID) (order : list NodeID) (n : Node S R) (g : group) : group :=
  let req := commitRequest n in
  let '(g1, replies) := broadcast_http w l order req g in
  alter (broadcastCommit_finish (a_env w l) (mBallot req) replies) l g1.

(** [campaign]: the probe, then PREPARE.  The recovery of a winner runs after it,
    on its own. *)
Definition campaign_http (w : around) (c : NodeID) (order : list NodeID) (g : group) : group :=
  match g !! c ≫= campaign_begin with
  | None => g
  | Some n =>
      let '(g1, probe) := broadcast_http w c order (pingRequest n) (<[c := n]> g) in
      match g1 !! c with
      | None => g1
      | Some n1 =>
          let '(n2, out) := campaign_prepare (a_env w c) probe n1 in
          let g2 := <[c := n2]> g1 in
          match out with
          | None => g2
          | Some (req, first) =>
              let '(g3, replies) := broadcast_http w c order req g2 in
              alter (fun n3 => (campaign_finish (a_env w c) (mBallot req) first replies n3).1) c g3
          end
      end
  end.

(** A tick of [runTimers] at replica [t_who]; its messages finish in [t_order]. *)
Record timer_event := mkTimer { t_around : around; t_who : NodeID; t_order : list NodeID }.

Definition timer_tick (g : group) (ev : timer_event) : group :=
  match g !! t_who ev with
  | None => g
  | Some n =>
      match tick (a_env (t_around ev) (t_who ev)) n with
      | TickHeartbeat => heartbeat (t_around ev) (t_who ev) (t_order ev) n g
      | TickCampaign => campaign_http (t_around ev) (t_who ev) (t_order ev) g
      | TickNothing => g
      end
  end.

(** *** One message *)

(** A replica that has taken a heartbeat of [l]. *)
Record followed (e : env) (l : NodeID) (m m' : Node S R) : Prop := {
  fo_role : role m' = Follower;
  fo_leader : leader m' = l;
  fo_timer : electionAt m' = (now e + (ElectionTimeout (cfg m) + jitter e))%Z;
  fo_log : log m' = log m;
  fo_cfg : cfg m' = cfg m;
}.

Lemma gate_closed {H} (handle : NodeID -> Message -> H -> H * Message) peers x to msg h :
  let out := http_Send handle peers false x to msg h in
  out.1 = h /\ exists e, out.2 = inr e.
Proof. unfold http_Send, healthGate. destruct (peers !! to), x; simpl; eauto. Qed.

(** While the leader's gate is closed, an open peer takes its heartbeat and changes
    nothing else: the catch-up it may start is refused. *)
Lemma serve_heartbeat w l p msg m g :
  g !! p = Some m -> a_up w l = false -> mKind msg = KindCommit -> mFrom msg = l ->
  Less (mBallot msg) (Promised m) = false ->
  exists m' r, serve_peer w p msg g = (<[p := m']> g, r) /\ mOK r = true /\ followed (a_env w p) l m m'.
Proof.
  intros Hg Hup Hk Hf Hb. unfold serve_peer, Handle, handleCommit. rewrite Hg, Hk, Hb, Hf. simpl.
  destruct (_ && _); [|by eexists _, _; repeat split].
  rewrite Hup. pose proof (gate_closed (serve_node w) (a_peers w) (a_net w p l) l
    (catchUpRequest (u64 (appliedIndex m + 1)) (with_catchingUp true (follow (a_env w p) l m)))
    (<[p := with_catchingUp true (follow (a_env w p) l m)]> g)) as [Hg1 [err Herr]].
  destruct (http_Send _ _ _ _ _ _ _) as [g2 a]. simpl in Hg1, Herr. subst g2 a.
  rewrite alter_insert_eq. eexists _, _. by repeat split.
Qed.

(** *** One round *)

(** The leader has the peer's address and the network works between them; the peer
    has made no promise above the leader's ballot. *)
Definition connected (w : around) (l p : NodeID) : Prop := is_Some (a_peers w !! p) /\ a_net w l p = Exchanged.
Definition loyal (b : Ballot) (g : group) (p : NodeID) : Prop :=
  exists m, g !! p = Some m /\ Less b (Promised m) = false.
Definition reachable (w : around) (l : NodeID) (b : Ballot) (g : group) (p : NodeID) : Prop :=
  connected w l p /\ loyal b g p.

Lemma send_heartbeat w l p msg g :
  a_up w l = false -> mKind msg = KindCommit -> mFrom msg = l ->
  (a_up w p = true -> reachable w l (mBallot msg) g p) ->
  exists g1 a, http_Send (serve_peer w) (a_peers w) (a_up w p) (a_net w l p) p msg g = (g1, a) /\
    if a_up w p
    then exists m m' r, g !! p = Some m /\ g1 = <[p := m']> g /\ a = inl r /\ mOK r = true /\ followed (a_env w p) l m m'
    else g1 = g /\ exists e, a = inr e.
Proof.
  intros Hl Hk Hf Hr. destruct (a_up w p) eqn:Hup.
  - destruct (Hr eq_refl) as ([[a Ha] Hn] & m & Hm & Hb).
    destruct (serve_heartbeat w l p msg m g Hm Hl Hk Hf Hb) as (m' & r & Hs & Hok & Hfo).
    eexists _, _. unfold http_Send, healthGate, Handler. rewrite Ha, Hn. simpl. rewrite Hs. split; [done|]. naive_solver.
  - pose proof (gate_closed (serve_peer w) (a_peers w) (a_net w l p) p msg g) as [H1 H2].
    destruct (http_Send _ _ _ _ _ _ _) as [g1 a]. simpl in *. eauto.
Qed.

Lemma broadcast_heartbeat w l msg targets g :
  NoDup targets -> a_up w l = false -> mKind msg = KindCommit -> mFrom msg = l ->
  (forall p, p ∈ targets -> a_up w p = true -> reachable w l (mBallot msg) g p) ->
  let '(g', rs) := broadcast_http w l targets msg g in
  Forall (fun r => mOK r = true) rs /\ length rs = length (filter (fun p => a_up w p = true) targets) /\
  (forall q, q ∉ targets \/ a_up w q = false -> g' !! q = g !! q) /\
  (forall p, p ∈ targets -> a_up w p = true ->
     exists m m', g !! p = Some m /\ g' !! p = Some m' /\ followed (a_env w p) l m m').
Proof.
  intros Hnd Hl Hk Hf. revert g. induction Hnd as [|p targets Hp _ IH]; intros g Hr; simpl.
  { repeat split; [by constructor|set_solver]. }
  destruct (send_heartbeat w l p msg g Hl Hk Hf) as (g1 & a & -> & Hcase); [apply Hr; set_solver|].
  assert (Hsame : forall q, q <> p -> g1 !! q = g !! q).
  { intros q Hq. destruct (a_up w p); [|by destruct Hcase as [-> _]].
    destruct Hcase as (m & m' & r & _ & -> & _). by rewrite lookup_insert_ne. }
  specialize (IH g1). destruct (broadcast_http w l targets msg g1) as [g2 rs].
  destruct IH as (Hok & Hlen & Hout & Hin).
  { intros q Hq Hu. destruct (Hr q) as [? ?]; [set_solver|done|].
    unfold reachable, loyal. by rewrite Hsame by set_solver. }
  rewrite filter_cons. destruct (a_up w p) eqn:Hup.
  - destruct Hcase as (m & m' & r & Hm & -> & -> & Hr1 & Hfo).
    rewrite decide_True by done. split; [by constructor|]. split; [simpl; lia|]. split.
    + intros q Hq. assert (q <> p) by (intros ->; destruct Hq; [set_solver|congruence]).
      rewrite Hout by set_solver. by apply Hsame.
    + intros q [->|Hq]%elem_of_cons Hu.
      * exists m, m'. rewrite Hout by set_solver. by rewrite lookup_insert_eq.
      * destruct (Hin q Hq Hu) as (x & x' & Hx & Hx' & Hf'). rewrite Hsame in Hx by set_solver. eauto.
  - destruct Hcase as [-> [e ->]]. rewrite decide_False by congruence. split; [done|]. split; [done|]. split.
    + intros q Hq. apply Hout. set_solver.
    + intros q [->|Hq]%elem_of_cons Hu; [congruence|eauto].
Qed.

Lemma all_acknowledge b rs acks : Forall (fun r => mOK r = true) rs -> count_acks b acks rs = inl (acks + length rs).
Proof.
  intros Hrs. revert acks. induction Hrs as [|r rs Hr _ IH]; intros acks; simpl; [f_equal; lia|].
  rewrite Hr. simpl. rewrite IH. f_equal. lia.
Qed.

(** [l] leads the group, and no other member has moved on. *)
Record leads (l : NodeID) (n : Node S R) (g : group) : Prop := {
  le_lookup : g !! l = Some n;
  le_id : id n = l;
  le_role : role n = Leader;
  le_peers : NoDup (peers n);
  le_loyal : forall p, p ∈ others n -> loyal (ballot n) g p;
}.

(** *** Any schedule of ticks *)

Section Schedule.
(** The replicas but the leader whose processes run; the rest neither answer nor
    tick.  All have the same election timeout. *)
Context (l : NodeID) (running : NodeID -> bool) (timeout : Z).

(** A round of a leader behind a closed gate: every other running replica is up
    and gets it, and with the leader they are a majority. *)
Record unseen_leader (n : Node S R) (ev : timer_event) : Prop := {
  ul_down : a_up (t_around ev) l = false;
  ul_order : t_order ev ≡ₚ others n;
  ul_running : forall p, p ∈ others n -> a_up (t_around ev) p = running p;
  ul_quorum : quorum n <= 1 + length (filter (fun p => running p = true) (others n));
  ul_peers : forall p, p ∈ others n -> running p = true -> connected (t_around ev) l p;
  ul_jitter : forall p, (0 <= jitter (a_env (t_around ev) p))%Z;
}.

(** A follower that does not think of campaigning before [heard + timeout]. *)
Definition patient (heard : Z) (m : Node S R) : Prop :=
  role m = Follower /\ ElectionTimeout (cfg m) = timeout /\ (heard + timeout <= electionAt m)%Z.

(** No replica ticks more than an election timeout, by its clock, after the last
    round it heard; [heard] is when that was. *)
Fixpoint on_time (n : Node S R) (heard : NodeID -> Z) (evs : list timer_event) : Prop :=
  match evs with
  | [] => True
  | ev :: rest =>
      if decide (t_who ev = l)
      then unseen_leader n ev /\ on_time n (fun p => now (a_env (t_around ev) p)) rest
      else (t_who ev ∈ others n /\ running (t_who ev) = true /\
            (now (a_env (t_around ev) (t_who ev)) <= heard (t_who ev) + timeout)%Z) /\ on_time n heard rest
  end.

Lemma on_time_round n heard ev evs :
  t_who ev = l -> unseen_leader n ev -> on_time n (fun p => now (a_env (t_around ev) p)) evs -> on_time n heard (ev :: evs).
Proof. intros Hw Hul Hon. simpl. by rewrite decide_True by done. Qed.

Lemma on_time_wait n heard ev evs :
  t_who ev <> l -> t_who ev ∈ others n -> running (t_who ev) = true ->
  (now (a_env (t_around ev) (t_who ev)) <= heard (t_who ev) + timeout)%Z -> on_time n heard evs ->
  on_time n heard (ev :: evs).
Proof. intros Hw Hin Hr Hn Hon. simpl. by rewrite decide_False by done. Qed.

Definition had_round (evs : list timer_event) : bool := existsb (fun ev => String.eqb (t_who ev) l) evs.

(** What the running members were and are now. *)
Definition members_follow (n : Node S R) (heard : NodeID -> Z) (g : group) : Prop :=
  forall p, p ∈ others n -> running p = true -> exists m, g !! p = Some m /\ patient (heard p) m.

Lemma filter_same (f h : NodeID -> bool) (xs : list NodeID) :
  (forall p, p ∈ xs -> f p = h p) -> filter (fun p => f p = true) xs = filter (fun p => h p = true) xs.
Proof.
  induction xs as [|x xs IH]; intros Hfh; [done|]. rewrite !filter_cons, IH by set_solver.
  rewrite (Hfh x) by set_solver. done.
Qed.

Lemma leader_round n g ev :
  leads l n g -> unseen_leader n ev -> t_who ev = l ->
  let g' := timer_tick g ev in
  g' !! l = Some (with_lastQuorum (now (a_env (t_around ev) l)) n) /\
  (forall q, a_up (t_around ev) q = false -> q <> l -> g' !! q = g !! q) /\
  (forall p, p ∈ others n -> running p = true ->
     exists m m', g !! p = Some m /\ g' !! p = Some m' /\ followed (a_env (t_around ev) p) l m m').
Proof.
  intros [Hg Hid Hrole Hnd Hloyal] [Hdown Hord Hrun Hq Hpeers _]. destruct ev as [w who order]. simpl in *. intros ->.
  assert (Hno : l ∉ others n) by (unfold others; rewrite list_elem_of_filter; naive_solver).
  assert (Hnd' : NoDup order) by (rewrite Hord; by apply NoDup_filter).
  unfold timer_tick, tick, IsLeader, heartbeat. simpl. rewrite Hg, bool_decide_true by done.
  pose proof (broadcast_heartbeat w l (commitRequest n) order g Hnd' Hdown eq_refl Hid) as Hb.
  destruct (broadcast_http _ _ _ _ _) as [g1 rs]. destruct Hb as (Hok & Hlen & Hout & Hin).
  { intros p Hp Hu. rewrite Hord in Hp. rewrite Hrun in Hu by done. split; [by apply Hpeers|by apply Hloyal]. }
  split; [|split].
  - rewrite lookup_alter_eq, Hout, Hg by auto. simpl. f_equal. unfold broadcastCommit_finish.
    rewrite all_acknowledge by done. rewrite (proj2 (Nat.leb_le _ _)); [done|].
    rewrite Hlen, Hord, (filter_same _ running) by done. simpl. lia.
  - intros q Hq' Hne. rewrite lookup_alter_ne by done. apply Hout. by right.
  - intros p Hp Hu. rewrite lookup_alter_ne by (intros ->; done). apply Hin; [by rewrite Hord|by rewrite Hrun].
Qed.

Lemma round_leads n g ev :
  leads l n g -> unseen_leader n ev -> t_who ev = l ->
  leads l (with_lastQuorum (now (a_env (t_around ev) l)) n) (timer_tick g ev).
Proof.
  intros Hle Hul Hw. destruct (leader_round n g ev Hle Hul Hw) as (Hl & Hout & Hin).
  destruct Hle as [Hg Hid Hrole Hnd Hloyal]. split; [done|done|done|done|]. intros p Hp. change (p ∈ others n) in Hp.
  destruct (Hloyal p Hp) as (m & Hm & Hb). destruct (running p) eqn:Hu.
  - destruct (Hin p Hp Hu) as (x & x' & Hx & Hx' & Hfo). rewrite Hm in Hx. injection Hx as <-.
    exists x'. split; [done|]. unfold Promised. by rewrite (fo_log _ _ _ _ Hfo).
  - exists m. split; [|done]. rewrite Hout; [done|by rewrite (ul_running _ _ Hul)|].
    intros ->. unfold others in Hp. apply list_elem_of_filter in Hp as [Hne _]. done.
Qed.

Lemma follower_waits g p m heard w order :
  g !! p = Some m -> patient heard m -> (now (a_env w p) <= heard + timeout)%Z -> timer_tick g (mkTimer w p order) = g.
Proof.
  intros Hm (Hr & _ & Ht) Hnow. unfold timer_tick, tick, IsLeader. simpl. rewrite Hm, Hr. simpl.
  by rewrite (proj2 (Z.ltb_ge _ _)) by lia.
Qed.

Lemma schedule_keeps n heard g evs :
  leads l n g -> members_follow n heard g -> on_time n heard evs ->
  let g' := foldl timer_tick g evs in
  (exists t, leads l (with_lastQuorum t n) g') /\
  (forall p, p ∈ others n -> running p = true -> exists m m', g !! p = Some m /\ g' !! p = Some m' /\
     role m' = Follower /\ log m' = log m /\ leader m' = if had_round evs then l else leader m).
Proof.
  revert n heard g. induction evs as [|ev evs IH]; intros n heard g Hle Hmem Hon; simpl.
  { split; [exists (lastQuorum n); by destruct n|]. intros p Hp Hu. destruct (Hmem p Hp Hu) as (m & Hm & Hr & _).
    by exists m, m. }
  simpl in Hon. destruct (decide (t_who ev = l)) as [Hw|Hw].
  - destruct Hon as [Hul Hon]. pose proof (round_leads n g ev Hle Hul Hw) as Hle1.
    destruct (leader_round n g ev Hle Hul Hw) as (_ & _ & Hin).
    destruct (IH _ (fun p => now (a_env (t_around ev) p)) (timer_tick g ev) Hle1) as [[t Ht] Hfo].
    + intros p Hp Hu. destruct (Hin p Hp Hu) as (m & m' & Hm & Hm' & [Hr _ Htm _ Hc]).
      exists m'. split; [done|]. destruct (Hmem p Hp Hu) as (m0 & Hm0 & _ & Hto & _).
      rewrite Hm in Hm0. injection Hm0 as <-. pose proof (ul_jitter _ _ Hul p). unfold patient.
      rewrite Hr, Hc, Htm, Hto. split_and!; [done|done|lia].
    + clear -Hon. assert (Hex : forall h, on_time n h evs -> on_time (with_lastQuorum (now (a_env (t_around ev) l)) n) h evs).
      { clear. induction evs as [|e evs IH]; intros h; simpl; [done|]. destruct (decide _); intros [H1 H2]; [|by auto].
        split; [|by apply IH]. by destruct H1. }
      by apply Hex.
    + split; [by exists t|]. intros p Hp Hu. destruct (Hin p Hp Hu) as (m & m1 & Hm & Hm1 & Hf1).
      destruct (Hfo p Hp Hu) as (m1' & m' & Hm1' & Hm' & Hr & Hlog & Hl). rewrite Hm1 in Hm1'. injection Hm1' as <-.
      exists m, m'. rewrite Hw, String.eqb_refl. cbn [orb].
      split_and!; [done|done|done|by rewrite Hlog, (fo_log _ _ _ _ Hf1)|].
      rewrite Hl. destruct (had_round evs); [done|exact (fo_leader _ _ _ _ Hf1)].
  - destruct Hon as [(Hp & Hu & Hnow) Hon]. destruct (Hmem _ Hp Hu) as (m & Hm & Hpat). destruct ev as [w who order].
    rewrite (follower_waits g who m (heard who) w order Hm Hpat Hnow).
    destruct (IH n heard g Hle Hmem Hon) as [Ht Hfo]. split; [done|]. intros q Hq Hqu.
    destruct (Hfo q Hq Hqu) as (x & x' & ? & ? & ? & ? & Hl). exists x, x'. split_and!; try done.
    by rewrite (proj2 (String.eqb_neq _ _) Hw).
Qed.

End Schedule.
End Group.

(** ** A bank of three *)

Module OutageExample.
#[local] Instance counter : StateMachine nat unit := {| sm_init := 0; sm_apply := fun _ _ s => (S s, tt) |}.

Definition members : list NodeID := ["a"; "b"; "c"].
Definition addresses : gmap NodeID string := {[ "a" := "h:1"; "b" := "h:2"; "c" := "h:3" ]}.
Definition at_ (t : Z) : env := mkEnv t 0 true true.
Definition b1 : Ballot := mkBallot 1 "a".
Definition demo_timing : Config := mkConfig (100 * millisecond) (400 * millisecond) (300 * millisecond).

(** "a" was elected under [b1]; "b" has promised it, "c" has yet to hear of it. *)
Definition node (i : NodeID) : Node nat unit := NewNode (at_ 0) i members NewMemLog demo_timing.
Definition lead : Node nat unit :=
  with_ballot b1 (with_role Leader (with_log (mkLog ∅ 0 b1) (node "a"))).
Definition bank3 : gmap NodeID (Node nat unit) :=
  {[ "a" := lead; "b" := with_log (mkLog ∅ 0 b1) (node "b"); "c" := node "c" ]}.

Definition half_second : Z := 500 * millisecond.

(** The operator of [who] types "down"; [p] ticks at [t]. *)
Definition ticks (who p : NodeID) (t : Z) : timer_event :=
  mkTimer (mkAround (fun _ => at_ t) addresses
             (fun q => if String.eqb q who then (watchConsole [""; " Down "] newHealth).1 else newHealth)
             (fun _ _ => Exchanged)) p (filter (fun q => q <> p) (reverse members)).
Definition everyone (p : NodeID) : bool := true.
Definition never_heard (p : NodeID) : Z := 0.

Lemma others_of_a (P : NodeID -> Prop) : P "b" -> P "c" -> forall p, p ∈ others lead -> P p.
Proof.
  intros Hb Hc p Hp. vm_compute in Hp. apply elem_of_cons in Hp as [->|Hp]; [done|].
  by apply list_elem_of_singleton in Hp as ->.
Qed.

Lemma bank3_leads : leads "a" lead bank3.
Proof. split; [done|done|done|apply (bool_decide_unpack _); by vm_compute|]. apply others_of_a; by eexists. Qed.

Lemma bank3_follows : members_follow everyone (400 * millisecond) lead never_heard bank3.
Proof. intros p Hp _. revert p Hp. apply others_of_a; (eexists; split; [done|]); by vm_compute. Qed.

Lemma bank3_unseen t : unseen_leader "a" everyone lead (ticks "a" "a" t).
Proof.
  split; [done|apply Permutation_swap|apply others_of_a; done|vm_compute; lia| |done].
  intros p Hp _. revert p Hp. apply others_of_a; by (split; [eexists|]).
Qed.

(** "a" is down from the start; everyone ticks, in turn. *)
Definition bank3_ticks : list timer_event :=
  [ticks "a" "b" 0; ticks "a" "a" (100 * millisecond); ticks "a" "c" half_second; ticks "a" "a" half_second;
   ticks "a" "b" (700 * millisecond)].

Lemma bank3_on_time : on_time "a" everyone (400 * millisecond) lead never_heard bank3_ticks.
Proof.
  assert ("b" ∈ others lead /\ "c" ∈ others lead) as [Hb Hc] by (split; apply (bool_decide_unpack _); by vm_compute).
  apply on_time_wait; [done..|]. apply on_time_round; [done|apply bank3_unseen|].
  apply on_time_wait; [done..|]. apply on_time_round; [done|apply bank3_unseen|]. by apply on_time_wait.
Qed.


(** The operator of "c" types "down" instead.  It gets no heartbeats, so its timer
    fires; its campaign goes out, and the others answer it: it becomes the leader,
    behind its closed gate. *)
Example downed_follower_takes_over :
  let g := foldl timer_tick bank3
             [ticks "c" "a" (100 * millisecond); ticks "c" "a" (400 * millisecond); ticks "c" "c" half_second] in
  role <$> g !! "c" = Some Leader /\ role <$> g !! "a" = Some Follower /\ leader <$> g !! "b" = Some "c".
Proof. by vm_compute. Qed.
End OutageExample.
