(* ===== verification/Processes.v ===== *)
(** * The processes: from the command line to serving

    [main] and [run] of bank/main.go, gateway/main.go, transaction_id_server/main.go
    and cmd/cluster/main.go, with internal/tlsconfig and [ServeNode] of
    internal/cluster/remote.go.  A process is a program that leaves a trace of
    what it opened, started, served and closed, and ends with a value or an
    error; deferred calls run when it ends, last one first.  What the machine
    answers (files, keys, sockets, child processes, and how serving ends) is a
    [host].  What the opened parts do is modelled in their own files. *)

From S2P Require Import Prelude GoText PaxosTypes Flags Cluster Deployment Serving.

(** ** internal/tlsconfig *)

Record Files := mkFiles { f_Dir : string; f_Cert : string; f_Key : string }.

Inductive ClientAuthType := NoClientCert | RequireAndVerifyClientCert.

Definition VersionTLS13 : Z := 772.

(** The fields of [tls.Config] that the code sets. *)
Record tls_config (Cert Pool : Type) := mkTlsConfig {
  t_Certificates : list Cert;
  t_ClientCAs : option Pool;
  t_RootCAs : option Pool;
  t_ClientAuth : ClientAuthType;
  t_ServerName : string;
  t_MinVersion : Z;
}.
Arguments mkTlsConfig {Cert Pool}.
Arguments t_Certificates {Cert Pool}.
Arguments t_ClientCAs {Cert Pool}.
Arguments t_RootCAs {Cert Pool}.
Arguments t_ClientAuth {Cert Pool}.
Arguments t_ServerName {Cert Pool}.
Arguments t_MinVersion {Cert Pool}.

(** ** Traces *)

Inductive service := SBank | SGateway | STransactionIDs | SConsensus | SNode | SConsole.

#[export] Instance service_eq_dec : EqDecision service.
Proof. solve_decision. Defined.

Inductive event (T : Type) :=
| EvMkdir (dir : string)
| EvOpened (what : string)
| EvLogOpened (id : string)
| EvNodeStarted (id : string) (peers : list string) (timing : Config)
| EvListening (svc : service) (addr : string) (tls : option T)
| EvWatchLeadership
| EvConsole
| EvServing (svc : service)
| EvGracefulStop
| EvNodeStopped
| EvLogClosed
| EvRegistryClosed
| EvTransportClosed
| EvSpawned (argv : list string)
| EvDialled (name addr : string)
| EvBootstrapped
| EvEngineClosed
| EvConnected (addr : string) (tls : T)
| EvAnnounced (bank addr : string)
| EvConnectionClosed.
Arguments EvMkdir {T}.
Arguments EvOpened {T}.
Arguments EvLogOpened {T}.
Arguments EvNodeStarted {T}.
Arguments EvListening {T}.
Arguments EvWatchLeadership {T}.
Arguments EvConsole {T}.
Arguments EvServing {T}.
Arguments EvGracefulStop {T}.
Arguments EvNodeStopped {T}.
Arguments EvLogClosed {T}.
Arguments EvRegistryClosed {T}.
Arguments EvTransportClosed {T}.
Arguments EvSpawned {T}.
Arguments EvDialled {T}.
Arguments EvBootstrapped {T}.
Arguments EvEngineClosed {T}.
Arguments EvConnected {T}.
Arguments EvAnnounced {T}.
Arguments EvConnectionClosed {T}.

Inductive boot_error :=
| BadPeers                          (* an entry of -peers or -attach is no address *)
| NotInPeers (id : string)
| BadNodeID (id : string)
| BadConfig (e : ConfigError)
| UnknownTransport (name : string)
| BadGatewayOptions
| NoAddressFor (name : string)
| LoadKeyPair (why : string)
| ReadCA (why : string)
| NoCertificates
| BadHostPort (addr : string)
| Failed (what : string) (why : string).

(** ** Programs with a trace *)

Definition Proc (T A : Type) : Type := list (event T) * (A + boot_error).

#[export] Instance Proc_ret T : MRet (Proc T) := fun A x => ([], inl x).
#[export] Instance Proc_bind T : MBind (Proc T) := fun A B k p =>
  match p.2 with
  | inl x => (p.1 ++ (k x).1, (k x).2)
  | inr e => (p.1, inr e)
  end.

Definition tell {T} (ev : event T) : Proc T unit := ([ev], inl tt).
Definition fail {T A} (e : boot_error) : Proc T A := ([], inr e).
(** An error that is returned as it is. *)
Definition must {T A} (r : A + boot_error) : Proc T A := ([], r).
(** A step of the machine that may fail. *)
Definition attempt {T} (what : string) (err : option string) : Proc T unit :=
  match err with None => mret tt | Some why => fail (Failed what why) end.
(** [defer]: the rest of the function, then the call. *)
Definition deferred {T A} (ev : event T) (rest : Proc T A) : Proc T A := (rest.1 ++ [ev], rest.2).

(** How a select on the end of the context and on the server ends. *)
Inductive ending := ContextDone (shutdown : option string) | ServerReturned (err : option string).

Record host (Cert : Type) := mkHost {
  h_keyPair : string -> string -> string -> Cert + string;   (* tls.LoadX509KeyPair: directory, certificate, key *)
  h_readFile : string -> string -> string + string;          (* os.ReadFile: directory, name *)
  h_mkdir : string -> option string;
  h_open : string -> option string;        (* opening a part: account store, ledger, log, users, counter *)
  h_listen : string -> option string;
  h_dial : string -> option string;        (* grpc.NewClient *)
  h_executable : option string;
  h_pipe : option string;                  (* cmd.StdinPipe *)
  h_start : list string -> option string;  (* cmd.Start *)
  h_end : service -> ending;
}.
Arguments h_keyPair {Cert}.
Arguments h_readFile {Cert}.
Arguments h_mkdir {Cert}.
Arguments h_open {Cert}.
Arguments h_listen {Cert}.
Arguments h_dial {Cert}.
Arguments h_executable {Cert}.
Arguments h_pipe {Cert}.
Arguments h_start {Cert}.
Arguments h_end {Cert}.

(** [net.SplitHostPort]; [None] is any error. *)
Definition has_char (c : Ascii.ascii) (s : string) : bool := negb (all_chars (fun x => negb (Ascii.eqb x c)) s).
Definition SplitHostPort (s : string) : option (string * string) :=
  match s with
  | EmptyString => None
  | String c rest =>
      if Ascii.eqb c "["%char then
        '(inner, tail) ← Cut "]" rest;
        match tail with
        | EmptyString => None
        | String c' port =>
            if negb (Ascii.eqb c' ":"%char) || has_char ":" port || has_char "[" inner || has_char "[" port || has_char "]" port
            then None else Some (inner, port)
        end
      else
        '(hst, port) ← Cut ":" s;
        if has_char ":" port || has_char "[" s || has_char "]" s then None else Some (hst, port)
  end.

Section Processes.
Context {Cert Pool : Type} (append_pem : string -> option Pool) (h : host Cert).
Abbreviation tls := (tls_config Cert Pool).
Abbreviation Proc := (Proc tls).

(** ** Keys and certificates *)

Definition load (f : Files) : (Cert * Pool) + boot_error :=
  match h_keyPair h (f_Dir f) (f_Cert f) (f_Key f) with
  | inr why => inr (LoadKeyPair why)
  | inl cert =>
      match h_readFile h (f_Dir f) "ca.pem" with
      | inr why => inr (ReadCA why)
      | inl ca => match append_pem ca with None => inr NoCertificates | Some pool => inl (cert, pool) end
      end
  end.

Definition ServerTLS (f : Files) : tls + boot_error :=
  match load f with
  | inr e => inr e
  | inl (cert, pool) => inl (mkTlsConfig [cert] (Some pool) None RequireAndVerifyClientCert "" VersionTLS13)
  end.

Definition ClientTLS (f : Files) (serverName : string) : tls + boot_error :=
  match load f with
  | inr e => inr e
  | inl (cert, pool) => inl (mkTlsConfig [cert] None (Some pool) NoClientCert serverName VersionTLS13)
  end.

(** [credentials.NewTLS] of these. *)
Definition ServerCreds (f : Files) : tls + boot_error := ServerTLS f.
Definition ClientCreds (f : Files) (serverName : string) : tls + boot_error := ClientTLS f serverName.

Definition client_files (dir : string) : Files := mkFiles dir "client.pem" "client.key".

(** [server.Serve] of a program that watches no signal: it returns when its
    listener fails.  A process that is killed meanwhile leaves its trace so far
    and runs none of its deferred calls. *)
Definition serve (svc : service) : Proc unit :=
  tell (EvServing svc);;
  match h_end h svc with
  | ServerReturned (Some why) => fail (Failed "serve" why)
  | _ => mret tt
  end.

(** ** bank/main.go *)

(** A Go map is ranged over in any order; this is one. *)
Definition peerIDs (peers : gmap string string) : list string := (map_to_list peers).*1.

(** Tighter than the library's defaults. *)
Definition bank_timing : Config := mkConfig (100 * millisecond) (400 * millisecond) (300 * millisecond).

Definition startPaxosGroup (id : string) (peers : gmap string string) (cfg : bank_config) : Proc unit :=
  attempt "open Paxos log" (h_open h ("log " +:+ id));;
  tell (EvLogOpened id);;
  must (ClientTLS (client_files (bk_certs cfg)) "localhost");;
  tell (EvNodeStarted id (peerIDs peers) bank_timing).

Definition serveConsensus (addr certsDir : string) : Proc unit :=
  t ← must (ServerTLS (mkFiles certsDir "bank.pem" "bank.key"));
  match SplitHostPort addr with
  | None => fail (BadHostPort addr)
  | Some (_, port) =>
      attempt "listen for consensus" (h_listen h (":" +:+ port));;
      tell (EvListening SConsensus (":" +:+ port) (Some t))
  end.

(** [run] once the replica's group is known. *)
Definition bank_boot (cfg : bank_config) (id : string) (peers : gmap string string) (consensusAddr : string) : Proc unit :=
  attempt "create data directory" (h_mkdir h (bk_data cfg));;
  tell (EvMkdir (bk_data cfg));;
  attempt "open account store" (h_open h "accounts");;
  tell (EvOpened "accounts");;
  attempt "open ledger" (h_open h "ledger");;
  tell (EvOpened "ledger");;
  startPaxosGroup id peers cfg;;
  deferred EvLogClosed (deferred EvNodeStopped (
    serveConsensus consensusAddr (bk_certs cfg);;
    tell EvWatchLeadership;;
    creds ← must (ServerCreds (mkFiles (bk_certs cfg) "bank.pem" "bank.key"));
    attempt "listen" (h_listen h (":" +:+ fmt_d (bk_port cfg)));;
    tell (EvListening SBank (":" +:+ fmt_d (bk_port cfg)) (Some creds));;
    tell EvConsole;;
    serve SBank)).

Definition bank_run (cfg : bank_config) : Proc unit :=
  match parsePeers (bk_peers cfg) with
  | None => fail BadPeers
  | Some _ =>
      match bank_group (bk_bank cfg) (bk_id cfg) (bk_peers cfg) (bk_port cfg) with
      | None => fail (NotInPeers (if String.eqb (bk_id cfg) "" then bk_bank cfg else bk_id cfg))
      | Some (id, peers, consensusAddr) => bank_boot cfg id peers consensusAddr
      end
  end.

(** A connection with the client's certificate; [grpc.NewClient] connects lazily. *)
Definition dial_as_client (what addr certsDir : string) : Proc tls :=
  t ← must (ClientCreds (client_files certsDir) "localhost");
  attempt what (h_dial h addr);;
  tell (EvConnected addr t);;
  mret t.

(** [announceToGateway]; [answer] is the error of the gateway's BankRegister. *)
Definition announceToGateway (cfg : bank_config) (answer : option string) : Proc unit :=
  dial_as_client "dial gateway" (bk_gateway cfg) (bk_certs cfg);;
  deferred EvConnectionClosed (
    tell (EvAnnounced (bk_bank cfg) ("localhost:" +:+ fmt_d (bk_port cfg)));;
    attempt "BankRegister" answer).

(** ** client/main.go: connections *)

Definition dialGateway (cfg : client_flags_config) : Proc tls :=
  dial_as_client "connect to gateway" (cf_gateway cfg) (cf_certs cfg).
Definition dialTransactionIDs (cfg : client_flags_config) : Proc tls :=
  dial_as_client "connect to transaction id service" (cf_txnid cfg) (cf_certs cfg).

(** ** gateway/main.go and transaction_id_server/main.go *)

Definition newBankRegistry (certsDir : string) : tls + boot_error := ClientCreds (client_files certsDir) "localhost".

Definition gateway_run (cfg : server_config) : Proc unit :=
  attempt "open auth store" (h_open h "gateway_users.txt");;
  tell (EvOpened "gateway_users.txt");;
  must (newBankRegistry (sc_certs cfg));;
  deferred EvRegistryClosed (
    creds ← must (ServerCreds (mkFiles (sc_certs cfg) "gateway.pem" "gateway.key"));
    attempt "listen" (h_listen h (":" +:+ fmt_d (sc_port cfg)));;
    tell (EvListening SGateway (":" +:+ fmt_d (sc_port cfg)) (Some creds));;
    tell EvConsole;;
    serve SGateway).

Definition txnid_run (cfg : server_config) : Proc unit :=
  attempt "open counter" (h_open h "transaction_counter.txt");;
  tell (EvOpened "transaction_counter.txt");;
  creds ← must (ServerCreds (mkFiles (sc_certs cfg) "txnid.pem" "txnid.key"));
  attempt "listen" (h_listen h (":" +:+ fmt_d (sc_port cfg)));;
  tell (EvListening STransactionIDs (":" +:+ fmt_d (sc_port cfg)) (Some creds));;
  serve STransactionIDs.

(** ** internal/cluster/remote.go: a node process *)

Definition zero_timing : Config := mkConfig 0 0 0.

Record NodeOptions := mkNodeOptions {
  no_ID : string; no_Listen : string; no_Peers : gmap string string; no_MaxKeys : Z;
  no_Timing : Config }.

Definition node_timing (t : Config) : Config := Timing (cluster_withDefaults (mkClusterConfig 0 0 0 t)).

Definition ServeNode (opts : NodeOptions) : Proc unit :=
  match ParseNode (no_ID opts) with
  | None => fail (BadNodeID (no_ID opts))
  | Some _ =>
      match no_Peers opts !! no_ID opts with
      | None => fail (NotInPeers (no_ID opts))
      | Some _ =>
          deferred EvTransportClosed (
            attempt "listen" (h_listen h (no_Listen opts));;
            tell (EvListening SNode (no_Listen opts) None);;
            tell (EvNodeStarted (no_ID opts) (peerIDs (no_Peers opts)) (node_timing (no_Timing opts)));;
            deferred EvNodeStopped (
              tell (EvServing SNode);;
              match h_end h SNode with
              | ContextDone _ => tell EvGracefulStop
              | ServerReturned (Some why) => fail (Failed "serve" why)
              | ServerReturned None => mret tt
              end))
      end
  end.

(** ** cmd/cluster/main.go *)

Section Spawn.
Variable cfg : ClusterConfig.
Variables basePort maxKeys : Z.

Definition node_argv (s i : Z) : list string :=
  ["-" +:+ "transport" +:+ "=" +:+ "grpc"; "-" +:+ "role" +:+ "=" +:+ "node";
   "-" +:+ "id" +:+ "=" +:+ NodeName s i; "-" +:+ "listen" +:+ "=" +:+ node_addr cfg basePort s i;
   "-" +:+ "peers" +:+ "=" +:+ shard_peers cfg basePort s;
   "-" +:+ "max-keys" +:+ "=" +:+ fmt_d maxKeys; "-" +:+ "exit-with-parent"].

(** One child: its pipe, then its start. *)
Definition spawn_node (s i : Z) : Proc unit :=
  attempt "stdin pipe" (h_pipe h);;
  attempt "start" (h_start h (node_argv s i));;
  tell (EvSpawned (node_argv s i)).

Fixpoint spawn_all (nodes : list (Z * Z)) : Proc unit :=
  match nodes with
  | [] => mret tt
  | (s, i) :: rest => spawn_node s i;; spawn_all rest
  end.

Definition all_nodes : list (Z * Z) := s ← indices (Shards cfg); pair s <$> indices (NodesPerShard cfg).

Definition spawnNodes : Proc (gmap string string) :=
  attempt "executable" (h_executable h);;
  spawn_all all_nodes;;
  mret (spawn_addrs cfg basePort).
End Spawn.

(** [NewRemote] of internal/cluster/build.go: a connection for every replica, in
    order; those made before a failure stay open. *)
Fixpoint dial_all (addrs : gmap string string) (names : list string) : Proc unit :=
  match names with
  | [] => mret tt
  | name :: rest =>
      match addrs !! name with
      | None => fail (NoAddressFor name)
      | Some addr =>
          attempt "dial" (h_dial h addr);;
          tell (EvDialled name addr);;
          dial_all addrs rest
      end
  end.

Definition remote_boot (cfg : ClusterConfig) (addrs : gmap string string) : Proc unit :=
  match Validate cfg with
  | Some e => fail (BadConfig e)
  | None => dial_all addrs (indices (Shards cfg) ≫= fun s => NodeName s <$> indices (NodesPerShard cfg))
  end.

(** [Gateway.Serve] of internal/gateway/gateway.go. *)
Definition ErrServerClosed : string := "http: Server closed".
Definition console_Serve (addr : string) : Proc (option string) :=
  match h_listen h addr with
  | Some why => mret (Some why)
  | None =>
      tell (EvListening SConsole addr None);;
      tell (EvServing SConsole);;
      match h_end h SConsole with
      | ServerReturned err => mret err
      | ContextDone err => tell EvGracefulStop;; mret err
      end
  end.

(** From [gateway.New] to the end, with one cluster per connection or a shared
    one. *)
Definition serve_console (shared : bool) (sessions : Z) (addr port : string) : Proc unit :=
  match gateway_New (negb shared) shared sessions with
  | None => fail BadGatewayOptions
  | Some _ =>
      err ← console_Serve (resolveAddr addr port);
      match err with
      | Some why => if String.eqb why ErrServerClosed then mret tt else fail (Failed "serve" why)
      | None => mret tt
      end
  end.

Definition cluster_flags (env : string -> string) : FlagSet := list_to_map
  [("addr", FString ""); ("shards", FInt (envInt (env "SHARDS") 3)); ("nodes", FInt (envInt (env "NODES") 3));
   ("transport", FString (envStr (env "TRANSPORT") "inproc")); ("pace", FDuration 110000000); ("max-sessions", FInt 32);
   ("max-keys", FInt 256); ("role", FString "gateway"); ("base-port", FInt 7100); ("attach", FString "");
   ("id", FString ""); ("listen", FString ""); ("peers", FString ""); ("exit-with-parent", FBool false)].

Definition flags_config (fs : FlagSet) : ClusterConfig :=
  mkClusterConfig (flag_int fs "shards") (flag_int fs "nodes") (flag_int fs "max-keys") zero_timing.

(** [run] with its flags read. *)
Definition cluster_run (env : string -> string) (fs : FlagSet) : Proc unit :=
  let cfg := flags_config fs in
  match Validate cfg with
  | Some e => fail (BadConfig e)
  | None =>
      let transport := flag_string fs "transport" in
      if String.eqb transport "inproc" then serve_console false (flag_int fs "max-sessions") (flag_string fs "addr") (env "PORT")
      else if String.eqb transport "grpc" then
        if String.eqb (flag_string fs "role") "node" then
          match parseAddrs (flag_string fs "peers") with
          | None => fail BadPeers
          | Some peers =>
              ServeNode (mkNodeOptions (flag_string fs "id") (flag_string fs "listen") peers (flag_int fs "max-keys") zero_timing)
          end
        else
          match parseAddrs (flag_string fs "attach") with
          | None => fail BadPeers
          | Some attached =>
              addrs ← (if String.eqb (flag_string fs "attach") ""
                       then spawnNodes cfg (flag_int fs "base-port") (flag_int fs "max-keys")
                       else mret attached);
              remote_boot cfg addrs;;
              deferred EvEngineClosed (
                tell EvBootstrapped;;
                serve_console true (flag_int fs "max-sessions") (flag_string fs "addr") (env "PORT"))
          end
      else fail (UnknownTransport transport)
  end.

(** [main]: bad flags end the process with status 2, a failed [run] with 1. *)
Definition main_of {C} (flags : C + flag_error) (run : C -> Proc unit) : list (event tls) * Z :=
  match flags with
  | inr HelpWanted => ([], 0%Z)
  | inr _ => ([], 2%Z)
  | inl cfg => let '(tr, r) := run cfg in (tr, match r with inl _ => 0%Z | inr _ => 1%Z end)
  end.
Definition bank_main (ParseDuration : string -> option Z) (args : list string) : list (event tls) * Z :=
  main_of (bank_parseFlags ParseDuration args) bank_run.
Definition gateway_main (ParseDuration : string -> option Z) (args : list string) : list (event tls) * Z :=
  main_of (gateway_parseFlags ParseDuration args) gateway_run.
Definition txnid_main (ParseDuration : string -> option Z) (args : list string) : list (event tls) * Z :=
  main_of (txnid_parseFlags ParseDuration args) txnid_run.
Definition cluster_main (ParseDuration : string -> option Z) (env : string -> string) (args : list string)
    : list (event tls) * Z :=
  main_of (Parse ParseDuration args (cluster_flags env)) (cluster_run env).

(** ** Spawned nodes *)

(** What a spawned process finds in its flags. *)
Lemma node_flags ParseDuration env cfg basePort maxKeys s i :
  in_int64 maxKeys ->
  exists fs, Parse ParseDuration (node_argv cfg basePort maxKeys s i) (cluster_flags env) = inl fs /\
    flags_config fs = mkClusterConfig (envInt (env "SHARDS") 3) (envInt (env "NODES") 3) maxKeys zero_timing /\
    flag_string fs "transport" = "grpc" /\ flag_string fs "role" = "node" /\ flag_string fs "id" = NodeName s i /\
    flag_string fs "listen" = node_addr cfg basePort s i /\ flag_string fs "peers" = shard_peers cfg basePort s /\
    flag_int fs "max-keys" = maxKeys.
Proof.
  intros Hk. unfold node_argv. eexists. split.
  - do 5 (erewrite Parse_assign; [|reflexivity|reflexivity|rewrite ?lookup_insert_ne by done; vm_compute; reflexivity|reflexivity]).
    erewrite Parse_assign;
      [|reflexivity|reflexivity|rewrite ?lookup_insert_ne by done; vm_compute; reflexivity|cbn [set_flag]; rewrite ParseInt0_fmt_d by done; reflexivity].
    erewrite Parse_switch; [|reflexivity|reflexivity|rewrite ?lookup_insert_ne by done; vm_compute; reflexivity].
    reflexivity.
  - unfold flags_config, flag_string, flag_int.
    split_and!; rewrite ?lookup_insert_ne by done; rewrite ?lookup_insert_eq; try reflexivity.
Qed.

Lemma attempt_ok what : attempt (T := tls) what None = mret tt.
Proof. done. Qed.

Lemma bind_ok {A B} (p : Proc A) (k : A -> Proc B) x : p.2 = inl x -> p ≫= k = (p.1 ++ (k x).1, (k x).2).
Proof. intros Hp. unfold mbind, Proc_bind. by rewrite Hp. Qed.

Lemma spawn_all_ok cfg basePort maxKeys nodes :
  h_pipe h = None -> (forall argv, h_start h argv = None) ->
  spawn_all cfg basePort maxKeys nodes = ((fun n => EvSpawned (node_argv cfg basePort maxKeys n.1 n.2)) <$> nodes, inl tt).
Proof.
  intros Hp Hs. induction nodes as [|[s i] nodes IH]; [done|]. cbn [spawn_all fmap list_fmap fst snd]. rewrite IH.
  unfold spawn_node. rewrite Hp, Hs. done.
Qed.

Lemma dial_all_ok (addrs : gmap string string) (nodes : list (string * string)) :
  (forall addr, h_dial h addr = None) -> (forall n, n ∈ nodes -> addrs !! n.1 = Some n.2) ->
  dial_all addrs nodes.*1 = ((fun n => EvDialled n.1 n.2) <$> nodes, inl tt).
Proof.
  intros Hd. induction nodes as [|[name addr] nodes IH]; intros Hall; [done|]. cbn [dial_all fmap list_fmap fst snd].
  pose proof (Hall (name, addr) ltac:(left)) as Ha. simpl in Ha. rewrite Ha, Hd, IH; [done|].
  intros n Hn. apply Hall. by right.
Qed.

Section Spawned.
Context (cfg : ClusterConfig) (basePort maxKeys : Z).
Context (Hcfg : Validate cfg = None) (Hport : (0 <= basePort <= 65535)%Z) (Hkeys : in_int64 maxKeys).

(** The replica's name and address. *)
Definition node_at (n : Z * Z) : string * string := (NodeName n.1 n.2, node_addr cfg basePort n.1 n.2).

Lemma all_nodes_in n : n ∈ all_nodes cfg -> (0 <= n.1 < Shards cfg)%Z /\ (0 <= n.2 < NodesPerShard cfg)%Z.
Proof.
  unfold all_nodes. intros (s & (i & -> & Hi)%list_elem_of_fmap & Hs)%list_elem_of_bind.
  by apply elem_of_indices in Hi, Hs.
Qed.

Lemma all_names : indices (Shards cfg) ≫= (fun s => NodeName s <$> indices (NodesPerShard cfg)) = (node_at <$> all_nodes cfg).*1.
Proof.
  unfold all_nodes. induction (indices (Shards cfg)) as [|s l IH]; [done|]. cbn [mbind list_bind].
  cbn [mbind] in IH. rewrite !fmap_app, <- IH, <- !list_fmap_compose. done.
Qed.

(** The gateway: every child is started with the arguments for its node, and every
    replica is dialled at the address its child was given. *)
Lemma gateway_spawns :
  h_executable h = None -> h_pipe h = None -> (forall argv, h_start h argv = None) -> (forall addr, h_dial h addr = None) ->
  (spawnNodes cfg basePort maxKeys ≫= remote_boot cfg) =
  (((fun n => EvSpawned (node_argv cfg basePort maxKeys n.1 n.2)) <$> all_nodes cfg) ++
   ((fun n => EvDialled (node_at n).1 (node_at n).2) <$> all_nodes cfg), inl tt).
Proof.
  intros He Hp Hs Hd. unfold spawnNodes. rewrite He, spawn_all_ok by done.
  unfold remote_boot. cbn -[dial_all node_argv node_at all_nodes]. rewrite Hcfg, all_names, app_nil_r.
  rewrite (dial_all_ok (spawn_addrs cfg basePort) (node_at <$> all_nodes cfg)); [by rewrite <- list_fmap_compose|done|].
  intros n (m & -> & [Hm1 Hm2]%all_nodes_in)%list_elem_of_fmap. by apply spawn_lookup.
Qed.

(** The child: it reads its arguments back, passes the checks of [ServeNode] and
    listens at its address, with the replicas of its shard as peers. *)
Lemma child_serves ParseDuration env s i :
  Validate (mkClusterConfig (envInt (env "SHARDS") 3) (envInt (env "NODES") 3) maxKeys zero_timing) = None ->
  (0 <= s < Shards cfg)%Z -> (0 <= i < NodesPerShard cfg)%Z -> h_listen h (node_addr cfg basePort s i) = None ->
  let peers := list_to_map (shard_pairs cfg basePort s) in
  exists rest code, cluster_main ParseDuration env (node_argv cfg basePort maxKeys s i) =
    (EvListening SNode (node_addr cfg basePort s i) None :: EvNodeStarted (NodeName s i) (peerIDs peers) DefaultTiming :: rest, code).
Proof.
  intros Henv Hs Hi Hl peers. destruct (node_flags ParseDuration env cfg basePort maxKeys s i Hkeys)
    as (fs & Hp & Hc & Htr & Hro & Hid & Hli & Hpe & Hmk).
  destruct (proj1 (spawned_cluster_is_wired cfg basePort Hcfg Hport) s Hs) as [Hparse Hin].
  destruct (Hin i Hi) as [Hacc Hlook].
  unfold cluster_main, main_of. rewrite Hp. unfold cluster_run. rewrite Hc, Henv, Htr, Hro, Hid, Hli, Hpe, Hmk. simpl String.eqb.
  rewrite Hparse. unfold ServeNode. cbn [no_ID no_Listen no_Peers]. pose proof (cfg_bounds cfg Hcfg).
  rewrite ParseNode_NodeName by (unfold int64_max; lia). rewrite Hlook, spawn_lookup by done. rewrite Hl.
  cbn -[node_addr NodeName peerIDs h_end]. eauto.
Qed.
End Spawned.
End Processes.

(** C39: If SHARDS and NODES are absent from the inherited environment or in range
    (inherited_shards_stop_the_nodes) and starting, dialling and listening succeed,
    the processes of a cluster in gRPC mode fit together: the gateway starts one
    process per replica and dials it at the address it was given; each process reads
    its command line back, accepts it and listens there with exactly the replicas of
    its shard as peers. *)
Theorem spawned_nodes_serve {Cert Pool} (h : host Cert) ParseDuration env cfg basePort maxKeys :
  Validate cfg = None -> (0 <= basePort <= 65535)%Z -> in_int64 maxKeys ->
  Validate (mkClusterConfig (envInt (env "SHARDS") 3) (envInt (env "NODES") 3) maxKeys zero_timing) = None ->
  h_executable h = None -> h_pipe h = None -> (forall argv, h_start h argv = None) -> (forall addr, h_dial h addr = None) ->
  (forall addr, h_listen h addr = None) ->
  let argv := fun n => node_argv cfg basePort maxKeys n.1 n.2 in
  (spawnNodes (Pool := Pool) h cfg basePort maxKeys ≫= remote_boot h cfg) =
    ((EvSpawned ∘ argv <$> all_nodes cfg) ++
     ((fun n => EvDialled (NodeName n.1 n.2) (node_addr cfg basePort n.1 n.2)) <$> all_nodes cfg), inl tt) /\
  forall n, n ∈ all_nodes cfg -> exists rest code,
    cluster_main (Pool := Pool) h ParseDuration env (argv n) =
      (EvListening SNode (node_addr cfg basePort n.1 n.2) None ::
       EvNodeStarted (NodeName n.1 n.2) (peerIDs (list_to_map (shard_pairs cfg basePort n.1))) DefaultTiming :: rest, code).
Proof.
  intros Hcfg Hport Hkeys Henv He Hp Hs Hd Hl argv. split; [by apply gateway_spawns|].
  intros n [Hn1 Hn2]%all_nodes_in. by apply child_serves.
Qed.

(** ** The servers of the payment system *)

(** What a client offers in a handshake, and what crypto/tls asks of it. *)
Record hello (Cert : Type) := mkHello { hl_version : Z; hl_cert : option Cert }.
Arguments hl_version {Cert}.
Arguments hl_cert {Cert}.

Definition accepts_client {Cert Pool} (verify : Pool -> Cert -> bool) (t : tls_config Cert Pool) (c : hello Cert) : bool :=
  (t_MinVersion t <=? hl_version c)%Z &&
  match t_ClientAuth t with
  | NoClientCert => true
  | RequireAndVerifyClientCert =>
      match t_ClientCAs t, hl_cert c with Some pool, Some crt => verify pool crt | _, _ => false end
  end.

Section Servers.
Context {Cert Pool : Type} (append_pem : string -> option Pool) (h : host Cert).

(** The authority whose file is in a directory. *)
Definition authority (dir : string) (pool : Pool) : Prop :=
  exists ca, h_readFile h dir "ca.pem" = inl ca /\ append_pem ca = Some pool.

(** A listener that takes only clients with a certificate of the authority. *)
Definition mutual (dir : string) (t : option (tls_config Cert Pool)) : Prop :=
  exists cfg pool, t = Some cfg /\ authority dir pool /\
    t_ClientAuth cfg = RequireAndVerifyClientCert /\ t_ClientCAs cfg = Some pool /\ t_MinVersion cfg = VersionTLS13.

Lemma ServerTLS_mutual f t : ServerTLS append_pem h f = inl t -> mutual (f_Dir f) (Some t).
Proof.
  unfold ServerTLS, load. destruct (h_keyPair h _ _ _); [|done]. destruct (h_readFile h _ _) as [ca|] eqn:Hr; [|done].
  destruct (append_pem ca) as [pool|] eqn:Hp; [|done]. intros [= <-]. eexists _, pool. by split_and!; [|exists ca|..].
Qed.

Lemma mutual_accepts verify dir t c :
  mutual dir t -> exists cfg pool, t = Some cfg /\ authority dir pool /\
    (accepts_client verify cfg c = true ->
     exists crt, hl_cert c = Some crt /\ verify pool crt = true /\ (VersionTLS13 <= hl_version c)%Z).
Proof.
  intros (cfg & pool & -> & Ha & Hauth & Hcas & Hv). exists cfg, pool. split_and!; [done..|].
  unfold accepts_client. rewrite Hauth, Hcas, Hv. intros [Hle Hc]%andb_prop. apply Z.leb_le in Hle.
  destruct (hl_cert c) as [crt|]; [eauto|done].
Qed.

(** Every listener in a trace is of that kind. *)
Definition listeners_mutual (dir : string) (tr : list (event (tls_config Cert Pool))) : Prop :=
  Forall (fun ev => match ev with EvListening _ _ t => mutual dir t | _ => True end) tr.

Lemma mutual_ret {A} dir (x : A + boot_error) : listeners_mutual dir (must x).1.
Proof. constructor. Qed.

Lemma mutual_bind {A B} dir (p : Proc _ A) (k : A -> Proc _ B) :
  listeners_mutual dir p.1 -> (forall x, p.2 = inl x -> listeners_mutual dir (k x).1) -> listeners_mutual dir (p ≫= k).1.
Proof.
  unfold mbind, Proc_bind. intros Hp Hk. destruct p.2 as [x|e] eqn:Ep; simpl; [|done]. apply Forall_app. split; [done|]. by apply Hk.
Qed.

Lemma mutual_deferred {A} dir ev (p : Proc _ A) :
  (forall svc addr t, ev <> EvListening svc addr t) -> listeners_mutual dir p.1 -> listeners_mutual dir (deferred ev p).1.
Proof. intros He Hp. apply Forall_app. split; [done|]. constructor; [|done]. destruct ev; try done. by edestruct He. Qed.

Lemma mutual_attempt dir what err : listeners_mutual dir (attempt what err).1.
Proof. destruct err; constructor. Qed.

Lemma mutual_emit dir ev : (forall svc addr t, ev <> EvListening svc addr t) -> listeners_mutual dir (tell ev).1.
Proof. intros He. constructor; [|done]. destruct ev; try done. by edestruct He. Qed.

Lemma mutual_serve dir svc : listeners_mutual dir (serve h svc).1.
Proof.
  apply mutual_bind; [by apply mutual_emit|]. intros _ _. destruct (h_end h svc) as [|[]]; constructor.
Qed.

Lemma mutual_listening dir svc addr cert key t :
  (must (T := tls_config Cert Pool) (ServerTLS append_pem h (mkFiles dir cert key))).2 = inl t ->
  listeners_mutual dir (tell (EvListening svc addr (Some t))).1.
Proof. intros Ht. constructor; [|done]. exact (ServerTLS_mutual _ _ Ht). Qed.

(** Steps that open no listener, and listeners with the credentials just built. *)
Ltac mutual_step :=
  first
    [ apply mutual_ret | apply mutual_attempt | apply mutual_serve | by apply mutual_emit
    | (eapply mutual_listening; eassumption)
    | apply mutual_deferred; [done|]
    | apply mutual_bind; [|intros ? ?] ].

Lemma bank_listeners cfg : listeners_mutual (bk_certs cfg) (bank_run append_pem h cfg).1.
Proof.
  unfold bank_run. destruct (parsePeers _); [|constructor]. destruct (bank_group _ _ _ _) as [[[id peers] addr]|]; [|constructor].
  unfold bank_boot, startPaxosGroup, serveConsensus, ServerCreds.
  repeat mutual_step. destruct (SplitHostPort addr) as [[? port]|]; [|constructor]. repeat mutual_step.
Qed.

Lemma gateway_listeners cfg : listeners_mutual (sc_certs cfg) (gateway_run append_pem h cfg).1.
Proof. unfold gateway_run, ServerCreds. repeat mutual_step. Qed.

Lemma txnid_listeners cfg : listeners_mutual (sc_certs cfg) (txnid_run append_pem h cfg).1.
Proof. unfold txnid_run, ServerCreds. repeat mutual_step. Qed.
End Servers.

(** Nobody talks to a server of the payment system without a certificate: every
    listener that a bank (for its clients and for consensus), the gateway or the
    id server opens, in any run, accepts a handshake only at TLS 1.3 and only
    with a certificate of the authority in its certs directory. *)
Theorem payment_servers_verify_clients {Cert Pool} (append_pem : string -> option Pool) (verify : Pool -> Cert -> bool)
    (h : host Cert) (bc : bank_config) (gc ic : server_config) dir tr svc addr t c :
  (dir, tr) ∈ [(bk_certs bc, (bank_run append_pem h bc).1); (sc_certs gc, (gateway_run append_pem h gc).1);
               (sc_certs ic, (txnid_run append_pem h ic).1)] ->
  EvListening svc addr t ∈ tr ->
  exists cfg pool, t = Some cfg /\ authority append_pem h dir pool /\
    (accepts_client verify cfg c = true ->
     exists crt, hl_cert c = Some crt /\ verify pool crt = true /\ (VersionTLS13 <= hl_version c)%Z).
Proof.
  intros Hrun Hin. apply mutual_accepts.
  assert (listeners_mutual append_pem h dir tr) as Hall.
  { repeat (apply elem_of_cons in Hrun as [[= -> ->]|Hrun]; [by auto using bank_listeners, gateway_listeners, txnid_listeners|]).
    by apply not_elem_of_nil in Hrun. }
  exact (proj1 (Forall_forall _ _) Hall _ Hin).
Qed.

(** ** Both ends of a connection *)

(** What crypto/tls asks of a server's certificate: the client's authority and the
    name it expects. *)
Definition accepts_server {Cert Pool} (verify : Pool -> Cert -> bool) (names : Cert -> string -> bool)
    (t : tls_config Cert Pool) (version : Z) (crt : Cert) : bool :=
  (t_MinVersion t <=? version)%Z &&
  match t_RootCAs t with Some pool => verify pool crt && names crt (t_ServerName t) | None => false end.

(** Programs that share a directory of certificates can talk: whoever dials (a
    bank, the gateway's registry or the client) and whoever serves, each accepts
    the other at TLS 1.3 when the authority there has signed both certificates
    and the server's names localhost; and the dialler accepts no server without. *)
Theorem payment_connections_are_mutual {Cert Pool} (append_pem : string -> option Pool) (verify : Pool -> Cert -> bool)
    (names : Cert -> string -> bool) (h : host Cert) what addr dir cert key tc ts pool version :
  (dial_as_client append_pem h what addr dir).2 = inl tc -> ServerTLS append_pem h (mkFiles dir cert key) = inl ts ->
  authority append_pem h dir pool ->
  exists cc cs, t_Certificates tc = [cc] /\ t_Certificates ts = [cs] /\
    h_keyPair h dir "client.pem" "client.key" = inl cc /\ h_keyPair h dir cert key = inl cs /\
    accepts_server verify names tc version cs = ((VersionTLS13 <=? version)%Z && (verify pool cs && names cs "localhost")) /\
    accepts_client verify ts (mkHello _ version (Some cc)) = ((VersionTLS13 <=? version)%Z && verify pool cc).
Proof.
  unfold dial_as_client, ClientCreds, ClientTLS, ServerTLS, load. cbn -[VersionTLS13].
  intros Hc Hs (ca & Hca & Hp). rewrite Hca, Hp in *.
  destruct (h_keyPair h dir "client.pem" "client.key") as [cc|]; [|done].
  destruct (h_keyPair h dir cert key) as [cs|]; [|done].
  destruct (h_dial h addr); [done|]. simplify_eq/=. by exists cc, cs.
Qed.

(** ** The life of a bank process *)

Section BankLife.
Context {Cert Pool : Type} (append_pem : string -> option Pool) (h : host Cert).
Implicit Types (tr : list (event (tls_config Cert Pool))).

(** A trace that stops the node and then closes the log, at its end and there
    only. *)
Definition stops_in_order tr : Prop :=
  exists before, tr = before ++ [EvNodeStopped; EvLogClosed] /\ EvNodeStopped ∉ before /\ EvLogClosed ∉ before.

Definition no_node tr : Prop :=
  (forall id ps ti, EvNodeStarted id ps ti ∉ tr) /\ EvServing SBank ∉ tr.

(** The listeners of a replica that serves. *)
Definition served_as cfg id (peers : gmap string string) addr tr : Prop :=
  exists hst port tc tb, SplitHostPort addr = Some (hst, port) /\
    [EvLogOpened id; EvNodeStarted id (peerIDs peers) bank_timing; EvListening SConsensus (":" +:+ port) (Some tc);
     EvListening SBank (":" +:+ fmt_d (bk_port cfg)) (Some tb); EvServing SBank; EvNodeStopped; EvLogClosed] `sublist_of` tr.

Lemma bank_boot_life cfg id peers addr :
  let '(tr, r) := bank_boot append_pem h cfg id peers addr in
  (no_node tr /\ (exists e, r = inr e)) \/
  (stops_in_order tr /\
   (EvServing SBank ∈ tr /\ served_as cfg id peers addr tr \/ EvServing SBank ∉ tr /\ exists e, r = inr e)).
Proof.
  assert (forall tr e, (forall id ps ti, EvNodeStarted id ps ti ∉ tr) -> EvServing SBank ∉ tr ->
            no_node tr /\ exists e', (inr e : unit + boot_error) = inr e') as Hleft by (intros; split; [by split|eauto]).
  unfold bank_boot, startPaxosGroup, serveConsensus.
  destruct (h_mkdir h _); [left; apply Hleft; set_solver|].
  destruct (h_open h "accounts"); [left; apply Hleft; set_solver|].
  destruct (h_open h "ledger"); [left; apply Hleft; set_solver|].
  destruct (h_open h _); [left; apply Hleft; set_solver|].
  destruct (ClientTLS _ _ _ _) as [tc|e]; [|left; apply Hleft; set_solver].
  right. unfold ServerCreds. destruct (ServerTLS _ _ _) as [ts|e]; cbn -[peerIDs fmt_d SplitHostPort];
    [|split; [by eexists [_; _; _; _; _]; split_and!; [done|set_solver..]|right; split; [set_solver|eauto]]].
  destruct (SplitHostPort addr) as [[hst port]|] eqn:Hsp; cbn -[peerIDs fmt_d];
    [|split; [by eexists [_; _; _; _; _]; split_and!; [done|set_solver..]|right; split; [set_solver|eauto]]].
  destruct (h_listen h _); cbn -[peerIDs fmt_d];
    [split; [by eexists [_; _; _; _; _]; split_and!; [done|set_solver..]|right; split; [set_solver|eauto]]|].
  destruct (h_listen h _); cbn -[peerIDs fmt_d];
    [split; [by eexists [_; _; _; _; _; _; _]; split_and!; [done|set_solver..]|right; split; [set_solver|eauto]]|].
  assert ((match h_end h SBank with ServerReturned (Some why) => fail (Failed "serve" why) | _ => mret tt end
            : Proc (tls_config Cert Pool) unit).1 = []) as -> by by destruct (h_end h SBank) as [|[]].
  split; [by eexists [_; _; _; _; _; _; _; _; _; _]; split_and!; [done|set_solver..]|].
  left. split; [set_solver|]. exists hst, port, ts, ts. split; [done|].
  repeat first [apply sublist_skip | apply sublist_cons | apply sublist_nil].
Qed.
End BankLife.

(** C40: A replica of a bank serves only as a member of its group: its log is open, its
    node runs with the group's replicas as peers, and consensus is served on the
    port of its own address before the bank's clients are.  Whatever makes [run]
    return, a node that was started is stopped, once, and its log is closed after
    that, as the last thing; and [run] returns without an error only after
    serving. *)
Theorem bank_serves_its_group {Cert Pool} (append_pem : string -> option Pool) (h : host Cert) cfg :
  let '(tr, r) := bank_run append_pem h cfg in
  (forall id ps ti, EvNodeStarted id ps ti ∈ tr -> stops_in_order tr) /\
  (EvServing SBank ∈ tr -> exists id peers addr,
     bank_group (bk_bank cfg) (bk_id cfg) (bk_peers cfg) (bk_port cfg) = Some (id, peers, addr) /\
     served_as cfg id peers addr tr) /\
  (r = inl tt -> EvServing SBank ∈ tr).
Proof.
  unfold bank_run. destruct (parsePeers _); [|by split_and!; set_solver].
  destruct (bank_group _ _ _ _) as [[[id peers] addr]|]; [|by split_and!; set_solver].
  pose proof (bank_boot_life append_pem h cfg id peers addr) as Hl. destruct (bank_boot _ _ _ _ _ _) as [tr r].
  destruct Hl as [[[Hn Hs] [e ->]]|[Hstop [[Hs Hserved]|[Hs [e ->]]]]]; split_and!; try done; try (by intros ? ? ?).
  - intros id0 ps ti Hin. by destruct (Hn id0 ps ti).
  - intros _. eauto 10.
Qed.

Module ProcessExamples.
(** A machine on which everything works: servers with a context run until it ends,
    the others until their listener fails. *)
Definition good_host : host string := mkHost string
  (fun dir cert key => inl cert) (fun dir name => inl (dir +:+ "/" +:+ name)) (fun _ => None) (fun _ => None)
  (fun _ => None) (fun _ => None) None None (fun _ => None)
  (fun svc => match svc with SNode | SConsole => ContextDone None | _ => ServerReturned (Some "accept: closed") end).
Definition no_durations (_ : string) : option Z := None.
Definition empty_env (_ : string) : string := "".

Definition three_by_three : ClusterConfig := mkClusterConfig 3 3 256 zero_timing.

(** s1n0 of the default cluster. *)
Lemma spawned_nodes_serve_witness :
  exists rest code,
    cluster_main (Pool := string) good_host no_durations empty_env (node_argv three_by_three 7100 256 1 0) =
      (EvListening SNode "127.0.0.1:7103" None :: EvNodeStarted "s1n0" ["s1n1"; "s1n2"; "s1n0"] DefaultTiming :: rest, code).
Proof.
  destruct (proj2 (spawned_nodes_serve (Pool := string) good_host no_durations empty_env three_by_three 7100 256
    eq_refl ltac:(lia) ltac:(split; discriminate) eq_refl eq_refl eq_refl (fun _ => eq_refl) (fun _ => eq_refl)
    (fun _ => eq_refl)) (1, 0)%Z) as (rest & code & Hrun).
  - vm_compute. set_solver.
  - exists rest, code. refine (eq_trans Hrun _). vm_compute. reflexivity.
Defined.

(** The bank of the quickstart. *)
Definition icici : bank_config := mkBankConfig "ICICI" "" "" 50052 "localhost:50051" "certs" ".".

Lemma payment_servers_verify_clients_witness :
  exists cfg pool, authority Some good_host "certs" pool /\
    accepts_client (fun pool crt : string => String.eqb pool "certs/ca.pem" && String.eqb crt "client.pem") cfg
      (mkHello _ VersionTLS13 (Some "client.pem")) = true.
Proof.
  pose proof (payment_servers_verify_clients (Pool := string) Some
    (fun pool crt => String.eqb pool "certs/ca.pem" && String.eqb crt "client.pem") good_host icici
    (mkServerConfig 50051 "certs" ".") (mkServerConfig 50055 "certs" ".") "certs"
    (bank_run (Pool := string) Some good_host icici).1 SConsensus ":51052"
    (Some (mkTlsConfig ["bank.pem"] (Some "certs/ca.pem") None RequireAndVerifyClientCert "" VersionTLS13))
    (mkHello _ VersionTLS13 (Some "client.pem")) ltac:(left) ltac:(vm_compute; set_solver)) as (cfg & pool & Hc & Ha & _).
  injection Hc as <-. exists (mkTlsConfig ["bank.pem"] (Some "certs/ca.pem") None RequireAndVerifyClientCert "" VersionTLS13), pool.
  split; [exact Ha|vm_compute; reflexivity].
Defined.

(** The client and the gateway of the quickstart. *)
Lemma payment_connections_are_mutual_witness :
  exists cc cs : string, cc = "client.pem" /\ cs = "gateway.pem" /\
    accepts_server (fun pool crt : string => String.eqb pool "certs/ca.pem") (fun _ n => String.eqb n "localhost")
      (mkTlsConfig ["client.pem"] None (Some "certs/ca.pem") NoClientCert "localhost" VersionTLS13) VersionTLS13 cs = true.
Proof.
  destruct (payment_connections_are_mutual (Pool := string) Some (fun pool crt => String.eqb pool "certs/ca.pem")
    (fun _ n => String.eqb n "localhost") good_host "connect to gateway" "localhost:50051" "certs" "gateway.pem" "gateway.key"
    (mkTlsConfig ["client.pem"] None (Some "certs/ca.pem") NoClientCert "localhost" VersionTLS13)
    (mkTlsConfig ["gateway.pem"] (Some "certs/ca.pem") None RequireAndVerifyClientCert "" VersionTLS13) "certs/ca.pem" VersionTLS13
    eq_refl eq_refl (ex_intro _ "certs/ca.pem" (conj eq_refl eq_refl))) as (cc & cs & Hcc & Hcs & _ & _ & Ha & _).
  injection Hcc as <-. injection Hcs as <-. exists "client.pem", "gateway.pem".
  split; [reflexivity|split; [reflexivity|]]. refine (eq_trans Ha _). vm_compute. reflexivity.
Defined.

(** What the quickstart bank opens, in order. *)
Example quickstart_bank :
  bank_main (Pool := string) Some good_host no_durations ["-bank=ICICI"; "-port=50052"] =
  (let tls := mkTlsConfig ["bank.pem"] (Some "certs/ca.pem") None RequireAndVerifyClientCert "" VersionTLS13 in
   [EvMkdir "."; EvOpened "accounts"; EvOpened "ledger"; EvLogOpened "ICICI"; EvNodeStarted "ICICI" ["ICICI"] bank_timing;
    EvListening SConsensus ":51052" (Some tls); EvWatchLeadership; EvListening SBank ":50052" (Some tls); EvConsole;
    EvServing SBank; EvNodeStopped; EvLogClosed], 1%Z).
Proof. vm_compute. reflexivity. Qed.

(** The children inherit the environment and read SHARDS from it, which the
    gateway's own -shards overrides: with SHARDS=20 and -shards=3 the gateway
    starts its nodes and every one of them exits. *)
Definition many_shards (name : string) : string := if String.eqb name "SHARDS" then "20" else "".

Example inherited_shards_stop_the_nodes :
  (cluster_main (Pool := string) good_host no_durations many_shards ["-transport=grpc"; "-shards=3"]).2 = 0%Z /\
  cluster_main (Pool := string) good_host no_durations many_shards (node_argv three_by_three 7100 256 1 0) = ([], 1%Z).
Proof. vm_compute. auto. Qed.

(** Flags are read as the package reads them: one or two dashes, a separate value,
    other bases. *)
Example flag_forms :
  bank_parseFlags no_durations ["--port"; "0xc384"; "-id=ICICI-1"; "rest"; "-port=1"] =
    inl (mkBankConfig "ICICI" "ICICI-1" "" 50052 "localhost:50051" "certs" ".") /\
  bank_parseFlags no_durations ["-port=50_052"] = bank_parseFlags no_durations ["-port=50052"] /\
  bank_parseFlags no_durations ["-prot=1"] = inr (NotDefined "prot") /\
  bank_parseFlags no_durations ["-port"] = inr (NeedsArgument "port").
Proof. vm_compute. auto. Qed.
End ProcessExamples.
