(* ===== verification/Remote.v ===== *)
(** * internal/cluster/remote.go: replicas in their own processes

    The control service of a node process and the replica the gateway sees
    through it: proposals with their errors as flags on the wire, the buffer of
    traces between drains, and the fault table that is pushed to every node.
    Put together they are an instance of the engine's [Replicas]: what EngineProofs.v
    shows of the engine holds over node processes too. *)

From S2P Require Import Prelude GoText PaxosTypes PaxosNode Ledger Faults Transport Cluster Engine EngineProofs EngineLedger.

(** ** Proposals *)

(** [ErrNotLeader], [ErrNoQuorum] and [context.DeadlineExceeded], as printed. *)
Definition propose_error_text (e : ProposeFailure) : string :=
  match e with
  | PNotLeader => "paxos: not the leader"
  | PNoQuorum => "paxos: no quorum"
  | PDeadline => "context deadline exceeded"
  | POther msg => msg
  end.

Record proposeReply := mkProposeReply { prResult : Result; prErr : string; prNotLeader : bool; prNoQuorum : bool }.

(** The Propose method of the control service. *)
Definition control_propose (out : Result + ProposeFailure) : proposeReply :=
  match out with
  | inl res => mkProposeReply res "" false false
  | inr e =>
      mkProposeReply result0 (propose_error_text e)
        (match e with PNotLeader => true | _ => false end)
        (match e with PNoQuorum | PDeadline => true | _ => false end)
  end.

(** [remoteReplica.Propose]; a call that fails carries its own text. *)
Definition remote_Propose (id : string) (call : proposeReply + string) : Result + ProposeFailure :=
  match call with
  | inr why => inr (POther (id +:+ ": " +:+ why))
  | inl out =>
      if prNotLeader out then inr PNotLeader
      else if prNoQuorum out then inr PNoQuorum
      else if negb (String.eqb (prErr out) "") then inr (POther (prErr out))
      else inl (prResult out)
  end.

(** Two outcomes the engine does not tell apart. *)
Definition same_outcome (a b : Result + ProposeFailure) : Prop :=
  match a, b with
  | inl r, inl r' => r = r'
  | inr (PNoQuorum | PDeadline), inr (PNoQuorum | PDeadline) => True
  | inr e, inr e' => e = e'
  | _, _ => False
  end.

#[export] Instance same_outcome_equiv : Equivalence same_outcome.
Proof.
  split.
  - intros [r|[]]; simpl; done.
  - intros [r|[]] [r'|[]]; simpl; congruence.
  - intros [r|[]] [r'|[]] [r''|[]]; simpl; try congruence; done.
Qed.

(** The wire loses nothing of what a proposal came to: the engine sees the same
    result, or the same kind of failure, as with the replica in its own process. *)
Theorem remote_propose_faithful id out :
  (forall msg, out = inr (POther msg) -> msg <> "") ->
  same_outcome (remote_Propose id (inl (control_propose out))) out.
Proof.
  intros Hmsg. destruct out as [r|[| | |msg]]; simpl; try done.
  specialize (Hmsg msg eq_refl). by rewrite (proj2 (String.eqb_neq _ _) Hmsg).
Qed.

Lemma remote_propose_faithful_witness :
  same_outcome (remote_Propose "s0n1" (inl (control_propose (inr PDeadline)))) (inr PDeadline).
Proof. apply (remote_propose_faithful "s0n1" (inr PDeadline)). intros msg [=]. Defined.

(** ** Traces *)

Definition maxBufferedTraces : nat := 4096.

(** [observe]: further traces are not kept. *)
Definition observe (t : Trace) (buffer : list Trace) : list Trace :=
  if length buffer <? maxBufferedTraces then buffer ++ [t] else buffer.

Definition drain_traces (buffer : list Trace) : list Trace * list Trace := ([], buffer).

(** A drain hands over the first traces since the last one, in order and without
    gaps up to the bound, and starts afresh. *)
Theorem drain_is_bounded_prefix ts :
  let buffer := foldl (fun b t => observe t b) [] ts in
  drain_traces buffer = ([], firstn maxBufferedTraces ts).
Proof.
  intros buffer. unfold drain_traces. f_equal. unfold buffer. clear buffer.
  induction ts as [|t ts IH] using rev_ind; [done|]. rewrite foldl_app. cbn [foldl]. rewrite IH. unfold observe.
  rewrite length_take. destruct (Nat.ltb_spec (Nat.min maxBufferedTraces (length ts)) maxBufferedTraces) as [Hlt|Hge].
  - rewrite (take_ge ts), take_ge; [done|rewrite length_app; simpl; lia|lia].
  - rewrite take_app_le by lia. done.
Qed.

(** ** Faults *)

(** [NewRemote]'s [pushFaults]: every node process takes the engine's table. *)
Definition push_to_all (st : FaultState) (nodes : gmap string Faults) : gmap string Faults :=
  Restore st <$> nodes.

(** After a push every node process refuses exactly what the engine's own table
    refuses, whatever it had before. *)
Theorem pushed_faults_agree ops nodes name g x y :
  let f := fold_left run_fault ops NewFaults in
  push_to_all (State f) nodes !! name = Some g -> Check g x y = Check f x y.
Proof.
  intros f Hl. apply lookup_fmap_Some in Hl as (g0 & <- & _).
  assert (faults_equiv (Restore (State f) g0) f) as -> by by apply restore_state_wf, run_fault_wf.
  done.
Qed.

Lemma pushed_faults_agree_witness :
  let f := fold_left run_fault [FKill "s0n1"; FPartition [["s0n0"]; ["s0n2"]]] NewFaults in
  let nodes := push_to_all (State f) {["s0n2" := NewFaults]} in
  exists g, nodes !! "s0n2" = Some g /\ Check g "s0n0" "s0n2" = Some (ErrPartitioned "s0n0" "s0n2").
Proof.
  intros f nodes. exists (Restore (State f) NewFaults). split; [vm_compute; reflexivity|].
  transitivity (Check f "s0n0" "s0n2"); [|vm_compute; reflexivity].
  apply (pushed_faults_agree [FKill "s0n1"; FPartition [["s0n0"]; ["s0n2"]]] {["s0n2" := NewFaults]} "s0n2").
  vm_compute. reflexivity.
Defined.

(** ** A cluster of node processes *)

(** What becomes of a control call. *)
Inductive call_fate := Delivered | Undelivered (why : string) | Unanswered (why : string).

(** The node processes behind their control services.  Each sends and refuses by
    its own fault table, and observes the traffic it starts. *)
Definition pcall (P A : Type) : Type := gmap string Faults -> P -> P * list (string * Trace) * A.

Class Processes (P : Type) := {
  p_info : string -> pcall P NodeInfo;
  p_campaign : string -> pcall P unit;
  p_propose : string -> Command -> pcall P (Result + ProposeFailure);
  p_sleep : pcall P unit;
  p_now : P -> Z;
  p_done : P -> bool;
}.

Class ProcessesLaws (P : Type) `{Processes P} := {
  p_info_time r tables p : (p_now p <= p_now (p_info r tables p).1.1)%Z;
  p_campaign_time r tables p : (p_now p <= p_now (p_campaign r tables p).1.1)%Z;
  p_propose_time r c tables p : (p_now p <= p_now (p_propose r c tables p).1.1)%Z;
  p_sleep_time tables p : (p_now p + pollEvery <= p_now (p_sleep tables p).1.1)%Z;
}.

(** Processes, their tables and trace buffers, and the fates of the control calls
    to come; beyond the list, calls are delivered. *)
Record Remotes (P : Type) := mkRemotes {
  rm_procs : P; rm_tables : gmap string Faults; rm_traces : gmap string (list Trace); rm_fates : list call_fate }.
Arguments mkRemotes {P}.
Arguments rm_procs {P}.
Arguments rm_tables {P}.
Arguments rm_traces {P}.
Arguments rm_fates {P}.

Lemma let_fst {A B C} (x : A * B) (g : B -> C) : (let '(a, b) := x in (a, g b)).1 = x.1.
Proof. by destruct x. Qed.

Section Remotes.
Context {P : Type} `{Processes P}.
Implicit Types (w : Remotes P).

Definition observe_at (buffers : gmap string (list Trace)) (t : string * Trace) : gmap string (list Trace) :=
  <[t.1 := observe t.2 (default [] (buffers !! t.1))]> buffers.

(** A method that runs in the process. *)
Definition on_node {A} (op : pcall P A) w : Remotes P * A :=
  let '(p, ts, x) := op (rm_tables w) (rm_procs w) in
  (mkRemotes p (rm_tables w) (foldl observe_at (rm_traces w) ts) (rm_fates w), x).

(** SetFaults and Drain. *)
Definition control_set_faults (id : string) (st : FaultState) w : Remotes P * unit :=
  (mkRemotes (rm_procs w) (<[id := Restore st (default NewFaults (rm_tables w !! id))]> (rm_tables w)) (rm_traces w)
     (rm_fates w), tt).
Definition control_drain (id : string) w : Remotes P * list Trace :=
  let '(rest, out) := drain_traces (default [] (rm_traces w !! id)) in
  (mkRemotes (rm_procs w) (rm_tables w) (<[id := rest]> (rm_traces w)) (rm_fates w), out).

(** [remoteReplica.call]. *)
Definition remote_call {A} (method : Remotes P -> Remotes P * A) w : Remotes P * (A + string) :=
  match rm_fates w with
  | [] => let '(w', x) := method w in (w', inl x)
  | fate :: rest =>
      let w := mkRemotes (rm_procs w) (rm_tables w) (rm_traces w) rest in
      match fate with
      | Delivered => let '(w', x) := method w in (w', inl x)
      | Undelivered why => (w, inr why)
      | Unanswered why => ((method w).1, inr why)
      end
  end.

Definition remote_Info (id : string) w : Remotes P * option NodeInfo :=
  let '(w', r) := remote_call (on_node (p_info id)) w in
  (w', match r with inl i => Some i | inr _ => None end).
Definition remote_Campaign (id : string) w : Remotes P * unit :=
  let '(w', _) := remote_call (on_node (p_campaign id)) w in (w', tt).
Definition remote_propose (id : string) (c : Command) w : Remotes P * (Result + ProposeFailure) :=
  let '(w', r) := remote_call (fun w => let '(w', out) := on_node (p_propose id c) w in (w', control_propose out)) w in
  (w', remote_Propose id r).
Definition remote_setFaults (st : FaultState) w (id : string) : Remotes P :=
  (remote_call (control_set_faults id st) w).1.
Definition remote_drain (id : string) w : Remotes P * list Trace :=
  let '(w', r) := remote_call (control_drain id) w in (w', match r with inl ts => ts | inr _ => [] end).

(** [NewRemote]'s closures over the replicas [ids]. *)
Definition pushFaults (ids : list string) (st : FaultState) w : Remotes P := foldl (remote_setFaults st) w ids.
Fixpoint drain_all (ids : list string) w : Remotes P * list Trace :=
  match ids with
  | [] => (w, [])
  | id :: rest => let '(w1, ts) := remote_drain id w in let '(w2, more) := drain_all rest w1 in (w2, ts ++ more)
  end.

(** The traffic is not observed by the engine's process: it is drained. *)
Definition quiet {A} (op : Remotes P -> Remotes P * A) : ecall (Remotes P) A :=
  fun _ w => let '(w', x) := op w in (w', [], x).

Context (cfg : ClusterConfig).

(** The replicas of every shard, in order. *)
Definition remote_ids : list string := all_shards cfg ≫= shard_ids cfg.

#[local] Instance remote_replicas : Replicas (Remotes P) := {|
  r_info id := quiet (remote_Info id);
  r_campaign id := quiet (remote_Campaign id);
  r_propose id c := quiet (remote_propose id c);
  r_sleep := quiet (on_node p_sleep);
  r_push := Some (fun st => quiet (fun w => (pushFaults remote_ids st w, tt)));
  r_drain := Some (quiet (drain_all remote_ids));
  w_now w := p_now (rm_procs w);
  w_done w := p_done (rm_procs w);
|}.

(** The world [NewRemote] starts from: no faults, no old traffic. *)
Definition remote_start w : Engine (Remotes P) :=
  start cfg (drain_all remote_ids (pushFaults remote_ids (mkFaultState [] []) w)).1.

(** *** The laws of the clock *)

Lemma quiet_world {A} (op : Remotes P -> Remotes P * A) f w : (quiet op f w).1.1 = (op w).1.
Proof. unfold quiet. by destruct (op w). Qed.

(** A call changes the world as its method does, or not at all. *)
Lemma remote_call_ind {A} (I : Remotes P -> Remotes P -> Prop) (method : Remotes P -> Remotes P * A) w :
  (forall p tables traces f1 f2, I (mkRemotes p tables traces f1) (mkRemotes p tables traces f2)) ->
  (forall x y z, I x y -> I y z -> I x z) ->
  (forall w, I w (method w).1) -> I w (remote_call method w).1.
Proof.
  intros Hf Ht Hm. unfold remote_call. destruct w as [p tables traces fates]. simpl.
  destruct fates as [|[] rest]; simpl.
  - specialize (Hm (mkRemotes p tables traces [])). by destruct (method _).
  - eapply Ht; [apply (Hf p tables traces _ rest)|]. specialize (Hm (mkRemotes p tables traces rest)). by destruct (method _).
  - apply Hf.
  - eapply Ht; [apply (Hf p tables traces _ rest)|]. apply Hm.
Qed.

Definition no_earlier w w' : Prop := (p_now (rm_procs w) <= p_now (rm_procs w'))%Z.

#[local] Instance no_earlier_pre : PreOrder no_earlier.
Proof. split; unfold no_earlier; [intros w; lia|intros x y z; lia]. Qed.

Lemma remote_call_time {A} (method : Remotes P -> Remotes P * A) w :
  (forall w, no_earlier w (method w).1) -> no_earlier w (remote_call method w).1.
Proof. apply remote_call_ind; unfold no_earlier; simpl; intros; lia. Qed.

Lemma on_node_time {A} (op : pcall P A) w :
  (forall tables p, p_now p <= p_now (op tables p).1.1)%Z -> no_earlier w (on_node op w).1.
Proof.
  intros Hop. specialize (Hop (rm_tables w) (rm_procs w)). unfold on_node, no_earlier.
  by destruct (op _ _) as [[p ts] x].
Qed.

Lemma push_time_ok ids st w : no_earlier w (pushFaults ids st w).
Proof.
  unfold pushFaults. revert w. induction ids as [|id ids IH]; intros w; simpl; [reflexivity|].
  transitivity (remote_setFaults st w id); [|apply IH].
  apply (remote_call_time (control_set_faults id st)). intros w0. exact (reflexivity (R := no_earlier) w0).
Qed.

Lemma drain_time_ok ids w : no_earlier w (drain_all ids w).1.
Proof.
  revert w. induction ids as [|id ids IH]; intros w; simpl; [reflexivity|].
  assert (no_earlier w (remote_drain id w).1) as H1.
  { unfold remote_drain. rewrite (let_fst (remote_call _ w)). apply remote_call_time.
    intros w0. exact (reflexivity (R := no_earlier) w0). }
  destruct (remote_drain id w) as [w1 ts]. specialize (IH w1). destruct (drain_all ids w1) as [w2 more].
  by transitivity w1.
Qed.

#[local] Instance remote_laws `{!ProcessesLaws P} : ReplicasLaws (Remotes P).
Proof.
  assert (forall A (op : Remotes P -> Remotes P * A), (forall w, no_earlier w (op w).1) -> clocked 0 (quiet op)) as Hq.
  { intros A op Hop f w. rewrite quiet_world. specialize (Hop w). unfold no_earlier in Hop. simpl. lia. }
  split; simpl; intros.
  - apply Hq. intros w. unfold remote_Info. rewrite (let_fst (remote_call _ w)).
    apply remote_call_time. intros w0. apply on_node_time, p_info_time.
  - apply Hq. intros w. unfold remote_Campaign. rewrite (let_fst (remote_call _ w) (fun _ => tt)).
    apply remote_call_time. intros w0. apply on_node_time, p_campaign_time.
  - apply Hq. intros w. unfold remote_propose. rewrite (let_fst (remote_call _ w)). apply remote_call_time.
    intros w0. rewrite (let_fst (on_node _ w0)). apply on_node_time, p_propose_time.
  - intros f w. rewrite quiet_world. unfold on_node. pose proof (p_sleep_time (rm_tables w) (rm_procs w)) as Hs.
    simpl. by destruct (p_sleep _ _) as [[p ts] x].
  - simplify_eq. apply Hq. intros w. apply push_time_ok.
  - simplify_eq. apply Hq. intros w. apply drain_time_ok.
Qed.

(** *** Faults stay in step *)

(** No control call is going to fail. *)
Definition delivered w : Prop := rm_fates w = [].

(** Every node process has the engine's table. *)
Definition in_step (e : Engine (Remotes P)) : Prop :=
  forall id, id ∈ remote_ids ->
    exists g, rm_tables (eWorld e) !! id = Some (Restore (State (eFaults e)) g).

(** Calls are delivered and leave the tables alone. *)
Definition keeps_tables w w' : Prop := delivered w -> delivered w' /\ rm_tables w' = rm_tables w.

#[local] Instance keeps_tables_pre : PreOrder keeps_tables.
Proof.
  split; unfold keeps_tables; [done|]. intros x y z H1 H2 Hx. destruct (H1 Hx) as [Hy E1].
  destruct (H2 Hy) as [Hz E2]. split; [done|congruence].
Qed.

Lemma remote_call_delivered {A} (method : Remotes P -> Remotes P * A) w :
  delivered w -> remote_call method w = ((method w).1, inl (method w).2).
Proof. unfold delivered, remote_call. intros ->. by destruct (method w). Qed.

Lemma on_node_tables {A} (op : pcall P A) w : keeps_tables w (on_node op w).1.
Proof. intros Hd. unfold on_node. by destruct (op _ _) as [[p ts] x]. Qed.

Lemma drain_tables ids w : keeps_tables w (drain_all ids w).1.
Proof.
  revert w. induction ids as [|id ids IH]; intros w; simpl; [reflexivity|].
  assert (keeps_tables w (remote_drain id w).1) as H1.
  { intros Hd. unfold remote_drain. by rewrite remote_call_delivered. }
  destruct (remote_drain id w) as [w1 ts]. specialize (IH w1). destruct (drain_all ids w1) as [w2 more].
  by transitivity w1.
Qed.

Lemma push_tables ids st w :
  delivered w ->
  delivered (pushFaults ids st w) /\
  (forall id, id ∈ ids -> exists g, rm_tables (pushFaults ids st w) !! id = Some (Restore st g)) /\
  (forall id g, rm_tables w !! id = Some (Restore st g) -> exists g', rm_tables (pushFaults ids st w) !! id = Some (Restore st g')).
Proof.
  unfold pushFaults. revert w. induction ids as [|id ids IH]; intros w Hd; simpl.
  { split_and!; [done|intros id Hid; by apply not_elem_of_nil in Hid|eauto]. }
  unfold remote_setFaults at 2 4 6. rewrite (remote_call_delivered _ w Hd). simpl.
  match goal with |- context [foldl _ ?x ids] => set (w1 := x) end.
  destruct (IH w1 Hd) as (H1 & H2 & H3). split_and!; [done|..].
  - intros id' [->|Hin]%elem_of_cons; [|by apply H2]. eapply H3. simpl. apply lookup_insert_eq.
  - intros id' g Hl. destruct (decide (id' = id)) as [->|Hne]; eapply H3; simpl;
      [apply lookup_insert_eq|by rewrite lookup_insert_ne].
Qed.

Definition stays_in_step : relation (Engine (Remotes P)) := fun e e' =>
  delivered (eWorld e) -> delivered (eWorld e') /\ (in_step e -> in_step e').

Lemma tables_in_step e w : keeps_tables (eWorld e) w -> stays_in_step e (set_world w e).1.
Proof.
  intros Hk Hd. destruct (Hk Hd) as [Hd' Ht]. split; [done|]. intros Hs id Hid. simpl. rewrite Ht. by apply Hs.
Qed.

Lemma push_in_step e : delivered (eWorld e) -> let w := pushFaults remote_ids (State (eFaults e)) (eWorld e) in
  delivered w /\ in_step (set_world w e).1.
Proof. intros Hd w. destruct (push_tables remote_ids (State (eFaults e)) _ Hd) as (H1 & H2 & _). by split. Qed.

#[local] Instance stays_in_step_frame : FramePropose stays_in_step.
Proof.
  assert (forall A (op : Remotes P -> Remotes P * A), (forall w, keeps_tables w (op w).1) -> respects stays_in_step (quiet op)) as Hq.
  { intros A op Hop e. rewrite quiet_world. by apply tables_in_step. }
  split; [split|]; try (intros; intros ?; done); intros.
  - split; unfold stays_in_step; [done|]. intros x y z H1 H2 Hx. destruct (H1 Hx) as [Hy ?]. destruct (H2 Hy). auto.
  - intros e. unfold to_sink. by destruct (eSink e).
  - apply Hq. intros w Hd. unfold remote_Info. rewrite remote_call_delivered by done. by apply on_node_tables.
  - apply Hq. intros w Hd. unfold remote_Campaign. rewrite remote_call_delivered by done. by apply on_node_tables.
  - apply Hq. intros w. apply on_node_tables.
  - injection H0 as <-. intros Hd. simpl. destruct (push_in_step e Hd) as [H1 H2]. split; [exact H1|intros _; exact H2].
  - injection H0 as <-. apply Hq, drain_tables.
  - apply Hq. intros w Hd. unfold remote_propose. rewrite remote_call_delivered by done. simpl.
    rewrite (let_fst (on_node _ w)). by apply on_node_tables.
Qed.

(** Changing the engine's table and pushing it. *)
Lemma keeps_change {A} f (m : EM (Remotes P) A) :
  keeps stays_in_step m -> keeps stays_in_step (set_faults f;; push cfg;; m).
Proof.
  intros Hm e Hd. rewrite bind_run. set (e1 := (set_faults f e).1).
  set (e2 := (set_world (pushFaults remote_ids (State (eFaults e1)) (eWorld e1)) e1).1).
  destruct (push_in_step e1 Hd) as [Hd2 Hs2]. fold e2 in Hs2.
  assert (stays_in_step e2 ((push cfg;; m) e1).1) as H1.
  { rewrite bind_run. etransitivity; [|apply Hm]. unfold push. rewrite bind_get, bind_run.
    etransitivity; [|apply (keeps_snapshot stays_in_step)].
    exact (proj2 (run_ecall stays_in_step (quiet (fun w => (pushFaults remote_ids (State (eFaults e1)) w, tt))) e1)). }
  destruct (H1 Hd2) as [H2 H3]. split; [exact H2|auto].
Qed.

Lemma command_in_step c : keeps stays_in_step (run_command cfg c).
Proof.
  destruct c; simpl run_command; unfold eng_Kill, eng_Revive, eng_Partition, eng_Heal;
    frame_with ltac:(idtac; lazymatch goal with |- keeps _ (set_faults _ ≫= _) => apply keeps_change end).
Qed.

Lemma command_wf c e : faults_wf (eFaults e) -> faults_wf (eFaults (run_command cfg c e).1).
Proof.
  intros Hwf. pose proof (run_command_exact cfg c e) as Hx. destruct (run_command cfg c e) as [e' [err|]]; simpl.
  - by subst e'.
  - rewrite Hx. by destruct c.
Qed.

Lemma start_in_step w : delivered w -> delivered (eWorld (remote_start w)) /\ in_step (remote_start w).
Proof.
  intros Hd. unfold remote_start, start. set (w1 := pushFaults remote_ids (mkFaultState [] []) w).
  destruct (push_tables remote_ids (mkFaultState [] []) w Hd) as (Hd1 & Hs1 & _). fold w1 in Hd1, Hs1.
  destruct (drain_tables remote_ids w1 Hd1) as [Hd2 Ht2]. set (w2 := (drain_all remote_ids w1).1) in *.
  destruct (keeps_pollRoles stays_in_step cfg (newEngine w2) Hd2) as [H1 H2]. split; [exact H1|apply H2].
  intros id Hid. simpl. rewrite Ht2. by apply Hs1.
Qed.

(** C36: Over node processes whose control calls get through, from the start of
    the gateway on and after any fault commands and the elections they set off,
    every node process refuses exactly the messages that the engine's own table
    refuses. *)
Theorem remote_faults_in_step cmds w :
  delivered w ->
  let e := fold_left (fun e c => (run_command cfg c e).1) cmds (remote_start w) in
  forall id x y, id ∈ remote_ids -> exists g,
    rm_tables (eWorld e) !! id = Some g /\ Check g x y = Check (eFaults e) x y.
Proof.
  intros Hd e. destruct (start_in_step w Hd) as [Hd0 Hs0].
  assert (faults_wf (eFaults (remote_start w))) as Hwf0.
  { unfold remote_start, start. by rewrite (keeps_pollRoles same_faults cfg (newEngine _)). }
  assert (delivered (eWorld e) /\ in_step e /\ faults_wf (eFaults e)) as (_ & Hs & Hwf).
  { unfold e. clear e. revert Hd0 Hs0 Hwf0. generalize (remote_start w). induction cmds as [|c cmds IH]; intros e0 H0 H1 H2.
    - done.
    - simpl. destruct (command_in_step c e0 H0) as [H3 H4]. apply IH; [done|auto|by apply command_wf]. }
  intros id x y Hid. destruct (Hs id Hid) as [g Hg]. eexists. split; [exact Hg|].
  by rewrite (restore_state_wf _ g Hwf).
Qed.
End Remotes.

(** *** Processes that keep the interfaces *)

Module RemoteExamples.
Import Lab.

(** The replicas of EngineLedger.v's example, each in a process of its own; a
    proposal is observed by the process that leads. *)
#[export] Instance lab_processes : Processes Lab := {|
  p_info id := fun _ w => (w, [], default (mkNodeInfo id "" (mkBallot 0 "") 0 [] []) (lab_info id w));
  p_campaign id := fun _ w => (lab_campaign id w, [], tt);
  p_propose id c := fun _ w => let '(w', ts, out) := lab_propose id c w in (w', pair id <$> ts, out);
  p_sleep := fun _ w => ((r_sleep NewFaults w).1.1, [], tt);
  p_now := clock;
  p_done := fun _ => false;
|}.

#[export] Instance lab_process_laws : ProcessesLaws Lab.
Proof.
  split; simpl; intros; try lia.
  - pose proof (campaign_time r NewFaults p) as Hp. simpl in Hp. lia.
  - pose proof (propose_time r c NewFaults p) as Hp. simpl in Hp. destruct (lab_propose r c p) as [[w' ts] out].
    simpl in *. lia.
Qed.

(** The engine's commands over the processes. *)
Definition remotes0 : Remotes Lab := mkRemotes (mkLab 0 ∅ 0 ∅ 0 ∅) ∅ ∅ [].

Lemma remote_faults_in_step_witness :
  let e := fold_left (fun e c => (run_command (H := remote_replicas cfg3) cfg3 c e).1) outage (remote_start cfg3 remotes0) in
  exists g, rm_tables (eWorld e) !! "s0n2" = Some g /\ Check g "s0n0" "s1n1" = Check (eFaults e) "s0n0" "s1n1".
Proof. refine (remote_faults_in_step cfg3 outage remotes0 eq_refl "s0n2" "s0n0" "s1n1" _). vm_compute. set_solver. Defined.

Example remote_put_get :
  let I := remote_replicas (P := Lab) cfg3 in
  (eng_Get cfg3 "tushar" (Put cfg3 "tushar" 100 (remote_start cfg3 remotes0)).1).2 = inl 100%Z.
Proof. vm_compute. reflexivity. Qed.

(** A control call that fails is not repeated: the process that misses a push
    goes on by its old table. *)
Example missed_push :
  let push_lost := fun w => mkRemotes (rm_procs w) (rm_tables w) (rm_traces w) [Undelivered "unavailable"] in
  let w := push_lost (pushFaults ["s0n0"; "s0n1"] (mkFaultState [] []) remotes0) in
  let w' := pushFaults ["s0n0"; "s0n1"] (State (Kill "s0n2" NewFaults)) w in
  (fun g => Check g "s0n0" "s0n2") <$> (rm_tables w' !! "s0n0") = Some None /\
  (fun g => Check g "s0n1" "s0n2") <$> (rm_tables w' !! "s0n1") = Some (Some (ErrDown "s0n2")).
Proof. vm_compute. done. Qed.
End RemoteExamples.
